(* ===== verification/_CoqProject ===== *)
-Q . S2P
Prelude.v
Netip.v
Netip6.v
Orp.v
Tls.v
Candidate.v
Resume.v
Stream.v
StreamSwap.v
Waiters.v
Forward.v
Session.v
SessionInv.v
Dialing.v
Reconnect.v
Incoming.v
EndToEnd.v
Race.v
P2P.v
Promote.v
Safety.v
Conc.v
Locks.v
Deadlock.v
Happy.v
Fine.v
FineEq.v
ConcInv.v
Vip.v
Dns.v
Intercept.v
Bridge.v
Main.v
Tproxy.v
Start.v
Frames.v
Flags.v
Consumer.v
Backends.v
Mutexes.v
Races.v
