(* ===== verification/Prelude.v ===== *)
(** * A verification library for outrelay-agent

    The agent (Go, under [src/]) keeps one connection to a relay, exposes
    local services to other agents through it, opens streams to remote
    services for connections it intercepts, survives relay restarts by
    resuming every stream at its byte position, and moves streams to a direct
    peer-to-peer connection or to the relay's UDP forwarding plane when it can.

    ** Parts of the program and where they are modelled

    - [Prelude]: machine integers with their wrap-around, Go errors and
      [errors.Is], the state monad, list lemmas, the scope [agent_scope].
    - [Netip]: what the sources use of [net/netip] (addresses, prefixes,
      parsing and printing); [Netip6] proves that printing and parsing of
      IPv6 addresses are inverse.
    - [Orp]: frames, messages, the trace of external calls, the class [Net]
      that answers them, and the effect type [Eff S A] of a program over a Go
      state [S] and the trace.
    - [Tls]: the TLS configurations ([loadServerTLS] and [loadClientTLS] of
      [main.go], [ensureForwardALPN] of [forward.go]) and what a QUIC
      handshake does with them.
    - [Candidate] ([pkg/candidate/candidate.go]): host candidates, their
      ranking, the server-reflexive query, the insertion sort.
    - [Resume]: the interface of [lib/resume] ([ResumeLib] for the operations,
      [ResumeSpec] for the documented laws) and an instance, [Ring].
    - [Stream], [StreamSwap] ([pkg/session/session.go], [ResumableStream]):
      the read and write loops with their accounting; the fields behind the
      mutex and the wake-up channels as a step relation over goroutines.
    - [Waiters] ([pkg/session/promote.go]): the answer and mode waiters, maps
      of one-slot channels shared with the control reader.
    - [Forward] ([pkg/forward/conn.go], [pkg/session/forward.go]): datagram
      framing and the bring-up and tear-down of a forward session.
    - [Session] ([pkg/session/session.go]): dialing, services, stream wrappers
      held by reference, [Resume], [Reconnect], [Run], [RunWithReconnect],
      [handleIncoming].  [SessionInv] is the invariant and the program logic
      [run_ok]; [Dialing], [Reconnect], [Incoming] hold the theorems.
    - [EndToEnd]: two agents and a lossy relay, against a duplex pipe.
    - [Race]: a writer and a reader interleaved with the retransmission, the
      announcement and the swap that move their stream.
    - [P2P] ([pkg/p2p]): connectivity check, promoter, demoter, wire form of
      candidates.
    - [Promote] ([pkg/session/promote.go], [checkpoints.go]): control reader,
      warm-up punch, [Promote], both ends of direct migration, checkpoints.
    - [Safety]: the session invariant over every operation of a session.
    - [Conc]: goroutines.  A program [prog S A] whose steps are single calls
      and critical sections, configurations of any number of them, an
      executable scheduler, a rely-guarantee logic with ownership ([wp]) and a
      logic for what a goroutine does itself ([ends]).
    - [Locks], [Deadlock]: the same programs with mutexes, where a critical
      section is entered by acquiring its mutex, run in many steps and left;
      a class [Regions] of what each mutex guards; that critical sections are
      atomic for programs that keep to it, and that programs which hold one
      mutex at a time do not deadlock.
    - [Fine]: the operations of [Session] and [Promote] as such programs, with
      the [go] statements of the sources; [FineEq] proves that each of them,
      run alone, is the operation; [ConcInv] and [Backends] prove what holds
      in every interleaving.  [Mutexes] says what [mu], [p2pMu], [ctrlWriteMu]
      and the wrappers' mutexes guard and that every program keeps to it;
      [Races] exhibits executions with these mutexes that go wrong.
    - [Happy]: the concurrent attempts of [DialAnyHappy], their channel and
      the collecting loop.
    - [Vip], [Dns], [Intercept] ([pkg/intercept]): virtual addresses, the DNS
      server, [SO_ORIGINAL_DST], and the interceptors' accept loops, [Accept]
      and [Close] as a step relation.
    - [Bridge] (both [bridge] functions) and [Main]
      ([cmd/outrelay-agent/main.go]): connecting with the TCP fallback, the
      interceptor the flags ask for, one intercepted connection, background
      promotion.
    - [Tproxy]: the explicit and the transparent interceptor as instances of
      the machine of [Intercept], and the transparent one put together with
      the DNS server and the allocator the way [startInterceptor] does.
    - [Start]: the sequence of calls of [main], from the check of the flags to
      the deferred closes and the exit code, and the loop of [runConsumer].
    - [Frames]: the types of the frames all of these write.
    - [Flags]: the registered flags, [flag.Parse], [--version], the process
      from its arguments to its exit code, and [signalContext].
    - [Consumer]: the [Interceptor] interface ([intercept.go]) as a type class
      with its contract, its two instances, and [runConsumer] against it.

    Definitions keep the Go names; where two Go functions share a name the
    receiver is a prefix ([Session_Dial], [rs_Close], [Demoter_Run]).

    ** How state and effects are modelled

    A Go struct is a record; a map is a [gmap]; a pointer that is shared (a
    [ResumableStream] is held by the stream map, bridges and callers) is a
    reference into a store, so that two holders see one object.  Every call
    on a connection, stream, frame, datagram, handler or timer appends an
    event to the trace and is answered by [Net] as a function of the trace
    before it, so a theorem over all [Net] covers every behaviour of the
    network.  Closing a closed channel is [EvPanic] (or [c_panic]).  Errors
    are values of [result] or [option error].  Goroutines appear in
    three ways: as programs of [Conc] that a scheduler interleaves between any
    two calls or critical sections ([Fine], [Happy]), as step relations
    ([StreamSwap], [Race], [Intercept], [Consumer], [EndToEnd]), and, in the
    sequential operations, as lists of operations of other goroutines that
    happen while a call is blocked ([Waiters], [Promote], [Session]).  In
    [Fine] a field that the code reads without a lock is a step of its own and
    what a mutex protects is one step that names the mutex; [Mutexes] proves
    that splitting these steps further changes nothing.  The bring-up of a
    forward session, which shares nothing, is one step.

    ** What the theorems show

    - End to end: a resumable stream refines a reliable pipe
      ([stream_refines_pipe]); nothing is lost on a live stream; parked
      streams recover while the rings hold the missing bytes.
    - Resume and reconnect: exact retransmission, replay of every service and
      stream, no stream in between, back-off bounds, termination once the
      context is over.
    - Concurrency of one stream: no double close, no lost wake-up; [Read] and
      [Write] account for every byte and return; moving a stream whose old
      transport is dead is exact in every interleaving ([quiet_move_exact]).
    - Concurrency of the session: in every interleaving of any goroutines the
      invariant holds and nobody panics ([concurrent_session_invariant]), a
      closed stream stays closed ([close_is_final]), every goroutine closes
      the backends it was given ([backends_closed], [consumer_closes_local]),
      critical sections are atomic ([sections_are_atomic],
      [mutex_session_invariant]), nobody waits for a mutex for good
      ([no_deadlock]),
      and the race of [DialAnyHappy] returns, leaking no connection
      ([happy_race_no_leak], [happy_race_returns]).
    - The whole program: a command line is read by its grammar and back
      ([Parse_is_grammar], [flags_roundtrip]), nothing is called before it is
      in order ([process_calls_nothing_unconfigured]), the foreground
      exchanges of [main] come before the control reader
      ([startup_order]), it ends with the codes and closes it
      should ([main_exit]), every frame is well typed ([frames_well_typed]),
      the dial loop of [Reconnect] equals [DialAny], and forward-mode peers
      authenticate each other ([forward_mutual_auth]).
    - Clean-up: incoming and consumed streams, dialing, forward bring-up,
      promotion and interceptors leave nothing behind; the session invariant
      holds after any sequence of operations.
    - Waiters: a mode signal or an answer reaches its waiter.
    - Selection: candidate sort, connectivity check, TCP fallback.
    - Interception: the allocator is a bijection that is exhausted only when
      full; a resolved name leads to its service
      ([resolved_name_reaches_service]); for every interceptor the connections
      it takes are served or closed ([consumer_conserves]).
    - Where code and comments disagree or the code does not do what it is
      for: [busy_move_corrupts], [migrate_to_direct_loses],
      [collision_abandons_new_stream], [promote_leaks_waiter],
      [hostPriority_other_beats_private], [dns_unreachable_names],
      [accept_after_close], [RunWithReconnect_never_fails],
      [dial_races_reconnect], [control_readers_overlap],
      [resume_leaks_closed_stream], [transport_race],
      [listener_error_stops_all].

    ** Assumptions, fuel and bounds

    Code outside [src/] is a parameter.  [ResumeSpec] states the counters and
    the ring of [lib/resume]; [WriterContract], [ReaderContract] the
    [io.Writer]/[io.Reader] contracts; [MapOrder] that Go visits each key of
    a map once; [IdsDistinct] that the id generator does not repeat itself
    within a run; [PKI] is certificate verification; the DNS message codec,
    the Unicode case tables, the file system and [identity.Parse] are
    arguments.  Each has an instance ([Ring], [demo_net], [demo_env], ...)
    used by the witnesses.  Loops without a structural bound take fuel and
    return [None] (or [false]) when it is used up; the bounds proved are
    [K + 1] and [len(p) + K + 1] rounds for [Read] and [Write] woken [K] times,
    three rounds for [Allocate], one more than the number of active streams
    for [freshStreamID], two for [RunWithReconnect] after the context ended,
    seven steps per address for [DialAnyHappy].  [Fine] takes the number of
    times a blocked call looks at its channel before its context ends.
    The accept loops and the control reader run as long as their peer feeds
    them.  Byte counters are below [2^63] where they cross the wire.

    ** Not modelled

    Log output and usage texts; the methods of the quic-go adapters of
    [forward.go] that only delegate; [SetDeadline] and address accessors; real
    time other than deadlines and back-off.  The demoter, which the program
    never starts, is not interleaved with the session.  Fields read without a
    lock are read atomically: what the Go memory model allows beyond that is
    outside the model.  The cryptography of a handshake is the class [PKI]. *)

From Stdlib Require Import ZArith Lia.
From stdpp Require Export base tactics numbers list gmap strings.

Open Scope Z_scope.

(** ** Machine integers

    Go's fixed-width integers are [Z] with the wrap-around written out: a
    conversion such as [uint16(x)] or [int64(x)] is the function below, never
    the identity. *)
Definition uint (w z : Z) : Z := z mod 2 ^ w.

Definition uint16 (z : Z) : Z := uint 16 z.
Definition uint32 (z : Z) : Z := uint 32 z.
Definition uint64 (z : Z) : Z := uint 64 z.
Definition int64 (z : Z) : Z := (z + 2 ^ 63) mod 2 ^ 64 - 2 ^ 63.

Lemma uint_range w z : 0 <= w -> 0 <= uint w z < 2 ^ w.
Proof. intros Hw. apply Z.mod_pos_bound, Z.pow_pos_nonneg; lia. Qed.

Lemma uint_small w z : 0 <= z < 2 ^ w -> uint w z = z.
Proof. apply Z.mod_small. Qed.

Lemma uint16_small z : 0 <= z < 65536 -> uint16 z = z.
Proof. apply (uint_small 16). Qed.

Lemma uint64_small z : 0 <= z < 2 ^ 64 -> uint64 z = z.
Proof. apply (uint_small 64). Qed.

Lemma int64_small z : 0 <= z < 2 ^ 63 -> int64 z = z.
Proof. intros Hz. unfold int64. rewrite Z.mod_small; lia. Qed.

(** A byte counter survives the trip [int64 -> uint64 -> int64] of the wire. *)
Lemma int64_uint64 z : 0 <= z < 2 ^ 63 -> int64 (uint64 z) = z.
Proof. intros Hz. rewrite uint64_small by lia. by apply int64_small. Qed.

(** ** Errors and results

    [errors.New] and [fmt.Errorf] without [%w] build an [ErrorString];
    [fmt.Errorf("text: %w", err)] builds a [Wrapped]; the package-level error
    values that callers compare with [errors.Is] are [Sentinel]s; [External]
    is an error made by code that is not part of the agent. *)
Inductive sentinel : Type :=
  | EOF                    (* io.EOF *)
  | Canceled               (* context.Canceled *)
  | DeadlineExceeded       (* context.DeadlineExceeded *)
  | NetClosed              (* net.ErrClosed *)
  | StreamLost             (* session.ErrStreamLost *)
  | BeforeRing             (* resume.ErrBeforeRing *)
  | NoPair                 (* p2p.ErrNoPair *)
  | PromoterMisconfigured  (* p2p.ErrPromoterMisconfigured *)
  | DemoterMisconfigured   (* p2p.ErrDemoterMisconfigured *)
  | InterceptClosed.       (* intercept.ErrClosed *)

#[export] Instance sentinel_eq_dec : EqDecision sentinel.
Proof. solve_decision. Defined.

Inductive error : Type :=
  | ErrorString (msg : string)
  | Wrapped (msg : string) (cause : error)
  | Sentinel (s : sentinel)
  | External (code : Z).

#[export] Instance error_eq_dec : EqDecision error.
Proof. solve_decision. Defined.

(** [errors.Is(err, target)] follows the chain of wrapped errors. *)
Fixpoint errors_Is (e : error) (target : sentinel) : bool :=
  match e with
  | ErrorString _ | External _ => false
  | Wrapped _ e' => errors_Is e' target
  | Sentinel s => bool_decide (s = target)
  end.

(** Go's [(T, error)] where exactly one of the two is meaningful. *)
Inductive result (A : Type) : Type :=
  | Ok (a : A)
  | Err (e : error).
Arguments Ok {A} _.
Arguments Err {A} _.

Definition is_ok {A} (r : result A) : bool :=
  match r with Ok _ => true | Err _ => false end.

(** ** State passing

    Code that mutates its receiver or talks to the network is written in a
    plain state monad over the state it threads. *)
Definition M (S A : Type) : Type := S -> A * S.

Definition mret {S A} (a : A) : M S A := fun s => (a, s).
Definition mbind {S A B} (m : M S A) (k : A -> M S B) : M S B :=
  fun s => let '(a, s') := m s in k a s'.

Declare Scope agent_scope.
Delimit Scope agent_scope with agent.
Notation "'do' x <- m ;; k" := (mbind m (fun x => k))
  (at level 100, x name, m at next level, right associativity) : agent_scope.
Notation "'do_' m ;; k" := (mbind m (fun _ => k))
  (at level 100, m at next level, right associativity) : agent_scope.

(** ** Tactics *)
(** Evaluate a monadic program one bind at a time and split on what the
    environment answered. *)
Ltac mstep := cbn [mbind mret]; unfold mbind, mret.
Ltac mcases := repeat (case_match; simplify_eq/=).

(** ** Hints *)
Create HintDb agent.
#[export] Hint Resolve uint_range : agent.

(** ** Lists *)
Section ListFacts.
Context {A : Type}.
Implicit Types l k : list A.

Lemma prefix_take_drop l k : l `prefix_of` k -> l ++ drop (length l) k = k.
Proof. intros [k' ->]. by rewrite drop_app_length. Qed.

Lemma take_length_prefix l k : l `prefix_of` k -> take (length l) k = l.
Proof. intros [k' ->]. by rewrite take_app_length. Qed.
End ListFacts.

Lemma filter_all {A} (P : A -> Prop) `{!forall x, Decision (P x)} l :
  Forall P l -> filter P l = l.
Proof. induction 1; [done|]. rewrite filter_cons_True by done. congruence. Qed.

Lemma filter_none {A} (P : A -> Prop) `{!forall x, Decision (P x)} l :
  Forall (fun x => ~ P x) l -> filter P l = [].
Proof. induction 1; [done|]. by rewrite filter_cons_False. Qed.
