(* ===== verification/Netip.v ===== *)
(** * Go's [net/netip], as far as the agent uses it

    Addresses, ports and prefixes of the standard library: the classification
    predicates [HostCandidates] filters with, successor and prefix membership
    for the VIP allocator, and the textual form that travels in candidate
    messages. *)

From Stdlib Require Import ZArith Lia Ascii String Bool.
From S2P Require Import Prelude.

(** ** Addresses

    [netip.Addr] is the zero value, an IPv4 address, or an IPv6 address with
    an optional zone. *)
Inductive Addr : Type :=
  | AddrZero
  | Addr4 (v : Z)
  | Addr6 (v : Z) (zone : string).

#[export] Instance Addr_eq_dec : EqDecision Addr.
Proof. solve_decision. Defined.

#[export] Instance Addr_countable : Countable Addr.
Proof.
  apply (inj_countable'
    (fun a => match a with
              | AddrZero => inl tt
              | Addr4 v => inr (inl v)
              | Addr6 v z => inr (inr (v, z))
              end)
    (fun x => match x with
              | inl _ => AddrZero
              | inr (inl v) => Addr4 v
              | inr (inr (v, z)) => Addr6 v z
              end)).
  by intros [].
Defined.

Record AddrPort : Type := mkAddrPort { ap_addr : Addr; ap_port : Z }.

#[export] Instance AddrPort_eq_dec : EqDecision AddrPort.
Proof. solve_decision. Defined.

(** The bounds Go's representation enforces by its types. *)
Definition addr_wf (a : Addr) : Prop :=
  match a with
  | AddrZero => True
  | Addr4 v => 0 <= v < 2 ^ 32
  | Addr6 v _ => 0 <= v < 2 ^ 128
  end.

Definition addrport_wf (p : AddrPort) : Prop :=
  addr_wf (ap_addr p) /\ 0 <= ap_port p < 2 ^ 16.

Definition AddrPortFrom (a : Addr) (port : Z) : AddrPort := mkAddrPort a port.

Definition Addr_IsValid (a : Addr) : bool :=
  match a with AddrZero => false | _ => true end.

Definition AddrPort_IsValid (p : AddrPort) : bool := Addr_IsValid (ap_addr p).

Definition Is4 (a : Addr) : bool := match a with Addr4 _ => true | _ => false end.
Definition Is6 (a : Addr) : bool := match a with Addr6 _ _ => true | _ => false end.

Definition Is4In6 (a : Addr) : bool :=
  match a with Addr6 v _ => Z.shiftr v 32 =? 65535 | _ => false end.

Definition Unmap (a : Addr) : Addr :=
  match a with
  | Addr6 v _ => if Is4In6 a then Addr4 (v mod 2 ^ 32) else a
  | _ => a
  end.

(** The 16-bit group [i] of an IPv6 address and the octet [i] of an IPv4 one. *)
Definition v6u16 (v i : Z) : Z := Z.land (Z.shiftr v (16 * (7 - i))) 65535.
Definition v4oct (v i : Z) : Z := Z.land (Z.shiftr v (8 * (3 - i))) 255.

(** The [As4] bytes of an IPv4 address. *)
Definition As4 (v : Z) : list Z := [v4oct v 0; v4oct v 1; v4oct v 2; v4oct v 3].

Definition AddrFrom4 (b0 b1 b2 b3 : Z) : Addr :=
  Addr4 (Z.lor (Z.shiftl b0 24) (Z.lor (Z.shiftl b1 16) (Z.lor (Z.shiftl b2 8) b3))).

Definition IsLoopback (a : Addr) : bool :=
  match Unmap a with
  | Addr4 v => v4oct v 0 =? 127
  | Addr6 v _ => v =? 1
  | AddrZero => false
  end.

Definition IsMulticast (a : Addr) : bool :=
  match Unmap a with
  | Addr4 v => Z.land (v4oct v 0) 240 =? 224
  | Addr6 v _ => Z.shiftr (v6u16 v 0) 8 =? 255
  | AddrZero => false
  end.

Definition IsLinkLocalUnicast (a : Addr) : bool :=
  match Unmap a with
  | Addr4 v => (v4oct v 0 =? 169) && (v4oct v 1 =? 254)
  | Addr6 v _ => Z.land (v6u16 v 0) 65472 =? 65152
  | AddrZero => false
  end.

Definition IsUnspecified (a : Addr) : bool :=
  bool_decide (a = Addr4 0) || bool_decide (a = Addr6 0 "").

Definition IsGlobalUnicast (a : Addr) : bool :=
  match Unmap a with
  | AddrZero => false
  | Addr4 v =>
      negb ((v =? 0) || (v =? 2 ^ 32 - 1)) &&
      negb (IsLoopback a) && negb (IsMulticast a) && negb (IsLinkLocalUnicast a)
  | Addr6 _ _ =>
      negb (bool_decide (a = Addr6 0 "")) &&
      negb (IsLoopback a) && negb (IsMulticast a) && negb (IsLinkLocalUnicast a)
  end.

Definition IsPrivate (a : Addr) : bool :=
  match Unmap a with
  | Addr4 v =>
      (v4oct v 0 =? 10) ||
      ((v4oct v 0 =? 172) && (Z.land (v4oct v 1) 240 =? 16)) ||
      ((v4oct v 0 =? 192) && (v4oct v 1 =? 168))
  | Addr6 v _ => Z.land (Z.shiftr (v6u16 v 0) 8) 254 =? 252
  | AddrZero => false
  end.

(** [Addr.Next]: the zero value when there is no successor. *)
Definition Addr_Next (a : Addr) : Addr :=
  match a with
  | AddrZero => AddrZero
  | Addr4 v => if v + 1 =? 2 ^ 32 then AddrZero else Addr4 (v + 1)
  | Addr6 v z => if v + 1 =? 2 ^ 128 then AddrZero else Addr6 (v + 1) z
  end.

(** [netip.AddrFromSlice]: 4 or 16 bytes. *)
Definition be_bytes (bs : list Z) : Z :=
  fold_left (fun acc b => acc * 256 + b) bs 0.

Definition AddrFromSlice (bs : list Z) : option Addr :=
  if decide (length bs = 4%nat) then Some (Addr4 (be_bytes bs))
  else if decide (length bs = 16%nat) then Some (Addr6 (be_bytes bs) "")
  else None.

(** ** Prefixes *)
Record Prefix : Type := mkPrefix { pfx_addr : Addr; pfx_bits : Z }.

Definition bitlen (a : Addr) : Z :=
  match a with AddrZero => 0 | Addr4 _ => 32 | Addr6 _ _ => 128 end.

Definition prefix_valid (p : Prefix) : Prop :=
  addr_wf (pfx_addr p) /\ pfx_addr p <> AddrZero /\
  0 <= pfx_bits p <= bitlen (pfx_addr p).

Definition Contains (p : Prefix) (a : Addr) : bool :=
  match pfx_addr p, a with
  | Addr4 v, Addr4 w => Z.shiftr (Z.lxor v w) (32 - pfx_bits p) =? 0
  | Addr6 v _, Addr6 w z =>
      bool_decide (z = ""%string) && (Z.shiftr (Z.lxor v w) (128 - pfx_bits p) =? 0)
  | _, _ => false
  end.

Definition Masked (p : Prefix) : Prefix :=
  let mask v w := Z.shiftl (Z.shiftr v (w - pfx_bits p)) (w - pfx_bits p) in
  match pfx_addr p with
  | AddrZero => p
  | Addr4 v => mkPrefix (Addr4 (mask v 32)) (pfx_bits p)
  | Addr6 v z => mkPrefix (Addr6 (mask v 128) z) (pfx_bits p)
  end.

(** ** Textual form *)
Definition is_digit (c : ascii) : bool :=
  let n := N_of_ascii c in (48 <=? n)%N && (n <=? 57)%N.

Definition digit_val (c : ascii) : Z := Z.of_N (N_of_ascii c) - 48.

(** [parseIPv4Fields]: one pass over the characters with the value, the digit
    count of the current octet and the octets already stored. *)
Fixpoint parseIPv4Fields (s : list ascii) (val digLen : Z) (fields : list Z)
    : option (list Z) :=
  match s with
  | [] =>
      if (length fields <? 3)%nat then None else Some (fields ++ [val])
  | c :: s' =>
      if is_digit c then
        if (digLen =? 1) && (val =? 0) then None
        else
          let val' := val * 10 + digit_val c in
          if 255 <? val' then None
          else parseIPv4Fields s' val' (digLen + 1) fields
      else if bool_decide (c = "."%char) then
        (* ".1.2.3", "1..2.3" and "1.2.3." have an octet without a digit *)
        if (digLen =? 0) || bool_decide (s' = []) then None
        else if (length fields =? 3)%nat then None
        else parseIPv4Fields s' 0 0 (fields ++ [val])
      else None
  end.

Definition parseIPv4 (s : list ascii) : option Addr :=
  match parseIPv4Fields s 0 0 [] with
  | Some [b0; b1; b2; b3] => Some (AddrFrom4 b0 b1 b2 b3)
  | _ => None
  end.

(** Decimal text of one octet and the dotted quad ([appendDecimal],
    [appendTo4]). *)
Definition dec_digit (d : Z) : ascii := ascii_of_N (Z.to_N (48 + d)).

Definition appendDecimal (x : Z) : list ascii :=
  (if 100 <=? x then [dec_digit (x / 100)] else []) ++
  (if 10 <=? x then [dec_digit (x / 10 mod 10)] else []) ++
  [dec_digit (x mod 10)].

Definition string4 (v : Z) : list ascii :=
  appendDecimal (v4oct v 0) ++ ["."%char] ++
  appendDecimal (v4oct v 1) ++ ["."%char] ++
  appendDecimal (v4oct v 2) ++ ["."%char] ++
  appendDecimal (v4oct v 3).

(** *** IPv6

    The address is handled as its eight 16-bit groups; Go walks sixteen bytes
    two at a time. *)
Definition hex_val (c : ascii) : option Z :=
  let n := Z.of_N (N_of_ascii c) in
  if (48 <=? n) && (n <=? 57) then Some (n - 48)
  else if (97 <=? n) && (n <=? 102) then Some (n - 97 + 10)
  else if (65 <=? n) && (n <=? 70) then Some (n - 65 + 10)
  else None.

(** One group: its value, how many digits it had and what follows. *)
Fixpoint hex_group (s : list ascii) (off acc : Z) : option (Z * Z * list ascii) :=
  match s with
  | [] => Some (acc, off, [])
  | c :: s' =>
      match hex_val c with
      | None => Some (acc, off, s)
      | Some d =>
          let acc' := acc * 16 + d in
          if (3 <? off) || (65535 <? acc') then None
          else hex_group s' (off + 1) acc'
      end
  end.

(** The main loop of [parseIPv6]; [room] is how many groups are still free, so
    it starts at 8 and every round stores one. *)
Fixpoint parseIPv6_loop (room : nat) (s : list ascii) (groups : list Z)
    (ellipsis : option nat) : option (list Z * option nat * list ascii) :=
  match room with
  | O => Some (groups, ellipsis, s)
  | S room' =>
      match hex_group s 0 0 with
      | None => None
      | Some (acc, off, rest) =>
          if off =? 0 then None
          else match rest with
          | [] => Some (groups ++ [acc], ellipsis, [])
          | "."%char :: _ =>
              if bool_decide (ellipsis = None) && negb (room =? 2)%nat then None
              else if (room <? 2)%nat then None
              else match parseIPv4Fields s 0 0 [] with
              | Some [b0; b1; b2; b3] =>
                  Some (groups ++ [b0 * 256 + b1; b2 * 256 + b3], ellipsis, [])
              | _ => None
              end
          | ":"%char :: [] => None
          | ":"%char :: ":"%char :: s' =>
              if bool_decide (ellipsis = None) then
                let groups' := groups ++ [acc] in
                match s' with
                | [] => Some (groups', Some (length groups'), [])
                | _ => parseIPv6_loop room' s' groups' (Some (length groups'))
                end
              else None
          | ":"%char :: s' => parseIPv6_loop room' s' (groups ++ [acc]) ellipsis
          | _ => None
          end
      end
  end.

Definition groups_val (gs : list Z) : Z :=
  fold_left (fun acc g => acc * 65536 + g) gs 0.

Definition expand_ellipsis (groups : list Z) (ellipsis : option nat) : option (list Z) :=
  if (length groups <? 8)%nat then
    match ellipsis with
    | None => None
    | Some e => Some (take e groups ++ replicate (8 - length groups) 0 ++ drop e groups)
    end
  else match ellipsis with None => Some groups | Some _ => None end.

Fixpoint split_zone (s : list ascii) : list ascii * option (list ascii) :=
  match s with
  | [] => ([], None)
  | "%"%char :: z => ([], Some z)
  | c :: s' => let '(a, z) := split_zone s' in (c :: a, z)
  end.

Definition parseIPv6 (s : list ascii) : option Addr :=
  let '(a, z) := split_zone s in
  if bool_decide (z = Some []) then None
  else
    let zone := string_of_list_ascii (default [] z) in
    let '(a', start) :=
      match a with
      | ":"%char :: ":"%char :: a' => (a', Some 0%nat)
      | _ => (a, None)
      end in
    if bool_decide (start = Some 0%nat) && bool_decide (a' = []) then Some (Addr6 0 zone)
    else
      match parseIPv6_loop 8 a' [] start with
      | Some (groups, ellipsis, []) =>
          gs ← expand_ellipsis groups ellipsis; Some (Addr6 (groups_val gs) zone)
      | _ => None
      end.

Fixpoint parse_dispatch (s : list ascii) : option bool :=
  match s with
  | [] => None
  | "."%char :: _ => Some true
  | ":"%char :: _ => Some false
  | "%"%char :: _ => None
  | _ :: s' => parse_dispatch s'
  end.

Definition ParseAddr (str : string) : option Addr :=
  let s := list_ascii_of_string str in
  match parse_dispatch s with
  | Some true => parseIPv4 s
  | Some false => parseIPv6 s
  | None => None
  end.

Definition hex_digit (d : Z) : ascii :=
  ascii_of_N (Z.to_N (if d <? 10 then 48 + d else 87 + d)).

Definition appendHex (x : Z) : list ascii :=
  (if 4096 <=? x then [hex_digit (Z.shiftr x 12)] else []) ++
  (if 256 <=? x then [hex_digit (Z.land (Z.shiftr x 8) 15)] else []) ++
  (if 16 <=? x then [hex_digit (Z.land (Z.shiftr x 4) 15)] else []) ++
  [hex_digit (Z.land x 15)].

Definition v6groups (v : Z) : list Z := map (v6u16 v) (seqZ 0 8).

(** Length of the run of zero groups a list starts with. *)
Fixpoint zero_run (gs : list Z) : nat :=
  match gs with
  | 0 :: gs' => S (zero_run gs')
  | _ => O
  end.

(** The leftmost longest run of at least two zero groups, as (start, length). *)
Fixpoint best_run (gs : list Z) (i : nat) (best : option (nat * nat)) : option (nat * nat) :=
  match gs with
  | [] => best
  | _ :: gs' =>
      let l := zero_run gs in
      let cur := match best with Some (_, n) => n | None => 0%nat end in
      best_run gs' (S i) (if (2 <=? l)%nat && (cur <? l)%nat then Some (i, l) else best)
  end.

Fixpoint join_groups (gs : list Z) : list ascii :=
  match gs with
  | [] => []
  | [g] => appendHex g
  | g :: gs' => appendHex g ++ [":"%char] ++ join_groups gs'
  end.

Definition string6 (v : Z) : list ascii :=
  let gs := v6groups v in
  match best_run gs 0 None with
  | None => join_groups gs
  | Some (i, n) =>
      join_groups (take i gs) ++ [":"%char; ":"%char] ++ join_groups (drop (i + n) gs)
  end.

Definition zone_suffix (z : string) : list ascii :=
  if bool_decide (z = ""%string) then [] else "%"%char :: list_ascii_of_string z.

Definition Addr_String (a : Addr) : string :=
  match a with
  | AddrZero => "invalid IP"%string
  | Addr4 v => string_of_list_ascii (string4 v)
  | Addr6 v z =>
      if Is4In6 a then
        string_of_list_ascii
          (list_ascii_of_string "::ffff:" ++ string4 (v mod 2 ^ 32) ++ zone_suffix z)
      else string_of_list_ascii (string6 v ++ zone_suffix z)
  end.

(** [netip.ParsePrefix]: an address, a slash and a decimal length without sign
    or leading zero; a zone is not allowed. *)
Fixpoint split_last_slash (s : list ascii) : option (list ascii * list ascii) :=
  match s with
  | [] => None
  | c :: s' =>
      match split_last_slash s' with
      | Some (a, b) => Some (c :: a, b)
      | None => if bool_decide (c = "/"%char) then Some ([], s') else None
      end
  end.

Fixpoint parse_dec (s : list ascii) (acc : Z) : option Z :=
  match s with
  | [] => Some acc
  | c :: s' => if is_digit c then parse_dec s' (acc * 10 + digit_val c) else None
  end.

Definition ParsePrefix (str : string) : option Prefix :=
  match split_last_slash (list_ascii_of_string str) with
  | None => None
  | Some (a, b) =>
      ip ← ParseAddr (string_of_list_ascii a);
      let zoned := match ip with Addr6 _ z => negb (bool_decide (z = ""%string)) | _ => false end in
      let leading0 := match b with c :: _ :: _ => bool_decide (c = "0"%char) | _ => false end in
      if zoned || leading0 || bool_decide (b = []) then None
      else
        bits ← parse_dec b 0;
        if bitlen ip <? bits then None else Some (mkPrefix ip bits)
  end.

(** [netip.ParseAddrPort]: the last colon separates the port; an IPv6 address
    is in square brackets, an IPv4 address is not. *)
Fixpoint split_last_colon (s : list ascii) : option (list ascii * list ascii) :=
  match s with
  | [] => None
  | c :: s' =>
      match split_last_colon s' with
      | Some (a, b) => Some (c :: a, b)
      | None => if bool_decide (c = ":"%char) then Some ([], s') else None
      end
  end.

Definition ParseAddrPort (str : string) : option AddrPort :=
  match split_last_colon (list_ascii_of_string str) with
  | None => None
  | Some (ip, port) =>
      let '(bracketed, ip') :=
        match ip with
        | "["%char :: r => (true, if bool_decide (last r = Some "]"%char)
                                  then Some (removelast r) else None)
        | _ => (false, Some ip)
        end in
      ip'' ← ip';
      if bool_decide (ip = []) || bool_decide (port = []) then None
      else
        p ← parse_dec port 0;
        if 65535 <? p then None
        else
          a ← ParseAddr (string_of_list_ascii ip'');
          if eqb bracketed (Is6 a) then Some (mkAddrPort a p) else None
  end.

(** ** Facts *)
Lemma v4oct_range v i : 0 <= v4oct v i < 256.
Proof.
  unfold v4oct. change 255 with (Z.ones 8). rewrite Z.land_ones by lia.
  apply Z.mod_pos_bound; lia.
Qed.

Lemma v4oct_div v i : 0 <= i <= 3 -> v4oct v i = v / 2 ^ (8 * (3 - i)) mod 256.
Proof.
  intros Hi. unfold v4oct. change 255 with (Z.ones 8).
  rewrite Z.land_ones, Z.shiftr_div_pow2 by lia. done.
Qed.

Lemma AddrFrom4_val b0 b1 b2 b3 :
  0 <= b0 < 256 -> 0 <= b1 < 256 -> 0 <= b2 < 256 -> 0 <= b3 < 256 ->
  AddrFrom4 b0 b1 b2 b3 = Addr4 (b0 * 2 ^ 24 + b1 * 2 ^ 16 + b2 * 2 ^ 8 + b3).
Proof.
  intros H0 H1 H2 H3. unfold AddrFrom4. f_equal.
  assert (Hor : forall a b n, 0 <= n -> 0 <= b < 2 ^ n ->
            Z.lor (Z.shiftl a n) b = a * 2 ^ n + b).
  { intros a b n Hn Hb. pose proof (Z.add_lor_land (Z.shiftl a n) b) as E.
    assert (Z.land (Z.shiftl a n) b = 0) as E0.
    { apply Z.bits_inj'. intros m Hm. rewrite Z.land_spec, Z.bits_0.
      destruct (decide (m < n)) as [Hlt|Hge].
      - by rewrite Z.shiftl_spec_low by lia.
      - destruct (decide (b = 0)) as [->|Hb0]; [by rewrite Z.bits_0, andb_false_r|].
        pose proof (Z.log2_lt_pow2 b n). rewrite (Z.bits_above_log2 b m) by lia.
        apply andb_false_r. }
    rewrite E0, Z.shiftl_mul_pow2 in E by lia. rewrite Z.shiftl_mul_pow2; lia. }
  rewrite (Hor b2 b3) by lia.
  rewrite (Hor b1 (b2 * 2 ^ 8 + b3)) by lia.
  rewrite (Hor b0) by lia. lia.
Qed.

Lemma AddrFrom4_As4 v :
  0 <= v < 2 ^ 32 ->
  AddrFrom4 (v4oct v 0) (v4oct v 1) (v4oct v 2) (v4oct v 3) = Addr4 v.
Proof.
  intros Hv. rewrite AddrFrom4_val by apply v4oct_range. f_equal.
  rewrite !v4oct_div by lia.
  change (2 ^ (8 * (3 - 0))) with 16777216. change (2 ^ (8 * (3 - 1))) with 65536.
  change (2 ^ (8 * (3 - 2))) with 256. change (2 ^ (8 * (3 - 3))) with 1.
  change (2 ^ 32) with 4294967296 in Hv. change (2 ^ 24) with 16777216.
  change (2 ^ 16) with 65536. change (2 ^ 8) with 256.
  Z.div_mod_to_equations. lia.
Qed.

(** A property of every octet is a property of 256 values. *)
Lemma octet_ind (P : Z -> Prop) : Forall P (seqZ 0 256) -> forall x, 0 <= x < 256 -> P x.
Proof.
  intros HP x Hx. rewrite Forall_forall in HP. apply HP. apply elem_of_seqZ. lia.
Qed.

(** An octet's text parses back to the octet, whatever follows it. *)
Lemma parse_octet x rest fields :
  0 <= x < 256 ->
  parseIPv4Fields (appendDecimal x ++ rest) 0 0 fields =
  parseIPv4Fields rest x (Z.of_nat (length (appendDecimal x))) fields.
Proof.
  revert x. apply octet_ind.
  let l := eval vm_compute in (seqZ 0 256) in change (seqZ 0 256) with l.
  repeat constructor.
Qed.

Lemma appendDecimal_nonempty x : (0 < Z.of_nat (length (appendDecimal x))).
Proof. unfold appendDecimal. rewrite !length_app. simpl. lia. Qed.

Lemma parse_dot rest val digLen fields :
  rest <> [] -> 0 < digLen -> (length fields < 3)%nat ->
  parseIPv4Fields ("."%char :: rest) val digLen fields =
  parseIPv4Fields rest 0 0 (fields ++ [val]).
Proof.
  intros Hr Hd Hf. cbn [parseIPv4Fields]. change (is_digit ".") with false. cbn iota.
  rewrite bool_decide_eq_true_2 by done. rewrite bool_decide_eq_false_2 by done.
  destruct (Z.eqb_spec digLen 0) as [|_]; [lia|]. cbn [orb].
  by destruct (Nat.eqb_spec (length fields) 3) as [|_]; [lia|].
Qed.

Lemma appendDecimal_app_nonempty x rest : appendDecimal x ++ rest <> [].
Proof.
  intros H. apply app_eq_nil in H as [H _]. pose proof (appendDecimal_nonempty x).
  rewrite H in *. simpl in *. lia.
Qed.

Lemma parseIPv4Fields_string4 v :
  parseIPv4Fields (string4 v) 0 0 [] = Some (As4 v).
Proof.
  unfold string4. cbn [app].
  repeat first
    [ rewrite parse_octet by apply v4oct_range
    | rewrite parse_dot by
        (first [apply appendDecimal_app_nonempty | apply appendDecimal_nonempty | simpl; lia]) ].
  rewrite <- (app_nil_r (appendDecimal (v4oct v 3))), parse_dot, parse_octet
    by (first [apply v4oct_range | apply appendDecimal_app_nonempty
              | apply appendDecimal_nonempty | simpl; lia]).
  done.
Qed.

Lemma parseIPv4_string4 v : 0 <= v < 2 ^ 32 -> parseIPv4 (string4 v) = Some (Addr4 v).
Proof.
  intros Hv. unfold parseIPv4. rewrite parseIPv4Fields_string4. cbn. by rewrite AddrFrom4_As4.
Qed.

(** Only the dot decides: the text of an IPv4 address takes the IPv4 branch. *)
Lemma parse_dispatch_octet x rest :
  0 <= x < 256 ->
  parse_dispatch (appendDecimal x ++ "."%char :: rest) = Some true.
Proof.
  revert x. apply octet_ind.
  let l := eval vm_compute in (seqZ 0 256) in change (seqZ 0 256) with l.
  repeat constructor.
Qed.

(** Round trip of the textual form for IPv4 addresses. *)
Lemma ParseAddr_String4 v :
  0 <= v < 2 ^ 32 -> ParseAddr (Addr_String (Addr4 v)) = Some (Addr4 v).
Proof.
  intros Hv. unfold ParseAddr, Addr_String. rewrite list_ascii_of_string_of_list_ascii.
  unfold string4 at 1. cbn [app]. rewrite parse_dispatch_octet by apply v4oct_range.
  by apply parseIPv4_string4.
Qed.

Example ParseAddr_v6 :
  ParseAddr "2001:db8::1" = Some (Addr6 0x20010db8000000000000000000000001 "") /\
  ParseAddr "::ffff:10.0.0.1" = Some (Addr6 0xffff0a000001 "") /\
  ParseAddr "fe80::1%eth0" = Some (Addr6 0xfe800000000000000000000000000001 "eth0") /\
  ParseAddr "1.2.3" = None /\ ParseAddr "::1::" = None /\ ParseAddr "256.1.1.1" = None /\
  Addr_String (Addr6 0x20010db8000000000000000000000001 "") = "2001:db8::1"%string /\
  Addr_String (Addr6 0 "") = "::"%string /\
  Addr_String (Addr6 1 "") = "::1"%string /\
  ParsePrefix "100.64.0.0/10" = Some (mkPrefix (Addr4 0x64400000) 10) /\
  ParseAddrPort "10.0.0.1:9000" = Some (mkAddrPort (Addr4 0x0a000001) 9000) /\
  ParseAddrPort "[::1]:443" = Some (mkAddrPort (Addr6 1 "") 443) /\
  ParseAddrPort "::1:443" = None /\ ParseAddrPort "10.0.0.1:70000" = None /\
  ParseAddrPort "10.0.0.1:" = None.
Proof. vm_compute. repeat split. Qed.

(** ** What parsing accepts is in range *)
Lemma digit_range c : is_digit c = true -> 0 <= digit_val c <= 9.
Proof.
  unfold is_digit, digit_val. rewrite andb_true_iff, !N.leb_le. intros [H1 H2]. lia.
Qed.

Lemma parseIPv4Fields_range s val digLen fields out :
  0 <= val <= 255 -> Forall (fun b => 0 <= b < 256) fields ->
  parseIPv4Fields s val digLen fields = Some out -> Forall (fun b => 0 <= b < 256) out.
Proof.
  revert val digLen fields. induction s as [|c s IH]; intros val digLen fields Hv Hf; cbn.
  - case_match; [done|]. intros [= <-]. apply Forall_app. split; [done|].
    constructor; [lia|constructor].
  - destruct (is_digit c) eqn:Ed.
    + case_match; [done|]. pose proof (digit_range c Ed).
      destruct (Z.ltb_spec 255 (val * 10 + digit_val c)); [done|]. apply IH; [lia|done].
    + repeat (case_match; try done). apply IH; [lia|]. apply Forall_app. split; [done|].
      constructor; [lia|constructor].
Qed.

Lemma parseIPv4_wf s a : parseIPv4 s = Some a -> exists v, a = Addr4 v /\ 0 <= v < 2 ^ 32.
Proof.
  unfold parseIPv4. destruct (parseIPv4Fields s 0 0 []) as [out|] eqn:E; [|done].
  apply parseIPv4Fields_range in E; [|lia|constructor].
  destruct out as [|b0 [|b1 [|b2 [|b3 [|]]]]]; try done. intros [= <-].
  repeat match goal with H : Forall _ (_ :: _) |- _ => inversion H; subst; clear H end.
  rewrite AddrFrom4_val by lia. eexists. split; [done|]. lia.
Qed.

Lemma ParseAddr_4 s a : ParseAddr s = Some a -> Is4 a = true -> exists v, a = Addr4 v /\ 0 <= v < 2 ^ 32.
Proof.
  unfold ParseAddr. destruct (parse_dispatch _) as [[]|]; [by intros ?%parseIPv4_wf _| |done].
  unfold parseIPv6. destruct (split_zone _) as [b z].
  destruct (bool_decide (z = Some [])); [done|]. cbv zeta.
  match goal with |- context [let '(x, y) := ?m in _] => destruct m as [a' start] end.
  destruct (_ && _); [by intros [= <-]|].
  destruct (parseIPv6_loop 8 a' [] start) as [[[gr el] [|]]|]; try done.
  intros (gs & _ & [= <-])%bind_Some. done.
Qed.

Lemma parse_dec_nonneg s acc n : 0 <= acc -> parse_dec s acc = Some n -> 0 <= n.
Proof.
  revert acc. induction s as [|c s IH]; intros acc Ha; cbn; [congruence|].
  destruct (is_digit c) eqn:Ed; [|done]. pose proof (digit_range c Ed). apply IH. lia.
Qed.

Lemma ParsePrefix_4 s p : ParsePrefix s = Some p -> Is4 (pfx_addr p) = true -> prefix_valid p.
Proof.
  unfold ParsePrefix. destruct (split_last_slash _) as [[a b]|]; [|done].
  intros (ip & Hip & Hrest)%bind_Some H4. cbn in Hrest. case_match; [done|].
  apply bind_Some in Hrest as (bits & Hbits & Hrest).
  destruct (Z.ltb_spec (bitlen ip) bits); [done|]. injection Hrest as <-. cbn in H4.
  destruct (ParseAddr_4 _ _ Hip H4) as (v & -> & Hv).
  apply parse_dec_nonneg in Hbits; [|lia]. split_and!; done.
Qed.
