(* ===== verification/Netip6.v ===== *)
(** * Textual IPv6 addresses

    Printing an address ([netip.Addr.String], [netip.AddrPort.String]) and
    parsing it again ([netip.ParseAddr], [netip.ParseAddrPort]) gives the same
    address, for every address and zone.  Candidates travel between agents as
    such text. *)

From Stdlib Require Import Strings.Ascii Strings.String.
From stdpp Require Import pretty.
From S2P Require Import Prelude Netip.

(** ** Hexadecimal groups *)
Definition is_hex (d : Z) : Prop := 0 <= d < 16.

Lemma hex_val_digit d : is_hex d -> hex_val (hex_digit d) = Some d.
Proof.
  intros Hd. assert (d ∈ seqZ 0 16) as Hin by (apply elem_of_seqZ; unfold is_hex in Hd; lia).
  clear Hd. repeat (apply elem_of_cons in Hin as [->|Hin]; [reflexivity|]).
  by apply elem_of_nil in Hin.
Qed.

Definition hex_fold (ds : list Z) (acc : Z) : Z := fold_left (fun a d => a * 16 + d) ds acc.

Lemma hex_fold_mono ds acc : 0 <= acc -> Forall is_hex ds -> acc <= hex_fold ds acc.
Proof.
  intros Ha Hds. revert acc Ha. induction Hds as [|d ds Hd _ IH]; intros acc Ha; cbn; [lia|].
  unfold is_hex in Hd. specialize (IH (acc * 16 + d)). unfold hex_fold in IH. lia.
Qed.

Lemma hex_group_digits ds rest off acc :
  Forall is_hex ds -> 0 <= acc -> 0 <= off -> off + Z.of_nat (length ds) <= 4 ->
  hex_fold ds acc <= 65535 ->
  hex_group (map hex_digit ds ++ rest) off acc =
  hex_group rest (off + Z.of_nat (length ds)) (hex_fold ds acc).
Proof.
  intros Hds. revert off acc. induction Hds as [|d ds Hd Hds IH]; intros off acc Ha Ho Hl Hf.
  { cbn. by rewrite Z.add_0_r. }
  cbn [map app hex_group length] in *. rewrite hex_val_digit by done. unfold is_hex in Hd.
  pose proof (hex_fold_mono ds (acc * 16 + d) ltac:(lia) Hds) as Hm.
  change (hex_fold (d :: ds) acc) with (hex_fold ds (acc * 16 + d)) in *.
  destruct (Z.ltb_spec 3 off); [lia|]. destruct (Z.ltb_spec 65535 (acc * 16 + d)); [lia|]. cbn [orb].
  rewrite IH by lia. f_equal; lia.
Qed.

(** Where a group ends. *)
Definition group_end (rest : list ascii) : Prop :=
  match rest with [] => True | c :: _ => hex_val c = None end.

Lemma hex_group_end rest off acc : group_end rest -> hex_group rest off acc = Some (acc, off, rest).
Proof. destruct rest as [|c rest]; cbn; [done|]. by intros ->. Qed.

Lemma appendHex_digits g :
  0 <= g < 65536 -> exists d ds, appendHex g = map hex_digit (d :: ds) /\ Forall is_hex (d :: ds) /\
    (length ds <= 3)%nat /\ hex_fold (d :: ds) 0 = g.
Proof.
  intros Hg. unfold appendHex. change 15 with (Z.ones 4). rewrite !Z.land_ones, !Z.shiftr_div_pow2 by lia.
  change (2 ^ 12) with 4096. change (2 ^ 8) with 256. change (2 ^ 4) with 16.
  assert (forall x, is_hex (x mod 16)) as Hm by (intros x; apply Z.mod_pos_bound; lia).
  destruct (Z.leb_spec 4096 g), (Z.leb_spec 256 g), (Z.leb_spec 16 g); try lia.
  - exists (g / 4096), [g / 256 mod 16; g / 16 mod 16; g mod 16]. split_and!; [done| |cbn; lia|].
    + constructor; [unfold is_hex; Z.div_mod_to_equations; lia|]. auto.
    + cbn. Z.div_mod_to_equations. lia.
  - exists (g / 256 mod 16), [g / 16 mod 16; g mod 16]. split_and!; [done| |cbn; lia|].
    + auto.
    + cbn. Z.div_mod_to_equations. lia.
  - exists (g / 16 mod 16), [g mod 16]. split_and!; [done| |cbn; lia|].
    + auto.
    + cbn. Z.div_mod_to_equations. lia.
  - exists (g mod 16), []. split_and!; [done| |cbn; lia|].
    + auto.
    + cbn. Z.div_mod_to_equations. lia.
Qed.

(** One group is read back, whatever ends it. *)
Lemma hex_group_append g rest :
  0 <= g < 65536 -> group_end rest -> exists off, 0 < off /\
    hex_group (appendHex g ++ rest) 0 0 = Some (g, off, rest).
Proof.
  intros Hg Hr. destruct (appendHex_digits g Hg) as (d & ds & -> & Hds & Hl & Hf).
  exists (Z.of_nat (length (d :: ds))). split; [cbn; lia|].
  rewrite hex_group_digits by (done || cbn [length] in *; lia). rewrite Hf. by apply hex_group_end.
Qed.

(** ** The group loop on printed groups *)
Definition is_group (g : Z) : Prop := 0 <= g < 65536.

Lemma join_groups_cons g gs :
  is_group g -> exists c s, join_groups (g :: gs) = c :: s /\ hex_val c <> None.
Proof.
  intros Hg. destruct (appendHex_digits g Hg) as (d & ds & E & Hds & _).
  inversion Hds as [|? ? Hd]; subst.
  assert (hex_val (hex_digit d) <> None) as Hh by by rewrite hex_val_digit.
  destruct gs as [|g' gs]; cbn [join_groups]; rewrite E; cbn [map app]; eauto.
Qed.

Lemma loop_step room g c rest acc ell :
  is_group g -> hex_val c <> None ->
  parseIPv6_loop (S room) (appendHex g ++ ":"%char :: c :: rest) acc ell =
  parseIPv6_loop room (c :: rest) (acc ++ [g]) ell.
Proof.
  intros Hg Hc. destruct (hex_group_append g (":"%char :: c :: rest) Hg eq_refl) as (off & Ho & E).
  cbn [parseIPv6_loop]. rewrite E. destruct (Z.eqb_spec off 0); [lia|].
  destruct c as [[] [] [] [] [] [] [] []]; try reflexivity. by destruct Hc.
Qed.

Lemma loop_last room g acc ell :
  is_group g -> parseIPv6_loop (S room) (appendHex g) acc ell = Some (acc ++ [g], ell, []).
Proof.
  intros Hg. destruct (hex_group_append g [] Hg I) as (off & Ho & E). rewrite app_nil_r in E.
  cbn [parseIPv6_loop]. rewrite E. by destruct (Z.eqb_spec off 0); [lia|].
Qed.

Lemma loop_groups gs room acc ell :
  Forall is_group gs -> gs <> [] -> (length gs <= room)%nat ->
  parseIPv6_loop room (join_groups gs) acc ell = Some (acc ++ gs, ell, []).
Proof.
  intros Hgs. revert room acc. induction Hgs as [|g gs Hg Hgs IH]; intros room acc Hne Hl; [done|].
  destruct room as [|room]; cbn [length] in Hl; [lia|]. destruct gs as [|g' gs].
  { by apply loop_last. }
  inversion Hgs; subst. destruct (join_groups_cons g' gs) as (c & s & E & Hc); [done|].
  change (join_groups (g :: g' :: gs)) with (appendHex g ++ ":"%char :: join_groups (g' :: gs)).
  rewrite E, loop_step, <- E, IH by (done || lia). by rewrite <- app_assoc.
Qed.

(** Groups, an ellipsis, groups. *)
Lemma loop_ellipsis gs tl room acc :
  Forall is_group gs -> gs <> [] -> Forall is_group tl -> (length gs + length tl <= room)%nat ->
  parseIPv6_loop room (join_groups gs ++ ":"%char :: ":"%char :: join_groups tl) acc None =
  Some (acc ++ gs ++ tl, Some (length (acc ++ gs)), []).
Proof.
  intros Hgs. revert room acc. induction Hgs as [|g gs Hg Hgs IH]; intros room acc Hne Htl Hl; [done|].
  destruct room as [|room]; cbn [length] in Hl; [lia|]. destruct gs as [|g' gs].
  - cbn [join_groups]. set (rest := ":"%char :: ":"%char :: join_groups tl).
    destruct (hex_group_append g rest Hg eq_refl) as (off & Ho & E). cbn [parseIPv6_loop]. rewrite E.
    destruct (Z.eqb_spec off 0); [lia|]. unfold rest. rewrite bool_decide_eq_true_2 by done.
    destruct tl as [|h tl]; [done|].
    destruct (join_groups_cons h tl) as (c & s & Ej & _); [by inversion Htl|].
    rewrite Ej, <- Ej. cbn [length] in Hl. rewrite loop_groups by (done || cbn [length]; lia).
    by rewrite <- app_assoc.
  - inversion Hgs; subst. destruct (join_groups_cons g' gs) as (c & s & E & Hc); [done|].
    change (join_groups (g :: g' :: gs)) with (appendHex g ++ ":"%char :: join_groups (g' :: gs)).
    rewrite E, <- app_assoc. cbn [app]. rewrite loop_step by done.
    change (c :: s ++ ":"%char :: ":"%char :: join_groups tl)
      with ((c :: s) ++ ":"%char :: ":"%char :: join_groups tl).
    rewrite <- E, IH by (done || lia). by rewrite <- !app_assoc.
Qed.

(** ** The run of zeros that is elided *)
Definition run_ok6 (gs : list Z) (best : option (nat * nat)) : Prop :=
  match best with
  | None => True
  | Some (i, n) => (2 <= n)%nat /\ (i + n <= length gs)%nat /\
      gs = take i gs ++ replicate n 0 ++ drop (i + n) gs
  end.

Lemma zero_run_spec gs : exists tl, gs = replicate (zero_run gs) 0 ++ tl.
Proof.
  induction gs as [|g gs [tl IH]]; [by exists []|]. destruct g; cbn [zero_run]; [|by eexists..].
  exists tl. cbn. by rewrite <- IH.
Qed.

Lemma best_run_ok pre gs best :
  run_ok6 (pre ++ gs) best -> run_ok6 (pre ++ gs) (best_run gs (length pre) best).
Proof.
  revert pre best. induction gs as [|g gs IH]; intros pre best Hb; cbn [best_run]; [done|].
  replace (pre ++ g :: gs) with ((pre ++ [g]) ++ gs) in * by by rewrite <- app_assoc.
  replace (S (length pre)) with (length (pre ++ [g])) by (rewrite length_app; cbn; lia).
  apply IH. case_match eqn:E; [|done]. apply andb_true_iff in E as [E _]. apply Nat.leb_le in E.
  destruct (zero_run_spec (g :: gs)) as [tl Etl]. set (n := zero_run (g :: gs)) in *.
  rewrite <- app_assoc. cbn [app run_ok6]. rewrite Etl. split_and!; [done| |].
  - rewrite !length_app, length_replicate. lia.
  - rewrite take_app_length. f_equal. rewrite drop_app_ge by lia.
    replace (length pre + n - length pre)%nat with n by lia.
    rewrite drop_app_ge by (rewrite length_replicate; lia). rewrite length_replicate, Nat.sub_diag. done.
Qed.

(** ** The eight groups of an address *)
Lemma v6u16_div v i : 0 <= i <= 7 -> v6u16 v i = v / 2 ^ (16 * (7 - i)) mod 65536.
Proof.
  intros Hi. unfold v6u16. change 65535 with (Z.ones 16).
  by rewrite Z.land_ones, Z.shiftr_div_pow2 by lia.
Qed.

Lemma v6groups_ok v : Forall is_group (v6groups v).
Proof.
  apply Forall_fmap, Forall_forall. intros i Hi%elem_of_seqZ. cbn.
  rewrite v6u16_div by lia. apply Z.mod_pos_bound. lia.
Qed.

Lemma group_shift v k : 0 <= k -> v / 2 ^ (k + 16) * 65536 + v / 2 ^ k mod 65536 = v / 2 ^ k.
Proof.
  intros Hk. rewrite Z.pow_add_r, <- Z.div_div by lia. change (2 ^ 16) with 65536.
  pose proof (Z.div_mod (v / 2 ^ k) 65536). lia.
Qed.

Lemma v6u16_shift v i k k' : 0 <= i <= 7 -> k = 16 * (7 - i) -> k' = k + 16 ->
  v / 2 ^ k' * 65536 + v6u16 v i = v / 2 ^ k.
Proof. intros Hi -> ->. rewrite v6u16_div by done. apply group_shift. lia. Qed.

Lemma groups_val_v6groups v : 0 <= v < 2 ^ 128 -> groups_val (v6groups v) = v.
Proof.
  intros Hv. unfold v6groups, groups_val. change (seqZ 0 8) with [0; 1; 2; 3; 4; 5; 6; 7].
  cbn [map fold_left]. rewrite Z.mul_0_l.
  assert (v / 2 ^ 128 = 0) as E by (apply Z.div_small; lia).
  pose proof (v6u16_shift v 0 112 128 ltac:(lia) eq_refl eq_refl) as E0.
  rewrite E, Z.mul_0_l in E0. rewrite E0.
  rewrite (v6u16_shift v 1 96 112), (v6u16_shift v 2 80 96), (v6u16_shift v 3 64 80),
    (v6u16_shift v 4 48 64), (v6u16_shift v 5 32 48), (v6u16_shift v 6 16 32), (v6u16_shift v 7 0 16) by lia.
  apply Z.div_1_r.
Qed.

(** ** Zones and the choice of the family *)
Lemma hex_ind (P : Z -> Prop) : Forall P (seqZ 0 16) -> forall d, is_hex d -> P d.
Proof.
  intros HP d Hd. rewrite Forall_forall in HP. apply HP, elem_of_seqZ. unfold is_hex in Hd. lia.
Qed.

Definition no_percent (s : list ascii) : Prop := Forall (fun c => c <> "%"%char) s.

Lemma hex_digit_no_percent d : is_hex d -> hex_digit d <> "%"%char.
Proof.
  revert d. apply hex_ind. let l := eval vm_compute in (seqZ 0 16) in change (seqZ 0 16) with l.
  repeat constructor; discriminate.
Qed.

Lemma appendHex_no_percent g : is_group g -> no_percent (appendHex g).
Proof.
  intros Hg. destruct (appendHex_digits g Hg) as (d & ds & -> & Hds & _).
  unfold no_percent. rewrite Forall_fmap. eapply Forall_impl; [exact Hds|]. apply hex_digit_no_percent.
Qed.

Lemma join_groups_no_percent gs : Forall is_group gs -> no_percent (join_groups gs).
Proof.
  induction 1 as [|g gs Hg Hgs IH]; [constructor|]. apply appendHex_no_percent in Hg.
  destruct gs as [|g' gs]; [done|].
  change (join_groups (g :: g' :: gs)) with (appendHex g ++ ":"%char :: join_groups (g' :: gs)).
  apply Forall_app. split; [done|]. by constructor.
Qed.

Lemma split_zone_plain s z :
  no_percent s -> split_zone (s ++ zone_suffix z) =
    (s, if bool_decide (z = ""%string) then None else Some (list_ascii_of_string z)).
Proof.
  induction 1 as [|c s Hc _ IH]; cbn [app].
  - unfold zone_suffix. by case_bool_decide.
  - cbn [split_zone]. rewrite IH. destruct c as [[] [] [] [] [] [] [] []]; done.
Qed.

Lemma parse_dispatch_digit d s : is_hex d -> parse_dispatch (hex_digit d :: s) = parse_dispatch s.
Proof.
  revert d. apply hex_ind. let l := eval vm_compute in (seqZ 0 16) in change (seqZ 0 16) with l.
  repeat constructor.
Qed.

Lemma parse_dispatch_hex ds rest :
  Forall is_hex ds -> parse_dispatch (map hex_digit ds ++ ":"%char :: rest) = Some false.
Proof.
  induction 1 as [|d ds Hd _ IH]; [done|]. cbn [map app]. by rewrite parse_dispatch_digit.
Qed.

(** What the text before the zone denotes. *)
Definition parse_groups (a : list ascii) : option Z :=
  let '(a', start) :=
    match a with
    | ":"%char :: ":"%char :: a' => (a', Some 0%nat)
    | _ => (a, None)
    end in
  if bool_decide (start = Some 0%nat) && bool_decide (a' = []) then Some 0
  else
    match parseIPv6_loop 8 a' [] start with
    | Some (groups, ellipsis, []) => groups_val <$> expand_ellipsis groups ellipsis
    | _ => None
    end.

Lemma parseIPv6_groups a z v :
  no_percent a -> parse_groups a = Some v -> parseIPv6 (a ++ zone_suffix z) = Some (Addr6 v z).
Proof.
  intros Hp Hv. unfold parseIPv6. rewrite split_zone_plain by done.
  assert (string_of_list_ascii (default [] (if bool_decide (z = ""%string) then None
    else Some (list_ascii_of_string z))) = z) as Hz.
  { case_bool_decide; [by subst|]. apply string_of_list_ascii_of_string. }
  rewrite bool_decide_eq_false_2.
  2: { case_bool_decide; [done|]. intros [= E]. by destruct z. }
  rewrite Hz. revert Hv. unfold parse_groups.
  match goal with |- context [let '(x, y) := ?m in _] => destruct m as [a' start] end.
  destruct (_ && _); [congruence|].
  destruct (parseIPv6_loop 8 a' [] start) as [[[gr el] [|]]|]; try done.
  destruct (expand_ellipsis gr el); cbn; congruence.
Qed.

Lemma expand_run gs i n :
  length gs = 8%nat -> run_ok6 gs (Some (i, n)) ->
  expand_ellipsis (take i gs ++ drop (i + n) gs) (Some (length (take i gs))) = Some gs.
Proof.
  intros Hl (Hn & Hi & E). unfold expand_ellipsis.
  assert (length (take i gs) = i) as Ht by (rewrite length_take; lia).
  assert (length (take i gs ++ drop (i + n) gs) = (8 - n)%nat) as Hlen
    by (rewrite length_app, Ht, length_drop; lia).
  rewrite Hlen. destruct (Nat.ltb_spec (8 - n) 8); [|lia].
  rewrite take_app_length, drop_app_length.
  replace (8 - (8 - n))%nat with n by lia. by rewrite <- E.
Qed.

(** Text that starts with a hexadecimal digit does not start with an ellipsis. *)
Lemma parse_groups_plain c s :
  hex_val c <> None ->
  parse_groups (c :: s) =
    match parseIPv6_loop 8 (c :: s) [] None with
    | Some (groups, ellipsis, []) => groups_val <$> expand_ellipsis groups ellipsis
    | _ => None
    end.
Proof. intros Hc. destruct c as [[] [] [] [] [] [] [] []]; try reflexivity. by destruct Hc. Qed.

Lemma parse_groups_ellipsis s :
  s <> [] -> parse_groups (":"%char :: ":"%char :: s) =
    match parseIPv6_loop 8 s [] (Some 0%nat) with
    | Some (groups, ellipsis, []) => groups_val <$> expand_ellipsis groups ellipsis
    | _ => None
    end.
Proof. intros Hs. unfold parse_groups. by rewrite (bool_decide_eq_false_2 (s = [])), andb_false_r. Qed.

(** The three shapes of [string6]. *)
Lemma parse_full gs :
  Forall is_group gs -> length gs = 8%nat -> parse_groups (join_groups gs) = Some (groups_val gs).
Proof.
  intros Hgs Hl. destruct gs as [|g gs]; [done|].
  destruct (join_groups_cons g gs) as (c & s & E & Hc); [by inversion Hgs|].
  rewrite E, parse_groups_plain, <- E, loop_groups by (done || lia).
  cbn [app]. unfold expand_ellipsis. by rewrite Hl.
Qed.

Lemma parse_run gs i n :
  Forall is_group gs -> length gs = 8%nat -> run_ok6 gs (Some (i, n)) ->
  parse_groups (join_groups (take i gs) ++ [":"%char; ":"%char] ++ join_groups (drop (i + n) gs)) =
    Some (groups_val gs).
Proof.
  intros Hgs Hl Hr. pose proof (expand_run gs i n Hl Hr) as He. destruct Hr as (Hn & Hi & E).
  pose proof (Forall_take _ i _ Hgs) as Htk. pose proof (Forall_drop _ (i + n) _ Hgs) as Hdr.
  assert (length (take i gs) = i) as Ht by (rewrite length_take; lia).
  assert (length (drop (i + n) gs) = (8 - (i + n))%nat) as Hd by (rewrite length_drop; lia).
  cbn [app]. destruct (take i gs) as [|h hd] eqn:Eh.
  - cbn in Ht. subst i. cbn [join_groups app] in *.
    destruct (drop (0 + n) gs) as [|g tl] eqn:Ed.
    + cbn. f_equal. rewrite E. cbn. rewrite app_nil_r. generalize n. clear.
      induction n as [|n IH]; [done|]. cbn. exact IH.
    + rewrite parse_groups_ellipsis.
      2: { destruct (join_groups_cons g tl) as (c & s & -> & _); [by inversion Hdr|done]. }
      rewrite loop_groups by (done || lia). cbn [app]. cbn [length app] in He. by rewrite He.
  - destruct (join_groups_cons h hd) as (c & s & Ej & Hc); [by inversion Htk|].
    pose proof (loop_ellipsis (h :: hd) (drop (i + n) gs) 8 [] Htk ltac:(done) Hdr ltac:(lia)) as Hloop.
    rewrite Ej in Hloop |- *. cbn [app] in *. rewrite parse_groups_plain by done. rewrite Hloop.
    by rewrite He.
Qed.

Lemma parse_string6 v : 0 <= v < 2 ^ 128 -> parse_groups (string6 v) = Some v.
Proof.
  intros Hv. rewrite <- (groups_val_v6groups v Hv) at 2.
  pose proof (best_run_ok [] (v6groups v) None I) as Hbest. cbn [app length] in Hbest.
  unfold string6. destruct (best_run (v6groups v) 0 None) as [[i n]|].
  - by apply parse_run; [apply v6groups_ok|..].
  - by apply parse_full; [apply v6groups_ok|].
Qed.

(** ** IPv4-mapped addresses *)
Lemma hex_group_octet x rest :
  0 <= x < 256 ->
  match hex_group (appendDecimal x ++ "."%char :: rest) 0 0 with
  | Some (_, off, r) => 0 < off /\ r = "."%char :: rest
  | None => False
  end.
Proof.
  revert x. apply octet_ind.
  let l := eval vm_compute in (seqZ 0 256) in change (seqZ 0 256) with l.
  repeat constructor.
Qed.

Lemma octet_head x :
  0 <= x < 256 -> match appendDecimal x with c :: _ => is_Some (hex_val c) | [] => False end.
Proof.
  revert x. apply octet_ind.
  let l := eval vm_compute in (seqZ 0 256) in change (seqZ 0 256) with l.
  repeat constructor; vm_compute; by eexists.
Qed.

Lemma loop_dotted w groups e room :
  parseIPv6_loop (S (S room)) (string4 w) groups (Some e) =
    Some (groups ++ [v4oct w 0 * 256 + v4oct w 1; v4oct w 2 * 256 + v4oct w 3], Some e, []).
Proof.
  pose proof (hex_group_octet (v4oct w 0) (appendDecimal (v4oct w 1) ++ "."%char ::
    appendDecimal (v4oct w 2) ++ "."%char :: appendDecimal (v4oct w 3)) (v4oct_range w 0)) as Ho.
  pose proof (parseIPv4Fields_string4 w) as Hf. unfold string4 in Hf |- *. cbn [app] in Hf |- *.
  cbn [parseIPv6_loop]. destruct (hex_group _ 0 0) as [[[acc off] r]|]; [|done]. destruct Ho as [Ho ->].
  destruct (Z.eqb_spec off 0); [lia|]. rewrite bool_decide_eq_false_2 by done. cbn [andb].
  by rewrite Hf.
Qed.

Lemma parse_mapped w :
  parse_groups (list_ascii_of_string "::ffff:" ++ string4 w) =
    Some (groups_val [0; 0; 0; 0; 0; 65535; v4oct w 0 * 256 + v4oct w 1; v4oct w 2 * 256 + v4oct w 3]).
Proof.
  pose proof (loop_dotted w [65535] 0 5) as Hd.
  change (list_ascii_of_string "::ffff:" ++ string4 w)
    with (":"%char :: ":"%char :: appendHex 65535 ++ ":"%char :: string4 w).
  rewrite parse_groups_ellipsis by done. revert Hd. unfold string4.
  pose proof (octet_head (v4oct w 0) (v4oct_range w 0)) as Hc.
  destruct (appendDecimal (v4oct w 0)) as [|c s]; [done|]. destruct Hc as [d Hc]. cbn [app]. intros Hd.
  rewrite loop_step by (done || congruence). cbn [app]. by rewrite Hd.
Qed.

Lemma mapped_val v :
  0 <= v < 2 ^ 128 -> Z.shiftr v 32 = 65535 ->
  let w := v mod 2 ^ 32 in
  groups_val [0; 0; 0; 0; 0; 65535; v4oct w 0 * 256 + v4oct w 1; v4oct w 2 * 256 + v4oct w 3] = v.
Proof.
  intros Hv Hs w. rewrite Z.shiftr_div_pow2 in Hs by lia.
  assert (0 <= w < 2 ^ 32) as Hw by (apply Z.mod_pos_bound; lia).
  pose proof (AddrFrom4_As4 w Hw) as E. rewrite AddrFrom4_val in E by apply v4oct_range.
  injection E as E. pose proof (Z.div_mod v (2 ^ 32)) as Hdm. fold w in Hdm.
  cbn [groups_val fold_left]. rewrite Hs in Hdm. lia.
Qed.

Lemma string4_no_percent w : no_percent (string4 w).
Proof.
  assert (forall x, 0 <= x < 256 -> no_percent (appendDecimal x)) as Hd.
  { apply octet_ind. let l := eval vm_compute in (seqZ 0 256) in change (seqZ 0 256) with l.
    repeat constructor; discriminate. }
  unfold string4, no_percent. rewrite !Forall_app, !Forall_singleton.
  split_and!; try done; apply Hd, v4oct_range.
Qed.

(** ** Round trips *)
Lemma string6_no_percent v : no_percent (string6 v).
Proof.
  pose proof (v6groups_ok v) as Hg. unfold string6, no_percent.
  destruct (best_run _ _ _) as [[i n]|]; [|by apply join_groups_no_percent].
  rewrite !Forall_app. split_and!; [apply join_groups_no_percent; by apply Forall_take| |].
  - by repeat constructor.
  - apply join_groups_no_percent. by apply Forall_drop.
Qed.

Lemma string6_dispatch v s : parse_dispatch (string6 v ++ s) = Some false.
Proof.
  assert (forall g gs, Forall is_group (g :: gs) -> forall r, parse_dispatch (join_groups (g :: gs) ++ ":"%char :: r) = Some false) as Hj.
  { intros g gs Hgs r. inversion Hgs as [|? ? Hg _]; subst.
    destruct (appendHex_digits g Hg) as (d & ds & E & Hds & _).
    destruct gs as [|g' gs]; cbn [join_groups]; rewrite E, <- ?app_assoc; by apply parse_dispatch_hex. }
  pose proof (v6groups_ok v) as Hg. pose proof (best_run_ok [] (v6groups v) None I) as Hb.
  cbn [app length] in Hb. unfold string6. destruct (best_run _ _ _) as [[i n]|].
  - rewrite <- app_assoc. destruct (take i (v6groups v)) as [|h hd] eqn:E; [done|].
    apply Hj. rewrite <- E. by apply Forall_take.
  - clear Hb. assert (length (v6groups v) = 8%nat) as Hl by done.
    destruct (v6groups v) as [|g0 [|g1 gs]]; try done.
    change (join_groups (g0 :: g1 :: gs)) with (join_groups [g0] ++ ":"%char :: join_groups (g1 :: gs)).
    rewrite <- app_assoc. apply Hj. constructor; [by inversion Hg|constructor].
Qed.

(** Round trip of the textual form for IPv6 addresses, with or without a zone,
    IPv4-mapped or not. *)
Lemma ParseAddr_String6 v z :
  0 <= v < 2 ^ 128 -> ParseAddr (Addr_String (Addr6 v z)) = Some (Addr6 v z).
Proof.
  intros Hv. unfold ParseAddr, Addr_String. destruct (Is4In6 (Addr6 v z)) eqn:E4.
  - rewrite list_ascii_of_string_of_list_ascii, app_assoc.
    cbn [Is4In6] in E4. apply Z.eqb_eq in E4.
    change (parse_dispatch ((list_ascii_of_string "::ffff:" ++ string4 (v mod 2 ^ 32)) ++ zone_suffix z))
      with (Some false).
    apply parseIPv6_groups.
    + apply Forall_app. split; [|apply string4_no_percent]. by repeat constructor.
    + rewrite parse_mapped. f_equal. by apply mapped_val.
  - rewrite list_ascii_of_string_of_list_ascii, string6_dispatch.
    apply parseIPv6_groups; [apply string6_no_percent|by apply parse_string6].
Qed.

Lemma ParseAddr_String a :
  addr_wf a -> Addr_IsValid a = true -> ParseAddr (Addr_String a) = Some a.
Proof.
  destruct a as [|v|v z]; [done| |]; intros Hwf _; [by apply ParseAddr_String4|by apply ParseAddr_String6].
Qed.

(** ** Addresses with a port *)

(** [netip.AddrPort.String]. *)
Definition AddrPort_String (p : AddrPort) : string :=
  let port := pretty (Z.to_N (ap_port p)) in
  match ap_addr p with
  | AddrZero => "invalid AddrPort"%string
  | Addr4 _ => Addr_String (ap_addr p) +:+ ":"%string +:+ port
  | Addr6 _ _ => "["%string +:+ Addr_String (ap_addr p) +:+ "]:"%string +:+ port
  end.


Lemma pretty_digit x :
  (x < 10)%N -> is_digit (pretty_N_char x) = true /\ digit_val (pretty_N_char x) = Z.of_N x.
Proof.
  intros Hx. assert (x = 0 \/ x = 1 \/ x = 2 \/ x = 3 \/ x = 4 \/ x = 5 \/ x = 6 \/ x = 7 \/ x = 8 \/ x = 9)%N
    as Hc by lia. by destruct_or! Hc; subst.
Qed.

(** Decimal text is digits and reads back as the number. *)
Lemma pretty_go_spec x s :
  Forall (fun c => is_digit c = true) (list_ascii_of_string s) ->
  Forall (fun c => is_digit c = true) (list_ascii_of_string (pretty_N_go x s)) /\
  exists k, 0 <= k /\ forall acc,
    parse_dec (list_ascii_of_string (pretty_N_go x s)) acc =
    parse_dec (list_ascii_of_string s) (acc * 10 ^ k + Z.of_N x).
Proof.
  revert s. induction (N.lt_wf_0 x) as [x _ IH]; intros s Hs.
  destruct (decide (x = 0%N)) as [->|Hx].
  { rewrite pretty_N_go_0. split; [done|]. exists 0. split; [lia|]. intros acc. f_equal. lia. }
  assert (x mod 10 < 10)%N as Hm by (apply N.mod_lt; lia).
  destruct (pretty_digit _ Hm) as [Hd Hv]. rewrite pretty_N_go_step by lia.
  destruct (IH (x / 10)%N (N.div_lt x 10 ltac:(lia) ltac:(lia)) (String (pretty_N_char (x mod 10)) s))
    as (Hf & k & Hk & Hp); [by constructor|].
  split; [done|]. exists (k + 1). split; [lia|]. intros acc. rewrite Hp. cbn [list_ascii_of_string parse_dec].
  rewrite Hd, Hv. f_equal. rewrite Z.pow_add_r, N2Z.inj_div, N2Z.inj_mod by lia.
  pose proof (Z.div_mod (Z.of_N x) 10). lia.
Qed.

Lemma pretty_port n :
  let s := list_ascii_of_string (pretty n) in
  s <> [] /\ Forall (fun c => is_digit c = true) s /\ parse_dec s 0 = Some (Z.of_N n).
Proof.
  unfold pretty, pretty_N. case_decide as H; [subst; cbn; split_and!; repeat constructor; done|].
  destruct (pretty_go_spec n "" ltac:(constructor)) as (Hf & k & _ & Hp). specialize (Hp 0).
  split_and!; [|done|exact Hp]. intros E. rewrite E in Hp. cbn in Hp. injection Hp as Hp. lia.
Qed.

Lemma split_last_colon_none s :
  Forall (fun c => is_digit c = true) s -> split_last_colon s = None.
Proof.
  induction 1 as [|c s Hc _ IH]; [done|]. cbn. rewrite IH, bool_decide_eq_false_2; [done|]. by intros ->.
Qed.

Lemma split_last_colon_app a port :
  Forall (fun c => is_digit c = true) port -> split_last_colon (a ++ ":"%char :: port) = Some (a, port).
Proof.
  intros Hp. induction a as [|c a IH]; cbn [app split_last_colon].
  - by rewrite split_last_colon_none.
  - by rewrite IH.
Qed.

Lemma list_ascii_app s1 s2 :
  list_ascii_of_string (s1 +:+ s2) = list_ascii_of_string s1 ++ list_ascii_of_string s2.
Proof. induction s1 as [|c s1 IH]; [done|]. cbn [app list_ascii_of_string]. by rewrite <- IH. Qed.

(** Round trip of an address with its port. *)
Lemma ParseAddrPort_String p :
  addrport_wf p -> AddrPort_IsValid p = true -> ParseAddrPort (AddrPort_String p) = Some p.
Proof.
  destruct p as [a port]. intros [Ha Hport] Hv. unfold AddrPort_String, ParseAddrPort. cbn in *.
  destruct (pretty_port (Z.to_N port)) as (Hne & Hd & Hp). rewrite Z2N.id in Hp by lia.
  pose proof (ParseAddr_String a Ha Hv) as Hparse.
  assert (list_ascii_of_string (Addr_String a) <> []) as Hnil.
  { intros E. revert Hparse. unfold ParseAddr. by rewrite E. }
  assert ((65535 <? port) = false) as H16 by (apply Z.ltb_ge; lia).
  destruct a as [|v|v z]; [done| |].
  - rewrite !list_ascii_app. cbn [list_ascii_of_string app].
    rewrite split_last_colon_app by done.
    assert (match list_ascii_of_string (Addr_String (Addr4 v)) with "["%char :: _ => False | _ => True end) as Hb.
    { cbn [Addr_String]. rewrite list_ascii_of_string_of_list_ascii. unfold string4.
      pose proof (octet_head (v4oct v 0) (v4oct_range v 0)) as Hc.
      destruct (appendDecimal (v4oct v 0)) as [|c s]; [done|]. destruct Hc as [d Hc]. cbn [app].
      destruct c as [[] [] [] [] [] [] [] []]; try exact I. vm_compute in Hc. discriminate Hc. }
    destruct (list_ascii_of_string (Addr_String (Addr4 v))) as [|c s] eqn:E; [done|].
    assert (forall X (x y : X), match c with "["%char => x | _ => y end = y) as Hm
      by (intros X x y; destruct c as [[] [] [] [] [] [] [] []]; done).
    assert (string_of_list_ascii (c :: s) = Addr_String (Addr4 v)) as Es
      by (rewrite <- E; apply string_of_list_ascii_of_string).
    rewrite Hm. cbn -[string_of_list_ascii].
    rewrite (bool_decide_eq_false_2 (list_ascii_of_string _ = [])) by done.
    cbn -[string_of_list_ascii]. rewrite Hp. cbn -[string_of_list_ascii]. by rewrite H16, Es, Hparse.
  - rewrite !list_ascii_app. cbn [list_ascii_of_string app].
    change ("]:"%string +:+ pretty (Z.to_N port)) with ("]"%string +:+ (":"%string +:+ pretty (Z.to_N port))).
    pose proof (string_of_list_ascii_of_string (Addr_String (Addr6 v z))) as EA.
    set (A := list_ascii_of_string (Addr_String (Addr6 v z))) in *. clearbody A.
    replace ("["%char :: A ++ "]"%char :: ":"%char :: list_ascii_of_string (pretty (Z.to_N port)))
      with (("["%char :: A ++ ["]"%char]) ++ ":"%char :: list_ascii_of_string (pretty (Z.to_N port)))
      by (cbn; by rewrite <- app_assoc).
    rewrite split_last_colon_app by done. cbn iota beta.
    rewrite last_snoc, (bool_decide_eq_true_2 (Some "]"%char = Some "]"%char)), removelast_last by done.
    cbn -[string_of_list_ascii].
    rewrite (bool_decide_eq_false_2 (list_ascii_of_string _ = [])) by done.
    cbn -[string_of_list_ascii]. rewrite Hp. cbn -[string_of_list_ascii].
    by rewrite H16, EA, Hparse.
Qed.
