(* ===== verification/Orp.v ===== *)
(** * The agent's surroundings: wire messages, transport and the call trace

    [lib/orp], [lib/transport] and the operating system are not part of the
    agent.  Their data is declared here with the fields the agent reads and
    writes, and their behaviour is a class of functions of the trace of calls
    made so far: quantifying over its instances quantifies over everything
    the network, the peer and the scheduler can answer.  Every call the agent
    makes is recorded in the trace together with its answer. *)

From S2P Require Import Prelude Netip.

(** ** Frames and messages of [lib/orp] *)
Inductive FrameType : Type :=
  | FrameTypeHello
  | FrameTypeHelloAck
  | FrameTypeRegister
  | FrameTypeRegisterAck
  | FrameTypeOpenStream
  | FrameTypeIncomingStream
  | FrameTypeStreamAccept
  | FrameTypeStreamReject
  | FrameTypeStreamReady
  | FrameTypeAllocGranted
  | FrameTypeStreamResume
  | FrameTypeStreamCheckpoint
  | FrameTypeCandidateOffer
  | FrameTypeCandidateAnswer
  | FrameTypeMigrateToP2P
  | FrameTypeObservedAddrQuery
  | FrameTypeObservedAddrResp
  | FrameTypeOther (n : Z).

#[export] Instance FrameType_eq_dec : EqDecision FrameType.
Proof. solve_decision. Defined.

Definition byte : Type := Z.

Record Frame : Type := mkFrame { f_Type : FrameType; f_Payload : list byte }.

Record pbCandidate : Type := mkPb {
  pb_Kind : string;
  pb_Ip : string;
  pb_Port : Z;       (* uint32 *)
  pb_Priority : Z    (* uint32 *)
}.

(** A [[]*orpv1.Candidate]: an element may be the nil pointer. *)
Definition pbCandidates : Type := list (option pbCandidate).

Record IncomingStream : Type := mkIncoming {
  in_TargetService : string;
  in_StreamId : Z
}.

Record AllocGranted : Type := mkGranted {
  ag_StreamId : Z;
  ag_MyAllocation : Z;
  ag_PeerAllocation : Z;
  ag_ForwardEndpoint : string
}.

Record StreamResume : Type := mkResume {
  sr_StreamId : Z;
  sr_MyPosition : Z;
  sr_PeerAckPosition : Z
}.

Record StreamCheckpoint : Type := mkCheckpoint {
  cp_StreamId : Z;
  cp_MyPosition : Z;
  cp_PeerAckPosition : Z
}.

Record CandidateOffer : Type := mkOffer { of_StreamId : Z; of_Candidates : pbCandidates }.
Record CandidateAnswer : Type := mkAnswer { an_StreamId : Z; an_Candidates : pbCandidates }.
Record ObservedAddrResp : Type := mkObserved { oa_RequestId : Z; oa_Ip : string; oa_Port : Z }.

(** The messages the agent writes. *)
Inductive message : Type :=
  | MHello (ProtocolVersion AgentUri : string)
  | MRegister (ServiceName LocalAddr : string)
  | MOpenStream (TargetService Method : string) (StreamId : Z)
  | MStreamAccept
  | MStreamReject (Code : Z) (Reason : error + string)
  | MStreamResume (m : StreamResume)
  | MStreamCheckpoint (m : StreamCheckpoint)
  | MCandidateOffer (m : CandidateOffer)
  | MCandidateAnswer (m : CandidateAnswer)
  | MMigrateToP2P (StreamId : Z) (Selected : pbCandidate)
  | MObservedAddrQuery (RequestId : Z).

(** ** References into [lib/transport] *)
Record conn : Type := mkConn { conn_id : nat }.
Record stream : Type := mkStream { stream_id : nat }.
Record backend : Type := mkBackend { backend_id : nat }.

#[export] Instance conn_eq_dec : EqDecision conn.
Proof. solve_decision. Defined.
#[export] Instance stream_eq_dec : EqDecision stream.
Proof. solve_decision. Defined.
#[export] Instance backend_eq_dec : EqDecision backend.
Proof. solve_decision. Defined.

Inductive dialer : Type :=
  | DefaultDialer
  | DialQUIC             (* the function transport.DialQUIC *)
  | TCPDialer
  | SharedTransport (sock : nat).

#[export] Instance dialer_eq_dec : EqDecision dialer.
Proof. solve_decision. Defined.

(** Operating-system and quic-go objects with an explicit lifetime. *)
Inductive resource : Type :=
  | ResUDP
  | ResTransport
  | ResListener
  | ResQuicConn
  | ResQuicStream.

#[export] Instance resource_eq_dec : EqDecision resource.
Proof. solve_decision. Defined.

(** ** The trace *)
Inductive event : Type :=
  | EvDial (d : dialer) (addr : string) (r : result conn)
  | EvOpenStream (c : conn) (r : result stream)
  | EvConnClose (c : conn)
  | EvWriteFrame (s : stream) (t : FrameType) (m : message) (r : result unit)
  | EvParseFrame (s : stream) (r : result Frame)
  | EvWrite (s : stream) (p : list byte) (n : Z) (e : option error)
  | EvStreamClose (s : stream)
  | EvCancelRead (s : stream)
  | EvCloseWrite (s : stream)
  | EvAcceptStream (c : conn) (r : result stream)
  | EvNewStreamID (id : Z)
  | EvHandler (h : nat) (r : result backend)
  | EvBackendClose (b : backend)
  | EvBridge (a : stream) (b : backend)
  | EvBridgeForward (qs : nat) (b : backend)
  | EvDatagram (sock : nat) (p : list byte) (to : AddrPort) (e : option error)
  | EvAcquire (k : resource) (id : nat)
  | EvRefused (k : resource) (e : error)
  | EvRelease (k : resource) (id : nat) (e : option error)
  | EvSleep (d : Z) (ctxDone : bool)
  | EvSpawn (what : string)
  | EvPanic.

Abbreviation trace := (list event).

(** ** The environment

    [net_*] answer a call from the trace before it. *)
Class Net : Type := {
  net_dial : trace -> dialer -> string -> result conn;
  net_open : trace -> conn -> result stream;
  net_write_frame : trace -> stream -> FrameType -> message -> result unit;
  net_parse_frame : trace -> stream -> result Frame;
  net_write : trace -> stream -> list byte -> Z * option error;
  net_accept : trace -> conn -> result stream;
  net_new_stream_id : trace -> string -> string -> string -> Z;
  net_handler : trace -> nat -> IncomingStream -> result backend;
  net_datagram : trace -> nat -> list byte -> AddrPort -> option error;
  net_acquire : trace -> resource -> option error;
  net_release : trace -> resource -> nat -> option error;
  (* ctx.Err(), [None] for nil *)
  net_ctx_done : trace -> option error;
  (* the order in which Go iterates a map *)
  net_order : forall A, trace -> list A -> list A;
  (* orp.UnmarshalProto(f, <type>, &<message>{}) *)
  unmarshal_HelloAck : Frame -> result unit;
  unmarshal_IncomingStream : Frame -> result IncomingStream;
  unmarshal_AllocGranted : Frame -> result AllocGranted;
  unmarshal_StreamReady : Frame -> result Z;
  unmarshal_StreamResume : Frame -> result StreamResume;
  unmarshal_StreamCheckpoint : Frame -> result StreamCheckpoint;
  unmarshal_CandidateOffer : Frame -> result CandidateOffer;
  unmarshal_CandidateAnswer : Frame -> result CandidateAnswer;
  unmarshal_ObservedAddrResp : Frame -> result ObservedAddrResp
}.

(** ** Programs over a Go state [S] and the trace *)
Definition Eff (S A : Type) : Type := M (S * trace) A.

Definition emit {S} (e : event) : Eff S unit := fun '(s, t) => (tt, (s, t ++ [e])).
Definition get {S} : Eff S S := fun '(s, t) => (s, (s, t)).
Definition put {S} (s : S) : Eff S unit := fun '(_, t) => (tt, (s, t)).
Definition history {S} : Eff S trace := fun '(s, t) => (t, (s, t)).

Section Calls.
Context `{Net} {S : Type}.

Definition Dialer_Dial (d : dialer) (addr : string) : Eff S (result conn) :=
  fun '(s, t) => let r := net_dial t d addr in (r, (s, t ++ [EvDial d addr r])).

Definition Conn_OpenStream (c : conn) : Eff S (result stream) :=
  fun '(s, t) => let r := net_open t c in (r, (s, t ++ [EvOpenStream c r])).

Definition Conn_Close (c : conn) : Eff S unit := emit (EvConnClose c).
Definition Stream_Close (st : stream) : Eff S unit := emit (EvStreamClose st).
Definition Stream_CancelRead (st : stream) : Eff S unit := emit (EvCancelRead st).
Definition Stream_CloseWrite (st : stream) : Eff S unit := emit (EvCloseWrite st).

Definition WriteFrame (st : stream) (typ : FrameType) (m : message) : Eff S (result unit) :=
  fun '(s, t) =>
    let r := net_write_frame t st typ m in (r, (s, t ++ [EvWriteFrame st typ m r])).

Definition ParseFrame (st : stream) : Eff S (result Frame) :=
  fun '(s, t) => let r := net_parse_frame t st in (r, (s, t ++ [EvParseFrame st r])).

Definition Stream_Write (st : stream) (p : list byte) : Eff S (Z * option error) :=
  fun '(s, t) =>
    let '(n, e) := net_write t st p in ((n, e), (s, t ++ [EvWrite st p n e])).

Definition Conn_AcceptStream (c : conn) : Eff S (result stream) :=
  fun '(s, t) => let r := net_accept t c in (r, (s, t ++ [EvAcceptStream c r])).

Definition NewStreamID (uri target method : string) : Eff S Z :=
  fun '(s, t) =>
    let id := uint64 (net_new_stream_id t uri target method) in (id, (s, t ++ [EvNewStreamID id])).

Definition call_handler (h : nat) (inc : IncomingStream) : Eff S (result backend) :=
  fun '(s, t) => let r := net_handler t h inc in (r, (s, t ++ [EvHandler h r])).

Definition Backend_Close (b : backend) : Eff S unit := emit (EvBackendClose b).

Definition Datagram (sock : nat) (p : list byte) (to : AddrPort) : Eff S (option error) :=
  fun '(s, t) =>
    let e := net_datagram t sock p to in (e, (s, t ++ [EvDatagram sock p to e])).

(** Acquiring a resource gives it a name of its own. *)
Definition acquire (k : resource) : Eff S (result nat) :=
  fun '(s, t) =>
    match net_acquire t k with
    | Some e => (Err e, (s, t ++ [EvRefused k e]))
    | None => (Ok (length t), (s, t ++ [EvAcquire k (length t)]))
    end.

Definition release (k : resource) (id : nat) : Eff S (option error) :=
  fun '(s, t) => let e := net_release t k id in (e, (s, t ++ [EvRelease k id e])).

(** A select between a timer of [d] nanoseconds and the context: [true] when
    the context is done. *)
Definition sleep (d : Z) : Eff S bool :=
  fun '(s, t) =>
    let b := bool_decide (net_ctx_done t <> None) in (b, (s, t ++ [EvSleep d b])).

Definition ctx_Err : Eff S (option error) := fun '(s, t) => (net_ctx_done t, (s, t)).

Definition map_order {A} (l : list A) : Eff S (list A) :=
  fun '(s, t) => (net_order A t l, (s, t)).
End Calls.

(** ** Which events a program can leave *)
Definition emits {S A} (P : event -> Prop) (m : Eff S A) : Prop :=
  forall s t, exists a s' ext, m (s, t) = (a, (s', t ++ ext)) /\ Forall P ext.

Section Emits.
Context {S : Type} (P : event -> Prop).

Lemma emits_ret {A} (a : A) : emits (S := S) P (mret a).
Proof. intros s t. exists a, s, []. by rewrite app_nil_r. Qed.

Lemma emits_bind {A B} (m : Eff S A) (k : A -> Eff S B) :
  emits P m -> (forall a, emits P (k a)) -> emits P (mbind m k).
Proof.
  intros Hm Hk s t. destruct (Hm s t) as (a & s1 & e1 & E1 & H1).
  destruct (Hk a s1 (t ++ e1)) as (b & s2 & e2 & E2 & H2).
  exists b, s2, (e1 ++ e2). unfold mbind. rewrite E1, E2, app_assoc.
  split; [done|]. by apply Forall_app.
Qed.

(** A call whose only effect on the trace is one event. *)
Lemma emits_call {A} (m : Eff S A) :
  (forall s t, exists a s' e, m (s, t) = (a, (s', t ++ [e])) /\ P e) -> emits P m.
Proof.
  intros Hm s t. destruct (Hm s t) as (a & s' & e & E & He).
  exists a, s', [e]. split; [done|]. by constructor.
Qed.

Lemma emits_silent {A} (m : Eff S A) :
  (forall s t, exists a s', m (s, t) = (a, (s', t))) -> emits P m.
Proof.
  intros Hm s t. destruct (Hm s t) as (a & s' & E). exists a, s', []. by rewrite app_nil_r.
Qed.
End Emits.

Create HintDb emits.
#[export] Hint Resolve emits_ret : emits.

(** Walk a program and check each of its calls. *)
Ltac emits_step :=
  first
    [ solve [auto with emits]
    | apply emits_bind; [|intros ?]
    | case_match; simplify_eq/=
    | solve [apply emits_call; intros ? ?; eexists _, _, _; split; [reflexivity|exact I]]
    | solve [apply emits_silent; intros ? ?; eexists _, _; reflexivity] ].

(** Go visits every entry of a map once, in no particular order. *)
Definition MapOrder (N : Net) : Prop := forall A t (l : list A), net_order A t l ≡ₚ l.

(** ** A concrete environment

    Used to exhibit runs: dials and opens succeed with handles numbered by the
    length of the trace, writes succeed, and the frames read are chosen by
    [frames].  Its codec reads the numeric fields of a message from the front
    of the payload and a string from the rest. *)
Definition text (bs : list byte) : string :=
  String.string_of_list_ascii (map (fun b => Ascii.ascii_of_N (Z.to_N b)) bs).

Definition decode3 {A} (mk : Z -> Z -> Z -> A) (f : Frame) : result A :=
  match f_Payload f with
  | [a; b; c] => Ok (mk a b c)
  | _ => Err (External 1)
  end.

Definition demo_net (frames : trace -> stream -> Frame) : Net := {|
  net_dial t _ _ := Ok (mkConn (length t));
  net_open t _ := Ok (mkStream (length t));
  net_write_frame _ _ _ _ := Ok tt;
  net_parse_frame t s := Ok (frames t s);
  net_write _ _ p := (Z.of_nat (length p), None);
  net_accept t _ := if (length t <? 8)%nat then Ok (mkStream (length t)) else Err (External 3);
  net_new_stream_id t _ _ _ := Z.of_nat (length t);
  net_handler t _ _ := Ok (mkBackend (length t));
  net_datagram _ _ _ _ := None;
  net_acquire _ _ := None;
  net_release _ _ _ := None;
  net_ctx_done _ := None;
  net_order _ _ l := l;
  unmarshal_HelloAck _ := Ok tt;
  unmarshal_IncomingStream f :=
    match f_Payload f with
    | id :: svc => Ok (mkIncoming (text svc) id)
    | [] => Err (External 1)
    end;
  unmarshal_AllocGranted f :=
    match f_Payload f with
    | id :: my :: peer :: ep => Ok (mkGranted id my peer (text ep))
    | _ => Err (External 1)
    end;
  unmarshal_StreamReady f :=
    match f_Payload f with [id] => Ok id | _ => Err (External 1) end;
  unmarshal_StreamResume := decode3 mkResume;
  unmarshal_StreamCheckpoint := decode3 mkCheckpoint;
  unmarshal_CandidateOffer f :=
    match f_Payload f with [id] => Ok (mkOffer id []) | _ => Err (External 1) end;
  unmarshal_CandidateAnswer f :=
    match f_Payload f with [id] => Ok (mkAnswer id []) | _ => Err (External 1) end;
  unmarshal_ObservedAddrResp f :=
    match f_Payload f with
    | id :: port :: ip => Ok (mkObserved id (text ip) port)
    | _ => Err (External 1)
    end
|}.

(** The same environment with other answers to dialing, frame writes and id
    generation. *)
Definition tweak_net (N : Net)
    (dial : trace -> dialer -> string -> result conn)
    (write_frame : trace -> stream -> FrameType -> message -> result unit)
    (new_stream_id : trace -> string -> string -> string -> Z) : Net := {|
  net_dial := dial;
  net_write_frame := write_frame;
  net_new_stream_id := new_stream_id;
  net_open := net_open;
  net_parse_frame := net_parse_frame;
  net_write := net_write;
  net_accept := net_accept;
  net_handler := net_handler;
  net_datagram := net_datagram;
  net_acquire := net_acquire;
  net_release := net_release;
  net_ctx_done := net_ctx_done;
  net_order := @net_order N;
  unmarshal_HelloAck := unmarshal_HelloAck;
  unmarshal_IncomingStream := unmarshal_IncomingStream;
  unmarshal_AllocGranted := unmarshal_AllocGranted;
  unmarshal_StreamReady := unmarshal_StreamReady;
  unmarshal_StreamResume := unmarshal_StreamResume;
  unmarshal_StreamCheckpoint := unmarshal_StreamCheckpoint;
  unmarshal_CandidateOffer := unmarshal_CandidateOffer;
  unmarshal_CandidateAnswer := unmarshal_CandidateAnswer;
  unmarshal_ObservedAddrResp := unmarshal_ObservedAddrResp
|}.
