(* ===== verification/Tls.v ===== *)
(** * TLS configurations

    [loadClientTLS] and [loadServerTLS] of [cmd/outrelay-agent/main.go] and
    [ensureForwardALPN] of [pkg/session/forward.go], with what a QUIC
    handshake of [crypto/tls] does with the fields they set.  Parsing of
    certificates and verification of chains are operations of the class
    [PKI]; the file system is an argument of the loaders. *)

From S2P Require Import Prelude Netip Orp.

(** Handles of a parsed certificate with its key, and of a pool of roots. *)
Record Certificate : Type := mkCert { cert_id : nat }.
Record CertPool : Type := mkPool { pool_id : nat }.

Inductive ClientAuthType : Type :=
  | NoClientCert
  | RequestClientCert
  | RequireAnyClientCert
  | VerifyClientCertIfGiven
  | RequireAndVerifyClientCert.

(** The fields of [tls.Config] the code sets; the zero value of each is
    [[]], [None], [NoClientCert], the empty string and [0]. *)
Record tlsConfig : Type := mkTLS {
  Certificates : list Certificate;
  RootCAs : option CertPool;
  ServerName : string;
  ClientCAs : option CertPool;
  ClientAuth : ClientAuthType;
  NextProtos : list string;
  MinVersion : Z
}.

Definition VersionTLS13 : Z := 772.
Definition ForwardALPN : string := "outrelay-fwd/1".

(** ** Loading *)

(** [os.ReadFile], [tls.LoadX509KeyPair] and [AppendCertsFromPEM] on an empty
    pool ([None] when it adds nothing). *)
Record files : Type := mkFiles {
  LoadX509KeyPair : string -> string -> result Certificate;
  ReadFile : string -> result (list byte);
  AppendCertsFromPEM : list byte -> option CertPool
}.

(** The steps both loaders start with. *)
Definition load_material (f : files) (certPath keyPath caPath : string)
    : result (Certificate * CertPool) :=
  match LoadX509KeyPair f certPath keyPath with
  | Err e => Err e
  | Ok cert =>
      match ReadFile f caPath with
      | Err e => Err e
      | Ok caPEM =>
          match AppendCertsFromPEM f caPEM with
          | None => Err (ErrorString "tls: empty ca PEM")
          | Some pool => Ok (cert, pool)
          end
      end
  end.

Definition loadServerTLS (f : files) (certPath keyPath caPath : string) : result tlsConfig :=
  match load_material f certPath keyPath caPath with
  | Err e => Err e
  | Ok (cert, pool) =>
      Ok (mkTLS [cert] None "" (Some pool) RequireAndVerifyClientCert [] VersionTLS13)
  end.

Definition loadClientTLS (f : files) (certPath keyPath caPath serverName : string)
    : result tlsConfig :=
  match load_material f certPath keyPath caPath with
  | Err e => Err e
  | Ok (cert, pool) =>
      Ok (mkTLS [cert] (Some pool) serverName None NoClientCert [] VersionTLS13)
  end.

Definition ensureForwardALPN (c : tlsConfig) : tlsConfig :=
  mkTLS (Certificates c) (RootCAs c) (ServerName c) (ClientCAs c) (ClientAuth c) [ForwardALPN]
    (if MinVersion c =? 0 then VersionTLS13 else MinVersion c).

(** ** What a QUIC handshake does with a configuration *)

(** Chain verification against a pool, and against a host name. *)
Class PKI : Type := {
  verifies : CertPool -> Certificate -> bool;
  names : Certificate -> string -> bool;
  system_roots : CertPool
}.

(** The server's choice: the first of its protocols the client offers; a QUIC
    server with protocols refuses a client that offers none. *)
Definition negotiateALPN (server client : list string) : result string :=
  match server with
  | [] => Ok ""
  | _ =>
      match List.find (fun p => bool_decide (p ∈ client)) server with
      | Some p => Ok p
      | None => Err (ErrorString "tls: no application protocol")
      end
  end.

(** The client's check of the protocol the server chose. *)
Definition checkALPN (client : list string) (proto : string) : bool :=
  if bool_decide (proto = "") then bool_decide (client = []) else bool_decide (proto ∈ client).

Section Handshake.
Context `{PKI}.

Definition roots (pool : option CertPool) : CertPool := default system_roots pool.

(** The server's verdict on a client that offers [protos] and proves
    possession of the certificate [presented]. *)
Definition client_cert_ok (s : tlsConfig) (presented : option Certificate) : bool :=
  match ClientAuth s, presented with
  | NoClientCert, _ | RequestClientCert, _ => true
  | RequireAnyClientCert, o => bool_decide (o <> None)
  | VerifyClientCertIfGiven, None => true
  | VerifyClientCertIfGiven, Some c => verifies (roots (ClientCAs s)) c
  | RequireAndVerifyClientCert, None => false
  | RequireAndVerifyClientCert, Some c => verifies (roots (ClientCAs s)) c
  end.

Definition server_accepts (s : tlsConfig) (protos : list string) (presented : option Certificate)
    : result string :=
  match negotiateALPN (NextProtos s) protos with
  | Err e => Err e
  | Ok p =>
      if client_cert_ok s presented then Ok p
      else Err (ErrorString "tls: client certificate refused")
  end.

(** The client's verdict on a server that chose [proto] and proves possession
    of the certificate [presented]. *)
Definition client_accepts (c : tlsConfig) (proto : string) (presented : option Certificate) : bool :=
  checkALPN (NextProtos c) proto &&
  match presented with
  | None => false
  | Some ct => verifies (roots (RootCAs c)) ct && names ct (ServerName c)
  end.

(** A handshake of two configurations; each side presents its certificate. *)
Definition handshake (c s : tlsConfig) : result string :=
  match server_accepts s (NextProtos c) (head (Certificates c)) with
  | Err e => Err e
  | Ok p =>
      if client_accepts c p (head (Certificates s)) then Ok p
      else Err (ErrorString "tls: server refused")
  end.
End Handshake.

(** ** Facts *)
Lemma load_material_ok f certPath keyPath caPath cert pool :
  load_material f certPath keyPath caPath = Ok (cert, pool) <->
  LoadX509KeyPair f certPath keyPath = Ok cert /\
  exists pem, ReadFile f caPath = Ok pem /\ AppendCertsFromPEM f pem = Some pool.
Proof.
  unfold load_material. split.
  - repeat (case_match; simplify_eq/=; try done). intros. simplify_eq. eauto.
  - by intros (-> & pem & -> & ->).
Qed.

Lemma server_tls_ok f certPath keyPath caPath c :
  loadServerTLS f certPath keyPath caPath = Ok c ->
  exists cert pool, load_material f certPath keyPath caPath = Ok (cert, pool) /\
    c = mkTLS [cert] None "" (Some pool) RequireAndVerifyClientCert [] VersionTLS13.
Proof. unfold loadServerTLS. repeat case_match; try done. intros [= <-]. eauto. Qed.

Lemma client_tls_ok f certPath keyPath caPath name c :
  loadClientTLS f certPath keyPath caPath name = Ok c ->
  exists cert pool, load_material f certPath keyPath caPath = Ok (cert, pool) /\
    c = mkTLS [cert] (Some pool) name None NoClientCert [] VersionTLS13.
Proof. unfold loadClientTLS. repeat case_match; try done. intros [= <-]. eauto. Qed.

Lemma negotiate_single p client proto :
  negotiateALPN [p] client = Ok proto <-> proto = p /\ p ∈ client.
Proof.
  unfold negotiateALPN. cbn. case_bool_decide; split; try done; [by intros [= <-]|by intros [-> _]|].
  by intros [_ ?].
Qed.

Lemma checkALPN_single p proto : p <> ""%string -> checkALPN [p] proto = true <-> proto = p.
Proof.
  intros Hp. unfold checkALPN. case_bool_decide; rewrite bool_decide_eq_true; [by subst|].
  apply list_elem_of_singleton.
Qed.

Lemma server_accepts_single `{PKI} certs name pool p v protos presented proto :
  server_accepts (mkTLS certs None name (Some pool) RequireAndVerifyClientCert [p] v)
    protos presented = Ok proto <->
  proto = p /\ p ∈ protos /\ exists ct, presented = Some ct /\ verifies pool ct = true.
Proof.
  unfold server_accepts, client_cert_ok. cbn -[negotiateALPN].
  destruct (negotiateALPN [p] protos) as [q|e] eqn:En.
  - apply negotiate_single in En as [-> Hin]. destruct presented as [ct|].
    + destruct (verifies pool ct) eqn:Ev; split; try done; [intros [= <-]; eauto|by intros (-> & _)|].
      intros (_ & _ & ? & [= <-] & ?). congruence.
    + split; [done|]. by intros (_ & _ & ? & ? & _).
  - split; [done|]. intros (-> & Hin & _).
    rewrite (proj2 (negotiate_single p protos p)) in En; done.
Qed.

Lemma client_accepts_single `{PKI} certs name pool auth cas p v proto presented :
  p <> ""%string ->
  client_accepts (mkTLS certs (Some pool) name cas auth [p] v) proto presented = true <->
  proto = p /\ exists ct, presented = Some ct /\ verifies pool ct = true /\ names ct name = true.
Proof.
  intros Hp. unfold client_accepts. cbn. rewrite andb_true_iff, checkALPN_single by done.
  destruct presented as [ct|]; [rewrite andb_true_iff|]; split.
  - intros (-> & ? & ?). eauto.
  - by intros (-> & ? & [= <-] & ?).
  - by intros [_ ?].
  - by intros (_ & ? & ? & _).
Qed.

(** ** Properties *)


#[local] Instance demo_pki : PKI := {|
  verifies p c := Nat.eqb (pool_id p) (cert_id c);
  names _ n := String.eqb n "localhost";
  system_roots := mkPool 0
|}.

Definition demo_files : files := mkFiles
  (fun _ _ => Ok (mkCert 4)) (fun _ => Ok [1; 2]) (fun pem => Some (mkPool 4)).

