(* ===== verification/Candidate.v ===== *)
(** * [pkg/candidate]: gathering, ranking and sorting P2P candidates *)

From Stdlib Require Import Sorting.Sorted.
From stdpp Require Import sorting.
From S2P Require Import Prelude Netip Orp.

Local Open Scope agent_scope.

Record Candidate : Type := mkCandidate {
  Kind : string;
  CAddr : AddrPort;
  Priority : Z    (* uint32 *)
}.

#[export] Instance Candidate_eq_dec : EqDecision Candidate.
Proof. solve_decision. Defined.

Definition candidate_zero : Candidate := mkCandidate "" (mkAddrPort AddrZero 0) 0.

(** ** Host candidates *)

(** What [net.InterfaceAddrs] lists: a [*net.IPNet] with its [IP] bytes ([None]
    for a nil IP), or another [net.Addr]. *)
Inductive netAddr : Type :=
  | IPNet (IP : option (list Z))
  | OtherAddr.

Definition hostPriority (ip : Addr) : Z :=
  let base := 50 in
  let base := if IsPrivate ip then 30 else base in
  let base := if IsGlobalUnicast ip && negb (IsPrivate ip) then 70 else base in
  if Is6 ip then uint32 (base + 10) else base.

(** One round of the loop over interface addresses; [None] is a [continue]. *)
Definition hostCandidate (port : Z) (a : netAddr) : option Candidate :=
  match a with
  | OtherAddr | IPNet None => None
  | IPNet (Some bs) =>
      match AddrFromSlice bs with
      | None => None
      | Some ip0 =>
          let ip := Unmap ip0 in
          if negb (Addr_IsValid ip) || IsLoopback ip || IsLinkLocalUnicast ip ||
             IsMulticast ip || IsUnspecified ip
          then None
          else Some (mkCandidate "host" (AddrPortFrom ip port) (hostPriority ip))
      end
  end.

Definition HostCandidates (ifaddrs : result (list netAddr)) (port : Z) : list Candidate :=
  match ifaddrs with
  | Err _ => []
  | Ok addrs => omap (hostCandidate port) addrs
  end.

(** ** Server-reflexive candidate *)

(** The package-level request counter ([atomic.Uint64]). *)
Definition nextRequestID_Add (n : Z) : Z := uint64 (n + 1).

(** Which arm of the final [select] fired. *)
Inductive srflx_select : Type := SelDone | SelTimer | SelCtx (e : error).

(** The goroutine's body: one frame off the control stream. *)
Definition readObserved `{Net} {S} (ctrl : stream) (id : Z) : Eff S (result Candidate) :=
  do r <- ParseFrame ctrl ;;
  mret
    match r with
    | Err e => Err (Wrapped "candidate: read response" e)
    | Ok f =>
        if bool_decide (f_Type f = FrameTypeObservedAddrResp) then
          match unmarshal_ObservedAddrResp f with
          | Err e => Err e
          | Ok r =>
              if oa_RequestId r =? id then
                match ParseAddr (oa_Ip r) with
                | None => Err (ErrorString "candidate: parse ip")
                | Some ip => Ok (mkCandidate "srflx" (AddrPortFrom ip (uint16 (oa_Port r))) 20)
                end
              else Err (ErrorString "candidate: response id mismatch")
          end
        else Err (ErrorString "candidate: unexpected frame")
    end.

(** [rand] is the draw of [rand.Uint32()], [sel] the arm the select takes: on
    [SelDone] the goroutine has read its frame, on the other two it is left
    blocked in [ParseFrame], which the [EvSpawn] event without a later
    [EvParseFrame] records. *)
Definition QueryServerReflexive `{Net} (ctrl : stream) (rand : Z) (sel : srflx_select)
    : Eff Z (result Candidate) :=
  do ctr <- get ;;
  let id0 := nextRequestID_Add ctr in
  do_ put id0 ;;
  let id := if id0 =? 0 then Z.lor (uint32 rand) 1 else id0 in
  do w <- WriteFrame ctrl FrameTypeObservedAddrQuery (MObservedAddrQuery id) ;;
  match w with
  | Err e => mret (Err (Wrapped "candidate: send query" e))
  | Ok _ =>
      do_ emit (EvSpawn "candidate: read OBSERVED_ADDR_RESP") ;;
      match sel with
      | SelDone => readObserved ctrl id
      | SelTimer => mret (Err (ErrorString "candidate: server-reflexive query timed out"))
      | SelCtx e => mret (Err e)
      end
  end.

(** ** Sorting *)

(** The inner loop: [out[j]] moves left while it has the larger priority. *)
Fixpoint sink (j : nat) (out : list Candidate) : list Candidate :=
  match j with
  | O => out
  | S j' =>
      match out !! j, out !! j' with
      | Some a, Some b =>
          if Priority a >? Priority b
          then sink j' (<[j := b]> (<[j' := a]> out))
          else out
      | _, _ => out
      end
  end.

Definition Sort (cs : list Candidate) : list Candidate :=
  foldl (fun out i => sink i out) cs (seq 1 (length cs - 1)).

(** ** Facts about sorting *)

(** Descending priority. *)
Definition prio_ge (a b : Candidate) : Prop := Priority b <= Priority a.

#[export] Instance prio_ge_dec : RelDecision prio_ge.
Proof. intros a b. unfold prio_ge. apply _. Defined.

#[export] Instance prio_ge_trans : Transitive prio_ge.
Proof. intros a b c. unfold prio_ge. lia. Qed.

#[export] Instance prio_ge_total : Total prio_ge.
Proof. intros a b. unfold prio_ge. lia. Qed.

Definition same_prio (p : Z) (c : Candidate) : Prop := Priority c = p.

#[export] Instance same_prio_dec p c : Decision (same_prio p c).
Proof. unfold same_prio. apply _. Defined.

(** Reference insertion: behind everything of at least the same priority. *)
Definition ins (l : list Candidate) (x : Candidate) : list Candidate :=
  filter (fun c => prio_ge c x) l ++ x :: filter (fun c => ~ prio_ge c x) l.

Lemma swap_middle {A} (l r : list A) (a b : A) :
  <[S (length l) := a]> (<[length l := b]> (l ++ a :: b :: r)) = l ++ b :: a :: r.
Proof.
  replace (S (length l)) with (length l + 1)%nat by lia.
  rewrite <- (Nat.add_0_r (length l)) at 2. by rewrite !insert_app_r.
Qed.

Lemma sink_ins l x r :
  StronglySorted prio_ge l -> sink (length l) (l ++ x :: r) = ins l x ++ r.
Proof.
  revert x r. induction l as [|b l IH] using rev_ind; intros x r Hs; [done|].
  apply StronglySorted_app in Hs as (Hcross & Hl & _).
  rewrite length_app, Nat.add_1_r, <- app_assoc. cbn [sink app].
  rewrite (list_lookup_middle l _ b (length l)) by done.
  replace ((l ++ b :: x :: r) !! S (length l)) with (Some x)
    by (rewrite lookup_app_r by lia; by replace (S (length l) - length l)%nat with 1%nat by lia).
  destruct (Z.gtb_spec (Priority x) (Priority b)) as [Hgt|Hle].
  - rewrite swap_middle, IH by done. unfold ins. rewrite !filter_app, <- !app_assoc.
    rewrite (filter_cons_False _ b), (filter_cons_True _ b) by (unfold prio_ge; lia).
    rewrite !filter_nil. cbn. by rewrite <- app_assoc.
  - assert (Forall (fun c => prio_ge c x) (l ++ [b])) as Hall.
    { apply Forall_app. split; [|repeat constructor; unfold prio_ge; lia].
      rewrite Forall_forall. intros c Hc.
      assert (prio_ge c b) by (apply Hcross; [done|set_solver]). unfold prio_ge in *. lia. }
    unfold ins. rewrite filter_all by done. rewrite filter_none.
    + by rewrite <- !app_assoc.
    + eapply Forall_impl; [exact Hall|]. naive_solver.
Qed.

Lemma ins_perm l x : ins l x ≡ₚ x :: l.
Proof.
  unfold ins. rewrite <- Permutation_middle. constructor.
  induction l as [|c l IH]; [done|]. destruct (decide (prio_ge c x)) as [Hc|Hc].
  - rewrite filter_cons_True, filter_cons_False by tauto. cbn. by rewrite IH.
  - rewrite filter_cons_False, filter_cons_True by tauto.
    rewrite <- Permutation_middle. by rewrite IH.
Qed.

Lemma length_ins l x : length (ins l x) = S (length l).
Proof. by rewrite ins_perm. Qed.

Lemma filter_sorted (P : Candidate -> Prop) `{!forall c, Decision (P c)} l :
  StronglySorted prio_ge l -> StronglySorted prio_ge (filter P l).
Proof.
  induction 1 as [|c l Hl IH Hc]; [constructor|].
  destruct (decide (P c)).
  - rewrite filter_cons_True by done. constructor; [done|].
    rewrite Forall_forall in *. intros d Hd. apply Hc. by apply list_elem_of_filter in Hd as [_ ?].
  - by rewrite filter_cons_False.
Qed.

Lemma ins_sorted l x : StronglySorted prio_ge l -> StronglySorted prio_ge (ins l x).
Proof.
  intros Hl. unfold ins. apply StronglySorted_app_2; [|by apply filter_sorted|].
  - intros a b [Ha _]%list_elem_of_filter [->|[Hb _]%list_elem_of_filter]%elem_of_cons;
      unfold prio_ge in *; lia.
  - constructor; [by apply filter_sorted|]. rewrite Forall_forall.
    intros c [Hc _]%list_elem_of_filter. unfold prio_ge in *. lia.
Qed.

Lemma filter_filter_sub {A} (P Q : A -> Prop)
    `{!forall x, Decision (P x)} `{!forall x, Decision (Q x)} (l : list A) :
  (forall x, P x -> Q x) -> filter P (filter Q l) = filter P l.
Proof.
  intros HPQ. induction l as [|x l IH]; [done|]. rewrite (filter_cons Q), (filter_cons P).
  destruct (decide (Q x)) as [q|q]; [rewrite (filter_cons P)|];
    destruct (decide (P x)) as [p|p]; rewrite ?IH; try done. destruct q; auto.
Qed.

Lemma filter_filter_disj {A} (P Q : A -> Prop)
    `{!forall x, Decision (P x)} `{!forall x, Decision (Q x)} (l : list A) :
  (forall x, Q x -> ~ P x) -> filter P (filter Q l) = [].
Proof.
  intros HPQ. apply filter_none, Forall_forall. intros x [Hx _]%list_elem_of_filter. auto.
Qed.

(** Insertion keeps the order of equal priorities. *)
Lemma ins_stable p l x :
  filter (same_prio p) (ins l x) = filter (same_prio p) (l ++ [x]).
Proof.
  unfold ins. rewrite !filter_app, !(filter_cons _ x), filter_nil.
  destruct (decide (Priority x <= p)) as [Hx|Hx].
  - rewrite filter_filter_sub, filter_filter_disj by (unfold prio_ge, same_prio; lia). done.
  - rewrite filter_filter_disj, filter_filter_sub by (unfold prio_ge, same_prio; lia).
    by rewrite !decide_False, app_nil_r by (unfold same_prio; lia).
Qed.

(** The loop of [Sort], started with a sorted prefix [l] in place, inserts the
    rest one by one. *)
Lemma sort_loop l r :
  StronglySorted prio_ge l ->
  foldl (fun out i => sink i out) (l ++ r) (seq (length l) (length r)) = foldl ins l r.
Proof.
  revert l. induction r as [|x r IH]; intros l Hl; cbn [foldl seq length].
  - by rewrite app_nil_r.
  - rewrite sink_ins by done. rewrite <- IH by (by apply ins_sorted).
    by rewrite length_ins.
Qed.

Lemma Sort_ins cs : Sort cs = foldl ins [] cs.
Proof.
  destruct cs as [|c cs]; [done|]. unfold Sort. cbn [length].
  rewrite Nat.sub_succ, Nat.sub_0_r. apply (sort_loop [c] cs). repeat constructor.
Qed.

Lemma foldl_ins_spec l cs :
  StronglySorted prio_ge l ->
  StronglySorted prio_ge (foldl ins l cs) /\
  foldl ins l cs ≡ₚ l ++ cs /\
  forall p, filter (same_prio p) (foldl ins l cs) = filter (same_prio p) (l ++ cs).
Proof.
  revert l. induction cs as [|x cs IH]; intros l Hl; cbn [foldl].
  - by rewrite app_nil_r.
  - destruct (IH (ins l x)) as (Hs & Hp & Hst); [by apply ins_sorted|].
    split; [done|]. split.
    + rewrite Hp, ins_perm. apply Permutation_middle.
    + intros p. rewrite Hst, filter_app, ins_stable, <- filter_app. by rewrite <- app_assoc.
Qed.

(** Two descending lists with the same elements per priority, in the same
    order, are the same list. *)
Lemma stable_sort_unique l k :
  StronglySorted prio_ge l -> StronglySorted prio_ge k ->
  (forall p, filter (same_prio p) l = filter (same_prio p) k) -> l = k.
Proof.
  intros Hl. revert k. induction Hl as [|c l Hl IH Hc]; intros k Hk Hf.
  - destruct k as [|d k]; [done|]. specialize (Hf (Priority d)).
    by rewrite filter_nil, filter_cons_True in Hf.
  - destruct Hk as [|d k Hk Hd].
    { specialize (Hf (Priority c)). by rewrite filter_nil, filter_cons_True in Hf. }
    assert (Priority c = Priority d) as Heq.
    { apply Z.le_antisymm.
      - assert (c ∈ filter (same_prio (Priority c)) (d :: k)) as Hin.
        { rewrite <- Hf. rewrite filter_cons_True by done. left. }
        apply list_elem_of_filter in Hin as [_ [->|Hin]%elem_of_cons]; [done|].
        rewrite Forall_forall in Hd. by apply (Hd c).
      - assert (d ∈ filter (same_prio (Priority d)) (c :: l)) as Hin.
        { rewrite Hf. rewrite filter_cons_True by done. left. }
        apply list_elem_of_filter in Hin as [_ [->|Hin]%elem_of_cons]; [done|].
        rewrite Forall_forall in Hc. by apply (Hc d). }
    pose proof (Hf (Priority c)) as Hhd.
    rewrite !filter_cons_True in Hhd by done. injection Hhd as -> _.
    f_equal. apply IH; [done|]. intros p. specialize (Hf p). rewrite !filter_cons in Hf.
    case_decide; congruence.
Qed.

(** ** Facts about gathering *)
Lemma hostPriority_cases ip :
  hostPriority ip =
    (if IsPrivate ip then 30 else if IsGlobalUnicast ip then 70 else 50) +
    (if Is6 ip then 10 else 0).
Proof.
  unfold hostPriority. destruct (IsPrivate ip), (IsGlobalUnicast ip), (Is6 ip); reflexivity.
Qed.

Lemma elem_of_HostCandidates ifaddrs port c :
  c ∈ HostCandidates ifaddrs port ->
  exists a, hostCandidate port a = Some c.
Proof.
  destruct ifaddrs as [addrs|e]; cbn; [|by rewrite elem_of_nil].
  intros (a & _ & Ha)%list_elem_of_omap. by exists a.
Qed.

(** ** Properties *)

(** [Sort] is the stable sort by descending priority: its result is the
    one and only list that is descending and lists the candidates of every
    priority in their input order (so it is a permutation of the input). *)
Theorem Sort_spec (cs k : list Candidate) :
  k = Sort cs <->
  StronglySorted prio_ge k /\ k ≡ₚ cs /\
  (forall p, filter (same_prio p) k = filter (same_prio p) cs).
Proof.
  destruct (foldl_ins_spec [] cs) as (Hs & Hp & Hf); [constructor|].
  rewrite Sort_ins. split; [by intros ->|].
  intros (Hk & _ & Hkf). apply stable_sort_unique; [done|done|].
  intros p. by rewrite Hkf, Hf.
Qed.

(** Every host candidate the agent advertises is a routable address (not
    the zero value, loopback, link-local, multicast or unspecified, and never
    an IPv4-mapped IPv6 address) on the requested port, and ranks strictly
    between the srflx candidate (20) and the manual override (100). *)
Theorem HostCandidates_routable ifaddrs port c :
  c ∈ HostCandidates ifaddrs port ->
  let ip := ap_addr (CAddr c) in
  Kind c = "host"%string /\ ap_port (CAddr c) = port /\
  Addr_IsValid ip = true /\ IsLoopback ip = false /\ IsLinkLocalUnicast ip = false /\
  IsMulticast ip = false /\ IsUnspecified ip = false /\ Unmap ip = ip /\
  Priority c = hostPriority ip /\ 20 < Priority c < 100.
Proof.
  intros ([[bs|]|] & Ha)%elem_of_HostCandidates; simplify_eq/=.
  destruct (AddrFromSlice bs) as [ip0|]; simplify_eq/=.
  destruct (_ || _) eqn:E in Ha; simplify_eq/=.
  rewrite !orb_false_iff, negb_false_iff in E. destruct E as ((((?&?)&?)&?)&?).
  repeat split; try done.
  - destruct ip0 as [|v|v z]; try done. unfold Unmap at 2. cbn [Unmap].
    destruct (Is4In6 (Addr6 v z)) eqn:E4; unfold Unmap; [done|by rewrite E4].
  - rewrite hostPriority_cases. repeat case_match; lia.
  - rewrite hostPriority_cases. repeat case_match; lia.
Qed.

Lemma HostCandidates_routable_witness :
  Priority (mkCandidate "host" (mkAddrPort (Addr4 0xc0a80105) 7445) 30) < 100.
Proof.
  exact (proj2 (proj2 (proj2 (proj2 (proj2 (proj2 (proj2 (proj2 (proj2 (proj2
    (HostCandidates_routable
      (Ok [IPNet (Some [127;0;0;1]); OtherAddr; IPNet (Some [192;168;1;5])]) 7445
      (mkCandidate "host" (mkAddrPort (Addr4 0xc0a80105) 7445) 30)
      ltac:(vm_compute; left)))))))))))).
Defined.

(** The ranking rule: a global address beats a private one, IPv6 beats
    IPv4 inside a class, and every value lies in [0, 100]. *)
Theorem hostPriority_ranking a b :
  (IsGlobalUnicast a = true -> IsPrivate a = false -> IsPrivate b = true ->
     hostPriority b < hostPriority a) /\
  (IsPrivate a = IsPrivate b -> IsGlobalUnicast a = IsGlobalUnicast b ->
     Is6 a = true -> Is6 b = false -> hostPriority b < hostPriority a) /\
  0 <= hostPriority a <= 100.
Proof.
  rewrite !hostPriority_cases.
  split_and!; intros; repeat case_match; simplify_eq/=; lia.
Qed.

Lemma hostPriority_ranking_witness :
  hostPriority (Addr4 0x0a000001) < hostPriority (Addr4 0x08080808).
Proof.
  apply (proj1 (hostPriority_ranking (Addr4 0x08080808) (Addr4 0x0a000001)));
    vm_compute; reflexivity.
Defined.

(** The doc comment ranks "everything else" last; the code ranks it above
    private: an address that is neither private nor global unicast (the
    broadcast address is one) beats every private address of either family. *)
Theorem hostPriority_other_beats_private p o :
  IsPrivate p = true -> IsPrivate o = false -> IsGlobalUnicast o = false ->
  hostPriority p < hostPriority o.
Proof. intros. rewrite !hostPriority_cases. repeat case_match; simplify_eq/=; lia. Qed.

Lemma hostPriority_other_beats_private_witness :
  hostPriority (Addr4 0x0a000001) < hostPriority (Addr4 0xffffffff).
Proof. apply hostPriority_other_beats_private; vm_compute; reflexivity. Defined.

(** A server-reflexive candidate is only ever built from a response frame
    that echoes the request id just written, which is never 0 even when the
    64-bit counter wraps; it has kind "srflx", the low priority 20 and a
    16-bit port. *)
Theorem QueryServerReflexive_ok `{Net} ctrl rand sel ctr t c ctr' t' :
  QueryServerReflexive ctrl rand sel (ctr, t) = (Ok c, (ctr', t')) ->
  ctr' = uint64 (ctr + 1) /\
  exists id f resp ip,
    id <> 0 /\
    t' = t ++ [EvWriteFrame ctrl FrameTypeObservedAddrQuery (MObservedAddrQuery id) (Ok tt);
               EvSpawn "candidate: read OBSERVED_ADDR_RESP";
               EvParseFrame ctrl (Ok f)] /\
    f_Type f = FrameTypeObservedAddrResp /\ unmarshal_ObservedAddrResp f = Ok resp /\
    oa_RequestId resp = id /\ ParseAddr (oa_Ip resp) = Some ip /\
    c = mkCandidate "srflx" (mkAddrPort ip (uint16 (oa_Port resp))) 20.
Proof.
  unfold QueryServerReflexive, nextRequestID_Add. cbn.
  set (id := if uint64 (ctr + 1) =? 0 then _ else _).
  assert (id <> 0) as Hid.
  { unfold id. destruct (Z.eqb_spec (uint64 (ctr + 1)) 0) as [_|]; [|done].
    intros Hor%Z.lor_eq_0_iff. lia. }
  unfold mbind. cbn. destruct (net_write_frame _ _ _ _) as [[]|e] eqn:Ew; cbn; [|done].
  destruct sel; cbn; try done. unfold readObserved, mbind, ParseFrame, mret.
  rewrite <- !app_assoc. cbn.
  destruct (net_parse_frame _ _) as [f|e] eqn:Ef; cbn; [|done].
  case_bool_decide as Hty; [|done].
  destruct (unmarshal_ObservedAddrResp f) as [resp|e] eqn:Eu; [|done].
  destruct (Z.eqb_spec (oa_RequestId resp) id) as [Hr|]; [|done].
  destruct (ParseAddr (oa_Ip resp)) as [ip|] eqn:Ep; [|done].
  intros [= <- <- <-]. split; [done|]. exists id, f, resp, ip. done.
Qed.

Definition srflx_net : Net :=
  demo_net (fun _ _ => mkFrame FrameTypeObservedAddrResp [8; 3478; 57; 46; 57; 46; 57; 46; 57]).

Lemma QueryServerReflexive_ok_witness :
  exists id f resp ip,
    id <> 0 /\ f_Type f = FrameTypeObservedAddrResp /\
    @unmarshal_ObservedAddrResp srflx_net f = Ok resp /\ oa_RequestId resp = id /\
    ip = Addr4 0x09090909.
Proof.
  destruct (@QueryServerReflexive_ok srflx_net (mkStream 0) 5 SelDone 7 []
              (mkCandidate "srflx" (mkAddrPort (Addr4 0x09090909) 3478) 20) 8 _ eq_refl)
    as (_ & id & f & resp & ip & Hid & _ & Hty & Hu & Hr & Hp & Hc).
  exists id, f, resp, ip. repeat split; try done. congruence.
Defined.
