(* ===== verification/Resume.v ===== *)
(** * The interface of [lib/resume]

    The per-stream resume state is a library the agent only calls.  Its
    operations are a class; [ResumeSpec] states the documented behaviour the
    agent relies on: byte counters, a ring buffer that can hand back the bytes
    from a position on while they have not been evicted, and [ErrBeforeRing]
    when they have.  The agent's theorems are proved against the interface;
    [Ring] below is an instance that shows the laws can hold. *)

From S2P Require Import Prelude Orp.

Class ResumeLib : Type := {
  State : Type;
  NewState : Z -> Z -> State;               (* id, ring capacity *)
  ID : State -> Z;
  OnRead : Z -> State -> State;
  OnWrite : list byte -> State -> State;
  Sent : State -> Z;
  Received : State -> Z;
  ResumePayload : State -> Z * Z;           (* my position, peer ack *)
  RetransmitFrom : State -> Z -> result (list byte);
  OnCheckpointFromPeer : Z -> State -> State
}.

(** [written s] is everything handed to [OnWrite], oldest byte first, and
    [ring_tail s] the oldest position the ring still holds. *)
Class ResumeSpec (L : ResumeLib) : Type := {
  written : State -> list byte;
  ring_tail : State -> Z;

  new_written id cap : written (NewState id cap) = [];
  new_received id cap : Received (NewState id cap) = 0;
  new_tail id cap : ring_tail (NewState id cap) = 0;
  new_id id cap : ID (NewState id cap) = id;

  onread_written n s : written (OnRead n s) = written s;
  onread_received n s : Received (OnRead n s) = Received s + n;
  onread_tail n s : ring_tail (OnRead n s) = ring_tail s;
  onread_id n s : ID (OnRead n s) = ID s;

  onwrite_written p s : written (OnWrite p s) = written s ++ p;
  onwrite_received p s : Received (OnWrite p s) = Received s;
  onwrite_id p s : ID (OnWrite p s) = ID s;

  checkpoint_written a s : written (OnCheckpointFromPeer a s) = written s;
  checkpoint_received a s : Received (OnCheckpointFromPeer a s) = Received s;
  checkpoint_tail a s :
    ring_tail (OnCheckpointFromPeer a s) <= Z.max (ring_tail s) a;
  checkpoint_id a s : ID (OnCheckpointFromPeer a s) = ID s;

  sent_written s : Sent s = Z.of_nat (length (written s));
  payload_spec s : ResumePayload s = (Sent s, Received s);
  retransmit_ok s pos :
    ring_tail s <= pos <= Sent s -> 0 <= pos ->
    RetransmitFrom s pos = Ok (drop (Z.to_nat pos) (written s));
  retransmit_before s pos :
    pos < ring_tail s -> RetransmitFrom s pos = Err (Sentinel BeforeRing)
}.

(** Rewrite the observations of a state after an update. *)
Ltac rw_resume :=
  rewrite ?new_written, ?new_received, ?new_tail, ?new_id,
    ?onread_written, ?onread_received, ?onread_tail, ?onread_id,
    ?onwrite_written, ?onwrite_received, ?onwrite_id,
    ?checkpoint_written, ?checkpoint_received, ?checkpoint_id, ?payload_spec.

(** ** A ring that satisfies the interface *)
Module Ring.

Record state : Type := mkState {
  rid : Z;
  rcap : Z;
  rdata : list byte;
  rtail : Z;
  rrecv : Z
}.

Definition new (id cap : Z) : state :=
  mkState id (if cap <=? 0 then 262144 else cap) [] 0 0.

Definition on_read (n : Z) (s : state) : state :=
  mkState (rid s) (rcap s) (rdata s) (rtail s) (rrecv s + n).

Definition on_write (p : list byte) (s : state) : state :=
  let data := rdata s ++ p in
  mkState (rid s) (rcap s) data
    (Z.max (rtail s) (Z.of_nat (length data) - rcap s)) (rrecv s).

Definition on_checkpoint (a : Z) (s : state) : state :=
  mkState (rid s) (rcap s) (rdata s)
    (Z.max (rtail s) (Z.min a (Z.of_nat (length (rdata s))))) (rrecv s).

Definition retransmit (s : state) (pos : Z) : result (list byte) :=
  if pos <? rtail s then Err (Sentinel BeforeRing)
  else if Z.of_nat (length (rdata s)) <? pos then Err (External 2)
  else Ok (drop (Z.to_nat pos) (rdata s)).

#[export] Instance lib : ResumeLib := {|
  State := state;
  NewState := new;
  ID := rid;
  OnRead := on_read;
  OnWrite := on_write;
  Sent s := Z.of_nat (length (rdata s));
  Received := rrecv;
  ResumePayload s := (Z.of_nat (length (rdata s)), rrecv s);
  RetransmitFrom := retransmit;
  OnCheckpointFromPeer := on_checkpoint
|}.

#[export] Instance spec : ResumeSpec lib.
Proof.
  unshelve econstructor; [exact rdata|exact rtail|..]; try done.
  - intros a s. cbn. lia.
  - intros s pos [Hlo Hhi] Hpos. cbn in *. unfold retransmit.
    destruct (Z.ltb_spec pos (rtail s)); [lia|].
    destruct (Z.ltb_spec (Z.of_nat (length (rdata s))) pos); [lia|done].
  - intros s pos Hlt. cbn in *. unfold retransmit.
    destruct (Z.ltb_spec pos (rtail s)); [done|lia].
Defined.

End Ring.
