(* ===== verification/Stream.v ===== *)
(** * [ResumableStream]: reads and writes that survive a transport swap

    The wrapper of [pkg/session/session.go] around a transport stream.  Its
    shared fields can change between any two steps of a [Read] or [Write],
    because [SwapInner], [Close] and [forgetStream] run in other goroutines;
    so each round of the loops takes its snapshot of the fields from the
    environment.  [StreamSwap] proves what those other goroutines do to the
    fields. *)

From S2P Require Import Prelude Orp Resume.

Local Open Scope agent_scope.

(** [ResumeRetryWindow], in nanoseconds. *)
Definition ResumeRetryWindow : Z := 30 * 1000000000.

(** ** What one call observes *)
Inductive ioevent : Type :=
  | IoSnapshot (inner : option stream)  (* [None]: abandoned *)
  | IoRead (st : stream) (data : list byte) (e : option error)
  | IoWrite (st : stream) (p : list byte) (n : Z) (e : option error)
  | IoWait (now : Z) (woken : bool).    (* the select of [waitForResume] *)

Abbreviation iotrace := (list ioevent).

Class StreamEnv : Type := {
  io_now : iotrace -> Z;
  io_snapshot : iotrace -> option stream;
  io_read : iotrace -> stream -> Z -> list byte * option error;
  io_write : iotrace -> stream -> list byte -> Z * option error;
  io_woken : iotrace -> bool
}.

(** The [io.Writer] contract, which every [transport.Stream] satisfies. *)
Definition WriterContract (E : StreamEnv) : Prop :=
  forall t st p, 0 <= fst (io_write t st p) <= Z.of_nat (length p).

(** The [io.Reader] contract. *)
Definition ReaderContract (E : StreamEnv) : Prop :=
  forall t st max, 0 <= max -> Z.of_nat (length (fst (io_read t st max))) <= max.

Section Stream.
Context `{L : ResumeLib} `{E : StreamEnv}.

Definition Io (A : Type) : Type := M (State * iotrace) A.

Definition snapshot : Io (option stream) :=
  fun '(s, t) => let o := io_snapshot t in (o, (s, t ++ [IoSnapshot o])).

Definition inner_Read (st : stream) (max : Z) : Io (list byte * option error) :=
  fun '(s, t) => let '(d, e) := io_read t st max in ((d, e), (s, t ++ [IoRead st d e])).

Definition inner_Write (st : stream) (p : list byte) : Io (Z * option error) :=
  fun '(s, t) => let '(n, e) := io_write t st p in ((n, e), (s, t ++ [IoWrite st p n e])).

Definition now : Io Z := fun '(s, t) => (io_now t, (s, t)).

Definition update (f : State -> State) : Io unit := fun '(s, t) => (tt, (f s, t)).

(** [true] when woken by a signal, [false] at the deadline. *)
Definition waitForResume (deadline : Z) : Io bool :=
  fun '(s, t) =>
    let remaining := deadline - io_now t in
    if remaining <=? 0 then (false, (s, t))
    else let b := io_woken t in (b, (s, t ++ [IoWait (io_now t) b])).

(** [Read(p)] with [len(p) = max]; [None] when the fuel is used up.  The result
    is the data, whose length is Go's [n], and the error. *)
Fixpoint read_loop (fuel : nat) (max deadline : Z) : Io (option (list byte * option error)) :=
  match fuel with
  | O => mret None
  | S fuel' =>
      do snap <- snapshot ;;
      match snap with
      | None => mret (Some ([], Some (Sentinel StreamLost)))
      | Some inner =>
          do r <- inner_Read inner max ;;
          let '(data, err) := r in
          if (0 <? length data)%nat then
            do_ update (OnRead (Z.of_nat (length data))) ;;
            mret (Some (data, err))
          else
            match err with
            | None => mret (Some ([], None))
            | Some e =>
                if errors_Is e EOF then mret (Some ([], Some e))
                else
                  do woken <- waitForResume deadline ;;
                  if woken : bool then read_loop fuel' max deadline
                  else mret (Some ([], Some e))
            end
      end
  end.

Definition Read (fuel : nat) (max : Z) : Io (option (list byte * option error)) :=
  do start <- now ;; read_loop fuel max (start + ResumeRetryWindow).

(** [Write(p)]; [written] counts the bytes accepted so far. *)
Fixpoint write_loop (fuel : nat) (p : list byte) (deadline : Z) (written : Z)
    : Io (option (Z * option error)) :=
  match fuel with
  | O => mret None
  | S fuel' =>
      if written <? Z.of_nat (length p) then
        do snap <- snapshot ;;
        match snap with
        | None => mret (Some (written, Some (Sentinel StreamLost)))
        | Some inner =>
            let rest := drop (Z.to_nat written) p in
            do r <- inner_Write inner rest ;;
            let '(n, err) := r in
            do_ (if 0 <? n then update (OnWrite (take (Z.to_nat n) rest)) else mret tt) ;;
            let written := if 0 <? n then written + n else written in
            if written =? Z.of_nat (length p) then mret (Some (written, None))
            else
              match err with
              | None => write_loop fuel' p deadline written
              | Some e =>
                  if errors_Is e EOF then mret (Some (written, Some e))
                  else
                    do woken <- waitForResume deadline ;;
                    if woken : bool then write_loop fuel' p deadline written
                    else mret (Some (written, Some e))
              end
        end
      else mret (Some (written, None))
  end.

Definition Write (fuel : nat) (p : list byte) : Io (option (Z * option error)) :=
  do start <- now ;; write_loop fuel p (start + ResumeRetryWindow) 0.

End Stream.

(** ** Reading a trace *)

(** The bytes the inner streams took, in order. *)
Definition io_accepted (e : ioevent) : list byte :=
  match e with IoWrite _ p n _ => take (Z.to_nat n) p | _ => [] end.
Definition accepted (t : iotrace) : list byte := t ≫= io_accepted.

(** The bytes the inner streams delivered, in order. *)
Definition io_delivered (e : ioevent) : list byte :=
  match e with IoRead _ d _ => d | _ => [] end.
Definition delivered (t : iotrace) : list byte := t ≫= io_delivered.

Definition waits_before (deadline : Z) (t : iotrace) : Prop :=
  Forall (fun e => match e with IoWait now _ => now < deadline | _ => True end) t.

Definition is_wakeup (e : ioevent) : bool :=
  match e with IoWait _ b => b | _ => false end.
Definition woken_count (t : iotrace) : nat := length (filter (fun e => is_wakeup e = true) t).

(** ** Facts *)
Section StreamFacts.
Context `{L : ResumeLib} {Sp : ResumeSpec L} `{E : StreamEnv}.

Lemma accepted_app t1 t2 : accepted (t1 ++ t2) = accepted t1 ++ accepted t2.
Proof. apply bind_app. Qed.

Lemma delivered_app t1 t2 : delivered (t1 ++ t2) = delivered t1 ++ delivered t2.
Proof. apply bind_app. Qed.

(** What a suspended [waitForResume] does to trace and state. *)
Lemma waitForResume_run deadline s t b s' t' :
  waitForResume deadline (s, t) = (b, (s', t')) ->
  s' = s /\ exists w, t' = t ++ w /\ accepted w = [] /\ delivered w = [] /\
    waits_before deadline w /\ (b = true -> w = [IoWait (io_now t) true] /\ io_woken t = true).
Proof.
  unfold waitForResume. destruct (Z.leb_spec (deadline - io_now t) 0) as [Hle|Hgt];
    intros [= <- <- <-]; split; try done.
  - exists []. rewrite app_nil_r. repeat split; try done. constructor.
  - eexists. repeat split; [by repeat constructor; lia|by rewrite H|done].
Qed.

(** What the write loop guarantees when it starts with [w] bytes already
    accepted and returns [(n, e)]. *)
Definition write_post (p : list byte) (deadline w : Z) (s : State) (t : iotrace)
    (n : Z) (e : option error) (s' : State) (t' : iotrace) : Prop :=
  w <= n <= Z.of_nat (length p) /\
  written s' = written s ++ take (Z.to_nat (n - w)) (drop (Z.to_nat w) p) /\
  Received s' = Received s /\ ID s' = ID s /\
  (e = None <-> n = Z.of_nat (length p)) /\
  exists t1, t' = t ++ t1 /\
    accepted t1 = take (Z.to_nat (n - w)) (drop (Z.to_nat w) p) /\
    waits_before deadline t1.

Lemma write_post_stop p deadline w s t e t1 :
  0 <= w <= Z.of_nat (length p) -> (e = None <-> w = Z.of_nat (length p)) ->
  accepted t1 = [] -> waits_before deadline t1 ->
  write_post p deadline w s t w e s (t ++ t1).
Proof.
  intros Hw He Ha Hb. unfold write_post. rewrite Z.sub_diag, take_0, app_nil_r.
  repeat split; try tauto; try lia. by exists t1.
Qed.

(** Accepting [k] more bytes and going on. *)
Lemma write_post_step p deadline w k s t t1 n e s' t' :
  0 <= w -> 0 <= k -> w + k <= Z.of_nat (length p) ->
  let chunk := take (Z.to_nat k) (drop (Z.to_nat w) p) in
  accepted t1 = chunk -> waits_before deadline t1 ->
  write_post p deadline (w + k) (if 0 <? k then OnWrite chunk s else s) (t ++ t1) n e s' t' ->
  write_post p deadline w s t n e s' t'.
Proof.
  intros Hw Hk Hle chunk Ha Hb (Hn & Hwr & Hr & Hi & He & t2 & -> & Ha2 & Hb2).
  assert (take (Z.to_nat (n - w)) (drop (Z.to_nat w) p) =
          chunk ++ take (Z.to_nat (n - (w + k))) (drop (Z.to_nat (w + k)) p)) as Hsplit.
  { unfold chunk. replace (Z.to_nat (w + k)) with (Z.to_nat w + Z.to_nat k)%nat by lia.
    rewrite <- drop_drop, take_take_drop. f_equal. lia. }
  assert (written (if 0 <? k then OnWrite chunk s else s) = written s ++ chunk /\
          Received (if 0 <? k then OnWrite chunk s else s) = Received s /\
          ID (if 0 <? k then OnWrite chunk s else s) = ID s) as (Ew & Er & Ei).
  { destruct (Z.ltb_spec 0 k); rw_resume; [done|].
    unfold chunk. replace (Z.to_nat k) with 0%nat by lia. by rewrite take_0, app_nil_r. }
  unfold write_post. rewrite Hsplit. split; [lia|].
  rewrite Hwr, Hr, Hi, Ew, Er, Ei, <- app_assoc. repeat split; try tauto.
  exists (t1 ++ t2). rewrite accepted_app, Ha, Ha2, <- app_assoc. repeat split.
  by apply Forall_app.
Qed.

Lemma update_if (b : bool) (f : State -> State) (s : State) (t : iotrace) :
  (if b then update f else mret tt) (s, t) = (tt, (if b then f s else s, t)).
Proof. by destruct b. Qed.

#[local] Ltac wstop :=
  apply write_post_stop; [lia|split; intros; (done || lia)|done|by repeat constructor].

Lemma write_loop_spec (HW : WriterContract E) fuel p deadline w s t n e s' t' :
  0 <= w <= Z.of_nat (length p) ->
  write_loop fuel p deadline w (s, t) = (Some (n, e), (s', t')) ->
  write_post p deadline w s t n e s' t'.
Proof.
  revert w s t. induction fuel as [|fuel IH]; intros w s t Hw; [done|]. cbn.
  destruct (Z.ltb_spec w (Z.of_nat (length p))) as [Hlt|Hge].
  2:{ intros [= <- <- <- <-]. rewrite <- (app_nil_r t) at 2. wstop. }
  unfold mbind, snapshot. destruct (io_snapshot t) as [inner|]; cbn.
  2:{ intros [= <- <- <- <-]. wstop. }
  unfold inner_Write. set (rest := drop (Z.to_nat w) p).
  set (t0 := t ++ [IoSnapshot (Some inner)]).
  pose proof (HW t0 inner rest) as Hk. destruct (io_write t0 inner rest) as [k err]. cbn in Hk.
  set (t1 := t0 ++ _). set (chunk := take (Z.to_nat k) rest).
  assert (length rest = (length p - Z.to_nat w)%nat) as Hlen by apply length_drop.
  set (s1 := if 0 <? k then OnWrite chunk s else s).
  assert (forall n e s' t', write_post p deadline (w + k) s1 t1 n e s' t' ->
                            write_post p deadline w s t n e s' t') as Hstep.
  { intros n' e' s'' t''. subst t1 t0. rewrite <- app_assoc. cbn [app].
    apply write_post_step; try lia; [cbn; by rewrite app_nil_r|by repeat constructor]. }
  rewrite update_if. fold chunk s1.
  replace (if 0 <? k then w + k else w) with (w + k) by (destruct (Z.ltb_spec 0 k); lia).
  destruct (Z.eqb_spec (w + k) (Z.of_nat (length p))) as [Heq|Hne].
  { intros [= <- <- <- <-]. apply Hstep. rewrite <- (app_nil_r t1) at 2. wstop. }
  destruct err as [err|]; [|intros Hrun; apply Hstep, IH; [lia|done]].
  destruct (errors_Is err EOF).
  { intros [= <- <- <- <-]. apply Hstep. rewrite <- (app_nil_r t1) at 2. wstop. }
  destruct (waitForResume deadline (s1, t1)) as [b [s2 t2]] eqn:Ew.
  apply waitForResume_run in Ew as (-> & wt & -> & Ha & _ & Hb & _).
  destruct b; intros Hrun; apply Hstep.
  - apply (write_post_step p deadline (w + k) 0 s1 t1 wt); try done; try lia.
    rewrite Z.add_0_r. apply IH; [lia|done].
  - injection Hrun as <- <- <- <-. apply write_post_stop; [lia|split; intros; (done || lia)|done|done].
Qed.
(** The read loop: what it returns is exactly what the last inner stream
    delivered, and only that is counted. *)
Definition read_post (deadline : Z) (s : State) (t : iotrace)
    (data : list byte) (e : option error) (s' : State) (t' : iotrace) : Prop :=
  written s' = written s /\ ID s' = ID s /\
  Received s' = Received s + Z.of_nat (length data) /\
  exists t1, t' = t ++ t1 /\ delivered t1 = data /\ waits_before deadline t1.

Lemma read_post_stop deadline s t e t1 :
  delivered t1 = [] -> waits_before deadline t1 ->
  read_post deadline s t [] e s (t ++ t1).
Proof. intros Hd Hb. split_and!; [done|done|cbn; lia|]. by exists t1. Qed.

Lemma read_post_step deadline s t t1 data e s' t' :
  delivered t1 = [] -> waits_before deadline t1 ->
  read_post deadline s (t ++ t1) data e s' t' -> read_post deadline s t data e s' t'.
Proof.
  intros Hd Hb (Hw & Hi & Hr & t2 & -> & Hd2 & Hb2). split_and!; try done.
  exists (t1 ++ t2). rewrite delivered_app, Hd, Hd2, <- app_assoc.
  split_and!; try done. by apply Forall_app.
Qed.

Lemma read_loop_spec fuel max deadline s t data e s' t' :
  read_loop fuel max deadline (s, t) = (Some (data, e), (s', t')) ->
  read_post deadline s t data e s' t'.
Proof.
  revert s t. induction fuel as [|fuel IH]; intros s t; [done|]. cbn.
  unfold mbind, snapshot. destruct (io_snapshot t) as [inner|]; cbn.
  2:{ intros [= <- <- <- <-]. apply read_post_stop; by repeat constructor. }
  unfold inner_Read. set (t0 := t ++ [IoSnapshot (Some inner)]).
  destruct (io_read t0 inner max) as [d err]. set (t1 := t0 ++ _).
  assert (t1 = t ++ [IoSnapshot (Some inner); IoRead inner d err]) as Ht1
    by (unfold t1, t0; by rewrite <- app_assoc).
  destruct d as [|b d]; cbn.
  2:{ intros [= <- <- <- <-]. split_and!; rw_resume; try done.
      eexists. split; [exact Ht1|]. split; [cbn; by rewrite app_nil_r|by repeat constructor]. }
  assert (delivered [IoSnapshot (Some inner); IoRead inner [] err] = []) as Hdel by done.
  destruct err as [err|].
  2:{ intros [= <- <- <- <-]. rewrite Ht1. apply read_post_stop; by repeat constructor. }
  destruct (errors_Is err EOF).
  { intros [= <- <- <- <-]. rewrite Ht1. apply read_post_stop; by repeat constructor. }
  destruct (waitForResume deadline (s, t1)) as [b [s2 t2]] eqn:Ew.
  apply waitForResume_run in Ew as (-> & wt & -> & _ & Hdw & Hb & _).
  rewrite Ht1. destruct b; intros Hrun;
    apply (read_post_step _ _ _ [IoSnapshot (Some inner); IoRead inner [] (Some err)]);
    try done; try by repeat constructor.
  - apply (read_post_step _ _ _ wt); try done. by apply IH.
  - injection Hrun as <- <- <- <-. by apply read_post_stop.
Qed.

(** *** Termination

    [Write] goes round again only after accepting bytes or after a wake-up, so
    a bound on the wake-ups bounds the rounds. *)
Lemma woken_count_app t1 t2 : woken_count (t1 ++ t2) = (woken_count t1 + woken_count t2)%nat.
Proof. unfold woken_count. by rewrite filter_app, length_app. Qed.

Lemma woken_count_snoc t e :
  woken_count (t ++ [e]) = (woken_count t + if is_wakeup e then 1 else 0)%nat.
Proof. rewrite woken_count_app. by destruct e as [| | |? []]. Qed.

Definition WritesProgress : Prop :=
  forall t st p n, p <> [] -> io_write t st p = (n, None) -> 0 < n.

Definition WakeupsBounded (K : nat) : Prop :=
  forall t, io_woken t = true -> (woken_count t < K)%nat.

Lemma write_loop_total K (HW : WriterContract E) (HP : WritesProgress) (HK : WakeupsBounded K)
    fuel p deadline w s t :
  0 <= w <= Z.of_nat (length p) ->
  (length p - Z.to_nat w + (K - woken_count t) < fuel)%nat ->
  exists r, fst (write_loop fuel p deadline w (s, t)) = Some r.
Proof.
  revert w s t. induction fuel as [|fuel IH]; intros w s t Hw Hf; [lia|]. cbn.
  destruct (Z.ltb_spec w (Z.of_nat (length p))) as [Hlt|Hge]; [|by eexists].
  unfold mbind, snapshot. destruct (io_snapshot t) as [inner|]; cbn; [|by eexists].
  unfold inner_Write. set (rest := drop (Z.to_nat w) p).
  set (t0 := t ++ [IoSnapshot (Some inner)]).
  assert (length rest = (length p - Z.to_nat w)%nat) as Hlen by apply length_drop.
  assert (rest <> []) as Hne by (intros Hnil; rewrite Hnil in Hlen; cbn in Hlen; lia).
  pose proof (HW t0 inner rest) as Hk. pose proof (HP t0 inner rest) as Hp.
  destruct (io_write t0 inner rest) as [k err]. cbn in Hk. rewrite update_if.
  replace (if 0 <? k then w + k else w) with (w + k) by (destruct (Z.ltb_spec 0 k); lia).
  destruct (Z.eqb_spec (w + k) (Z.of_nat (length p))) as [Heq|Hneq]; [by eexists|].
  set (t1 := t0 ++ _). assert (woken_count t1 = woken_count t) as Hc.
  { unfold t1, t0. rewrite !woken_count_snoc. cbn. lia. }
  destruct err as [err|].
  2:{ apply IH; [lia|]. specialize (Hp k Hne eq_refl). lia. }
  destruct (errors_Is err EOF); [by eexists|].
  match goal with |- context [waitForResume deadline ?st] =>
    destruct (waitForResume deadline st) as [b [s2 t2]] eqn:Ew end.
  apply waitForResume_run in Ew as (-> & wt & -> & _ & _ & _ & Hwk).
  destruct b; [|by eexists]. destruct (Hwk eq_refl) as [-> Hio].
  apply IH; [lia|]. rewrite woken_count_snoc. pose proof (HK t1 Hio). cbn. lia.
Qed.

(** [Read] goes round again only after a wake-up. *)
Lemma read_loop_total K (HK : WakeupsBounded K) fuel max deadline s t :
  (K - woken_count t < fuel)%nat -> exists r, fst (read_loop fuel max deadline (s, t)) = Some r.
Proof.
  revert s t. induction fuel as [|fuel IH]; intros s t Hf; [lia|]. cbn.
  unfold mbind, snapshot. destruct (io_snapshot t) as [inner|]; cbn; [|by eexists].
  unfold inner_Read. set (t0 := t ++ [IoSnapshot (Some inner)]).
  destruct (io_read t0 inner max) as [data err]. destruct data as [|x data]; [cbn|by eexists].
  set (t1 := t0 ++ _). assert (woken_count t1 = woken_count t) as Hc.
  { unfold t1, t0. rewrite !woken_count_snoc. cbn. lia. }
  destruct err as [err|]; [|by eexists]. destruct (errors_Is err EOF); [by eexists|].
  destruct (waitForResume deadline (s, t1)) as [b [s2 t2]] eqn:Ew.
  apply waitForResume_run in Ew as (-> & wt & -> & _ & _ & _ & Hwk).
  destruct b; [|by eexists]. destruct (Hwk eq_refl) as [-> Hio].
  apply IH. rewrite woken_count_snoc. pose proof (HK t1 Hio). cbn. lia.
Qed.
End StreamFacts.

(** ** Properties *)

(** C13. [Write] meets the [io.Writer] contract across any number of transport
    swaps: it returns [n <= len(p)], a nil error exactly when all of [p] was
    taken, the resume state records exactly the first [n] bytes, and the inner
    streams together received exactly those bytes, each once and in order.  It
    never parks past the 30 s window. *)
Theorem Write_accounting `{Sp : ResumeSpec} `{E : StreamEnv} (HW : WriterContract E)
    fuel p s t n e s' t' :
  Write fuel p (s, t) = (Some (n, e), (s', t')) ->
  0 <= n <= Z.of_nat (length p) /\
  (e = None <-> n = Z.of_nat (length p)) /\
  written s' = written s ++ take (Z.to_nat n) p /\
  Sent s' = Sent s + n /\ Received s' = Received s /\ ID s' = ID s /\
  exists t1, t' = t ++ t1 /\ accepted t1 = take (Z.to_nat n) p /\
    waits_before (io_now t + ResumeRetryWindow) t1.
Proof.
  intros Hrun. apply write_loop_spec in Hrun; [|done|lia].
  destruct Hrun as (Hn & Hw & Hr & Hi & He & t1 & -> & Ha & Hb).
  rewrite Z.sub_0_r, drop_0 in *. rewrite !sent_written, Hw, length_app, length_take.
  split_and!; try done; try lia. by exists t1.
Qed.

(** C14. [Read] returns exactly the bytes one inner stream delivered and advances
    the received counter by exactly their number, whatever errors and swaps
    came before; it never touches what was sent and never parks past the 30 s
    window. *)
Theorem Read_accounting `{Sp : ResumeSpec} `{E : StreamEnv} fuel max s t data e s' t' :
  Read fuel max (s, t) = (Some (data, e), (s', t')) ->
  Received s' = Received s + Z.of_nat (length data) /\
  written s' = written s /\ ID s' = ID s /\
  exists t1, t' = t ++ t1 /\ delivered t1 = data /\
    waits_before (io_now t + ResumeRetryWindow) t1.
Proof.
  intros Hrun. apply read_loop_spec in Hrun as (Hw & Hi & Hr & Ht). by split_and!.
Qed.

(** C15. [Read] and [Write] return: if the stream is woken at most [K] times,
    [K + 1] rounds are enough for [Read]; if moreover inner writes without an
    error make progress, [len(p) + K + 1] rounds are enough for [Write]. *)
Theorem io_returns `{Sp : ResumeSpec} `{E : StreamEnv} K
    (HW : WriterContract E) (HP : WritesProgress) (HK : WakeupsBounded K) p max s t :
  (exists data e, fst (Read (K + 1) max (s, t)) = Some (data, e)) /\
  (exists n e, fst (Write (length p + K + 1) p (s, t)) = Some (n, e)).
Proof.
  split.
  - destruct (read_loop_total K HK (K + 1) max (io_now t + ResumeRetryWindow) s t)
      as [[d e] Hr]; [lia|]. by exists d, e.
  - destruct (write_loop_total K HW HP HK (length p + K + 1) p
                (io_now t + ResumeRetryWindow) 0 s t) as [[n e] Hr]; [lia|lia|].
    by exists n, e.
Qed.

(** ** A run across a swap

    The first transport takes two bytes and dies, the call parks, is woken by
    a swap, and the second transport takes the rest. *)
Definition demo_env : StreamEnv := {|
  io_now t := Z.of_nat (length t);
  io_snapshot t := Some (mkStream (woken_count t));
  io_read t st max :=
    if decide (stream_id st = 0%nat) then ([], Some (External 9))
    else (take (Z.to_nat max) [7; 8; 9], None);
  io_write t st p :=
    if decide (stream_id st = 0%nat)
    then (Z.min 2 (Z.of_nat (length p)), Some (External 9))
    else (Z.of_nat (length p), None);
  io_woken t := (woken_count t <? 1)%nat
|}.

Lemma demo_writer : WriterContract demo_env.
Proof. intros t st p. cbn. case_decide; cbn; lia. Qed.

Lemma demo_progress : @WritesProgress demo_env.
Proof.
  intros t st p n Hp. cbn. case_decide; [done|]. intros [= <-].
  destruct p; [done|]. cbn. lia.
Qed.

Lemma demo_wakeups : @WakeupsBounded demo_env 1.
Proof. intros t Ht. apply Nat.ltb_lt, Ht. Qed.

Lemma Write_accounting_witness :
  let s := @NewState Ring.lib 7 0 in
  exists s', @written _ Ring.spec s' = [1; 2; 3; 4; 5] /\ @Sent Ring.lib s' = 5.
Proof.
  destruct (@Write Ring.lib demo_env 7 [1; 2; 3; 4; 5] (@NewState Ring.lib 7 0, []))
    as [o [s' t']] eqn:Hrun.
  vm_compute in Hrun. injection Hrun as <- <- <-.
  eexists. split; [|exact (proj1 (proj2 (proj2 (proj2
    (Write_accounting (E := demo_env) (Sp := Ring.spec) demo_writer 7 [1; 2; 3; 4; 5]
       (@NewState Ring.lib 7 0) [] 5 None _ _ eq_refl)))))].
  reflexivity.
Defined.

Lemma Read_accounting_witness :
  exists s', @Received Ring.lib s' = 3.
Proof.
  eexists. exact (proj1 (Read_accounting (E := demo_env) (Sp := Ring.spec) 3 16
    (@NewState Ring.lib 7 0) [] [7; 8; 9] None _ _ eq_refl)).
Defined.

Lemma io_returns_witness :
  (exists data e, fst (@Read Ring.lib demo_env 2 16 (@NewState Ring.lib 7 0, [])) = Some (data, e)) /\
  (exists n e, fst (@Write Ring.lib demo_env 7 [1; 2; 3; 4; 5] (@NewState Ring.lib 7 0, []))
               = Some (n, e)).
Proof.
  exact (io_returns (E := demo_env) (Sp := Ring.spec) 1
    demo_writer demo_progress demo_wakeups [1; 2; 3; 4; 5] 16 (@NewState Ring.lib 7 0) []).
Defined.
