(* ===== verification/StreamSwap.v ===== *)
(** * The wake-up protocol of [ResumableStream]

    [SwapInner], [markAbandoned] and any number of parked [Read]/[Write] calls
    share [inner], [resumeReady] and [abandoned] under [mu].  The critical
    sections are functions on those fields and on the channels; the step
    relation interleaves them, with [SwapInner] split where it releases the
    lock: it closes the old generation's channel and cancels the old stream
    outside of it.  [close] of a closed channel panics. *)

From stdpp Require Import relations.
From S2P Require Import Prelude Orp.

(** ** Channels used as close-once signals *)
Record chans : Type := mkChans { ch_next : nat; ch_closed : gset nat }.

Definition make_chan (h : chans) : nat * chans :=
  (ch_next h, mkChans (S (ch_next h)) (ch_closed h)).

(** [None] is the run-time panic "close of closed channel". *)
Definition close_chan (c : nat) (h : chans) : option chans :=
  if decide (c ∈ ch_closed h) then None
  else Some (mkChans (ch_next h) ({[c]} ∪ ch_closed h)).

(** ** The fields under [mu] *)
Record guarded : Type := mkGuarded {
  g_inner : stream;
  g_resumeReady : option nat;  (* [None] is the nil channel *)
  g_abandoned : bool
}.

(** The wrapper [wrapStream] builds. *)
Definition new_guarded (inner : stream) (h : chans) : guarded * chans :=
  let '(c, h') := make_chan h in (mkGuarded inner (Some c) false, h').

(** [markAbandoned]: one critical section. *)
Definition markAbandoned (g : guarded) (h : chans) : option (guarded * chans) :=
  if g_abandoned g then Some (g, h)
  else
    match g_resumeReady g with
    | Some c =>
        h' ← close_chan c h;
        Some (mkGuarded (g_inner g) None true, h')
    | None => Some (mkGuarded (g_inner g) None true, h)
    end.

(** The critical section of [SwapInner]: the old stream and channel go to the
    unlocked tail. *)
Definition swap_section (s : stream) (g : guarded) (h : chans)
    : (stream * option nat) * (guarded * chans) :=
  let '(c, h') := make_chan h in
  ((g_inner g, g_resumeReady g), (mkGuarded s (Some c) (g_abandoned g), h')).

Definition close_ready (oldReady : option nat) (h : chans) : option chans :=
  match oldReady with Some c => close_chan c h | None => Some h end.

(** [SwapInner] run without interruption; the result also names the stream
    whose reads are cancelled. *)
Definition SwapInner (s : stream) (g : guarded) (h : chans)
    : option (stream * guarded * chans) :=
  let '((old, oldReady), (g', h')) := swap_section s g h in
  h'' ← close_ready oldReady h';
  Some (old, g', h'').

(** ** Interleavings *)
Inductive pc : Type :=
  | Enter                                       (* top of a Read/Write round *)
  | InInner (inner : stream) (ready : option nat)
  | Parked (ready : option nat)                 (* in waitForResume *)
  | Returned
  | SwapClose (oldReady : option nat) (old : stream)  (* SwapInner after unlock *)
  | SwapCancel (old : stream).

Record config : Type := mkConfig {
  c_g : guarded;
  c_h : chans;
  c_threads : gmap nat pc;
  c_panic : bool
}.

Definition set_thread (i : nat) (p : pc) (c : config) : config :=
  mkConfig (c_g c) (c_h c) (<[i := p]> (c_threads c)) (c_panic c).

Inductive step : config -> config -> Prop :=
  | step_call c i :
      (* a goroutine calls Read or Write *)
      c_threads c !! i = None -> step c (set_thread i Enter c)
  | step_lost c i :
      c_threads c !! i = Some Enter -> g_abandoned (c_g c) = true ->
      step c (set_thread i Returned c)
  | step_snapshot c i :
      c_threads c !! i = Some Enter -> g_abandoned (c_g c) = false ->
      step c (set_thread i (InInner (g_inner (c_g c)) (g_resumeReady (c_g c))) c)
  | step_inner_done c i inner ready :
      (* data, EOF or a nil error *)
      c_threads c !! i = Some (InInner inner ready) -> step c (set_thread i Returned c)
  | step_inner_error c i inner ready :
      c_threads c !! i = Some (InInner inner ready) -> step c (set_thread i (Parked ready) c)
  | step_woken c i ch :
      c_threads c !! i = Some (Parked (Some ch)) -> ch ∈ ch_closed (c_h c) ->
      step c (set_thread i Enter c)
  | step_timeout c i ready :
      c_threads c !! i = Some (Parked ready) -> step c (set_thread i Returned c)
  | step_abandon c g h :
      markAbandoned (c_g c) (c_h c) = Some (g, h) ->
      step c (mkConfig g h (c_threads c) (c_panic c))
  | step_abandon_panic c :
      markAbandoned (c_g c) (c_h c) = None ->
      step c (mkConfig (c_g c) (c_h c) (c_threads c) true)
  | step_swap c i s old oldReady g h :
      (* a goroutine runs SwapInner(s) up to the unlock *)
      c_threads c !! i = None -> swap_section s (c_g c) (c_h c) = ((old, oldReady), (g, h)) ->
      step c (mkConfig g h (<[i := SwapClose oldReady old]> (c_threads c)) (c_panic c))
  | step_close c i oldReady old h :
      c_threads c !! i = Some (SwapClose oldReady old) ->
      close_ready oldReady (c_h c) = Some h ->
      step c (mkConfig (c_g c) h (<[i := SwapCancel old]> (c_threads c)) (c_panic c))
  | step_close_panic c i oldReady old :
      c_threads c !! i = Some (SwapClose oldReady old) ->
      close_ready oldReady (c_h c) = None ->
      step c (mkConfig (c_g c) (c_h c) (c_threads c) true)
  | step_cancel c i old :
      c_threads c !! i = Some (SwapCancel old) -> step c (set_thread i Returned c).

Definition init (inner : stream) (h : chans) : config :=
  let '(g, h') := new_guarded inner h in mkConfig g h' ∅ false.

(** ** The invariant *)

(** Channel [ch] will be closed: it is, or a swap holds it. *)
Definition signalled (c : config) (ch : nat) : Prop :=
  ch ∈ ch_closed (c_h c) \/
  exists i old, c_threads c !! i = Some (SwapClose (Some ch) old).

(** Channel [ch] is the current generation of a live stream. *)
Definition current (c : config) (ch : nat) : Prop :=
  g_abandoned (c_g c) = false /\ g_resumeReady (c_g c) = Some ch.

(** The channel a Read/Write call waits on or will wait on. *)
Definition waits_on (p : pc) : option (option nat) :=
  match p with InInner _ r | Parked r => Some r | _ => None end.

Record swap_inv (c : config) : Prop := {
  inv_panic : c_panic c = false;
  inv_closed : forall ch, ch ∈ ch_closed (c_h c) -> (ch < ch_next (c_h c))%nat;
  inv_ready : forall ch, g_resumeReady (c_g c) = Some ch ->
    (ch < ch_next (c_h c))%nat /\ ~ signalled c ch;
  inv_some : g_abandoned (c_g c) = false -> g_resumeReady (c_g c) <> None;
  inv_owner : forall i ch old, c_threads c !! i = Some (SwapClose (Some ch) old) ->
    (ch < ch_next (c_h c))%nat /\ (ch ∉ ch_closed (c_h c)) /\
    (forall j old', c_threads c !! j = Some (SwapClose (Some ch) old') -> j = i);
  inv_waiter : forall i p r, c_threads c !! i = Some p -> waits_on p = Some r ->
    exists ch, r = Some ch /\ (ch < ch_next (c_h c))%nat /\
      (current c ch \/ signalled c ch)
}.

(** ** Preservation *)
Definition is_swap_close (p : pc) : bool :=
  match p with SwapClose _ _ => true | _ => false end.

(** Steps that move one thread between program points outside of a swap. *)
Lemma signalled_set_thread c i q p ch :
  c_threads c !! i = q -> (forall q', q = Some q' -> is_swap_close q' = false) ->
  is_swap_close p = false ->
  signalled (set_thread i p c) ch <-> signalled c ch.
Proof.
  intros Hi Hq Hp. unfold signalled, set_thread. cbn.
  split; (intros [Hc|(j & old & Hj)]; [by left|right]); exists j, old.
  - destruct (decide (i = j)) as [<-|]; simplify_map_eq; done.
  - destruct (decide (i = j)) as [<-|]; [|by simplify_map_eq].
    by rewrite Hj in Hi; subst q; specialize (Hq _ eq_refl).
Qed.

Lemma inv_set_thread c i q p :
  swap_inv c ->
  c_threads c !! i = q -> (forall q', q = Some q' -> is_swap_close q' = false) ->
  is_swap_close p = false ->
  (forall r, waits_on p = Some r ->
    exists ch, r = Some ch /\ (ch < ch_next (c_h c))%nat /\ (current c ch \/ signalled c ch)) ->
  swap_inv (set_thread i p c).
Proof.
  intros [Hpa Hcl Hre Hso How Hwa] Hi Hq Hp Hwp.
  assert (forall j p', c_threads (set_thread i p c) !! j = Some p' ->
            (j = i /\ p' = p) \/ c_threads c !! j = Some p') as Hth.
  { intros j p'. cbn. destruct (decide (i = j)) as [<-|]; intros; simplify_map_eq; auto. }
  constructor; cbn [c_g c_h c_panic set_thread]; try done.
  - intros ch Hch. rewrite signalled_set_thread by done. auto.
  - intros j ch old [[-> <-]|Hj]%Hth; [done|].
    destruct (How j ch old Hj) as (H1 & H2 & H3). split_and!; try done.
    intros k old' [[-> <-]|Hk]%Hth; [done|]. eauto.
  - intros j p' r [[-> ->]|Hj]%Hth Hr.
    + destruct (Hwp r Hr) as (ch & -> & ? & ?). exists ch.
      by rewrite signalled_set_thread.
    + destruct (Hwa j p' r Hj Hr) as (ch & -> & ? & ?). exists ch.
      by rewrite signalled_set_thread.
Qed.

Lemma inv_init inner h :
  (forall ch, ch ∈ ch_closed h -> (ch < ch_next h)%nat) -> swap_inv (init inner h).
Proof.
  intros Hh. constructor; cbn; try done.
  - intros ch Hch%Hh. lia.
  - intros ch [= <-]. split; [lia|]. intros [Hc|(i & old & Hi)]; [|done].
    apply Hh in Hc. lia.
Qed.

Lemma inv_abandon c g h :
  swap_inv c -> markAbandoned (c_g c) (c_h c) = Some (g, h) ->
  swap_inv (mkConfig g h (c_threads c) (c_panic c)).
Proof.
  intros Hinv. unfold markAbandoned.
  destruct (g_abandoned (c_g c)) eqn:Hab; [intros [= <- <-]; by destruct c|].
  destruct Hinv as [Hpa Hcl Hre Hso How Hwa].
  destruct (g_resumeReady (c_g c)) as [ch|] eqn:Hr; [|by destruct (Hso Hab)].
  destruct (Hre ch eq_refl) as [Hlt Hns]. unfold close_chan. case_decide; [done|].
  intros [= <- <-]. constructor; cbn; try done.
  - intros ch'. rewrite elem_of_union, elem_of_singleton. intros [->|?]; auto.
  - intros i ch' old Hi. destruct (How i ch' old Hi) as (? & ? & ?). split_and!; try done.
    rewrite not_elem_of_union, not_elem_of_singleton. split; [|done].
    intros ->. apply Hns. right. eauto.
  - intros i p r Hi Hw. destruct (Hwa i p r Hi Hw) as (ch' & -> & ? & Hs).
    exists ch'. split_and!; try done. right.
    destruct Hs as [[_ Heq]|[Hin|?]]; [simplify_eq| |];
       [left|left|by right]; cbn;
      apply elem_of_union; [left; by apply elem_of_singleton|by right].
Qed.

Lemma inv_swap c i s old oldReady g h :
  swap_inv c -> c_threads c !! i = None ->
  swap_section s (c_g c) (c_h c) = ((old, oldReady), (g, h)) ->
  swap_inv (mkConfig g h (<[i := SwapClose oldReady old]> (c_threads c)) (c_panic c)).
Proof.
  intros [Hpa Hcl Hre Hso How Hwa] Hi [= <- <- <- <-].
  set (c' := mkConfig _ _ _ _).
  assert (forall ch, signalled c ch -> signalled c' ch) as Hmono.
  { intros ch [?|(j & o & Hj)]; [by left|]. right. exists j, o. cbn.
    rewrite lookup_insert_ne; [done|]. intros ->. congruence. }
  assert (forall ch, signalled c' ch -> signalled c ch \/ g_resumeReady (c_g c) = Some ch)
    as Hback.
  { intros ch [?|(j & o & Hj)]; [by left; left|]. cbn in Hj.
    destruct (decide (i = j)) as [<-|]; simplify_map_eq; [by right|]. left. right. eauto. }
  constructor; cbn; try done.
  - intros ch Hch%Hcl. lia.
  - intros ch [= <-]. split; [lia|]. intros [Hs|Hs]%Hback.
    + destruct Hs as [Hc%Hcl|(j & o & Hj)]; [lia|]. apply How in Hj. lia.
    + apply Hre in Hs. lia.
  - intros j ch o Hj. destruct (decide (i = j)) as [<-|Hne]; simplify_map_eq.
    + destruct (Hre ch Hj) as [Hlt Hns]. split_and!; [lia|by intros ?; apply Hns; left|].
      intros j o' Hj'. destruct (decide (i = j)) as [<-|]; simplify_map_eq; [done|].
      destruct Hns. right. eauto.
    + destruct (How j ch o Hj) as (Hlt & Hc & Hu). split_and!; [lia|done|].
      intros k o' Hk. destruct (decide (i = k)) as [<-|]; simplify_map_eq; [|eauto].
      destruct (Hre ch) as [_ []]; [done|]. right. eauto.
  - intros j p r Hj Hw. destruct (decide (i = j)) as [<-|]; simplify_map_eq.
    destruct (Hwa j p r Hj Hw) as (ch & -> & Hlt & Hs). exists ch. split_and!; [done|lia|].
    right. destruct Hs as [[_ Hs]|Hs]; [|auto]. right. exists i, (g_inner (c_g c)).
    cbn. rewrite Hs. apply lookup_insert_eq.
Qed.

Lemma close_ready_spec oldReady h h' :
  close_ready oldReady h = Some h' ->
  ch_next h' = ch_next h /\
  forall ch, ch ∈ ch_closed h' <-> ch ∈ ch_closed h \/ oldReady = Some ch.
Proof.
  destruct oldReady as [c|]; cbn.
  - unfold close_chan. case_decide; [done|]. intros [= <-]. split; [done|]. intros ch. cbn.
    rewrite elem_of_union, elem_of_singleton. intuition congruence.
  - intros [= <-]. split; [done|]. intuition congruence.
Qed.

Lemma inv_close c i oldReady old h :
  swap_inv c -> c_threads c !! i = Some (SwapClose oldReady old) ->
  close_ready oldReady (c_h c) = Some h ->
  swap_inv (mkConfig (c_g c) h (<[i := SwapCancel old]> (c_threads c)) (c_panic c)).
Proof.
  intros [Hpa Hcl Hre Hso How Hwa] Hi Hh. set (c' := mkConfig _ _ _ _).
  destruct (close_ready_spec _ _ _ Hh) as [Hn Hc].
  assert (forall ch, signalled c' ch <-> signalled c ch) as Hsig.
  { intros ch. unfold signalled. cbn. rewrite Hc. split.
    - intros [[?| ->]|(j & o & Hj)]; [by left|right; eauto|].
      destruct (decide (i = j)) as [<-|]; simplify_map_eq. right; eauto.
    - intros [?|(j & o & Hj)]; [by left; left|].
      destruct (decide (i = j)) as [<-|Hne]; [left; right; congruence|].
      right. exists j, o. by rewrite lookup_insert_ne. }
  constructor; cbn; rewrite ?Hn; try done.
  - intros ch [?| ->]%Hc; [auto|]. by apply (How i ch old).
  - intros ch Hch. rewrite Hsig. auto.
  - intros j ch o Hj. destruct (decide (i = j)) as [<-|Hne]; simplify_map_eq.
    destruct (How j ch o Hj) as (? & ? & Hu). split_and!; [done| |].
    + intros [?| ->]%Hc; [done|]. destruct Hne. by apply (Hu i old).
    + intros k o' Hk. destruct (decide (i = k)) as [<-|]; simplify_map_eq. eauto.
  - intros j p r Hj Hw. destruct (decide (i = j)) as [<-|]; simplify_map_eq.
    destruct (Hwa j p r Hj Hw) as (ch & -> & ? & ?). exists ch. by rewrite Hsig.
Qed.

Lemma step_inv c c' : swap_inv c -> step c c' -> swap_inv c'.
Proof.
  intros Hc Hs. destruct Hs as
    [c i Hi|c i Hi _|c i Hi Hab|c i inner r Hi|c i inner r Hi|c i ch Hi _|c i r Hi
    |c g h Hm|c Hm|c i s old r g h Hi Hsw|c i r old h Hi Hcl|c i r old Hi Hcl|c i old Hi].
  all: try (eapply inv_set_thread; [done|exact Hi|by intros ? [= <-]|done|done]).
  - (* snapshot *)
    eapply inv_set_thread; [done|exact Hi|by intros ? [= <-]|done|].
    intros r [= <-]. destruct (g_resumeReady (c_g c)) as [ch|] eqn:Hr.
    + exists ch. split_and!; [done|by apply (inv_ready c Hc)|by left].
    + by destruct (inv_some c Hc Hab).
  - (* inner error *)
    eapply inv_set_thread; [done|exact Hi|by intros ? [= <-]|done|].
    intros r' [= <-]. by apply (inv_waiter c Hc i (InInner inner r)).
  - by eapply inv_abandon.
  - (* no panic in markAbandoned *)
    exfalso. unfold markAbandoned in Hm.
    destruct (g_abandoned (c_g c)) eqn:Hab; [done|].
    destruct (g_resumeReady (c_g c)) as [ch|] eqn:Hr; [|done].
    destruct (inv_ready c Hc ch Hr) as [_ Hns]. unfold close_chan in Hm.
    case_decide; [|done]. apply Hns. by left.
  - by eapply inv_swap.
  - by eapply inv_close.
  - (* no panic in SwapInner *)
    exfalso. destruct r as [ch|]; [|done]. cbn in Hcl. unfold close_chan in Hcl.
    case_decide; [|done]. by destruct (inv_owner c Hc i ch old Hi) as (_ & ? & _).
Qed.

Lemma reachable_inv inner h c :
  (forall ch, ch ∈ ch_closed h -> (ch < ch_next h)%nat) ->
  rtc step (init inner h) c -> swap_inv c.
Proof.
  intros Hh Hr. apply inv_init with (inner := inner) in Hh.
  induction Hr; eauto using step_inv.
Qed.

(** ** Properties *)

(** C11. No interleaving of [SwapInner], [markAbandoned] (through [Close] or
    [forgetStream]) and reads or writes ever closes a channel twice, so the
    agent cannot panic with "close of closed channel". *)
Theorem swap_never_panics inner h c :
  (forall ch, ch ∈ ch_closed h -> (ch < ch_next h)%nat) ->
  rtc step (init inner h) c -> c_panic c = false.
Proof. intros Hh Hr. by apply inv_panic, (reachable_inv inner h). Qed.

(** C12. No lost wake-up: in every reachable state, a parked [Read] or [Write]
    whose channel is not the current generation of a live stream (a swap or an
    abandon happened after its snapshot) can be brought back to the top of its
    loop by the steps of the swap that is under way and its own, without
    touching the shared fields. *)
Theorem no_lost_wakeup inner h c i r :
  (forall ch, ch ∈ ch_closed h -> (ch < ch_next h)%nat) ->
  rtc step (init inner h) c -> c_threads c !! i = Some (Parked r) ->
  g_abandoned (c_g c) = true \/ g_resumeReady (c_g c) <> r ->
  exists c', rtc step c c' /\ c_threads c' !! i = Some Enter /\ c_g c' = c_g c.
Proof.
  intros Hh Hr Hi Hgen. pose proof (reachable_inv _ _ _ Hh Hr) as Hinv.
  destruct (inv_waiter c Hinv i (Parked r) r Hi eq_refl) as (ch & -> & _ & [[Ha Hcur]|Hs]).
  { destruct Hgen; congruence. }
  destruct Hs as [Hcl|(j & old & Hj)].
  - exists (set_thread i Enter c). split_and!; [|apply lookup_insert_eq|done].
    apply rtc_once. by eapply step_woken.
  - destruct (inv_owner c Hinv j ch old Hj) as (_ & Hnc & _).
    set (h' := mkChans (ch_next (c_h c)) ({[ch]} ∪ ch_closed (c_h c))).
    set (c1 := mkConfig (c_g c) h' (<[j := SwapCancel old]> (c_threads c)) (c_panic c)).
    assert (step c c1) as H1.
    { eapply step_close; [exact Hj|]. cbn. unfold close_chan. by case_decide. }
    assert (i <> j) as Hij by congruence.
    exists (set_thread i Enter c1). split_and!; [|apply lookup_insert_eq|done].
    eapply rtc_l; [exact H1|]. apply rtc_once. eapply (step_woken c1 i ch).
    + cbn. by rewrite lookup_insert_ne.
    + cbn. apply elem_of_union. left. by apply elem_of_singleton.
Qed.

(** A parked call, a swap that has released the lock, and the wake-up. *)
Definition parked_run : config :=
  mkConfig (mkGuarded (mkStream 1) (Some 1%nat) false) (mkChans 2 ∅)
    {[0%nat := Parked (Some 0%nat); 1%nat := SwapClose (Some 0%nat) (mkStream 0)]} false.

Lemma parked_run_reachable : rtc step (init (mkStream 0) (mkChans 0 ∅)) parked_run.
Proof.
  eapply rtc_l; [apply (step_call _ 0%nat); reflexivity|].
  eapply rtc_l; [apply (step_snapshot _ 0%nat); reflexivity|].
  eapply rtc_l; [eapply (step_inner_error _ 0%nat); reflexivity|].
  eapply rtc_l; [eapply (step_swap _ 1%nat (mkStream 1)); reflexivity|].
  match goal with |- rtc _ ?a ?b => replace a with b by (vm_compute; reflexivity) end.
  apply rtc_refl.
Qed.

Lemma swap_never_panics_witness : c_panic parked_run = false.
Proof.
  apply (swap_never_panics (mkStream 0) (mkChans 0 ∅));
    [intros ch Hch; set_solver|apply parked_run_reachable].
Defined.

Lemma no_lost_wakeup_witness :
  exists c', rtc step parked_run c' /\ c_threads c' !! 0%nat = Some Enter.
Proof.
  destruct (no_lost_wakeup (mkStream 0) (mkChans 0 ∅) parked_run 0 (Some 0%nat))
    as (c' & H1 & H2 & _).
  - intros ch Hch; set_solver.
  - apply parked_run_reachable.
  - reflexivity.
  - right. done.
  - by exists c'.
Defined.
