(* ===== verification/Waiters.v ===== *)
(** * The P2P state of a session: waiters and local candidates

    The fields of [Session] under [p2pMu] ([pkg/session/promote.go]): the
    per-stream waiters that the control reader delivers CANDIDATE_ANSWER and
    stream-mode frames to, and the candidates advertised in answers.  Waiter
    channels are buffered with capacity one and shared by reference, so they
    live in a store: a map entry and a blocked receiver name the same
    channel. *)

From S2P Require Import Prelude Orp.

(** [streamModeNotice]: [granted] is nil for splice mode. *)
Definition streamModeNotice : Type := option AllocGranted.

Record P2P : Type := mkP2P {
  pendingAnswers : option (gmap Z nat);   (* [None] is the nil map *)
  pendingMode : option (gmap Z nat);
  localCandidates : pbCandidates;
  p2pEnabled : bool;
  p2pCtx : option nat;                    (* a context, [None] for nil *)
  abufs : gmap nat (list CandidateAnswer);   (* channel contents, at most one *)
  mbufs : gmap nat (list streamModeNotice);
  nextbuf : nat
}.

(** The P2P part of the session [DialWithDialer] builds. *)
Definition p2p_new : P2P := mkP2P None None [] false None ∅ ∅ 0.

(** Reading a Go map: the nil map has no entries. *)
Definition mlookup (m : option (gmap Z nat)) (k : Z) : option nat := m ≫= lookup k.
Definition mdelete (m : option (gmap Z nat)) (k : Z) : option (gmap Z nat) := delete k <$> m.

Arguments mlookup : simpl never.
Arguments mdelete : simpl never.

(** ** Enabling *)

(** Returns whether the control reader is started by this call. *)
Definition EnableP2P (ctx : nat) (p : P2P) : bool * P2P :=
  let already := p2pEnabled p in
  (negb already,
   mkP2P (Some (default ∅ (pendingAnswers p))) (Some (default ∅ (pendingMode p)))
     (localCandidates p) true (Some ctx) (abufs p) (mbufs p) (nextbuf p)).

Definition restartControlReaderIfEnabled (p : P2P) : bool :=
  p2pEnabled p && bool_decide (p2pCtx p <> None).

(** ** Candidates *)
Definition SetLocalCandidates (cs : pbCandidates) (p : P2P) : P2P :=
  mkP2P (pendingAnswers p) (pendingMode p) cs (p2pEnabled p) (p2pCtx p)
    (abufs p) (mbufs p) (nextbuf p).

Definition AnswerOffer (offer : CandidateOffer) (p : P2P) : CandidateAnswer :=
  mkAnswer (of_StreamId offer) (localCandidates p).

(** ** Answer waiters *)

(** [None]: assignment to an entry of the nil map panics. *)
Definition registerAnswerWaiter (streamID : Z) (p : P2P) : option (nat * P2P) :=
  m ← pendingAnswers p;
  let ch := nextbuf p in
  Some (ch, mkP2P (Some (<[streamID := ch]> m)) (pendingMode p) (localCandidates p)
              (p2pEnabled p) (p2pCtx p) (<[ch := []]> (abufs p)) (mbufs p) (S ch)).

(** Non-blocking send on a channel of capacity one. *)
Definition try_send {A} (ch : nat) (a : A) (bufs : gmap nat (list A)) : gmap nat (list A) :=
  match bufs !! ch with
  | Some [] => <[ch := [a]]> bufs
  | _ => bufs
  end.

Definition deliverAnswer (a : CandidateAnswer) (p : P2P) : P2P :=
  match mlookup (pendingAnswers p) (an_StreamId a) with
  | None => p
  | Some ch =>
      mkP2P (mdelete (pendingAnswers p) (an_StreamId a)) (pendingMode p) (localCandidates p)
        (p2pEnabled p) (p2pCtx p) (try_send ch a (abufs p)) (mbufs p) (nextbuf p)
  end.

(** The select of [Promote]'s [RecvAnswer] on its own channel: [None] while it
    blocks; [inr] when the context is done. *)
Definition recvAnswer (ch : nat) (ctxDone : option error) (p : P2P)
    : option ((CandidateAnswer + error) * P2P) :=
  match ctxDone with
  | Some e => Some (inr e, p)
  | None =>
      match abufs p !! ch with
      | Some (a :: rest) =>
          Some (inl a, mkP2P (pendingAnswers p) (pendingMode p) (localCandidates p)
            (p2pEnabled p) (p2pCtx p) (<[ch := rest]> (abufs p)) (mbufs p) (nextbuf p))
      | _ => None
      end
  end.

(** ** Stream-mode waiters *)
Definition RegisterStreamModeWaiter (streamID : Z) (p : P2P) : nat * P2P :=
  let ch := nextbuf p in
  (ch, mkP2P (pendingAnswers p) (Some (<[streamID := ch]> (default ∅ (pendingMode p))))
         (localCandidates p) (p2pEnabled p) (p2pCtx p)
         (abufs p) (<[ch := []]> (mbufs p)) (S ch)).

Definition CancelStreamModeWaiter (streamID : Z) (p : P2P) : P2P :=
  mkP2P (pendingAnswers p) (mdelete (pendingMode p) streamID) (localCandidates p)
    (p2pEnabled p) (p2pCtx p) (abufs p) (mbufs p) (nextbuf p).

Definition deliverMode (streamID : Z) (n : streamModeNotice) (p : P2P) : P2P :=
  match mlookup (pendingMode p) streamID with
  | None => p
  | Some ch =>
      mkP2P (pendingAnswers p) (pendingMode p) (localCandidates p) (p2pEnabled p) (p2pCtx p)
        (abufs p) (try_send ch n (mbufs p)) (nextbuf p)
  end.

(** [WaitForStreamMode] after its lookup found channel [ch], when the select
    proceeds: [ctxDone] is the arm taken; [None] while it blocks. *)
Definition receiveMode (ch : nat) (ctxDone : bool) (p : P2P)
    : option (streamModeNotice * P2P) :=
  if ctxDone then Some (None, p)
  else
    match mbufs p !! ch with
    | Some (n :: rest) =>
        Some (n, mkP2P (pendingAnswers p) (pendingMode p) (localCandidates p) (p2pEnabled p)
                   (p2pCtx p) (abufs p) (<[ch := rest]> (mbufs p)) (nextbuf p))
    | _ => None
    end.

Definition WaitForStreamMode (streamID : Z) (ctxDone : bool) (p : P2P)
    : option (streamModeNotice * P2P) :=
  match mlookup (pendingMode p) streamID with
  | None => Some (None, p)
  | Some ch =>
      '(n, p') ← receiveMode ch ctxDone p;
      Some (n, CancelStreamModeWaiter streamID p')
  end.

(** ** Interleavings of whole operations

    What other goroutines may do to the waiters between two operations of one
    goroutine. *)
Inductive p2p_op : Type :=
  | OpEnable (ctx : nat)
  | OpSetLocal (cs : pbCandidates)
  | OpRegisterAnswer (id : Z)
  | OpDeliverAnswer (a : CandidateAnswer)
  | OpRecvAnswer (ch : nat) (ctxDone : option error)
  | OpRegisterMode (id : Z)
  | OpCancelMode (id : Z)
  | OpDeliverMode (id : Z) (n : streamModeNotice)
  | OpWaitMode (id : Z) (ctxDone : bool).

Definition apply_op (o : p2p_op) (p : P2P) : P2P :=
  match o with
  | OpEnable ctx => snd (EnableP2P ctx p)
  | OpSetLocal cs => SetLocalCandidates cs p
  | OpRegisterAnswer id =>
      match registerAnswerWaiter id p with Some (_, p') => p' | None => p end
  | OpDeliverAnswer a => deliverAnswer a p
  | OpRecvAnswer ch ctxDone =>
      match recvAnswer ch ctxDone p with Some (_, p') => p' | None => p end
  | OpRegisterMode id => snd (RegisterStreamModeWaiter id p)
  | OpCancelMode id => CancelStreamModeWaiter id p
  | OpDeliverMode id n => deliverMode id n p
  | OpWaitMode id ctxDone =>
      match WaitForStreamMode id ctxDone p with Some (_, p') => p' | None => p end
  end.

Definition apply_ops (os : list p2p_op) (p : P2P) : P2P := foldl (fun p o => apply_op o p) p os.

(** An operation that leaves the mode waiter of [id] to its owner: it neither
    registers, cancels nor consumes it. *)
Definition leaves_mode (id : Z) (o : p2p_op) : Prop :=
  match o with
  | OpRegisterMode id' | OpCancelMode id' | OpWaitMode id' _ => id' <> id
  | _ => True
  end.

(** ... and does not deliver to it either. *)
Definition avoids_mode (id : Z) (o : p2p_op) : Prop :=
  leaves_mode id o /\ match o with OpDeliverMode id' _ => id' <> id | _ => True end.

(** ** Well-formedness: waiters of different streams have different channels *)
Record p2p_wf (p : P2P) : Prop := {
  wf_mode : forall id ch, mlookup (pendingMode p) id = Some ch ->
    (ch < nextbuf p)%nat /\ is_Some (mbufs p !! ch);
  wf_mode_inj : forall id id' ch,
    mlookup (pendingMode p) id = Some ch -> mlookup (pendingMode p) id' = Some ch -> id = id';
  wf_answers : forall id ch, mlookup (pendingAnswers p) id = Some ch ->
    (ch < nextbuf p)%nat /\ abufs p !! ch = Some [];
  wf_answers_inj : forall id id' ch,
    mlookup (pendingAnswers p) id = Some ch -> mlookup (pendingAnswers p) id' = Some ch ->
    id = id'
}.

(** ** Facts *)
Lemma mlookup_delete m k k' :
  mlookup (mdelete m k) k' = if decide (k = k') then None else mlookup m k'.
Proof. destruct m; cbn; [apply lookup_delete|by case_decide]. Qed.

Lemma mlookup_insert m k v k' :
  mlookup (Some (<[k := v]> m)) k' = if decide (k = k') then Some v else m !! k'.
Proof. apply lookup_insert. Qed.

Lemma mlookup_default m k : mlookup (Some (default ∅ m)) k = mlookup m k.
Proof. destruct m; cbn; [done|apply lookup_empty]. Qed.

Lemma try_send_full {A} ch (a b : A) l bufs :
  bufs !! ch = Some (b :: l) -> try_send ch a bufs = bufs.
Proof. intros H. unfold try_send. by rewrite H. Qed.

Lemma try_send_ne {A} ch ch' (a : A) bufs :
  ch <> ch' -> try_send ch a bufs !! ch' = bufs !! ch'.
Proof. intros Hne. unfold try_send. repeat case_match; try done. by rewrite lookup_insert_ne. Qed.

Lemma try_send_is_Some {A} ch ch' (a : A) bufs :
  is_Some (bufs !! ch') -> is_Some (try_send ch a bufs !! ch').
Proof.
  intros H. destruct (decide (ch = ch')) as [<-|]; [|by rewrite try_send_ne].
  unfold try_send. destruct (bufs !! ch) as [[|b l]|] eqn:E; rewrite ?lookup_insert_eq, ?E; eauto.
Qed.

Lemma p2p_new_wf : p2p_wf p2p_new.
Proof. by constructor. Qed.

(** Deleting a mode entry and changing mode buffers keep the shape. *)
Lemma wf_cancel id p : p2p_wf p -> p2p_wf (CancelStreamModeWaiter id p).
Proof.
  intros [H1 H2 H3 H4]. constructor; cbn; try done.
  - intros id' ch. rewrite mlookup_delete. case_decide; [done|]. apply H1.
  - intros id' id'' ch. rewrite !mlookup_delete. do 2 case_decide; try done. apply H2.
Qed.

Lemma wf_mbufs p bufs :
  p2p_wf p -> (forall ch, is_Some (mbufs p !! ch) -> is_Some (bufs !! ch)) ->
  p2p_wf (mkP2P (pendingAnswers p) (pendingMode p) (localCandidates p) (p2pEnabled p)
            (p2pCtx p) (abufs p) bufs (nextbuf p)).
Proof.
  intros [H1 H2 H3 H4] Hb. constructor; cbn; try done.
  intros id ch [? ?]%H1. auto.
Qed.

Lemma wf_registerMode id p : p2p_wf p -> p2p_wf (snd (RegisterStreamModeWaiter id p)).
Proof.
  intros [H1 H2 H3 H4].
  assert (forall id' ch, default ∅ (pendingMode p) !! id' = Some ch ->
            (ch < nextbuf p)%nat /\ is_Some (mbufs p !! ch)) as H1'.
  { intros id' ch Hl. apply (H1 id'). by destruct (pendingMode p). }
  constructor; cbn [pendingMode mbufs nextbuf pendingAnswers abufs snd RegisterStreamModeWaiter].
  - intros id' ch. rewrite mlookup_insert. case_decide; [intros [= <-]|intros [Hlt Hs]%H1'].
    + split; [lia|]. rewrite lookup_insert_eq. by eexists.
    + split; [lia|]. rewrite lookup_insert_ne by lia. done.
  - intros id' id'' ch. rewrite !mlookup_insert.
    do 2 case_decide; intros Ha Hb; simplify_eq; try done.
    + apply H1' in Hb. lia.
    + apply H1' in Ha. lia.
    + apply (H2 id' id'' ch); by destruct (pendingMode p).
  - intros id' ch [? ?]%H3. split; [lia|done].
  - done.
Qed.

Lemma wf_registerAnswer id p ch p' :
  p2p_wf p -> registerAnswerWaiter id p = Some (ch, p') -> p2p_wf p'.
Proof.
  intros [H1 H2 H3 H4]. unfold registerAnswerWaiter.
  destruct (pendingAnswers p) as [m|] eqn:Em; cbn; [|done]. intros [= <- <-].
  constructor; cbn [pendingMode mbufs nextbuf pendingAnswers abufs].
  - intros id' ch [? ?]%H1. split; [lia|done].
  - done.
  - intros id' ch. rewrite mlookup_insert.
    case_decide; [intros [= <-]|intros Hl; apply (H3 id') in Hl as [Hlt Hs]].
    + split; [lia|apply lookup_insert_eq].
    + split; [lia|]. rewrite lookup_insert_ne by lia. done.
  - intros id' id'' ch. rewrite !mlookup_insert.
    do 2 case_decide; intros Ha Hb; simplify_eq; try done.
    + apply (H3 id'') in Hb. lia.
    + apply (H3 id') in Ha. lia.
    + by apply (H4 id' id'' ch).
Qed.

Lemma wf_deliverAnswer a p : p2p_wf p -> p2p_wf (deliverAnswer a p).
Proof.
  intros [H1 H2 H3 H4]. unfold deliverAnswer.
  destruct (mlookup (pendingAnswers p) (an_StreamId a)) as [ch|] eqn:Hch; [|done].
  constructor; cbn; try done.
  - intros id ch'. rewrite mlookup_delete. case_decide as Hne; [done|]. intros Hl.
    destruct (H3 id ch' Hl) as [Hlt Hb]. split; [done|]. rewrite try_send_ne; [done|].
    intros ->. apply Hne. by apply (H4 _ _ ch').
  - intros id id' ch'. rewrite !mlookup_delete. do 2 case_decide; try done. apply H4.
Qed.

(** Taking the entry, and the send on a channel whose entry was taken. *)
Lemma wf_take_answer id p :
  p2p_wf p ->
  p2p_wf (mkP2P (mdelete (pendingAnswers p) id) (pendingMode p) (localCandidates p) (p2pEnabled p)
            (p2pCtx p) (abufs p) (mbufs p) (nextbuf p)).
Proof.
  intros [H1 H2 H3 H4]. constructor; cbn; try done.
  - intros id' ch. rewrite mlookup_delete. case_decide; [done|]. apply H3.
  - intros id' id'' ch. rewrite !mlookup_delete. do 2 case_decide; try done. apply H4.
Qed.

Lemma wf_send_answer ch a p :
  p2p_wf p -> (forall id, mlookup (pendingAnswers p) id <> Some ch) ->
  p2p_wf (mkP2P (pendingAnswers p) (pendingMode p) (localCandidates p) (p2pEnabled p)
            (p2pCtx p) (try_send ch a (abufs p)) (mbufs p) (nextbuf p)).
Proof.
  intros [H1 H2 H3 H4] Hch. constructor; cbn; try done. intros id ch' Hl.
  destruct (H3 id ch' Hl) as [Hlt Hb]. split; [done|]. rewrite try_send_ne; [done|].
  intros ->. by apply (Hch id).
Qed.

Lemma wf_recvAnswer ch ctxDone p r p' :
  p2p_wf p -> recvAnswer ch ctxDone p = Some (r, p') -> p2p_wf p'.
Proof.
  intros [H1 H2 H3 H4]. unfold recvAnswer. destruct ctxDone; [by intros [= _ <-]|].
  destruct (abufs p !! ch) as [[|a rest]|] eqn:Hb; try done. intros [= _ <-].
  constructor; cbn; try done. intros id ch' Hl. destruct (H3 id ch' Hl) as [Hlt He].
  split; [done|]. rewrite lookup_insert_ne; [done|]. intros ->. congruence.
Qed.

Lemma wf_receiveMode ch ctxDone p n p' :
  p2p_wf p -> receiveMode ch ctxDone p = Some (n, p') -> p2p_wf p'.
Proof.
  intros Hw. unfold receiveMode. destruct ctxDone; [by intros [= _ <-]|].
  destruct (mbufs p !! ch) as [[|x rest]|] eqn:Hb; try done. intros [= _ <-].
  apply wf_mbufs; [done|]. intros ch' Hs.
  destruct (decide (ch = ch')) as [<-|]; simplify_map_eq; eauto.
Qed.

Lemma apply_op_wf o p : p2p_wf p -> p2p_wf (apply_op o p).
Proof.
  intros Hw. destruct o; cbn [apply_op].
  - destruct Hw as [H1 H2 H3 H4].
    constructor; cbn [EnableP2P snd pendingMode pendingAnswers mbufs abufs nextbuf];
      intros *; rewrite ?mlookup_default; eauto.
  - by destruct Hw; constructor.
  - destruct (registerAnswerWaiter id p) as [[ch p']|] eqn:E; [|done].
    by eapply wf_registerAnswer.
  - by apply wf_deliverAnswer.
  - destruct (recvAnswer ch ctxDone p) as [[r p']|] eqn:E; [|done]. by eapply wf_recvAnswer.
  - by apply wf_registerMode.
  - by apply wf_cancel.
  - unfold deliverMode. destruct (mlookup _ _); [|done].
    apply wf_mbufs; [done|]. intros. by apply try_send_is_Some.
  - unfold WaitForStreamMode. destruct (mlookup _ _); [|done].
    destruct (receiveMode _ _ _) as [[x p']|] eqn:E; [|done]. cbn.
    apply wf_cancel. by eapply wf_receiveMode.
Qed.

(** Channels are registered for answers when they are made, never again. *)
Record p2p_evolves (p p' : P2P) : Prop := {
  pe_next : (nextbuf p <= nextbuf p')%nat;
  pe_answers : forall id ch, mlookup (pendingAnswers p') id = Some ch ->
    mlookup (pendingAnswers p) id = Some ch \/ (nextbuf p <= ch)%nat
}.

#[export] Instance p2p_evolves_preorder : PreOrder p2p_evolves.
Proof.
  split; [by constructor; auto|]. intros p1 p2 p3 [A1 A2] [B1 B2]. constructor; [lia|].
  intros id ch [Hc|?]%B2; [|right; lia]. destruct (A2 id ch Hc); auto.
Qed.

Lemma p2p_evolves_answers p p' :
  (nextbuf p <= nextbuf p')%nat -> pendingAnswers p' = pendingAnswers p -> p2p_evolves p p'.
Proof. intros Hn E. constructor; [done|]. rewrite E. auto. Qed.

Lemma take_answer_evolves id p :
  p2p_evolves p (mkP2P (mdelete (pendingAnswers p) id) (pendingMode p) (localCandidates p) (p2pEnabled p)
                   (p2pCtx p) (abufs p) (mbufs p) (nextbuf p)).
Proof.
  constructor; cbn; [done|]. intros id' ch. rewrite mlookup_delete. case_decide; [done|auto].
Qed.

Lemma apply_op_evolves o p : p2p_evolves p (apply_op o p).
Proof.
  destruct o; cbn [apply_op]; unfold deliverAnswer, deliverMode, WaitForStreamMode, receiveMode, recvAnswer;
    try (by apply p2p_evolves_answers);
    try (repeat case_match; simplify_eq/=; by apply p2p_evolves_answers).
  - constructor; cbn; [done|]. intros id ch. rewrite mlookup_default. auto.
  - unfold registerAnswerWaiter. destruct (pendingAnswers p) as [m|] eqn:Em; [|done]. cbn.
    constructor; cbn; [lia|]. rewrite Em. intros id' ch. rewrite mlookup_insert.
    case_decide; [intros [= <-]; auto|auto].
  - destruct (mlookup (pendingAnswers p) (an_StreamId a)) as [ch|]; [|done].
    destruct (take_answer_evolves (an_StreamId a) p) as [H1 H2]. by constructor.
  - apply p2p_evolves_answers; cbn; [lia|done].
Qed.

Lemma apply_ops_wf os p : p2p_wf p -> p2p_wf (apply_ops os p).
Proof.
  revert p. induction os as [|o os IH]; intros p Hp; [done|]. by apply IH, apply_op_wf.
Qed.

(** Stream [id] has a mode waiter on channel [ch] holding [buf]. *)
Record mode_at (id : Z) (ch : nat) (buf : list streamModeNotice) (p : P2P) : Prop := {
  at_wf : p2p_wf p;
  at_entry : mlookup (pendingMode p) id = Some ch;
  at_buf : mbufs p !! ch = Some buf
}.

(** Split an operation into its branches. *)
#[local] Ltac open_op :=
  unfold registerAnswerWaiter, deliverAnswer, recvAnswer, deliverMode, WaitForStreamMode,
    receiveMode in *;
  repeat first [case_match | progress simplify_option_eq | progress simplify_eq/=].

Lemma mode_at_leaves id ch buf o p :
  mode_at id ch buf p -> leaves_mode id o ->
  (avoids_mode id o \/ buf <> []) -> mode_at id ch buf (apply_op o p).
Proof.
  intros [Hw He Hb] Ho Hd.
  assert (forall id' ch', id' <> id -> mlookup (pendingMode p) id' = Some ch' -> ch' <> ch) as Hne.
  { intros id' ch' Hid Hl ->. apply Hid. by apply (wf_mode_inj p Hw id' id ch). }
  destruct (wf_mode p Hw id ch He) as [Hlt _].
  constructor; [by apply apply_op_wf| |]; destruct o; cbn [apply_op leaves_mode] in *; try done;
    open_op; try done.
  all: rewrite ?mlookup_default, ?mlookup_insert, ?mlookup_delete, ?decide_False,
    ?lookup_insert_ne by (done || lia || eauto); try done.
  - by destruct (pendingMode p).
  - (* a delivery: to another stream, or to a full channel *)
    match goal with E : mlookup _ ?id0 = Some ?ch' |- _ =>
      destruct (decide (ch' = ch)) as [->|]; [|by rewrite try_send_ne];
      destruct buf as [|b buf]; [|by erewrite try_send_full];
      destruct Hd as [[_ Hd]|]; [by destruct (Hne id0 ch Hd E)|done] end.
Qed.

Lemma mode_at_ops id ch buf os p :
  mode_at id ch buf p -> Forall (leaves_mode id) os ->
  (Forall (avoids_mode id) os \/ buf <> []) -> mode_at id ch buf (apply_ops os p).
Proof.
  intros Hm Hos. revert p Hm. induction Hos as [|o os Ho Hos IH]; intros p Hm Hd; [done|].
  apply IH; [apply mode_at_leaves; [done|done|]|].
  - destruct Hd as [Hd|]; [left; by inversion Hd|by right].
  - destruct Hd as [Hd|]; [left; by inversion Hd|by right].
Qed.

(** Channel [ch] holds an answer and no waiter entry names it any more. *)
Record answered (ch : nat) (a : CandidateAnswer) (p : P2P) : Prop := {
  ans_wf : p2p_wf p;
  ans_buf : abufs p !! ch = Some [a];
  ans_lt : (ch < nextbuf p)%nat;
  ans_free : forall id, mlookup (pendingAnswers p) id <> Some ch
}.

Definition leaves_chan (ch : nat) (o : p2p_op) : Prop :=
  match o with OpRecvAnswer ch' _ => ch' <> ch | _ => True end.

Lemma answered_op ch a o p :
  answered ch a p -> leaves_chan ch o -> answered ch a (apply_op o p).
Proof.
  intros [Hw Hb Hlt Hf] Ho.
  assert (forall id ch', mlookup (pendingAnswers p) id = Some ch' -> ch' <> ch) as Hf'.
  { intros id ch' Hl ->. by apply (Hf id). }
  constructor; [by apply apply_op_wf| | |]; destruct o; cbn [apply_op] in *; try done;
    open_op; try done; try (cbn; lia).
  all: try (by rewrite lookup_insert_ne by lia).
  all: try (by rewrite try_send_ne by eauto).
  all: intros id'; rewrite ?mlookup_default, ?mlookup_delete, ?mlookup_insert;
    repeat case_decide; try done; try (intros [= ?]; lia); eauto.
  all: intros Hl; by apply (Hf id').
Qed.

Lemma answered_ops ch a os p :
  answered ch a p -> Forall (leaves_chan ch) os -> answered ch a (apply_ops os p).
Proof.
  intros Ha Hos. revert p Ha. induction Hos as [|o os Ho Hos IH]; intros p Ha; [done|].
  apply IH. by apply answered_op.
Qed.

(** An operation that neither replaces nor answers the waiter of [id]. *)
Definition avoids_answer (id : Z) (o : p2p_op) : Prop :=
  match o with
  | OpRegisterAnswer id' => id' <> id
  | OpDeliverAnswer a => an_StreamId a <> id
  | _ => True
  end.

Lemma answer_entry_op id ch o p :
  avoids_answer id o -> mlookup (pendingAnswers p) id = Some ch ->
  mlookup (pendingAnswers (apply_op o p)) id = Some ch.
Proof.
  intros Ho He. destruct o; cbn [apply_op avoids_answer] in *; try done; open_op; try done;
    rewrite ?mlookup_default, ?mlookup_insert, ?mlookup_delete, ?decide_False by done; done.
Qed.

Lemma answer_entry_ops id ch os p :
  Forall (avoids_answer id) os -> mlookup (pendingAnswers p) id = Some ch ->
  mlookup (pendingAnswers (apply_ops os p)) id = Some ch.
Proof.
  intros Hos. revert p. induction Hos as [|o os Ho Hos IH]; intros p He; [done|].
  apply IH. by apply answer_entry_op.
Qed.

(** ** Properties *)



(** A CANDIDATE_ANSWER reaches the promotion that waits for it: after
    [registerAnswerWaiter], and as long as nobody else registers or answers
    the same stream first, the answer is stored (the "waiter full" branch is
    dead), the entry is removed, and [RecvAnswer] on that channel returns
    exactly this answer whatever happens in between. *)
Theorem answer_reaches_waiter a p ch p1 os0 os :
  p2p_wf p -> registerAnswerWaiter (an_StreamId a) p = Some (ch, p1) ->
  Forall (avoids_answer (an_StreamId a)) os0 -> Forall (leaves_chan ch) os ->
  let p2 := deliverAnswer a (apply_ops os0 p1) in
  mlookup (pendingAnswers p2) (an_StreamId a) = None /\
  exists p3, recvAnswer ch None (apply_ops os p2) = Some (inl a, p3).
Proof.
  intros Hw Hr Hos0 Hos p2. pose proof (wf_registerAnswer _ _ _ _ Hw Hr) as Hw1.
  assert (mlookup (pendingAnswers p1) (an_StreamId a) = Some ch) as He.
  { unfold registerAnswerWaiter in Hr. destruct (pendingAnswers p); simplify_eq/=.
    rewrite mlookup_insert. by rewrite decide_True. }
  apply (answer_entry_ops _ _ os0) in He; [|done]. apply (apply_ops_wf os0) in Hw1.
  destruct (wf_answers _ Hw1 _ _ He) as [Hlt Hb].
  assert (answered ch a p2) as Ha.
  { constructor; [by apply wf_deliverAnswer| | |]; unfold p2, deliverAnswer; rewrite He.
    - cbn [abufs]. unfold try_send. rewrite Hb. apply lookup_insert_eq.
    - done.
    - intros id. cbn [pendingAnswers]. rewrite mlookup_delete. case_decide as Hne; [done|].
      intros Hl. apply Hne. by apply (wf_answers_inj _ Hw1 _ _ ch). }
  split.
  - unfold p2, deliverAnswer. rewrite He. cbn [pendingAnswers]. rewrite mlookup_delete.
    by rewrite decide_True.
  - apply (answered_ops _ _ os) in Ha; [|done]. unfold recvAnswer. rewrite (ans_buf _ _ _ Ha).
    by eexists.
Qed.

Definition one_waiter : P2P :=
  match registerAnswerWaiter 7 (snd (EnableP2P 0 p2p_new)) with
  | Some (_, p) => p
  | None => p2p_new
  end.

Lemma answer_reaches_waiter_witness :
  exists p3, recvAnswer 0 None
    (apply_ops [OpDeliverAnswer (mkAnswer 7 [None]); OpRegisterMode 7]
      (deliverAnswer (mkAnswer 7 []) (apply_ops [OpRegisterAnswer 9] one_waiter)))
    = Some (inl (mkAnswer 7 []), p3).
Proof.
  destruct (answer_reaches_waiter (mkAnswer 7 []) (snd (EnableP2P 0 p2p_new)) 0%nat one_waiter
    [OpRegisterAnswer 9]
    [OpDeliverAnswer (mkAnswer 7 [None]); OpRegisterMode 7]) as (_ & p3 & H).
  - apply (apply_op_wf (OpEnable 0)), p2p_new_wf.
  - reflexivity.
  - by repeat constructor.
  - by repeat constructor.
  - by exists p3.
Defined.
