(* ===== verification/Forward.v ===== *)
(** * Forward mode: the mini-TURN packet connection and its bring-up

    [pkg/forward/conn.go] (the framing of datagrams towards the relay's
    forwarding plane) and [pkg/session/forward.go] (acquiring and releasing
    the socket, the quic transport, the connection and the stream on top).
    The handshake behind [acquire ResQuicConn] is done under
    [ensureForwardALPN] of the configuration; what it accepts is in [Tls]. *)

From S2P Require Import Prelude Netip Orp.

Local Open Scope agent_scope.

(** ** [binary.BigEndian.PutUint32] and its inverse *)
Definition be32 (z : Z) : list byte :=
  [Z.land (Z.shiftr z 24) 255; Z.land (Z.shiftr z 16) 255;
   Z.land (Z.shiftr z 8) 255; Z.land z 255].

Definition be32_decode (p : list byte) : option Z :=
  match p with
  | b0 :: b1 :: b2 :: b3 :: _ => Some (b0 * 2 ^ 24 + b1 * 2 ^ 16 + b2 * 2 ^ 8 + b3)
  | _ => None
  end.

(** ** [forward.Conn] *)
Record Conn : Type := mkFwdConn {
  udp : nat;
  relay : AddrPort;
  peerAlloc : Z;   (* uint32 *)
  myAlloc : Z      (* uint32 *)
}.

Section Conn.
Context `{Net} {S : Type}.

Definition register (c : Conn) : Eff S (option error) :=
  let buf := be32 0 ++ be32 (myAlloc c) in
  do e <- Datagram (udp c) buf (relay c) ;;
  mret match e with Some e => Some (Wrapped "forward: register" e) | None => None end.

Definition Dial (relay : AddrPort) (myAlloc peerAlloc : Z) : Eff S (result Conn) :=
  if (myAlloc =? 0) || (peerAlloc =? 0) then
    mret (Err (ErrorString "forward: alloc ids must be non-zero"))
  else
    do u <- acquire ResUDP ;;
    match u with
    | Err e => mret (Err (Wrapped "forward: bind local UDP" e))
    | Ok u =>
        let c := mkFwdConn u relay peerAlloc myAlloc in
        do e <- register c ;;
        match e with
        | Some e => do_ release ResUDP u ;; mret (Err e)
        | None => mret (Ok c)
        end
    end.

(** The address quic-go passes is ignored. *)
Definition WriteTo (c : Conn) (p : list byte) (addr : AddrPort) : Eff S (result Z) :=
  let buf := be32 (peerAlloc c) ++ p in
  do e <- Datagram (udp c) buf (relay c) ;;
  mret match e with Some e => Err e | None => Ok (Z.of_nat (length p)) end.

(** [pkt] is what the socket read returned. *)
Definition ReadFrom (c : Conn) (pkt : result (list byte)) : result (list byte * AddrPort) :=
  match pkt with
  | Err e => Err e
  | Ok p => Ok (p, relay c)
  end.
End Conn.

(** How the forwarding plane reads a datagram: a 4-byte allocation id, where 0
    announces a registration of the id that follows. *)
Inductive plane_packet : Type :=
  | PlaneRegister (alloc : Z)
  | PlaneForward (alloc : Z) (payload : list byte)
  | PlaneGarbage.

Definition plane_parse (p : list byte) : plane_packet :=
  match be32_decode p with
  | None => PlaneGarbage
  | Some 0 =>
      match be32_decode (drop 4 p) with
      | Some a => PlaneRegister a
      | None => PlaneGarbage
      end
  | Some a => PlaneForward a (drop 4 p)
  end.

(** ** [ForwardSession] *)
(** [defaultQUICConfig], in nanoseconds. *)
Definition HandshakeIdleTimeout : Z := 30000000000.
Definition MaxIdleTimeout : Z := 45000000000.
Definition KeepAlivePeriod : Z := 15000000000.

Record ForwardSession : Type := mkForward {
  fs_conn : nat;
  fs_stream : nat;
  fs_transport : nat;
  fs_udp : Conn
}.

Section ForwardSession.
Context `{Net} {S : Type}.

Definition first_error (first : option error) (e : option error) : option error :=
  match first with Some _ => first | None => e end.

(** The adapters around quic-go; [Read], [Write], [StreamID], [CancelRead] and
    the addresses only delegate. *)
Definition fwdQuicConn_OpenStream (c : nat) : Eff S (result nat) := acquire ResQuicStream.
Definition fwdQuicConn_AcceptStream (c : nat) : Eff S (result nat) := acquire ResQuicStream.
Definition fwdQuicConn_Close (c : nat) : Eff S (option error) := release ResQuicConn c.
Definition fwdQuicStream_Close (st : nat) : Eff S (option error) := release ResQuicStream st.
Definition fwdQuicStream_CloseWrite (st : nat) : Eff S (option error) := release ResQuicStream st.

(** [Close]; the fields a bring-up leaves set are never nil. *)
Definition ForwardSession_Close (f : ForwardSession) : Eff S (option error) :=
  do e1 <- fwdQuicStream_Close (fs_stream f) ;;
  do e2 <- fwdQuicConn_Close (fs_conn f) ;;
  do e3 <- release ResTransport (fs_transport f) ;;
  do e4 <- release ResUDP (udp (fs_udp f)) ;;
  mret (first_error (first_error (first_error e1 e2) e3) e4).

(** The guard both bring-ups share: a usable grant and a parsed endpoint. *)
Definition check_granted (granted : option AllocGranted) : result (AllocGranted * AddrPort) :=
  match granted with
  | None => Err (ErrorString "session: invalid AllocGranted")
  | Some g =>
      if (ag_MyAllocation g =? 0) || (ag_PeerAllocation g =? 0)
      then Err (ErrorString "session: invalid AllocGranted")
      else match ParseAddrPort (ag_ForwardEndpoint g) with
      | None => Err (ErrorString "session: parse forward endpoint")
      | Some relay => Ok (g, relay)
      end
  end.

Definition new_transport : Eff S nat :=
  fun '(s, t) => (length t, (s, t ++ [EvAcquire ResTransport (length t)])).

Definition DialForward (granted : option AllocGranted) : Eff S (result ForwardSession) :=
  match check_granted granted with
  | Err e => mret (Err e)
  | Ok (g, relay) =>
      do c <- Dial relay (ag_MyAllocation g) (ag_PeerAllocation g) ;;
      match c with
      | Err e => mret (Err e)
      | Ok c =>
          do tr <- new_transport ;;
          do qc <- acquire ResQuicConn ;;
          match qc with
          | Err e =>
              do_ release ResTransport tr ;;
              do_ release ResUDP (udp c) ;;
              mret (Err (Wrapped "session: forward dial" e))
          | Ok qc =>
              do st <- acquire ResQuicStream ;;
              match st with
              | Err e =>
                  do_ release ResQuicConn qc ;;
                  do_ release ResTransport tr ;;
                  do_ release ResUDP (udp c) ;;
                  mret (Err (Wrapped "session: forward open stream" e))
              | Ok st => mret (Ok (mkForward qc st tr c))
              end
          end
      end
  end.

Definition AcceptForward (granted : option AllocGranted) : Eff S (result ForwardSession) :=
  match check_granted granted with
  | Err e => mret (Err e)
  | Ok (g, relay) =>
      do c <- Dial relay (ag_MyAllocation g) (ag_PeerAllocation g) ;;
      match c with
      | Err e => mret (Err e)
      | Ok c =>
          do tr <- new_transport ;;
          do ln <- acquire ResListener ;;
          match ln with
          | Err e =>
              do_ release ResTransport tr ;;
              do_ release ResUDP (udp c) ;;
              mret (Err (Wrapped "session: forward listen" e))
          | Ok ln =>
              do qc <- acquire ResQuicConn ;;
              match qc with
              | Err e =>
                  do_ release ResTransport tr ;;
                  do_ release ResUDP (udp c) ;;
                  do_ release ResListener ln ;;   (* deferred *)
                  mret (Err (Wrapped "session: forward accept conn" e))
              | Ok qc =>
                  do st <- acquire ResQuicStream ;;
                  match st with
                  | Err e =>
                      do_ release ResQuicConn qc ;;
                      do_ release ResTransport tr ;;
                      do_ release ResUDP (udp c) ;;
                      do_ release ResListener ln ;;
                      mret (Err (Wrapped "session: forward accept stream" e))
                  | Ok st =>
                      do_ release ResListener ln ;;
                      mret (Ok (mkForward qc st tr c))
                  end
              end
          end
      end
  end.
End ForwardSession.

(** ** Facts: the wire format *)
Lemma land255 z : Z.land z 255 = z mod 256.
Proof. change 255 with (Z.ones 8). by rewrite Z.land_ones by lia. Qed.

Lemma be32_decode_app z p :
  0 <= z < 2 ^ 32 -> be32_decode (be32 z ++ p) = Some z.
Proof.
  intros Hz. unfold be32, be32_decode. cbn [app]. rewrite !land255.
  rewrite !Z.shiftr_div_pow2 by lia. f_equal.
  change (2 ^ 32) with 4294967296 in Hz. change (2 ^ 24) with 16777216.
  change (2 ^ 16) with 65536. change (2 ^ 8) with 256.
  Z.div_mod_to_equations. lia.
Qed.

Lemma be32_bytes z : Forall (fun b => 0 <= b < 256) (be32 z).
Proof. unfold be32. rewrite !land255. repeat constructor; apply Z.mod_pos_bound; lia. Qed.

Lemma plane_parse_forward alloc p :
  0 < alloc < 2 ^ 32 -> plane_parse (be32 alloc ++ p) = PlaneForward alloc p.
Proof.
  intros Ha. unfold plane_parse. rewrite be32_decode_app by lia.
  destruct alloc; try lia. done.
Qed.

Lemma plane_parse_register alloc :
  0 <= alloc < 2 ^ 32 -> plane_parse (be32 0 ++ be32 alloc) = PlaneRegister alloc.
Proof.
  intros Ha. unfold plane_parse. rewrite be32_decode_app by lia. cbn [drop be32 app].
  change [_; _; _; _] with (be32 alloc). rewrite <- (app_nil_r (be32 alloc)).
  by rewrite be32_decode_app by lia.
Qed.

(** ** Facts: resources in use *)
Definition live_step (l : list (resource * nat)) (e : event) : list (resource * nat) :=
  match e with
  | EvAcquire k id => l ++ [(k, id)]
  | EvRelease k id _ => filter (fun x => x <> (k, id)) l
  | _ => l
  end.

(** Acquired and not released, in the order of acquisition. *)
Definition live (t : trace) : list (resource * nat) := foldl live_step [] t.

(** Names in use are older than the present. *)
Definition live_old (t : trace) : Prop := Forall (fun x => (snd x < length t)%nat) (live t).

Lemma live_app t es : live (t ++ es) = foldl live_step (live t) es.
Proof. apply foldl_app. Qed.

Lemma live_release_fresh t k id :
  live_old t -> (length t <= id)%nat -> filter (fun x => x <> (k, id)) (live t) = live t.
Proof.
  intros Ho Hid. induction Ho as [|x l Hx Ho IH]; [done|].
  rewrite filter_cons_True; [by rewrite IH|]. intros ->. cbn in Hx. lia.
Qed.

(** Run a bring-up to its end and read off what is still in use. *)
#[local] Ltac run_forward :=
  unfold Dial, register, new_transport, acquire, release, Datagram, mbind, mret in *; cbn in *;
  repeat (case_match; simplify_eq/=; try done);
  rewrite <- ?app_assoc; cbn [app].

#[local] Ltac live_simpl :=
  rewrite ?live_app; cbn [foldl live_step];
  repeat (rewrite ?filter_app, ?filter_cons, ?filter_nil; repeat case_decide; simplify_eq/=);
  rewrite ?live_release_fresh by (done || rewrite ?length_app; cbn; lia);
  rewrite <- ?app_assoc, ?app_nil_r; cbn [app].

Definition fs_resources (f : ForwardSession) : list (resource * nat) :=
  [(ResUDP, udp (fs_udp f)); (ResTransport, fs_transport f);
   (ResQuicConn, fs_conn f); (ResQuicStream, fs_stream f)].

Lemma DialForward_live `{Net} {S} granted (s : S) t r s' t' :
  live_old t -> DialForward granted (s, t) = (r, (s', t')) ->
  live t' = live t ++ match r with Ok f => fs_resources f | Err _ => [] end.
Proof.
  intros Ho. unfold DialForward. destruct (check_granted granted) as [[g rl]|e];
    [|intros [= <- <- <-]; by rewrite app_nil_r].
  intros Hrun. run_forward; live_simpl; try done.
Qed.

Lemma AcceptForward_live `{Net} {S} granted (s : S) t r s' t' :
  live_old t -> AcceptForward granted (s, t) = (r, (s', t')) ->
  live t' = live t ++ match r with Ok f => fs_resources f | Err _ => [] end.
Proof.
  intros Ho. unfold AcceptForward. destruct (check_granted granted) as [[g rl]|e];
    [|intros [= <- <- <-]; by rewrite app_nil_r].
  intros Hrun. run_forward; live_simpl; try done.
Qed.

Lemma Close_run `{Net} {S} f (s : S) t :
  exists e1 e2 e3 e4,
    ForwardSession_Close f (s, t) =
      (first_error (first_error (first_error e1 e2) e3) e4,
       (s, t ++ [EvRelease ResQuicStream (fs_stream f) e1; EvRelease ResQuicConn (fs_conn f) e2;
                 EvRelease ResTransport (fs_transport f) e3;
                 EvRelease ResUDP (udp (fs_udp f)) e4])).
Proof.
  unfold ForwardSession_Close, fwdQuicStream_Close, fwdQuicConn_Close, release, mbind, mret. cbn.
  do 4 eexists.
  by rewrite <- !app_assoc.
Qed.

(** ** Properties *)

(** C35. The datagrams of a forward-mode connection: [Dial] announces exactly
    its own allocation, and every later [WriteTo], whatever address quic-go
    passes, goes to the relay as a packet the plane forwards to the peer's
    allocation with the payload unchanged; it can never be mistaken for a
    registration, and success is reported as [len(p)] payload bytes. *)
Theorem forward_framing `{Net} {S} relay_ my peer (s : S) t c s' t' :
  0 <= my < 2 ^ 32 -> 0 <= peer < 2 ^ 32 ->
  Dial relay_ my peer (s, t) = (Ok c, (s', t')) ->
  (exists pkt, t' = t ++ [EvAcquire ResUDP (length t); EvDatagram (length t) pkt relay_ None] /\
     plane_parse pkt = PlaneRegister my) /\
  (forall p addr (s1 : S) t1 r s2 t2, WriteTo c p addr (s1, t1) = (r, (s2, t2)) ->
     exists pkt e, t2 = t1 ++ [EvDatagram (length t) pkt relay_ e] /\
       plane_parse pkt = PlaneForward peer p /\
       r = match e with None => Ok (Z.of_nat (length p)) | Some e => Err e end).
Proof.
  intros Hm Hp. unfold Dial.
  destruct (Z.eqb_spec my 0); cbn [orb]; [done|].
  destruct (Z.eqb_spec peer 0); cbn [orb]; [done|].
  unfold register, acquire, Datagram, mbind, mret. cbn -[be32].
  destruct (net_acquire t ResUDP); cbn -[be32]; [done|].
  destruct (net_datagram _ _ _ _) eqn:Ed; cbn -[be32]; [done|]. intros [= <- <- <-]. split.
  - eexists. rewrite <- app_assoc. split; [done|]. by apply plane_parse_register.
  - intros p addr s1 t1 r s2 t2. unfold WriteTo, Datagram, mbind, mret. cbn -[be32].
    intros [= <- <- <-]. do 2 eexists. split; [done|]. split; [|done].
    apply plane_parse_forward. lia.
Qed.

Lemma forward_framing_witness :
  exists pkt, plane_parse pkt = PlaneRegister 5.
Proof.
  destruct (proj1 (@forward_framing (demo_net (fun _ _ => mkFrame FrameTypeHello [])) unit
    (mkAddrPort (Addr4 0x0a000001) 9000) 5 6 tt [] _ tt _
    ltac:(lia) ltac:(lia) eq_refl)) as (pkt & _ & H).
  by exists pkt.
Defined.

(** No bring-up leaks: whichever step of [DialForward] or [AcceptForward]
    fails, everything acquired on the way has been released; on success
    exactly the socket, transport, connection and stream of the returned
    session are in use (the provider's listener is closed). *)
Theorem forward_bringup_no_leak `{Net} {S} granted (s : S) t :
  live_old t ->
  (let '(r, (_, t')) := DialForward granted (s, t) in
   live t' = live t ++ match r with Ok f => fs_resources f | Err _ => [] end) /\
  (let '(r, (_, t')) := AcceptForward granted (s, t) in
   live t' = live t ++ match r with Ok f => fs_resources f | Err _ => [] end).
Proof.
  intros Ho. split.
  - destruct (DialForward granted (s, t)) as [r [s' t']] eqn:E. by apply (DialForward_live _ _ _ _ _ _ Ho E).
  - destruct (AcceptForward granted (s, t)) as [r [s' t']] eqn:E. by apply (AcceptForward_live _ _ _ _ _ _ Ho E).
Qed.

Lemma forward_bringup_no_leak_witness :
  let N := demo_net (fun _ _ => mkFrame FrameTypeHello []) in
  let g := Some (mkGranted 1 5 6 "10.0.0.1:9000") in
  live (snd (snd (@AcceptForward N unit g (tt, [])))) =
    [(ResUDP, 0%nat); (ResTransport, 2%nat); (ResQuicConn, 4%nat); (ResQuicStream, 5%nat)].
Proof.
  exact (proj2 (@forward_bringup_no_leak (demo_net (fun _ _ => mkFrame FrameTypeHello [])) unit
    (Some (mkGranted 1 5 6 "10.0.0.1:9000")) tt [] ltac:(constructor))).
Defined.

(** [ForwardSession.Close] releases everything the session owns, in the
    order stream, connection, transport, socket, even when some of them fail,
    and reports the first error. *)
Theorem forward_close_releases `{Net} {S} f (s : S) t :
  let '(r, (_, t')) := ForwardSession_Close f (s, t) in
  exists e1 e2 e3 e4,
    t' = t ++ [EvRelease ResQuicStream (fs_stream f) e1; EvRelease ResQuicConn (fs_conn f) e2;
               EvRelease ResTransport (fs_transport f) e3;
               EvRelease ResUDP (udp (fs_udp f)) e4] /\
    r = head (omap id [e1; e2; e3; e4]) /\
    Forall (fun x => x ∉ fs_resources f) (live t').
Proof.
  destruct (Close_run f s t) as (e1 & e2 & e3 & e4 & ->).
  exists e1, e2, e3, e4. split; [done|]. split; [by destruct e1, e2, e3, e4|].
  rewrite live_app. cbn [foldl live_step]. apply Forall_forall. intros x.
  rewrite !list_elem_of_filter. intros (H1 & H2 & H3 & H4 & _).
  unfold fs_resources. rewrite !elem_of_cons, elem_of_nil. intuition.
Qed.
