(* ===== verification/Session.v ===== *)
(** * [Session]: connection, streams and resume ([pkg/session/session.go])

    The session struct with its handler and stream maps.  Stream wrappers are
    shared by pointer between the [streams] map, bridges and callers, so they
    live in a store and the map holds references: [forgetStream] and [Close]
    act on the wrapper that is registered, which need not be the one the
    caller holds.  Every call on a connection, stream, frame or handler is an
    event of the trace. *)

From S2P Require Import Prelude Netip Orp Tls Resume StreamSwap Waiters Forward.

Local Open Scope agent_scope.

Section Session.
Context `{N : Net} `{L : ResumeLib}.

(** [ResumableStream] with its [owner] implicit. *)
Record ResumableStream : Type := mkRS { rs_state : State; rs_guarded : guarded }.

Record Session : Type := mkSession {
  s_conn : conn;
  s_ctrl : stream;
  s_agentURI : string;
  s_handlers : gmap string nat;
  s_streams : gmap Z nat;             (* stream id -> wrapper *)
  s_dialer : option dialer;
  s_reconnecting : bool;
  s_forwardServerTLS : option tlsConfig;
  s_p2p : P2P;
  s_store : gmap nat ResumableStream; (* every wrapper ever made *)
  s_chans : chans;
  s_next : nat
}.

(** Field updates. *)
Definition set_transport (c : conn) (ct : stream) (s : Session) : Session :=
  mkSession c ct (s_agentURI s) (s_handlers s) (s_streams s) (s_dialer s) (s_reconnecting s)
    (s_forwardServerTLS s) (s_p2p s) (s_store s) (s_chans s) (s_next s).
Definition set_handlers (hs : gmap string nat) (s : Session) : Session :=
  mkSession (s_conn s) (s_ctrl s) (s_agentURI s) hs (s_streams s) (s_dialer s) (s_reconnecting s)
    (s_forwardServerTLS s) (s_p2p s) (s_store s) (s_chans s) (s_next s).
Definition set_streams (m : gmap Z nat) (s : Session) : Session :=
  mkSession (s_conn s) (s_ctrl s) (s_agentURI s) (s_handlers s) m (s_dialer s) (s_reconnecting s)
    (s_forwardServerTLS s) (s_p2p s) (s_store s) (s_chans s) (s_next s).
Definition set_reconnecting (b : bool) (s : Session) : Session :=
  mkSession (s_conn s) (s_ctrl s) (s_agentURI s) (s_handlers s) (s_streams s) (s_dialer s) b
    (s_forwardServerTLS s) (s_p2p s) (s_store s) (s_chans s) (s_next s).
Definition set_p2p (p : P2P) (s : Session) : Session :=
  mkSession (s_conn s) (s_ctrl s) (s_agentURI s) (s_handlers s) (s_streams s) (s_dialer s)
    (s_reconnecting s) (s_forwardServerTLS s) p (s_store s) (s_chans s) (s_next s).
Definition set_store (st : gmap nat ResumableStream) (h : chans) (s : Session) : Session :=
  mkSession (s_conn s) (s_ctrl s) (s_agentURI s) (s_handlers s) (s_streams s) (s_dialer s)
    (s_reconnecting s) (s_forwardServerTLS s) (s_p2p s) st h (s_next s).

Definition SetForwardServerTLS (c : option tlsConfig) (s : Session) : Session :=
  mkSession (s_conn s) (s_ctrl s) (s_agentURI s) (s_handlers s) (s_streams s) (s_dialer s)
    (s_reconnecting s) c (s_p2p s) (s_store s) (s_chans s) (s_next s).

Definition forwardTLS (s : Session) : option tlsConfig := s_forwardServerTLS s.

Definition modify (f : Session -> Session) : Eff Session unit :=
  fun '(s, t) => (tt, (f s, t)).

(** ** Dialing *)
Definition new_session (c : conn) (ct : stream) (uri : string) (d : dialer) : Session :=
  mkSession c ct uri ∅ ∅ (Some d) false None p2p_new ∅ (mkChans 0 ∅) 0.

Definition DialWithDialer {S} (d : dialer) (addr uri : string) : Eff S (result Session) :=
  do c <- Dialer_Dial d addr ;;
  match c with
  | Err e => mret (Err e)
  | Ok c =>
      do ct <- Conn_OpenStream c ;;
      match ct with
      | Err e => do_ Conn_Close c ;; mret (Err (Wrapped "session: open ctrl" e))
      | Ok ct =>
          do w <- WriteFrame ct FrameTypeHello (MHello "orp/1" uri) ;;
          match w with
          | Err e => do_ Conn_Close c ;; mret (Err (Wrapped "session: send HELLO" e))
          | Ok _ =>
              do f <- ParseFrame ct ;;
              match f with
              | Err e => do_ Conn_Close c ;; mret (Err (Wrapped "session: read HELLO_ACK" e))
              | Ok f =>
                  match unmarshal_HelloAck f with
                  | Err e => do_ Conn_Close c ;; mret (Err e)
                  | Ok _ => mret (Ok (new_session c ct uri d))
                  end
              end
          end
      end
  end.

(** The package function [Dial]. *)
Definition DialRelay {S} (addr uri : string) : Eff S (result Session) :=
  DialWithDialer DefaultDialer addr uri.

Definition or_first (firstErr : option error) (e : error) : option error :=
  match firstErr with Some _ => firstErr | None => Some e end.

Fixpoint dialAny_loop {S} (addrs : list string) (uri : string) (firstErr : option error)
    : Eff S (result Session) :=
  match addrs with
  | [] =>
      mret (Err (Wrapped "session: all relay endpoints failed"
                   (default (ErrorString "nil") firstErr)))
  | addr :: addrs' =>
      do r <- DialRelay addr uri ;;
      match r with
      | Ok s => mret (Ok s)
      | Err e => dialAny_loop addrs' uri (or_first firstErr e)
      end
  end.

Definition DialAny {S} (addrs : list string) (uri : string) : Eff S (result Session) :=
  match addrs with
  | [] => mret (Err (ErrorString "session: no relay addresses"))
  | _ => dialAny_loop addrs uri None
  end.

Definition Session_Close {S} (s : Session) : Eff S unit := Conn_Close (s_conn s).

(** The collecting loop of [DialAnyHappy]: [arrivals] lists the addresses in
    the order in which their concurrent attempts complete. *)
Fixpoint happy_loop {S} (d : dialer) (uri : string) (arrivals : list string)
    (winner : option Session) (firstErr : option error)
    : Eff S (option Session * option error) :=
  match arrivals with
  | [] => mret (winner, firstErr)
  | addr :: rest =>
      do r <- DialWithDialer d addr uri ;;
      match r, winner with
      | Ok s, None => happy_loop d uri rest (Some s) firstErr
      | Ok s, Some _ => do_ Session_Close s ;; happy_loop d uri rest winner firstErr
      | Err e, _ => happy_loop d uri rest winner (or_first firstErr e)
      end
  end.

Definition DialAnyHappy {S} (d : dialer) (addrs arrivals : list string) (uri : string)
    : Eff S (result Session) :=
  match addrs with
  | [] => mret (Err (ErrorString "session: no relay addresses"))
  | [addr] => DialWithDialer d addr uri
  | _ =>
      do r <- happy_loop d uri arrivals None None ;;
      match r with
      | (Some s, _) => mret (Ok s)
      | (None, e) =>
          mret (Err (Wrapped "session: all relay endpoints failed"
                       (default (ErrorString "nil") e)))
      end
  end.

(** ** Services *)
Definition Expose (name localAddr : string) (h : nat) : Eff Session (option error) :=
  do_ modify (fun s => set_handlers (<[name := h]> (s_handlers s)) s) ;;
  do s <- get ;;
  do w <- WriteFrame (s_ctrl s) FrameTypeRegister (MRegister name localAddr) ;;
  match w with
  | Err e => mret (Some (Wrapped "session: send REGISTER" e))
  | Ok _ =>
      do f <- ParseFrame (s_ctrl s) ;;
      match f with
      | Err e => mret (Some (Wrapped "session: read REGISTER_ACK" e))
      | Ok f =>
          if bool_decide (f_Type f = FrameTypeRegisterAck) then mret None
          else mret (Some (ErrorString "session: expected REGISTER_ACK"))
      end
  end.

(** ** Stream wrappers *)

(** [wrapStream]; the reference of the new wrapper. *)
Definition wrapStream (id : Z) (inner : stream) : Eff Session nat :=
  fun '(s, t) =>
    let r := s_next s in
    let '(g, h) := new_guarded inner (s_chans s) in
    let rs := mkRS (NewState id 0) g in
    (r, (mkSession (s_conn s) (s_ctrl s) (s_agentURI s) (s_handlers s)
           (<[id := r]> (s_streams s)) (s_dialer s) (s_reconnecting s) (s_forwardServerTLS s)
           (s_p2p s) (<[r := rs]> (s_store s)) h (S r), t)).

(** [rs.markAbandoned()] on the wrapper [r]. *)
Definition rs_markAbandoned (r : nat) : Eff Session unit :=
  fun '(s, t) =>
    match s_store s !! r with
    | None => (tt, (s, t))
    | Some rs =>
        match markAbandoned (rs_guarded rs) (s_chans s) with
        | None => (tt, (s, t ++ [EvPanic]))
        | Some (g, h) =>
            (tt, (set_store (<[r := mkRS (rs_state rs) g]> (s_store s)) h s, t))
        end
    end.

Definition forgetStream (id : Z) : Eff Session unit :=
  do s <- get ;;
  do_ modify (fun s => set_streams (delete id (s_streams s)) s) ;;
  match s_streams s !! id with
  | Some r => rs_markAbandoned r
  | None => mret tt
  end.

(** [ResumableStream.Close]. *)
Definition rs_Close (r : nat) : Eff Session unit :=
  do s <- get ;;
  match s_store s !! r with
  | None => mret tt
  | Some rs =>
      do_ forgetStream (ID (rs_state rs)) ;;
      do_ rs_markAbandoned r ;;
      Stream_Close (g_inner (rs_guarded rs))
  end.

(** [ResumableStream.SwapInner]. *)
Definition rs_SwapInner (r : nat) (st : stream) : Eff Session unit :=
  fun '(s, t) =>
    match s_store s !! r with
    | None => (tt, (s, t))
    | Some rs =>
        match SwapInner st (rs_guarded rs) (s_chans s) with
        | None =>
            (* the new stream is in place when [close] panics *)
            let '(_, (g, h)) := swap_section st (rs_guarded rs) (s_chans s) in
            (tt, (set_store (<[r := mkRS (rs_state rs) g]> (s_store s)) h s, t ++ [EvPanic]))
        | Some (old, g, h) =>
            (tt, (set_store (<[r := mkRS (rs_state rs) g]> (s_store s)) h s,
                  t ++ [EvCancelRead old]))
        end
    end.

(** [ResumableStream.CloseWrite]; [has_cw] says which streams implement the
    [CloseWrite] interface. *)
Definition rs_CloseWrite (has_cw : stream -> bool) (r : nat) : Eff Session unit :=
  do s <- get ;;
  match s_store s !! r with
  | None => mret tt
  | Some rs =>
      let inner := g_inner (rs_guarded rs) in
      if has_cw inner then Stream_CloseWrite inner else Stream_Close inner
  end.

(** [freshStreamID]; [None] when the fuel is used up. *)
Fixpoint freshStreamID (fuel : nat) (target method : string) : Eff Session (option Z) :=
  match fuel with
  | O => mret None
  | S fuel' =>
      do s <- get ;;
      do id <- NewStreamID (s_agentURI s) target method ;;
      do s <- get ;;
      match s_streams s !! id with
      | None => mret (Some id)
      | Some _ => freshStreamID fuel' target method
      end
  end.

(** The method [Session.Dial]. *)
Definition Session_Dial (fuel : nat) (target method : string)
    : Eff Session (option (result nat)) :=
  do s <- get ;;
  do st <- Conn_OpenStream (s_conn s) ;;
  match st with
  | Err e => mret (Some (Err e))
  | Ok st =>
      do id <- freshStreamID fuel target method ;;
      match id with
      | None => mret None
      | Some id =>
          do s <- get ;;
          let ena := p2pEnabled (s_p2p s) in
          do_ (if ena then modify (fun s => set_p2p (snd (RegisterStreamModeWaiter id (s_p2p s))) s)
               else mret tt) ;;
          do w <- WriteFrame st FrameTypeOpenStream (MOpenStream target method id) ;;
          match w with
          | Err e =>
              do_ (if ena then modify (fun s => set_p2p (CancelStreamModeWaiter id (s_p2p s)) s)
                   else mret tt) ;;
              do_ Stream_Close st ;;
              mret (Some (Err (Wrapped "session: send OPEN_STREAM" e)))
          | Ok _ =>
              do r <- wrapStream id st ;;
              mret (Some (Ok r))
          end
      end
  end.

(** ** Resume *)
Definition resume_message (st : State) : StreamResume :=
  let '(myPos, peerAck) := ResumePayload st in
  mkResume (uint64 (ID st)) (uint64 myPos) (uint64 peerAck).

Definition completeResume (st0 : State) (st : stream) : Eff Session (option error) :=
  do f <- ParseFrame st ;;
  match f with
  | Err e => mret (Some (Wrapped "session: read peer STREAM_RESUME" e))
  | Ok f =>
      match unmarshal_StreamResume f with
      | Err e => mret (Some e)
      | Ok peer =>
          if negb (sr_StreamId peer =? uint64 (ID st0)) then
            mret (Some (ErrorString "session: peer STREAM_RESUME stream_id mismatch"))
          else
            match RetransmitFrom st0 (int64 (sr_PeerAckPosition peer)) with
            | Err e => mret (Some (Wrapped "session: retransmit gap unavailable" e))
            | Ok gap =>
                if (0 <? length gap)%nat then
                  do w <- Stream_Write st gap ;;
                  mret match snd w with
                       | Some e => Some (Wrapped "session: retransmit write" e)
                       | None => None
                       end
                else mret None
            end
      end
  end.

Definition Resume (r : nat) : Eff Session (option error) :=
  do s <- get ;;
  match s_store s !! r with
  | None => do_ emit EvPanic ;; mret None
  | Some rs =>
      do st <- Conn_OpenStream (s_conn s) ;;
      match st with
      | Err e => mret (Some (Wrapped "session: open resume stream" e))
      | Ok st =>
          do w <- WriteFrame st FrameTypeStreamResume
                    (MStreamResume (resume_message (rs_state rs))) ;;
          match w with
          | Err e =>
              do_ Stream_Close st ;; mret (Some (Wrapped "session: send STREAM_RESUME" e))
          | Ok _ =>
              do e <- completeResume (rs_state rs) st ;;
              match e with
              | Some e => do_ Stream_Close st ;; mret (Some e)
              | None => do_ rs_SwapInner r st ;; mret None
              end
          end
      end
  end.

Definition SwapConn (c : conn) (s : Session) : Session := set_transport c (s_ctrl s) s.

(** ** Reconnect *)

(** The dial loop: the first endpoint that completes HELLO, or the first dial
    error.  A failure after the dial only moves on. *)
Fixpoint redial (d : dialer) (uri : string) (addrs : list string) (dialErr : option error)
    : Eff Session (result (conn * stream)) :=
  match addrs with
  | [] =>
      mret (Err (default (ErrorString "session: all relay endpoints failed") dialErr))
  | addr :: addrs' =>
      do c <- Dialer_Dial d addr ;;
      match c with
      | Err e => redial d uri addrs' (or_first dialErr e)
      | Ok c =>
          do ct <- Conn_OpenStream c ;;
          match ct with
          | Err _ => do_ Conn_Close c ;; redial d uri addrs' dialErr
          | Ok ct =>
              do w <- WriteFrame ct FrameTypeHello (MHello "orp/1" uri) ;;
              match w with
              | Err _ => do_ Conn_Close c ;; redial d uri addrs' dialErr
              | Ok _ =>
                  do f <- ParseFrame ct ;;
                  match f with
                  | Err _ => do_ Conn_Close c ;; redial d uri addrs' dialErr
                  | Ok f =>
                      match unmarshal_HelloAck f with
                      | Err _ => do_ Conn_Close c ;; redial d uri addrs' dialErr
                      | Ok _ => mret (Ok (c, ct))
                      end
                  end
              end
          end
      end
  end.

(** Replay REGISTER for the exposed services; the replay carries no local
    address. *)
Fixpoint reregister (ctrl : stream) (names : list string) : Eff Session (option error) :=
  match names with
  | [] => mret None
  | name :: names' =>
      do w <- WriteFrame ctrl FrameTypeRegister (MRegister name "") ;;
      match w with
      | Err e => mret (Some (Wrapped "session: re-register" e))
      | Ok _ =>
          do f <- ParseFrame ctrl ;;
          match f with
          | Err e => mret (Some (Wrapped "session: read REGISTER_ACK" e))
          | Ok f =>
              if bool_decide (f_Type f = FrameTypeRegisterAck) then reregister ctrl names'
              else mret (Some (ErrorString "session: expected REGISTER_ACK"))
          end
      end
  end.

(** [ActiveStreams], in Go's map order. *)
Definition ActiveStreams : Eff Session (list nat) :=
  do s <- get ;; map_order (map snd (map_to_list (s_streams s))).

Definition wrapper_id (r : nat) (s : Session) : Z :=
  match s_store s !! r with Some rs => ID (rs_state rs) | None => 0 end.

Fixpoint resume_all (rs : list nat) : Eff Session unit :=
  match rs with
  | [] => mret tt
  | r :: rs' =>
      do e <- Resume r ;;
      do_ match e with
          | Some _ => do s <- get ;; forgetStream (wrapper_id r s)
          | None => mret tt
          end ;;
      resume_all rs'
  end.

Definition Reconnect (addrs : list string) : Eff Session (option error) :=
  match addrs with
  | [] => mret (Some (ErrorString "session: Reconnect requires at least one addr"))
  | _ =>
      do s <- get ;;
      do_ Conn_Close (s_conn s) ;;
      do r <- redial (default DefaultDialer (s_dialer s)) (s_agentURI s) addrs None ;;
      match r with
      | Err e => mret (Some e)
      | Ok (c, ct) =>
          do_ modify (set_transport c ct) ;;
          do s <- get ;;
          do exposed <- map_order (map fst (map_to_list (s_handlers s))) ;;
          do e <- reregister (s_ctrl s) exposed ;;
          match e with
          | Some e => mret (Some e)
          | None =>
              do streams <- ActiveStreams ;;
              do_ resume_all streams ;;
              mret None
          end
      end
  end.

(** ** The accept loop and the reconnect loop *)
Definition Second : Z := 1000000000.
Definition maxBackoff : Z := 30 * Second.

Definition next_backoff (backoff : Z) : Z :=
  if backoff <? maxBackoff then
    let b := backoff * 2 in if b >? maxBackoff then maxBackoff else b
  else backoff.

(** [Run]: [None] when the fuel is used up, [Some e] with Go's returned error. *)
Fixpoint Run (fuel : nat) : Eff Session (option (option error)) :=
  match fuel with
  | O => mret None
  | S fuel' =>
      do s <- get ;;
      do st <- Conn_AcceptStream (s_conn s) ;;
      match st with
      | Err e =>
          if errors_Is e Canceled then mret (Some None)
          else mret (Some (Some (Wrapped "session: accept" e)))
      | Ok _ => do_ emit (EvSpawn "handleIncoming") ;; Run fuel'
      end
  end.

(** The inner loop of [RunWithReconnect]: [Some true] when reconnected, [Some
    false] when the context ended the wait. *)
Fixpoint reconnect_loop (fuel : nat) (addrs : list string) (backoff : Z)
    : Eff Session (option bool) :=
  match fuel with
  | O => mret None
  | S fuel' =>
      do e <- Reconnect addrs ;;
      match e with
      | None =>
          do s <- get ;;
          do_ (if restartControlReaderIfEnabled (s_p2p s) then emit (EvSpawn "controlReader")
               else mret tt) ;;
          mret (Some true)
      | Some _ =>
          do done_ <- sleep backoff ;;
          if done_ : bool then mret (Some false)
          else reconnect_loop fuel' addrs (next_backoff backoff)
      end
  end.

Fixpoint RunWithReconnect (fuel : nat) (addrs : list string)
    : Eff Session (option (option error)) :=
  match fuel with
  | O => mret None
  | S fuel' =>
      do r <- Run fuel' ;;
      match r with
      | None => mret None
      | Some None => mret (Some None)
      | Some (Some e) =>
          if errors_Is e Canceled then mret (Some None)
          else
            do_ modify (set_reconnecting true) ;;
            do ok <- reconnect_loop fuel' addrs Second ;;
            match ok with
            | None => mret None
            | Some false => do_ modify (set_reconnecting false) ;; mret (Some None)
            | Some true => do_ modify (set_reconnecting false) ;; RunWithReconnect fuel' addrs
            end
      end
  end.

(** ** Incoming streams *)

(** [WaitForStreamMode] while other goroutines perform [ops] on the waiters;
    [timeout] when the 5 s context fires first. *)
Definition wait_mode (id : Z) (ops : list p2p_op) (timeout : bool) : Eff Session streamModeNotice :=
  fun '(s, t) =>
    let p := apply_ops ops (s_p2p s) in
    match WaitForStreamMode id timeout p with
    | Some (n, p') => (n, (set_p2p p' s, t))
    | None =>
        match WaitForStreamMode id true p with
        | Some (n, p') => (n, (set_p2p p' s, t))
        | None => (None, (set_p2p p s, t))
        end
    end.

Definition bridge_wrapped (r : nat) (st : stream) (b : backend) : Eff Session unit :=
  do_ emit (EvBridge st b) ;;
  do_ rs_Close r ;;
  Backend_Close b.

(** The end of [handleIncoming]: forward mode when the relay granted
    allocations and a TLS configuration is set, the relayed stream otherwise. *)
Definition serve (r : nat) (st : stream) (b : backend) (granted : streamModeNotice)
    : Eff Session unit :=
  do s <- get ;;
  match granted with
  | None => bridge_wrapped r st b
  | Some g =>
      match forwardTLS s with
      | None => bridge_wrapped r st b
      | Some _ =>
          do fs <- AcceptForward (Some g) ;;
          match fs with
          | Err _ => Backend_Close b
          | Ok fs =>
              do_ emit (EvBridgeForward (fs_stream fs) b) ;;
              do_ release ResQuicStream (fs_stream fs) ;;
              do_ Backend_Close b ;;
              do_ ForwardSession_Close fs ;;
              mret tt
          end
      end
  end.

Definition handleIncoming (st : stream) (ops : list p2p_op) (timeout : bool)
    : Eff Session unit :=
  do f <- ParseFrame st ;;
  match f with
  | Err _ => Stream_Close st
  | Ok f =>
      if negb (bool_decide (f_Type f = FrameTypeIncomingStream)) then Stream_Close st
      else
        match unmarshal_IncomingStream f with
        | Err _ => Stream_Close st
        | Ok inc =>
            do s <- get ;;
            match s_handlers s !! in_TargetService inc with
            | None =>
                do_ WriteFrame st FrameTypeStreamReject
                      (MStreamReject 404 (inr "no handler"%string)) ;;
                Stream_Close st
            | Some h =>
                do b <- call_handler h inc ;;
                match b with
                | Err e =>
                    do_ WriteFrame st FrameTypeStreamReject (MStreamReject 502 (inl e)) ;;
                    Stream_Close st
                | Ok b =>
                    do s <- get ;;
                    let ena := p2pEnabled (s_p2p s) in
                    let id := in_StreamId inc in
                    do_ (if ena
                         then modify (fun s => set_p2p (snd (RegisterStreamModeWaiter id (s_p2p s))) s)
                         else mret tt) ;;
                    do w <- WriteFrame st FrameTypeStreamAccept MStreamAccept ;;
                    match w with
                    | Err _ =>
                        do_ (if ena
                             then modify (fun s => set_p2p (CancelStreamModeWaiter id (s_p2p s)) s)
                             else mret tt) ;;
                        do_ Backend_Close b ;;
                        Stream_Close st
                    | Ok _ =>
                        do r <- wrapStream id st ;;
                        do granted <-
                          (if ena then wait_mode id ops timeout else mret None) ;;
                        do_ serve r st b granted ;;
                        rs_Close r   (* deferred *)
                    end
                end
            end
        end
  end.

End Session.
