(* ===== verification/SessionInv.v ===== *)
(** * The session invariant

    What every session operation keeps: registered streams refer to wrappers
    of the same id, and each live wrapper has a wake-up channel of its own
    that nobody has closed, so that no operation panics with "close of closed
    channel".  [run_ok] is a small program logic for session code: it carries
    the invariant, the growth of the wrapper store and the absence of panics,
    and leaves a postcondition on the result, the state and the calls made. *)

From S2P Require Import Prelude Orp Resume StreamSwap Waiters Forward Session.

Local Open Scope agent_scope.

Section Invariant.
Context `{N : Net} `{Sp : ResumeSpec}.

Record session_wf (s : Session) : Prop := {
  swf_streams : forall id r, s_streams s !! id = Some r ->
    exists rs, s_store s !! r = Some rs /\ ID (rs_state rs) = id;
  swf_next : forall r, is_Some (s_store s !! r) -> (r < s_next s)%nat;
  swf_closed : forall ch, ch ∈ ch_closed (s_chans s) -> (ch < ch_next (s_chans s))%nat;
  swf_ready : forall r rs ch, s_store s !! r = Some rs ->
    g_resumeReady (rs_guarded rs) = Some ch ->
    (ch < ch_next (s_chans s))%nat /\ (ch ∉ ch_closed (s_chans s));
  swf_distinct : forall r r' rs rs' ch,
    s_store s !! r = Some rs -> s_store s !! r' = Some rs' ->
    g_resumeReady (rs_guarded rs) = Some ch -> g_resumeReady (rs_guarded rs') = Some ch -> r = r';
  swf_live : forall r rs, s_store s !! r = Some rs ->
    g_abandoned (rs_guarded rs) = false -> g_resumeReady (rs_guarded rs) <> None;
  swf_p2p : p2p_wf (s_p2p s)
}.

(** Wrappers are never lost and never change identity. *)
Definition grows (s s' : Session) : Prop :=
  forall r rs, s_store s !! r = Some rs ->
    exists rs', s_store s' !! r = Some rs' /\ ID (rs_state rs') = ID (rs_state rs).

#[export] Instance grows_preorder : PreOrder grows.
Proof.
  split; [by intros s r rs; eauto|].
  intros s1 s2 s3 H12 H23 r rs Hr. destruct (H12 r rs Hr) as (rs2 & H2 & E2).
  destruct (H23 r rs2 H2) as (rs3 & H3 & E3). exists rs3. split; congruence.
Qed.

Definition run_ok {A} (m : Eff Session A) (s : Session)
    (Q : A -> Session -> trace -> Prop) : Prop :=
  forall t, let '(a, (s', t')) := m (s, t) in
    exists ext, t' = t ++ ext /\ session_wf s' /\ grows s s' /\ (EvPanic ∉ ext) /\ Q a s' ext.

(** ** Rules *)
Lemma run_ret {A} (a : A) s (Q : A -> Session -> trace -> Prop) :
  session_wf s -> Q a s [] -> run_ok (mret a) s Q.
Proof.
  intros Hwf HQ t. exists []. rewrite app_nil_r. split_and!; try done. apply not_elem_of_nil.
Qed.

Lemma run_bind {A B} (m : Eff Session A) (k : A -> Eff Session B) s Q1 Q :
  run_ok m s Q1 ->
  (forall a s' ext, session_wf s' -> grows s s' -> Q1 a s' ext ->
    run_ok (k a) s' (fun b s'' ext' => Q b s'' (ext ++ ext'))) ->
  run_ok (mbind m k) s Q.
Proof.
  intros Hm Hk t. unfold mbind. specialize (Hm t).
  destruct (m (s, t)) as [a [s' t']]. destruct Hm as (ext & -> & Hwf & Hg & Hp & HQ1).
  specialize (Hk a s' ext Hwf Hg HQ1 (t ++ ext)).
  destruct (k a (s', t ++ ext)) as [b [s'' t'']]. destruct Hk as (ext' & -> & Hwf' & Hg' & Hp' & HQ).
  exists (ext ++ ext'). rewrite app_assoc. split_and!; try done.
  - by etrans.
  - by rewrite not_elem_of_app.
Qed.

Lemma run_mono {A} (m : Eff Session A) s (Q Q' : A -> Session -> trace -> Prop) :
  run_ok m s Q -> (forall a s' ext, Q a s' ext -> Q' a s' ext) -> run_ok m s Q'.
Proof.
  intros Hm HQ t. specialize (Hm t). destruct (m (s, t)) as [a [s' t']].
  destruct Hm as (ext & ? & ? & ? & ? & ?). eauto 10.
Qed.

Lemma run_get s Q : session_wf s -> Q s s [] -> run_ok get s Q.
Proof.
  intros Hwf HQ t. exists []. rewrite app_nil_r. split_and!; try done. apply not_elem_of_nil.
Qed.

Lemma run_modify f s Q :
  session_wf (f s) -> grows s (f s) -> Q tt (f s) [] -> run_ok (modify f) s Q.
Proof.
  intros Hwf Hg HQ t. exists []. rewrite app_nil_r. split_and!; try done. apply not_elem_of_nil.
Qed.

(** A call that only adds one event to the trace. *)
Definition one_event {A} (s : Session) (ev : A -> event) (a : A) (s' : Session) (ext : trace) : Prop :=
  s' = s /\ ext = [ev a].

Lemma run_call {A} (m : Eff Session A) (ev : A -> event) s :
  session_wf s -> (forall a, ev a <> EvPanic) ->
  (forall t, exists a, m (s, t) = (a, (s, t ++ [ev a]))) ->
  run_ok m s (one_event s ev).
Proof.
  intros Hwf Hev Hm t. destruct (Hm t) as [a ->]. exists [ev a]. split_and!; try done.
  rewrite list_elem_of_singleton. by intros Heq; destruct (Hev a).
Qed.

Lemma run_emit e s : session_wf s -> e <> EvPanic -> run_ok (emit e) s (one_event s (fun _ => e)).
Proof. intros Hwf He. apply run_call; try done. by eexists. Qed.

Lemma run_open c s :
  session_wf s -> run_ok (Conn_OpenStream c) s (one_event s (EvOpenStream c)).
Proof. intros Hwf. apply run_call; try done. by eexists. Qed.

Lemma run_write_frame st typ m s :
  session_wf s -> run_ok (WriteFrame st typ m) s (one_event s (EvWriteFrame st typ m)).
Proof. intros Hwf. apply run_call; try done. by eexists. Qed.

Lemma run_parse st s : session_wf s -> run_ok (ParseFrame st) s (one_event s (EvParseFrame st)).
Proof. intros Hwf. apply run_call; try done. by eexists. Qed.

Lemma run_write st p s :
  session_wf s -> run_ok (Stream_Write st p) s (one_event s (fun w => EvWrite st p (fst w) (snd w))).
Proof.
  intros Hwf. apply run_call; try done. intros t. exists (net_write t st p).
  unfold Stream_Write. by destruct (net_write t st p).
Qed.

Lemma run_stream_close st s :
  session_wf s -> run_ok (Stream_Close st) s (one_event s (fun _ => EvStreamClose st)).
Proof. intros Hwf. by apply run_emit. Qed.

Lemma run_conn_close c s :
  session_wf s -> run_ok (Conn_Close c) s (one_event s (fun _ => EvConnClose c)).
Proof. intros Hwf. by apply run_emit. Qed.

Lemma run_backend_close b s :
  session_wf s -> run_ok (Backend_Close b) s (one_event s (fun _ => EvBackendClose b)).
Proof. intros Hwf. by apply run_emit. Qed.

Lemma run_handler h inc s : session_wf s -> run_ok (call_handler h inc) s (one_event s (EvHandler h)).
Proof. intros Hwf. apply run_call; try done. by eexists. Qed.

Lemma run_new_id uri target method s :
  session_wf s -> run_ok (NewStreamID uri target method) s (one_event s EvNewStreamID).
Proof. intros Hwf. apply run_call; try done. by eexists. Qed.

Lemma run_accept c s :
  session_wf s -> run_ok (Conn_AcceptStream c) s (one_event s (EvAcceptStream c)).
Proof. intros Hwf. apply run_call; try done. by eexists. Qed.

Lemma run_sleep d s : session_wf s -> run_ok (sleep d) s (one_event s (EvSleep d)).
Proof. intros Hwf. apply run_call; try done. by eexists. Qed.

Lemma run_dial d addr s : session_wf s -> run_ok (Dialer_Dial d addr) s (one_event s (EvDial d addr)).
Proof. intros Hwf. apply run_call; try done. by eexists. Qed.

Lemma run_map_order {A} (l : list A) s :
  session_wf s -> MapOrder N ->
  run_ok (map_order l) s (fun l' s' ext => s' = s /\ ext = [] /\ l' ≡ₚ l).
Proof.
  intros Hwf HN t. exists []. rewrite app_nil_r. split_and!; try done. apply not_elem_of_nil.
Qed.

(** ** The invariant under the state changes *)
Lemma wf_same_store s s' :
  session_wf s -> s_streams s' ⊆ s_streams s -> s_store s' = s_store s ->
  s_chans s' = s_chans s -> s_next s' = s_next s -> p2p_wf (s_p2p s') -> session_wf s'.
Proof.
  intros [H1 H2 H3 H4 H5 H6 H7] Hs Est Ech En Hp.
  constructor; rewrite ?Est, ?Ech, ?En; try done.
  intros id r Hid. apply H1. by eapply lookup_weaken.
Qed.

Lemma grows_same_store s s' : s_store s' = s_store s -> grows s s'.
Proof. intros E r rs. rewrite E. eauto. Qed.

Lemma run_set_p2p f s :
  session_wf s -> p2p_wf (f (s_p2p s)) ->
  run_ok (modify (fun s => set_p2p (f (s_p2p s)) s)) s
    (fun _ s' ext => s' = set_p2p (f (s_p2p s)) s /\ ext = []).
Proof.
  intros Hwf Hp. apply run_modify; [|by apply grows_same_store|done].
  by apply (wf_same_store s).
Qed.

(** Replace the guarded fields of one wrapper. *)
Definition with_guarded (r : nat) (rs : ResumableStream) (g : guarded) (h : chans) (s : Session)
    : Session :=
  set_store (<[r := mkRS (rs_state rs) g]> (s_store s)) h s.

Lemma grows_guarded r rs g h s :
  s_store s !! r = Some rs -> grows s (with_guarded r rs g h s).
Proof.
  intros Hr r' rs' Hr'. cbn. destruct (decide (r = r')) as [<-|].
  - rewrite lookup_insert_eq. simplify_eq. eauto.
  - rewrite lookup_insert_ne by done. eauto.
Qed.

Lemma wf_guarded r rs g h s :
  session_wf s -> s_store s !! r = Some rs ->
  (ch_next (s_chans s) <= ch_next h)%nat ->
  (forall ch, ch ∈ ch_closed h -> ch ∈ ch_closed (s_chans s) \/
     g_resumeReady (rs_guarded rs) = Some ch) ->
  (forall ch, g_resumeReady g = Some ch ->
     (ch_next (s_chans s) <= ch < ch_next h)%nat \/
     (g_resumeReady (rs_guarded rs) = Some ch /\ ch ∉ ch_closed h)) ->
  (g_abandoned g = false -> g_resumeReady g <> None) ->
  session_wf (with_guarded r rs g h s).
Proof.
  intros [H1 H2 H3 H4 H5 H6 H7] Hr Hn Hc Hg Ha.
  assert (forall r' rs', <[r := mkRS (rs_state rs) g]> (s_store s) !! r' = Some rs' ->
    (r' = r /\ rs' = mkRS (rs_state rs) g) \/ (r' <> r /\ s_store s !! r' = Some rs')) as Hst.
  { intros r' rs'. destruct (decide (r = r')) as [<-|].
    - rewrite lookup_insert_eq. intros [= <-]. auto.
    - rewrite lookup_insert_ne by done. auto. }
  constructor; cbn; try done.
  - intros id r' Hid. destruct (H1 id r' Hid) as (rs' & Hr' & Eid).
    destruct (decide (r = r')) as [<-|].
    + rewrite lookup_insert_eq. simplify_eq. eauto.
    + rewrite lookup_insert_ne by done. eauto.
  - intros r' [rs' Hr']. destruct (Hst r' rs' Hr') as [[-> _]|[_ ?]]; eauto.
  - intros ch Hch. destruct (Hc ch Hch) as [?%H3|Hch']; [lia|].
    destruct (H4 r rs ch Hr Hch') as [? _]. lia.
  - intros r' rs' ch [[-> ->]|[Hne Hr']]%Hst Hch; cbn in *.
    + destruct (Hg ch Hch) as [Hge|[Hch' Hncl]].
      * split; [lia|]. intros Hcl. destruct (Hc ch Hcl) as [?%H3|Hch']; [lia|].
        destruct (H4 r rs ch Hr Hch') as [? _]. lia.
      * destruct (H4 r rs ch Hr Hch') as [? _]. split; [lia|done].
    + destruct (H4 r' rs' ch Hr' Hch) as [Hlt Hncl]. split; [lia|].
      intros Hcl. destruct (Hc ch Hcl) as [?|Hch']; [done|].
      apply Hne. by eapply H5.
  - assert (forall r' rs' ch, r' <> r -> s_store s !! r' = Some rs' ->
      g_resumeReady (rs_guarded rs') = Some ch -> g_resumeReady g = Some ch -> False) as Hx.
    { intros r' rs' ch Hne Hr' Hch Hch'. destruct (H4 r' rs' ch Hr' Hch) as [Hlt _].
      destruct (Hg ch Hch') as [?|[Hch'' _]]; [lia|]. apply Hne. by eapply H5. }
    intros r1 r2 rs1 rs2 ch [[-> ->]|[Hn1 Hr1]]%Hst [[-> ->]|[Hn2 Hr2]]%Hst Hc1 Hc2; cbn in *;
      try done; [by destruct (Hx r2 rs2 ch)|by destruct (Hx r1 rs1 ch)|by eapply H5].
  - intros r' rs' [[-> ->]|[Hne Hr']]%Hst; cbn; eauto.
Qed.

Lemma markAbandoned_wf r rs s :
  session_wf s -> s_store s !! r = Some rs ->
  exists g h, markAbandoned (rs_guarded rs) (s_chans s) = Some (g, h) /\
    g_abandoned g = true /\ g_inner g = g_inner (rs_guarded rs) /\
    session_wf (with_guarded r rs g h s).
Proof.
  intros Hwf Hr. unfold markAbandoned.
  destruct (g_abandoned (rs_guarded rs)) eqn:Ea.
  { do 2 eexists. split_and!; [done|done|done|]. apply wf_guarded; try done; [by auto| |congruence].
    intros ch Hch. right. by destruct (swf_ready s Hwf r rs ch Hr Hch). }
  destruct (g_resumeReady (rs_guarded rs)) as [ch|] eqn:Ec; [|by destruct (swf_live s Hwf r rs Hr Ea)].
  destruct (swf_ready s Hwf r rs ch Hr Ec) as [Hlt Hncl].
  unfold close_chan. case_decide; [done|]. cbn. do 2 eexists.
  split_and!; [done|done|done|]. apply wf_guarded; try done; cbn.
  intros ch'. rewrite elem_of_union, elem_of_singleton. intros [->|?]; auto.
Qed.

Lemma SwapInner_wf r rs st s :
  session_wf s -> s_store s !! r = Some rs ->
  exists g h, SwapInner st (rs_guarded rs) (s_chans s) = Some (g_inner (rs_guarded rs), g, h) /\
    g_abandoned g = g_abandoned (rs_guarded rs) /\ g_inner g = st /\
    session_wf (with_guarded r rs g h s).
Proof.
  intros Hwf Hr. unfold SwapInner, swap_section, make_chan, close_ready.
  destruct (g_resumeReady (rs_guarded rs)) as [ch|] eqn:Ec.
  - destruct (swf_ready s Hwf r rs ch Hr Ec) as [Hlt Hncl].
    unfold close_chan. cbn. case_decide; [done|]. cbn. do 2 eexists.
    split_and!; [done|done|done|]. apply wf_guarded; try done; cbn; [lia| |].
    + intros ch'. rewrite elem_of_union, elem_of_singleton. intros [->|?]; auto.
    + intros ch' [= <-]. left. lia.
  - cbn. do 2 eexists. split_and!; [done|done|done|].
    apply wf_guarded; try done; cbn; [lia|auto|]. intros ch' [= <-]. left. lia.
Qed.

(** ** Stream operations *)
Lemma run_wrapStream id inner s :
  session_wf s ->
  run_ok (wrapStream id inner) s (fun r s' ext =>
    ext = [] /\ r = s_next s /\ s_streams s' = <[id := r]> (s_streams s) /\
    s_store s' = <[r := mkRS (NewState id 0)
                   (mkGuarded inner (Some (ch_next (s_chans s))) false)]> (s_store s) /\
    s_conn s' = s_conn s /\ s_ctrl s' = s_ctrl s /\ s_handlers s' = s_handlers s /\
    s_p2p s' = s_p2p s /\ s_forwardServerTLS s' = s_forwardServerTLS s).
Proof.
  intros Hwf t. cbn. exists []. rewrite app_nil_r. set (rs := mkRS _ _).
  assert (s_store s !! s_next s = None) as Hnone.
  { apply eq_None_not_Some. intros Hs%(swf_next s Hwf). lia. }
  destruct Hwf as [H1 H2 H3 H4 H5 H6 H7].
  assert (forall r' rs', <[s_next s := rs]> (s_store s) !! r' = Some rs' ->
    (r' = s_next s /\ rs' = rs) \/ (r' <> s_next s /\ s_store s !! r' = Some rs')) as Hst.
  { intros r' rs'. destruct (decide (s_next s = r')) as [<-|].
    - rewrite lookup_insert_eq. intros [= <-]. auto.
    - rewrite lookup_insert_ne by done. auto. }
  split_and!; try done; [| |apply not_elem_of_nil].
  - constructor; cbn; try done.
    + intros id' r'. destruct (decide (id = id')) as [<-|].
      * rewrite lookup_insert_eq. intros [= <-]. exists rs. by rewrite lookup_insert_eq; cbn; rw_resume.
      * rewrite lookup_insert_ne by done. intros (rs' & Hr' & Eid)%H1.
        exists rs'. by rewrite lookup_insert_ne by (intros <-; congruence).
    + intros r' [rs' [[-> _]|[_ Hr']]%Hst]; [lia|].
      enough (r' < s_next s)%nat by lia. eauto.
    + intros ch Hch%H3. lia.
    + intros r' rs' ch [[-> ->]|[_ Hr']]%Hst; cbn.
      * intros [= <-]. split; [lia|]. intros Hch%H3. lia.
      * intros Hch. destruct (H4 r' rs' ch Hr' Hch). split; [lia|done].
    + intros r1 r2 rs1 rs2 ch [[-> ->]|[Hn1 Hr1]]%Hst [[-> ->]|[Hn2 Hr2]]%Hst Hc1 Hc2; try done.
      * injection Hc1 as <-. destruct (H4 r2 rs2 _ Hr2 Hc2). lia.
      * injection Hc2 as <-. destruct (H4 r1 rs1 _ Hr1 Hc1). lia.
      * by eapply H5.
    + intros r' rs' [[-> ->]|[_ Hr']]%Hst; cbn; [done|eauto].
  - intros r' rs' Hr'. exists rs'. cbn.
    by rewrite lookup_insert_ne by (intros <-; congruence).
Qed.

(** [s'] is [s] with wrapper [r] abandoned, and at most the streams map
    shrunk. *)
Definition abandons (r : nat) (s s' : Session) : Prop :=
  s_conn s' = s_conn s /\ s_ctrl s' = s_ctrl s /\ s_handlers s' = s_handlers s /\
  s_p2p s' = s_p2p s /\ s_dialer s' = s_dialer s /\ s_agentURI s' = s_agentURI s /\
  s_next s' = s_next s /\
  (forall r', r' <> r -> s_store s' !! r' = s_store s !! r') /\
  (forall rs, s_store s !! r = Some rs ->
     exists rs', s_store s' !! r = Some rs' /\ rs_state rs' = rs_state rs /\
       g_abandoned (rs_guarded rs') = true /\
       g_inner (rs_guarded rs') = g_inner (rs_guarded rs)).

Lemma run_markAbandoned r s :
  session_wf s ->
  run_ok (rs_markAbandoned r) s (fun _ s' ext =>
    ext = [] /\ s_streams s' = s_streams s /\ abandons r s s').
Proof.
  intros Hwf t. unfold rs_markAbandoned.
  destruct (s_store s !! r) as [rs|] eqn:Hr.
  - destruct (markAbandoned_wf r rs s Hwf Hr) as (g & h & -> & Ha & Hi & Hwf').
    exists []. rewrite app_nil_r. split_and!; try done.
    + by apply grows_guarded.
    + apply not_elem_of_nil.
    + unfold abandons. split_and!; try done.
      * intros r' Hne. cbn. by rewrite lookup_insert_ne.
      * intros rs' E. replace rs' with rs by congruence. cbn. rewrite lookup_insert_eq. by eexists.
  - exists []. rewrite app_nil_r. unfold abandons. split_and!; try done; [apply not_elem_of_nil|].
    intros rs. by rewrite Hr.
Qed.

Lemma run_forgetStream id s :
  session_wf s ->
  run_ok (forgetStream id) s (fun _ s' ext =>
    ext = [] /\ s_streams s' = delete id (s_streams s) /\
    match s_streams s !! id with
    | Some r => abandons r s s'
    | None => s' = set_streams (delete id (s_streams s)) s
    end).
Proof.
  intros Hwf. unfold forgetStream.
  eapply run_bind; [by apply run_get with (Q := fun a s' e => a = s /\ s' = s /\ e = [])|].
  intros a s' ext _ _ (-> & -> & ->).
  eapply run_bind.
  { apply run_modify with (Q := fun _ s' e => s' = set_streams (delete id (s_streams s)) s /\ e = []);
      [|by apply grows_same_store|done].
    apply (wf_same_store s); try done; [apply delete_subseteq|apply Hwf]. }
  intros [] s' ext Hwf' _ [-> ->]. destruct (s_streams s !! id) as [r|].
  - eapply run_mono; [by apply run_markAbandoned|]. cbn. intros [] s' ext (-> & -> & Hab). done.
  - by apply run_ret.
Qed.

Lemma run_SwapInner r rs st s :
  session_wf s -> s_store s !! r = Some rs ->
  run_ok (rs_SwapInner r st) s (fun _ s' ext =>
    ext = [EvCancelRead (g_inner (rs_guarded rs))] /\
    exists g h, s' = with_guarded r rs g h s /\
      g_abandoned g = g_abandoned (rs_guarded rs) /\ g_inner g = st).
Proof.
  intros Hwf Hr t. unfold rs_SwapInner. rewrite Hr.
  destruct (SwapInner_wf r rs st s Hwf Hr) as (g & h & -> & Ha & Hi & Hwf').
  eexists. split; [done|]. split_and!; try done.
  - by apply grows_guarded.
  - by rewrite list_elem_of_singleton.
  - eauto.
Qed.

Lemma run_Close r s :
  session_wf s ->
  run_ok (rs_Close r) s (fun _ s' ext =>
    match s_store s !! r with
    | None => s' = s /\ ext = []
    | Some rs =>
        ext = [EvStreamClose (g_inner (rs_guarded rs))] /\
        s_streams s' = delete (ID (rs_state rs)) (s_streams s) /\
        s_conn s' = s_conn s /\ s_ctrl s' = s_ctrl s /\ s_handlers s' = s_handlers s /\
        s_p2p s' = s_p2p s /\
        exists rs', s_store s' !! r = Some rs' /\ g_abandoned (rs_guarded rs') = true /\
          rs_state rs' = rs_state rs /\ g_inner (rs_guarded rs') = g_inner (rs_guarded rs)
    end).
Proof.
  intros Hwf. unfold rs_Close.
  eapply run_bind; [by apply run_get with (Q := fun a s' e => a = s /\ s' = s /\ e = [])|].
  intros a s' ext _ _ (-> & -> & ->).
  destruct (s_store s !! r) as [rs|] eqn:Hr; [|by apply run_ret].
  eapply run_bind; [by apply run_forgetStream|]. intros [] s1 e1 Hwf1 Hg1 (-> & Hs1 & Hf1).
  assert (exists rs1, s_store s1 !! r = Some rs1 /\ rs_state rs1 = rs_state rs /\
    g_inner (rs_guarded rs1) = g_inner (rs_guarded rs) /\ s_conn s1 = s_conn s /\
    s_ctrl s1 = s_ctrl s /\ s_handlers s1 = s_handlers s /\ s_p2p s1 = s_p2p s)
    as (rs1 & Hr1 & Est & Ei & Ec & Ect & Eh & Ep).
  { destruct (s_streams s !! ID (rs_state rs)) as [r'|]; [|subst s1; by exists rs].
    destruct Hf1 as (? & ? & ? & ? & _ & _ & _ & Ho & Ha). destruct (decide (r = r')) as [<-|].
    - destruct (Ha rs Hr) as (rs1 & ? & ? & ? & ?). exists rs1. by split_and!.
    - exists rs. rewrite Ho by done. by split_and!. }
  eapply run_bind; [by apply run_markAbandoned|]. intros [] s2 e2 Hwf2 Hg2 (-> & Hs2 & Ha2).
  eapply run_mono; [by apply run_stream_close|]. cbn. intros [] s3 e3 (-> & ->).
  destruct Ha2 as (? & ? & ? & ? & _ & _ & _ & _ & Ha).
  destruct (Ha rs1 Hr1) as (rs2 & ? & ? & ? & ?).
  split_and!; try congruence. exists rs2. split_and!; congruence.
Qed.

(** The byte accounting of a [Read] or [Write] on wrapper [r]. *)
Definition update_state (r : nat) (f : State -> State) (s : Session) : Session :=
  match s_store s !! r with
  | None => s
  | Some rs => set_store (<[r := mkRS (f (rs_state rs)) (rs_guarded rs)]> (s_store s)) (s_chans s) s
  end.

Lemma wf_update_state r f s :
  (forall st, ID (f st) = ID st) -> session_wf s -> session_wf (update_state r f s).
Proof.
  intros Hf Hwf. unfold update_state. destruct (s_store s !! r) as [rs|] eqn:Hr; [|done].
  destruct Hwf as [H1 H2 H3 H4 H5 H6 H7].
  assert (forall r' rs', <[r := mkRS (f (rs_state rs)) (rs_guarded rs)]> (s_store s) !! r' = Some rs' ->
    exists rs0, s_store s !! r' = Some rs0 /\ rs_guarded rs' = rs_guarded rs0) as Hst.
  { intros r' rs'. destruct (decide (r = r')) as [<-|].
    - rewrite lookup_insert_eq. intros [= <-]. eauto.
    - rewrite lookup_insert_ne by done. eauto. }
  constructor; cbn; try done.
  - intros id r' Hid. destruct (H1 id r' Hid) as (rs' & Hr' & Eid).
    destruct (decide (r = r')) as [<-|].
    + rewrite lookup_insert_eq. eexists. split; [done|]. cbn. rewrite Hf. congruence.
    + rewrite lookup_insert_ne by done. eauto.
  - intros r' [rs' (rs0 & ? & _)%Hst]. eauto.
  - intros r' rs' ch (rs0 & Hr0 & ->)%Hst. eauto.
  - intros r1 r2 rs1 rs2 ch (rs1' & Hr1 & ->)%Hst (rs2' & Hr2 & ->)%Hst. eauto.
  - intros r' rs' (rs0 & Hr0 & ->)%Hst. eauto.
Qed.

Lemma grows_update_state r f s :
  (forall st, ID (f st) = ID st) -> grows s (update_state r f s).
Proof.
  intros Hf r' rs' Hr'. unfold update_state.
  destruct (s_store s !! r) as [rs|] eqn:Hr; [|eauto]. cbn.
  destruct (decide (r = r')) as [->|].
  - rewrite lookup_insert_eq. eexists. split; [done|]. cbn. rewrite Hf. congruence.
  - rewrite lookup_insert_ne by done. eauto.
Qed.

Lemma new_session_wf c ct uri d : session_wf (new_session c ct uri d).
Proof. constructor; cbn; try done; try apply p2p_new_wf. by intros r [? ?]. Qed.

End Invariant.

(** ** A session with one stream

    Connection 0, control stream 1, one exposed service and stream 7 as
    wrapper 0 on transport stream 2 with three bytes written. *)
Definition demo_frames (t : trace) (s : stream) : Frame := mkFrame FrameTypeRegisterAck [7; 0; 1].

Definition demo_session : @Session Ring.lib :=
  let s0 := new_session (mkConn 0) (mkStream 1) "outrelay://a" DefaultDialer in
  let s1 := fst (snd (wrapStream 7 (mkStream 2) (set_handlers {["svc" := 3%nat]} s0, []))) in
  update_state 0 (OnWrite [10; 11; 12]) s1.

Lemma demo_session_wf : session_wf demo_session.
Proof.
  apply wf_update_state; [done|].
  set (s0 := set_handlers _ _).
  assert (session_wf s0) as Hwf.
  { apply (wf_same_store (new_session (mkConn 0) (mkStream 1) "outrelay://a" DefaultDialer));
      try done; apply new_session_wf. }
  pose proof (run_wrapStream (Sp := Ring.spec) 7 (mkStream 2) s0 Hwf []) as H.
  destruct (wrapStream 7 (mkStream 2) (s0, [])) as [r [s1 t1]].
  by destruct H as (_ & _ & ? & _).
Qed.
