(* ===== verification/Dialing.v ===== *)
(** * Dialing the relay: [DialAny], [DialAnyHappy] and the dial loop of
    [Reconnect]

    Which endpoints are tried, which one is used, and that no connection
    other than the returned one stays open. *)

From S2P Require Import Prelude Orp Resume StreamSwap Waiters Session.

Local Open Scope agent_scope.

(** ** Connections in use *)
Fixpoint remove1 (c : conn) (l : list conn) : list conn :=
  match l with
  | [] => []
  | c' :: l' => if decide (c = c') then l' else c' :: remove1 c l'
  end.

Definition conn_step (l : list conn) (e : event) : list conn :=
  match e with
  | EvDial _ _ (Ok c) => c :: l
  | EvConnClose c => remove1 c l
  | _ => l
  end.

(** Dialed and not closed, the newest first. *)
Definition open_conns (l : list conn) (t : trace) : list conn := foldl conn_step l t.

Definition dial_addr (e : event) : option string :=
  match e with EvDial _ a _ => Some a | _ => None end.

(** The addresses dialed, in order. *)
Definition dialed (t : trace) : list string := omap dial_addr t.

Lemma remove1_cons c l : remove1 c (c :: l) = l.
Proof. cbn. by case_decide. Qed.

Lemma open_conns_app l t1 t2 : open_conns l (t1 ++ t2) = open_conns (open_conns l t1) t2.
Proof. apply foldl_app. Qed.

Lemma dialed_app t1 t2 : dialed (t1 ++ t2) = dialed t1 ++ dialed t2.
Proof. apply omap_app. Qed.

Section Facts.
Context `{N : Net} `{L : ResumeLib}.

(** What one or several attempts leave behind: [kept] is the connection of the
    outcome. *)
Definition kept {A} (f : A -> conn) (r : result A) (l : list conn) : list conn :=
  match r with Ok a => f a :: l | Err _ => l end.

Lemma DialWithDialer_run {S} d addr uri (s : S) t :
  exists r ext, DialWithDialer d addr uri (s, t) = (r, (s, t ++ ext)) /\
    dialed ext = [addr] /\ forall l, open_conns l ext = kept s_conn r l.
Proof.
  unfold DialWithDialer, Dialer_Dial, Conn_OpenStream, Conn_Close, WriteFrame, ParseFrame,
    emit, mbind, mret.
  repeat case_match; simplify_eq/=; rewrite <- ?app_assoc; do 2 eexists;
    (split; [done|]); split; try done; intros l; cbn -[remove1]; by rewrite ?remove1_cons.
Qed.

(** The endpoint tried last is the one in use, and every other one was tried
    before it. *)
Definition tried (addrs tr : list string) (ok : bool) : Prop :=
  if ok then exists post, addrs = tr ++ post /\ tr <> [] else tr = addrs.

Lemma tried_cons a addrs tr ok : tried addrs tr ok -> tried (a :: addrs) (a :: tr) ok.
Proof. destruct ok; cbn; [|congruence]. intros (post & -> & _). by exists post. Qed.

Lemma dialAny_run {S} addrs uri first (s : S) t :
  exists r ext, dialAny_loop addrs uri first (s, t) = (r, (s, t ++ ext)) /\
    tried addrs (dialed ext) (is_ok r) /\ forall l, open_conns l ext = kept s_conn r l.
Proof.
  revert first t. induction addrs as [|a addrs IH]; intros first t; cbn [dialAny_loop].
  { exists (Err (Wrapped "session: all relay endpoints failed"
                   (default (ErrorString "nil") first))), [].
    rewrite app_nil_r. done. }
  unfold DialRelay, mbind, mret.
  destruct (DialWithDialer_run DefaultDialer a uri s t) as (r & ext & -> & Hd & Ho).
  destruct r as [se|e].
  - exists (Ok se), ext. split; [done|]. rewrite Hd. split; [by exists addrs|done].
  - destruct (IH (or_first first e) (t ++ ext)) as (r & ext' & -> & Hd' & Ho').
    exists r, (ext ++ ext'). rewrite app_assoc. split; [done|].
    rewrite dialed_app, Hd. split; [by apply tried_cons|].
    intros l. by rewrite open_conns_app, Ho, Ho'.
Qed.

Lemma redial_run d uri addrs first (s : Session) t :
  exists r ext, redial d uri addrs first (s, t) = (r, (s, t ++ ext)) /\
    tried addrs (dialed ext) (is_ok r) /\ forall l, open_conns l ext = kept fst r l.
Proof.
  revert first t. induction addrs as [|a addrs IH]; intros first t; cbn [redial].
  { exists (Err (default (ErrorString "session: all relay endpoints failed") first)), [].
    rewrite app_nil_r. done. }
  unfold Dialer_Dial, Conn_OpenStream, Conn_Close, WriteFrame, ParseFrame, emit, mbind, mret.
  repeat case_match; simplify_eq/=;
    lazymatch goal with
    | |- exists r ext, redial _ _ _ ?f (_, ?t') = _ /\ _ =>
        destruct (IH f t') as (r' & ext' & -> & Hd' & Ho');
        rewrite <- ?app_assoc; do 2 eexists; (split; [done|]);
        rewrite ?dialed_app; split;
        [cbn; by apply tried_cons
        |intros l; rewrite ?open_conns_app; cbn -[remove1]; by rewrite ?remove1_cons, Ho']
    | |- _ =>
        rewrite <- ?app_assoc; do 2 eexists; (split; [done|]); split; [by exists addrs|done]
    end.
Qed.

(** The happy-eyeballs collector: attempts that come in after the winner are
    closed, and the winner is never replaced. *)
Lemma happy_run {S} d uri arrivals (w : option Session) first (s : S) t :
  exists w' e ext, happy_loop d uri arrivals w first (s, t) = ((w', e), (s, t ++ ext)) /\
    dialed ext = arrivals /\
    (forall x, w = Some x -> w' = w) /\
    forall l, open_conns (option_list (s_conn <$> w) ++ l) ext =
              option_list (s_conn <$> w') ++ l.
Proof.
  revert w first t. induction arrivals as [|a rest IH]; intros w first t; cbn [happy_loop].
  { exists w, first, []. by rewrite app_nil_r. }
  unfold Session_Close, Conn_Close, emit, mbind, mret.
  destruct (DialWithDialer_run d a uri s t) as (r & ext & -> & Hd & Ho).
  destruct r as [se|e]; [destruct w as [x|]|].
  - destruct (IH (Some x) first ((t ++ ext) ++ [EvConnClose (s_conn se)]))
      as (w' & e' & ext' & -> & Hd' & Hw & Ho').
    exists w', e', (ext ++ [EvConnClose (s_conn se)] ++ ext'). rewrite !app_assoc.
    split; [done|]. rewrite <- app_assoc, !dialed_app, Hd, Hd'. split_and!; [done|done|].
    intros l. rewrite !open_conns_app, Ho. cbn [kept open_conns foldl conn_step].
    rewrite remove1_cons. apply Ho'.
  - destruct (IH (Some se) first (t ++ ext)) as (w' & e' & ext' & -> & Hd' & Hw & Ho').
    exists w', e', (ext ++ ext'). rewrite app_assoc. split; [done|].
    rewrite dialed_app, Hd, Hd'. split_and!; [done|done|].
    intros l. rewrite open_conns_app, Ho. apply Ho'.
  - destruct (IH w (or_first first e) (t ++ ext)) as (w' & e' & ext' & -> & Hd' & Hw & Ho').
    exists w', e', (ext ++ ext'). rewrite app_assoc. split; [done|].
    rewrite dialed_app, Hd, Hd'. split_and!; [done|done|].
    intros l. rewrite open_conns_app, Ho. apply Ho'.
Qed.

(** Dialing touches connections, streams and frames only. *)
Definition dial_event (e : event) : Prop :=
  match e with
  | EvDial _ _ _ | EvOpenStream _ _ | EvConnClose _ | EvWriteFrame _ _ _ _ | EvParseFrame _ _ => True
  | _ => False
  end.

Lemma emits_DialWithDialer {S} d addr uri : emits (S := S) dial_event (DialWithDialer d addr uri).
Proof. unfold DialWithDialer. repeat emits_step. Qed.

Lemma emits_happy_loop {S} d uri arrivals w first :
  emits (S := S) dial_event (happy_loop d uri arrivals w first).
Proof.
  revert w first. induction arrivals as [|a rest IH]; intros w first; cbn [happy_loop]; [apply emits_ret|].
  apply emits_bind; [apply emits_DialWithDialer|]. intros [se|e]; [destruct w|]; try apply IH.
  apply emits_bind; [|intros; apply IH]. unfold Session_Close. emits_step.
Qed.

Lemma DialAnyHappy_run {S} d addrs arrivals uri (s : S) t :
  exists r ext, DialAnyHappy d addrs arrivals uri (s, t) = (r, (s, t ++ ext)) /\
    (forall l, open_conns l ext = kept s_conn r l) /\ Forall dial_event ext.
Proof.
  destruct addrs as [|a [|b addrs]]; unfold DialAnyHappy.
  - eexists _, []. rewrite app_nil_r. by split_and!.
  - destruct (DialWithDialer_run d a uri s t) as (r & ext & E & _ & Ho).
    destruct (emits_DialWithDialer d a uri s t) as (r' & s' & ext' & E' & Hf).
    rewrite E in E'. injection E' as -> <- ->%app_inv_head. exists r', ext'. by split_and!.
  - unfold mbind, mret. destruct (happy_run d uri arrivals None None s t) as (w & e & ext & E & _ & _ & Ho).
    destruct (emits_happy_loop d uri arrivals None None s t) as (r' & s' & ext' & E' & Hf).
    rewrite E in E'. injection E' as <- <- ->%app_inv_head. rewrite E.
    destruct w as [x|]; eexists _, ext'; (split; [done|]); (split; [exact Ho|exact Hf]).
Qed.

(** ** Healthy endpoints *)

(** Whatever happened before, dialing [a] and the HELLO exchange succeed. *)
Definition healthy (d : dialer) (uri a : string) : Prop :=
  forall t, exists c ct f,
    net_dial t d a = Ok c /\
    (let t1 := t ++ [EvDial d a (Ok c)] in
     net_open t1 c = Ok ct /\
     let t2 := t1 ++ [EvOpenStream c (Ok ct)] in
     net_write_frame t2 ct FrameTypeHello (MHello "orp/1" uri) = Ok tt /\
     let t3 := t2 ++ [EvWriteFrame ct FrameTypeHello (MHello "orp/1" uri) (Ok tt)] in
     net_parse_frame t3 ct = Ok f) /\
    unmarshal_HelloAck f = Ok tt.

Lemma healthy_dial {S} d uri a (s : S) t :
  healthy d uri a -> is_ok (fst (DialWithDialer d a uri (s, t))) = true.
Proof.
  intros Hh. destruct (Hh t) as (c & ct & f & H1 & (H2 & H3 & H4) & H5).
  unfold DialWithDialer, Dialer_Dial, Conn_OpenStream, WriteFrame, ParseFrame, mbind, mret.
  by rewrite H1; cbn; rewrite H2; cbn; rewrite H3; cbn; rewrite H4; cbn; rewrite H5.
Qed.

Lemma healthy_dialAny {S} addrs uri first (s : S) t :
  Exists (healthy DefaultDialer uri) addrs ->
  is_ok (fst (dialAny_loop addrs uri first (s, t))) = true.
Proof.
  intros Hex. revert first t. induction Hex as [a addrs Ha|a addrs Hex IH];
    intros first t; cbn [dialAny_loop]; unfold DialRelay, mbind, mret;
    [pose proof (healthy_dial _ _ _ s t Ha) as Hok|];
    destruct (DialWithDialer DefaultDialer a uri (s, t)) as [[se|e] [s' t']] eqn:E; try done.
  destruct (DialWithDialer_run DefaultDialer a uri s t) as (r & ext & E' & _).
  rewrite E' in E. simplify_eq. apply IH.
Qed.

Lemma healthy_happy {S} d uri arrivals w first (s : S) t :
  Exists (healthy d uri) arrivals ->
  is_Some (fst (fst (happy_loop d uri arrivals w first (s, t)))).
Proof.
  intros Hex. revert w first t. induction Hex as [a rest Ha|a rest Hex IH]; intros w first t.
  - cbn [happy_loop]. unfold Session_Close, Conn_Close, emit, mbind, mret.
    pose proof (healthy_dial _ _ _ s t Ha) as Hok.
    destruct (DialWithDialer d a uri (s, t)) as [[se|e] [s' t']]; [|done].
    destruct w as [x|].
    + destruct (happy_run d uri rest (Some x) first s' (t' ++ [EvConnClose (s_conn se)]))
        as (w' & e' & ext' & -> & _ & Hw & _). rewrite (Hw x eq_refl). by eexists.
    + destruct (happy_run d uri rest (Some se) first s' t')
        as (w' & e' & ext' & -> & _ & Hw & _). rewrite (Hw se eq_refl). by eexists.
  - cbn [happy_loop]. unfold Session_Close, Conn_Close, emit, mbind, mret.
    destruct (DialWithDialer_run d a uri s t) as (r & ext & -> & _).
    destruct r as [se|e]; [destruct w|]; apply IH.
Qed.

(** ** Winning the race *)

(** The attempts before the first success, each made after the previous. *)
Inductive first_success {S} (d : dialer) (uri : string) : list string -> S * trace -> Session -> Prop :=
  | fs_here a rest st se st' :
      DialWithDialer d a uri st = (Ok se, st') -> first_success d uri (a :: rest) st se
  | fs_later a rest st e st' se :
      DialWithDialer d a uri st = (Err e, st') -> first_success d uri rest st' se ->
      first_success d uri (a :: rest) st se.

Lemma happy_winner {S} d uri arrivals first (st : S * trace) :
  match fst (happy_loop d uri arrivals None first st) with
  | (Some se, _) => first_success d uri arrivals st se
  | (None, _) => forall se, ~ first_success d uri arrivals st se
  end.
Proof.
  revert first st. induction arrivals as [|a rest IH]; intros first st; cbn [happy_loop].
  { intros se Hs. inversion Hs. }
  unfold mbind at 1. destruct (DialWithDialer d a uri st) as [[se|e] st'] eqn:E.
  - destruct st' as [s' t'].
    destruct (happy_run d uri rest (Some se) first s' t') as (w' & e' & ext & -> & _ & Hw & _).
    rewrite (Hw se eq_refl). by eapply fs_here.
  - specialize (IH (or_first first e) st').
    destruct (happy_loop d uri rest None (or_first first e) st') as [[[x|] e'] st'']; cbn in *.
    + by eapply fs_later.
    + intros se Hs. inversion Hs; subst; [congruence|].
      assert (st'0 = st') as -> by congruence. by apply (IH se).
Qed.

(** [DialAny] and the dial loop of [Reconnect] are two copies of one handshake. *)
Definition same_dial (r : result (conn * stream)) (r' : result Session) : Prop :=
  match r, r' with
  | Ok (c, ct), Ok se => s_conn se = c /\ s_ctrl se = ct
  | Err _, Err _ => True
  | _, _ => False
  end.

Lemma redial_dialAny {S} uri addrs e0 e1 (s0 : Session) (s : S) t :
  let '(r, (_, t1)) := redial DefaultDialer uri addrs e0 (s0, t) in
  let '(r', (_, t2)) := dialAny_loop addrs uri e1 (s, t) in
  t1 = t2 /\ same_dial r r'.
Proof.
  revert e0 e1 t. induction addrs as [|a addrs IH]; intros e0 e1 t; cbn [redial dialAny_loop]; [done|].
  unfold DialRelay, DialWithDialer, Dialer_Dial, Conn_OpenStream, WriteFrame, ParseFrame, Conn_Close, emit,
    mbind, mret.
  destruct (net_dial t DefaultDialer a) as [c|e]; [|apply IH].
  destruct (net_open _ c) as [ct|e]; [|apply IH].
  destruct (net_write_frame _ ct _ _) as [[]|e]; [|apply IH].
  destruct (net_parse_frame _ ct) as [f|e]; [|apply IH].
  destruct (unmarshal_HelloAck f) as [[]|e]; [done|apply IH].
Qed.

End Facts.

(** ** Properties *)

(** Reconnecting dials exactly like the first connect: on the same list of
    addresses and against the same network, the dial loop of [Reconnect] with
    the default dialer makes the same calls in the same order as [DialAny],
    succeeds on the same endpoint with the same connection and control stream,
    and fails exactly when [DialAny] fails. *)
Theorem reconnect_dials_like_DialAny `{N : Net} `{L : ResumeLib} {S} uri addrs (s0 : Session) (s : S) t :
  let '(r, (_, t1)) := redial DefaultDialer uri addrs None (s0, t) in
  let '(r', (_, t2)) := DialAny addrs uri (s, t) in
  t1 = t2 /\ same_dial r r'.
Proof. destruct addrs as [|a addrs]; [done|]. apply (redial_dialAny uri (a :: addrs) None None s0 s t). Qed.

(** No dial loop leaks a connection.  [DialAny], [DialAnyHappy] (for every
    order in which its concurrent attempts finish) and the dial loop of
    [Reconnect] leave open exactly what was open before plus the connection
    they return, and nothing more when they fail. *)
Theorem dial_no_leak `{N : Net} `{L : ResumeLib} {S} d uri addrs arrivals (s : S) s0 t l :
  (let '(r, (_, t')) := DialAny addrs uri (s, t) in
   exists ext, t' = t ++ ext /\ open_conns l ext = kept s_conn r l) /\
  (let '(r, (_, t')) := DialAnyHappy d addrs arrivals uri (s, t) in
   exists ext, t' = t ++ ext /\ open_conns l ext = kept s_conn r l) /\
  (let '(r, (_, t')) := redial d uri addrs None (s0, t) in
   exists ext, t' = t ++ ext /\ open_conns l ext = kept fst r l).
Proof.
  split_and!.
  - destruct addrs as [|a addrs]; [by exists []; rewrite app_nil_r|]. unfold DialAny.
    destruct (dialAny_run (a :: addrs) uri None s t) as (r & ext & -> & _ & Ho). eauto.
  - destruct (DialAnyHappy_run d addrs arrivals uri s t) as (r & ext & -> & Ho & _). eauto.
  - destruct (redial_run d uri addrs None s0 t) as (r & ext & -> & _ & Ho). eauto.
Qed.

(** The agent connects when any endpoint is healthy: [DialAny] tries the
    addresses in order and stops at the first that completes HELLO, trying
    all of them before it fails; and if some configured endpoint is healthy,
    [DialAny] and [DialAnyHappy] do return a session. *)
Theorem dial_any_connects `{N : Net} `{L : ResumeLib} {S} d uri addrs arrivals (s : S) t :
  addrs <> [] -> arrivals ≡ₚ addrs ->
  (let '(r, (_, t')) := DialAny addrs uri (s, t) in
   exists ext, t' = t ++ ext /\ tried addrs (dialed ext) (is_ok r)) /\
  (Exists (healthy DefaultDialer uri) addrs -> is_ok (fst (DialAny addrs uri (s, t))) = true) /\
  (Exists (healthy d uri) addrs ->
     is_ok (fst (DialAnyHappy d addrs arrivals uri (s, t))) = true).
Proof.
  intros Hne Hp. destruct addrs as [|a addrs]; [done|]. unfold DialAny. split_and!.
  - destruct (dialAny_run (a :: addrs) uri None s t) as (r & ext & -> & Ht & _). eauto.
  - apply healthy_dialAny.
  - intros Hex. unfold DialAnyHappy. destruct addrs as [|b addrs].
    { apply healthy_dial. by apply Exists_cons in Hex as [?|[]%Exists_nil]. }
    unfold mbind, mret.
    assert (Exists (healthy d uri) arrivals) as Ha by by rewrite Hp.
    destruct (healthy_happy d uri arrivals None None s t Ha) as [se Hse].
    destruct (happy_loop d uri arrivals None None (s, t)) as [[[x|] e] [s' t']]; done.
Qed.

(** The race of [DialAnyHappy]: the session returned is the one of the
    first attempt to complete HELLO, every address has been tried once by
    then, and it fails only when every attempt failed. *)
Theorem happy_eyeballs_race `{N : Net} `{L : ResumeLib} {S} d uri a b addrs arrivals (s : S) t :
  let '(r, (s', t')) := DialAnyHappy d (a :: b :: addrs) arrivals uri (s, t) in
  (exists ext, t' = t ++ ext /\ dialed ext = arrivals) /\ s' = s /\
  match r with
  | Ok se => first_success d uri arrivals (s, t) se
  | Err _ => forall se, ~ first_success d uri arrivals (s, t) se
  end.
Proof.
  unfold DialAnyHappy, mbind, mret. pose proof (happy_winner d uri arrivals None (s, t)) as Hw.
  destruct (happy_run d uri arrivals None None s t) as (w & e & ext & E & Hd & _).
  rewrite E in *. cbn in Hw. destruct w; split_and!; eauto.
Qed.

(** A relay whose first endpoint is down. *)
Definition one_down : Net :=
  let N := demo_net (fun _ _ => mkFrame FrameTypeHelloAck []) in
  tweak_net N
    (fun t _ a => if String.eqb a "a:1" then Err (External 7) else Ok (mkConn (length t)))
    net_write_frame net_new_stream_id.

Lemma one_down_healthy d uri : @healthy one_down d uri "b:1".
Proof. intros t. do 3 eexists. cbn. by split_and!. Qed.

Lemma dial_any_connects_witness :
  is_ok (fst (@DialAnyHappy one_down Ring.lib unit DefaultDialer
    ["a:1"; "b:1"] ["b:1"; "a:1"] "outrelay://a" (tt, []))) = true.
Proof.
  refine (proj2 (proj2 (@dial_any_connects one_down Ring.lib unit DefaultDialer "outrelay://a"
    ["a:1"; "b:1"] ["b:1"; "a:1"] tt [] ltac:(done) ltac:(constructor))) _).
  right; left. apply one_down_healthy.
Defined.
