(* ===== verification/Reconnect.v ===== *)
(** * Resume and reconnect

    [Resume], [Reconnect] and the retry loop around them: what is sent to the
    peer, which streams survive and how long the agent waits between
    attempts. *)

From S2P Require Import Prelude Orp Resume StreamSwap Waiters Forward Session SessionInv.
From S2P Require Import Dialing.

Local Open Scope agent_scope.

(** Run the next call of a program, knowing the event it leaves. *)
Ltac rcall lem :=
  eapply run_bind; [by apply lem|]; intros ? ? ? ? _ [-> ->].
Ltac rget :=
  lazymatch goal with
  | |- run_ok _ ?s _ =>
      eapply run_bind; [by apply run_get with (Q := fun a s' e => a = s /\ s' = s /\ e = [])|];
      intros ? ? ? ? _ (-> & -> & ->)
  end.

Section Facts.
Context `{N : Net} `{Sp : ResumeSpec}.

(** ** Resume *)

(** The exchange of a resume that reached the peer's echo. *)
Definition resume_sent (s : Session) (rs : ResumableStream) (st : stream) (f : Frame) : trace :=
  [EvOpenStream (s_conn s) (Ok st);
   EvWriteFrame st FrameTypeStreamResume (MStreamResume (resume_message (rs_state rs))) (Ok tt);
   EvParseFrame st (Ok f)].

Definition gap_sent (st : stream) (gap : list byte) (n : Z) : trace :=
  if (0 <? length gap)%nat then [EvWrite st gap n None] else [].

(** A successful resume. *)
Definition resumed (r : nat) (rs : ResumableStream) (s s' : Session) (ext : trace) : Prop :=
  exists st f peer gap n g h,
    s' = with_guarded r rs g h s /\ g_inner g = st /\
    g_abandoned g = g_abandoned (rs_guarded rs) /\
    unmarshal_StreamResume f = Ok peer /\ sr_StreamId peer = uint64 (ID (rs_state rs)) /\
    RetransmitFrom (rs_state rs) (int64 (sr_PeerAckPosition peer)) = Ok gap /\
    ext = resume_sent s rs st f ++ gap_sent st gap n ++ [EvCancelRead (g_inner (rs_guarded rs))].

(** A failed resume: the wrapper is untouched and the new stream closed. *)
Definition not_resumed (s s' : Session) (ext : trace) : Prop :=
  s' = s /\ forall st, EvOpenStream (s_conn s) (Ok st) ∈ ext -> EvStreamClose st ∈ ext.

(** The gap is only refused by the ring. *)
Definition refused_by_ring (rs : ResumableStream) (ext : trace) (e : option error) : Prop :=
  forall st f peer re, EvParseFrame st (Ok f) ∈ ext -> unmarshal_StreamResume f = Ok peer ->
    sr_StreamId peer = uint64 (ID (rs_state rs)) ->
    RetransmitFrom (rs_state rs) (int64 (sr_PeerAckPosition peer)) = Err re ->
    e = Some (Wrapped "session: retransmit gap unavailable" re).

Lemma run_completeResume st0 st s :
  session_wf s ->
  run_ok (completeResume st0 st) s (fun e s' ext =>
    s' = s /\
    match e with
    | None => exists f peer gap n,
        unmarshal_StreamResume f = Ok peer /\ sr_StreamId peer = uint64 (ID st0) /\
        RetransmitFrom st0 (int64 (sr_PeerAckPosition peer)) = Ok gap /\
        ext = EvParseFrame st (Ok f) :: gap_sent st gap n
    | Some _ => Forall (fun e => match e with EvOpenStream _ _ => False | _ => True end) ext
    end /\
    forall g, refused_by_ring (mkRS st0 g) ext e).
Proof.
  intros Hwf. unfold completeResume, refused_by_ring.
  rcall run_parse. destruct a as [f|e].
  2: { apply run_ret; [done|]. split_and!; [done|by repeat constructor|].
       intros g st' f' peer re Hin. apply list_elem_of_singleton in Hin. congruence. }
  assert (forall st' f', EvParseFrame st' (Ok f') ∈ [EvParseFrame st (Ok f)] -> f' = f) as Hf.
  { intros st' f' Hin. apply list_elem_of_singleton in Hin. congruence. }
  destruct (unmarshal_StreamResume f) as [peer|e] eqn:Eu.
  2: { apply run_ret; [done|]. split_and!; [done|by repeat constructor|].
       intros g st' f' peer re ->%Hf. congruence. }
  destruct (Z.eqb_spec (sr_StreamId peer) (uint64 (ID st0))) as [Hid|Hid]; cbn [negb].
  2: { apply run_ret; [done|]. split_and!; [done|by repeat constructor|].
       intros g st' f' peer' re ->%Hf. cbn. congruence. }
  destruct (RetransmitFrom st0 (int64 (sr_PeerAckPosition peer))) as [gap|re] eqn:Er.
  2: { apply run_ret; [done|]. split_and!; [done|by repeat constructor|].
       intros g st' f' peer' re' ->%Hf. cbn. congruence. }
  assert (forall ext e', (forall st' f', EvParseFrame st' (Ok f') ∈ ext -> f' = f) ->
    forall g, refused_by_ring (mkRS st0 g) ext e') as Hr.
  { intros ext e' Hext g st' f' peer' re' ->%Hext. cbn. congruence. }
  destruct (0 <? length gap)%nat eqn:El.
  - rcall run_write. destruct a as [n [e|]]; cbn [snd fst]; (apply run_ret; [done|]).
    + split_and!; [done|by repeat constructor|]. apply Hr. intros st' f'.
      cbn. rewrite !elem_of_cons, elem_of_nil. intuition congruence.
    + split_and!; [done| |].
      * exists f, peer, gap, n. unfold gap_sent. by rewrite El.
      * apply Hr. intros st' f'. cbn. rewrite !elem_of_cons, elem_of_nil. intuition congruence.
  - apply run_ret; [done|]. split_and!; [done| |by apply Hr].
    exists f, peer, gap, 0. unfold gap_sent. by rewrite El.
Qed.

Lemma not_resumed_closed s st ext :
  Forall (fun e => match e with EvOpenStream _ _ => False | _ => True end) ext ->
  not_resumed s s ([EvOpenStream (s_conn s) (Ok st)] ++ ext ++ [EvStreamClose st]).
Proof.
  intros Hf. split; [done|]. intros st'.
  rewrite !elem_of_app, !list_elem_of_singleton. intros [?|[Hin|?]]; simplify_eq; [auto|].
  rewrite Forall_forall in Hf. by destruct (Hf _ Hin).
Qed.

Lemma run_Resume r rs s :
  session_wf s -> s_store s !! r = Some rs ->
  run_ok (Resume r) s (fun e s' ext =>
    match e with None => resumed r rs s s' ext | Some _ => not_resumed s s' ext end /\
    refused_by_ring rs ext e).
Proof.
  intros Hwf Hr. unfold Resume. rget. rewrite Hr.
  assert (forall ext e, (forall st f, EvParseFrame st (Ok f) ∉ ext) -> refused_by_ring rs ext e) as Hno.
  { intros ext e Hext st f peer re Hin. by destruct (Hext st f). }
  rcall run_open. destruct a as [st|e].
  2: { apply run_ret; [done|]. split; [split; [done|]|apply Hno]; intros *; cbn;
       rewrite list_elem_of_singleton; congruence. }
  rcall run_write_frame. destruct a as [[]|e].
  2: { rcall run_stream_close. apply run_ret; [done|]. split.
       - by apply (not_resumed_closed s st [EvWriteFrame _ _ _ _]); repeat constructor.
       - apply Hno. intros st' f. cbn. rewrite !elem_of_cons, elem_of_nil. intuition congruence. }
  eapply run_bind; [by apply (run_completeResume (rs_state rs) st)|].
  intros e s1 ext Hwf1 _ (-> & He & Href). specialize (Href (rs_guarded rs)).
  replace (mkRS (rs_state rs) (rs_guarded rs)) with rs in Href by by destruct rs.
  destruct e as [e|].
  - rcall run_stream_close. apply run_ret; [done|]. split.
    + rewrite !app_nil_l, app_nil_r. cbn [app].
      apply (not_resumed_closed s st (EvWriteFrame _ _ _ _ :: ext)). by constructor.
    + intros st' f' peer re Hin. apply (Href st' f' peer re). revert Hin.
      rewrite app_nil_l, app_nil_r, !elem_of_app, !list_elem_of_singleton.
      intros [?|[?|[?|?]]]; simplify_eq; done.
  - destruct He as (f & peer & gap & n & Hu & Hid & Hg & ->).
    eapply run_bind; [by apply (run_SwapInner r rs st)|].
    intros [] s2 ext Hwf2 _ (-> & g & h & -> & Ha & Hi). apply run_ret; [done|]. split.
    + exists st, f, peer, gap, n, g, h. split_and!; try done.
    + intros st' f' peer' re Hin. apply (Href st' f' peer' re). revert Hin.
      rewrite app_nil_l, app_nil_r, !elem_of_app, !list_elem_of_singleton.
      intros [?|[?|[?|?]]]; simplify_eq; done.
Qed.

(** ** Replaying the streams *)

(** What becomes of one wrapper: resumed in place on the connection [c], or
    forgotten and abandoned. *)
Definition survives (c : conn) (r : nat) (s' : Session) (ext : trace) : Prop :=
  exists rs', s_store s' !! r = Some rs' /\
    EvOpenStream c (Ok (g_inner (rs_guarded rs'))) ∈ ext.

Definition dropped (r : nat) (s' : Session) : Prop :=
  exists rs', s_store s' !! r = Some rs' /\ g_abandoned (rs_guarded rs') = true.

Record replayed (l : list nat) (s s' : Session) (ext : trace) : Prop := {
  rp_conn : s_conn s' = s_conn s;
  rp_ctrl : s_ctrl s' = s_ctrl s;
  rp_handlers : s_handlers s' = s_handlers s;
  rp_p2p : s_p2p s' = s_p2p s;
  rp_sub : s_streams s' ⊆ s_streams s;
  rp_other : forall r, r ∉ l -> s_store s' !! r = s_store s !! r;
  rp_keeps : forall id r, s_streams s !! id = Some r -> r ∉ l -> s_streams s' !! id = Some r;
  rp_each : forall id r, s_streams s !! id = Some r -> r ∈ l ->
    (s_streams s' !! id = Some r /\ survives (s_conn s) r s' ext) \/
    (s_streams s' !! id = None /\ dropped r s');
  rp_dials : dialed ext = []
}.

Lemma replayed_nil s : replayed [] s s [].
Proof. constructor; try done. by intros id r _ ?%elem_of_nil. Qed.

Lemma replayed_step r l s s1 s2 e1 e2 :
  session_wf s -> r ∉ l -> replayed [r] s s1 e1 -> replayed l s1 s2 e2 ->
  replayed (r :: l) s s2 (e1 ++ e2).
Proof.
  intros Hwf Hnl [C1 T1 H1 P1 S1 O1 K1 E1 D1] [C2 T2 H2 P2 S2 O2 K2 E2 D2].
  constructor; try congruence.
  - by etrans.
  - intros r' Hr'. rewrite not_elem_of_cons in Hr'. destruct Hr' as [Hne Hr'].
    rewrite O2, O1; [done| |done]. by rewrite list_elem_of_singleton.
  - intros id r' Hid Hr'. rewrite not_elem_of_cons in Hr'. destruct Hr' as [Hne Hr'].
    apply K2; [|done]. apply K1; [done|]. by rewrite list_elem_of_singleton.
  - intros id r' Hid [->|Hr']%elem_of_cons.
    + destruct (E1 id r Hid) as [[Hs (rs' & Hst & Hev)]|[Hn (rs' & Hst & Hab)]];
        [by rewrite list_elem_of_singleton|left|right].
      * split; [by apply K2|]. exists rs'. rewrite O2, elem_of_app by done. auto.
      * split; [|exists rs'; by rewrite O2]. apply eq_None_not_Some. intros [x Hx].
        by rewrite (lookup_weaken _ _ _ _ Hx S2) in Hn.
    + assert (r' ∉ [r]) as Hne by (rewrite list_elem_of_singleton; by intros ->).
      destruct (E2 id r' (K1 id r' Hid Hne) Hr') as [[Hs (rs' & Hst & Hev)]|?]; [left|auto].
      split; [done|]. exists rs'. rewrite elem_of_app, <- C1. auto.
  - by rewrite dialed_app, D1, D2.
Qed.

Lemma resumed_replayed r rs s s' ext :
  session_wf s -> s_store s !! r = Some rs -> resumed r rs s s' ext -> replayed [r] s s' ext.
Proof.
  intros Hwf Hr (st & f & peer & gap & n & g & h & -> & Hi & Ha & _ & _ & _ & ->).
  constructor; try done.
  - intros r' Hne. cbn. rewrite list_elem_of_singleton in Hne. by rewrite lookup_insert_ne.
  - intros id r' Hid ->%list_elem_of_singleton. left. split; [done|].
    exists (mkRS (rs_state rs) g). cbn. rewrite lookup_insert_eq, Hi. split; [done|].
    apply elem_of_cons. by left.
  - unfold gap_sent. by destruct (0 <? length gap)%nat.
Qed.

Lemma forgotten_replayed r s s1 ext :
  session_wf s -> s_streams s !! wrapper_id r s = Some r ->
  s_streams s1 = delete (wrapper_id r s) (s_streams s) -> abandons r s s1 -> dialed ext = [] ->
  replayed [r] s s1 ext.
Proof.
  intros Hwf Hid Es (Ec & Et & Eh & Ep & _ & _ & _ & Ho & Hab) Hd.
  assert (forall id r', s_streams s !! id = Some r' -> r' = r -> id = wrapper_id r s) as Hinj.
  { intros id r' Hid' ->. destruct (swf_streams s Hwf id r Hid') as (rs & Hr & <-).
    unfold wrapper_id. by rewrite Hr. }
  constructor; try done.
  - rewrite Es. apply delete_subseteq.
  - intros r' Hne. apply Ho. by rewrite list_elem_of_singleton in Hne.
  - intros id r' Hid' Hne. rewrite list_elem_of_singleton in Hne.
    rewrite Es, lookup_delete_ne; [done|]. intros <-. congruence.
  - intros id r' Hid' ->%list_elem_of_singleton. right.
    rewrite (Hinj id r Hid' eq_refl), Es, lookup_delete_eq. split; [done|].
    destruct (swf_streams s Hwf _ r Hid) as (rs & Hr & _).
    destruct (Hab rs Hr) as (rs' & ? & _ & ? & _). by exists rs'.
Qed.

Lemma Resume_dials r rs s e s' t t' :
  s_store s !! r = Some rs -> Resume r (s, t) = (e, (s', t')) ->
  exists ext, t' = t ++ ext /\ dialed ext = [].
Proof.
  intros Hr. unfold Resume, completeResume, Conn_OpenStream, WriteFrame, ParseFrame, Stream_Write,
    Stream_Close, rs_SwapInner, emit, get, mbind, mret. rewrite Hr.
  intros Hrun. repeat (case_match; simplify_eq/=); rewrite <- ?app_assoc; eauto.
Qed.

Lemma run_resume_all l s :
  session_wf s -> NoDup l -> (forall r, r ∈ l -> s_streams s !! wrapper_id r s = Some r) ->
  run_ok (resume_all l) s (fun _ s' ext => replayed l s s' ext).
Proof.
  revert s. induction l as [|r l IH]; intros s Hwf Hnd Hreg; cbn [resume_all].
  { apply run_ret; [done|]. apply replayed_nil. }
  apply NoDup_cons in Hnd as [Hnl Hnd].
  pose proof (Hreg r ltac:(by left)) as Hid.
  destruct (swf_streams s Hwf _ _ Hid) as (rs & Hr & _).
  assert (forall s1 e1, session_wf s1 -> replayed [r] s s1 e1 ->
    run_ok (resume_all l) s1 (fun _ s' ext => replayed (r :: l) s s' (e1 ++ ext))) as Hrest.
  { intros s1 e1 Hwf1 Hrp. eapply run_mono.
    - apply IH; [done|done|]. intros r' Hr'.
      assert (r' ∉ [r]) as Hne by (rewrite list_elem_of_singleton; by intros ->).
      apply (rp_keeps _ _ _ _ Hrp); [|done]. unfold wrapper_id.
      rewrite (rp_other _ _ _ _ Hrp r' Hne). apply Hreg. by right.
    - intros [] s' ext Hrp'. by eapply replayed_step. }
  eapply run_bind with (Q1 := fun e s' ext =>
    match e with None => resumed r rs s s' ext | Some _ => s' = s end /\ dialed ext = []).
  { intros t. pose proof (run_Resume r rs s Hwf Hr t) as Hrun.
    destruct (Resume r (s, t)) as [e [s' t']] eqn:E.
    destruct Hrun as (ext & -> & ? & ? & ? & Hq & _). exists ext. split_and!; try done.
    - destruct e; [apply Hq|done].
    - destruct (Resume_dials r rs s e s' t _ Hr E) as (ext' & ?%app_inv_head & ?). by subst. }
  intros e s1 e1 Hwf1 _ [He Hd1]. destruct e as [e|].
  - subst s1. eapply run_bind with (Q1 := fun _ s' ext =>
      ext = [] /\ s_streams s' = delete (wrapper_id r s) (s_streams s) /\ abandons r s s').
    { rget. eapply run_mono; [by apply run_forgetStream|].
      intros [] s' ext (-> & Es & Hab). by rewrite Hid in Hab. }
    intros [] s' ext Hwf' _ (-> & Es & Hab). eapply run_mono.
    + apply (Hrest s' (e1 ++ [])); [done|]. rewrite app_nil_r. by apply forgotten_replayed.
    + cbn. intros [] s'' ext. by rewrite app_nil_r.
  - eapply run_bind; [by apply run_ret with (Q := fun _ s' ext => s' = s1 /\ ext = [])|].
    intros [] s' ext _ _ (-> & ->). eapply run_mono.
    + apply (Hrest s1 e1); [done|]. by apply resumed_replayed with (rs := rs).
    + done.
Qed.

(** ** Reconnect *)
Definition registration (e : event) : option (stream * string) :=
  match e with
  | EvWriteFrame st FrameTypeRegister (MRegister name _) (Ok _) => Some (st, name)
  | _ => None
  end.

(** The REGISTER frames written, with the control stream they went to. *)
Definition registered (t : trace) : list (stream * string) := omap registration t.

Lemma run_reregister ctrl names s :
  session_wf s ->
  run_ok (reregister ctrl names) s (fun e s' ext =>
    s' = s /\ (forall l, open_conns l ext = l) /\
    (e = None -> registered ext = map (pair ctrl) names)).
Proof.
  intros Hwf. induction names as [|name names IH]; cbn [reregister]; [by apply run_ret|].
  rcall run_write_frame. destruct a as [[]|e]; [|by apply run_ret].
  rcall run_parse. destruct a as [f|e]; [|by apply run_ret].
  case_bool_decide; [|by apply run_ret].
  eapply run_mono; [apply IH|]. cbn. intros e s' ext (-> & Ho & Hreg). split_and!; [done|done|].
  intros He. unfold registered in *. cbn. by rewrite (Hreg He).
Qed.

Lemma run_redial d uri addrs first s :
  session_wf s ->
  run_ok (redial d uri addrs first) s (fun r s' ext =>
    s' = s /\ registered ext = [] /\ tried addrs (dialed ext) (is_ok r) /\
    forall l, open_conns l ext = kept fst r l).
Proof.
  intros Hwf.
  assert (run_ok (redial d uri addrs first) s (fun r s' ext => s' = s /\ registered ext = []))
    as Hrun.
  { revert first. induction addrs as [|a addrs IH]; intros first; cbn [redial]; [by apply run_ret|].
    rcall run_dial. destruct a0 as [c|e]; [|by eapply run_mono; [apply IH|]].
    rcall run_open. destruct a0 as [ct|e]; [|by rcall run_conn_close; apply IH].
    rcall run_write_frame. destruct a0 as [u|e]; [|by rcall run_conn_close; apply IH].
    rcall run_parse. destruct a0 as [f|e]; [|by rcall run_conn_close; apply IH].
    destruct (unmarshal_HelloAck f); [by apply run_ret|by rcall run_conn_close; apply IH]. }
  intros t. specialize (Hrun t).
  destruct (redial_run d uri addrs first s t) as (r & ext & E & Ht & Ho). rewrite E in *.
  destruct Hrun as (ext' & ->%app_inv_head & ? & ? & ? & ? & ?). exists ext'. by split_and!.
Qed.

Lemma ActiveStreams_refs s l :
  session_wf s -> l ≡ₚ map snd (map_to_list (s_streams s)) ->
  NoDup l /\ (forall r, r ∈ l -> s_streams s !! wrapper_id r s = Some r) /\
  (forall id r, s_streams s !! id = Some r -> r ∈ l).
Proof.
  intros Hwf Hp.
  assert (forall id r, s_streams s !! id = Some r -> wrapper_id r s = id) as Hid.
  { intros id r Hr. destruct (swf_streams s Hwf id r Hr) as (rs & E & <-).
    unfold wrapper_id. by rewrite E. }
  split_and!.
  - rewrite Hp. apply NoDup_fmap_2_strong, NoDup_map_to_list.
    intros [id r] [id' r'] H1%elem_of_map_to_list H2%elem_of_map_to_list E. cbn in E. subst r'.
    f_equal. by rewrite <- (Hid id r H1), <- (Hid id' r H2).
  - intros r. rewrite Hp, list_elem_of_fmap. intros ([id r'] & -> & H1%elem_of_map_to_list).
    cbn. by rewrite (Hid id r' H1).
  - intros id r Hr. rewrite Hp, list_elem_of_fmap. exists (id, r). by rewrite elem_of_map_to_list.
Qed.

(** The outcome of [Reconnect]. *)
Definition reconnected (s s' : Session) (ext : trace) : Prop :=
  registered ext ≡ₚ map (pair (s_ctrl s')) (map fst (map_to_list (s_handlers s))) /\
  s_streams s' ⊆ s_streams s /\
  forall id r, s_streams s !! id = Some r ->
    (s_streams s' !! id = Some r /\ survives (s_conn s') r s' ext) \/
    (s_streams s' !! id = None /\ dropped r s').

Definition no_conn_event (e : event) : Prop :=
  match e with EvDial _ _ _ | EvConnClose _ | EvWriteFrame _ FrameTypeRegister _ _ => False | _ => True end.

Lemma no_conn_event_quiet ext :
  Forall no_conn_event ext -> (forall l, open_conns l ext = l) /\ registered ext = [].
Proof.
  induction 1 as [|e ext He _ [IH1 IH2]]; [done|]. split.
  - intros l. cbn. rewrite IH1. by destruct e.
  - unfold registered in *. cbn. rewrite IH2. destruct e; try done. by destruct t.
Qed.

Lemma emits_rs_markAbandoned P r : P EvPanic -> emits P (rs_markAbandoned r).
Proof.
  intros HP s t. unfold rs_markAbandoned. repeat case_match; do 3 eexists;
    first [split; [done|by repeat constructor]|by split; [by rewrite app_nil_r|]].
Qed.

Lemma emits_rs_SwapInner P r st :
  P EvPanic -> (forall st, P (EvCancelRead st)) -> emits P (rs_SwapInner r st).
Proof.
  intros HP HC s t. unfold rs_SwapInner. repeat case_match; do 3 eexists;
    first [split; [done|by repeat constructor]|by split; [by rewrite app_nil_r|]].
Qed.

Lemma emits_write P st p :
  (forall n e, P (EvWrite st p n e)) -> emits (S := Session) P (Stream_Write st p).
Proof.
  intros HP. apply emits_call. intros s t. unfold Stream_Write. destruct (net_write t st p).
  eexists _, _, _. by split.
Qed.

Lemma emits_resume_all l : emits no_conn_event (resume_all l).
Proof.
  induction l as [|r l IH]; cbn [resume_all]; [apply emits_ret|].
  apply emits_bind; [|intros e; apply emits_bind; [|done]].
  - unfold Resume, completeResume. repeat first [emits_step | by apply emits_rs_SwapInner | by apply emits_write].
  - unfold forgetStream. repeat first [emits_step | by apply emits_rs_markAbandoned].
Qed.

Lemma run_ActiveStreams s :
  session_wf s -> MapOrder N ->
  run_ok ActiveStreams s (fun l s' ext =>
    s' = s /\ ext = [] /\ l ≡ₚ map snd (map_to_list (s_streams s))).
Proof.
  intros Hwf HN. unfold ActiveStreams. rget. cbn. by apply run_map_order.
Qed.

Lemma run_Reconnect addrs s :
  session_wf s -> MapOrder N ->
  run_ok (Reconnect addrs) s (fun e s' ext =>
    s_handlers s' = s_handlers s /\ s_p2p s' = s_p2p s /\
    match e with
    | None => reconnected s s' ext /\
        forall l, open_conns (s_conn s :: l) ext = s_conn s' :: l
    | Some _ => s_streams s' = s_streams s /\ s_store s' = s_store s
    end).
Proof.
  intros Hwf HN. unfold Reconnect. destruct addrs as [|a addrs]; [by apply run_ret|].
  rget. rcall run_conn_close.
  eapply run_bind; [by apply run_redial|]. intros r s1 e1 Hwf1 _ (-> & Hr1 & _ & Ho1).
  destruct r as [[c ct]|e]; [|by apply run_ret].
  eapply run_bind.
  { apply run_modify with (Q := fun _ s' e => s' = set_transport c ct s /\ e = []);
      [|by apply grows_same_store|done].
    apply (wf_same_store s); try done. apply Hwf. }
  intros [] s1 e2 Hwf2 _ [-> ->]. rget.
  eapply run_bind; [by apply run_map_order|]. intros names s1 e2 _ _ (-> & -> & Hnames).
  eapply run_bind; [by apply run_reregister|]. intros e s1 e2 _ _ (-> & Ho2 & Hr2).
  destruct e as [e|]; [by apply run_ret|]. specialize (Hr2 eq_refl).
  eapply run_bind; [by apply run_ActiveStreams|]. intros l s1 e3 _ _ (-> & -> & Hl).
  destruct (ActiveStreams_refs _ l Hwf2 Hl) as (Hnd & Hreg & Hall).
  eapply run_bind with (Q1 := fun _ s' ext =>
    replayed l (set_transport c ct s) s' ext /\ Forall no_conn_event ext).
  { intros t. pose proof (run_resume_all l _ Hwf2 Hnd Hreg t) as Hrun.
    destruct (emits_resume_all l (set_transport c ct s) t) as (u & s' & ext & E & Hq).
    rewrite E in *. destruct Hrun as (ext' & ->%app_inv_head & ? & ? & ? & ?).
    exists ext'. by split_and!. }
  intros [] s3 e3 Hwf3 _ [Hrp [Ho3 Hr3]%no_conn_event_quiet].
  apply run_ret; [done|]. destruct Hrp as [Ec Et Eh Ep Hsub _ _ Heach _].
  cbn in Ec, Et, Eh, Ep, Hsub, Heach. split_and!; [done|done| |].
  - split_and!; [|done|].
    + unfold registered in *. cbn. rewrite !omap_app, Hr1, Hr2, Hr3. cbn.
      rewrite !app_nil_r, Et. by apply fmap_Permutation.
    + intros id r Hid. destruct (Heach id r Hid (Hall id r Hid)) as [[? (rs' & ? & Hev)]|?]; [left|auto].
      split; [done|]. exists rs'. split; [done|]. rewrite Ec.
      cbn. rewrite !elem_of_cons, !elem_of_app. auto 10.
  - intros l'. cbn [app]. unfold open_conns in *. cbn [foldl conn_step].
    rewrite remove1_cons, !foldl_app. rewrite Ho1. cbn [foldl kept fst]. rewrite Ho2, Ho3. by rewrite Ec.
Qed.

End Facts.

(** ** Backoff *)
Definition slept (e : event) : option Z :=
  match e with EvSleep d _ => Some d | _ => None end.

(** The waits, in order. *)
Definition sleeps (t : trace) : list Z := omap slept t.

Definition no_sleep (e : event) : Prop := slept e = None.

Lemma no_sleep_sleeps ext : Forall no_sleep ext -> sleeps ext = [].
Proof. unfold sleeps. induction 1 as [|e ext He _ IH]; [done|]. cbn. by rewrite He, IH. Qed.

Section Backoff.
Context `{N : Net} `{L : ResumeLib}.

Ltac no_sleep_step :=
  first
    [ emits_step
    | by apply emits_rs_SwapInner
    | by apply emits_rs_markAbandoned
    | by apply emits_write
    | solve [apply emits_call; intros ? ?; eexists _, _, _; split; reflexivity] ].

Lemma emits_redial d uri addrs first : emits no_sleep (redial d uri addrs first).
Proof.
  revert first. induction addrs as [|a addrs IH]; intros first; cbn [redial]; [apply emits_ret|].
  repeat first [apply IH | no_sleep_step].
Qed.

Lemma emits_reregister ctrl names : emits no_sleep (reregister ctrl names).
Proof.
  induction names as [|a names IH]; cbn [reregister]; [apply emits_ret|].
  repeat first [apply IH | no_sleep_step].
Qed.

Lemma emits_resume_all_sleep l : emits no_sleep (resume_all l).
Proof.
  induction l as [|r l IH]; cbn [resume_all]; [apply emits_ret|].
  unfold Resume, completeResume, forgetStream. repeat first [apply IH | no_sleep_step].
Qed.

Lemma emits_Reconnect addrs : emits no_sleep (Reconnect addrs).
Proof.
  unfold Reconnect, ActiveStreams.
  repeat first [apply emits_redial | apply emits_reregister | apply emits_resume_all_sleep
               | no_sleep_step].
Qed.

(** The [k]th wait. *)
Definition backoff_at (k : nat) : Z := Z.min (2 ^ Z.of_nat k * Second) maxBackoff.

Lemma next_backoff_at k : next_backoff (backoff_at k) = backoff_at (S k).
Proof.
  unfold next_backoff, backoff_at, maxBackoff, Second.
  rewrite Nat2Z.inj_succ, Z.pow_succ_r by lia.
  assert (0 < 2 ^ Z.of_nat k) by (apply Z.pow_pos_nonneg; lia).
  destruct (Z.ltb_spec (Z.min (2 ^ Z.of_nat k * 1000000000) (30 * 1000000000)) (30 * 1000000000));
    [rewrite Z.gtb_ltb; destruct (Z.ltb_spec (30 * 1000000000)
       (Z.min (2 ^ Z.of_nat k * 1000000000) (30 * 1000000000) * 2))|]; lia.
Qed.

Definition is_ctx_done (e : event) : bool :=
  match e with EvSleep _ b => b | _ => false end.

Lemma reconnect_loop_run fuel addrs k s t :
  let '(r, (_, t')) := reconnect_loop fuel addrs (backoff_at k) (s, t) in
  exists ext, t' = t ++ ext /\
    (forall i d, sleeps ext !! i = Some d -> d = backoff_at (k + i)) /\
    match r with
    | None => length (sleeps ext) = fuel
    | Some true => (length (sleeps ext) < fuel)%nat
    | Some false => exists ext' d, ext = ext' ++ [EvSleep d true]
    end.
Proof.
  revert k s t. induction fuel as [|fuel IH]; intros k s t; cbn [reconnect_loop].
  { exists []. by rewrite app_nil_r. }
  unfold mbind at 1. destruct (emits_Reconnect addrs s t) as (e & s1 & ext & -> & Hq%no_sleep_sleeps).
  destruct e as [e|].
  - unfold sleep at 1, mbind at 1. destruct (bool_decide (net_ctx_done (t ++ ext) <> None)).
    + exists (ext ++ [EvSleep (backoff_at k) true]). rewrite app_assoc. split; [done|].
      unfold sleeps in *. rewrite omap_app, Hq. split; [|by eexists _, _].
      intros [|i] d; [|done]. intros [= <-]. by rewrite Nat.add_0_r.
    + rewrite next_backoff_at.
      specialize (IH (S k) s1 ((t ++ ext) ++ [EvSleep (backoff_at k) false])).
      destruct (reconnect_loop fuel addrs (backoff_at (S k)) _) as [r [s2 t2]].
      destruct IH as (ext' & -> & Hs & Hr).
      exists (ext ++ EvSleep (backoff_at k) false :: ext'). rewrite <- !app_assoc. split; [done|].
      assert (sleeps (ext ++ EvSleep (backoff_at k) false :: ext') = backoff_at k :: sleeps ext') as Es.
      { unfold sleeps in *. by rewrite omap_app, Hq. }
      rewrite Es. split.
      * intros [|i] d; cbn; [intros [= <-]; by rewrite Nat.add_0_r|].
        rewrite Nat.add_succ_r. apply Hs.
      * destruct r as [[]|]; cbn; [lia| |lia]. destruct Hr as (ext'' & d & ->).
        exists (ext ++ EvSleep (backoff_at k) false :: ext''), d. by rewrite <- app_assoc.
  - unfold get, mbind, mret.
    assert (forall ext', sleeps ext' = [] -> exists ext0, (t ++ ext) ++ ext' = t ++ ext0 /\
      (forall i d, sleeps ext0 !! i = Some d -> d = backoff_at (k + i)) /\
      (length (sleeps ext0) < S fuel)%nat) as Hx.
    { intros ext' He. exists (ext ++ ext'). rewrite app_assoc. split; [done|].
      unfold sleeps in *. rewrite omap_app, Hq, He. cbn. split; [by intros []|lia]. }
    destruct (restartControlReaderIfEnabled (s_p2p s1)).
    + by apply (Hx [EvSpawn "controlReader"]).
    + destruct (Hx [] eq_refl) as (ext0 & E & ?). exists ext0. by rewrite app_nil_r in E.
Qed.

Lemma RunWithReconnect_result fuel addrs st e :
  fst (RunWithReconnect fuel addrs st) = Some e -> e = None.
Proof.
  revert st. induction fuel as [|fuel IH]; intros st; cbn [RunWithReconnect]; [done|].
  unfold mbind, mret, modify. intros H. repeat (case_match; simplify_eq/=); eauto.
Qed.
End Backoff.

(** The context is over: from [t] on accepting and dialing fail and waits are
    cut short. *)
Definition ctx_over `{N : Net} (t : trace) : Prop :=
  forall ext, (forall c, exists e, net_accept (t ++ ext) c = Err e) /\
    (forall d a, exists e, net_dial (t ++ ext) d a = Err e) /\ net_ctx_done (t ++ ext) <> None.

Section Stop.
Context `{N : Net} `{L : ResumeLib}.

Lemma ctx_over_app t e : ctx_over t -> ctx_over (t ++ e).
Proof. intros H ext. rewrite <- app_assoc. apply H. Qed.

Lemma redial_over d uri addrs first (s : Session) t :
  ctx_over t -> exists e ext, redial d uri addrs first (s, t) = (Err e, (s, t ++ ext)).
Proof.
  revert first t. induction addrs as [|a addrs IH]; intros first t H; cbn [redial].
  { eexists _, []. by rewrite app_nil_r. }
  unfold Dialer_Dial, mbind. destruct (H []) as (_ & Hd & _). rewrite app_nil_r in Hd.
  destruct (Hd d a) as [e ->]. cbn.
  destruct (IH (or_first first e) (t ++ [EvDial d a (Err e)])) as (e' & ext & ->).
  { by apply ctx_over_app. }
  eexists _, (_ :: ext). by rewrite <- app_assoc.
Qed.

Lemma Reconnect_over addrs s t :
  ctx_over t -> exists e ext, Reconnect addrs (s, t) = (Some e, (s, t ++ ext)).
Proof.
  intros H. unfold Reconnect. destruct addrs as [|a addrs].
  { eexists _, []. by rewrite app_nil_r. }
  unfold get, Conn_Close, emit, mbind.
  destruct (redial_over (default DefaultDialer (s_dialer s)) (s_agentURI s) (a :: addrs) None s
    (t ++ [EvConnClose (s_conn s)])) as (e & ext & ->); [by apply ctx_over_app|].
  eexists _, (_ :: ext). by rewrite <- app_assoc.
Qed.

Lemma RunWithReconnect_stops fuel addrs s t :
  ctx_over t -> (2 <= fuel)%nat -> fst (RunWithReconnect fuel addrs (s, t)) = Some None.
Proof.
  intros H Hf. destruct fuel as [|[|fuel]]; [lia|lia|].
  cbn [RunWithReconnect]. unfold mbind at 1. cbn [Run]. unfold get, Conn_AcceptStream, mbind at 1 2.
  destruct (H []) as (Ha & _ & _). rewrite app_nil_r in Ha. destruct (Ha (s_conn s)) as [e ->].
  destruct (errors_Is e Canceled) eqn:Ee; [done|]. cbn [mret errors_Is]. rewrite Ee.
  unfold mbind, modify. cbn [reconnect_loop]. unfold mbind at 1.
  pose proof (ctx_over_app _ [EvAcceptStream (s_conn s) (Err e)] H) as H1.
  destruct (Reconnect_over addrs (set_reconnecting true s) _ H1) as (e2 & ext & ->).
  unfold sleep, mbind. rewrite bool_decide_true by (apply (ctx_over_app _ ext) in H1;
    destruct (H1 []) as (_ & _ & Hc); by rewrite app_nil_r in Hc).
  done.
Qed.
End Stop.

(** An environment whose context is over. *)
Definition over_net : Net := {|
  net_dial _ _ _ := Err (Sentinel Canceled);
  net_accept _ _ := Err (External 3);
  net_ctx_done _ := Some (Sentinel Canceled);
  net_write_frame := @net_write_frame (demo_net demo_frames);
  net_new_stream_id := @net_new_stream_id (demo_net demo_frames);
  net_open := @net_open (demo_net demo_frames);
  net_parse_frame := @net_parse_frame (demo_net demo_frames);
  net_write := @net_write (demo_net demo_frames);
  net_handler := @net_handler (demo_net demo_frames);
  net_datagram := @net_datagram (demo_net demo_frames);
  net_acquire := @net_acquire (demo_net demo_frames);
  net_release := @net_release (demo_net demo_frames);
  net_order := @net_order (demo_net demo_frames);
  unmarshal_HelloAck := @unmarshal_HelloAck (demo_net demo_frames);
  unmarshal_IncomingStream := @unmarshal_IncomingStream (demo_net demo_frames);
  unmarshal_AllocGranted := @unmarshal_AllocGranted (demo_net demo_frames);
  unmarshal_StreamReady := @unmarshal_StreamReady (demo_net demo_frames);
  unmarshal_StreamResume := @unmarshal_StreamResume (demo_net demo_frames);
  unmarshal_StreamCheckpoint := @unmarshal_StreamCheckpoint (demo_net demo_frames);
  unmarshal_CandidateOffer := @unmarshal_CandidateOffer (demo_net demo_frames);
  unmarshal_CandidateAnswer := @unmarshal_CandidateAnswer (demo_net demo_frames);
  unmarshal_ObservedAddrResp := @unmarshal_ObservedAddrResp (demo_net demo_frames)
|}.

(** ** Properties *)

(** C7. [Resume] continues the byte stream exactly.  It announces its own send
    position and what it has received, unchanged by the conversions to
    [uint64] and back; on success the bytes replayed on the new stream are
    precisely those the peer has not acknowledged, and the wrapper continues
    on that stream.  On any error the wrapper keeps its old stream and the
    new one is closed, and when the peer's position has left the ring the
    error is [ErrBeforeRing]. *)
Theorem resume_retransmits `{N : Net} `{Sp : ResumeSpec} r rs s t e s' t' :
  session_wf s -> s_store s !! r = Some rs ->
  0 <= Received (rs_state rs) < 2 ^ 63 -> Sent (rs_state rs) < 2 ^ 63 ->
  Resume r (s, t) = (e, (s', t')) ->
  exists ext, t' = t ++ ext /\
    match e with
    | None => exists st f peer gap n rs',
        ext = [EvOpenStream (s_conn s) (Ok st);
               EvWriteFrame st FrameTypeStreamResume
                 (MStreamResume (mkResume (uint64 (ID (rs_state rs)))
                    (Sent (rs_state rs)) (Received (rs_state rs)))) (Ok tt);
               EvParseFrame st (Ok f)] ++ gap_sent st gap n ++
              [EvCancelRead (g_inner (rs_guarded rs))] /\
        unmarshal_StreamResume f = Ok peer /\ sr_StreamId peer = uint64 (ID (rs_state rs)) /\
        (let ack := int64 (sr_PeerAckPosition peer) in
         0 <= ack -> ring_tail (rs_state rs) <= ack <= Sent (rs_state rs) ->
         gap = drop (Z.to_nat ack) (written (rs_state rs))) /\
        s_store s' !! r = Some rs' /\ g_inner (rs_guarded rs') = st /\
        rs_state rs' = rs_state rs
    | Some _ => s' = s /\
        forall st, EvOpenStream (s_conn s) (Ok st) ∈ ext -> EvStreamClose st ∈ ext
    end /\
    (forall st f peer, EvParseFrame st (Ok f) ∈ ext -> unmarshal_StreamResume f = Ok peer ->
       sr_StreamId peer = uint64 (ID (rs_state rs)) ->
       int64 (sr_PeerAckPosition peer) < ring_tail (rs_state rs) ->
       exists e', e = Some e' /\ errors_Is e' BeforeRing = true).
Proof.
  intros Hwf Hr Hrecv Hsent Hrun. pose proof (run_Resume r rs s Hwf Hr t) as Hok.
  rewrite Hrun in Hok. destruct Hok as (ext & -> & _ & _ & _ & He & Href).
  exists ext. split; [done|]. split.
  - destruct e as [e|]; [done|].
    destruct He as (st & f & peer & gap & n & g & h & -> & Hi & Ha & Hu & Hid & Hg & ->).
    exists st, f, peer, gap, n, (mkRS (rs_state rs) g). split_and!; try done.
    + unfold resume_sent, resume_message. rewrite payload_spec.
      pose proof (sent_written (rs_state rs)). by rewrite !(uint64_small (Sent _)), !(uint64_small (Received _)) by lia.
    + cbv zeta. intros H0 Hack. rewrite (retransmit_ok _ _ Hack H0) in Hg. congruence.
    + cbn. by rewrite lookup_insert_eq.
  - intros st f peer Hin Hu Hid Hlt.
    eexists. split; [by apply (Href st f peer _ Hin Hu Hid (retransmit_before _ _ Hlt))|done].
Qed.

(** C8. A successful [Reconnect] restores the session on the new connection:
    every exposed service is registered again exactly once on the new control
    stream, every active stream either continues in place on a stream of the
    new connection or is dropped from the active set and its callers released
    with [ErrStreamLost], no stream is left in between and none appears; the
    old connection is closed and the new one is the only one left open.  A
    failed [Reconnect] loses no stream. *)
Theorem reconnect_replays `{N : Net} `{Sp : ResumeSpec} addrs s t e s' t' :
  MapOrder N -> session_wf s -> Reconnect addrs (s, t) = (e, (s', t')) ->
  exists ext, t' = t ++ ext /\ session_wf s' /\ (EvPanic ∉ ext) /\ s_handlers s' = s_handlers s /\
    match e with
    | None =>
        registered ext ≡ₚ map (pair (s_ctrl s')) (map fst (map_to_list (s_handlers s))) /\
        s_streams s' ⊆ s_streams s /\
        (forall id r, s_streams s !! id = Some r ->
           (s_streams s' !! id = Some r /\ survives (s_conn s') r s' ext) \/
           (s_streams s' !! id = None /\ dropped r s')) /\
        (forall l, open_conns (s_conn s :: l) ext = s_conn s' :: l)
    | Some _ => s_streams s' = s_streams s /\ s_store s' = s_store s
    end.
Proof.
  intros HN Hwf Hrun. pose proof (run_Reconnect addrs s Hwf HN t) as Hok. rewrite Hrun in Hok.
  destruct Hok as (ext & -> & Hwf' & _ & Hp & Hh & _ & He). exists ext. split_and!; try done.
  destruct e; [done|]. destruct He as [(? & ? & ?) ?]. by split_and!.
Qed.

(** C34. The waits of [RunWithReconnect] between failed attempts are 1 s, 2 s,
    4 s, ... doubling up to 30 s.  The loop gives up only when the context is
    done during a wait, and runs out of fuel only after that many failed
    attempts. *)
Theorem reconnect_backoff `{N : Net} `{L : ResumeLib} fuel addrs s t :
  let '(r, (_, t')) := reconnect_loop fuel addrs Second (s, t) in
  exists ext, t' = t ++ ext /\
    (forall i d, sleeps ext !! i = Some d -> d = Z.min (2 ^ Z.of_nat i * Second) maxBackoff) /\
    match r with
    | None => length (sleeps ext) = fuel
    | Some true => (length (sleeps ext) < fuel)%nat
    | Some false => exists ext' d, ext = ext' ++ [EvSleep d true]
    end.
Proof. exact (reconnect_loop_run fuel addrs 0 s t). Qed.

(** [RunWithReconnect] returns nil and only nil: whatever the relays do a
    returning call reports no error (its comment promises the last reconnect
    error), and once the context is over (accepting and dialing fail and
    waits are cut short) it does return, after at most two rounds. *)
Theorem RunWithReconnect_never_fails `{N : Net} `{L : ResumeLib} fuel addrs s t :
  match fst (RunWithReconnect fuel addrs (s, t)) with Some e => e = None | None => True end /\
  (ctx_over t -> (2 <= fuel)%nat -> fst (RunWithReconnect fuel addrs (s, t)) = Some None).
Proof.
  split; [|apply RunWithReconnect_stops].
  destruct (fst (RunWithReconnect fuel addrs (s, t))) as [e|] eqn:E; [|done].
  by eapply RunWithReconnect_result.
Qed.

Lemma RunWithReconnect_never_fails_witness :
  fst (@RunWithReconnect over_net Ring.lib 2 ["r:1"] (demo_session, [])) = Some None.
Proof.
  apply (proj2 (@RunWithReconnect_never_fails over_net Ring.lib 2 ["r:1"] demo_session [])).
  - intros ext. split_and!; [intros c|intros d a|done]; eexists; reflexivity.
  - lia.
Defined.

Lemma demo_order frames : MapOrder (demo_net frames).
Proof. by intros A t l. Qed.

Lemma resume_retransmits_witness :
  exists ext,
    snd (snd (@Resume (demo_net demo_frames) Ring.lib 0 (demo_session, []))) = [] ++ ext /\
    EvWrite (mkStream 0) [11; 12] 2 None ∈ ext.
Proof.
  destruct (@resume_retransmits (demo_net demo_frames) Ring.lib Ring.spec 0 _ demo_session [] None
    _ _ demo_session_wf eq_refl ltac:(vm_compute; done) ltac:(vm_compute; done) eq_refl)
    as (ext & E & _).
  exists ext. split; [exact E|].
  assert (ext = snd (snd (@Resume (demo_net demo_frames) Ring.lib 0 (demo_session, [])))) as ->
    by (symmetry; exact E).
  vm_compute. apply list_elem_of_lookup_2 with 3%nat. reflexivity.
Defined.

Lemma reconnect_replays_witness :
  exists ext, registered ext ≡ₚ [(mkStream 2, "svc"%string)].
Proof.
  destruct (@reconnect_replays (demo_net demo_frames) Ring.lib Ring.spec ["r:1"] demo_session []
    None _ _ (demo_order _) demo_session_wf eq_refl) as (ext & _ & _ & _ & _ & H & _).
  exists ext. exact H.
Defined.
