(* ===== verification/Incoming.v ===== *)
(** * Opening and accepting streams

    The consumer's [Session.Dial] with its id generator and the provider's
    [handleIncoming]. *)

From S2P Require Import Prelude Orp Resume StreamSwap Waiters Forward Session SessionInv.
From S2P Require Import Dialing Reconnect.

Local Open Scope agent_scope.

(** ** Stream ids *)
Definition generated (e : event) : option Z :=
  match e with EvNewStreamID id => Some id | _ => None end.

(** The ids generated so far. *)
Definition ids (t : trace) : list Z := omap generated t.

(** [resume.NewStreamID] does not repeat an id within a run of less than 2^63
    calls: a counter and a clock go into each. *)
Definition IdsDistinct (N : Net) : Prop :=
  forall t uri target method, Z.of_nat (length t) < 2 ^ 63 ->
    uint64 (net_new_stream_id t uri target method) ∉ ids t.

Section Facts.
Context `{N : Net} `{Sp : ResumeSpec}.

Lemma run_freshStreamID fuel target method s :
  session_wf s ->
  run_ok (freshStreamID fuel target method) s (fun r s' ext =>
    s' = s /\ Forall (fun e => is_Some (generated e)) ext /\
    forall id, r = Some id -> s_streams s !! id = None).
Proof.
  intros Hwf. induction fuel as [|fuel IH]; cbn [freshStreamID]; [by apply run_ret|].
  rget. rcall run_new_id. rget. destruct (s_streams s !! a) eqn:Ea.
  - eapply run_mono; [apply IH|]. cbn. intros r s' ext (-> & ? & ?). split_and!; [done| |done].
    constructor; [by eexists|done].
  - apply run_ret; [done|]. split_and!; [done| |by intros ? [= <-]]. by repeat constructor.
Qed.

(** Rejected ids are distinct and active, so there are at most as many as
    active streams. *)
Lemma freshStreamID_total fuel target method (s : Session) t seen :
  IdsDistinct N -> NoDup seen -> seen ⊆ ids t ->
  (forall id, id ∈ seen -> is_Some (s_streams s !! id)) ->
  (size (s_streams s) < length seen + fuel)%nat -> Z.of_nat (length t + fuel) < 2 ^ 63 ->
  is_Some (fst (freshStreamID fuel target method (s, t))).
Proof.
  intros HN. revert t seen. induction fuel as [|fuel IH]; intros t seen Hnd Hsub Hact Hlt Hlen;
    cbn [freshStreamID].
  - exfalso. assert (list_to_set seen ⊆ dom (s_streams s)) as Hd%subseteq_size.
    { intros id Hid%elem_of_list_to_set. by apply elem_of_dom, Hact. }
    rewrite (size_list_to_set seen Hnd), size_dom in Hd. lia.
  - unfold get, NewStreamID, mbind, mret. set (id := uint64 _).
    destruct (s_streams s !! id) eqn:Eid; [|by eexists].
    assert (id ∉ ids t) as Hnew by (apply HN; lia).
    apply (IH _ (id :: seen)).
    + constructor; [by intros ?%Hsub|done].
    + intros x. unfold ids in *. rewrite omap_app, elem_of_app. cbn.
      intros [->|Hx%Hsub]%elem_of_cons; [right; by left|by left].
    + intros x [->|Hx]%elem_of_cons; [by eexists|auto].
    + cbn. lia.
    + rewrite length_app. cbn. lia.
Qed.

(** ** Session.Dial *)
(** The conditional registration and cancellation of the mode waiter. *)
Lemma run_if_p2p (b : bool) f s :
  session_wf s -> p2p_wf (f (s_p2p s)) ->
  run_ok (if b then modify (fun s => set_p2p (f (s_p2p s)) s) else mret tt) s
    (fun _ s' ext => s' = (if b then set_p2p (f (s_p2p s)) s else s) /\ ext = []).
Proof. intros Hwf Hp. destruct b; [by apply run_set_p2p|by apply run_ret]. Qed.

Lemma mlookup_registered id p : is_Some (mlookup (pendingMode (snd (RegisterStreamModeWaiter id p))) id).
Proof. cbn. rewrite mlookup_insert. case_decide; [by eexists|done]. Qed.

Lemma mlookup_cancelled id p : mlookup (pendingMode (CancelStreamModeWaiter id p)) id = None.
Proof. cbn. rewrite mlookup_delete. by case_decide. Qed.

(** The outcomes of [Session.Dial]. *)
Definition dial_outcome (target method : string) (s : Session) (res : option (result nat))
    (s' : Session) (ext : trace) : Prop :=
  match res with
  | None => True
  | Some (Err _) =>
      s_streams s' = s_streams s /\ s_store s' = s_store s /\
      (forall st, EvOpenStream (s_conn s) (Ok st) ∈ ext -> EvStreamClose st ∈ ext) /\
      (forall id, mlookup (pendingMode (s_p2p s)) id = None ->
                  mlookup (pendingMode (s_p2p s')) id = None)
  | Some (Ok r) => exists id st ch,
      s_streams s !! id = None /\ s_streams s' = <[id := r]> (s_streams s) /\
      s_store s !! r = None /\
      s_store s' !! r = Some (mkRS (NewState id 0) (mkGuarded st (Some ch) false)) /\
      EvOpenStream (s_conn s) (Ok st) ∈ ext /\
      (forall st', EvOpenStream (s_conn s) (Ok st') ∈ ext -> st' = st) /\
      EvWriteFrame st FrameTypeOpenStream (MOpenStream target method id) (Ok tt) ∈ ext /\
      (p2pEnabled (s_p2p s) = true -> is_Some (mlookup (pendingMode (s_p2p s')) id))
  end.

Lemma run_Session_Dial fuel target method s :
  session_wf s -> run_ok (Session_Dial fuel target method) s (dial_outcome target method s).
Proof.
  intros Hwf. unfold Session_Dial. rget. rcall run_open. destruct a as [st|e].
  2: { apply run_ret; [done|]. cbn. split_and!; try done.
       intros st. rewrite list_elem_of_singleton. congruence. }
  eapply run_bind; [by apply run_freshStreamID|]. intros oid s1 ext Hwf1 _ (-> & Hgen & Hfr).
  destruct oid as [id|]; [|by apply run_ret]. specialize (Hfr id eq_refl). rget.
  eapply run_bind.
  { apply (run_if_p2p _ (fun p => snd (RegisterStreamModeWaiter id p))); [done|].
    apply wf_registerMode, Hwf. }
  intros [] s1 e1 Hwf2 _ [Es1 ->].
  rcall run_write_frame. destruct a as [[]|e].
  - eapply run_bind; [by apply run_wrapStream|].
    intros r s2 e2 Hwf3 _ (-> & -> & Hst & Hsto & _ & _ & _ & Hp & _).
    apply run_ret; [done|]. cbn [dial_outcome].
    assert (s_streams s1 = s_streams s /\ s_store s1 = s_store s /\ s_next s1 = s_next s)
      as (E1 & E2 & E3) by by rewrite Es1; destruct (p2pEnabled (s_p2p s)).
    exists id, st, (ch_next (s_chans s1)). rewrite Hst, Hsto, Hp, E1, E2, E3. split_and!; try done.
    + apply eq_None_not_Some. intros Hs%(swf_next s Hwf). lia.
    + by rewrite lookup_insert_eq.
    + cbn. by left.
    + intros st'. cbn. rewrite !elem_of_cons, !elem_of_app, !elem_of_cons, elem_of_nil.
      intros [?|[Hin|[?|[]]]]; simplify_eq; [done|].
      rewrite Forall_forall in Hgen. by destruct (Hgen _ Hin).
    + cbn. rewrite elem_of_cons, elem_of_app. right; right. by left.
    + intros Hena. rewrite Es1, Hena. apply mlookup_registered.
  - eapply run_bind.
    { apply (run_if_p2p _ (CancelStreamModeWaiter id)); [done|]. apply wf_cancel, Hwf2. }
    intros [] s2 e2 Hwf3 _ [-> ->]. rcall run_stream_close. apply run_ret; [done|].
    cbn [dial_outcome]. split_and!; try by rewrite Es1; destruct (p2pEnabled (s_p2p s)).
    + intros st'. cbn. rewrite !elem_of_cons, !elem_of_app, !elem_of_cons.
      intros [?|[Hin|[?|[?|?%elem_of_nil]]]]; simplify_eq; [auto 10| |done].
      rewrite Forall_forall in Hgen. by destruct (Hgen _ Hin).
    + intros id' Hn. rewrite Es1. destruct (p2pEnabled (s_p2p s)); [|done].
      cbn. rewrite mlookup_delete, mlookup_insert. case_decide; [done|].
      rewrite <- Hn. apply (mlookup_default (pendingMode (s_p2p s))).
Qed.

Lemma Session_Dial_total fuel target method s t :
  IdsDistinct N -> (size (s_streams s) < fuel)%nat -> Z.of_nat (length t + S fuel) < 2 ^ 63 ->
  fst (Session_Dial fuel target method (s, t)) <> None.
Proof.
  intros HN Hfuel Hlen. unfold Session_Dial, Conn_OpenStream, get, mbind, mret.
  destruct (net_open t (s_conn s)) as [st|e]; [|done].
  destruct (freshStreamID_total fuel target method s
    (t ++ [EvOpenStream (s_conn s) (Ok st)]) [] HN) as [id Hid]; [constructor|set_solver|set_solver|done|
    rewrite length_app; cbn; lia|].
  destruct (freshStreamID fuel target method _) as [oid [s1 t1]]. cbn in Hid. subst oid.
  repeat (case_match; simplify_eq/=); done.
Qed.

(** ** Incoming streams *)
Lemma AcceptForward_run {S} g (s : S) t :
  exists r ext, AcceptForward g (s, t) = (r, (s, t ++ ext)) /\ (EvPanic ∉ ext) /\
    Forall (fun e => match e with EvWriteFrame _ _ _ _ => False | _ => True end) ext.
Proof.
  unfold AcceptForward, Dial, register, new_transport, acquire, release, Datagram, mbind, mret.
  repeat (case_match; simplify_eq/=); rewrite <- ?app_assoc; do 2 eexists;
    (split; [first [done|by rewrite app_nil_r]|]);
    (split; [cbn; rewrite ?not_elem_of_cons; repeat split; try done; apply not_elem_of_nil
            |by repeat constructor]).
Qed.

Definition no_frame (e : event) : Prop :=
  match e with EvWriteFrame _ _ _ _ => False | _ => True end.

Lemma run_AcceptForward g s :
  session_wf s ->
  run_ok (AcceptForward g) s (fun _ s' ext => s' = s /\ Forall no_frame ext).
Proof.
  intros Hwf t. destruct (AcceptForward_run g s t) as (r & ext & -> & Hp & Hf).
  exists ext. by split_and!.
Qed.

Lemma run_ForwardClose f s :
  session_wf s -> run_ok (ForwardSession_Close f) s (fun _ s' ext => s' = s /\ Forall no_frame ext).
Proof.
  intros Hwf t. destruct (Close_run f s t) as (e1 & e2 & e3 & e4 & ->).
  eexists. split; [done|]. split_and!; try done; [|by repeat constructor].
  rewrite !not_elem_of_cons. split_and!; try done. apply not_elem_of_nil.
Qed.

Lemma run_release k id s :
  session_wf s -> run_ok (release k id) s (one_event s (EvRelease k id)).
Proof. intros Hwf. apply run_call; try done. by eexists. Qed.

(** Wrapper [r] of stream [id] on transport stream [st], as made by
    [wrapStream]. *)
Definition wraps (r : nat) (id : Z) (st : stream) (s : Session) : Prop :=
  exists rs, s_store s !! r = Some rs /\ ID (rs_state rs) = id /\ g_inner (rs_guarded rs) = st.

(** Closing it any number of times. *)
Lemma run_Close_wraps r id st s :
  session_wf s -> wraps r id st s ->
  run_ok (rs_Close r) s (fun _ s' ext =>
    ext = [EvStreamClose st] /\ wraps r id st s' /\
    s_streams s' = delete id (s_streams s) /\ s_p2p s' = s_p2p s).
Proof.
  intros Hwf (rs & Hr & Hid & Hi). eapply run_mono; [by apply run_Close|].
  intros [] s' ext. cbn. rewrite Hr.
  intros (-> & Hs & _ & _ & _ & Hp & rs' & Hr' & _ & Est & Ei).
  rewrite Hi, Hs, Hid. split_and!; try done. exists rs'. split_and!; congruence.
Qed.

Lemma run_bridge_wrapped r id st b s :
  session_wf s -> wraps r id st s ->
  run_ok (bridge_wrapped r st b) s (fun _ s' ext =>
    wraps r id st s' /\ s_streams s' ⊆ s_streams s /\ s_p2p s' = s_p2p s /\
    EvBackendClose b ∈ ext /\ Forall no_frame ext).
Proof.
  intros Hwf Hw. unfold bridge_wrapped. rcall run_emit.
  eapply run_bind; [by apply (run_Close_wraps r id st)|].
  intros [] s1 e1 Hwf1 _ (-> & Hw1 & Hs1 & Hp1).
  eapply run_mono; [by apply run_backend_close|]. cbn. intros [] s2 e2 (-> & ->).
  rewrite Hs1, Hp1. split_and!; try done; [apply delete_subseteq| |by repeat constructor].
  cbn. rewrite !elem_of_cons. auto.
Qed.

Lemma run_serve r id st b g s :
  session_wf s -> wraps r id st s ->
  run_ok (serve r st b g) s (fun _ s' ext =>
    wraps r id st s' /\ s_streams s' ⊆ s_streams s /\ s_p2p s' = s_p2p s /\
    EvBackendClose b ∈ ext /\ Forall no_frame ext).
Proof.
  intros Hwf Hw. unfold serve. rget.
  assert (run_ok (bridge_wrapped r st b) s (fun _ s' ext =>
    wraps r id st s' /\ s_streams s' ⊆ s_streams s /\ s_p2p s' = s_p2p s /\
    EvBackendClose b ∈ [] ++ ext /\ Forall no_frame ([] ++ ext)))
    as Hb by by eapply run_mono; [apply (run_bridge_wrapped r id)|].
  destruct g as [g|]; [|done]. destruct (forwardTLS s); [|done].
  eapply run_bind; [by apply run_AcceptForward|]. intros fs s1 e1 _ _ [-> Hf1].
  destruct fs as [fs|e].
  - rcall run_emit. rcall run_release. rcall run_backend_close.
    eapply run_bind; [by apply run_ForwardClose|]. intros ? s2 e2 _ _ [-> Hf2].
    apply run_ret; [done|]. split_and!; try done.
    + cbn. rewrite !elem_of_app, !elem_of_cons. auto 10.
    + cbn. rewrite app_nil_r. apply Forall_app. split; [done|]. by repeat constructor.
  - eapply run_mono; [by apply run_backend_close|]. cbn. intros [] s2 e2 (-> & ->).
    split_and!; try done; [by rewrite elem_of_app, list_elem_of_singleton; auto|].
    apply Forall_app. split; [done|]. by repeat constructor.
Qed.

Lemma run_wait_mode id ops timeout s :
  session_wf s ->
  run_ok (wait_mode id ops timeout) s (fun _ s' ext =>
    ext = [] /\ exists p, s' = set_p2p p s /\ mlookup (pendingMode p) id = None).
Proof.
  intros Hwf t. unfold wait_mode. set (p := apply_ops ops (s_p2p s)).
  assert (p2p_wf p) as Hp by apply apply_ops_wf, Hwf.
  assert (forall b n p', WaitForStreamMode id b p = Some (n, p') ->
    p2p_wf p' /\ mlookup (pendingMode p') id = None) as Hwait.
  { intros b n p' E. split.
    - pose proof (apply_op_wf (OpWaitMode id b) p Hp) as H. cbn in H. by rewrite E in H.
    - unfold WaitForStreamMode in E. destruct (mlookup (pendingMode p) id) eqn:El; [|congruence].
      destruct (receiveMode n0 b p) as [[n1 p1]|]; [|done]. simplify_eq/=. apply mlookup_cancelled. }
  assert (forall n p', p2p_wf p' -> mlookup (pendingMode p') id = None ->
    exists ext, t = t ++ ext /\ session_wf (set_p2p p' s) /\ grows s (set_p2p p' s) /\
      (EvPanic ∉ ext) /\ (fun (_ : streamModeNotice) s' ext =>
        ext = [] /\ exists p, s' = set_p2p p s /\ mlookup (pendingMode p) id = None)
        n (set_p2p p' s) ext) as Hfin.
  { intros n p' Hp' Hl. exists []. rewrite app_nil_r. split_and!; try done; [| | |eauto].
    - by apply (wf_same_store s).
    - by apply grows_same_store.
    - apply not_elem_of_nil. }
  destruct (WaitForStreamMode id timeout p) as [[n p']|] eqn:E.
  { destruct (Hwait _ _ _ E). by apply (Hfin n). }
  destruct (WaitForStreamMode id true p) as [[n p']|] eqn:E'.
  { destruct (Hwait _ _ _ E'). by apply (Hfin n). }
  unfold WaitForStreamMode, receiveMode in E'. by destruct (mlookup (pendingMode p) id).
Qed.

(** ** handleIncoming *)

(** What a request that was handed to a backend leaves behind. *)
Definition served (st : stream) (b : backend) (id : Z) (s s' : Session) (ext : trace) : Prop :=
  exists w rest, ext = EvWriteFrame st FrameTypeStreamAccept MStreamAccept w :: rest /\
    EvBackendClose b ∈ rest /\ EvStreamClose st ∈ rest /\ Forall no_frame rest /\
    s_streams s' ⊆ s_streams s /\
    (is_ok w = true -> s_streams s' !! id = None) /\
    (p2pEnabled (s_p2p s) = true -> mlookup (pendingMode (s_p2p s')) id = None).

Definition incoming_outcome (st : stream) (s s' : Session) (ext : trace) : Prop :=
  exists r rest, ext = EvParseFrame st r :: rest /\
    (let bad := rest = [EvStreamClose st] /\ s' = s in
     match r with
     | Err _ => bad
     | Ok f =>
         if bool_decide (f_Type f = FrameTypeIncomingStream) then
           match unmarshal_IncomingStream f with
           | Err _ => bad
           | Ok inc =>
               match s_handlers s !! in_TargetService inc with
               | None => s' = s /\ exists w, rest =
                   [EvWriteFrame st FrameTypeStreamReject
                      (MStreamReject 404 (inr "no handler"%string)) w; EvStreamClose st]
               | Some h => exists b rest', rest = EvHandler h b :: rest' /\
                   match b with
                   | Err e => s' = s /\ exists w, rest' =
                       [EvWriteFrame st FrameTypeStreamReject (MStreamReject 502 (inl e)) w;
                        EvStreamClose st]
                   | Ok b => served st b (in_StreamId inc) s s' rest'
                   end
               end
           end
         else bad
     end).

(** The part after the handler returned a backend. *)
Lemma run_accepted st b id ops timeout s (ena := p2pEnabled (s_p2p s)) :
  session_wf s ->
  run_ok
    (do_ (if ena then modify (fun s => set_p2p (snd (RegisterStreamModeWaiter id (s_p2p s))) s)
          else mret tt) ;;
     do w <- WriteFrame st FrameTypeStreamAccept MStreamAccept ;;
     match w with
     | Err _ =>
         do_ (if ena then modify (fun s => set_p2p (CancelStreamModeWaiter id (s_p2p s)) s)
              else mret tt) ;;
         do_ Backend_Close b ;;
         Stream_Close st
     | Ok _ =>
         do r <- wrapStream id st ;;
         do granted <- (if ena then wait_mode id ops timeout else mret None) ;;
         do_ serve r st b granted ;;
         rs_Close r
     end) s
    (fun _ s' ext => served st b id s s' ext).
Proof.
  intros Hwf. unfold served.
  eapply run_bind.
  { apply (run_if_p2p _ (fun p => snd (RegisterStreamModeWaiter id p))); [done|].
    apply wf_registerMode, Hwf. }
  intros [] s1 e1 Hwf1 _ [Es1 ->].
  assert (s_streams s1 = s_streams s) as E1 by by rewrite Es1; destruct ena.
  rcall run_write_frame. destruct a as [[]|e].
  - eapply run_bind; [by apply run_wrapStream|].
    intros r s2 e2 Hwf2 _ (-> & -> & Hst & Hsto & _ & _ & _ & Hp & _).
    assert (wraps (s_next s1) id st s2) as Hw2.
    { eexists. rewrite Hsto, lookup_insert_eq. split; [done|]. cbn. by rw_resume. }
    eapply run_bind with (Q1 := fun _ s' ext => ext = [] /\ wraps (s_next s1) id st s' /\
      s_streams s' = s_streams s2 /\ (ena = true -> mlookup (pendingMode (s_p2p s')) id = None)).
    { destruct ena; [|by apply run_ret].
      eapply run_mono; [by apply run_wait_mode|]. by intros n s' ext (-> & p & -> & Hl). }
    intros g s3 e3 Hwf3 _ (-> & Hw3 & Hs3 & Hm3).
    eapply run_bind; [by apply (run_serve _ id)|].
    intros [] s4 e4 Hwf4 _ (Hw4 & Hs4 & Hp4 & Hbc & Hfr).
    eapply run_mono; [by apply (run_Close_wraps _ id st)|].
    intros [] s5 e5 (-> & _ & Hs5 & Hp5). cbn [app]. eexists _, _. split; [done|].
    split_and!.
    + rewrite elem_of_app. by left.
    + rewrite elem_of_app, list_elem_of_singleton. by right.
    + apply Forall_app. split; [done|]. by repeat constructor.
    + rewrite Hs5. rewrite Hs3, Hst, E1 in Hs4. apply (delete_mono _ _ id) in Hs4.
      rewrite delete_insert_eq in Hs4. etrans; [exact Hs4|]. apply delete_subseteq.
    + intros _. by rewrite Hs5, lookup_delete_eq.
    + intros Hena. rewrite Hp5, Hp4. by apply Hm3.
  - eapply run_bind.
    { apply (run_if_p2p _ (CancelStreamModeWaiter id)); [done|]. apply wf_cancel, Hwf1. }
    intros [] s2 e2 Hwf2 _ [Es2 ->]. rcall run_backend_close.
    eapply run_mono; [by apply run_stream_close|]. intros [] s3 e3 (-> & ->).
    cbn [app]. eexists _, _. split; [done|]. split_and!; try done.
    + by left.
    + right. by left.
    + by repeat constructor.
    + rewrite Es2, <- E1. by destruct ena.
    + intros Hena. rewrite Es2. fold ena in Hena. rewrite Hena. apply mlookup_cancelled.
Qed.

Lemma run_handleIncoming st ops timeout s :
  session_wf s ->
  run_ok (handleIncoming st ops timeout) s (fun _ s' ext => incoming_outcome st s s' ext).
Proof.
  intros Hwf. unfold handleIncoming, incoming_outcome.
  rcall run_parse. destruct a as [f|e].
  2: { eapply run_mono; [by apply run_stream_close|]. intros [] s' ext (-> & ->). by eexists _, _. }
  case_bool_decide as Ht; cbn [negb].
  2: { eapply run_mono; [by apply run_stream_close|]. intros [] s' ext (-> & ->).
       eexists _, _. split; [done|]. cbv beta iota zeta. by rewrite bool_decide_eq_false_2. }
  destruct (unmarshal_IncomingStream f) as [inc|e] eqn:Eu.
  2: { eapply run_mono; [by apply run_stream_close|]. intros [] s' ext (-> & ->).
       eexists _, _. split; [done|]. cbv beta iota zeta. by rewrite bool_decide_eq_true_2, Eu. }
  rget. destruct (s_handlers s !! in_TargetService inc) as [h|] eqn:Eh.
  2: { rcall run_write_frame. eapply run_mono; [by apply run_stream_close|].
       intros [] s' ext (-> & ->). eexists _, _. split; [done|]. cbv beta iota zeta.
       rewrite bool_decide_eq_true_2, Eu, Eh by done. eauto. }
  rcall run_handler. destruct a as [b|e].
  2: { rcall run_write_frame. eapply run_mono; [by apply run_stream_close|].
       intros [] s' ext (-> & ->). eexists _, _. split; [done|]. cbv beta iota zeta.
       rewrite bool_decide_eq_true_2, Eu, Eh by done. eexists _, _. split; [done|].
       split; [done|]. by eexists. }
  rget. eapply run_mono; [by apply run_accepted|]. intros [] s' ext Hs.
  eexists _, _. split; [done|]. cbv beta iota zeta. rewrite bool_decide_eq_true_2, Eu, Eh by done.
  exists (Ok b), ext. by split.
Qed.

End Facts.

(** ** Properties *)


(** A generator that picks the least id not used yet. *)
Definition least_unused (t : trace) : Z :=
  default 0 (head (filter (.∉ ids t) (map Z.of_nat (seq 0 (S (length t)))))).

Definition counting_net : Net :=
  let N := demo_net demo_frames in
  tweak_net N net_dial net_write_frame (fun t _ _ _ => least_unused t).

Lemma ids_length t : (length (ids t) <= length t)%nat.
Proof. unfold ids. induction t as [|e t IH]; [done|]. cbn. destruct (generated e); cbn; lia. Qed.

Lemma counting_net_distinct : IdsDistinct counting_net.
Proof.
  intros t uri target method Hlen. cbn [net_new_stream_id counting_net tweak_net]. unfold least_unused.
  destruct (filter (.∉ ids t) (map Z.of_nat (seq 0 (S (length t))))) as [|x l] eqn:Ef.
  - exfalso. assert (map Z.of_nat (seq 0 (S (length t))) ⊆ ids t) as Hsub.
    { intros y Hy. destruct (decide (y ∈ ids t)) as [|Hn]; [done|].
      assert (y ∈ filter (.∉ ids t) (map Z.of_nat (seq 0 (S (length t))))) as Hin
        by by apply list_elem_of_filter.
      rewrite Ef in Hin. by apply elem_of_nil in Hin. }
    assert (NoDup (map Z.of_nat (seq 0 (S (length t))))) as Hnd
      by (apply NoDup_fmap_2; [apply _|apply NoDup_seq]).
    pose proof (submseteq_length _ _ (NoDup_submseteq _ _ Hnd Hsub)) as Hle.
    rewrite length_map, length_seq in Hle. pose proof (ids_length t). lia.
  - assert (x ∈ filter (.∉ ids t) (map Z.of_nat (seq 0 (S (length t))))) as Hin
      by (rewrite Ef; by left).
    apply list_elem_of_filter in Hin as [Hx Hin]. cbn.
    apply list_elem_of_fmap in Hin as (k & -> & Hk%elem_of_seq).
    by rewrite uint64_small by lia.
Qed.


(** C18. Every incoming stream is cleaned up.  [handleIncoming] closes a
    malformed request; rejects an unknown service with code 404 and a handler
    error with code 502 carrying it, and closes the stream; otherwise it
    accepts, writes no further frame, and on every path (failed accept,
    relayed or forward mode) closes both the stream and the backend, leaves
    no entry in the active set and no mode waiter. *)
Theorem handleIncoming_cleans_up `{N : Net} `{Sp : ResumeSpec} st ops timeout s t :
  session_wf s ->
  let '(_, (s', t')) := handleIncoming st ops timeout (s, t) in
  exists ext, t' = t ++ ext /\ incoming_outcome st s s' ext.
Proof.
  intros Hwf. pose proof (run_handleIncoming st ops timeout s Hwf t) as Hrun.
  destruct (handleIncoming st ops timeout (s, t)) as [u [s' t']].
  destruct Hrun as (ext & -> & _ & _ & _ & Hout). eauto.
Qed.

(** A request for stream 7 of service "svc" while stream 7 is active. *)
Definition incoming_frames (t : trace) (s : stream) : Frame :=
  mkFrame FrameTypeIncomingStream [7; 115; 118; 99].

Lemma handleIncoming_cleans_up_witness :
  exists ext s', incoming_outcome (N := demo_net incoming_frames) (mkStream 9) demo_session s' ext /\
    EvHandler 3 (Ok (mkBackend 1)) ∈ ext.
Proof.
  pose proof (@handleIncoming_cleans_up (demo_net incoming_frames) Ring.lib Ring.spec (mkStream 9)
    [] true demo_session [] demo_session_wf) as H.
  destruct (handleIncoming _ _ _ _) as [u [s' t']] eqn:E. vm_compute in E. destruct H as (ext & Ht & H).
  exists ext, s'. split; [exact H|]. rewrite app_nil_l in Ht. subst ext. simplify_eq.
  apply list_elem_of_lookup_2 with 1%nat. reflexivity.
Defined.

(** A colliding stream id defeats the stream that replaced it.
    [wrapStream] keeps the new stream and drops the prior one from the active
    set, but closing the prior wrapper afterwards removes and abandons the
    new stream, because [forgetStream] goes by id: its next [Read] or
    [Write] fails with [ErrStreamLost] and it is not resumed after a
    reconnect. *)
Theorem collision_abandons_new_stream `{Sp : ResumeSpec} s t id st old rs :
  session_wf s -> s_streams s !! id = Some old -> s_store s !! old = Some rs ->
  let '(new, (s1, t1)) := wrapStream id st (s, t) in
  let '(_, (s2, _)) := rs_Close old (s1, t1) in
  new <> old /\ s_streams s1 !! id = Some new /\ wraps new id st s1 /\
  s_streams s2 !! id = None /\ dropped new s2.
Proof.
  intros Hwf Hid Hold. pose proof (run_wrapStream id st s Hwf t) as Hw.
  destruct (wrapStream id st (s, t)) as [new [s1 t1]].
  destruct Hw as (e1 & -> & Hwf1 & _ & _ & -> & -> & Hs1 & Hsto & _).
  assert (s_next s <> old) as Hne.
  { intros <-. pose proof (swf_next s Hwf (s_next s) ltac:(by eexists)). lia. }
  assert (s_store s1 !! old = Some rs) as Hold1 by by rewrite Hsto, lookup_insert_ne.
  assert (ID (rs_state rs) = id) as Eid.
  { destruct (swf_streams s Hwf id old Hid) as (rs' & ? & <-). congruence. }
  assert (s_streams s1 !! id = Some (s_next s)) as Hnew by by rewrite Hs1, lookup_insert_eq.
  unfold rs_Close, get, mbind. rewrite Hold1, Eid.
  pose proof (run_forgetStream id s1 Hwf1 (t ++ [])) as Hf.
  destruct (forgetStream id (s1, t ++ [])) as [u [s2 t2]].
  destruct Hf as (e2 & -> & Hwf2 & _ & _ & -> & Hs2 & Hab). rewrite Hnew in Hab.
  pose proof (run_markAbandoned old s2 Hwf2 ((t ++ []) ++ [])) as Hm.
  destruct (rs_markAbandoned old (s2, (t ++ []) ++ [])) as [u' [s3 t3]].
  destruct Hm as (e3 & -> & Hwf3 & _ & _ & -> & Hs3 & Hab3). cbn.
  destruct Hab as (_ & _ & _ & _ & _ & _ & _ & _ & Hab).
  destruct (Hab _ ltac:(by rewrite Hsto, lookup_insert_eq)) as (rs2 & Hr2 & _ & Ha2 & _).
  destruct Hab3 as (_ & _ & _ & _ & _ & _ & _ & Ho3 & _).
  split_and!; [done|done| |by rewrite Hs3, Hs2, lookup_delete_eq|].
  - eexists. rewrite Hsto, lookup_insert_eq. split_and!; [done|apply new_id|done].
  - exists rs2. by rewrite Ho3.
Qed.

Lemma collision_abandons_new_stream_witness :
  let '(new, (s1, t1)) := @wrapStream Ring.lib 7 (mkStream 9) (demo_session, []) in
  let '(_, (s2, _)) := @rs_Close Ring.lib 0 (s1, t1) in
  new <> 0%nat /\ s_streams s1 !! 7 = Some new /\ wraps new 7 (mkStream 9) s1 /\
  s_streams s2 !! 7 = None /\ dropped new s2.
Proof.
  exact (@collision_abandons_new_stream Ring.lib Ring.spec demo_session [] 7
    (mkStream 9) 0 _ demo_session_wf eq_refl eq_refl).
Defined.
