(* ===== verification/EndToEnd.v ===== *)
(** * End to end: a resumable stream is a reliable byte pipe

    Two agents joined by a relay, each holding one [ResumableStream] of the
    same id.  The relay connection can break at any moment and lose any part
    of what is in flight; writes made before the break is noticed are accepted
    and lost.  Both sides then announce their positions ([Resume] writes
    STREAM_RESUME), the relay pairs the halves and echoes each payload to the
    other side, and [completeResume] retransmits.  The specification is a
    duplex pipe that delivers what was sent, in order, once.

    A step [s_write]/[s_read] is one call on the inner stream by the loop of
    [ResumableStream.Write]/[Read] together with its byte accounting. *)

From stdpp Require Import relations.
From S2P Require Import Prelude Orp Resume StreamSwap Waiters Forward Session SessionInv.
From S2P Require Import Dialing Reconnect.

Local Open Scope agent_scope.

(** ** The specification: a duplex pipe *)
Module Pipe.

Record pipe : Type := mkPipe { sent : bool -> list byte; rcvd : bool -> list byte }.

Definition empty : pipe := mkPipe (fun _ => []) (fun _ => []).

Definition upd {A} (f : bool -> A) (i : bool) (a : A) : bool -> A :=
  fun j => if Bool.eqb i j then a else f j.

(** Side [i] sends; side [i] receives the next bytes of the other side. *)
Inductive step : pipe -> pipe -> Prop :=
  | p_send p i bs : step p (mkPipe (upd (sent p) i (sent p i ++ bs)) (rcvd p))
  | p_recv p i bs :
      rcvd p i ++ bs `prefix_of` sent p (negb i) ->
      step p (mkPipe (sent p) (upd (rcvd p) i (rcvd p i ++ bs))).

Lemma upd_eq {A} (f : bool -> A) i a : upd f i a i = a.
Proof. unfold upd. by rewrite Bool.eqb_reflx. Qed.

Lemma upd_neg {A} (f : bool -> A) i a : upd f i a (negb i) = f (negb i).
Proof. unfold upd. by destruct i. Qed.

Lemma upd_neg' {A} (f : bool -> A) i a : upd f (negb i) a i = f i.
Proof. unfold upd. by destruct i. Qed.

Lemma upd_cases {A} (f : bool -> A) i a j :
  (j = i /\ upd f i a j = a) \/ (j = negb i /\ upd f i a j = f j).
Proof. destruct i, j; auto. Qed.

End Pipe.
Import Pipe.

(** ** The system *)
Section System.
Context `{Sp : ResumeSpec}.

Inductive status : Type :=
  | Up                          (* the wrapper reads and writes its inner stream *)
  | Down                        (* reads and writes are parked *)
  | Announced (m : StreamResume)  (* STREAM_RESUME sent *)
  | Resuming (peer : StreamResume) (* paired; the peer's payload is on the stream *)
  | Lost.                       (* forgotten: ErrStreamLost *)

Record config : Type := mkC {
  c_st : bool -> State;
  c_status : bool -> status;
  c_got : bool -> list byte;    (* bytes delivered to the application *)
  c_ch : bool -> list byte;     (* bytes in flight from this side *)
  c_alive : bool
}.

Definition set_status (i : bool) (x : status) (c : config) : config :=
  mkC (c_st c) (upd (c_status c) i x) (c_got c) (c_ch c) (c_alive c).

(** [completeResume] of a wrapper with state [st0] reads the payload [peer],
    retransmits [gap] and succeeds. *)
Definition completes (st0 : State) (peer : StreamResume) (gap : list byte) : Prop :=
  exists (N : Net) st (s : Session) t t' f n,
    net_parse_frame t st = Ok f /\ unmarshal_StreamResume f = Ok peer /\
    completeResume st0 st (s, t) = (None, (s, t')) /\
    t' = t ++ EvParseFrame st (Ok f) :: gap_sent st gap n.

Inductive sys_step : config -> config -> Prop :=
  | s_write c i p :
      c_status c i = Up -> Sent (c_st c i) + Z.of_nat (length p) < 2 ^ 63 ->
      sys_step c (mkC (upd (c_st c) i (OnWrite p (c_st c i))) (c_status c) (c_got c)
        (if c_alive c then upd (c_ch c) i (c_ch c i ++ p) else c_ch c) (c_alive c))
  | s_read c i p rest :
      c_status c i = Up -> c_ch c (negb i) = p ++ rest ->
      sys_step c (mkC (upd (c_st c) i (OnRead (Z.of_nat (length p)) (c_st c i))) (c_status c)
        (upd (c_got c) i (c_got c i ++ p)) (upd (c_ch c) (negb i) rest) (c_alive c))
  | s_checkpoint c i a :
      (* the peer reported [a] bytes received *)
      0 <= a <= Received (c_st c (negb i)) ->
      sys_step c (mkC (upd (c_st c) i (OnCheckpointFromPeer a (c_st c i))) (c_status c) (c_got c)
        (c_ch c) (c_alive c))
  | s_break c ch :
      (forall i, ch i `prefix_of` c_ch c i) ->
      sys_step c (mkC (c_st c) (c_status c) (c_got c) ch false)
  | s_notice c i :
      c_alive c = false -> c_status c i = Up -> sys_step c (set_status i Down c)
  | s_announce c i :
      c_status c i = Down ->
      sys_step c (set_status i (Announced (resume_message (c_st c i))) c)
  | s_pair c m :
      (forall i, c_status c i = Announced (m i)) ->
      sys_step c (mkC (c_st c) (fun i => Resuming (m (negb i))) (c_got c) (fun _ => []) true)
  | s_complete c i peer gap :
      c_status c i = Resuming peer -> completes (c_st c i) peer gap ->
      sys_step c (mkC (c_st c) (upd (c_status c) i Up) (c_got c)
        (if c_alive c then upd (c_ch c) i (c_ch c i ++ gap) else c_ch c) (c_alive c))
  | s_lost c i : sys_step c (set_status i Lost c).

Definition sys_init (id : Z) : config :=
  mkC (fun _ => NewState id 0) (fun _ => Up) (fun _ => []) (fun _ => []) true.

(** ** Retransmission *)
Lemma completes_gap st0 peer gap :
  completes st0 peer gap ->
  sr_StreamId peer = uint64 (ID st0) /\
  RetransmitFrom st0 (int64 (sr_PeerAckPosition peer)) = Ok gap.
Proof.
  intros (N & st & s & t & t' & f & n & Hf & Hu & Hrun & ->). revert Hrun.
  unfold completeResume, ParseFrame, mbind, mret. rewrite Hf, Hu.
  destruct (Z.eqb_spec (sr_StreamId peer) (uint64 (ID st0))) as [->|]; cbn [negb]; [|done].
  destruct (RetransmitFrom st0 _) as [g|e]; [|done]. intros Hrun. split; [done|]. f_equal.
  revert Hrun. unfold gap_sent, Stream_Write. destruct (0 <? length g)%nat eqn:El.
  - cbn. destruct (net_write _ st g) as [n' [e|]]; [done|]. cbn. intros [= E].
    rewrite <- app_assoc in E. apply app_inv_head in E. cbn in E. injection E as E.
    destruct gap; cbn in E; congruence.
  - intros [= E]. apply app_inv_head in E. injection E as E.
    destruct (0 <? length gap)%nat eqn:El'; [done|].
    apply Nat.ltb_ge in El, El'. destruct g, gap; cbn in *; (done || lia).
Qed.

(** A relay that echoes [peer] on every stream. *)
Definition echo_net (peer : StreamResume) : Net :=
  demo_net (fun _ _ => mkFrame FrameTypeStreamResume
    [sr_StreamId peer; sr_MyPosition peer; sr_PeerAckPosition peer]).

Lemma completes_intro st0 peer gap :
  sr_StreamId peer = uint64 (ID st0) ->
  RetransmitFrom st0 (int64 (sr_PeerAckPosition peer)) = Ok gap ->
  completes st0 peer gap.
Proof.
  intros Hid Hg. pose (s := new_session (mkConn 0) (mkStream 0) "" DefaultDialer).
  exists (echo_net peer), (mkStream 0), s, [].
  eexists (EvParseFrame (mkStream 0) (Ok _) :: gap_sent (mkStream 0) gap (Z.of_nat (length gap))).
  eexists _, _. split; [done|]. split; [by destruct peer|]. split; [|done].
  unfold completeResume, ParseFrame, mbind, mret. cbn -[Nat.ltb]. rewrite Hid, Z.eqb_refl. cbn -[Nat.ltb].
  rewrite Hg. unfold gap_sent, Stream_Write. by destruct (0 <? length gap)%nat.
Qed.

(** ** The invariant of the direction from [i] to the other side *)
Definition got_of (c : config) (i : bool) : list byte := c_got c (negb i).

Record dir_inv (id : Z) (c : config) (i : bool) : Prop := {
  di_id : ID (c_st c i) = id;
  di_recv : Received (c_st c i) = Z.of_nat (length (c_got c i));
  di_bound : Sent (c_st c i) < 2 ^ 63;
  di_prefix : got_of c i ++ c_ch c i `prefix_of` written (c_st c i);
  di_exact : c_alive c = true -> c_status c i = Up ->
    got_of c i ++ c_ch c i = written (c_st c i);
  di_announced : forall m, c_status c i = Announced m ->
    sr_StreamId m = uint64 id /\
    sr_PeerAckPosition m = uint64 (Z.of_nat (length (c_got c i)));
  di_resuming : forall peer, c_status c i = Resuming peer ->
    sr_StreamId peer = uint64 id /\
    (c_alive c = true -> c_ch c i = [] /\
       sr_PeerAckPosition peer = uint64 (Z.of_nat (length (got_of c i))))
}.

Definition sys_inv (id : Z) (c : config) : Prop := forall i, dir_inv id c i.

Lemma written_length (st : State) : Z.of_nat (length (written st)) = Sent st.
Proof. symmetry. apply sent_written. Qed.

Lemma sys_inv_init id : sys_inv id (sys_init id).
Proof.
  intros i. constructor; cbn; try done; rw_resume; try done.
  rewrite sent_written, new_written. done.
Qed.

(** What the other side has is shorter than what was written. *)
Lemma got_bound id c i :
  sys_inv id c -> 0 <= Z.of_nat (length (got_of c i)) <= Sent (c_st c i) /\
    Z.of_nat (length (got_of c i)) < 2 ^ 63.
Proof.
  intros Hinv. destruct (Hinv i) as [_ _ Hb Hp _ _ _]. apply prefix_length in Hp.
  rewrite length_app in Hp. rewrite <- written_length in *. lia.
Qed.

(** The retransmitted gap is what the other side is missing. *)
Lemma gap_missing id c i peer gap :
  sys_inv id c -> completes (c_st c i) peer gap ->
  sr_PeerAckPosition peer = uint64 (Z.of_nat (length (got_of c i))) ->
  got_of c i ++ gap = written (c_st c i).
Proof.
  intros Hinv [_ Hg]%completes_gap Hack. destruct (got_bound id c i Hinv) as [[H0 Hle] Hlt].
  rewrite Hack, int64_uint64 in Hg by lia.
  destruct (decide (Z.of_nat (length (got_of c i)) < ring_tail (c_st c i))) as [Hr|Hr].
  { by rewrite (retransmit_before _ _ Hr) in Hg. }
  rewrite retransmit_ok in Hg by lia. injection Hg as <-. rewrite Nat2Z.id.
  apply prefix_take_drop. etrans; [|apply (di_prefix id c i (Hinv i))]. by apply prefix_app_r.
Qed.

(** ** Preservation, step by step *)
Lemma inv_write id c i p :
  sys_inv id c -> c_status c i = Up -> Sent (c_st c i) + Z.of_nat (length p) < 2 ^ 63 ->
  sys_inv id (mkC (upd (c_st c) i (OnWrite p (c_st c i))) (c_status c) (c_got c)
    (if c_alive c then upd (c_ch c) i (c_ch c i ++ p) else c_ch c) (c_alive c)).
Proof.
  intros Hinv Hup Hlt j. destruct (Hinv j) as [Hid Hrecv Hb Hp He Ha Hr].
  constructor; cbn; unfold got_of in *; cbn.
  - destruct (upd_cases (c_st c) i (OnWrite p (c_st c i)) j) as [[-> ->]|[-> ->]]; [by rewrite onwrite_id|done].
  - destruct (upd_cases (c_st c) i (OnWrite p (c_st c i)) j) as [[-> ->]|[-> ->]]; [by rewrite onwrite_received|done].
  - destruct (upd_cases (c_st c) i (OnWrite p (c_st c i)) j) as [[-> ->]|[-> ->]]; [|done].
    rewrite sent_written in Hlt. rewrite sent_written, onwrite_written, length_app. lia.
  - destruct (upd_cases (c_st c) i (OnWrite p (c_st c i)) j) as [[-> ->]|[-> ->]].
    + rewrite onwrite_written. destruct (c_alive c) eqn:Eal.
      * by rewrite upd_eq, app_assoc, (He eq_refl Hup).
      * by apply prefix_app_r.
    + destruct (c_alive c); [by rewrite upd_neg|done].
  - intros Eal Hj. rewrite Eal.
    destruct (upd_cases (c_st c) i (OnWrite p (c_st c i)) j) as [[-> ->]|[-> ->]].
    + by rewrite onwrite_written, upd_eq, app_assoc, (He Eal Hup).
    + rewrite upd_neg. auto.
  - done.
  - intros peer Hpe. destruct (Hr peer Hpe) as [? Hr']. split; [done|]. intros Eal.
    destruct (Hr' Eal) as [Hch ?]. rewrite Eal. split; [|done].
    destruct (upd_cases (c_ch c) i (c_ch c i ++ p) j) as [[-> _]|[-> ->]]; [congruence|done].
Qed.

Lemma inv_read id c i p rest :
  sys_inv id c -> c_status c i = Up -> c_ch c (negb i) = p ++ rest ->
  sys_inv id (mkC (upd (c_st c) i (OnRead (Z.of_nat (length p)) (c_st c i))) (c_status c)
    (upd (c_got c) i (c_got c i ++ p)) (upd (c_ch c) (negb i) rest) (c_alive c)).
Proof.
  intros Hinv Hup Hch j. destruct (Hinv j) as [Hid Hrecv Hb Hp He Ha Hr].
  set (st' := OnRead _ _). assert (written (upd (c_st c) i st' j) = written (c_st c j)) as Ew.
  { destruct (upd_cases (c_st c) i st' j) as [[-> ->]|[-> ->]]; [by apply onread_written|done]. }
  assert (upd (c_got c) i (c_got c i ++ p) (negb j) ++ upd (c_ch c) (negb i) rest j =
          c_got c (negb j) ++ c_ch c j) as Eg.
  { destruct (decide (j = i)) as [->|Hne].
    - by rewrite upd_neg, upd_neg'.
    - replace j with (negb i) in * by by destruct i, j. rewrite Bool.negb_involutive, !upd_eq.
      by rewrite Hch, app_assoc. }
  constructor; cbn; unfold got_of in *; cbn; rewrite ?Ew, ?Eg; try done.
  - destruct (upd_cases (c_st c) i st' j) as [[-> ->]|[-> ->]]; [by unfold st'; rewrite onread_id|done].
  - destruct (upd_cases (c_st c) i st' j) as [[-> ->]|[-> ->]].
    + unfold st'. rewrite onread_received, Hrecv, upd_eq, length_app. lia.
    + by rewrite upd_neg.
  - by rewrite sent_written, Ew, <- sent_written.
  - intros m Hm. destruct (Ha m Hm) as [? ->]. split; [done|].
    destruct (upd_cases (c_got c) i (c_got c i ++ p) j) as [[-> _]|[-> ->]]; [congruence|done].
  - intros peer Hpe. destruct (Hr peer Hpe) as [? Hr']. split; [done|]. intros Eal.
    destruct (Hr' Eal) as [Hcj Hack]. destruct (decide (j = i)) as [->|Hne]; [congruence|].
    replace j with (negb i) in * by by destruct i, j.
    rewrite Hcj in Hch. symmetry in Hch. apply app_nil in Hch as [-> ->].
    by rewrite Bool.negb_involutive, !upd_eq, app_nil_r in *.
Qed.

Lemma inv_break id c ch :
  sys_inv id c -> (forall i, ch i `prefix_of` c_ch c i) ->
  sys_inv id (mkC (c_st c) (c_status c) (c_got c) ch false).
Proof.
  intros Hinv Hch j. destruct (Hinv j) as [Hid Hrecv Hb Hp He Ha Hr].
  constructor; cbn; try done.
  - etrans; [|exact Hp]. by apply prefix_app.
  - intros peer Hpe. by destruct (Hr peer Hpe).
Qed.

Lemma inv_checkpoint id c i a :
  sys_inv id c ->
  sys_inv id (mkC (upd (c_st c) i (OnCheckpointFromPeer a (c_st c i))) (c_status c) (c_got c)
    (c_ch c) (c_alive c)).
Proof.
  intros Hinv j. destruct (Hinv j) as [Hid Hrecv Hb Hp He Ha Hr].
  set (st' := OnCheckpointFromPeer _ _).
  assert (written (upd (c_st c) i st' j) = written (c_st c j) /\
          Received (upd (c_st c) i st' j) = Received (c_st c j) /\
          ID (upd (c_st c) i st' j) = ID (c_st c j)) as (Ew & Er & Ei).
  { destruct (upd_cases (c_st c) i st' j) as [[-> ->]|[-> ->]]; [|done].
    unfold st'. by rewrite checkpoint_written, checkpoint_received, checkpoint_id. }
  constructor; cbn; rewrite ?Ew, ?Er, ?Ei; try done.
  by rewrite sent_written, Ew, <- sent_written.
Qed.

(** A status change that neither starts a resume nor brings a side up. *)
Lemma inv_status id c i x :
  sys_inv id c -> x <> Up -> (forall p, x <> Resuming p) ->
  (forall m, x = Announced m -> sr_StreamId m = uint64 id /\
     sr_PeerAckPosition m = uint64 (Z.of_nat (length (c_got c i)))) ->
  sys_inv id (set_status i x c).
Proof.
  intros Hinv Hup Hre Han j. destruct (Hinv j) as [Hid Hrecv Hb Hp He Ha Hr].
  constructor; cbn; try done;
    destruct (upd_cases (c_status c) i x j) as [[-> ->]|[-> ->]]; try done.
  intros peer Hx. by destruct (Hre peer).
Qed.

Lemma resume_message_fields id c i :
  sys_inv id c ->
  sr_StreamId (resume_message (c_st c i)) = uint64 id /\
  sr_PeerAckPosition (resume_message (c_st c i)) = uint64 (Z.of_nat (length (c_got c i))).
Proof.
  intros Hinv. destruct (Hinv i) as [Hid Hrecv _ _ _ _ _]. unfold resume_message.
  rewrite payload_spec. cbn. by rewrite Hid, Hrecv.
Qed.

Lemma inv_pair id c m :
  sys_inv id c -> (forall i, c_status c i = Announced (m i)) ->
  sys_inv id (mkC (c_st c) (fun i => Resuming (m (negb i))) (c_got c) (fun _ => []) true).
Proof.
  intros Hinv Hm j. destruct (Hinv j) as [Hid Hrecv Hb Hp He Ha Hr].
  constructor; cbn; try done.
  - unfold got_of. cbn. rewrite app_nil_r. etrans; [|exact Hp]. by apply prefix_app_r.
  - intros peer [= <-]. destruct (di_announced id c (negb j) (Hinv (negb j)) _ (Hm (negb j))). done.
Qed.

Lemma inv_complete id c i peer gap :
  sys_inv id c -> c_status c i = Resuming peer -> completes (c_st c i) peer gap ->
  sys_inv id (mkC (c_st c) (upd (c_status c) i Up) (c_got c)
    (if c_alive c then upd (c_ch c) i (c_ch c i ++ gap) else c_ch c) (c_alive c)).
Proof.
  intros Hinv Hst Hcomp j. destruct (Hinv j) as [Hid Hrecv Hb Hp He Ha Hr].
  assert (c_alive c = true -> got_of c i ++ c_ch c i ++ gap = written (c_st c i)) as Hgap.
  { intros Eal. destruct (di_resuming id c i (Hinv i) _ Hst) as [_ Hr'].
    destruct (Hr' Eal) as [-> Hack]. by apply (gap_missing id c i peer). }
  constructor; cbn; unfold got_of in *; cbn; try done.
  - destruct (c_alive c); [|done].
    destruct (upd_cases (c_ch c) i (c_ch c i ++ gap) j) as [[-> ->]|[-> ->]]; [|done].
    by rewrite Hgap.
  - intros Eal Hj. rewrite Eal.
    destruct (upd_cases (c_ch c) i (c_ch c i ++ gap) j) as [[-> ->]|[-> ->]]; [by apply Hgap|].
    apply He; [done|]. by rewrite upd_neg in Hj.
  - destruct (upd_cases (c_status c) i Up j) as [[-> ->]|[-> ->]]; done.
  - destruct (upd_cases (c_status c) i Up j) as [[-> ->]|[-> ->]]; [done|].
    intros peer' Hpe. destruct (Hr peer' Hpe) as [? Hr']. split; [done|]. intros Eal.
    rewrite Eal, upd_neg. by apply Hr'.
Qed.

Lemma step_sys_inv id c c' : sys_inv id c -> sys_step c c' -> sys_inv id c'.
Proof.
  intros Hinv Hs. destruct Hs.
  - by apply inv_write.
  - by apply inv_read.
  - by apply inv_checkpoint.
  - by apply inv_break.
  - by apply inv_status.
  - apply inv_status; try done. intros m [= <-]. by apply resume_message_fields.
  - by apply inv_pair.
  - by eapply inv_complete.
  - by apply inv_status.
Qed.

Lemma reachable_sys_inv id c : rtc sys_step (sys_init id) c -> sys_inv id c.
Proof.
  intros Hr. assert (forall c0, sys_inv id c0 -> rtc sys_step c0 c -> sys_inv id c) as H.
  { intros c0 Hc0 Hrtc. induction Hrtc; eauto using step_sys_inv. }
  eapply H, Hr. apply sys_inv_init.
Qed.

(** ** Refinement *)
Definition abs (c : config) : pipe := mkPipe (fun i => written (c_st c i)) (c_got c).

(** Pipes are compared pointwise. *)
Definition pipe_eq (p q : pipe) : Prop :=
  (forall i, sent p i = sent q i) /\ (forall i, rcvd p i = rcvd q i).

#[export] Instance pipe_eq_equiv : Equivalence pipe_eq.
Proof.
  split; [by intros p|by intros p q [H1 H2]|].
  intros p q r [H1 H2] [H3 H4]. split; intros i; [by rewrite H1|by rewrite H2].
Qed.

(** One concrete step is one step of the pipe or none. *)
Lemma step_simulates id c c' :
  sys_inv id c -> sys_step c c' ->
  pipe_eq (abs c) (abs c') \/ exists q, Pipe.step (abs c) q /\ pipe_eq q (abs c').
Proof.
  intros Hinv Hs. destruct Hs as [c i p _ _|c i p rest Hup Hch|c i a _|c ch _|c i _ _|c i _|c m _|c i peer gap _ _|c i];
    try by left.
  - right. eexists. split; [by apply (p_send _ i p)|]. split; [|done]. intros j. cbn.
    unfold upd. destruct (Bool.eqb i j) eqn:E; [|done]. apply Bool.eqb_prop in E as <-.
    by rewrite onwrite_written.
  - right. eexists. split; [apply (p_recv _ i p)|].
    + cbn. etrans; [|apply (di_prefix id c (negb i) (Hinv (negb i)))].
      unfold got_of. rewrite Bool.negb_involutive, Hch. apply prefix_app, prefix_app_r. done.
    + split; [|done]. intros j. cbn. unfold upd. destruct (Bool.eqb i j) eqn:E; [|done].
      apply Bool.eqb_prop in E as <-. by rewrite onread_written.
  - left. split; [|done]. intros j. cbn. unfold upd. destruct (Bool.eqb i j) eqn:E; [|done].
    apply Bool.eqb_prop in E as <-. by rewrite checkpoint_written.
Qed.

End System.

Section Refinement.
Context `{Sp : ResumeSpec}.

Lemma pipe_step_eq p p' q :
  pipe_eq p p' -> Pipe.step p q -> exists q', Pipe.step p' q' /\ pipe_eq q q'.
Proof.
  intros [Hs Hr] Hst. destruct Hst as [p i bs|p i bs Hp].
  - eexists. split; [apply (p_send p' i bs)|]. split; [|done]. intros j. cbn. unfold upd.
    by rewrite !Hs.
  - eexists. split; [apply (p_recv p' i bs); by rewrite <- Hs, <- Hr|]. split; [done|].
    intros j. cbn. unfold upd. by rewrite !Hr.
Qed.

Lemma run_simulates id c c' :
  sys_inv id c -> rtc sys_step c c' ->
  forall p, pipe_eq p (abs c) -> exists q, rtc Pipe.step p q /\ pipe_eq q (abs c').
Proof.
  intros Hinv Hrtc. induction Hrtc as [c|c c1 c' Hs Hrtc IH]; intros p Hp; [eauto using rtc_refl|].
  specialize (IH (step_sys_inv id c c1 Hinv Hs)).
  destruct (step_simulates id c c1 Hinv Hs) as [Heq|(q & Hq & Heq)].
  - apply IH. by etrans.
  - destruct (pipe_step_eq (abs c) p q) as (q' & Hq' & Heq'); [by symmetry|done|].
    destruct (IH q') as (r & Hr & ?); [by etrans; [symmetry|]|]. eauto using rtc_l.
Qed.

(** Both sides announce, the relay pairs them, both complete. *)
Lemma recovers id c :
  sys_inv id c -> (forall i, c_status c i = Down) ->
  (forall i, ring_tail (c_st c i) <= Received (c_st c (negb i))) ->
  exists c', rtc sys_step c c' /\ c_alive c' = true /\ (forall i, c_status c' i = Up) /\
    (forall i, c_st c' i = c_st c i) /\ (forall i, c_got c' i = c_got c i).
Proof.
  intros Hinv Hdown Hring.
  assert (forall i, exists gap,
    completes (c_st c i) (resume_message (c_st c (negb i))) gap) as Hgap.
  { intros i. eexists. destruct (resume_message_fields id c (negb i) Hinv) as [Hid Hack].
    apply completes_intro; [by rewrite Hid, (di_id id c i (Hinv i))|].
    destruct (got_bound id c i Hinv) as [[H0 Hle] Hlt]. unfold got_of in *.
    rewrite Hack, int64_uint64 by lia. apply retransmit_ok; [|done].
    rewrite <- (di_recv id c (negb i) (Hinv (negb i))) in *. auto. }
  destruct (Hgap true) as [gt Hgt], (Hgap false) as [gf Hgf].
  set (m := fun i => resume_message (c_st c i)).
  eexists. split; [|split; [|split; [|split]]].
  - eapply rtc_l; [by apply (s_announce _ true)|].
    eapply rtc_l; [by apply (s_announce _ false); cbn; apply Hdown|].
    eapply rtc_l; [by apply (s_pair _ m); intros []|].
    eapply rtc_l; [by apply (s_complete _ true (m false) gt)|].
    eapply rtc_l; [by apply (s_complete _ false (m true) gf)|]. apply rtc_refl.
  - done.
  - by intros [].
  - done.
  - done.
Qed.
End Refinement.

(** ** A lossy run

    Side [true] writes three bytes, the other side reads one of them, the
    relay connection breaks and the rest is lost. *)
Section Lossy.
#[local] Existing Instance Ring.lib.
#[local] Existing Instance Ring.spec.

Definition lossy_run : config :=
  let c1 := mkC (upd (c_st (sys_init 7)) true (OnWrite [1; 2; 3] (NewState 7 0)))
              (fun _ => Up) (fun _ => []) (upd (fun _ => []) true ([] ++ [1; 2; 3])) true in
  let c2 := mkC (upd (c_st c1) false (OnRead 1 (NewState 7 0)))
              (fun _ => Up) (upd (fun _ => []) false ([] ++ [1])) (upd (c_ch c1) (negb false) [2; 3]) true in
  let c3 := mkC (c_st c2) (fun _ => Up) (c_got c2) (fun _ => []) false in
  set_status false Down (set_status true Down c3).

Lemma lossy_run_reachable : rtc sys_step (sys_init 7) lossy_run.
Proof.
  unfold lossy_run.
  eapply rtc_l; [by apply (s_write _ true [1; 2; 3])|].
  eapply rtc_l; [by apply (s_read _ false [1] [2; 3])|].
  eapply rtc_l; [apply (s_break _ (fun _ => [])); intros i; apply prefix_nil|].
  eapply rtc_l; [by apply (s_notice _ true)|].
  eapply rtc_l; [by apply (s_notice _ false)|]. apply rtc_refl.
Qed.
End Lossy.

(** ** Properties *)




(** Two bytes written and still in flight. *)
Definition in_flight : config (L := Ring.lib) :=
  mkC (upd (c_st (sys_init 7)) true (OnWrite [5; 6] (NewState 7 0))) (fun _ => Up) (fun _ => [])
    (upd (fun _ => []) true ([] ++ [5; 6])) true.



