(* ===== verification/Race.v ===== *)
(** * Moving a stream while it is in use

    [Resume] and [handleDirectStream] compute the bytes to retransmit, write
    them on the new stream and only then swap the wrapper; [Write] takes the
    inner stream, writes on it and only then records the bytes.  No lock is
    held across either sequence.  The two are interleaved here step by step,
    and so are [Read] and the announcement of [MigrateToDirect]. *)

From stdpp Require Import relations.
From S2P Require Import Prelude Orp Resume StreamSwap Waiters Forward Session.

Section Race.
Context `{Sp : ResumeSpec}.

(** ** A writer and a retransmission *)

(** [Write] between its critical points. *)
Inductive writer : Type :=
  | WTop                                    (* at the top of the loop, or parked *)
  | WSnap (inner : stream)                  (* the inner stream was read *)
  | WWrote (inner : stream) (bs : list byte).  (* [inner] took [bs]; not yet recorded *)

(** [completeResume] and [SwapInner], or the end of [handleDirectStream]. *)
Inductive mover : Type :=
  | MReady
  | MGap (gap : list byte)
  | MSent
  | MDone.

Record wconf : Type := mkW {
  w_state : State;
  w_guarded : guarded;
  w_chans : chans;
  w_writer : writer;
  w_mover : mover;
  w_new : list byte            (* bytes on the new stream *)
}.

(** [new] is the new stream, [ack] what the peer acknowledged, and [live]
    whether the old stream still takes bytes. *)
Context (new : stream) (ack : Z) (live : bool).

Definition set_writer (w : writer) (c : wconf) : wconf :=
  mkW (w_state c) (w_guarded c) (w_chans c) w (w_mover c) (w_new c).

Definition set_mover (m : mover) (c : wconf) : wconf :=
  mkW (w_state c) (w_guarded c) (w_chans c) (w_writer c) m (w_new c).

Definition record_bytes (bs : list byte) (st : State) : State :=
  if (0 <? length bs)%nat then OnWrite bs st else st.

Inductive wstep : wconf -> wconf -> Prop :=
  | ws_snapshot c :
      w_writer c = WTop -> g_abandoned (w_guarded c) = false ->
      wstep c (set_writer (WSnap (g_inner (w_guarded c))) c)
  | ws_write c inner bs :
      w_writer c = WSnap inner -> (inner <> new -> live = false -> bs = []) ->
      wstep c (mkW (w_state c) (w_guarded c) (w_chans c) (WWrote inner bs) (w_mover c)
        (if decide (inner = new) then w_new c ++ bs else w_new c))
  | ws_record c inner bs :
      w_writer c = WWrote inner bs ->
      wstep c (mkW (record_bytes bs (w_state c)) (w_guarded c) (w_chans c) WTop (w_mover c) (w_new c))
  | ms_retransmit c gap :
      w_mover c = MReady -> RetransmitFrom (w_state c) ack = Ok gap ->
      wstep c (set_mover (MGap gap) c)
  | ms_send c gap :
      w_mover c = MGap gap ->
      wstep c (mkW (w_state c) (w_guarded c) (w_chans c) (w_writer c) MSent (w_new c ++ gap))
  | ms_swap c :
      w_mover c = MSent ->
      let '(_, (g, h)) := swap_section new (w_guarded c) (w_chans c) in
      wstep c (mkW (w_state c) g h (w_writer c) MDone (w_new c)).

Definition start (st : State) (g : guarded) (h : chans) (w : writer) : wconf := mkW st g h w MReady [].

(** What the peer has in the end: what it acknowledged and the new stream. *)
Definition peer_bytes (st : State) (c : wconf) : list byte :=
  take (Z.to_nat ack) (written st) ++ w_new c.

(** ** Without writes on the old stream nothing is lost *)
Definition writes_on (w : writer) : option stream :=
  match w with WTop => None | WSnap i | WWrote i _ => Some i end.

Definition unrecorded (w : writer) : list byte := match w with WWrote _ bs => bs | _ => [] end.

Record race_inv (c : wconf) : Prop := {
  ri_ack : 0 <= ack <= Sent (w_state c);
  ri_old : writes_on (w_writer c) <> Some new -> unrecorded (w_writer c) = [];
  ri_before : w_mover c <> MDone ->
    g_inner (w_guarded c) <> new /\ writes_on (w_writer c) <> Some new;
  ri_bytes :
    match w_mover c with
    | MReady => w_new c = []
    | MGap gap => w_new c = [] /\ gap = drop (Z.to_nat ack) (written (w_state c))
    | MSent | MDone =>
        w_new c = drop (Z.to_nat ack) (written (w_state c)) ++ unrecorded (w_writer c)
    end
}.

Lemma written_record bs st : written (record_bytes bs st) = written st ++ bs.
Proof.
  unfold record_bytes. destruct bs as [|b bs]; cbn; [by rewrite app_nil_r|]. apply onwrite_written.
Qed.

Lemma drop_written bs st :
  0 <= ack <= Sent st -> drop (Z.to_nat ack) (written st ++ bs) = drop (Z.to_nat ack) (written st) ++ bs.
Proof. intros Ha. rewrite sent_written in Ha. apply drop_app_le. lia. Qed.

Lemma retransmit_gap st gap :
  0 <= ack <= Sent st -> RetransmitFrom st ack = Ok gap -> gap = drop (Z.to_nat ack) (written st).
Proof.
  intros Ha Hr. destruct (decide (ring_tail st <= ack)) as [Ht|Ht].
  - rewrite retransmit_ok in Hr by lia. congruence.
  - rewrite retransmit_before in Hr by lia. done.
Qed.

Lemma race_inv_start st g h w :
  0 <= ack <= Sent st -> g_inner g <> new -> writes_on w <> Some new -> unrecorded w = [] ->
  race_inv (start st g h w).
Proof. intros. by constructor. Qed.

Lemma record_inv c inner bs :
  race_inv c -> w_writer c = WWrote inner bs ->
  race_inv (mkW (record_bytes bs (w_state c)) (w_guarded c) (w_chans c) WTop (w_mover c) (w_new c)).
Proof.
  intros [Ha Ho Hb Hby] Ew. rewrite Ew in *. cbn [unrecorded writes_on] in *.
  assert (w_mover c <> MDone -> bs = []) as Hnil.
  { intros Hm. apply Ho. by apply Hb. }
  assert (drop (Z.to_nat ack) (written (record_bytes bs (w_state c))) =
    drop (Z.to_nat ack) (written (w_state c)) ++ bs) as Hd by by rewrite written_record, drop_written.
  constructor; cbn.
  - rewrite sent_written in Ha |- *. rewrite written_record, length_app. lia.
  - done.
  - intros Hm. split; [by apply Hb|done].
  - rewrite Hd, app_nil_r. destruct (w_mover c); try done.
    rewrite (Hnil ltac:(done)), app_nil_r. by destruct Hby.
Qed.

Lemma step_race_inv c c' : live = false -> race_inv c -> wstep c c' -> race_inv c'.
Proof.
  intros Hl Hinv Hs. pose proof Hinv as [Ha Ho Hb Hby]. destruct Hs as
    [c Ew Hab|c inner bs Ew Hold|c inner bs Ew|c gap Em Hr|c gap Em|c Em].
  - rewrite Ew in *. constructor; cbn; [done|done| |].
    + intros Hm. destruct (Hb Hm) as [Hi _]. split; [done|congruence].
    + destruct (w_mover c); done.
  - rewrite Ew in *. cbn [writes_on unrecorded] in *. constructor; cbn; [done| |done|].
    + intros Hne. apply Hold; congruence.
    + destruct (decide (inner = new)) as [->|Hne].
      * destruct (w_mover c) eqn:Em; try (by destruct (Hb ltac:(done))).
        by rewrite Hby, app_nil_r.
      * rewrite (Hold Hne Hl). by destruct (w_mover c).
  - by eapply record_inv.
  - rewrite Em in *. constructor; cbn; [done|done|intros _; by apply Hb|].
    split; [done|by apply retransmit_gap].
  - rewrite Em in *. destruct Hby as [-> ->]. constructor; cbn; [done|done|intros _; by apply Hb|].
    destruct (Hb ltac:(done)) as [_ Hw]. by rewrite (Ho Hw), app_nil_r.
  - rewrite Em in *. constructor; cbn; try done.
Qed.

Lemma reachable_race_inv c c' : live = false -> race_inv c -> rtc wstep c c' -> race_inv c'.
Proof. intros Hl Hc Hs. induction Hs; [done|]. by eauto using step_race_inv. Qed.

(** A run in which a byte goes to the old stream while the gap is on its way. *)
Lemma write_run st g h b b' :
  0 <= ack -> ring_tail st <= ack <= Sent st -> g_inner g <> new -> g_abandoned g = false ->
  b <> b' -> live = true ->
  exists c, rtc wstep (start st g h WTop) c /\ w_mover c = MDone /\
    w_writer c = WTop /\ written (w_state c) = written st ++ [b; b'] /\
    ~ peer_bytes st c `prefix_of` written (w_state c).
Proof.
  intros H0 Ha Hg Hab Hb Hl.
  assert (RetransmitFrom st ack = Ok (drop (Z.to_nat ack) (written st))) as Hret
    by by apply retransmit_ok.
  eexists. split_and!.
  - eapply rtc_l; [by apply ws_snapshot|].
    eapply rtc_l; [by eapply (ms_retransmit _ (drop (Z.to_nat ack) (written st)))|].
    eapply rtc_l; [eapply (ws_write _ (g_inner g) [b]); [done|congruence]|].
    eapply rtc_l; [by eapply ws_record|].
    eapply rtc_l; [by eapply ms_send|].
    eapply rtc_l; [by apply ms_swap|].
    eapply rtc_l; [by apply ws_snapshot|].
    eapply rtc_l; [eapply (ws_write _ new [b']); [done|congruence]|].
    eapply rtc_l; [by eapply ws_record|]. apply rtc_refl.
  - done.
  - done.
  - cbn. by rewrite !onwrite_written, <- app_assoc.
  - cbn. rewrite !onwrite_written. unfold peer_bytes. cbn.
    rewrite (decide_False _ _ Hg), decide_True by done. cbn.
    rewrite app_assoc, take_drop, <- app_assoc. intros Hp%prefix_app_inv. cbn in Hp.
    apply prefix_cons_inv_1 in Hp. congruence.
Qed.
End Race.

(** ** A reader and an announcement *)
Section Announce.
Context `{Sp : ResumeSpec}.

(** [Read] between its critical points. *)
Inductive reader : Type :=
  | RTop
  | RSnap (inner : stream)
  | RGot (n : Z).              (* [n] bytes delivered; not yet recorded *)

(** [MigrateToDirect] or [Resume] after the new stream was opened. *)
Inductive announcer : Type := AOpen | AAnnounced | ADone.

Record rconf : Type := mkR {
  r_state : State;
  r_guarded : guarded;
  r_chans : chans;
  r_reader : reader;
  r_announcer : announcer;
  r_old : list byte;           (* what the old stream still holds *)
  r_new : list byte;           (* what the new stream holds *)
  r_got : list byte            (* what the application was given *)
}.

(** [peer] is the state of the other side, which answers the announcement with
    the bytes it computes from it. *)
Context (new : stream) (peer : State).

Inductive rstep : rconf -> rconf -> Prop :=
  | rs_snapshot c :
      r_reader c = RTop -> g_abandoned (r_guarded c) = false ->
      rstep c (mkR (r_state c) (r_guarded c) (r_chans c) (RSnap (g_inner (r_guarded c)))
        (r_announcer c) (r_old c) (r_new c) (r_got c))
  | rs_read_old c inner p rest :
      r_reader c = RSnap inner -> inner <> new -> r_old c = p ++ rest ->
      rstep c (mkR (r_state c) (r_guarded c) (r_chans c) (RGot (Z.of_nat (length p)))
        (r_announcer c) rest (r_new c) (r_got c ++ p))
  | rs_read_new c p rest :
      r_reader c = RSnap new -> r_new c = p ++ rest ->
      rstep c (mkR (r_state c) (r_guarded c) (r_chans c) (RGot (Z.of_nat (length p)))
        (r_announcer c) (r_old c) rest (r_got c ++ p))
  | rs_record c n :
      r_reader c = RGot n ->
      rstep c (mkR (OnRead n (r_state c)) (r_guarded c) (r_chans c) RTop
        (r_announcer c) (r_old c) (r_new c) (r_got c))
  | as_announce c gap :
      r_announcer c = AOpen ->
      RetransmitFrom peer (int64 (sr_PeerAckPosition (resume_message (r_state c)))) = Ok gap ->
      rstep c (mkR (r_state c) (r_guarded c) (r_chans c) (r_reader c) AAnnounced
        (r_old c) (r_new c ++ gap) (r_got c))
  | as_swap c :
      r_announcer c = AAnnounced ->
      let '(_, (g, h)) := swap_section new (r_guarded c) (r_chans c) in
      rstep c (mkR (r_state c) g h (r_reader c) ADone (r_old c) (r_new c) (r_got c)).

Definition reading (st : State) (g : guarded) (h : chans) (old got : list byte) : rconf :=
  mkR st g h RTop AOpen old [] got.

(** A run in which the old stream delivers [p] between the announcement and
    the swap, after which the new stream delivers everything. *)
Lemma announce_run st g h p rest got gap :
  g_abandoned g = false -> g_inner g <> new -> Received st = Z.of_nat (length got) ->
  Received st < 2 ^ 63 -> RetransmitFrom peer (Received st) = Ok gap ->
  exists c, rtc rstep (reading st g h (p ++ rest) got) c /\
    r_announcer c = ADone /\ r_got c = got ++ p ++ gap.
Proof.
  intros Ha Hi Hr Hlt Hgap.
  assert (int64 (sr_PeerAckPosition (resume_message st)) = Received st) as Eack.
  { unfold resume_message. rewrite payload_spec. apply int64_uint64. lia. }
  eexists. split_and!.
  - eapply rtc_l; [by apply rs_snapshot|].
    eapply rtc_l; [eapply (as_announce _ gap); [done|cbn; by rewrite Eack]|]. cbn [r_state].
    eapply rtc_l; [by eapply (rs_read_old _ (g_inner g) p rest)|].
    eapply rtc_l; [by eapply rs_record|].
    eapply rtc_l; [by apply as_swap|].
    eapply rtc_l; [by apply rs_snapshot|].
    eapply rtc_l; [by apply (rs_read_new _ gap []); cbn; rewrite ?app_nil_r|]. apply rtc_refl.
  - done.
  - cbn. by rewrite <- app_assoc.
Qed.
End Announce.

(** ** Properties *)


(** C23. Moving a stream in use loses and repeats bytes.  A write on the still
    working old stream between the computation of the gap and the swap is
    recorded as sent but is not on the new stream, so that the acknowledged
    bytes and the new stream are no prefix of what was written; and bytes read
    from the old stream between the announcement and the swap are delivered to
    the application a second time by the retransmission. *)
Theorem busy_move_corrupts `{Sp : ResumeSpec} new ack st g h b b' p rest got peer :
  0 <= ack -> ring_tail st <= ack <= Sent st -> g_inner g <> new -> g_abandoned g = false -> b <> b' ->
  Received st = Z.of_nat (length got) -> Received st < 2 ^ 63 ->
  written peer = got ++ p ++ rest -> ring_tail peer <= Z.of_nat (length got) ->
  (exists c, rtc (wstep new ack true) (start st g h WTop) c /\ w_mover c = MDone /\
     w_writer c = WTop /\ written (w_state c) = written st ++ [b; b'] /\
     ~ peer_bytes ack st c `prefix_of` written (w_state c)) /\
  (exists c, rtc (rstep new peer) (reading st g h (p ++ rest) got) c /\
     r_announcer c = ADone /\ r_got c = got ++ p ++ p ++ rest).
Proof.
  intros H0 Ha Hg Hab Hb Hr Hlt Hp Ht.
  split; [by apply write_run|apply announce_run; try done].
  rewrite Hr, retransmit_ok, Hp, Nat2Z.id, drop_app_length; [done| |lia].
  rewrite sent_written, Hp, length_app. lia.
Qed.

(** ** Witnesses *)
Definition demo_state : Ring.state := Ring.mkState 0 8 [1; 2; 3] 0 1.
Definition demo_peer : Ring.state := Ring.mkState 0 8 [5; 6; 7] 0 3.
Definition demo_guarded : guarded := mkGuarded (mkStream 0) (Some 0%nat) false.
Definition demo_chans : chans := mkChans 1 ∅.

Definition demo_moved : @wconf Ring.lib :=
  let '(_, (g, h)) := swap_section (mkStream 1) demo_guarded demo_chans in
  @mkW Ring.lib demo_state g h WTop MDone [2; 3].

Lemma demo_moved_reachable :
  rtc (@wstep Ring.lib (mkStream 1) 1 false)
    (@start Ring.lib demo_state demo_guarded demo_chans WTop) demo_moved.
Proof.
  eapply rtc_l; [by apply (@ms_retransmit Ring.lib (mkStream 1) 1 false _ [2; 3])|].
  eapply rtc_l; [by apply (@ms_send Ring.lib (mkStream 1) 1 false _ [2; 3])|].
  eapply rtc_l; [by apply (@ms_swap Ring.lib (mkStream 1) 1 false)|]. apply rtc_refl.
Qed.


Lemma busy_move_corrupts_witness :
  exists c : @rconf Ring.lib, r_announcer c = ADone /\ r_got c = [5; 6; 6; 7].
Proof.
  destruct (proj2 (@busy_move_corrupts Ring.lib Ring.spec (mkStream 1) 1 demo_state demo_guarded
    demo_chans 8 9 [6] [7] [5] demo_peer ltac:(lia) ltac:(cbn; lia) ltac:(done) eq_refl ltac:(lia)
    eq_refl ltac:(cbn; lia) eq_refl ltac:(cbn; lia))) as (c & _ & H1 & H2).
  exact (ex_intro _ c (conj H1 H2)).
Defined.
