(* ===== verification/P2P.v ===== *)
(** * [pkg/p2p]: connectivity check, promotion and demotion

    The engine that dials a peer's candidates, the four-step promotion and
    the liveness watcher of a direct connection.  The hooks of a [Promoter]
    are programs over the state of their owner. *)

From Stdlib Require Import Sorting.Sorted.
From S2P Require Import Prelude Netip Netip6 Orp Candidate Resume StreamSwap Waiters Session.
From S2P Require Import Dialing.

Local Open Scope agent_scope.

(** ** Wire form of candidates *)
Definition toPBOne (c : Candidate) : pbCandidate :=
  mkPb (Kind c) (Addr_String (ap_addr (CAddr c))) (uint32 (ap_port (CAddr c))) (Priority c).

Definition toPB (cs : list Candidate) : pbCandidates := map (fun c => Some (toPBOne c)) cs.

(** [None]: a nil element panics. *)
Fixpoint FromPB (cs : pbCandidates) : option (list Candidate) :=
  match cs with
  | [] => Some []
  | None :: _ => None
  | Some c :: cs' =>
      out ← FromPB cs';
      match ParseAddr (pb_Ip c) with
      | None => Some out
      | Some ip =>
          Some (mkCandidate (pb_Kind c) (AddrPortFrom ip (uint16 (pb_Port c))) (pb_Priority c) :: out)
      end
  end.

(** ** The connectivity check *)
Record Engine : Type := mkEngine {
  e_tlsConf : nat;
  e_perPair : Z;
  e_dialer : option dialer
}.

Definition DefaultPerPairTimeout : Z := 500 * 1000000.

Definition NewEngine (tlsConf : nat) : Engine := mkEngine tlsConf DefaultPerPairTimeout None.

Definition SetPerPairTimeout (d : Z) (e : Engine) : Engine :=
  if d >? 0 then mkEngine (e_tlsConf e) d (e_dialer e) else e.

Definition SetDialer (d : dialer) (e : Engine) : Engine :=
  mkEngine (e_tlsConf e) (e_perPair e) (Some d).

(** [CheckResult] without the measured RTT. *)
Record CheckResult : Type := mkCheck {
  cr_Local : Candidate;
  cr_Remote : Candidate;
  cr_Conn : conn
}.

Section P2P.
Context `{N : Net} {S : Type}.

(** The best local candidate, or the zero value. *)
Definition pick_local (locals : list Candidate) : Candidate :=
  match locals with
  | [] => candidate_zero
  | _ => default candidate_zero (Sort locals !! 0%nat)
  end.

Fixpoint check_loop (e : Engine) (locals sorted : list Candidate) : Eff S (result CheckResult) :=
  match sorted with
  | [] => mret (Err (Sentinel NoPair))
  | r :: sorted' =>
      if negb (AddrPort_IsValid (CAddr r)) then check_loop e locals sorted'
      else
        do c <- Dialer_Dial (match e_dialer e with Some d => d | None => DialQUIC end)
                  (AddrPort_String (CAddr r)) ;;
        match c with
        | Err _ =>
            do ce <- ctx_Err ;;
            match ce with
            | Some e' => mret (Err e')
            | None => check_loop e locals sorted'
            end
        | Ok c => mret (Ok (mkCheck (pick_local locals) r c))
        end
  end.

Definition Check (e : Engine) (locals remotes : list Candidate) : Eff S (result CheckResult) :=
  check_loop e locals (Sort remotes).

(** ** Promotion *)
Record Promoter : Type := mkPromoter {
  pr_StreamID : Z;
  pr_Engine : option Engine;
  pr_Locals : list Candidate;
  pr_SendOffer : option (CandidateOffer -> Eff S (option error));
  pr_RecvAnswer : option (Eff S (result (option CandidateAnswer)));
  pr_SendMigrate : option (Z -> pbCandidate -> Eff S (option error))
}.

Definition Promoter_Run (p : Promoter) : Eff S (result CheckResult) :=
  match pr_Engine p, pr_SendOffer p, pr_RecvAnswer p with
  | Some eng, Some sendOffer, Some recvAnswer =>
      do e <- sendOffer (mkOffer (pr_StreamID p) (toPB (pr_Locals p))) ;;
      match e with
      | Some e => mret (Err (Wrapped "p2p: send offer" e))
      | None =>
          do a <- recvAnswer ;;
          match a with
          | Err e => mret (Err (Wrapped "p2p: recv answer" e))
          | Ok None => mret (Err (ErrorString "p2p: peer answer missing"))
          | Ok (Some answer) =>
              if negb (an_StreamId answer =? pr_StreamID p) then
                mret (Err (ErrorString "p2p: answer stream_id mismatch"))
              else
                match FromPB (an_Candidates answer) with
                | None => do_ emit EvPanic ;; mret (Err (ErrorString "nil candidate"))
                | Some remotes =>
                    do res <- Check eng (pr_Locals p) remotes ;;
                    match res with
                    | Err e => mret (Err e)
                    | Ok res =>
                        do_ match pr_SendMigrate p with
                            | Some send =>
                                do_ send (pr_StreamID p) (toPBOne (cr_Remote res)) ;; mret tt
                            | None => mret tt
                            end ;;
                        mret (Ok res)
                    end
                end
          end
      end
  | _, _, _ => mret (Err (Sentinel PromoterMisconfigured))
  end.

(** ** Demotion *)
Inductive DemoteReason : Type := DemoteReasonPeerClose | DemoteReasonRTTTimeout.

Record Demoter : Type := mkDemoter {
  dm_Conn : option conn;
  dm_OnDegrade : option (DemoteReason -> error -> Eff S unit)
}.

(** [None] when the fuel is used up; Go's returned error otherwise (never
    nil). *)
Fixpoint demote_loop (fuel : nat) (c : conn) (onDegrade : DemoteReason -> error -> Eff S unit)
    : Eff S (option error) :=
  match fuel with
  | O => mret None
  | Datatypes.S fuel' =>
      do st <- Conn_AcceptStream c ;;
      match st with
      | Err err =>
          do ce <- ctx_Err ;;
          match ce with
          | Some e => mret (Some e)
          | None => do_ onDegrade DemoteReasonPeerClose err ;; mret (Some err)
          end
      | Ok st => do_ Stream_Close st ;; demote_loop fuel' c onDegrade
      end
  end.

Definition Demoter_Run (fuel : nat) (d : Demoter) : Eff S (option error) :=
  match dm_Conn d, dm_OnDegrade d with
  | Some c, Some f => demote_loop fuel c f
  | _, _ => mret (Some (Sentinel DemoterMisconfigured))
  end.
End P2P.
Arguments Promoter : clear implicits.
Arguments Demoter : clear implicits.

(** ** Facts: the wire form *)

Definition valid_candidate (c : Candidate) : Prop := AddrPort_IsValid (CAddr c) = true.

#[export] Instance valid_candidate_dec c : Decision (valid_candidate c).
Proof. unfold valid_candidate. apply _. Defined.

(** Every valid address survives the trip; the zero address is dropped. *)
Lemma FromPB_toPB_valid cs :
  Forall (fun c => addrport_wf (CAddr c)) cs -> FromPB (toPB cs) = Some (filter valid_candidate cs).
Proof.
  induction 1 as [|[k [a p] pr] cs [Ha Hp] _ IH]; [done|]. cbn in Ha, Hp.
  cbn [toPB map FromPB]. fold (toPB cs). rewrite IH, filter_cons. cbn [mbind option_bind].
  unfold toPBOne at 1. cbn [CAddr ap_addr pb_Ip]. case_decide as Hv; unfold valid_candidate in Hv.
  - rewrite ParseAddr_String by done.
    cbn. unfold uint32, AddrPortFrom. by rewrite (uint_small 32), uint16_small by lia.
  - destruct a; [reflexivity|by destruct Hv..].
Qed.

(** A decoded port always fits 16 bits. *)
Lemma FromPB_ports cs out :
  FromPB cs = Some out -> Forall (fun c => 0 <= ap_port (CAddr c) < 65536) out.
Proof.
  revert out. induction cs as [|[c|] cs IH]; intros out; cbn; [intros [= <-]; constructor| |done].
  destruct (FromPB cs) as [o|]; [|done]. cbn. specialize (IH o eq_refl).
  destruct (ParseAddr (pb_Ip c)); intros [= <-]; [|done]. constructor; [|done].
  cbn. apply (uint_range 16). lia.
Qed.

(** ** Facts: the check *)
Section CheckFacts.
Context `{N : Net} {S : Type}.

(** The candidates tried before the outcome, in order: up to the first success,
    or all of them, or until the context ended. *)
Definition check_tried (valid tr : list Candidate) (t' : trace) (r : result CheckResult) : Prop :=
  match r with
  | Ok res => exists pre post, valid = pre ++ cr_Remote res :: post /\ tr = pre ++ [cr_Remote res]
  | Err e =>
      (e = Sentinel NoPair /\ tr = valid) \/
      (net_ctx_done t' = Some e /\ tr `prefix_of` valid)
  end.

Lemma check_loop_run e locals sorted (s : S) t :
  exists r ext tr, check_loop e locals sorted (s, t) = (r, (s, t ++ ext)) /\
    dialed ext = map (fun c => AddrPort_String (CAddr c)) tr /\
    check_tried (filter valid_candidate sorted) tr (t ++ ext) r /\
    (forall l, open_conns l ext = kept cr_Conn r l) /\
    (forall res, r = Ok res -> cr_Local res = pick_local locals).
Proof.
  revert t. induction sorted as [|c sorted IH]; intros t; cbn [check_loop].
  { exists (Err (Sentinel NoPair)), [], []. rewrite app_nil_r. split_and!; try done. by left. }
  destruct (AddrPort_IsValid (CAddr c)) eqn:Ev; cbn [negb].
  2: { destruct (IH t) as (r & ext & tr & -> & ?). exists r, ext, tr.
       rewrite filter_cons_False by (unfold valid_candidate; congruence). done. }
  rewrite filter_cons_True by done. unfold Dialer_Dial, ctx_Err, mbind, mret.
  set (d := match e_dialer e with Some d => d | None => DialQUIC end).
  destruct (net_dial t d (AddrPort_String (CAddr c))) as [cn|er].
  - eexists _, [_], [c]. split; [done|]. split_and!; try done.
    + by exists [], (filter valid_candidate sorted).
    + by intros res [= <-].
  - destruct (net_ctx_done _) as [ce|] eqn:Ec.
    + eexists _, [_], [c]. split; [done|]. split_and!; try done.
      right. split; [done|]. apply (prefix_app_r [c] [c] _). done.
    + destruct (IH (t ++ [EvDial d (AddrPort_String (CAddr c)) (Err er)]))
        as (r & ext & tr & -> & Hd & Ht & Ho & Hl).
      exists r, (EvDial d (AddrPort_String (CAddr c)) (Err er) :: ext), (c :: tr).
      rewrite <- app_assoc in *. split_and!; try done.
      * unfold dialed in *. cbn. by rewrite Hd.
      * destruct r as [res|e']; cbn in *.
        -- destruct Ht as (pre & post & -> & ->). by exists (c :: pre), post.
        -- destruct Ht as [[-> ->]|[Hc Hp]]; [by left|right]. split; [done|]. by apply prefix_cons.
Qed.
End CheckFacts.

(** ** Facts: the best local candidate *)
Lemma Sort_sorted_perm cs : StronglySorted prio_ge (Sort cs) /\ Sort cs ≡ₚ cs.
Proof.
  rewrite Sort_ins. destruct (foldl_ins_spec [] cs) as (H1 & H2 & _); [constructor|]. done.
Qed.

Lemma pick_local_max locals c : c ∈ locals -> Priority c <= Priority (pick_local locals).
Proof.
  intros Hc. unfold pick_local. destruct locals as [|a locals]; [by apply elem_of_nil in Hc|].
  destruct (Sort_sorted_perm (a :: locals)) as [Hs Hp].
  rewrite <- Hp in Hc. destruct (Sort (a :: locals)) as [|x l]; [by apply elem_of_nil in Hc|].
  cbn. apply elem_of_cons in Hc as [->|Hc]; [done|].
  inversion Hs as [|? ? _ Hall]. rewrite Forall_forall in Hall. by apply Hall.
Qed.

(** ** Facts: promotion *)
Section PromoteFacts.
Context `{N : Net} {S : Type}.

(** Hooks that open and close no connection. *)
Definition conn_neutral {A} (m : Eff S A) : Prop :=
  forall s t, exists a s' ext, m (s, t) = (a, (s', t ++ ext)) /\ forall l, open_conns l ext = l.

Record hooks_neutral (p : Promoter S) : Prop := {
  hn_offer : forall f o, pr_SendOffer p = Some f -> conn_neutral (f o);
  hn_answer : forall m, pr_RecvAnswer p = Some m -> conn_neutral m;
  hn_migrate : forall f i c, pr_SendMigrate p = Some f -> conn_neutral (f i c)
}.

Lemma Promoter_Run_conns (p : Promoter S) s t :
  hooks_neutral p ->
  exists r s' ext, Promoter_Run p (s, t) = (r, (s', t ++ ext)) /\
    forall l, open_conns l ext = kept cr_Conn r l.
Proof.
  intros [Ho Ha Hm]. unfold Promoter_Run, mbind, mret, emit.
  destruct (pr_Engine p) as [eng|]; [|by eexists _, _, []; rewrite app_nil_r].
  destruct (pr_SendOffer p) as [so|]; [|by eexists _, _, []; rewrite app_nil_r].
  destruct (pr_RecvAnswer p) as [ra|]; [|by eexists _, _, []; rewrite app_nil_r].
  destruct (Ho so (mkOffer (pr_StreamID p) (toPB (pr_Locals p))) eq_refl s t)
    as (e & s1 & e1 & -> & H1).
  destruct e as [e|]; [by eexists _, _, e1|].
  destruct (Ha ra eq_refl s1 (t ++ e1)) as (a & s2 & e2 & -> & H2).
  assert (forall l, open_conns l (e1 ++ e2) = l) as H12.
  { intros l. by rewrite open_conns_app, H1, H2. }
  rewrite <- app_assoc. destruct a as [[a|]|e]; [|by eexists _, _, _..].
  destruct (an_StreamId a =? pr_StreamID p); cbn [negb]; [|by eexists _, _, _].
  destruct (FromPB (an_Candidates a)) as [remotes|].
  2: { eexists _, _, (e1 ++ e2 ++ [EvPanic]). rewrite !app_assoc. split; [done|]. intros l.
       rewrite open_conns_app, H12. done. }
  unfold Check.
  destruct (check_loop_run eng (pr_Locals p) (Sort remotes) s2 (t ++ e1 ++ e2))
    as (r & e3 & tr & -> & _ & _ & H3 & _).
  assert (forall l, open_conns l (e1 ++ e2 ++ e3) = kept cr_Conn r l) as H123.
  { intros l. by rewrite app_assoc, open_conns_app, H12, H3. }
  destruct r as [res|e]; [|by eexists _, _, _; rewrite <- !app_assoc].
  destruct (pr_SendMigrate p) as [sm|]; [|by eexists _, _, _; rewrite <- !app_assoc].
  destruct (Hm sm (pr_StreamID p) (toPBOne (cr_Remote res)) eq_refl s2 ((t ++ e1 ++ e2) ++ e3))
    as (e & s4 & e4 & -> & H4).
  eexists _, _, (e1 ++ e2 ++ e3 ++ e4). rewrite !app_assoc. split; [done|]. intros l.
  rewrite <- !app_assoc, app_assoc, (app_assoc _ e3), open_conns_app, <- app_assoc, H123. apply H4.
Qed.

(** Streams the peer opened, and streams closed, in order. *)
Definition accepts (t : trace) : list stream :=
  omap (fun e => match e with EvAcceptStream _ (Ok st) => Some st | _ => None end) t.
Definition closes (t : trace) : list stream :=
  omap (fun e => match e with EvStreamClose st => Some st | _ => None end) t.

Lemma demote_loop_run fuel c f (s : S) t :
  exists ext, closes ext = accepts ext /\
  match demote_loop fuel c f (s, t) with
  | (None, st') => st' = (s, t ++ ext) /\ length (accepts ext) = fuel
  | (Some e, st') => exists err,
      net_accept (t ++ ext) c = Err err /\
      let t1 := t ++ ext ++ [EvAcceptStream c (Err err)] in
      (net_ctx_done t1 = Some e /\ st' = (s, t1)) \/
      (net_ctx_done t1 = None /\ e = err /\ st' = snd (f DemoteReasonPeerClose err (s, t1)))
  end.
Proof.
  revert t. induction fuel as [|fuel IH]; intros t; cbn [demote_loop].
  { exists []. by rewrite app_nil_r. }
  unfold Conn_AcceptStream, ctx_Err, Stream_Close, emit, mbind, mret.
  destruct (net_accept t c) as [st|err] eqn:Ea.
  - destruct (IH ((t ++ [EvAcceptStream c (Ok st)]) ++ [EvStreamClose st])) as (ext & Hc & Hm).
    exists (EvAcceptStream c (Ok st) :: EvStreamClose st :: ext). unfold closes, accepts in *.
    split; [cbn; by rewrite Hc|]. revert Hm. cbv zeta.
    destruct (demote_loop fuel c f _) as [[e|] st'].
    { intros (err & Ha & Hm). exists err. rewrite <- !app_assoc in Ha, Hm. done. }
    intros [-> Hm]. rewrite <- !app_assoc. split; [done|]. cbn. by rewrite Hm.
  - exists []. rewrite app_nil_r. split; [done|]. cbn [app].
    destruct (net_ctx_done (t ++ [EvAcceptStream c (Err err)])) as [e|] eqn:Ec.
    + exists err. auto.
    + destruct (f DemoteReasonPeerClose err _) as [u [s' t']] eqn:Ef.
      exists err. rewrite Ec, Ef. auto.
Qed.
End PromoteFacts.

(** ** Properties *)

(** C37. The connectivity check: candidates are dialed by descending priority
    (in the peer's order within a priority), skipping invalid addresses, and
    the first that answers is selected, so no reachable candidate of a higher
    priority was passed over; the check fails with [ErrNoPair] only after
    every valid candidate was tried, or with the context's error.  Only the
    selected connection stays open, and the reported local candidate is the
    best one. *)
Theorem Check_selects `{N : Net} {S} e locals remotes (s : S) t :
  let '(r, (s', t')) := Check e locals remotes (s, t) in
  s' = s /\ exists ext tr, t' = t ++ ext /\
    dialed ext = map (fun c => AddrPort_String (CAddr c)) tr /\
    StronglySorted prio_ge (filter valid_candidate (Sort remotes)) /\
    filter valid_candidate (Sort remotes) ≡ₚ filter valid_candidate remotes /\
    check_tried (filter valid_candidate (Sort remotes)) tr t' r /\
    (forall l, open_conns l ext = kept cr_Conn r l) /\
    (forall res, r = Ok res -> forall c, c ∈ locals -> Priority c <= Priority (cr_Local res)).
Proof.
  unfold Check. destruct (check_loop_run e locals (Sort remotes) s t)
    as (r & ext & tr & -> & Hd & Ht & Ho & Hl).
  destruct (Sort_sorted_perm remotes) as [Hs Hp].
  split; [done|]. exists ext, tr. split_and!; try done.
  - by apply filter_sorted.
  - by rewrite Hp.
  - intros res Hr c Hc. rewrite (Hl res Hr). by apply pick_local_max.
Qed.

(** Candidates survive the wire: decoding what was encoded gives back the
    same candidates in the same order, for IPv4 and IPv6 addresses with or
    without a zone, dropping only the zero address; the text the engine dials
    for a valid candidate denotes exactly its address and port; and whatever a
    peer sends, every decoded port fits 16 bits. *)
Theorem FromPB_toPB cs pbs out :
  (Forall (fun c => addrport_wf (CAddr c)) cs ->
     FromPB (toPB cs) = Some (filter valid_candidate cs) /\
     Forall (fun c => ParseAddrPort (AddrPort_String (CAddr c)) = Some (CAddr c))
       (filter valid_candidate cs)) /\
  (FromPB pbs = Some out -> Forall (fun c => 0 <= ap_port (CAddr c) < 65536) out).
Proof.
  split; [|apply FromPB_ports]. intros Hcs. split; [by apply FromPB_toPB_valid|].
  apply Forall_forall. intros c [Hv Hc]%list_elem_of_filter. rewrite Forall_forall in Hcs.
  by apply ParseAddrPort_String; [apply Hcs|].
Qed.

(** The demoter closes every stream the peer opens on a direct connection
    and reports its failure exactly once: when accepting fails it returns the
    context's error if the context is done, and otherwise calls [OnDegrade]
    with [peer_close] and the accept error and returns that error. *)
Theorem Demoter_reports_once `{N : Net} {S} fuel c f (s : S) t :
  exists ext, closes ext = accepts ext /\
  match Demoter_Run fuel (mkDemoter (Some c) (Some f)) (s, t) with
  | (None, st') => st' = (s, t ++ ext) /\ length (accepts ext) = fuel
  | (Some e, st') => exists err,
      net_accept (t ++ ext) c = Err err /\
      let t1 := t ++ ext ++ [EvAcceptStream c (Err err)] in
      (net_ctx_done t1 = Some e /\ st' = (s, t1)) \/
      (net_ctx_done t1 = None /\ e = err /\ st' = snd (f DemoteReasonPeerClose err (s, t1)))
  end.
Proof. apply demote_loop_run. Qed.

Lemma FromPB_toPB_witness :
  let cs := [mkCandidate "host" (mkAddrPort (Addr4 0x0a000001) 7000) 70;
             mkCandidate "host" (mkAddrPort AddrZero 0) 50;
             mkCandidate "srflx" (mkAddrPort (Addr6 0x20010db8000000000000000000000001 "eth0") 443) 20] in
  FromPB (toPB cs) = Some (filter valid_candidate cs) /\ length (filter valid_candidate cs) = 2%nat.
Proof.
  intros cs. split; [|reflexivity]. apply (FromPB_toPB cs [] []).
  repeat constructor; cbn; lia.
Defined.
