(* ===== verification/Promote.v ===== *)
(** * Promotion, direct migration and checkpoints of a session

    [pkg/session/promote.go] beyond the waiters (file [Waiters]) and
    [pkg/session/checkpoints.go]: the control reader that dispatches frames,
    the responder's warm-up punch, [Promote], the two ends of a direct
    migration and the checkpoint exchange. *)

From S2P Require Import Prelude Netip Orp Candidate Resume StreamSwap Waiters Forward.
From S2P Require Import Session SessionInv Dialing Reconnect P2P.

Local Open Scope agent_scope.

Section Promote.
Context `{N : Net} `{L : ResumeLib}.

Definition writeCtrl (typ : FrameType) (m : message) : Eff Session (option error) :=
  do s <- get ;;
  do w <- WriteFrame (s_ctrl s) typ m ;;
  mret match w with Ok _ => None | Err e => Some e end.

(** ** Warm-up punch *)

(** [net.ParseIP]: a textual address without zone; an IPv4-mapped address is
    the IPv4 address. *)
Definition ParseIP (s : string) : option Addr :=
  match ParseAddr s with
  | Some (Addr6 v z) => if bool_decide (z = "") then Some (Unmap (Addr6 v "")) else None
  | r => r
  end.

(** The address one candidate is punched at; [None] is a [continue]. *)
Definition punch_target (c : option pbCandidate) : option AddrPort :=
  match c with
  | None => None
  | Some c =>
      if bool_decide (pb_Ip c = "") || (pb_Port c =? 0) || (pb_Port c >? 0xFFFF) then None
      else
        match ParseIP (pb_Ip c) with
        | None => None
        | Some ip => Some (mkAddrPort ip (pb_Port c))
        end
  end.

Fixpoint punch_loop (sock : nat) (cands : pbCandidates) : Eff Session unit :=
  match cands with
  | [] => mret tt
  | c :: cands' =>
      do_ match punch_target c with
          | None => mret tt
          | Some addr => do_ Datagram sock [0] addr ;; mret tt
          end ;;
      punch_loop sock cands'
  end.

Definition warmupPunch (streamID : Z) (cands : pbCandidates) : Eff Session unit :=
  do s <- get ;;
  match s_dialer s with
  | Some (SharedTransport sock) => punch_loop sock cands
  | _ => mret tt
  end.

(** ** Checkpoints *)

(** [rs.state] of the registered wrappers, in map order. *)
Definition checkpoint_message (st : State) : StreamCheckpoint :=
  mkCheckpoint (uint64 (ID st)) (uint64 (Sent st)) (uint64 (Received st)).

Fixpoint emit_states (states : list State) : Eff Session unit :=
  match states with
  | [] => mret tt
  | st :: states' =>
      do e <- writeCtrl FrameTypeStreamCheckpoint (MStreamCheckpoint (checkpoint_message st)) ;;
      match e with
      | Some _ => mret tt
      | None => emit_states states'
      end
  end.

Definition stream_states (s : Session) : list State :=
  omap (fun r => rs_state <$> s_store s !! r) (map snd (map_to_list (s_streams s))).

Definition emitOnce : Eff Session unit :=
  do s <- get ;;
  do states <- map_order (stream_states s) ;;
  emit_states states.

(** [emitCheckpoints]: one tick per period until the context is done; [false]
    when the fuel is used up. *)
Fixpoint emitCheckpoints (fuel : nat) (period : Z) : Eff Session bool :=
  match fuel with
  | O => mret false
  | S fuel' =>
      do done_ <- sleep period ;;
      if done_ : bool then mret true else do_ emitOnce ;; emitCheckpoints fuel' period
  end.

Definition StartResume (ctx : nat) (period CheckpointPeriodMs : Z) : Eff Session unit :=
  let period := if period <=? 0 then CheckpointPeriodMs * 1000000 else period in
  do s <- get ;;
  let '(start, p) := EnableP2P ctx (s_p2p s) in
  do_ modify (set_p2p p) ;;
  do_ (if start : bool then emit (EvSpawn "controlReader") else mret tt) ;;
  emit (EvSpawn "emitCheckpoints").

Definition applyCheckpoint (cp : StreamCheckpoint) (s : Session) : Session :=
  match s_streams s !! cp_StreamId cp with
  | None => s
  | Some r =>
      match s_store s !! r with
      | None => s
      | Some rs =>
          set_store (<[r := mkRS (OnCheckpointFromPeer (int64 (cp_PeerAckPosition cp)) (rs_state rs))
                              (rs_guarded rs)]> (s_store s)) (s_chans s) s
      end
  end.

(** ** The control reader *)

(** One frame. *)
Definition control_frame (f : Frame) : Eff Session unit :=
  match f_Type f with
  | FrameTypeCandidateAnswer =>
      match unmarshal_CandidateAnswer f with
      | Err _ => mret tt
      | Ok a => modify (fun s => set_p2p (deliverAnswer a (s_p2p s)) s)
      end
  | FrameTypeCandidateOffer =>
      match unmarshal_CandidateOffer f with
      | Err _ => mret tt
      | Ok o =>
          do s <- get ;;
          do_ writeCtrl FrameTypeCandidateAnswer (MCandidateAnswer (AnswerOffer o (s_p2p s))) ;;
          warmupPunch (of_StreamId o) (of_Candidates o)
      end
  | FrameTypeStreamCheckpoint =>
      match unmarshal_StreamCheckpoint f with
      | Err _ => mret tt
      | Ok cp => modify (applyCheckpoint cp)
      end
  | FrameTypeAllocGranted =>
      match unmarshal_AllocGranted f with
      | Err _ => mret tt
      | Ok g => modify (fun s => set_p2p (deliverMode (ag_StreamId g) (Some g) (s_p2p s)) s)
      end
  | FrameTypeStreamReady =>
      match unmarshal_StreamReady f with
      | Err _ => mret tt
      | Ok id => modify (fun s => set_p2p (deliverMode id None (s_p2p s)) s)
      end
  | _ => mret tt
  end.

(** Whether [control_frame] ends in [continue], which skips the check of the
    context. *)
Definition undecodable (f : Frame) : bool :=
  match f_Type f with
  | FrameTypeCandidateAnswer => negb (is_ok (unmarshal_CandidateAnswer f))
  | FrameTypeCandidateOffer => negb (is_ok (unmarshal_CandidateOffer f))
  | FrameTypeStreamCheckpoint => negb (is_ok (unmarshal_StreamCheckpoint f))
  | FrameTypeAllocGranted => negb (is_ok (unmarshal_AllocGranted f))
  | FrameTypeStreamReady => negb (is_ok (unmarshal_StreamReady f))
  | _ => false
  end.

(** [true] when the reader stops, [false] when the fuel is used up. *)
Fixpoint controlReader (fuel : nat) : Eff Session bool :=
  match fuel with
  | O => mret false
  | S fuel' =>
      do s <- get ;;
      do f <- ParseFrame (s_ctrl s) ;;
      match f with
      | Err _ => mret true
      | Ok f =>
          do_ control_frame f ;;
          if undecodable f then controlReader fuel'
          else
            do ce <- ctx_Err ;;
            match ce with
            | Some _ => mret true
            | None => controlReader fuel'
            end
      end
  end.

(** ** Promote *)

(** [RecvAnswer] while other goroutines perform [ops]; a call that is still
    blocked then returns when its context ends. *)
Definition recv_answer (ch : nat) (ops : list p2p_op) (ctxDone : option error)
    : Eff Session (result (option CandidateAnswer)) :=
  fun '(s, t) =>
    let p := apply_ops ops (s_p2p s) in
    match recvAnswer ch ctxDone p with
    | Some (inl a, p') => (Ok (Some a), (set_p2p p' s, t))
    | Some (inr e, p') => (Err e, (set_p2p p' s, t))
    | None => (Err (Sentinel DeadlineExceeded), (set_p2p p s, t))
    end.

Definition choose_locals (opt_locals : list Candidate) (session_locals : pbCandidates)
    (ifaddrs : result (list netAddr)) (hostPort : Z) : option (list Candidate) :=
  match opt_locals with
  | [] =>
      match session_locals with
      | [] => Some (HostCandidates ifaddrs hostPort)
      | _ => FromPB session_locals
      end
  | _ => Some opt_locals
  end.

Definition Promote (r : nat) (eng : option Engine) (opt_locals : list Candidate) (hostPort : Z)
    (ifaddrs : result (list netAddr)) (ops : list p2p_op) (ctxDone : option error)
    : Eff Session (result CheckResult) :=
  do s <- get ;;
  match s_store s !! r, eng with
  | Some rs, Some eng =>
      let streamID := uint64 (ID (rs_state rs)) in
      match registerAnswerWaiter streamID (s_p2p s) with
      | None => mret (Err (ErrorString "session: EnableP2P not called"))
      | Some (answerCh, p) =>
          do_ modify (set_p2p p) ;;
          match choose_locals opt_locals (localCandidates p) ifaddrs hostPort with
          | None => do_ emit EvPanic ;; mret (Err (ErrorString "nil candidate"))
          | Some locals =>
              Promoter_Run (mkPromoter streamID (Some eng) locals
                (Some (fun o => writeCtrl FrameTypeCandidateOffer (MCandidateOffer o)))
                (Some (recv_answer answerCh ops ctxDone))
                (Some (fun id sel => writeCtrl FrameTypeMigrateToP2P (MMigrateToP2P id sel))))
          end
      end
  | _, _ => mret (Err (ErrorString "session: nil rs or engine"))
  end.

(** [Session.QueryServerReflexive]: the guard in front of the candidate
    package's query, which runs on the request counter. *)
Definition Session_QueryServerReflexive (rand : Z) (sel : srflx_select)
    : Eff (Session * Z) (result Candidate) :=
  fun '((s, ctr), t) =>
    if p2pEnabled (s_p2p s) then
      (Err (ErrorString "session: QueryServerReflexive must run before EnableP2P"), ((s, ctr), t))
    else
      let '(res, (ctr', t')) := QueryServerReflexive (s_ctrl s) rand sel (ctr, t) in
      (res, ((s, ctr'), t')).

(** ** Direct migration *)
Definition MigrateToDirect (rs : option nat) (peerConn : option conn) : Eff Session (option error) :=
  do s <- get ;;
  match rs ≫= (fun r => (r,.) <$> s_store s !! r), peerConn with
  | Some (r, rs), Some c =>
      do st <- Conn_OpenStream c ;;
      match st with
      | Err e => mret (Some (Wrapped "session: open direct stream" e))
      | Ok st =>
          do w <- WriteFrame st FrameTypeStreamResume (MStreamResume (resume_message (rs_state rs))) ;;
          match w with
          | Err e =>
              do_ Stream_Close st ;;
              mret (Some (Wrapped "session: send STREAM_RESUME on direct" e))
          | Ok _ => do_ rs_SwapInner r st ;; mret None
          end
      end
  | _, _ => mret (Some (ErrorString "session: nil rs or peerConn"))
  end.

Definition handleDirectStream (st : stream) : Eff Session unit :=
  do f <- ParseFrame st ;;
  match f with
  | Err _ => Stream_Close st
  | Ok f =>
      if negb (bool_decide (f_Type f = FrameTypeStreamResume)) then Stream_Close st
      else
        match unmarshal_StreamResume f with
        | Err _ => Stream_Close st
        | Ok peer =>
            do s <- get ;;
            match s_streams s !! sr_StreamId peer ≫= (fun r => (r,.) <$> s_store s !! r) with
            | None => Stream_Close st
            | Some (r, rs) =>
                match RetransmitFrom (rs_state rs) (int64 (sr_PeerAckPosition peer)) with
                | Err _ => Stream_Close st
                | Ok gap =>
                    if (0 <? length gap)%nat then
                      do w <- Stream_Write st gap ;;
                      match snd w with
                      | Some _ => Stream_Close st
                      | None => rs_SwapInner r st
                      end
                    else rs_SwapInner r st
                end
            end
        end
  end.

(** The accept loops; [false] when the fuel is used up.  [ln] answers
    [Listener.Accept]. *)
Fixpoint acceptDirectStreams (fuel : nat) (c : conn) : Eff Session bool :=
  match fuel with
  | O => mret false
  | S fuel' =>
      do st <- Conn_AcceptStream c ;;
      match st with
      | Err _ => mret true
      | Ok _ => do_ emit (EvSpawn "handleDirectStream") ;; acceptDirectStreams fuel' c
      end
  end.

Fixpoint AcceptDirect (fuel : nat) (ln : trace -> result conn) : Eff Session (option error) :=
  match fuel with
  | O => mret None
  | S fuel' =>
      do t <- history ;;
      match ln t with
      | Err e =>
          do ce <- ctx_Err ;;
          match ce with
          | Some e' => mret (Some e')
          | None => mret (Some (Wrapped "session: accept direct" e))
          end
      | Ok _ => do_ emit (EvSpawn "acceptDirectStreams") ;; AcceptDirect fuel' ln
      end
  end.

End Promote.

(** ** Facts: punches and checkpoints *)
Section Facts.
Context `{N : Net} `{Sp : ResumeSpec}.

Lemma run_datagram sock p addr s :
  session_wf s -> run_ok (Datagram sock p addr) s (one_event s (EvDatagram sock p addr)).
Proof. intros Hwf. apply run_call; try done. by eexists. Qed.

(** Datagrams sent, with the socket and payload. *)
Definition datagrams (t : trace) : list (nat * list byte * AddrPort) :=
  omap (fun e => match e with EvDatagram k p a _ => Some (k, p, a) | _ => None end) t.

Lemma run_punch_loop sock cands s :
  session_wf s ->
  run_ok (punch_loop sock cands) s (fun _ s' ext =>
    s' = s /\ datagrams ext = map (fun a => (sock, [0], a)) (omap punch_target cands)).
Proof.
  intros Hwf. induction cands as [|c cands IH]; cbn [punch_loop]; [by apply run_ret|].
  eapply run_bind with (Q1 := fun _ s' ext => s' = s /\
    datagrams ext = map (fun a => (sock, [0], a)) (option_list (punch_target c))).
  { destruct (punch_target c) as [a|]; [|by apply run_ret].
    rcall run_datagram. by apply run_ret. }
  intros [] s1 e1 _ _ [-> He1]. eapply run_mono; [apply IH|].
  cbn. intros [] s2 e2 [-> He2]. split; [done|].
  unfold datagrams in *. rewrite omap_app, He1, He2. by destruct (punch_target c).
Qed.

Lemma run_warmupPunch id cands s :
  session_wf s ->
  run_ok (warmupPunch id cands) s (fun _ s' ext =>
    s' = s /\ datagrams ext =
      match s_dialer s with
      | Some (SharedTransport sock) => map (fun a => (sock, [0], a)) (omap punch_target cands)
      | _ => []
      end).
Proof.
  intros Hwf. unfold warmupPunch. rget.
  destruct (s_dialer s) as [[| | |sock]|]; try by apply run_ret.
  by apply run_punch_loop.
Qed.

(** The write of one checkpoint. *)
Definition checkpoint_event (ctrl : stream) (st : State) (w : result unit) : event :=
  EvWriteFrame ctrl FrameTypeStreamCheckpoint (MStreamCheckpoint (checkpoint_message st)) w.

Lemma run_writeCtrl typ m s :
  session_wf s ->
  run_ok (writeCtrl typ m) s (fun e s' ext => s' = s /\
    exists w, ext = [EvWriteFrame (s_ctrl s) typ m w] /\ (e = None <-> w = Ok tt)).
Proof.
  intros Hwf. unfold writeCtrl. rget. rcall run_write_frame. apply run_ret; [done|].
  split; [done|]. exists a. split; [done|]. by destruct a as [[]|e].
Qed.

Lemma run_emit_states states s :
  session_wf s ->
  run_ok (emit_states states) s (fun _ s' ext => s' = s /\
    exists done_ rest, states = done_ ++ rest /\
      ((rest = [] /\ ext = map (fun st => checkpoint_event (s_ctrl s) st (Ok tt)) done_) \/
       (exists st rest' e, rest = st :: rest' /\
          ext = map (fun st => checkpoint_event (s_ctrl s) st (Ok tt)) done_ ++
                [checkpoint_event (s_ctrl s) st (Err e)]))).
Proof.
  intros Hwf. induction states as [|st states IH]; cbn [emit_states].
  { apply run_ret; [done|]. split; [done|]. exists [], []. auto. }
  eapply run_bind; [by apply run_writeCtrl|]. intros e s1 e1 _ _ (-> & w & -> & Hw).
  destruct e as [e|].
  - apply run_ret; [done|]. split; [done|]. exists [], (st :: states). split; [done|]. right.
    destruct w as [[]|e']; [by destruct Hw as [_ Hw]; discriminate Hw|].
    by exists st, states, e'.
  - assert (w = Ok tt) as -> by by apply Hw.
    eapply run_mono; [apply IH|]. cbn. intros [] s2 e2 (-> & done_ & rest & -> & Hcase).
    split; [done|]. exists (st :: done_), rest. split; [done|].
    destruct Hcase as [[-> ->]|(st' & rest' & e & -> & ->)]; [by left|right; eauto].
Qed.

Lemma run_emitOnce s :
  session_wf s -> MapOrder N ->
  run_ok emitOnce s (fun _ s' ext => s' = s /\
    exists done_ rest, done_ ++ rest ≡ₚ stream_states s /\
      ((rest = [] /\ ext = map (fun st => checkpoint_event (s_ctrl s) st (Ok tt)) done_) \/
       (exists st rest' e, rest = st :: rest' /\
          ext = map (fun st => checkpoint_event (s_ctrl s) st (Ok tt)) done_ ++
                [checkpoint_event (s_ctrl s) st (Err e)]))).
Proof.
  intros Hwf HN. unfold emitOnce. rget.
  eapply run_bind; [by apply run_map_order|]. intros l s1 e1 _ _ (-> & -> & Hl).
  eapply run_mono; [by apply run_emit_states|].
  cbn. intros [] s2 e2 (-> & done_ & rest & -> & Hcase). eauto 10.
Qed.

Lemma applyCheckpoint_update cp s :
  applyCheckpoint cp s =
    match s_streams s !! cp_StreamId cp with
    | Some r => update_state r (OnCheckpointFromPeer (int64 (cp_PeerAckPosition cp))) s
    | None => s
    end.
Proof. unfold applyCheckpoint, update_state. by repeat case_match. Qed.

Lemma run_applyCheckpoint cp s :
  session_wf s ->
  run_ok (modify (applyCheckpoint cp)) s (fun _ s' ext => s' = applyCheckpoint cp s /\ ext = []).
Proof.
  intros Hwf. apply run_modify; [| |done]; rewrite applyCheckpoint_update;
    destruct (s_streams s !! cp_StreamId cp); try done.
  - apply wf_update_state; [apply checkpoint_id|done].
  - apply grows_update_state, checkpoint_id.
Qed.

(** ** Facts: the control reader *)
Definition any {A} (_ : A) (_ : Session) (_ : trace) : Prop := True.

Lemma run_control_frame f s : session_wf s -> run_ok (control_frame f) s any.
Proof.
  intros Hwf. unfold control_frame.
  assert (forall o : p2p_op, run_ok (modify (fun s => set_p2p (apply_op o (s_p2p s)) s)) s any) as Hop.
  { intros o. eapply run_mono; [apply (run_set_p2p (apply_op o)); [done|]|done].
    apply apply_op_wf, Hwf. }
  destruct (f_Type f); try by apply run_ret.
  - destruct (unmarshal_StreamReady f); [|by apply run_ret]. by apply (Hop (OpDeliverMode _ None)).
  - destruct (unmarshal_AllocGranted f) as [g|]; [|by apply run_ret].
    by apply (Hop (OpDeliverMode (ag_StreamId g) (Some g))).
  - destruct (unmarshal_StreamCheckpoint f); [|by apply run_ret].
    by eapply run_mono; [apply run_applyCheckpoint|].
  - destruct (unmarshal_CandidateOffer f); [|by apply run_ret]. rget.
    eapply run_bind; [by apply run_writeCtrl|]. intros ? ? ? ? _ (-> & _).
    by eapply run_mono; [apply run_warmupPunch|].
  - destruct (unmarshal_CandidateAnswer f) as [a|]; [|by apply run_ret].
    by apply (Hop (OpDeliverAnswer a)).
Qed.

Lemma run_ctx_Err s : session_wf s -> run_ok ctx_Err s (fun _ s' ext => s' = s /\ ext = []).
Proof.
  intros Hwf t. exists []. rewrite app_nil_r. split_and!; try done. apply not_elem_of_nil.
Qed.

Lemma run_controlReader fuel s : session_wf s -> run_ok (controlReader fuel) s any.
Proof.
  revert s. induction fuel as [|fuel IH]; intros s Hwf; cbn [controlReader]; [by apply run_ret|].
  rget. rcall run_parse. destruct a as [f|e]; [|by apply run_ret].
  eapply run_bind; [by apply run_control_frame|]. intros [] s1 e1 Hwf1 _ _.
  destruct (undecodable f); [by apply IH|].
  eapply run_bind; [by apply run_ctx_Err|]. intros ce s2 e2 Hwf2 _ (-> & ->).
  destruct ce; [by apply run_ret|by apply IH].
Qed.

(** ** Facts: direct migration *)
Lemma run_MigrateToDirect r rs c s :
  session_wf s -> s_store s !! r = Some rs ->
  run_ok (MigrateToDirect (Some r) (Some c)) s (fun e s' ext =>
    match e with
    | Some _ => s' = s /\ forall st, EvOpenStream c (Ok st) ∈ ext -> EvStreamClose st ∈ ext
    | None => exists st g h,
        s' = with_guarded r rs g h s /\ g_inner g = st /\
        g_abandoned g = g_abandoned (rs_guarded rs) /\
        ext = [EvOpenStream c (Ok st);
               EvWriteFrame st FrameTypeStreamResume
                 (MStreamResume (resume_message (rs_state rs))) (Ok tt);
               EvCancelRead (g_inner (rs_guarded rs))]
    end).
Proof.
  intros Hwf Hr. unfold MigrateToDirect. rget. cbn. rewrite Hr. cbn.
  rcall run_open. destruct a as [st|e].
  2: { apply run_ret; [done|]. split; [done|]. intros st. cbn. rewrite list_elem_of_singleton. congruence. }
  rcall run_write_frame. destruct a as [[]|e].
  - eapply run_bind; [by apply (run_SwapInner r rs st)|].
    intros [] s1 e1 Hwf1 _ (-> & g & h & -> & Ha & Hi). apply run_ret; [done|].
    exists st, g, h. by split_and!.
  - rcall run_stream_close. apply run_ret; [done|]. split; [done|]. intros st'. cbn.
    rewrite !elem_of_cons, elem_of_nil. intros [?|[?|[?|[]]]]; simplify_eq; auto.
Qed.

(** A direct stream was taken over, or closed with the session unchanged. *)
Definition direct_outcome (st : stream) (s s' : Session) (ext : trace) : Prop :=
  (s' = s /\ EvStreamClose st ∈ ext) \/
  exists f peer r rs gap n g h,
    unmarshal_StreamResume f = Ok peer /\ s_streams s !! sr_StreamId peer = Some r /\
    s_store s !! r = Some rs /\
    RetransmitFrom (rs_state rs) (int64 (sr_PeerAckPosition peer)) = Ok gap /\
    ext = EvParseFrame st (Ok f) :: gap_sent st gap n ++ [EvCancelRead (g_inner (rs_guarded rs))] /\
    s' = with_guarded r rs g h s /\ g_inner g = st /\
    g_abandoned g = g_abandoned (rs_guarded rs).

Lemma run_handleDirectStream st s :
  session_wf s -> run_ok (handleDirectStream st) s (fun _ s' ext => direct_outcome st s s' ext).
Proof.
  intros Hwf. unfold handleDirectStream.
  assert (forall pre, run_ok (Stream_Close st) s
    (fun _ s' ext => direct_outcome st s s' (pre ++ ext))) as Hclose.
  { intros pre. eapply run_mono; [by apply run_stream_close|]. intros [] s' ext (-> & ->).
    left. split; [done|]. rewrite elem_of_app, list_elem_of_singleton. auto. }
  rcall run_parse. destruct a as [f|e]; [|apply Hclose].
  case_bool_decide as Ht; cbn [negb]; [|apply Hclose].
  destruct (unmarshal_StreamResume f) as [peer|e] eqn:Eu; [|apply Hclose].
  rget. destruct (s_streams s !! sr_StreamId peer) as [r|] eqn:Er; cbn -[Nat.ltb]; [|apply (Hclose [_])].
  destruct (s_store s !! r) as [rs|] eqn:Ers; cbn -[Nat.ltb]; [|apply (Hclose [_])].
  destruct (RetransmitFrom _ _) as [gap|e] eqn:Eg; [|apply (Hclose [_])].
  assert (forall n, run_ok (rs_SwapInner r st) s (fun _ s' ext =>
    direct_outcome st s s' (EvParseFrame st (Ok f) :: gap_sent st gap n ++ ext))) as Hswap.
  { intros n. eapply run_mono; [by apply (run_SwapInner r rs st)|].
    intros [] s' ext (-> & g & h & -> & Ha & Hi). right.
    exists f, peer, r, rs, gap, n, g, h. by split_and!. }
  unfold gap_sent in Hswap. destruct (0 <? length gap)%nat eqn:El.
  - rcall run_write. destruct a as [n [e|]]; cbn.
    + apply (Hclose [_; _]).
    + apply Hswap.
  - apply (Hswap 0).
Qed.

(** Bytes written on one stream. *)
Definition bytes_on (st : stream) (t : trace) : list byte :=
  t ≫= (fun e => match e with
                 | EvWrite st' p n None => if decide (st' = st) then p else []
                 | _ => []
                 end).

(** A byte that cannot continue a proper prefix. *)
Lemma not_continued (got w : list byte) :
  got `prefix_of` w -> got <> w -> exists p, ~ got ++ p `prefix_of` w ++ p.
Proof.
  intros [k ->] Hne. destruct k as [|x k]; [by rewrite app_nil_r in Hne|].
  exists [x + 1]. rewrite <- app_assoc. intros Hp%prefix_app_inv.
  apply prefix_cons_inv_1 in Hp. lia.
Qed.

End Facts.

(** ** Properties *)

(** The responder's warm-up punch: on a shared UDP socket exactly one
    one-byte datagram is sent to every well-formed peer candidate, in order
    and whatever the outcome of the others; malformed candidates (nil, empty
    or unparseable address, port 0 or above 65535) are skipped, and without a
    shared socket nothing is sent. *)
Theorem warmup_punches `{N : Net} `{Sp : ResumeSpec} id cands s t :
  session_wf s ->
  let '(_, (s', t')) := warmupPunch id cands (s, t) in
  s' = s /\ exists ext, t' = t ++ ext /\ datagrams ext =
    match s_dialer s with
    | Some (SharedTransport sock) => map (fun a => (sock, [0], a)) (omap punch_target cands)
    | _ => []
    end.
Proof.
  intros Hwf. pose proof (run_warmupPunch id cands s Hwf t) as H.
  destruct (warmupPunch id cands (s, t)) as [u [s' t']].
  destruct H as (ext & -> & _ & _ & _ & -> & Hd). eauto.
Qed.

Definition shared_session : @Session Ring.lib :=
  new_session (mkConn 0) (mkStream 1) "outrelay://b" (SharedTransport 4).

Lemma warmup_punches_witness :
  datagrams (snd (snd (@warmupPunch (demo_net demo_frames) Ring.lib 7
    [Some (mkPb "host" "10.0.0.1" 7000 70); None; Some (mkPb "srflx" "10.0.0.2" 70000 20);
     Some (mkPb "srflx" "8.8.8.8" 7001 20)] (shared_session, [])))) =
  [(4%nat, [0], mkAddrPort (Addr4 0x0a000001) 7000); (4%nat, [0], mkAddrPort (Addr4 0x08080808) 7001)].
Proof.
  pose proof (@warmup_punches (demo_net demo_frames) Ring.lib Ring.spec 7
    [Some (mkPb "host" "10.0.0.1" 7000 70); None; Some (mkPb "srflx" "10.0.0.2" 70000 20);
     Some (mkPb "srflx" "8.8.8.8" 7001 20)] shared_session [] (new_session_wf _ _ _ _)) as H.
  destruct (warmupPunch _ _ _) as [u [s' t']]. destruct H as (_ & ext & -> & H). exact H.
Defined.



(** Direct migration is all or nothing for the wrapper.  The consumer's
    [MigrateToDirect] and the provider's [handleDirectStream] either leave the
    session as it was and close the stream they were working on, or swap the
    wrapper to the direct stream; the provider retransmits what the consumer
    has not acknowledged first. *)
Theorem direct_migration_atomic `{N : Net} `{Sp : ResumeSpec} r rs c st s t :
  session_wf s -> s_store s !! r = Some rs ->
  (let '(e, (s', t')) := MigrateToDirect (Some r) (Some c) (s, t) in
   session_wf s' /\ exists ext, t' = t ++ ext /\ (EvPanic ∉ ext) /\
     match e with
     | Some _ => s' = s /\ forall st, EvOpenStream c (Ok st) ∈ ext -> EvStreamClose st ∈ ext
     | None => exists st rs', s_store s' !! r = Some rs' /\ g_inner (rs_guarded rs') = st /\
         EvOpenStream c (Ok st) ∈ ext /\ rs_state rs' = rs_state rs
     end) /\
  (let '(_, (s', t')) := handleDirectStream st (s, t) in
   session_wf s' /\ exists ext, t' = t ++ ext /\ (EvPanic ∉ ext) /\ direct_outcome st s s' ext).
Proof.
  intros Hwf Hr. split.
  - pose proof (run_MigrateToDirect r rs c s Hwf Hr t) as H.
    destruct (MigrateToDirect (Some r) (Some c) (s, t)) as [e [s' t']].
    destruct H as (ext & -> & Hwf' & _ & Hp & Hq). split; [done|]. exists ext. split_and!; [done|done|].
    destruct e; [done|]. destruct Hq as (st' & g & h & -> & Hi & _ & ->).
    exists st', (mkRS (rs_state rs) g). cbn. rewrite lookup_insert_eq. split_and!; try done. by left.
  - pose proof (run_handleDirectStream st s Hwf t) as H.
    destruct (handleDirectStream st (s, t)) as [e [s' t']].
    destruct H as (ext & -> & Hwf' & _ & Hp & Hq). eauto 10.
Qed.

Lemma direct_migration_atomic_witness :
  exists ext : trace, EvOpenStream (mkConn 5) (Ok (mkStream 0)) ∈ ext /\ (EvPanic ∉ ext).
Proof.
  pose proof (proj1 (@direct_migration_atomic (demo_net demo_frames) Ring.lib Ring.spec 0 _
    (mkConn 5) (mkStream 3) demo_session [] demo_session_wf eq_refl)) as H.
  destruct H as (_ & ext & Ht & Hp & _). exists ext. split; [|exact Hp].
  apply (f_equal (fun l => l !! 0%nat)) in Ht.
  apply list_elem_of_lookup_2 with 0%nat. exact (eq_sym Ht).
Defined.

(** C38. Direct migration loses bytes in flight.  [MigrateToDirect] does not
    read the peer's position and retransmits nothing: a successful migration
    writes no byte on the new stream, so if the provider had not yet received
    everything the consumer wrote over the relay, there is a next write after
    which the provider's bytes are no longer a prefix of the consumer's. *)
Theorem migrate_to_direct_loses `{N : Net} `{Sp : ResumeSpec} r rs c s t s' t' got :
  session_wf s -> s_store s !! r = Some rs ->
  MigrateToDirect (Some r) (Some c) (s, t) = (None, (s', t')) ->
  got `prefix_of` written (rs_state rs) -> got <> written (rs_state rs) ->
  exists ext rs', t' = t ++ ext /\ s_store s' !! r = Some rs' /\
    bytes_on (g_inner (rs_guarded rs')) ext = [] /\
    exists p, ~ got ++ bytes_on (g_inner (rs_guarded rs')) ext ++ p
                `prefix_of` written (OnWrite p (rs_state rs')).
Proof.
  intros Hwf Hr Hrun Hpre Hne. pose proof (run_MigrateToDirect r rs c s Hwf Hr t) as H.
  rewrite Hrun in H. destruct H as (ext & -> & _ & _ & _ & st & g & h & -> & Hi & _ & ->).
  eexists _, (mkRS (rs_state rs) g). split; [done|]. cbn. rewrite lookup_insert_eq.
  split_and!; [done|done|]. destruct (not_continued got _ Hpre Hne) as [p Hp].
  exists p. by rewrite onwrite_written.
Qed.

Lemma migrate_to_direct_loses_witness :
  exists p, ~ ([10] : list byte) ++ [] ++ p `prefix_of` [10; 11; 12] ++ p.
Proof.
  destruct (@migrate_to_direct_loses (demo_net demo_frames) Ring.lib Ring.spec 0 _ (mkConn 5)
    demo_session [] _ _ [10] demo_session_wf eq_refl eq_refl ltac:(by exists [11; 12]) ltac:(done))
    as (ext & rs' & Ht & Hr' & Hb & p & Hp).
  exists p. rewrite Hb in Hp. vm_compute in Hr'. injection Hr' as <-. exact Hp.
Defined.

(** A failed [Promote] leaves its answer waiter behind: when sending the
    offer fails, the entry registered for the stream is still in
    [pendingAnswers]. *)
Theorem promote_leaks_waiter `{N : Net} `{Sp : ResumeSpec} r rs eng locals port ifs ops cd s t c m :
  s_store s !! r = Some rs -> locals = c :: m -> pendingAnswers (s_p2p s) <> None ->
  (forall t msg e, net_write_frame t (s_ctrl s) FrameTypeCandidateOffer msg <> Ok e) ->
  let '(res, (s', _)) := Promote r (Some eng) locals port ifs ops cd (s, t) in
  is_ok res = false /\
  mlookup (pendingAnswers (s_p2p s')) (uint64 (ID (rs_state rs))) = Some (nextbuf (s_p2p s)).
Proof.
  intros Hr -> Hpa Hw. unfold Promote, get, mbind. rewrite Hr. unfold registerAnswerWaiter.
  destruct (pendingAnswers (s_p2p s)) as [pa|] eqn:Epa; [|done]. cbn.
  unfold Promoter_Run, writeCtrl, get, WriteFrame, mbind, mret. cbn.
  destruct (net_write_frame t (s_ctrl s) FrameTypeCandidateOffer _) as [u|e] eqn:E;
    [by apply Hw in E|]. cbn.
  split; [done|]. rewrite mlookup_insert. by case_decide.
Qed.

(** A control stream that refuses every frame. *)
Definition mute_net : Net :=
  let N := demo_net demo_frames in
  tweak_net N net_dial (fun _ _ _ _ => Err (External 9)) net_new_stream_id.

Definition p2p_session : @Session Ring.lib :=
  set_p2p (snd (EnableP2P 0 (s_p2p demo_session))) demo_session.

Lemma promote_leaks_waiter_witness :
  let '(res, (s', _)) := @Promote mute_net Ring.lib 0 (Some (NewEngine 0)) [candidate_zero] 0 (Ok [])
    [] None (p2p_session, []) in
  is_ok res = false /\ mlookup (pendingAnswers (s_p2p s')) 7 = Some 0%nat.
Proof.
  exact (@promote_leaks_waiter mute_net Ring.lib Ring.spec 0 _ (NewEngine 0) [candidate_zero] 0
    (Ok []) [] None p2p_session [] candidate_zero [] eq_refl eq_refl ltac:(done) ltac:(done)).
Defined.
