(* ===== verification/Safety.v ===== *)
(** * The session invariant over every operation

    The operations of a session, run in any order, with everything that other
    goroutines may do to the P2P waiters in between. *)

From S2P Require Import Prelude Orp Tls Resume StreamSwap Waiters Forward Session SessionInv.
From S2P Require Import Dialing Reconnect Incoming P2P Promote.

Local Open Scope agent_scope.

Inductive session_op : Type :=
  | SOExpose (name localAddr : string) (h : nat)
  | SODial (fuel : nat) (target method : string)
  | SOIncoming (st : stream) (ops : list p2p_op) (timeout : bool)
  | SOResume (r : nat)
  | SOClose (r : nat)
  | SOCloseWrite (has_cw : stream -> bool) (r : nat)
  | SOSwapConn (c : conn)
  | SOForwardTLS (c : option tlsConfig)
  | SOForget (id : Z)
  | SOReconnect (addrs : list string)
  | SORun (fuel : nat)
  | SORetry (fuel : nat) (addrs : list string)
  | SOControl (fuel : nat)                          (* the control reader *)
  | SOTick                                          (* emitOnce *)
  | SOStartResume (ctx : nat) (period ms : Z)
  | SOMigrate (r : nat) (c : conn)
  | SODirect (st : stream)
  | SOAcceptDirect (fuel : nat) (ln : trace -> result conn)
  | SOTransfer (r : nat) (n : Z) (p : list byte)   (* bytes read and written *)
  | SOP2P (o : p2p_op).

Section Operations.
Context `{N : Net} `{Sp : ResumeSpec}.

Definition run_op (o : session_op) : Eff Session unit :=
  match o with
  | SOExpose name la h => do_ Expose name la h ;; mret tt
  | SODial fuel target method => do_ Session_Dial fuel target method ;; mret tt
  | SOIncoming st ops timeout => handleIncoming st ops timeout
  | SOResume r =>
      (* callers hold references to existing wrappers *)
      do s <- get ;;
      match s_store s !! r with
      | Some _ => do_ Resume r ;; mret tt
      | None => mret tt
      end
  | SOClose r => rs_Close r
  | SOCloseWrite has_cw r => rs_CloseWrite has_cw r
  | SOSwapConn c => modify (SwapConn c)
  | SOForwardTLS c => modify (SetForwardServerTLS c)
  | SOForget id => forgetStream id
  | SOReconnect addrs => do_ Reconnect addrs ;; mret tt
  | SORun fuel => do_ Run fuel ;; mret tt
  | SORetry fuel addrs => do_ RunWithReconnect fuel addrs ;; mret tt
  | SOControl fuel => do_ controlReader fuel ;; mret tt
  | SOTick => emitOnce
  | SOStartResume ctx period ms => StartResume ctx period ms
  | SOMigrate r c =>
      do s <- get ;;
      match s_store s !! r with
      | Some _ => do_ MigrateToDirect (Some r) (Some c) ;; mret tt
      | None => mret tt
      end
  | SODirect st => handleDirectStream st
  | SOAcceptDirect fuel ln => do_ AcceptDirect fuel ln ;; mret tt
  | SOTransfer r n p => modify (update_state r (fun st => OnWrite p (OnRead n st)))
  | SOP2P o => modify (fun s => set_p2p (apply_op o (s_p2p s)) s)
  end.

Fixpoint run_ops (os : list session_op) : Eff Session unit :=
  match os with
  | [] => mret tt
  | o :: os' => do_ run_op o ;; run_ops os'
  end.

Lemma run_then_ret {A} (m : Eff Session A) s Q :
  run_ok m s Q -> run_ok (do_ m ;; mret tt) s any.
Proof. intros Hm. eapply run_bind; [exact Hm|]. intros. by apply run_ret. Qed.

Lemma run_Expose name la h s : session_wf s -> run_ok (Expose name la h) s any.
Proof.
  intros Hwf. unfold Expose.
  eapply run_bind.
  { apply run_modify with (Q := fun _ s' e => session_wf s' /\ e = []);
      [|by apply grows_same_store|split; [|done]];
      apply (wf_same_store s); try done; apply Hwf. }
  intros [] s1 e1 Hwf1 _ [_ ->]. rget.
  rcall run_write_frame. destruct a as [[]|e]; [|by apply run_ret].
  rcall run_parse. destruct a as [f|e]; [|by apply run_ret].
  case_bool_decide; by apply run_ret.
Qed.

Lemma run_Run fuel s : session_wf s -> run_ok (Run fuel) s (fun _ s' _ => s' = s).
Proof.
  intros Hwf. induction fuel as [|fuel IH]; cbn [Run]; [by apply run_ret|].
  rget. rcall run_accept. destruct a as [st|e].
  - rcall run_emit. apply IH.
  - destruct (errors_Is e Canceled); by apply run_ret.
Qed.

Lemma run_history s : session_wf s -> run_ok history s (fun _ s' ext => s' = s /\ ext = []).
Proof.
  intros Hwf t. exists []. rewrite app_nil_r. split_and!; try done. apply not_elem_of_nil.
Qed.

Lemma run_AcceptDirect fuel ln s : session_wf s -> run_ok (AcceptDirect fuel ln) s any.
Proof.
  intros Hwf. induction fuel as [|fuel IH]; cbn [AcceptDirect]; [by apply run_ret|].
  eapply run_bind; [by apply run_history|]. intros t s' ext Hwf' _ [-> ->]. destruct (ln t) as [c|e].
  - rcall run_emit. apply IH.
  - eapply run_bind; [by apply run_ctx_Err|]. intros ce s' ext' Hwf'' _ [-> ->]. destruct ce; by apply run_ret.
Qed.

Lemma run_set_reconnecting b s :
  session_wf s -> run_ok (modify (set_reconnecting b)) s (fun _ s' e => e = [] /\ s' = set_reconnecting b s).
Proof.
  intros Hwf. apply run_modify; [|by apply grows_same_store|done].
  apply (wf_same_store s); try done. apply Hwf.
Qed.

Lemma run_reconnect_loop fuel addrs b s :
  MapOrder N -> session_wf s -> run_ok (reconnect_loop fuel addrs b) s any.
Proof.
  intros HN. revert b s. induction fuel as [|fuel IH]; intros b s Hwf; cbn [reconnect_loop];
    [by apply run_ret|].
  eapply run_bind; [by apply run_Reconnect|]. intros e s1 e1 Hwf1 _ _. destruct e as [e|].
  - rcall run_sleep. destruct a; [by apply run_ret|by apply IH].
  - rget. destruct (restartControlReaderIfEnabled (s_p2p s1)).
    + rcall run_emit. by apply run_ret.
    + eapply run_bind; [by apply run_ret with (Q := any)|]. intros [] ? ? ? _ _. by apply run_ret.
Qed.

Lemma run_RunWithReconnect fuel addrs s :
  MapOrder N -> session_wf s -> run_ok (RunWithReconnect fuel addrs) s any.
Proof.
  intros HN. revert s. induction fuel as [|fuel IH]; intros s Hwf; cbn [RunWithReconnect];
    [by apply run_ret|].
  eapply run_bind; [by apply run_Run|]. intros r s1 e1 _ _ ->.
  destruct r as [[e|]|]; [|by apply run_ret..].
  destruct (errors_Is e Canceled); [by apply run_ret|].
  eapply run_bind; [by apply run_set_reconnecting|]. intros [] s2 e2 Hwf2 _ _.
  eapply run_bind; [by apply run_reconnect_loop|]. intros ok s3 e3 Hwf3 _ _.
  destruct ok as [[]|]; [| |by apply run_ret];
    (eapply run_bind; [by apply run_set_reconnecting|]; intros [] s4 e4 Hwf4 _ _);
    [by apply IH|by apply run_ret].
Qed.

Lemma run_StartResume ctx period ms s : session_wf s -> run_ok (StartResume ctx period ms) s any.
Proof.
  intros Hwf. unfold StartResume. rget.
  pose proof (apply_op_wf (OpEnable ctx) _ (swf_p2p s Hwf)) as Hp. cbn [apply_op] in Hp.
  destruct (EnableP2P ctx (s_p2p s)) as [start p]. cbn [snd] in Hp.
  eapply run_bind.
  { apply run_modify with (Q := any); [by apply (wf_same_store s)|by apply grows_same_store|done]. }
  intros [] s1 e1 Hwf1 _ _. destruct start.
  - rcall run_emit. by eapply run_mono; [apply run_emit|].
  - eapply run_bind; [by apply run_ret with (Q := any)|]. intros [] s2 e2 Hwf2 _ _.
    by eapply run_mono; [apply run_emit|].
Qed.

Lemma run_CloseWrite has_cw r s : session_wf s -> run_ok (rs_CloseWrite has_cw r) s any.
Proof.
  intros Hwf. unfold rs_CloseWrite. rget. destruct (s_store s !! r); [|by apply run_ret].
  destruct (has_cw _); by eapply run_mono; [apply run_emit|].
Qed.

Lemma run_field f s : session_wf s -> session_wf (f s) -> grows s (f s) -> run_ok (modify f) s any.
Proof. intros. by apply run_modify. Qed.

(** One operation keeps the invariant and does not panic. *)
Lemma op_safe o s t :
  MapOrder N -> session_wf s ->
  let '(_, (s', t')) := run_op o (s, t) in
  session_wf s' /\ exists ext, t' = t ++ ext /\ (EvPanic ∉ ext).
Proof.
  intros HN Hwf.
  assert (forall m : Eff Session unit, (exists Q, run_ok m s Q) ->
    let '(_, (s', t')) := m (s, t) in
    session_wf s' /\ exists ext, t' = t ++ ext /\ (EvPanic ∉ ext)) as Hok.
  { intros m [Q Hm]. specialize (Hm t). destruct (m (s, t)) as [a [s' t']].
    destruct Hm as (ext & ? & ? & _ & ? & _). eauto. }
  destruct o; cbn [run_op]; apply Hok; eexists.
  - by apply run_then_ret with (Q := any), run_Expose.
  - by eapply run_then_ret, run_Session_Dial.
  - by apply run_handleIncoming.
  - instantiate (1 := any). rget. destruct (s_store s !! r) eqn:Hr.
    + by eapply run_then_ret, run_Resume.
    + by apply run_ret.
  - by apply run_Close.
  - by apply run_CloseWrite.
  - apply (run_field (SwapConn c)); [done| |by apply grows_same_store];
    apply (wf_same_store s); try done; apply Hwf.
  - apply (run_field (SetForwardServerTLS c)); [done| |by apply grows_same_store];
    apply (wf_same_store s); try done; apply Hwf.
  - by apply run_forgetStream.
  - by eapply run_then_ret, run_Reconnect.
  - by eapply run_then_ret, run_Run.
  - by eapply run_then_ret, run_RunWithReconnect.
  - by eapply run_then_ret, run_controlReader.
  - by apply run_emitOnce.
  - by apply run_StartResume.
  - instantiate (1 := any). rget. destruct (s_store s !! r) eqn:Hr.
    + by eapply run_then_ret, run_MigrateToDirect.
    + by apply run_ret.
  - by apply run_handleDirectStream.
  - by eapply run_then_ret, run_AcceptDirect.
  - instantiate (1 := any).
    assert (forall st, ID (OnWrite p (OnRead n st)) = ID st) as Hid
      by (intros st; by rewrite onwrite_id, onread_id).
    apply run_modify; [by apply wf_update_state|by apply grows_update_state|done].
  - apply (run_set_p2p (apply_op o)); [done|]. apply apply_op_wf, Hwf.
Qed.

Lemma ops_safe os s t :
  MapOrder N -> session_wf s ->
  let '(_, (s', t')) := run_ops os (s, t) in
  session_wf s' /\ exists ext, t' = t ++ ext /\ (EvPanic ∉ ext).
Proof.
  intros HN. revert s t. induction os as [|o os IH]; intros s t Hwf; cbn [run_ops].
  { split; [done|]. exists []. rewrite app_nil_r. split; [done|apply not_elem_of_nil]. }
  unfold mbind. pose proof (op_safe o s t HN Hwf) as Ho.
  destruct (run_op o (s, t)) as [u [s1 t1]]. destruct Ho as (Hwf1 & e1 & -> & Hp1).
  specialize (IH s1 (t ++ e1) Hwf1). destruct (run_ops os (s1, t ++ e1)) as [u' [s2 t2]].
  destruct IH as (Hwf2 & e2 & -> & Hp2). split; [done|]. exists (e1 ++ e2).
  rewrite app_assoc, not_elem_of_app. done.
Qed.
End Operations.

(** ** Properties *)

(** The session invariant: after any sequence of session operations
    (exposing, dialing, incoming streams, resume, close, reconnect, control
    frames, checkpoints, direct migration, byte transfers and whatever other
    goroutines do to the waiters), every active
    stream still refers to a wrapper of its own id, live wrappers have
    wake-up channels of their own that nobody closed, and no operation ever
    panics on a double close. *)
Theorem session_invariant `{N : Net} `{Sp : ResumeSpec} os s t :
  MapOrder N -> session_wf s ->
  let '(_, (s', t')) := run_ops os (s, t) in
  session_wf s' /\ exists ext, t' = t ++ ext /\ (EvPanic ∉ ext).
Proof. apply ops_safe. Qed.

Lemma session_invariant_witness :
  session_wf (fst (snd (@run_ops (demo_net demo_frames) Ring.lib
    [SODial 3 "svc" ""; SOReconnect ["r:1"]; SOTick; SOClose 0; SOClose 0; SOForget 7; SOResume 0;
     SOMigrate 0 (mkConn 5); SODirect (mkStream 8); SOControl 2;
     SOIncoming (mkStream 9) [] true] (demo_session, [])))).
Proof.
  pose proof (@session_invariant (demo_net demo_frames) Ring.lib Ring.spec
    [SODial 3 "svc" ""; SOReconnect ["r:1"]; SOTick; SOClose 0; SOClose 0; SOForget 7; SOResume 0;
     SOMigrate 0 (mkConn 5); SODirect (mkStream 8); SOControl 2;
     SOIncoming (mkStream 9) [] true] demo_session []
    (demo_order _) demo_session_wf) as H.
  destruct (run_ops _ _) as [u [s' t']]. exact (proj1 H).
Defined.
