(* ===== verification/Conc.v ===== *)
(** * Goroutines

    A program whose steps can be interleaved with those of others: each
    [Act] is one call or one critical section, [Go] is a [go] statement.  A
    configuration is a list of goroutines over one Go state, with the log of
    who made which call.  [wp] is a rely-guarantee logic for such programs:
    [I] is an invariant of the state, [R] what everybody's steps may do to it
    and [P] the events that are allowed. *)

From stdpp Require Import relations.
From S2P Require Import Prelude Netip Orp.

Local Open Scope agent_scope.

(** ** Mutexes

    How a step uses the session's mutexes.  The machine of this file lets a
    critical section be one step and ignores mutexes otherwise; [Locks] gives
    them their meaning. *)
Inductive mutex : Type :=
  | Mu                      (* Session.mu *)
  | P2pMu                   (* Session.p2pMu *)
  | CtrlWriteMu             (* Session.ctrlWriteMu *)
  | WrapperMu (r : nat).    (* ResumableStream.mu of a wrapper *)

#[export] Instance mutex_eq_dec : EqDecision mutex.
Proof. solve_decision. Defined.

Inductive sync : Type :=
  | Plain                   (* holds nothing it did not hold before *)
  | Locked (mu : mutex)     (* a critical section: Lock .. Unlock *)
  | RLocked (mu : mutex)    (* RLock .. RUnlock *)
  | Lock (mu : mutex)       (* a section of several steps begins *)
  | Unlock (mu : mutex).    (* ... and ends *)

(** ** Programs *)
Inductive prog (S A : Type) : Type :=
  | Done (a : A)
  | Act {B : Type} (l : sync) (m : Eff S B) (k : B -> prog S A)
  | Go (what : string) (p : prog S unit) (k : prog S A).
Arguments Done {S A} a.
Arguments Act {S A B} l m k.
Arguments Go {S A} what p k.

Fixpoint pbind {S A B : Type} (p : prog S A) (f : A -> prog S B) : prog S B :=
  match p with
  | Done a => f a
  | Act l m k => Act l m (fun b => pbind (k b) f)
  | Go w q k => Go w q (pbind k f)
  end.

Definition call {S A} (l : sync) (m : Eff S A) : prog S A := Act l m Done.

Abbreviation act := (call Plain).
Abbreviation locked mu := (call (Locked mu)).
Abbreviation rlocked mu := (call (RLocked mu)).
Abbreviation lock mu := (call (Lock mu) (mret tt)).
Abbreviation unlock mu := (call (Unlock mu) (mret tt)).

Declare Scope prog_scope.
Delimit Scope prog_scope with prog.
Notation "'let!' x <- p ; k" := (pbind p (fun x => k))
  (at level 100, x name, p at next level, right associativity) : prog_scope.
Notation "'run!' p ; k" := (pbind p (fun _ => k))
  (at level 100, p at next level, right associativity) : prog_scope.

(** The program on its own: a [go] statement leaves its event. *)
Fixpoint alone {S A : Type} (p : prog S A) : Eff S A :=
  match p with
  | Done a => mret a
  | Act _ m k => mbind m (fun b => alone (k b))
  | Go w _ k => mbind (emit (EvSpawn w)) (fun _ => alone k)
  end.

(** ** Configurations *)
Record config (S : Type) : Type := mkConfig {
  c_threads : list (prog S unit);
  c_state : S;
  c_log : list (nat * event)
}.
Arguments mkConfig {S} _ _ _.
Arguments c_threads {S} _.
Arguments c_state {S} _.
Arguments c_log {S} _.

Section Semantics.
Context {S : Type}.
Implicit Types c : config S.

Definition c_trace c : trace := (c_log c).*2.

(** One step of goroutine [i]. *)
Definition thread_step (i : nat) c : option (config S) :=
  match c_threads c !! i with
  | Some (Act _ m k) =>
      let t := c_trace c in
      let '(b, (s, t')) := m (c_state c, t) in
      Some (mkConfig (<[i := k b]> (c_threads c)) s
              (c_log c ++ map (pair i) (drop (length t) t')))
  | Some (Go w p k) =>
      Some (mkConfig (<[i := k]> (c_threads c) ++ [p]) (c_state c) (c_log c ++ [(i, EvSpawn w)]))
  | _ => None
  end.

Definition cstep c c' : Prop := exists i, thread_step i c = Some c'.

(** The goroutines of [ord] step in this order; the others are skipped. *)
Fixpoint schedule (ord : list nat) c : config S :=
  match ord with
  | [] => c
  | i :: ord' => schedule ord' (default c (thread_step i c))
  end.

Lemma schedule_reachable ord c : rtc cstep c (schedule ord c).
Proof.
  revert c. induction ord as [|i ord IH]; intros c; cbn [schedule]; [done|].
  destruct (thread_step i c) as [c'|] eqn:E; cbn; [|apply IH].
  eapply rtc_l; [by exists i|apply IH].
Qed.

Definition finished (p : prog S unit) : Prop := exists u, p = Done u.
End Semantics.

(** A goroutine alone is its program run to the end. *)
Lemma alone_pbind {S A B} (p : prog S A) (f : A -> prog S B) st :
  alone (pbind p f) st = mbind (alone p) (fun a => alone (f a)) st.
Proof.
  revert B f st. induction p as [A a|A C l m k IH|A w q _ k IH]; intros B f st; cbn.
  - done.
  - unfold mbind. destruct (m st) as [b st']. apply IH.
  - unfold mbind. destruct (emit (EvSpawn w) st) as [b st']. apply IH.
Qed.

(** ** Rely, guarantee and ownership

    A goroutine may own tokens (here: channels that it alone will close).  [I]
    relates the state to the tokens that are owned by anybody, [R] is what
    everybody's steps may do to the state and [P] the events that are
    allowed. *)
Section Logic.
Context {S : Type} (I : gset nat -> S -> Prop) (R : S -> S -> Prop) (P : event -> Prop).
Context `{!PreOrder R}.
Implicit Types o F : gset nat.

(** What a goroutine that owns [o] knows of the state. *)
Definition sees o (s : S) : Prop := exists F, o ## F /\ I (o ∪ F) s.

(** One action of the owner of [o], whatever the others own. *)
Definition action {A} (m : Eff S A) o (s : S) (Q : A -> gset nat -> S -> Prop) : Prop :=
  forall F t, o ## F -> I (o ∪ F) s ->
    let '(a, (s', t')) := m (s, t) in
    (exists ext, t' = t ++ ext /\ Forall P ext) /\ R s s' /\
    exists o', o' ## F /\ I (o' ∪ F) s' /\ Q a o' s'.

(** The program is safe when others step before each of its actions, and ends
    in [Q]. *)
Fixpoint wp {A : Type} (p : prog S A) o (s : S) (Q : A -> gset nat -> S -> Prop) : Prop :=
  match p with
  | Done a => forall s', sees o s' -> R s s' -> Q a o s'
  | Act _ m k => forall s', sees o s' -> R s s' -> action m o s' (fun b o' s'' => wp (k b) o' s'' Q)
  | Go w q k =>
      P (EvSpawn w) /\ (forall s', sees ∅ s' -> R s s' -> wp q ∅ s' (fun _ _ _ => True)) /\
      wp k o s Q
  end.

Lemma wp_later {A} (p : prog S A) o s s' Q : R s s' -> wp p o s Q -> wp p o s' Q.
Proof.
  revert o s s' Q. induction p as [A a|A B l m k IH|A w q _ k IH]; intros o s s' Q Hr; cbn.
  - intros H s'' Hi Hr'. apply H; [done|]. by etrans.
  - intros H s'' Hi Hr'. apply H; [done|]. by etrans.
  - intros (Hw & Hq & Hk). split_and!; [done| |by eapply IH]. intros s'' Hi Hr'.
    apply Hq; [done|]. by etrans.
Qed.

Lemma wp_mono {A} (p : prog S A) o s (Q Q' : A -> gset nat -> S -> Prop) :
  (forall a o' s', sees o' s' -> R s s' -> Q a o' s' -> Q' a o' s') -> wp p o s Q -> wp p o s Q'.
Proof.
  revert o s Q Q'. induction p as [A a|A B l m k IH|A w q _ k IH]; intros o s Q Q' HQ; cbn.
  - intros H s' Hi Hr. apply HQ; [done..|]. by apply H.
  - intros H s' Hi Hr F t HF HI. specialize (H s' Hi Hr F t HF HI).
    destruct (m (s', t)) as [b [s'' t'']]. destruct H as (He & Hr' & o' & Ho' & Hi' & Hk).
    split_and!; [done..|]. exists o'. split_and!; [done..|].
    eapply IH; [|done]. intros a o2 s3 ? ?. apply HQ; [done|]. etrans; [done|]. by etrans.
  - intros (Hw & Hq & Hk). split_and!; [done..|]. by eapply IH.
Qed.

(** A program that starts when its caller goes on. *)
Lemma wp_at {A} (p : prog S A) o s Q :
  sees o s -> (forall s', sees o s' -> R s s' -> wp p o s' Q) -> wp p o s Q.
Proof. intros Hs H. by apply H. Qed.

Lemma sees_intro o F s : o ## F -> I (o ∪ F) s -> sees o s.
Proof. by exists F. Qed.

Lemma wp_pbind {A B} (p : prog S A) (f : A -> prog S B) o s Q :
  sees o s -> wp p o s (fun a o' s' => wp (f a) o' s' Q) -> wp (pbind p f) o s Q.
Proof.
  revert B f o s Q. induction p as [A a|A C l m k IH|A w q _ k IH]; intros B f o s Q Hi; cbn.
  - intros H. by apply H.
  - intros H s' Hi' Hr F t HF HI. specialize (H s' Hi' Hr F t HF HI).
    destruct (m (s', t)) as [b [s'' t'']]. destruct H as (He & Hr' & o' & Ho' & Hi'' & Hk).
    split_and!; [done..|]. exists o'. split_and!; [done..|]. apply IH; [by eapply sees_intro|done].
  - intros (Hw & Hq & Hk). split_and!; [done..|]. by apply IH.
Qed.

(** *** Pools *)

(** Nobody owns what another owns. *)
Definition apart (os : list (gset nat)) : Prop :=
  forall i j o o', os !! i = Some o -> os !! j = Some o' -> i <> j -> o ## o'.

(** What the others own. *)
Definition rest (i : nat) (os : list (gset nat)) : gset nat := ⋃ (<[i := ∅]> os).

Lemma elem_of_rest i os x : x ∈ rest i os <-> exists j o, os !! j = Some o /\ j <> i /\ x ∈ o.
Proof.
  unfold rest. rewrite elem_of_union_list. split.
  - intros (o & Ho & Hx). apply list_elem_of_lookup in Ho as [j Hj]. destruct (decide (j = i)) as [->|Hne].
    + pose proof (lookup_lt_Some _ _ _ Hj) as Hlt. rewrite length_insert in Hlt.
      rewrite list_lookup_insert_eq in Hj by done. injection Hj as <-. set_solver.
    + rewrite list_lookup_insert_ne in Hj by done. eauto.
  - intros (j & o & Hj & Hne & Hx). exists o. split; [|done]. apply list_elem_of_lookup. exists j.
    by rewrite list_lookup_insert_ne.
Qed.

Lemma union_rest i o os : (i < length os)%nat -> ⋃ (<[i := o]> os) = o ∪ rest i os.
Proof.
  intros Hi. apply set_eq. intros x. rewrite elem_of_union, elem_of_rest, elem_of_union_list. split.
  - intros (o' & Ho & Hx). apply list_elem_of_lookup in Ho as [j Hj]. destruct (decide (j = i)) as [->|Hne].
    + rewrite list_lookup_insert_eq in Hj by done. injection Hj as <-. auto.
    + rewrite list_lookup_insert_ne in Hj by done. eauto 10.
  - intros [Hx|(j & o' & Hj & Hne & Hx)].
    + exists o. split; [|done]. apply list_elem_of_lookup. exists i. by rewrite list_lookup_insert_eq.
    + exists o'. split; [|done]. apply list_elem_of_lookup. exists j. by rewrite list_lookup_insert_ne.
Qed.

Lemma union_split i o os : os !! i = Some o -> ⋃ os = o ∪ rest i os.
Proof.
  intros Hi. rewrite <- union_rest by by eapply lookup_lt_Some. by rewrite list_insert_id.
Qed.

Lemma apart_rest i o os : apart os -> os !! i = Some o -> o ## rest i os.
Proof.
  intros Ha Hi x Hx (j & o' & Hj & Hne & Hx')%elem_of_rest. by apply (Ha i j o o' Hi Hj (not_eq_sym Hne) x).
Qed.

Lemma apart_insert i o os : apart os -> o ## rest i os -> apart (<[i := o]> os).
Proof.
  intros Ha Ho j k o1 o2 Hj Hk Hne.
  assert (forall j o', j <> i -> os !! j = Some o' -> o ## o') as Hi.
  { intros j' o' Hj' Ho' x Hx Hx'. apply (Ho x Hx). apply elem_of_rest. eauto. }
  apply list_lookup_insert_Some in Hj as [(<- & <- & _)|[Hj1 Hj2]];
    apply list_lookup_insert_Some in Hk as [(<- & <- & _)|[Hk1 Hk2]]; try done.
  - by eapply Hi.
  - symmetry. by eapply Hi.
  - by eapply Ha.
Qed.

Lemma apart_spawn os : apart os -> apart (os ++ [∅]).
Proof.
  intros Ha i j o o' Hi Hj Hne.
  apply lookup_app_Some in Hi as [Hi|[? [_ <-]%list_lookup_singleton_Some]]; [|set_solver].
  apply lookup_app_Some in Hj as [Hj|[? [_ <-]%list_lookup_singleton_Some]]; [by eapply Ha|set_solver].
Qed.

(** Every goroutine is safe from the state on; goroutine [i0] ends in
    [Q0]. *)
Section Pool.
Context (i0 : nat) (Q0 : S -> Prop).

Definition post (i : nat) (s : S) : Prop := i = i0 -> Q0 s.

Definition owners_ok (c : config S) (os : list (gset nat)) : Prop :=
  length os = length (c_threads c) /\ apart os /\ I (⋃ os) (c_state c) /\
  forall i p o, c_threads c !! i = Some p -> os !! i = Some o ->
    wp p o (c_state c) (fun _ _ => post i).

(** It exists, or promises nothing. *)
Definition started (c : config S) : Prop := (i0 < length (c_threads c))%nat \/ forall s, Q0 s.

Definition pool_ok (c : config S) : Prop :=
  started c /\ (exists os, owners_ok c os) /\ Forall P (c_trace c).

(** Goroutine [i] goes on as [p], the others see a later state. *)
Lemma owners_update c os i p o s log :
  owners_ok c os -> (i < length os)%nat -> R (c_state c) s ->
  o ## rest i os -> I (o ∪ rest i os) s -> wp p o s (fun _ _ => post i) ->
  owners_ok (mkConfig (<[i := p]> (c_threads c)) s log) (<[i := o]> os).
Proof.
  intros (Hlen & Ha & HI & Hw) Hi Hr Ho HI' Hp. split_and!; cbn.
  - by rewrite !length_insert.
  - by apply apart_insert.
  - by rewrite union_rest.
  - intros j q oj. destruct (decide (i = j)) as [<-|Hne].
    + rewrite !list_lookup_insert_eq by lia. by intros [= <-] [= <-].
    + rewrite !list_lookup_insert_ne by done. intros Hq Hoj. eapply wp_later; [done|]. by eapply Hw.
Qed.

Lemma owners_spawn c os p log :
  owners_ok c os -> started c -> wp p ∅ (c_state c) (fun _ _ _ => True) ->
  owners_ok (mkConfig (c_threads c ++ [p]) (c_state c) log) (os ++ [∅]).
Proof.
  intros (Hlen & Ha & HI & Hw) Hi0 Hp. split_and!; cbn.
  - rewrite !length_app. cbn. lia.
  - by apply apart_spawn.
  - rewrite union_list_app_L. cbn. by rewrite !(right_id_L ∅ (∪)).
  - intros j q o Hq Hj. apply lookup_app_Some in Hq as [Hq|[Hge Hq]].
    + rewrite lookup_app_l in Hj by (rewrite Hlen; by eapply lookup_lt_Some). by eapply Hw.
    + apply list_lookup_singleton_Some in Hq as [Hq0 <-].
      rewrite lookup_app_r in Hj by lia. apply list_lookup_singleton_Some in Hj as [_ <-].
      eapply wp_mono; [|exact Hp]. intros u o' s' _ _ _ ->. destruct Hi0; [lia|done].
Qed.

Lemma pool_step c c' : pool_ok c -> cstep c c' -> pool_ok c' /\ R (c_state c) (c_state c').
Proof.
  intros (Hi0 & (os & Hos) & Hp) [i Hs]. unfold thread_step in Hs.
  destruct (c_threads c !! i) as [p|] eqn:Ei; [|done]. pose proof (lookup_lt_Some _ _ _ Ei) as Hlt.
  pose proof Hos as (Hlen & Ha & HI & Hw).
  destruct (os !! i) as [o|] eqn:Eo; [|apply lookup_ge_None in Eo; lia].
  pose proof (Hw i p o Ei Eo) as Hwp. pose proof (apart_rest i o os Ha Eo) as HF.
  rewrite (union_split i o os Eo) in HI. assert (sees o (c_state c)) as Hsees by by eapply sees_intro.
  destruct p as [u|B l m k|w q k]; [done| |].
  - specialize (Hwp _ Hsees (reflexivity _) _ (c_trace c) HF HI).
    destruct (m (c_state c, c_trace c)) as [b [s' t']].
    destruct Hwp as ((ext & -> & He) & Hr & o' & Ho' & HI' & Hk). injection Hs as <-.
    rewrite drop_app_length. split; [|done]. split_and!; cbn.
    + unfold started. cbn. by rewrite length_insert.
    + exists (<[i := o']> os). apply owners_update; try done. lia.
    + unfold c_trace in *. cbn. rewrite fmap_app, <- list_fmap_compose. apply Forall_app. split; [done|].
      cbn. by rewrite list_fmap_id.
  - injection Hs as <-. destruct Hwp as (Hwv & Hq & Hk). split; [|done]. split_and!; cbn.
    + unfold started in *. cbn. rewrite length_app, length_insert. destruct Hi0; [left; lia|by right].
    + exists (<[i := o]> os ++ [∅]).
      apply (owners_spawn (mkConfig (<[i := k]> (c_threads c)) (c_state c) [])).
      * apply owners_update; try done. lia.
      * unfold started in *. by rewrite <- (length_insert (c_threads c) i k) in Hi0.
      * apply Hq; [|done]. exists (o ∪ rest i os). split; [set_solver|]. by rewrite (left_id_L ∅ (∪)).
    + unfold c_trace in *. cbn. rewrite fmap_app. apply Forall_app. split; [done|]. by repeat constructor.
Qed.

(** In every interleaving the invariant holds and only allowed events
    happen. *)
Lemma pool_reachable c c' : pool_ok c -> rtc cstep c c' -> pool_ok c' /\ R (c_state c) (c_state c').
Proof.
  intros Hc Hs. induction Hs as [c|c1 c2 c3 H12 H23 IH]; [done|].
  destruct (pool_step _ _ Hc H12) as [H2 R12]. destruct (IH H2) as [H3 R23]. split; [done|]. by etrans.
Qed.

Lemma pool_state c : pool_ok c -> exists o, I o (c_state c).
Proof. intros (_ & (os & _ & _ & HI & _) & _). eauto. Qed.

(** What goroutine [i0] promises at its end holds from then on. *)
Lemma pool_post c u : pool_ok c -> c_threads c !! i0 = Some (Done u) -> Q0 (c_state c).
Proof.
  intros (_ & (os & Hlen & Ha & HI & Hw) & _) Hd. pose proof (lookup_lt_Some _ _ _ Hd) as Hlt.
  destruct (os !! i0) as [o|] eqn:Eo; [|apply lookup_ge_None in Eo; lia].
  pose proof (Hw i0 _ o Hd Eo) as H. cbn in H. apply (H (c_state c)); [|done..].
  rewrite (union_split i0 o os Eo) in HI. eapply sees_intro, HI. by apply apart_rest.
Qed.
End Pool.
End Logic.

(** ** A goroutine's own calls *)

(** The calls goroutine [i] has made. *)
Definition own (i : nat) (l : list (nat * event)) : trace :=
  omap (fun '(j, e) => if decide (j = i) then Some e else None) l.

Definition log_of {S} (i : nat) (c : config S) : trace := own i (c_log c).

Lemma own_app i l l' : own i (l ++ l') = own i l ++ own i l'.
Proof. apply omap_app. Qed.

Lemma own_pairs i j (es : trace) : own i (map (pair j) es) = if decide (j = i) then es else [].
Proof.
  unfold own. induction es as [|e es IH]; cbn; [by case_decide|].
  rewrite IH. by case_decide.
Qed.

Lemma own_fresh n l i : Forall (fun x => fst x < n)%nat l -> (n <= i)%nat -> own i l = [].
Proof.
  intros Hf Hi. unfold own. induction Hf as [|[j e] l Hj _ IH]; cbn; [done|].
  cbn in Hj. rewrite decide_False by lia. exact IH.
Qed.

Section Ends.
Context {S : Type} (C : trace -> Prop).

(** Whatever the others do between its steps, the program, having made the
    calls [es], ends with [Q] of its result and its calls; the goroutines it
    starts end with [C] of theirs. *)
Fixpoint ends {A : Type} (p : prog S A) (es : trace) (Q : A -> trace -> Prop) : Prop :=
  match p with
  | Done a => Q a es
  | Act _ m k => forall s t, let '(b, (_, t')) := m (s, t) in
      exists ext, t' = t ++ ext /\ ends (k b) (es ++ ext) Q
  | Go w q k => ends q [] (fun _ => C) /\ ends k (es ++ [EvSpawn w]) Q
  end.

Lemma ends_mono {A} (p : prog S A) es (Q Q' : A -> trace -> Prop) :
  (forall a es', Q a es' -> Q' a es') -> ends p es Q -> ends p es Q'.
Proof.
  revert es Q Q'. induction p as [A a|A B l m k IH|A w q _ k IH]; intros es Q Q' HQ; cbn; [auto| |].
  - intros H s t. specialize (H s t). destruct (m (s, t)) as [b [s' t']].
    destruct H as (ext & -> & H). eauto.
  - intros [Hq Hk]. eauto.
Qed.

Lemma ends_pbind {A B} (p : prog S A) (f : A -> prog S B) es Q :
  ends p es (fun a es' => ends (f a) es' Q) -> ends (pbind p f) es Q.
Proof.
  revert B f es Q. induction p as [A a|A D l m k IH|A w q _ k IH]; intros B f es Q; cbn; [done| |].
  - intros H s t. specialize (H s t). destruct (m (s, t)) as [b [s' t']].
    destruct H as (ext & -> & H). eauto.
  - intros [Hq Hk]. eauto.
Qed.

(** Every goroutine is on its way to such an end. *)
Definition pool_ends (c : config S) : Prop :=
  (forall i p, c_threads c !! i = Some p -> ends p (log_of i c) (fun _ => C)) /\
  Forall (fun x => fst x < length (c_threads c))%nat (c_log c).

Lemma pool_ends_step c c' : pool_ends c -> cstep c c' -> pool_ends c'.
Proof.
  intros [He Hl] [i Hs]. unfold thread_step in Hs. destruct (c_threads c !! i) as [p|] eqn:Ei; [|done].
  pose proof (lookup_lt_Some _ _ _ Ei) as Hlt. unfold pool_ends, log_of in *.
  destruct p as [u|B l m k|w q k]; [done| |].
  - pose proof (He i _ Ei (c_state c) (c_trace c)) as H.
    destruct (m (c_state c, c_trace c)) as [b [s' t']]. destruct H as (ext & -> & H). injection Hs as <-.
    rewrite drop_app_length. cbn [c_threads c_log]. split.
    + intros j p Hj. rewrite own_app, own_pairs. destruct (decide (i = j)) as [<-|Hne].
      * rewrite list_lookup_insert_eq in Hj by done. by injection Hj as <-.
      * rewrite list_lookup_insert_ne in Hj by done. rewrite app_nil_r. by apply He.
    + apply Forall_app. split; rewrite length_insert; [done|]. apply Forall_fmap, Forall_true. done.
  - injection Hs as <-. destruct (He i _ Ei) as [Hq Hk]. cbn [c_threads c_log]. split.
    + intros j p Hj. rewrite own_app. change [(i, EvSpawn w)] with (map (pair i) [EvSpawn w]).
      rewrite own_pairs.
      apply lookup_app_Some in Hj as [Hj|[Hge Hj]].
      * destruct (decide (i = j)) as [<-|Hne].
        -- rewrite list_lookup_insert_eq in Hj by done. by injection Hj as <-.
        -- rewrite list_lookup_insert_ne in Hj by done. rewrite app_nil_r. by apply He.
      * rewrite length_insert in *. apply list_lookup_singleton_Some in Hj as [Hj0 <-].
        rewrite decide_False by lia. by rewrite (own_fresh _ _ j Hl) by lia.
    + rewrite length_app, length_insert. apply Forall_app. split.
      * eapply Forall_impl; [exact Hl|]. cbn. lia.
      * repeat constructor. cbn. lia.
Qed.

Lemma pool_ends_reachable c c' : pool_ends c -> rtc cstep c c' -> pool_ends c'.
Proof. intros Hc Hs. induction Hs; eauto using pool_ends_step. Qed.

(** What a finished goroutine has done. *)
Lemma ended c i u : pool_ends c -> c_threads c !! i = Some (Done u) -> C (log_of i c).
Proof. intros [He _] Hi. exact (He i _ Hi). Qed.

(** What goroutine [i] promises of its own calls. *)
Lemma ends_post_step i p Q c c' :
  c_threads c !! i = Some p -> ends p (log_of i c) Q -> cstep c c' ->
  exists p', c_threads c' !! i = Some p' /\ ends p' (log_of i c') Q.
Proof.
  intros Hp He [j Hs]. pose proof (lookup_lt_Some _ _ _ Hp) as Hlt. unfold thread_step in Hs.
  unfold log_of in *. destruct (decide (j = i)) as [->|Hne].
  - rewrite Hp in Hs. destruct p as [u|B l m k|w q k]; [done| |].
    + specialize (He (c_state c) (c_trace c)).
      destruct (m (c_state c, c_trace c)) as [b [s' t']]. destruct He as (ext & -> & He).
      injection Hs as <-. exists (k b). rewrite drop_app_length. cbn [c_threads c_log].
      rewrite own_app, own_pairs, decide_True by done. by rewrite list_lookup_insert_eq.
    + injection Hs as <-. destruct He as [_ Hk]. exists k. cbn [c_threads c_log].
      rewrite own_app. change [(i, EvSpawn w)] with (map (pair i) [EvSpawn w]).
      rewrite own_pairs, decide_True by done. split; [|done].
      rewrite lookup_app_l by (by rewrite length_insert). by rewrite list_lookup_insert_eq.
  - exists p. destruct (c_threads c !! j) as [[u|B l m k|w q k]|]; [done| | |done].
    + destruct (m (c_state c, c_trace c)) as [b [s' t']]. injection Hs as <-. cbn [c_threads c_log].
      rewrite own_app, own_pairs, decide_False by done. rewrite app_nil_r.
      by rewrite list_lookup_insert_ne.
    + injection Hs as <-. cbn [c_threads c_log].
      rewrite own_app. change [(j, EvSpawn w)] with (map (pair j) [EvSpawn w]).
      rewrite own_pairs, decide_False by done. rewrite app_nil_r. split; [|done].
      rewrite lookup_app_l by (by rewrite length_insert). by rewrite list_lookup_insert_ne.
Qed.

Lemma ends_post i p Q c c' u :
  c_threads c !! i = Some p -> ends p (log_of i c) Q -> rtc cstep c c' ->
  c_threads c' !! i = Some (Done u) -> Q u (log_of i c').
Proof.
  intros Hp He Hs. revert p Hp He. induction Hs as [c|c1 c2 c3 H12 H23 IH]; intros p Hp He Hd.
  - rewrite Hp in Hd. by injection Hd as ->.
  - destruct (ends_post_step i p Q c1 c2) as (p' & Hp' & He'); try done. by eapply IH.
Qed.
End Ends.
