(* ===== verification/Locks.v ===== *)
(** * Mutexes

    The programs of [Fine] with their mutexes: a critical section begins by
    acquiring its mutex, runs in as many steps as one likes while other
    goroutines step in between, and ends by releasing it.  A class says which
    part of the state each mutex guards; a program is disciplined when it
    touches a guarded part only in a section of its mutex.  For disciplined
    programs critical sections are atomic ([sim_steps], [sim_quiet]): every
    execution with mutexes is an execution of the machine of [Conc]. *)

From stdpp Require Import relations.
From S2P Require Import Prelude Orp Conc.

Local Open Scope agent_scope.

(** ** What mutexes guard *)

(** [agree mu]: the part guarded by [mu] is the same; [agree_rest]: so is what
    no mutex guards.  [present]: the mutex exists; [ok]: an invariant of the
    unguarded part. *)
Class Regions (S : Type) : Type := {
  present : mutex -> S -> bool;
  agree : mutex -> S -> S -> Prop;
  agree_rest : S -> S -> Prop;
  ok : S -> Prop;
  agree_equiv mu : Equivalence (agree mu);
  agree_rest_equiv : Equivalence agree_rest;
  agree_present mu s s' : agree mu s s' -> present mu s = present mu s';
  agree_rest_present mu s s' : agree_rest s s' -> present mu s = present mu s';
  agree_absent mu s s' : present mu s = false -> present mu s' = false -> agree mu s s';
  agree_rest_ok s s' : agree_rest s s' -> ok s -> ok s';
  agree_ext s s' : agree_rest s s' -> (forall mu, agree mu s s') -> s = s';
  (* the part of [mu] from one state, everything else from another *)
  agree_splice mu s s' : present mu s = present mu s' ->
    exists s'', agree mu s'' s /\ agree_rest s'' s' /\ forall mu', mu' <> mu -> agree mu' s'' s'
}.
#[export] Existing Instance agree_equiv.
#[export] Existing Instance agree_rest_equiv.

Section Locks.
Context {S : Type} `{Rg : Regions S}.
Implicit Types s : S.

(** An action that touches what no mutex guards, and the part of the mutex
    [o], which it changes only if [w].  A part that did not exist may come
    into being. *)
Definition within (o : option mutex) (w : bool) {B : Type} (m : Eff S B) : Prop :=
  forall s1 s2 t, ok s1 -> agree_rest s1 s2 -> (forall mu, o = Some mu -> agree mu s1 s2) ->
    let '(b1, (s1', t1)) := m (s1, t) in
    let '(b2, (s2', t2)) := m (s2, t) in
    b1 = b2 /\ t1 = t2 /\ (exists ext, t1 = t ++ ext) /\ ok s1' /\ agree_rest s1' s2' /\
    (forall mu, present mu s1 = true -> present mu s1' = true) /\
    (forall mu, o = Some mu -> agree mu s1' s2') /\
    (forall mu, o <> Some mu \/ w = false -> present mu s1 = true ->
       agree mu s1 s1' /\ agree mu s2 s2') /\
    (forall mu, o <> Some mu -> present mu s1 = false -> agree mu s1' s2').

Lemma within_ext {B : Type} o w (m m' : Eff S B) :
  (forall s t, m (s, t) = m' (s, t)) -> within o w m -> within o w m'.
Proof. intros E Hm s1 s2 t. rewrite <- !E. apply Hm. Qed.

(** Calls: the state is left alone and does not matter. *)
Definition stateless {B : Type} (m : Eff S B) : Prop :=
  forall t, exists b ext, forall s, m (s, t) = (b, (s, t ++ ext)).

Lemma stateless_ret {B : Type} (b : B) : stateless (mret b).
Proof. intros t. exists b, []. intros s. by rewrite app_nil_r. Qed.

Lemma stateless_bind {B C : Type} (m : Eff S B) (k : B -> Eff S C) :
  stateless m -> (forall b, stateless (k b)) -> stateless (mbind m k).
Proof.
  intros Hm Hk t. destruct (Hm t) as (b & ext & E). destruct (Hk b (t ++ ext)) as (c & ext' & E').
  exists c, (ext ++ ext'). intros s. unfold mbind. by rewrite E, E', app_assoc.
Qed.

Lemma within_stateless {B : Type} o w (m : Eff S B) : stateless m -> within o w m.
Proof.
  intros Hm s1 s2 t Hok Hr Ho. destruct (Hm t) as (b & ext & E). rewrite !E.
  split_and!; try done; [by exists ext|]. intros mu _ Hp. apply agree_absent; [done|].
  by rewrite <- (agree_rest_present mu s1).
Qed.

(** Reading. *)
Lemma within_read {B : Type} o w (f : S -> B) :
  (forall s1 s2, agree_rest s1 s2 -> (forall mu, o = Some mu -> agree mu s1 s2) -> f s1 = f s2) ->
  within o w (fun '(s, t) => (f s, (s, t))).
Proof.
  intros Hf s1 s2 t Hok Hr Ho. rewrite (Hf s1 s2 Hr Ho).
  split_and!; try done; [by exists []; rewrite app_nil_r|]. intros mu _ Hp. apply agree_absent; [done|].
  by rewrite <- (agree_rest_present mu s1).
Qed.

(** A step that makes no new mutex. *)
Lemma within_step {B : Type} o w (f : S -> B * S) :
  (forall s1 s2, agree_rest s1 s2 -> (forall mu, o = Some mu -> agree mu s1 s2) ->
     fst (f s1) = fst (f s2) /\ agree_rest (snd (f s1)) (snd (f s2)) /\
     forall mu, o = Some mu -> agree mu (snd (f s1)) (snd (f s2))) ->
  (forall s, ok s -> ok (snd (f s))) ->
  (forall s mu, present mu (snd (f s)) = present mu s) ->
  (forall s mu, o <> Some mu \/ w = false -> agree mu s (snd (f s))) ->
  within o w (fun '(s, t) => let '(b, s') := f s in (b, (s', t))).
Proof.
  intros Hf Hok Hpr Hsame s1 s2 t Hok1 Hr Ho. specialize (Hf s1 s2 Hr Ho).
  pose proof (Hok s1 Hok1) as Hok1'. pose proof (Hpr s1) as Hp1. pose proof (Hpr s2) as Hp2.
  pose proof (Hsame s1) as Hs1. pose proof (Hsame s2) as Hs2.
  destruct (f s1) as [b1 s1'], (f s2) as [b2 s2']. cbn in *. destruct Hf as (<- & Hr' & Ho').
  split_and!; try done; [by exists []; rewrite app_nil_r|intros mu; by rewrite Hp1|auto|].
  intros mu _ Hp. apply agree_absent; [by rewrite Hp1|]. by rewrite Hp2, <- (agree_rest_present mu s1).
Qed.

Lemma within_bind {B C : Type} o w (m : Eff S B) (k : B -> Eff S C) :
  within o w m -> (forall b, within o w (k b)) -> within o w (mbind m k).
Proof.
  intros Hm Hk s1 s2 t Hok Hr Ho. unfold mbind. specialize (Hm s1 s2 t Hok Hr Ho).
  destruct (m (s1, t)) as [b [s1' t1]], (m (s2, t)) as [b2 [s2' t2]].
  destruct Hm as (<- & <- & [ext ->] & Hok' & Hr' & Hp' & Ho' & Hs' & Hn').
  specialize (Hk b s1' s2' (t ++ ext) Hok' Hr' Ho').
  destruct (k b (s1', t ++ ext)) as [c [s1'' t1]], (k b (s2', t ++ ext)) as [c2 [s2'' t2]].
  destruct Hk as (<- & <- & [ext' ->] & Hok'' & Hr'' & Hp'' & Ho'' & Hs'' & Hn'').
  split_and!; try done.
  - exists (ext ++ ext'). by rewrite app_assoc.
  - auto.
  - intros mu Hmu Hp. destruct (Hs' mu Hmu Hp), (Hs'' mu Hmu (Hp' mu Hp)). split; by etrans.
  - intros mu Hmu Hp. specialize (Hn' mu Hmu Hp). destruct (present mu s1') eqn:E; [|by apply Hn''].
    destruct (Hs'' mu (or_introl Hmu) E) as [H1 H2]. etrans; [symmetry; exact H1|].
    etrans; [exact Hn'|exact H2].
Qed.

(** A step on the part of [mu] alone. *)
Definition local (mu : mutex) (w : bool) {B : Type} (f : S -> B * S) : Prop :=
  forall s1 s2, present mu s1 = true -> agree mu s1 s2 ->
    let '(b1, s1') := f s1 in
    let '(b2, s2') := f s2 in
    b1 = b2 /\ agree mu s1' s2' /\ agree_rest s1 s1' /\
    (forall mu', mu' <> mu \/ w = false -> agree mu' s1 s1').

(** ** The inside of a critical section

    Steps on the guarded part, and at most one on everything that is not
    guarded by another mutex. *)
Inductive body (B : Type) : Type :=
  | Ret (b : B)
  | Loc {C : Type} (f : S -> C * S) (k : C -> body B)
  | Glob {C : Type} (m : Eff S C) (k : C -> body B).
Arguments Ret {B} b.
Arguments Loc {B C} f k.
Arguments Glob {B C} m k.

Fixpoint run {B : Type} (b : body B) : Eff S B :=
  match b with
  | Ret b => mret b
  | Loc f k => fun '(s, t) => let '(c, s') := f s in run (k c) (s', t)
  | Glob m k => mbind m (fun c => run (k c))
  end.

(** [done_]: the global step is over. *)
Fixpoint sound (mu : mutex) (w done_ : bool) {B : Type} (b : body B) : Prop :=
  match b with
  | Ret _ => True
  | Loc f k => local mu w f /\ forall c, sound mu w done_ (k c)
  | Glob m k => done_ = false /\ within (Some mu) w m /\ forall c, sound mu w true (k c)
  end.

(** The steps [b] are a way to run the section [m]. *)
Definition decomposes (mu : mutex) (w : bool) {B : Type} (m : Eff S B) (b : body B) : Prop :=
  sound mu w false b /\ forall s t, present mu s = true -> run b (s, t) = m (s, t).

(** ** The machine *)
Definition section_of (l : sync) : option (mutex * bool) :=
  match l with
  | Locked mu => Some (mu, true)
  | RLocked mu => Some (mu, false)
  | _ => None
  end.

Inductive lthread : Type :=
  | Out (p : prog S unit)
  | In {B : Type} (mu : mutex) (w : bool) (b : body B) (k : B -> prog S unit).

Record lconfig : Type := mkL {
  l_threads : list lthread;
  l_state : S;
  l_held : list mutex;      (* taken by a [Lock] step *)
  l_log : list (nat * event)
}.

Definition l_trace (l : lconfig) : trace := (l_log l).*2.

(** A writer excludes everybody, a reader excludes writers. *)
Definition clear_of (mu : mutex) (w : bool) (th : lthread) : bool :=
  match th with
  | Out _ => true
  | In mu' w' _ _ => negb (bool_decide (mu' = mu)) || (negb w && negb w')
  end.

Definition free (mu : mutex) (w : bool) (l : lconfig) : bool :=
  bool_decide (mu ∉ l_held l) && forallb (clear_of mu w) (l_threads l).

(** Thread [i] makes the call [m] and goes on as [cont]. *)
Definition perform {B : Type} (i : nat) (m : Eff S B) (cont : B -> lthread) (held : list mutex)
    (l : lconfig) : lconfig :=
  let t := l_trace l in
  let '(b, (s, t')) := m (l_state l, t) in
  mkL (<[i := cont b]> (l_threads l)) s held (l_log l ++ map (pair i) (drop (length t) t')).

Definition give_back (mu : mutex) (held : list mutex) : list mutex := filter (fun x => x <> mu) held.

Inductive lstep_at (i : nat) (l : lconfig) : lconfig -> Prop :=
  | l_plain {B : Type} (m : Eff S B) k :
      l_threads l !! i = Some (Out (Act Plain m k)) ->
      lstep_at i l (perform i m (fun b => Out (k b)) (l_held l) l)
  | l_lock {B : Type} mu (m : Eff S B) k :
      l_threads l !! i = Some (Out (Act (Lock mu) m k)) -> free mu true l = true ->
      lstep_at i l (perform i m (fun b => Out (k b)) (mu :: l_held l) l)
  | l_unlock {B : Type} mu (m : Eff S B) k :
      l_threads l !! i = Some (Out (Act (Unlock mu) m k)) -> mu ∈ l_held l ->
      lstep_at i l (perform i m (fun b => Out (k b)) (give_back mu (l_held l)) l)
  | l_enter {B : Type} lb mu w (m : Eff S B) k b :
      l_threads l !! i = Some (Out (Act lb m k)) -> section_of lb = Some (mu, w) ->
      present mu (l_state l) = true -> free mu w l = true -> decomposes mu w m b ->
      lstep_at i l (mkL (<[i := In mu w b k]> (l_threads l)) (l_state l) (l_held l) (l_log l))
  | l_absent {B : Type} lb mu w (m : Eff S B) k :
      (* there is no such wrapper *)
      l_threads l !! i = Some (Out (Act lb m k)) -> section_of lb = Some (mu, w) ->
      present mu (l_state l) = false ->
      lstep_at i l (perform i m (fun b => Out (k b)) (l_held l) l)
  | l_loc {B C : Type} mu w (f : S -> C * S) (kb : C -> body B) k c s' :
      l_threads l !! i = Some (In mu w (Loc f kb) k) -> f (l_state l) = (c, s') ->
      lstep_at i l (mkL (<[i := In mu w (kb c) k]> (l_threads l)) s' (l_held l) (l_log l))
  | l_glob {B C : Type} mu w (m : Eff S C) (kb : C -> body B) k :
      l_threads l !! i = Some (In mu w (Glob m kb) k) ->
      lstep_at i l (perform i m (fun c => In mu w (kb c) k) (l_held l) l)
  | l_leave {B : Type} mu w (b : B) k :
      l_threads l !! i = Some (In mu w (Ret b) k) ->
      lstep_at i l (mkL (<[i := Out (k b)]> (l_threads l)) (l_state l) (l_held l) (l_log l))
  | l_go w p k :
      l_threads l !! i = Some (Out (Go w p k)) ->
      lstep_at i l (mkL (<[i := Out k]> (l_threads l) ++ [Out p]) (l_state l) (l_held l)
                      (l_log l ++ [(i, EvSpawn w)])).

Definition lstep (l l' : lconfig) : Prop := exists i, lstep_at i l l'.

(** ** Disciplined programs *)
Definition obeys (lb : sync) {B : Type} (m : Eff S B) : Prop :=
  match section_of lb with
  | Some (mu, w) => within (Some mu) w m
  | None => within None false m
  end.

Fixpoint disciplined {A : Type} (p : prog S A) : Prop :=
  match p with
  | Done _ => True
  | Act lb m k => obeys lb m /\ forall b, disciplined (k b)
  | Go _ q k => disciplined q /\ disciplined k
  end.

Lemma disciplined_bind {A B : Type} (p : prog S A) (f : A -> prog S B) :
  disciplined p -> (forall a, disciplined (f a)) -> disciplined (pbind p f).
Proof.
  revert B f. induction p as [A a|A C l m k IH|A w q _ k IH]; intros B f; cbn; [auto| |].
  - intros [Hm Hk] Hf. split; [done|]. intros b. by apply IH.
  - intros [Hq Hk] Hf. split; [done|]. by apply IH.
Qed.

(** ** Atomicity

    The atomic machine takes a section's step when its global step is taken,
    or when it is left.  Until then its part of the state is as it was, after
    that it is as the section will leave it. *)
Definition holds (mu : mutex) (th : lthread) : Prop :=
  match th with Out _ => False | In mu' _ _ _ => mu' = mu end.

Definition writer (mu : mutex) (th : lthread) : Prop :=
  match th with Out _ => False | In mu' w _ _ => mu' = mu /\ w = true end.

Lemma writer_holds mu th : writer mu th -> holds mu th.
Proof. destruct th; cbn; [done|]. by intros [-> _]. Qed.

(** Two results with the same part of [mu]; parts that did not exist in [s]
    are the same. *)
Definition alike {B : Type} (mu : mutex) s (x y : B * (S * trace)) : Prop :=
  let '(b1, (s1, t1)) := x in
  let '(b2, (s2, t2)) := y in
  b1 = b2 /\ t1 = t2 /\ agree_rest s1 s2 /\ agree mu s1 s2 /\
  forall mu', mu' <> mu -> present mu' s = false -> agree mu' s1 s2.

(** The rest [b] of a section in the state [s] does what the section [m] does
    in [s']. *)
Definition pending {B : Type} (mu : mutex) (b : body B) (m : Eff S B) s s' : Prop :=
  forall s1 s2 t, ok s1 -> agree mu s1 s -> agree mu s2 s' -> agree_rest s1 s2 ->
    alike mu s1 (run b (s1, t)) (m (s2, t)).

(** The rest [b] of a section returns [r] and makes the part of [mu] that of
    [s']. *)
Definition settling {B : Type} (mu : mutex) (b : body B) (r : B) s s' : Prop :=
  forall s1 t, agree mu s1 s -> exists s2, run b (s1, t) = (r, (s2, t)) /\ agree mu s2 s'.

Definition trel s s' (th : lthread) (p : prog S unit) : Prop :=
  match th with
  | Out q => p = q /\ disciplined q
  | @In B mu w b k =>
      present mu s = true /\
      ((exists lb (m : Eff S B), p = Act lb m k /\ section_of lb = Some (mu, w) /\
          disciplined (Act lb m k) /\ sound mu w false b /\ pending mu b m s s') \/
       (exists r, p = k r /\ (forall r, disciplined (k r)) /\ sound mu w true b /\
          settling mu b r s s'))
  end.

Record sim (l : lconfig) (c : config S) : Prop := {
  sim_log : l_log l = c_log c;
  sim_ok : ok (l_state l);
  sim_rest : agree_rest (l_state l) (c_state c);
  sim_part : forall mu, (forall i th, l_threads l !! i = Some th -> ~ writer mu th) ->
    agree mu (l_state l) (c_state c);
  sim_threads : Forall2 (trel (l_state l) (c_state c)) (l_threads l) (c_threads c);
  sim_excl : forall i j th th' mu, l_threads l !! i = Some th -> l_threads l !! j = Some th' ->
    i <> j -> writer mu th -> ~ holds mu th'
}.

(** *** Facts about sections *)
Lemma run_local {B : Type} mu w (b : body B) :
  sound mu w true b -> forall s1 s2 t1 t2, present mu s1 = true -> agree mu s1 s2 ->
  exists r s1' s2', run b (s1, t1) = (r, (s1', t1)) /\ run b (s2, t2) = (r, (s2', t2)) /\
    agree mu s1' s2' /\ agree_rest s1 s1' /\
    forall mu', mu' <> mu \/ w = false -> agree mu' s1 s1'.
Proof.
  induction b as [b|C f k IH|C m k IH]; cbn; [| |by intros [? _]].
  - intros _ s1 s2 t1 t2 _ Ha. by exists b, s1, s2.
  - intros [Hf Hk] s1 s2 t1 t2 Hp Ha. pose proof (Hf s1 s2 Hp Ha) as H.
    destruct (f s1) as [c s1'], (f s2) as [c' s2']. destruct H as (<- & Ha' & Hr & Ho).
    destruct (IH c (Hk c) s1' s2' t1 t2) as (r & s1'' & s2'' & E1 & E2 & Ha'' & Hr' & Ho'); [|done|].
    { by rewrite <- (agree_rest_present mu s1). }
    exists r, s1'', s2''. split_and!; [done..|by etrans|]. intros mu' Hmu. etrans; [by apply Ho|by apply Ho'].
Qed.

(** A step on the part of [mu] from a state whose part of [mu] is known. *)
Lemma local_splice {C : Type} mu w (f : S -> C * S) s c s' s1' :
  local mu w f -> present mu s = true -> f s = (c, s') -> agree mu s1' s' ->
  exists s1, agree mu s1 s /\ f s1 = (c, s1') /\ agree_rest s1 s1' /\
    forall mu', mu' <> mu -> agree mu' s1 s1'.
Proof.
  intros Hf Hp E Ha.
  assert (agree_rest s s') as Hr.
  { pose proof (Hf s s Hp (reflexivity s)) as H. rewrite E in H. apply H. }
  destruct (agree_splice mu s s1') as (s1 & H1 & H2 & H3).
  { rewrite (agree_present mu s1' s') by done. by apply agree_rest_present. }
  exists s1. assert (present mu s1 = true) as Hp1 by (rewrite (agree_present mu s1 s); done).
  pose proof (Hf s1 s Hp1 H1) as H. rewrite E in H. destruct (f s1) as [c1 s1''] eqn:E1.
  destruct H as (-> & Ha' & Hr' & Ho). split_and!; [done| |done..]. f_equal. apply agree_ext.
  - etrans; [|exact H2]. by symmetry.
  - intros mu'. destruct (decide (mu' = mu)) as [->|Hne].
    + etrans; [exact Ha'|]. by symmetry.
    + etrans; [symmetry; apply Ho; by left|by apply H3].
Qed.

Lemma pending_stable {B : Type} mu (b : body B) (m : Eff S B) s1 s1' s2 s2' :
  agree mu s1 s2 -> agree mu s1' s2' -> pending mu b m s1 s1' -> pending mu b m s2 s2'.
Proof.
  intros H H' Hp x y t Hok Hx Hy. apply Hp; [done|..]; by (etrans; [|symmetry]).
Qed.

Lemma settling_stable {B : Type} mu (b : body B) r s1 s1' s2 s2' :
  agree mu s1 s2 -> agree mu s1' s2' -> settling mu b r s1 s1' -> settling mu b r s2 s2'.
Proof.
  intros H H' Hs x t Hx. destruct (Hs x t) as (y & E & Hy); [by etrans; [|symmetry]|].
  exists y. split; [done|]. by etrans.
Qed.

Lemma trel_stable s s' s1 s1' th p :
  (forall mu, holds mu th -> agree mu s s1 /\ agree mu s' s1') -> trel s s' th p -> trel s1 s1' th p.
Proof.
  intros Ha. destruct th as [q|B mu w b k]; cbn; [done|]. destruct (Ha mu eq_refl) as [H1 H2].
  rewrite (agree_present mu s s1 H1).
  intros (Hp & [(lb & m & ? & ? & ? & ? & ?)|(r & ? & ? & ? & ?)]); split; try done.
  - left. exists lb, m. do 4 (split; [done|]). by eapply pending_stable.
  - right. exists r. do 3 (split; [done|]). by eapply settling_stable.
Qed.

Lemma trel_present s s' th p mu : trel s s' th p -> holds mu th -> present mu s = true.
Proof. destruct th as [q|B mu' w b k]; cbn; [done|]. by intros [? _] <-. Qed.

(** *** One step *)

(** Thread [i] goes on as [th] here and as [p] there. *)
Lemma sim_update i th p l c s s' held log :
  sim l c -> (i < length (l_threads l))%nat ->
  ok s -> agree_rest s s' -> trel s s' th p ->
  (forall j th' mu, j <> i -> l_threads l !! j = Some th' -> holds mu th' ->
     agree mu (l_state l) s /\ agree mu (c_state c) s') ->
  (forall mu, ~ writer mu th ->
     (forall j th', j <> i -> l_threads l !! j = Some th' -> ~ writer mu th') -> agree mu s s') ->
  (forall j th' mu, j <> i -> l_threads l !! j = Some th' ->
     (writer mu th -> ~ holds mu th') /\ (holds mu th -> ~ writer mu th')) ->
  sim (mkL (<[i := th]> (l_threads l)) s held log) (mkConfig (<[i := p]> (c_threads c)) s' log).
Proof.
  intros [Hlog Hok Hr Hpart Hth Hex] Hi Hok' Hr' Ht Hframe Hreg Hexcl. constructor; cbn; try done.
  - intros mu Hno. apply Hreg.
    + apply (Hno i). by rewrite list_lookup_insert_eq.
    + intros j th' Hne Hj. apply (Hno j). by rewrite list_lookup_insert_ne.
  - apply Forall2_same_length_lookup. pose proof (Forall2_length _ _ _ Hth) as Hlen.
    split; [by rewrite !length_insert|]. intros j th' p' Hj Hj'. destruct (decide (i = j)) as [<-|Hne].
    + rewrite list_lookup_insert_eq in Hj by done. rewrite list_lookup_insert_eq in Hj' by lia.
      by simplify_eq.
    + rewrite list_lookup_insert_ne in Hj by done. rewrite list_lookup_insert_ne in Hj' by done.
      eapply trel_stable; [|by eapply Forall2_lookup_lr]. intros mu Hmu. by eapply Hframe.
  - intros j k th1 th2 mu Hj Hk Hne Hw. destruct (decide (i = j)) as [<-|Hij].
    + rewrite list_lookup_insert_eq in Hj by done. injection Hj as <-.
      rewrite list_lookup_insert_ne in Hk by done. by apply (Hexcl k th2 mu (not_eq_sym Hne) Hk).
    + rewrite list_lookup_insert_ne in Hj by done. destruct (decide (i = k)) as [<-|Hik].
      * rewrite list_lookup_insert_eq in Hk by done. injection Hk as <-. intros Hh.
        by apply (proj2 (Hexcl j th1 mu (not_eq_sym Hij) Hj) Hh).
      * rewrite list_lookup_insert_ne in Hk by done. by eapply (Hex j k).
Qed.

(** The thread and its program. *)
Lemma sim_thread l c i th :
  sim l c -> l_threads l !! i = Some th ->
  exists p, c_threads c !! i = Some p /\ trel (l_state l) (c_state c) th p.
Proof. intros Hs Hi. by apply (Forall2_lookup_l _ _ _ _ _ (sim_threads _ _ Hs) Hi). Qed.

Lemma sim_trace l c : sim l c -> l_trace l = c_trace c.
Proof. intros Hs. unfold l_trace, c_trace. by rewrite (sim_log _ _ Hs). Qed.

Lemma step_atomic {B : Type} i lb (m : Eff S B) k c b s t :
  c_threads c !! i = Some (Act lb m k) -> m (c_state c, c_trace c) = (b, (s, t)) ->
  cstep c (mkConfig (<[i := k b]> (c_threads c)) s (c_log c ++ map (pair i) (drop (length (c_trace c)) t))).
Proof. intros Hi E. exists i. unfold thread_step. by rewrite Hi, E. Qed.

(** Where nobody else writes and [i] is outside, both states agree. *)
Lemma sim_outside l c i p mu :
  sim l c -> l_threads l !! i = Some (Out p) ->
  (forall j th, j <> i -> l_threads l !! j = Some th -> ~ writer mu th) ->
  agree mu (l_state l) (c_state c).
Proof.
  intros Hs Hi Hno. apply (sim_part _ _ Hs). intros j th Hj. destruct (decide (j = i)) as [->|].
  - rewrite Hi in Hj. injection Hj as <-. by intros [].
  - by eapply Hno.
Qed.

(** A call that the atomic machine makes at the same time. *)
Lemma sim_perform {B : Type} i lb (o : option mutex) w (m : Eff S B) k l c held :
  sim l c -> l_threads l !! i = Some (Out (Act lb m k)) -> within o w m ->
  (forall mu, o = Some mu -> present mu (l_state l) = false) -> (forall b, disciplined (k b)) ->
  exists c', cstep c c' /\ sim (perform i m (fun b => Out (k b)) held l) c'.
Proof.
  intros Hs Hi Hm Ho Hd. pose proof (lookup_lt_Some _ _ _ Hi) as Hlt.
  destruct (sim_thread l c i _ Hs Hi) as (p & Hp & -> & _).
  pose proof (Hm (l_state l) (c_state c) (l_trace l) (sim_ok _ _ Hs) (sim_rest _ _ Hs)) as H.
  unfold perform. destruct (m (l_state l, l_trace l)) as [b1 [s1 t1]].
  destruct (m (c_state c, l_trace l)) as [b2 [s2 t2]] eqn:E.
  destruct H as (<- & <- & _ & Hok & Hr & _ & Hmine & Hsame & Hnew).
  { intros mu ->. apply agree_absent; [by apply Ho|].
    rewrite <- (agree_rest_present mu (l_state l)) by apply Hs. by apply Ho. }
  rewrite (sim_trace l c Hs) in E |- *. eexists. split; [by eapply step_atomic|].
  rewrite (sim_log _ _ Hs). apply sim_update; try done.
  - intros j th' mu Hne Hj Hh. destruct (sim_thread l c j _ Hs Hj) as (p' & _ & Ht').
    pose proof (trel_present _ _ _ _ _ Ht' Hh) as Hpr. apply Hsame; [|done]. left.
    intros ->. rewrite Ho in Hpr by done. done.
  - intros mu _ Hno. pose proof (sim_outside l c i _ mu Hs Hi Hno) as Ha.
    destruct (decide (o = Some mu)) as [->|Hne]; [by apply Hmine|].
    destruct (present mu (l_state l)) eqn:Hpr; [|by apply Hnew].
    destruct (Hsame mu (or_introl Hne) Hpr) as [H1 H2]. etrans; [symmetry; exact H1|].
    etrans; [exact Ha|exact H2].
Qed.

(** *** Entering *)
Lemma free_clear mu w l j th :
  free mu w l = true -> l_threads l !! j = Some th ->
  (w = true -> ~ holds mu th) /\ ~ writer mu th.
Proof.
  unfold free. rewrite andb_true_iff, forallb_forall. intros [_ Hf] Hj.
  specialize (Hf th). rewrite <- list_elem_of_In in Hf.
  specialize (Hf (list_elem_of_lookup_2 _ _ _ Hj)). destruct th as [p|B mu' w' b k]; cbn in *; [auto|].
  apply orb_true_iff in Hf as [Hf%negb_true_iff%bool_decide_eq_false|Hf%andb_true_iff].
  - split; [done|]. by intros [-> _].
  - destruct Hf as [Hw Hw']. destruct w, w'; try done. split; [done|]. by intros [_ ?].
Qed.

Lemma sim_enter {B : Type} i lb mu w (m : Eff S B) k b l c :
  sim l c -> l_threads l !! i = Some (Out (Act lb m k)) -> section_of lb = Some (mu, w) ->
  present mu (l_state l) = true -> free mu w l = true -> decomposes mu w m b ->
  sim (mkL (<[i := In mu w b k]> (l_threads l)) (l_state l) (l_held l) (l_log l)) c.
Proof.
  intros Hs Hi Hl Hp Hf [Hsound Hrun]. destruct (sim_thread l c i _ Hs Hi) as (p & Hpi & -> & Hd).
  assert (agree mu (l_state l) (c_state c)) as Ha.
  { apply (sim_part _ _ Hs). intros j th Hj. by eapply (free_clear mu w l j). }
  replace c with (mkConfig (<[i := Act lb m k]> (c_threads c)) (c_state c) (l_log l))
    by (rewrite list_insert_id, (sim_log _ _ Hs) by done; by destruct c).
  apply sim_update; try done; [by eapply lookup_lt_Some|apply Hs|apply Hs| | |].
  - split; [done|]. left. exists lb, m. do 4 (split; [done|]). intros s1 s2 t Hok H1 H2 Hr.
    rewrite Hrun by (by rewrite (agree_present mu s1 (l_state l))).
    destruct Hd as [Hm _]. unfold obeys in Hm. rewrite Hl in Hm. specialize (Hm s1 s2 t Hok Hr).
    destruct (m (s1, t)) as [b1 [s1' t1]], (m (s2, t)) as [b2 [s2' t2]].
    destruct Hm as (? & ? & _ & _ & ? & _ & Hmine & _ & Hnew).
    { intros mu' [= <-]. etrans; [exact H1|]. etrans; [exact Ha|]. by symmetry. }
    split_and!; try done; [by apply Hmine|]. intros mu' Hne. apply Hnew. congruence.
  - intros mu' _ Hno. by eapply sim_outside.
  - intros j th mu' Hne Hj. cbn. split.
    + intros [<- Hw]. by eapply (free_clear mu w l j).
    + intros <-. by eapply (free_clear mu w l j).
Qed.

(** *** Inside *)
Lemma pending_loc {B C : Type} mu w (f : S -> C * S) (kb : C -> body B) (m : Eff S B) s s' c s1 :
  local mu w f -> present mu s = true -> f s = (c, s1) ->
  pending mu (Loc f kb) m s s' -> pending mu (kb c) m s1 s'.
Proof.
  intros Hf Hp E Hpe x y t Hok Hx Hy Hr.
  destruct (local_splice mu w f s c s1 x Hf Hp E Hx) as (x0 & H1 & H2 & H3 & H4).
  pose proof (Hpe x0 y t) as H. cbn in H. rewrite H2 in H.
  assert (agree_rest x0 y) as Hr0 by (by etrans).
  specialize (H (agree_rest_ok _ _ (symmetry H3) Hok) H1 Hy Hr0).
  destruct (run (kb c) (x, t)) as [b1 [z1 t1]], (m (y, t)) as [b2 [z2 t2]].
  destruct H as (? & ? & ? & ? & Hnew). split_and!; try done.
  intros mu' Hne Habs. apply Hnew; [done|]. by rewrite (agree_rest_present mu' x0 x).
Qed.

Lemma settling_loc {B C : Type} mu w (f : S -> C * S) (kb : C -> body B) r s s' c s1 :
  local mu w f -> present mu s = true -> f s = (c, s1) ->
  settling mu (Loc f kb) r s s' -> settling mu (kb c) r s1 s'.
Proof.
  intros Hf Hp E Hse x t Hx.
  destruct (local_splice mu w f s c s1 x Hf Hp E Hx) as (x0 & H1 & H2 & _ & _).
  destruct (Hse x0 t H1) as (z & Ez & Hz). cbn in Ez. rewrite H2 in Ez. by exists z.
Qed.

(** What the others hold is not what thread [i] is in, unless both read. *)
Lemma sim_others l c i j B mu w (b : body B) k th mu' :
  sim l c -> l_threads l !! i = Some (In mu w b k) -> j <> i -> l_threads l !! j = Some th ->
  holds mu' th -> mu' <> mu \/ w = false.
Proof.
  intros Hs Hi Hne Hj Hh. destruct w; [|by right]. left. intros ->.
  apply (sim_excl _ _ Hs i j _ _ mu Hi Hj (not_eq_sym Hne)); done.
Qed.

Lemma sim_inside l c i B mu w (b : body B) k mu' :
  sim l c -> l_threads l !! i = Some (In mu w b k) -> ~ writer mu' (In mu w b k) ->
  (forall j th, j <> i -> l_threads l !! j = Some th -> ~ writer mu' th) ->
  agree mu' (l_state l) (c_state c).
Proof.
  intros Hs Hi Hw Hno. apply (sim_part _ _ Hs). intros j th Hj. destruct (decide (j = i)) as [->|].
  - rewrite Hi in Hj. by injection Hj as <-.
  - by eapply Hno.
Qed.

(** A section excludes the others as long as it lasts. *)
Lemma sim_excluded l c i B mu w (b b' : body B) k :
  sim l c -> l_threads l !! i = Some (In mu w b k) ->
  forall j th mu', j <> i -> l_threads l !! j = Some th ->
    (writer mu' (In mu w b' k) -> ~ holds mu' th) /\ (holds mu' (In mu w b' k) -> ~ writer mu' th).
Proof.
  intros Hs Hi j th mu' Hne Hj. split.
  - intros Hw. by apply (sim_excl _ _ Hs i j _ _ mu' Hi Hj (not_eq_sym Hne)).
  - intros Hh Hw. by apply (sim_excl _ _ Hs j i _ _ mu' Hj Hi Hne Hw).
Qed.

Lemma sim_loc {B C : Type} i mu w (f : S -> C * S) (kb : C -> body B) k x s1 l c :
  sim l c -> l_threads l !! i = Some (In mu w (Loc f kb) k) -> f (l_state l) = (x, s1) ->
  sim (mkL (<[i := In mu w (kb x) k]> (l_threads l)) s1 (l_held l) (l_log l)) c.
Proof.
  intros Hs Hi E. destruct (sim_thread l c i _ Hs Hi) as (p & Hpi & Hp & Ht).
  assert (local mu w f) as Hf by (by destruct Ht as [(? & ? & _ & _ & _ & [? _] & _)|
    (? & _ & _ & [? _] & _)]).
  pose proof (Hf _ _ Hp (reflexivity (l_state l))) as Hloc. rewrite E in Hloc.
  destruct Hloc as (_ & _ & Hr & Ho).
  replace c with (mkConfig (<[i := p]> (c_threads c)) (c_state c) (l_log l))
    by (rewrite list_insert_id, (sim_log _ _ Hs) by done; by destruct c).
  apply sim_update; try done; [by eapply lookup_lt_Some|..].
  - eapply agree_rest_ok; [exact Hr|apply Hs].
  - etrans; [symmetry; exact Hr|apply Hs].
  - split; [by rewrite <- (agree_rest_present mu (l_state l))|].
    destruct Ht as [(lb & m & ? & ? & ? & [_ Hk] & Hpe)|(r & ? & ? & [_ Hk] & Hse)].
    + left. exists lb, m. do 3 (split; [done|]). split; [apply Hk|]. by eapply pending_loc.
    + right. exists r. do 2 (split; [done|]). split; [apply Hk|]. by eapply settling_loc.
  - intros j th mu' Hne Hj Hh. split; [|done]. apply Ho. by eapply (sim_others l c i j).
  - intros mu' Hw Hno. etrans; [symmetry; apply Ho|by eapply (sim_inside l c i)].
    destruct w; [|by right]. left. intros ->. by apply Hw.
  - by eapply (sim_excluded l c).
Qed.

(** The section [m] of the atomic machine, taken alone. *)
Lemma section_frame {B : Type} lb mu w (m : Eff S B) l c b s t :
  sim l c -> section_of lb = Some (mu, w) -> obeys lb m -> m (c_state c, l_trace l) = (b, (s, t)) ->
  forall mu', mu' <> mu \/ w = false -> present mu' (l_state l) = true -> agree mu' (c_state c) s.
Proof.
  intros Hs Hl Hm E mu' Hmu Hp. unfold obeys in Hm. rewrite Hl in Hm.
  pose proof (Hm (c_state c) (c_state c) (l_trace l)) as H. rewrite E in H.
  destruct H as (_ & _ & _ & _ & _ & _ & _ & Hsame & _); try done.
  - eapply agree_rest_ok; apply Hs.
  - apply Hsame; [|by rewrite <- (agree_rest_present mu' (l_state l)) by apply Hs].
    destruct Hmu; [left; congruence|by right].
Qed.

Lemma sim_glob {B C : Type} i mu w (m : Eff S C) (kb : C -> body B) k l c :
  sim l c -> l_threads l !! i = Some (In mu w (Glob m kb) k) ->
  exists c', cstep c c' /\ sim (perform i m (fun x => In mu w (kb x) k) (l_held l) l) c'.
Proof.
  intros Hs Hi. destruct (sim_thread l c i _ Hs Hi) as (p & Hpi & Hp & Ht).
  destruct Ht as [(lb & m0 & -> & Hl & [Hm0 Hd] & (_ & Hm & Hk) & Hpe)|(r & _ & _ & [? _] & _)]; [|done].
  pose proof (Hpe (l_state l) (c_state c) (l_trace l) (sim_ok _ _ Hs) (reflexivity _) (reflexivity _)
    (sim_rest _ _ Hs)) as H.
  pose proof (Hm (l_state l) (l_state l) (l_trace l) (sim_ok _ _ Hs) (reflexivity _)) as Hmm.
  unfold perform. cbn in H. unfold mbind in H.
  destruct (m (l_state l, l_trace l)) as [x [s1 t1]] eqn:Em.
  destruct Hmm as (_ & _ & _ & Hok & _ & Hpres & _ & Hsame & _); [done|].
  assert (present mu s1 = true) as Hp1 by auto.
  destruct (run_local mu w (kb x) (Hk x) s1 s1 t1 t1 Hp1 (reflexivity _)) as
    (r & s1' & _ & E1 & _ & _ & Hr1 & Ho1).
  rewrite E1 in H. destruct (m0 (c_state c, l_trace l)) as [r' [s2 t2]] eqn:E.
  destruct H as (<- & <- & Hr & Ha & Hnew).
  pose proof (section_frame lb mu w m0 l c r s2 t1 Hs Hl Hm0 E) as Hframe.
  rewrite (sim_trace l c Hs) in E |- *. eexists. split; [by eapply step_atomic|].
  rewrite (sim_log _ _ Hs). apply sim_update; try done; [by eapply lookup_lt_Some|by etrans|..].
  - split; [done|]. right. exists r. split; [done|]. split; [done|]. split; [apply Hk|].
    intros y t Hy. destruct (run_local mu w (kb x) (Hk x) s1 y t1 t Hp1 (symmetry Hy)) as
      (r2 & z & y' & E2 & E3 & Hy' & _).
    rewrite E1 in E2. simplify_eq. exists y'. split; [done|]. etrans; [symmetry; exact Hy'|done].
  - intros j th mu' Hne Hj Hh. pose proof (sim_others l c i j _ _ _ _ _ th mu' Hs Hi Hne Hj Hh) as Hmu.
    destruct (sim_thread l c j _ Hs Hj) as (p' & _ & Ht'). pose proof (trel_present _ _ _ _ _ Ht' Hh) as Hpr.
    split; [|by apply Hframe]. apply Hsame; [|done]. destruct Hmu; [left; congruence|by right].
  - intros mu' Hw Hno. assert (mu' <> mu \/ w = false) as Hmu.
    { destruct w; [|by right]. left. intros ->. by apply Hw. }
    destruct (decide (mu' = mu)) as [->|Hne]; [by etrans; [apply Ho1|]|].
    destruct (present mu' (l_state l)) eqn:Hpr.
    + etrans; [symmetry; apply Hsame; [left; congruence|done]|].
      etrans; [by eapply (sim_inside l c i)|by apply Hframe].
    + etrans; [by apply Ho1; left|by apply Hnew].
  - by eapply (sim_excluded l c).
Qed.

(** *** Leaving *)
Lemma sim_leave {B : Type} i mu w (b : B) k l c :
  sim l c -> l_threads l !! i = Some (In mu w (Ret b) k) ->
  exists c', rtc cstep c c' /\
    sim (mkL (<[i := Out (k b)]> (l_threads l)) (l_state l) (l_held l) (l_log l)) c'.
Proof.
  intros Hs Hi. destruct (sim_thread l c i _ Hs Hi) as (p & Hpi & Hp & Ht).
  assert (forall mu', mu' <> mu -> (forall j th, j <> i -> l_threads l !! j = Some th -> ~ writer mu' th) ->
    agree mu' (l_state l) (c_state c)) as Hout.
  { intros mu' Hne. apply (sim_inside l c i _ _ _ _ _ mu' Hs Hi). by intros [<- _]. }
  destruct Ht as [(lb & m & -> & Hl & [Hm Hd] & _ & Hpe)|(r & -> & Hd & _ & Hse)].
  - pose proof (Hpe (l_state l) (c_state c) (l_trace l) (sim_ok _ _ Hs) (reflexivity _) (reflexivity _)
      (sim_rest _ _ Hs)) as H.
    cbn in H. destruct (m (c_state c, l_trace l)) as [r' [s2 t2]] eqn:E.
    destruct H as (<- & <- & Hr & Ha & Hnew).
    pose proof (section_frame lb mu w m l c b s2 _ Hs Hl Hm E) as Hframe.
    rewrite (sim_trace l c Hs) in E. eexists. split; [by eapply rtc_once, step_atomic|].
    rewrite drop_all, app_nil_r, <- (sim_log _ _ Hs).
    apply sim_update; try done; [by eapply lookup_lt_Some|apply Hs|..].
    + intros j th mu' Hne Hj Hh. split; [done|]. apply Hframe; [by eapply (sim_others l c i j)|].
      destruct (sim_thread l c j _ Hs Hj) as (p' & _ & Ht'). by eapply trel_present.
    + intros mu' _ Hno. destruct (decide (mu' = mu)) as [->|Hne]; [done|].
      destruct (present mu' (l_state l)) eqn:Hpr; [|by apply Hnew].
      etrans; [by apply Hout|]. apply Hframe; [by left|done].
  - destruct (Hse (l_state l) [] (reflexivity _)) as (s2 & E & Ha). cbn in E. injection E as <- <-.
    exists c. split; [done|].
    replace c with (mkConfig (<[i := k b]> (c_threads c)) (c_state c) (l_log l))
      by (rewrite list_insert_id, (sim_log _ _ Hs) by done; by destruct c).
    apply sim_update; try done; [by eapply lookup_lt_Some|apply Hs|apply Hs|].
    intros mu' _ Hno. destruct (decide (mu' = mu)) as [->|Hne]; [done|by apply Hout].
Qed.

(** *** Go statements *)
Lemma sim_spawn p l c log :
  sim l c -> disciplined p ->
  sim (mkL (l_threads l ++ [Out p]) (l_state l) (l_held l) log) (mkConfig (c_threads c ++ [p])
    (c_state c) log).
Proof.
  intros [Hlog Hok Hr Hpart Hth Hex] Hd.
  assert (forall i th, (l_threads l ++ [Out p]) !! i = Some th ->
    l_threads l !! i = Some th \/ th = Out p) as Hl.
  { intros i th [?|[_ [_ <-]%list_lookup_singleton_Some]]%lookup_app_Some; auto. }
  constructor; cbn; try done.
  - intros mu Hno. apply Hpart. intros i th Hi. apply (Hno i). by apply lookup_app_l_Some.
  - apply Forall2_app; [done|]. by repeat constructor.
  - intros i j th th' mu Hi%Hl Hj%Hl Hne Hw Hh. destruct Hi as [Hi| ->]; [|done].
    destruct Hj as [Hj| ->]; [|done]. by apply (Hex i j th th' mu).
Qed.

Lemma sim_go i w p k l c :
  sim l c -> l_threads l !! i = Some (Out (Go w p k)) ->
  exists c', cstep c c' /\
    sim (mkL (<[i := Out k]> (l_threads l) ++ [Out p]) (l_state l) (l_held l)
           (l_log l ++ [(i, EvSpawn w)])) c'.
Proof.
  intros Hs Hi. destruct (sim_thread l c i _ Hs Hi) as (q & Hp & -> & Hd1 & Hd2).
  eexists. split; [exists i; unfold thread_step; by rewrite Hp|]. rewrite (sim_log _ _ Hs).
  apply (sim_spawn p (mkL (<[i := Out k]> (l_threads l)) (l_state l) (l_held l) (l_log l)) 
           (mkConfig (<[i := k]> (c_threads c)) (c_state c) (l_log l))); [|done].
  apply sim_update; try done; [by eapply lookup_lt_Some|apply Hs|apply Hs|].
  intros mu _ Hno. by eapply sim_outside.
Qed.

(** *** All steps *)
Lemma sim_call {B : Type} i lb (m : Eff S B) k l c held :
  sim l c -> l_threads l !! i = Some (Out (Act lb m k)) ->
  (forall mu w, section_of lb = Some (mu, w) -> present mu (l_state l) = false) ->
  exists c', rtc cstep c c' /\ sim (perform i m (fun b => Out (k b)) held l) c'.
Proof.
  intros Hs Hi Habs. destruct (sim_thread l c i _ Hs Hi) as (p & _ & _ & Hm & Hk). unfold obeys in Hm.
  destruct (section_of lb) as [[mu w]|].
  - destruct (sim_perform i lb (Some mu) w m k l c held Hs Hi Hm) as (c' & ? & ?); [|done|].
    + intros mu' [= <-]. by eapply Habs.
    + exists c'. split; [by apply rtc_once|done].
  - destruct (sim_perform i lb None false m k l c held Hs Hi Hm) as (c' & ? & ?); [done..|].
    exists c'. split; [by apply rtc_once|done].
Qed.

Lemma sim_step l c l' : sim l c -> lstep l l' -> exists c', rtc cstep c c' /\ sim l' c'.
Proof.
  intros Hs [i Hstep].
  destruct Hstep as [B m k Hi|B mu m k Hi Hf|B mu m k Hi Hh|B lb mu w m k b Hi Hl Hp Hf Hb
    |B lb mu w m k Hi Hl Hp|B C mu w f kb k x s1 Hi E|B C mu w m kb k Hi|B mu w b k Hi|w p k Hi].
  1-3: by eapply sim_call.
  - exists c. split; [done|]. by eapply sim_enter.
  - eapply sim_call; [done..|]. intros mu' w' ?. by simplify_eq.
  - exists c. split; [done|]. by eapply sim_loc.
  - destruct (sim_glob i mu w m kb k l c Hs Hi) as (c' & ? & ?). exists c'. split; [by apply rtc_once|done].
  - by eapply sim_leave.
  - destruct (sim_go i w p k l c Hs Hi) as (c' & ? & ?). exists c'. split; [by apply rtc_once|done].
Qed.

Lemma sim_steps l c l' : sim l c -> rtc lstep l l' -> exists c', rtc cstep c c' /\ sim l' c'.
Proof.
  intros Hs Hl. revert c Hs. induction Hl as [l|l1 l2 l3 H12 _ IH]; intros c Hs; [by exists c|].
  destruct (sim_step l1 c l2 Hs H12) as (c2 & ? & Hs2). destruct (IH c2 Hs2) as (c3 & ? & ?).
  exists c3. split; [by etrans|done].
Qed.

(** ** Reduction *)

(** A configuration with nobody in a section. *)
Definition outside (c : config S) : lconfig := mkL (map Out (c_threads c)) (c_state c) [] (c_log c).

Lemma sim_start c : ok (c_state c) -> Forall disciplined (c_threads c) -> sim (outside c) c.
Proof.
  intros Hok Hd.
  assert (forall i th, l_threads (outside c) !! i = Some th -> exists p, th = Out p) as Hout.
  { intros i th Hi. cbn in Hi. rewrite list_lookup_fmap in Hi. destruct (c_threads c !! i); [|done].
    injection Hi as <-. eauto. }
  constructor; cbn; try done.
  - apply Forall2_fmap_l. apply Forall_Forall2_diag. by eapply Forall_impl.
  - intros i j th th' mu Hi _ _ Hw. by destruct (Hout i th Hi) as [p ->].
Qed.

(** What is seen when nobody is in a section is seen without sections. *)
Lemma sim_quiet l c : sim l c -> Forall (fun th => exists p, th = Out p) (l_threads l) ->
  l_threads l = map Out (c_threads c) /\ l_state l = c_state c /\ l_log l = c_log c.
Proof.
  intros Hs Hq. split_and!; [| |apply Hs].
  - pose proof (sim_threads _ _ Hs) as Hth. induction Hth as [|th p ths ps Ht Hth IH]; [done|].
    inversion Hq as [|? ? [q ->] Hq']; subst. destruct Ht as [-> _]. cbn. f_equal. by apply IH.
  - apply agree_ext; [apply Hs|]. intros mu. apply (sim_part _ _ Hs). intros i th Hi.
    destruct (Forall_lookup_1 _ _ _ _ Hq Hi) as [p ->]. by intros [].
Qed.
End Locks.

Arguments Ret {S B} b.
Arguments Loc {S B C} f k.
Arguments Glob {S B C} m k.
