(* ===== verification/Deadlock.v ===== *)
(** * Progress with mutexes

    Goroutines that hold at most one mutex at a time cannot block each other
    for good: whoever holds a mutex can go on until it has released it, so a
    goroutine that waits for a mutex gets its turn when the others have
    ([gets_its_turn]). *)

From stdpp Require Import relations.
From S2P Require Import Prelude Orp Conc Locks.

Local Open Scope agent_scope.

Section Flat.
Context {S : Type} `{Rg : Regions S}.
Implicit Types (s : S) (l : lconfig (S := S)) (hs : list (option mutex)).

(** ** One mutex at a time

    The program, which holds [h], never waits for a mutex while it holds one,
    gives back the one it holds and ends holding [h']. *)
Fixpoint flat {A : Type} (h : option mutex) (p : prog S A) (h' : option mutex) : Prop :=
  match p with
  | Done _ => h = h'
  | Act Plain m k => forall b, flat h (k b) h'
  | Act (Locked _) m k | Act (RLocked _) m k => h = None /\ forall b, flat None (k b) h'
  | Act (Lock mu) m k => h = None /\ forall b, flat (Some mu) (k b) h'
  | Act (Unlock mu) m k => h = Some mu /\ forall b, flat None (k b) h'
  | Go _ q k => h = None /\ flat None q None /\ flat None k h'
  end.

Lemma flat_bind {A B : Type} (p : prog S A) (f : A -> prog S B) h h1 h2 :
  flat h p h1 -> (forall a, flat h1 (f a) h2) -> flat h (pbind p f) h2.
Proof.
  revert B f h. induction p as [A a|A C lb m k IH|A w q _ k IH]; intros B f h; cbn.
  - by intros ->.
  - intros Hp Hf. destruct lb; [|destruct Hp as [-> Hp]; split; [done|]..]; intros b; by apply IH.
  - intros (-> & Hq & Hk) Hf. split_and!; [done..|]. by apply IH.
Qed.

Lemma flat_section {A B : Type} lb x (m : Eff S B) (k : B -> prog S A) h h' :
  section_of lb = Some x -> flat h (Act lb m k) h' -> h = None /\ forall b, flat None (k b) h'.
Proof. by destruct lb. Qed.

(** *** Programs that keep the rules *)
Definition neat {A : Type} (p : prog S A) : Prop := disciplined p /\ flat None p None.

Lemma neat_done {A : Type} (a : A) : neat (Done a).
Proof. done. Qed.

Lemma neat_bind {A B : Type} (p : prog S A) (f : A -> prog S B) :
  neat p -> (forall a, neat (f a)) -> neat (pbind p f).
Proof.
  intros [Hd Hf] H. split.
  - apply disciplined_bind; [done|]. intros a. apply H.
  - eapply flat_bind; [done|]. intros a. apply H.
Qed.

Lemma neat_go {A : Type} w (q : prog S unit) (k : prog S A) : neat q -> neat k -> neat (Go w q k).
Proof. by intros [] []. Qed.

Lemma neat_act {A : Type} (m : Eff S A) : within None false m -> neat (act m).
Proof. done. Qed.

Lemma neat_locked {A : Type} mu (m : Eff S A) : within (Some mu) true m -> neat (locked mu m).
Proof. done. Qed.

Lemma neat_rlocked {A : Type} mu (m : Eff S A) : within (Some mu) false m -> neat (rlocked mu m).
Proof. done. Qed.

(** A stretch between a [Lock] and its [Unlock]. *)
Lemma neat_stretch {A B : Type} mu (p : prog S A) (f : A -> prog S B) :
  disciplined p -> flat (Some mu) p (Some mu) -> (forall a, neat (f a)) ->
  neat (pbind (lock mu) (fun _ => pbind p (fun a => pbind (unlock mu) (fun _ => f a)))).
Proof.
  intros Hd Hf H. assert (within None false (mret tt : Eff S unit)) as Hret
    by apply within_stateless, stateless_ret.
  split; cbn; (split; [done|]); intros _.
  - apply disciplined_bind; [done|]. intros a. cbn. split; [done|]. intros _. apply H.
  - eapply flat_bind; [done|]. intros a. cbn. split; [done|]. intros _. apply H.
Qed.

(** What thread [th] still has to do when it holds [h]. *)
Definition orderly (h : option mutex) (th : lthread (S := S)) : Prop :=
  match th with
  | Out p => disciplined p /\ flat h p None
  | In mu w b k => h = None /\ forall r, disciplined (k r) /\ flat None (k r) None
  end.

(** [hs] says who holds which of the mutexes that are held across steps. *)
Record in_order l hs : Prop := {
  io_threads : Forall2 orderly hs (l_threads l);
  io_held : forall mu, mu ∈ l_held l -> exists i, hs !! i = Some (Some mu);
  io_holder : forall i mu, hs !! i = Some (Some mu) -> mu ∈ l_held l;
  io_once : forall i j mu, hs !! i = Some (Some mu) -> hs !! j = Some (Some mu) -> i = j
}.

Lemma in_order_thread l hs i th :
  in_order l hs -> l_threads l !! i = Some th -> exists h, hs !! i = Some h /\ orderly h th.
Proof. intros Ho Hi. by apply (Forall2_lookup_r _ _ _ _ _ (io_threads _ _ Ho) Hi). Qed.

(** Thread [i] goes on as [th] and then holds [h']. *)
Lemma in_order_update i th h h' l hs s held log :
  in_order l hs -> (i < length (l_threads l))%nat -> hs !! i = Some h -> orderly h' th ->
  (forall mu, mu ∈ held <-> h' = Some mu \/ (mu ∈ l_held l /\ h <> Some mu)) ->
  (forall mu, h' = Some mu -> h' <> h -> mu ∉ l_held l) ->
  in_order (mkL (<[i := th]> (l_threads l)) s held log) (<[i := h']> hs).
Proof.
  intros [Hth Hheld Hholder Honce] Hi Hh Ho Hnew Hfree. pose proof (Forall2_length _ _ _ Hth) as Hlen.
  assert (forall j mu, j <> i -> hs !! j = Some (Some mu) -> h' <> Some mu) as Hne.
  { intros j mu Hji Hj ->. destruct (decide (h = Some mu)) as [->|Hn]; [by apply Hji, (Honce j i mu)|].
    apply (Hfree mu); [done|congruence|by eapply Hholder]. }
  constructor; cbn.
  - by apply Forall2_insert.
  - intros mu [->|[Hin Hn]]%Hnew.
    + exists i. apply list_lookup_insert_eq. lia.
    + destruct (Hheld mu Hin) as [j Hj]. exists j. rewrite list_lookup_insert_ne; congruence.
  - intros j mu Hj. apply Hnew. apply list_lookup_insert_Some in Hj as [(-> & -> & _)|[Hji Hj]]; [by left|].
    right. split; [by eapply Hholder|]. intros ->. by apply Hji, (Honce i j mu).
  - intros j k mu Hj Hk. apply list_lookup_insert_Some in Hj as [(-> & -> & _)|[Hji Hj]];
      apply list_lookup_insert_Some in Hk as [(? & ? & _)|[Hki Hk]]; try done.
    + exfalso. by apply (Hne k mu (not_eq_sym Hki) Hk).
    + subst. exfalso. by apply (Hne j mu (not_eq_sym Hji) Hj).
    + by eapply Honce.
Qed.

(** ... and holds what it held. *)
Lemma in_order_same i th h l hs s log :
  in_order l hs -> (i < length (l_threads l))%nat -> hs !! i = Some h -> orderly h th ->
  in_order (mkL (<[i := th]> (l_threads l)) s (l_held l) log) hs.
Proof.
  intros Ho Hi Hh Hth. rewrite <- (list_insert_id hs i h) by done.
  apply (in_order_update i th h h); try done. intros mu. split; [|intros [->|[? _]]; [|done]].
  - intros Hin. destruct (decide (h = Some mu)); auto.
  - by eapply io_holder.
Qed.

Lemma perform_eq {B : Type} i (m : Eff S B) cont held l :
  exists b s log, perform i m cont held l = mkL (<[i := cont b]> (l_threads l)) s held log.
Proof. unfold perform. destruct (m (l_state l, l_trace l)) as [b [s t]]. eauto. Qed.

Lemma elem_of_give_back mu mu' held : mu' ∈ give_back mu held <-> mu' <> mu /\ mu' ∈ held.
Proof. unfold give_back. apply (list_elem_of_filter (fun x => x <> mu)). Qed.

Lemma give_back_spec mu held mu' :
  mu' ∈ give_back mu held <-> None = Some mu' \/ (mu' ∈ held /\ Some mu <> Some mu').
Proof.
  rewrite elem_of_give_back. split; [intros [? ?]; right|intros [?|[? ?]]; [done|]]; split; congruence.
Qed.

Lemma free_held mu w l : free mu w l = true -> mu ∉ l_held l.
Proof. unfold free. by intros [?%bool_decide_eq_true _]%andb_true_iff. Qed.

(** A new thread holds nothing. *)
Lemma in_order_spawn p l hs log :
  in_order l hs -> disciplined p /\ flat None p None ->
  in_order (mkL (l_threads l ++ [Out p]) (l_state l) (l_held l) log) (hs ++ [None]).
Proof.
  intros [Hth Hheld Hholder Honce] Hp.
  assert (forall j mu, (hs ++ [None]) !! j = Some (Some mu) -> hs !! j = Some (Some mu)) as Hold.
  { by intros j mu [?|[_ [_ [=]]%list_lookup_singleton_Some]]%lookup_app_Some. }
  constructor; cbn.
  - apply Forall2_app; [done|]. constructor; [done|constructor].
  - intros mu Hin. destruct (Hheld mu Hin) as [j Hj]. exists j. by apply lookup_app_l_Some.
  - intros j mu Hj%Hold. by eapply Hholder.
  - intros j j' mu Hj%Hold Hj'%Hold. by eapply Honce.
Qed.

(** Holders stay in order. *)
Lemma in_order_step l hs l' : in_order l hs -> lstep l l' -> exists hs', in_order l' hs'.
Proof.
  intros Ho [i Hs].
  destruct Hs as [B m k Hi|B mu m k Hi Hf|B mu m k Hi Hh|B lb mu w m k b Hi Hl Hp Hf Hb
    |B lb mu w m k Hi Hl Hp|B C mu w f kb k x s1 Hi E|B C mu w m kb k Hi|B mu w b k Hi|w p k Hi];
    destruct (in_order_thread l hs i _ Ho Hi) as (h & Hhi & Hth); pose proof (lookup_lt_Some _ _ _ Hi) as Hlt.
  - destruct Hth as [[_ Hd] Hfl]. destruct (perform_eq i m (fun b =>
      Out (k b)) (l_held l) l) as (b & s & log & ->).
    exists hs. by eapply in_order_same.
  - destruct Hth as [[_ Hd] [-> Hfl]].
    destruct (perform_eq i m (fun b => Out (k b)) (mu :: l_held l) l) as (b & s & log & ->).
    eexists. eapply (in_order_update i _ None (Some mu)); try done.
    + intros mu'. rewrite elem_of_cons. split; [intros [->|?]|intros [[= ->]|[? _]]]; auto.
    + intros mu' [= <-] _. by eapply free_held.
  - destruct Hth as [[_ Hd] [-> Hfl]].
    destruct (perform_eq i m (fun b => Out (k b)) (give_back mu (l_held l)) l) as (b & s & log & ->).
    eexists. eapply (in_order_update i _ (Some mu) None); try done.
    apply give_back_spec.
  - destruct Hth as [[_ Hd] Hfl]. exists hs. eapply in_order_same; [done..|]. cbn.
    destruct (flat_section _ _ _ _ _ _ Hl Hfl) as [-> Hk]. auto.
  - destruct Hth as [[_ Hd] Hfl]. destruct (perform_eq i m (fun b =>
      Out (k b)) (l_held l) l) as (b & s & log & ->).
    exists hs. eapply in_order_same; [done..|].
    destruct (flat_section _ _ _ _ _ _ Hl Hfl) as [-> Hk]. split; [apply Hd|apply Hk].
  - exists hs. by eapply in_order_same.
  - destruct (perform_eq i m (fun c => In mu w (kb c) k) (l_held l) l) as (b & s & log & ->).
    exists hs. by eapply in_order_same.
  - destruct Hth as [-> Hk]. exists hs. eapply in_order_same; [done..|apply Hk].
  - destruct Hth as [[Hd1 Hd2] (-> & Hq & Hk)].
    assert (in_order (mkL (<[i := Out k]> (l_threads l)) (l_state l) (l_held l) (l_log l)) hs) as Ho'
      by by eapply in_order_same.
    exists (hs ++ [None]). exact (in_order_spawn p _ hs _ Ho' (conj Hd1 Hq)).
Qed.

(** ** Holders can go on *)

(** Out of a section. *)
Lemma drain_section {B : Type} j mu w (b : body B) k l hs :
  in_order l hs -> l_threads l !! j = Some (In mu w b k) ->
  exists l' r, rtc lstep l l' /\ in_order l' hs /\ l_threads l' = <[j := Out (k r)]> (l_threads l).
Proof.
  revert l. induction b as [b|C f kb IH|C m kb IH]; intros l Ho Hj;
    pose proof (lookup_lt_Some _ _ _ Hj) as Hlt; destruct (in_order_thread l hs j _ Ho Hj) as (h & Hh & Hth).
  - eexists _, b. split; [by apply rtc_once; exists j; apply l_leave with mu w|]. split; [|done].
    destruct Hth as [-> Hk]. eapply in_order_same; [done..|apply Hk].
  - destruct (f (l_state l)) as [x s'] eqn:E.
    destruct (IH x (mkL (<[j := In mu w (kb x) k]> (l_threads l)) s' (l_held l) (l_log l)))
      as (l' & r & Hs & Ho' & Ht); [by eapply in_order_same|by apply list_lookup_insert_eq|].
    exists l', r. split; [|split; [done|by rewrite Ht; cbn; rewrite list_insert_insert_eq]].
    eapply rtc_l; [|done]. exists j. by eapply l_loc.
  - pose proof (l_glob j l mu w m kb k Hj) as Hstep.
    destruct (perform_eq j m (fun c => In mu w (kb c) k) (l_held l) l) as (x & s' & log & E).
    rewrite E in Hstep.
    destruct (IH x (mkL (<[j := In mu w (kb x) k]> (l_threads l)) s' (l_held l) log))
      as (l' & r & Hs & Ho' & Ht); [by eapply in_order_same|by apply list_lookup_insert_eq|].
    exists l', r. split; [|split; [done|by rewrite Ht; cbn; rewrite list_insert_insert_eq]].
    eapply rtc_l; [by exists j|done].
Qed.

(** Up to the release of the mutex it holds. *)
Lemma drain_held j mu p l hs :
  in_order l hs -> l_threads l !! j = Some (Out p) -> hs !! j = Some (Some mu) ->
  exists l' p', rtc lstep l l' /\ in_order l' (<[j := None]> hs) /\
    l_threads l' = <[j := Out p']> (l_threads l).
Proof.
  revert p l hs. fix IH 1. intros p l hs Ho Hj Hh. pose proof (lookup_lt_Some _ _ _ Hj) as Hlt.
  destruct (in_order_thread l hs j _ Ho Hj) as (h & Hh' & Hd & Hfl). rewrite Hh in Hh'. injection Hh' as <-.
  destruct p as [u|B lb m k|w q k]; [done| |by destruct Hfl].
  destruct Hd as [Hm Hd]. destruct lb; try by destruct Hfl.
  - pose proof (l_plain j l m k Hj) as Hstep.
    destruct (perform_eq j m (fun b => Out (k b)) (l_held l) l) as (b & s & log & E). rewrite E in Hstep.
    destruct (IH (k b) (mkL (<[j := Out (k b)]> (l_threads l)) s (l_held l) log) hs)
      as (l' & p' & Hs & Ho' & Ht); [|by apply list_lookup_insert_eq|done|].
    { eapply in_order_same; [done..|]. split; [apply Hd|apply Hfl]. }
    exists l', p'. split; [|split; [done|by rewrite Ht; cbn; rewrite list_insert_insert_eq]].
    eapply rtc_l; [by exists j|done].
  - destruct Hfl as [[= <-] Hfl].
    pose proof (l_unlock j l mu m k Hj (io_holder _ _ Ho _ _ Hh)) as Hstep.
    destruct (perform_eq j m (fun b => Out (k b)) (give_back mu (l_held l)) l) as (b & s & log & E).
    rewrite E in Hstep. eexists _, (k b). split; [by apply rtc_once; exists j|]. split; [|done].
    eapply (in_order_update j _ (Some mu) None); try done.
    apply give_back_spec.
Qed.

(** The others are not affected. *)
Lemma drain_thread j l hs :
  in_order l hs -> (j < length (l_threads l))%nat ->
  exists l' p, rtc lstep l l' /\ in_order l' (<[j := None]> hs) /\
    l_threads l' = <[j := Out p]> (l_threads l).
Proof.
  intros Ho [th Hj]%lookup_lt_is_Some. destruct (in_order_thread l hs j _ Ho Hj) as (h & Hh & Hth).
  destruct th as [p|B mu w b k].
  - destruct h as [mu|]; [by eapply drain_held|]. exists l, p. rewrite !list_insert_id by done. done.
  - destruct Hth as [-> _]. destruct (drain_section j mu w b k l hs Ho Hj) as (l' & r & ? & ? & ?).
    exists l', (k r). by rewrite list_insert_id.
Qed.

(** All but thread [i] are out of their sections and hold nothing. *)
Definition calm (i n : nat) l hs : Prop :=
  forall j, (j < n)%nat -> j <> i -> (j < length (l_threads l))%nat ->
    hs !! j = Some None /\ exists p, l_threads l !! j = Some (Out p).

Lemma drain i n l hs :
  in_order l hs -> exists l' hs', rtc lstep l l' /\ in_order l' hs' /\ calm i n l' hs' /\
    length (l_threads l') = length (l_threads l) /\
    l_threads l' !! i = l_threads l !! i /\ hs' !! i = hs !! i.
Proof.
  intros Ho. induction n as [|n IH].
  - exists l, hs. split_and!; try done. intros j ?. lia.
  - destruct IH as (l1 & hs1 & Hs1 & Ho1 & Hc1 & Hlen & Hi1 & Hh1).
    pose proof (Forall2_length _ _ _ (io_threads _ _ Ho1)) as Hlen1.
    destruct (decide (n = i)) as [->|Hne].
    { exists l1, hs1. split_and!; try done. intros j ? ?. apply Hc1; lia. }
    destruct (decide (n < length (l_threads l1))%nat) as [Hlt|Hge].
    2:{ exists l1, hs1. split_and!; try done. intros j ? ? ?. apply Hc1; lia. }
    destruct (drain_thread n l1 hs1 Ho1 Hlt) as (l2 & p & Hs2 & Ho2 & Ht).
    exists l2, (<[n := None]> hs1). rewrite Ht, length_insert, !list_lookup_insert_ne by done.
    split_and!; try done; [by etrans|]. intros j Hj Hji Hjl. rewrite Ht in *. rewrite length_insert in Hjl.
    destruct (decide (j = n)) as [->|Hjn].
    + rewrite !list_lookup_insert_eq by lia. eauto.
    + rewrite !list_lookup_insert_ne by done. apply Hc1; lia.
Qed.

(** ** Everybody gets a turn *)

(** Thread [i] has not returned. *)
Definition unfinished i l : Prop :=
  exists th, l_threads l !! i = Some th /\ forall u, th <> Out (Done u).

(** When the others are calm every mutex is free for a thread that holds
    nothing. *)
Lemma calm_free i p l hs mu w :
  in_order l hs -> calm i (length (l_threads l)) l hs -> l_threads l !! i = Some (Out p) ->
  hs !! i = Some None -> free mu w l = true.
Proof.
  intros Ho Hc Hi Hh. unfold free. apply andb_true_iff. split.
  - apply bool_decide_eq_true. intros (j & Hj)%(io_held _ _ Ho).
    pose proof (Forall2_length _ _ _ (io_threads _ _ Ho)) as Hlen.
    pose proof (lookup_lt_Some _ _ _ Hj) as Hlt.
    destruct (decide (j = i)) as [->|Hne]; [congruence|].
    destruct (Hc j) as [Hj' _]; [lia|done|lia|congruence].
  - apply forallb_forall. intros th (j & Hj)%list_elem_of_In%list_elem_of_lookup.
    destruct (decide (j = i)) as [->|Hne]; [rewrite Hi in Hj; by injection Hj as <-|].
    destruct (Hc j) as [_ [q Hq]]; [by eapply lookup_lt_Some|done|by eapply lookup_lt_Some|].
    rewrite Hq in Hj. by injection Hj as <-.
Qed.

(** A critical section in one step. *)
Lemma decomposes_once {B : Type} lb mu w (m : Eff S B) :
  section_of lb = Some (mu, w) -> obeys lb m -> decomposes mu w m (Glob m Ret).
Proof.
  intros Hl Hm. unfold obeys in Hm. rewrite Hl in Hm. split; [by cbn|]. intros s t _. cbn.
  unfold mbind. by destruct (m (s, t)) as [b [s' t']].
Qed.

Lemma turn_when_calm i l hs :
  in_order l hs -> calm i (length (l_threads l)) l hs -> unfinished i l -> exists l', lstep_at i l l'.
Proof.
  intros Ho Hc (th & Hi & Hu). destruct (in_order_thread l hs i _ Ho Hi) as (h & Hh & Hth).
  destruct th as [p|B mu w b k].
  - destruct p as [u|B lb m k|w q k]; [by destruct (Hu u)| |by eexists; eapply l_go].
    destruct Hth as [[Hm Hd] Hfl].
    assert (forall mu w, section_of lb = Some (mu, w) -> exists l', lstep_at i l l') as Hsec.
    { intros mu w Hl. destruct (flat_section _ _ _ _ _ _ Hl Hfl) as [-> _].
      destruct (present mu (l_state l)) eqn:Hp; [|by eexists; eapply l_absent].
      eexists. eapply l_enter; [done..|by eapply calm_free|by eapply decomposes_once]. }
    destruct lb as [|mu|mu|mu|mu]; [by eexists; eapply l_plain|by eapply Hsec..| |].
    + destruct Hfl as [-> _]. eexists. eapply l_lock; [done|]. by eapply calm_free.
    + destruct Hfl as [-> _]. eexists. eapply l_unlock; [done|]. by eapply io_holder.
  - destruct b as [b|C f kb|C m kb]; [by eexists; eapply l_leave| |by eexists; eapply l_glob].
    destruct (f (l_state l)) as [x s'] eqn:E. eexists. by eapply l_loc.
Qed.

Lemma gets_its_turn i l hs :
  in_order l hs -> unfinished i l -> exists l1 l2, rtc lstep l l1 /\
    l_threads l1 !! i = l_threads l !! i /\ lstep_at i l1 l2.
Proof.
  intros Ho Hu. destruct (drain i (length (l_threads l)) l hs Ho) as
    (l1 & hs1 & Hs & Ho1 & Hc & Hlen & Hi & Hh).
  rewrite <- Hlen in Hc. destruct (turn_when_calm i l1 hs1 Ho1 Hc) as [l2 Hl2].
  { unfold unfinished. by rewrite Hi. }
  eauto.
Qed.

(** ** Everybody can return *)

(** Only thread [i] is under way, with what is left of its program. *)
Definition alone_at i h p l hs : Prop :=
  in_order l hs /\ calm i (length (l_threads l)) l hs /\
  l_threads l !! i = Some (Out p) /\ hs !! i = Some h.

(** Thread [i] has returned, and so have the goroutines it started. *)
Definition returned i (l l' : lconfig (S := S)) : Prop :=
  (length (l_threads l) <= length (l_threads l'))%nat /\
  (forall j, (j < length (l_threads l))%nat -> j <> i -> l_threads l' !! j = l_threads l !! j) /\
  (exists u, l_threads l' !! i = Some (Out (Done u))) /\
  forall j, (length (l_threads l) <= j < length (l_threads l'))%nat ->
    exists u, l_threads l' !! j = Some (Out (Done u)).

Lemma alone_update i h h' p p' l hs s held log :
  alone_at i h p l hs -> orderly h' (Out p') ->
  (forall mu, mu ∈ held <-> h' = Some mu \/ (mu ∈ l_held l /\ h <> Some mu)) ->
  (forall mu, h' = Some mu -> h' <> h -> mu ∉ l_held l) ->
  alone_at i h' p' (mkL (<[i := Out p']> (l_threads l)) s held log) (<[i := h']> hs).
Proof.
  intros (Ho & Hc & Hi & Hh) Hp Hnew Hfree. pose proof (lookup_lt_Some _ _ _ Hi) as Hlt.
  pose proof (Forall2_length _ _ _ (io_threads _ _ Ho)) as Hlen. split_and!; cbn.
  - by eapply in_order_update.
  - intros j Hj Hne Hj'. cbn in *. rewrite length_insert in Hj. rewrite !list_lookup_insert_ne by done.
    by apply Hc.
  - by apply list_lookup_insert_eq.
  - apply list_lookup_insert_eq. lia.
Qed.

Lemma alone_same i h p p' l hs s log :
  alone_at i h p l hs -> orderly h (Out p') ->
  alone_at i h p' (mkL (<[i := Out p']> (l_threads l)) s (l_held l) log) hs.
Proof.
  intros Ha Hp. pose proof Ha as (Ho & _ & _ & Hh). rewrite <- (list_insert_id hs i h) by done.
  eapply alone_update; [done..| |done]. intros mu. split; [|intros [->|[? _]]; [|done]].
  - intros Hin. destruct (decide (h = Some mu)); auto.
  - by eapply io_holder.
Qed.

Lemma returned_update i th l s held log l' :
  (i < length (l_threads l))%nat ->
  returned i (mkL (<[i := th]> (l_threads l)) s held log) l' -> returned i l l'.
Proof.
  intros Hi (Hl & Hold & Hme & Hnew). cbn in *. rewrite length_insert in *. split_and!; try done.
  intros j Hj Hne. rewrite Hold by done. by apply list_lookup_insert_ne.
Qed.

(** A critical section from its entry to its end. *)
Lemma whole_section {B : Type} i h lb mu w (m : Eff S B) k l hs :
  alone_at i h (Act lb m k) l hs -> section_of lb = Some (mu, w) ->
  exists b s log, rtc lstep l (mkL (<[i := Out (k b)]> (l_threads l)) s (l_held l) log) /\ h = None.
Proof.
  intros (Ho & Hc & Hi & Hh) Hl. destruct (in_order_thread l hs i _ Ho Hi) as (h' & Hh' & [Hm Hd] & Hf).
  assert (h' = h) as -> by congruence. destruct (flat_section _ _ _ _ _ _ Hl Hf) as [-> _].
  pose proof (lookup_lt_Some _ _ _ Hi) as Hlt. destruct (present mu (l_state l)) eqn:Hp.
  - assert (lstep l (mkL (<[i := In mu w (Glob m Ret) k]> (l_threads l)) (l_state l) (l_held l)
      (l_log l))) as H1.
    { exists i. eapply l_enter; [done..|by eapply calm_free|by eapply decomposes_once]. }
    set (l1 := mkL _ _ _ _) in *. assert (l_threads l1 !! i = Some (In mu w (Glob m Ret) k)) as Hi1
      by by apply list_lookup_insert_eq.
    pose proof (l_glob i l1 mu w m Ret k Hi1) as H3.
    destruct (perform_eq i m (fun c => In mu w (Ret c) k) (l_held l1) l1) as (b & s & log & E).
    rewrite E in H3.
    set (l2 := mkL _ _ _ log) in *.
    assert (l_threads l2 !! i = Some (In mu w (Ret b) k)) as Hi2
      by (apply list_lookup_insert_eq; cbn; by rewrite length_insert).
    pose proof (l_leave i l2 mu w b k Hi2) as H4. exists b, s, log. split; [|done].
    eapply rtc_l; [exact H1|]. eapply rtc_l; [by exists i|]. eapply rtc_l; [by exists i|].
    cbn. rewrite !list_insert_insert_eq. done.
  - pose proof (l_absent i l lb mu w m k Hi Hl Hp) as H1.
    destruct (perform_eq i m (fun b => Out (k b)) (l_held l) l) as (b & s & log & E). rewrite E in H1.
    exists b, s, log. split; [|done]. apply rtc_once. by exists i.
Qed.

(** One call or one section. *)
Lemma next_call {B : Type} i h lb (m : Eff S B) k l hs :
  alone_at i h (Act lb m k) l hs ->
  exists b h1 hs1 s held log, let l1 := mkL (<[i := Out (k b)]> (l_threads l)) s held log in
    rtc lstep l l1 /\ alone_at i h1 (k b) l1 hs1.
Proof.
  intros Ha. pose proof Ha as (Ho & Hc & Hi & Hh).
  destruct (in_order_thread l hs i _ Ho Hi) as (h' & Hh' & [Hm Hd] & Hf). assert (h' = h) as -> by congruence.
  assert (forall held, lstep_at i l (perform i m (fun b => Out (k b)) held l) ->
    exists b s log, rtc lstep l (mkL (<[i := Out (k b)]> (l_threads l)) s held log)) as Honce.
  { intros held Hs. destruct (perform_eq i m (fun b => Out (k b)) held l) as (b & s & log & E).
    rewrite E in Hs.
    exists b, s, log. apply rtc_once. by exists i. }
  destruct (section_of lb) as [[mu w]|] eqn:Hl.
  { destruct (flat_section _ _ _ _ _ _ Hl Hf) as [-> Hk].
    destruct (whole_section i None lb mu w m k l hs Ha Hl) as (b & s & log & Hs & _).
    exists b, None, hs, s, (l_held l), log. split; [done|]. apply (alone_same _ _ _ _ _ _ _ _ Ha).
    split; [apply Hd|apply Hk]. }
  destruct lb as [| | |mu|mu]; try done.
  - destruct (Honce (l_held l) (l_plain i l m k Hi)) as (b & s & log & Hs).
    exists b, h, hs, s, (l_held l), log. split; [done|]. apply (alone_same _ _ _ _ _ _ _ _ Ha).
    split; [apply Hd|apply Hf].
  - destruct Hf as [-> Hf]. assert (free mu true l = true) as Hfree by by eapply calm_free.
    destruct (Honce _ (l_lock i l mu m k Hi Hfree)) as (b & s & log & Hs).
    exists b, (Some mu), (<[i := Some mu]> hs), s, (mu :: l_held l), log. split; [done|].
    apply (alone_update _ _ _ _ _ _ _ _ _ _ Ha); [split; [apply Hd|apply Hf]| |].
    + intros mu'. rewrite elem_of_cons. split; [intros [->|?]|intros [[= ->]|[? _]]]; auto.
    + intros mu' [= <-] _. by eapply free_held.
  - destruct Hf as [-> Hf]. destruct (Honce _ (l_unlock i l mu m k Hi (io_holder _ _ Ho _ _ Hh))) as
      (b & s & log & Hs).
    exists b, None, (<[i := None]> hs), s, (give_back mu (l_held l)), log. split; [done|].
    apply (alone_update _ _ _ _ _ _ _ _ _ _ Ha); [split; [apply Hd|apply Hf]| |done]. apply give_back_spec.
Qed.

(** One go statement. *)
Lemma next_go i h w q k l hs :
  alone_at i h (Go w q k) l hs ->
  exists log hs1, let l1 := mkL (<[i := Out k]> (l_threads l) ++ [Out q]) (l_state l) (l_held l) log in
    rtc lstep l l1 /\ alone_at i None k l1 hs1.
Proof.
  intros Ha. pose proof Ha as (Ho & Hc & Hi & Hh). pose proof (lookup_lt_Some _ _ _ Hi) as Hlt.
  pose proof (Forall2_length _ _ _ (io_threads _ _ Ho)) as Hlen.
  destruct (in_order_thread l hs i _ Ho Hi) as (h' & Hh' & [Hd1 Hd2] & -> & Hq & Hk).
  assert (h = None) as -> by congruence.
  pose proof (l_go i l w q k Hi) as Hs. eexists _, (hs ++ [None]). split; [by apply rtc_once; exists i|].
  split_and!; cbn.
  - refine (in_order_spawn q (mkL (<[i := Out k]> (l_threads l)) (l_state l) (l_held l)
      (l_log l)) hs _ _ (conj Hd1 Hq)).
    by eapply in_order_same.
  - intros j. rewrite length_app, length_insert. cbn. intros Hj Hne _.
    destruct (decide (j < length (l_threads l))%nat) as [Hjl|Hjl].
    + rewrite !lookup_app_l by (rewrite ?length_insert; lia). rewrite list_lookup_insert_ne by done.
      by apply Hc.
    + replace j with (length (l_threads l)) by lia. split.
      * rewrite lookup_app_r, Hlen, Nat.sub_diag by lia. done.
      * exists q. rewrite lookup_app_r, length_insert, Nat.sub_diag by (rewrite length_insert; lia). done.
  - rewrite lookup_app_l by (by rewrite length_insert). by apply list_lookup_insert_eq.
  - rewrite lookup_app_l by lia. done.
Qed.

(** The goroutine that was started goes next. *)
Lemma turn_to i j u q l hs :
  alone_at i None (Done u) l hs -> l_threads l !! j = Some (Out q) -> j <> i -> alone_at j None q l hs.
Proof.
  intros (Ho & Hc & Hi & Hh) Hj Hne. pose proof (lookup_lt_Some _ _ _ Hj) as Hlt. split_and!; try done.
  - intros j' Hj' Hne' _. destruct (decide (j' = i)) as [->|Hi']; [by eauto|by apply Hc].
  - by apply (Hc j Hlt Hne Hlt).
Qed.

Lemma returned_go i th q l s held log l2 l3 :
  (i < length (l_threads l))%nat ->
  returned i (mkL (<[i := th]> (l_threads l) ++ [Out q]) s held log) l2 ->
  returned (length (l_threads l)) l2 l3 -> returned i l l3.
Proof.
  intros Hi (Hl2 & Hold2 & [u2 Hme2] & Hnew2) (Hl3 & Hold3 & Hme3 & Hnew3). cbn in *.
  rewrite length_app, length_insert in *. cbn in *. split_and!; [lia|..].
  - intros j Hj Hne. rewrite Hold3, Hold2 by lia. rewrite lookup_app_l by (rewrite length_insert; lia).
    by apply list_lookup_insert_ne.
  - exists u2. rewrite Hold3 by lia. done.
  - intros j Hj. destruct (decide (j = length (l_threads l))) as [->|Hne]; [done|].
    destruct (decide (j < length (l_threads l2))%nat) as [Hlt|Hge]; [|apply Hnew3; lia].
    rewrite Hold3 by done. apply Hnew2. lia.
Qed.

(** The program runs to its end, and the goroutines it starts after it. *)
Lemma runs_to_end p i h l hs :
  alone_at i h p l hs ->
  exists l' hs' u, rtc lstep l l' /\ alone_at i None (Done u) l' hs' /\ returned i l l'.
Proof.
  revert i h l hs. revert p. fix IH 1. intros p i h l hs Ha. pose proof Ha as (Ho & Hc & Hi & Hh).
  pose proof (lookup_lt_Some _ _ _ Hi) as Hlt. destruct p as [u|B lb m k|w q k].
  - destruct (in_order_thread l hs i _ Ho Hi) as (h' & Hh' & _ & Hf). cbn in Hf.
    assert (h = None) as -> by congruence.
    exists l, hs, u. split; [done|]. split; [done|]. split_and!; [done|done|by exists u|]. intros j ?. lia.
  - destruct (next_call i h lb m k l hs Ha) as (b & h1 & hs1 & s & held & log & Hs & Ha1).
    destruct (IH (k b) i h1 _ hs1 Ha1) as (l' & hs' & u & ? & ? & ?).
    exists l', hs', u. split_and!; [by etrans|done|]. by eapply returned_update.
  - destruct (next_go i h w q k l hs Ha) as (log & hs1 & Hs & Ha1). set (l1 := mkL _ _ _ log) in *.
    destruct (IH k i None l1 hs1 Ha1) as (l2 & hs2 & u & Hs2 & Ha2 & Hret2).
    assert (l_threads l2 !! length (l_threads l) = Some (Out q)) as Hq.
    { destruct Hret2 as (_ & Hold & _). rewrite Hold; cbn; [|rewrite length_app, length_insert; cbn; lia|lia].
      rewrite lookup_app_r, length_insert, Nat.sub_diag by (rewrite length_insert; lia). done. }
    destruct (IH q (length (l_threads l)) None l2 hs2) as (l3 & hs3 & u3 & Hs3 & Ha3 & Hret3).
    { eapply turn_to; [done..|]. lia. }
    assert (returned i l l3) as Hret by by eapply returned_go.
    destruct Hret as (Hle & Hold & [u' Hi3] & Hnew). exists l3, hs3, u'.
    split; [etrans; [exact Hs|by etrans]|]. split; [|by split_and!; [..|exists u'|]].
    eapply turn_to; [done..|lia].
Qed.

Definition has_returned (th : lthread (S := S)) : Prop := exists u, th = Out (Done u).

(** All are calm; of the first [n0] threads the first [n] have returned, and
    so have those that were started since. *)
Definition return_from (n0 n : nat) l hs : Prop :=
  in_order l hs /\ (n0 <= length (l_threads l))%nat /\
  calm (length (l_threads l)) (length (l_threads l)) l hs /\
  forall j th, l_threads l !! j = Some th -> (j < n \/ n0 <= j)%nat -> has_returned th.

Lemma return_next n0 n l hs :
  return_from n0 n l hs -> (n < n0)%nat ->
  exists l' hs', rtc lstep l l' /\ return_from n0 (1 + n) l' hs'.
Proof.
  intros (Ho & Hn0 & Hc & Hd) Hn. destruct (Hc n) as [Hh [q Hq]]; [lia..|].
  destruct (runs_to_end q n None l hs) as (l' & hs' & u & Hs & Ha & Hle & Hold & Hme & Hnew).
  { split_and!; try done. intros j ? ? ?. apply Hc; lia. }
  exists l', hs'. split; [done|]. destruct Ha as (Ho' & Hc' & Hi' & Hh'). split_and!; [done|lia|..].
  - intros j Hj _ _. destruct (decide (j = n)) as [->|Hne]; [eauto|by apply Hc'].
  - intros j th Hj Hjn. destruct (decide (j = n)) as [->|Hne]; [destruct Hme as [u0 ?]; exists u0;
      congruence|].
    pose proof (lookup_lt_Some _ _ _ Hj) as Hlt.
    destruct (decide (j < length (l_threads l))%nat) as [Hjl|Hjl].
    + rewrite Hold in Hj by done. apply (Hd j); [done|lia].
    + destruct (Hnew j) as [u' Hu']; [lia|]. exists u'. congruence.
Qed.

Lemma all_return l hs :
  in_order l hs -> exists l', rtc lstep l l' /\ Forall has_returned (l_threads l').
Proof.
  intros Ho. destruct (drain (length (l_threads l)) (length (l_threads l)) l hs Ho)
    as (l0 & hs0 & Hs0 & Ho0 & Hc0 & Hlen & _).
  assert (forall n, (n <= length (l_threads l0))%nat ->
    exists l' hs', rtc lstep l0 l' /\ return_from (length (l_threads l0)) n l' hs') as Hall.
  { induction n as [|n IH]; intros Hn.
    - exists l0, hs0. split; [done|]. rewrite <- Hlen in Hc0. split_and!; try done.
      intros j th Hj%lookup_lt_Some. lia.
    - destruct IH as (l1 & hs1 & Hs1 & Hr1); [lia|].
      destruct (return_next _ n l1 hs1 Hr1) as (l2 & hs2 & Hs2 & Hr2); [lia|].
      exists l2, hs2. split; [by etrans|done]. }
  destruct (Hall (length (l_threads l0)) ltac:(done)) as (l' & hs' & Hs' & _ & _ & _ & Hd).
  exists l'. split; [by etrans|]. apply Forall_lookup. intros j th Hj. apply (Hd j th Hj). lia.
Qed.

Lemma in_order_steps l hs l' : in_order l hs -> rtc lstep l l' -> exists hs', in_order l' hs'.
Proof.
  intros Ho Hs. revert hs Ho. induction Hs as [l|l1 l2 l3 H12 _ IH]; intros hs Ho; [eauto|].
  destruct (in_order_step l1 hs l2 Ho H12) as [hs2 Ho2]. eauto.
Qed.

Lemma in_order_start (c : config S) :
  Forall (fun p => disciplined p /\ flat None p None) (c_threads c) ->
  in_order (outside c) (replicate (length (c_threads c)) None).
Proof.
  intros Hd.
  assert (forall n j (mu : mutex), replicate n None !! j = Some (Some mu) -> False) as Hn.
  { by intros n j mu [? _]%lookup_replicate. }
  constructor; cbn.
  - induction Hd as [|p ps Hp Hd IH]; cbn; by constructor.
  - intros mu Hin. set_solver.
  - by intros i mu ?%Hn.
  - by intros i j mu ?%Hn.
Qed.

(** ** Running it

    A scheduler that respects the mutexes: a goroutine that cannot step is
    skipped; a section is entered, run in one step and left. *)
Definition lthread_step (i : nat) l : option (lconfig (S := S)) :=
  match l_threads l !! i with
  | Some (Out (Act lb m k)) =>
      let go held := Some (perform i m (fun b => Out (k b)) held l) in
      let section mu w :=
        if present mu (l_state l) then
          if free mu w l
          then Some (mkL (<[i := In mu w (Glob m Ret) k]> (l_threads l)) (l_state l) (l_held l) (l_log l))
          else None
        else go (l_held l) in
      match lb with
      | Plain => go (l_held l)
      | Locked mu => section mu true
      | RLocked mu => section mu false
      | Lock mu => if free mu true l then go (mu :: l_held l) else None
      | Unlock mu => if bool_decide (mu ∈ l_held l) then go (give_back mu (l_held l)) else None
      end
  | Some (Out (Go w p k)) =>
      Some (mkL (<[i := Out k]> (l_threads l) ++ [Out p]) (l_state l) (l_held l)
              (l_log l ++ [(i, EvSpawn w)]))
  | Some (In mu w (Ret b) k) =>
      Some (mkL (<[i := Out (k b)]> (l_threads l)) (l_state l) (l_held l) (l_log l))
  | Some (In mu w (Loc f kb) k) =>
      let '(c, s') := f (l_state l) in
      Some (mkL (<[i := In mu w (kb c) k]> (l_threads l)) s' (l_held l) (l_log l))
  | Some (In mu w (Glob m kb) k) => Some (perform i m (fun c => In mu w (kb c) k) (l_held l) l)
  | _ => None
  end.

Fixpoint lschedule (ord : list nat) l : lconfig (S := S) :=
  match ord with
  | [] => l
  | i :: ord' => lschedule ord' (default l (lthread_step i l))
  end.

Lemma lthread_step_at i l hs l' : in_order l hs -> lthread_step i l = Some l' -> lstep_at i l l'.
Proof.
  intros Ho. unfold lthread_step. destruct (l_threads l !! i) as [[p|B mu w b k]|] eqn:Hi; [| |done].
  - destruct p as [u|B lb m k|w q k]; [done| |intros [= <-]; by apply l_go].
    destruct (in_order_thread l hs i _ Ho Hi) as (h & _ & [Hm _] & _).
    destruct lb as [|mu|mu|mu|mu]; cbn zeta.
    + intros [= <-]. by apply l_plain.
    + destruct (present mu (l_state l)) eqn:Hp; [|intros [= <-]; by eapply l_absent].
      destruct (free mu true l) eqn:Hf; [|done]. intros [= <-]. eapply l_enter; try done.
      by apply (decomposes_once (Locked mu)).
    + destruct (present mu (l_state l)) eqn:Hp; [|intros [= <-]; by eapply l_absent].
      destruct (free mu false l) eqn:Hf; [|done]. intros [= <-]. eapply l_enter; try done.
      by apply (decomposes_once (RLocked mu)).
    + destruct (free mu true l) eqn:Hf; [|done]. intros [= <-]. by apply l_lock.
    + case_bool_decide; [|done]. intros [= <-]. by apply l_unlock.
  - destruct b as [b|C f kb|C m kb].
    + intros [= <-]. by eapply l_leave.
    + destruct (f (l_state l)) as [c s'] eqn:E. intros [= <-]. by eapply l_loc.
    + intros [= <-]. by apply l_glob.
Qed.

Lemma lschedule_reachable ord l hs : in_order l hs -> rtc lstep l (lschedule ord l).
Proof.
  revert l hs. induction ord as [|i ord IH]; intros l hs Ho; cbn [lschedule]; [done|].
  destruct (lthread_step i l) as [l'|] eqn:E; cbn; [|by eapply IH].
  assert (lstep l l') as Hs by (exists i; by eapply lthread_step_at).
  destruct (in_order_step l hs l' Ho Hs) as [hs' Ho']. eapply rtc_l; [exact Hs|by eapply IH].
Qed.

(** The scheduler's next step. *)
Lemma lschedule_step i l hs :
  in_order l hs -> bool_decide (is_Some (lthread_step i l)) = true -> lstep_at i l (lschedule [i] l).
Proof.
  intros Ho [l' E]%bool_decide_eq_true. cbn. rewrite E. by eapply lthread_step_at.
Qed.

Lemma lschedule_app ord ord' l : lschedule (ord ++ ord') l = lschedule ord' (lschedule ord l).
Proof. revert l. induction ord as [|i ord IH]; intros l; cbn; [done|apply IH]. Qed.
End Flat.
