(* ===== verification/Happy.v ===== *)
(** * [DialAnyHappy] as a race

    One goroutine per relay address performs [DialWithDialer] and sends its
    outcome on a channel with room for all of them; the caller takes the
    outcomes as they come, keeps the first session and closes the others.
    [Dialing] runs the attempts one after the other; here their calls
    interleave. *)

From S2P Require Import Prelude Netip Orp Resume StreamSwap Waiters Session Dialing Conc.

Local Open Scope prog_scope.

Section Happy.
Context `{N : Net} `{L : ResumeLib}.

(** [DialWithDialer], call by call. *)
Definition p_DialWithDialer {S} (d : dialer) (addr uri : string) : prog S (result Session) :=
  let! c <- act (Dialer_Dial d addr) ;
  match c with
  | Err e => Done (Err e)
  | Ok c =>
      let! ct <- act (Conn_OpenStream c) ;
      match ct with
      | Err e => run! act (Conn_Close c) ; Done (Err (Wrapped "session: open ctrl" e))
      | Ok ct =>
          let! w <- act (WriteFrame ct FrameTypeHello (MHello "orp/1" uri)) ;
          match w with
          | Err e => run! act (Conn_Close c) ; Done (Err (Wrapped "session: send HELLO" e))
          | Ok _ =>
              let! f <- act (ParseFrame ct) ;
              match f with
              | Err e => run! act (Conn_Close c) ; Done (Err (Wrapped "session: read HELLO_ACK" e))
              | Ok f =>
                  match unmarshal_HelloAck f with
                  | Err e => run! act (Conn_Close c) ; Done (Err e)
                  | Ok _ => Done (Ok (new_session c ct uri d))
                  end
              end
          end
      end
  end.

Lemma alone_DialWithDialer {S} d addr uri (st : S * trace) :
  alone (p_DialWithDialer d addr uri) st = DialWithDialer d addr uri st.
Proof.
  destruct st as [s t]. unfold p_DialWithDialer, DialWithDialer, Dialer_Dial, Conn_OpenStream, WriteFrame,
    ParseFrame, Conn_Close, emit. cbn. unfold mbind, mret.
  repeat (case_match; simplify_eq/=; unfold mbind, mret in * ); done.
Qed.

(** ** The race *)
Inductive attempt : Type :=
  | Dialing (p : prog unit (result Session))
  | Sent (r : result Session).

Record race : Type := mkRace {
  ra_attempts : list attempt;
  ra_results : list (result Session);       (* the channel *)
  ra_taken : list (result Session);         (* what the caller received *)
  ra_winner : option Session;
  ra_firstErr : option error;
  ra_trace : trace
}.

Definition start_race (d : dialer) (uri : string) (addrs : list string) : race :=
  mkRace (map (fun a => Dialing (p_DialWithDialer d a uri)) addrs) [] [] None None [].

(** The body of the collecting loop. *)
Definition collect (r : result Session) (winner : option Session) (firstErr : option error)
    : Eff unit (option Session * option error) :=
  (match r, winner with
   | Ok s, None => mret (Some s, firstErr)
   | Ok s, Some _ => do_ Session_Close s ;; mret (winner, firstErr)
   | Err e, _ => mret (winner, or_first firstErr e)
   end)%agent.

Inductive move : Type := MAttempt (i : nat) | MCollect.

Definition race_step (m : move) (ra : race) : option race :=
  match m with
  | MAttempt i =>
      match ra_attempts ra !! i with
      | Some (Dialing (Act _ m k)) =>
          let '(b, (_, t)) := m (tt, ra_trace ra) in
          Some (mkRace (<[i := Dialing (k b)]> (ra_attempts ra)) (ra_results ra) (ra_taken ra)
                  (ra_winner ra) (ra_firstErr ra) t)
      | Some (Dialing (Done r)) =>
          Some (mkRace (<[i := Sent r]> (ra_attempts ra)) (ra_results ra ++ [r]) (ra_taken ra)
                  (ra_winner ra) (ra_firstErr ra) (ra_trace ra))
      | _ => None
      end
  | MCollect =>
      match ra_results ra with
      | [] => None                                     (* blocked *)
      | r :: rest =>
          let '((w, e), (_, t)) := collect r (ra_winner ra) (ra_firstErr ra) (tt, ra_trace ra) in
          Some (mkRace (ra_attempts ra) rest (ra_taken ra ++ [r]) w e t)
      end
  end.

Fixpoint race_run (ms : list move) (ra : race) : option race :=
  match ms with
  | [] => Some ra
  | m :: ms' => ra' ← race_step m ra; race_run ms' ra'
  end.

(** What [DialAnyHappy] returns when all outcomes are in. *)
Definition race_result (ra : race) : option (result Session) :=
  if (length (ra_taken ra) =? length (ra_attempts ra))%nat then
    Some match ra_winner ra with
         | Some s => Ok s
         | None => Err (Wrapped "session: all relay endpoints failed"
                          (default (ErrorString "nil") (ra_firstErr ra)))
         end
  else None.

(** ** Accounting *)

(** Connections to [c] dialed less those closed. *)
Definition conn_delta (c : conn) (e : event) : Z :=
  match e with
  | EvDial _ _ (Ok c') => if bool_decide (c' = c) then 1 else 0
  | EvConnClose c' => if bool_decide (c' = c) then -1 else 0
  | _ => 0
  end.

Definition balance (c : conn) (t : trace) : Z := foldr (fun e z => conn_delta c e + z) 0 t.

Definition holds (c : conn) (r : result Session) : Z :=
  match r with
  | Ok s => if bool_decide (s_conn s = c) then 1 else 0
  | Err _ => 0
  end.

Definition sum_holds (c : conn) (rs : list (result Session)) : Z :=
  foldr (fun r z => holds c r + z) 0 rs.

Lemma balance_app c t1 t2 : balance c (t1 ++ t2) = balance c t1 + balance c t2.
Proof. unfold balance. induction t1 as [|e t1 IH]; cbn; [done|]. rewrite IH. lia. Qed.

#[export] Instance balance_perm c : Proper ((≡ₚ) ==> eq) (balance c).
Proof. unfold balance. intros t t' H. induction H; cbn in *; lia. Qed.

Lemma sum_holds_app c l1 l2 : sum_holds c (l1 ++ l2) = sum_holds c l1 + sum_holds c l2.
Proof. unfold sum_holds. induction l1 as [|e l1 IH]; cbn; [done|]. rewrite IH. lia. Qed.

#[export] Instance sum_holds_perm c : Proper ((≡ₚ) ==> eq) (sum_holds c).
Proof. unfold sum_holds. intros t t' H. induction H; cbn in *; lia. Qed.

#[export] Instance dialed_perm : Proper ((≡ₚ) ==> (≡ₚ)) dialed.
Proof. intros t t' H. unfold dialed. by rewrite H. Qed.

(** The calls [es] of an attempt at [a] and its outcome. *)
Definition accounted (a : string) (es : trace) (r : result Session) : Prop :=
  dialed es = [a] /\ forall c, balance c es = holds c r.

(** An attempt that has made the calls [es] will make at most [n] more and is
    accounted for at its end, whatever the others do meanwhile. *)
Fixpoint on_course (a : string) (n : nat) (p : prog unit (result Session)) (es : trace)
    {struct p} : Prop :=
  match p with
  | Done r => accounted a es r
  | Act _ m k =>
      match n with
      | O => False
      | S n' => forall t, exists b ext, m (tt, t) = (b, (tt, t ++ ext)) /\ on_course a n' (k b) (es ++ ext)
      end
  | Go _ _ _ => False
  end.

Lemma on_course_dial d uri a : on_course a 5 (p_DialWithDialer d a uri) [].
Proof.
  unfold p_DialWithDialer. cbn. intros t. do 2 eexists. split; [done|].
  destruct (net_dial t d a) as [c|e]; [|by split].
  intros t1. do 2 eexists. split; [done|]. destruct (net_open t1 c) as [ct|e].
  2: { intros t2. do 2 eexists. split; [done|]. split; [done|]. intros c'. cbn. case_bool_decide; lia. }
  intros t2. do 2 eexists. split; [done|]. destruct (net_write_frame t2 ct _ _) as [[]|e].
  2: { intros t3. do 2 eexists. split; [done|]. split; [done|]. intros c'. cbn. case_bool_decide; lia. }
  intros t3. do 2 eexists. split; [done|]. destruct (net_parse_frame t3 ct) as [f|e].
  2: { intros t4. do 2 eexists. split; [done|]. split; [done|]. intros c'. cbn. case_bool_decide; lia. }
  destruct (unmarshal_HelloAck f).
  - split; [done|]. intros c'. cbn. case_bool_decide; lia.
  - intros t4. do 2 eexists. split; [done|]. split; [done|]. intros c'. cbn. case_bool_decide; lia.
Qed.

(** ** The invariant of the race *)
Definition oks (l : list (result Session)) : list Session :=
  omap (fun r => match r with Ok s => Some s | Err _ => None end) l.

Definition errs (l : list (result Session)) : list error :=
  omap (fun r => match r with Ok _ => None | Err e => Some e end) l.

(** The calls of the caller: every session but the first is closed. *)
Definition closes (l : list (result Session)) : trace :=
  map (fun s => EvConnClose (s_conn s)) (tail (oks l)).

Definition sent (a : attempt) : option (result Session) :=
  match a with Dialing _ => None | Sent r => Some r end.

(** Attempt [x] at address [a] has made the calls [es] and has at most [k]
    steps left. *)
Definition tracked (a : string) (x : attempt) (g : nat * trace) : Prop :=
  match x with
  | Dialing p => exists n, fst g = S n /\ on_course a n p (snd g)
  | Sent r => fst g = O /\ accounted a (snd g) r
  end.

Record race_inv (addrs : list string) (ra : race) (gs : list (nat * trace)) : Prop := {
  ri_len : length (ra_attempts ra) = length addrs;
  ri_glen : length gs = length addrs;
  ri_each : forall i a x g, addrs !! i = Some a -> ra_attempts ra !! i = Some x -> gs !! i = Some g ->
    tracked a x g;
  ri_trace : ra_trace ra ≡ₚ concat (map snd gs) ++ closes (ra_taken ra);
  ri_sent : omap sent (ra_attempts ra) ≡ₚ ra_taken ra ++ ra_results ra;
  ri_winner : ra_winner ra = head (oks (ra_taken ra));
  ri_err : ra_firstErr ra = head (errs (ra_taken ra))
}.

Lemma start_inv d uri addrs :
  race_inv addrs (start_race d uri addrs) (map (fun _ => (6%nat, [])) addrs).
Proof.
  constructor; cbn; rewrite ?length_map; try done.
  - intros i a x g Ha Hx Hg. rewrite list_lookup_fmap, Ha in Hx. rewrite list_lookup_fmap, Ha in Hg.
    injection Hx as <-. injection Hg as <-. exists 5%nat. split; [done|apply on_course_dial].
  - by induction addrs.
  - by induction addrs.
Qed.

(** The sums over the attempts when one of them moves. *)
Lemma concat_insert (gs : list (nat * trace)) i k es k' ext :
  gs !! i = Some (k, es) ->
  concat (map snd (<[i := (k', es ++ ext)]> gs)) ≡ₚ concat (map snd gs) ++ ext.
Proof.
  revert i. induction gs as [|[k0 es0] gs IH]; intros [|i] Hi; cbn in *; simplify_eq.
  - rewrite <- !app_assoc. by rewrite (Permutation_app_comm ext).
  - rewrite (IH i Hi). by rewrite app_assoc.
Qed.

Lemma steps_insert (gs : list (nat * trace)) i (k : nat) (es : trace) (g' : nat * trace) :
  gs !! i = Some (k, es) ->
  (sum_list (map fst (<[i := g']> gs)) + k = sum_list (map fst gs) + fst g')%nat.
Proof.
  revert i. induction gs as [|[k0 es0] gs IH]; intros [|i] Hi; cbn in *; simplify_eq; [lia|].
  specialize (IH i Hi). rewrite <- !Nat.add_assoc. by f_equal.
Qed.

Lemma omap_sent_insert xs i p x :
  xs !! i = Some (Dialing p) ->
  omap sent (<[i := x]> xs) ≡ₚ option_list (sent x) ++ omap sent xs.
Proof.
  revert i. induction xs as [|y xs IH]; intros [|i] Hi; simplify_eq/=.
  - by destruct (sent x).
  - specialize (IH i Hi). destruct (sent y), (sent x); cbn in *; try done; rewrite IH; [|done].
    by constructor.
Qed.

(** Moving attempt [i]. *)
Lemma inv_attempt addrs ra gs i p x k es k' ext w :
  race_inv addrs ra gs -> ra_attempts ra !! i = Some (Dialing p) -> gs !! i = Some (k, es) ->
  (forall a, addrs !! i = Some a -> tracked a x (k', es ++ ext)) -> option_list (sent x) = w ->
  race_inv addrs
    (mkRace (<[i := x]> (ra_attempts ra)) (ra_results ra ++ w) (ra_taken ra) (ra_winner ra)
       (ra_firstErr ra) (ra_trace ra ++ ext)) (<[i := (k', es ++ ext)]> gs).
Proof.
  intros [H1 H2 H3 H4 H5 H6 H7] Hx Hg Ht <-. constructor; cbn; rewrite ?length_insert; try done.
  - intros j a y g Ha Hy Hgj. destruct (decide (i = j)) as [<-|Hne].
    + rewrite list_lookup_insert_eq in Hy by (by eapply lookup_lt_Some).
      rewrite list_lookup_insert_eq in Hgj by (by eapply lookup_lt_Some). simplify_eq. by apply Ht.
    + rewrite list_lookup_insert_ne in Hy by done. rewrite list_lookup_insert_ne in Hgj by done. by eapply H3.
  - rewrite (concat_insert _ _ _ _ _ _ Hg), H4. rewrite <- !app_assoc. by rewrite (Permutation_app_comm ext).
  - rewrite (omap_sent_insert _ _ _ _ Hx), H5. rewrite Permutation_app_comm. by rewrite app_assoc.
Qed.

Lemma collect_run l r t :
  collect r (head (oks l)) (head (errs l)) (tt, t) =
    ((head (oks (l ++ [r])), head (errs (l ++ [r]))), (tt, t ++ drop (length (closes l)) (closes (l ++ [r])))) /\
  closes l ++ drop (length (closes l)) (closes (l ++ [r])) = closes (l ++ [r]).
Proof.
  unfold closes, oks, errs. rewrite !omap_app. destruct r as [s|e]; cbn.
  - rewrite app_nil_r. destruct (omap _ l) as [|s0 ss]; cbn.
    + by rewrite app_nil_r.
    + rewrite map_app, drop_app_length. done.
  - rewrite !app_nil_r. rewrite drop_all, !app_nil_r. split; [|done].
    unfold or_first. by destruct (omap _ l), (omap _ l).
Qed.

(** Steps left: those of the attempts and the outcomes to collect. *)
Definition left (addrs : list string) (ra : race) (gs : list (nat * trace)) : nat :=
  sum_list (map fst gs) + (length addrs - length (ra_taken ra)).

Lemma inv_lookup addrs ra gs i x :
  race_inv addrs ra gs -> ra_attempts ra !! i = Some x ->
  exists a k es, addrs !! i = Some a /\ gs !! i = Some (k, es) /\ tracked a x (k, es).
Proof.
  intros Hi Hx. pose proof (lookup_lt_Some _ _ _ Hx) as Hlt.
  destruct (lookup_lt_is_Some_2 addrs i) as [a Ha]; [rewrite <- (ri_len _ _ _ Hi); done|].
  destruct (lookup_lt_is_Some_2 gs i) as [[k es] Hg].
  { rewrite (ri_glen _ _ _ Hi), <- (ri_len _ _ _ Hi). done. }
  exists a, k, es. split_and!; [done..|]. by eapply ri_each.
Qed.

Lemma sent_le xs : (length (omap sent xs) <= length xs)%nat.
Proof. induction xs as [|x xs IH]; [done|]. cbn. destruct (sent x); cbn; lia. Qed.

Lemma taken_lt addrs ra gs r rest :
  race_inv addrs ra gs -> ra_results ra = r :: rest -> (length (ra_taken ra) < length addrs)%nat.
Proof.
  intros Hi Hr. pose proof (Permutation_length (ri_sent _ _ _ Hi)) as Hl.
  rewrite length_app, Hr in Hl. cbn in Hl. pose proof (sent_le (ra_attempts ra)).
  rewrite <- (ri_len _ _ _ Hi). lia.
Qed.

Lemma inv_step addrs ra gs m ra' :
  race_inv addrs ra gs -> race_step m ra = Some ra' ->
  exists gs', race_inv addrs ra' gs' /\ (left addrs ra' gs' < left addrs ra gs)%nat.
Proof.
  intros Hi Hs. unfold left. destruct m as [i|]; cbn in Hs.
  - destruct (ra_attempts ra !! i) as [[p|r]|] eqn:Hx; [|done..].
    destruct (inv_lookup _ _ _ _ _ Hi Hx) as (a & k & es & Ha & Hg & Ht).
    destruct Ht as (n & Hk & Hc). cbn in Hk, Hc. destruct p as [r|B l m k0|? ? ?]; [| |done].
    + simplify_eq. exists (<[i := (0%nat, es ++ [])]> gs). split.
      * rewrite <- (app_nil_r (ra_trace ra)). eapply inv_attempt; [exact Hi|exact Hx|exact Hg| |reflexivity].
        intros a' Ha'. simplify_eq. rewrite app_nil_r. by split.
      * cbn. pose proof (steps_insert gs i (S n) es (0%nat, es ++ []) Hg). cbn in *. lia.
    + destruct n as [|n]; [done|]. destruct (Hc (ra_trace ra)) as (b & ext & E & Hc').
      rewrite E in Hs. simplify_eq. exists (<[i := (S n, es ++ ext)]> gs). split.
      * rewrite <- (app_nil_r (ra_results ra)). eapply inv_attempt; [exact Hi|exact Hx|exact Hg| |reflexivity].
        intros a' Ha'. simplify_eq. by exists n.
      * cbn. pose proof (steps_insert gs i (S (S n)) es (S n, es ++ ext) Hg). cbn in *. lia.
  - destruct (ra_results ra) as [|r rest] eqn:Hr; [done|].
    pose proof (taken_lt _ _ _ _ _ Hi Hr) as Hlt. destruct Hi as [H1 H2 H3 H4 H5 H6 H7].
    destruct (collect_run (ra_taken ra) r (ra_trace ra)) as [E1 E2]. rewrite H6, H7, E1 in Hs.
    injection Hs as <-. exists gs. split; [|cbn; rewrite length_app; cbn; lia].
    constructor; cbn; try done.
    + rewrite H4, <- app_assoc. by rewrite E2.
    + rewrite H5, Hr. by rewrite <- app_assoc.
Qed.

Lemma inv_run addrs ms ra gs ra' :
  race_inv addrs ra gs -> race_run ms ra = Some ra' ->
  exists gs', race_inv addrs ra' gs' /\ (length ms + left addrs ra' gs' <= left addrs ra gs)%nat.
Proof.
  revert ra gs. induction ms as [|m ms IH]; intros ra gs Hi Hr; cbn in *.
  - simplify_eq. eauto.
  - destruct (race_step m ra) as [ra1|] eqn:Hs; [|done]. cbn in Hr.
    destruct (inv_step _ _ _ _ _ Hi Hs) as (gs1 & Hi1 & Hl1).
    destruct (IH ra1 gs1 Hi1 Hr) as (gs2 & Hi2 & Hl2). exists gs2. split; [done|lia].
Qed.

Lemma start_left d uri addrs :
  left addrs (start_race d uri addrs) (map (fun _ => (6%nat, [])) addrs) = (7 * length addrs)%nat.
Proof.
  unfold left. cbn. rewrite Nat.sub_0_r. rewrite map_map. cbn.
  assert (forall l : list string, sum_list (map (fun _ => 6%nat) l) = (6 * length l)%nat) as ->; [|lia].
  induction l as [|x l IH]; cbn; [done|]. rewrite IH. lia.
Qed.

(** Somebody can move until all outcomes are in. *)
Lemma race_progress addrs ra gs :
  race_inv addrs ra gs -> race_result ra = None -> exists m, is_Some (race_step m ra).
Proof.
  intros Hi Hr. unfold race_result in Hr. destruct (_ =? _)%nat eqn:E; [done|]. apply Nat.eqb_neq in E.
  destruct (decide (Forall (fun x => is_Some (sent x)) (ra_attempts ra))) as [Hall|Hn].
  - exists MCollect. cbn. destruct (ra_results ra) as [|r rest] eqn:Hres.
    + exfalso. apply E. pose proof (ri_sent _ _ _ Hi) as Hp. rewrite Hres, app_nil_r in Hp.
      rewrite <- (Permutation_length Hp). clear -Hall. induction Hall as [|x l Hx _ IH]; [done|].
      destruct x; [by destruct Hx|]. cbn. by f_equal.
    + destruct (collect _ _ _ _) as [[w e] [u t]]. eauto.
  - apply not_Forall_Exists in Hn; [|exact _]. apply Exists_exists in Hn as (x & Hx & Hsx).
    apply list_elem_of_lookup in Hx as [i Hx]. destruct x as [p|r]; [|by destruct Hsx; cbn; eauto].
    exists (MAttempt i). cbn. rewrite Hx.
    destruct (inv_lookup _ _ _ _ _ Hi Hx) as (a & k & es & _ & _ & n & _ & Hc).
    destruct p as [r|B l m k0|? ? ?]; [eauto| |done]. destruct (m _) as [b [u t]]. eauto.
Qed.

(** ** The books at the end *)
Definition sum_conns (c : conn) (ss : list Session) : Z := foldr (fun s z => holds c (Ok s) + z) 0 ss.

Lemma sum_holds_oks c l : sum_holds c l = sum_conns c (oks l).
Proof.
  unfold sum_holds, sum_conns, oks. induction l as [|[s|e] l IH]; cbn in *; [done|by rewrite IH|lia].
Qed.

Lemma balance_closes c l :
  sum_holds c l + balance c (closes l) =
    match head (oks l) with Some s => holds c (Ok s) | None => 0 end.
Proof.
  rewrite sum_holds_oks. unfold closes.
  assert (forall ss, balance c (map (fun s => EvConnClose (s_conn s)) ss) = - sum_conns c ss) as H.
  { unfold balance, sum_conns. induction ss as [|s ss IH]; cbn in *; [done|]. rewrite IH.
    case_bool_decide; lia. }
  rewrite H. destruct (oks l) as [|s ss]; cbn; [done|]. lia.
Qed.

Lemma dialed_closes l : dialed (closes l) = [].
Proof. unfold closes. by induction (tail (oks l)). Qed.

Lemma accounts_sum c addrs xs (gs : list (nat * trace)) :
  length xs = length addrs -> length gs = length addrs ->
  (forall i a x g, addrs !! i = Some a -> xs !! i = Some x -> gs !! i = Some g -> tracked a x g) ->
  length (omap sent xs) = length xs ->
  balance c (concat (map snd gs)) = sum_holds c (omap sent xs) /\ dialed (concat (map snd gs)) = addrs.
Proof.
  revert xs gs. induction addrs as [|a addrs IH]; intros [|x xs] [|[k es] gs] H1 H2 H3 H4; try done.
  pose proof (sent_le xs) as Hle. cbn in H4.
  destruct x as [p|r]; cbn in H4; [lia|]. destruct (H3 0%nat a (Sent r) (k, es)) as [_ [Hd Hb]]; try done.
  destruct (IH xs gs) as [Hb' Hd']; [by injection H1|by injection H2| |by injection H4|].
  { intros i. apply (H3 (S i)). }
  cbn [map concat snd] in *. by rewrite balance_app, dialed_app, Hb, Hb', Hd, Hd'.
Qed.

Lemma finished_books addrs ra gs res c :
  race_inv addrs ra gs -> race_result ra = Some res ->
  balance c (ra_trace ra) = holds c res /\ dialed (ra_trace ra) ≡ₚ addrs /\
  omap sent (ra_attempts ra) ≡ₚ ra_taken ra /\
  match head (oks (ra_taken ra)) with
  | Some s => res = Ok s
  | None => length (errs (ra_taken ra)) = length addrs /\
      res = Err (Wrapped "session: all relay endpoints failed"
                   (default (ErrorString "nil") (head (errs (ra_taken ra)))))
  end.
Proof.
  intros [H1 H2 H3 H4 H5 H6 H7] Hr. unfold race_result in Hr.
  destruct (_ =? _)%nat eqn:E; [|done]. apply Nat.eqb_eq in E. rewrite H6, H7 in Hr.
  pose proof (Permutation_length H5) as Hl. rewrite length_app in Hl.
  pose proof (sent_le (ra_attempts ra)) as Hle.
  assert (ra_results ra = []) as Hres by (apply nil_length_inv; lia). rewrite Hres, app_nil_r in H5.
  destruct (accounts_sum c addrs (ra_attempts ra) gs) as [Hb Hd]; [done..|lia|].
  split_and!; [| |done|].
  - rewrite H4, balance_app, Hb, H5, balance_closes. destruct (head (oks _)); by simplify_eq/=.
  - rewrite H4, dialed_app, Hd, dialed_closes. by rewrite app_nil_r.
  - destruct (oks (ra_taken ra)) as [|s ss] eqn:Ho; cbn in Hr; simplify_eq; cbn; [|done].
    split; [|done]. rewrite <- H1, <- E. clear -Ho. unfold oks, errs in *.
    induction (ra_taken ra) as [|[s|e] l IH]; cbn in *; [done..|]. by rewrite IH.
Qed.
End Happy.

(** ** Properties *)

(** C17. The race of [DialAnyHappy] leaks nothing: however the calls of the
    concurrent attempts and the caller interleave, when it returns every
    address was dialed exactly once, each outcome was received, the result is
    the first session received (or, when all failed, wraps the first error
    received), and of all connections dialed only that session's is still
    open. *)
Theorem happy_race_no_leak `{N : Net} `{L : ResumeLib} d uri addrs ms ra res :
  race_run ms (start_race d uri addrs) = Some ra -> race_result ra = Some res ->
  (forall c, balance c (ra_trace ra) = holds c res) /\ dialed (ra_trace ra) ≡ₚ addrs /\
  omap sent (ra_attempts ra) ≡ₚ ra_taken ra /\
  match head (oks (ra_taken ra)) with
  | Some s => res = Ok s
  | None => length (errs (ra_taken ra)) = length addrs /\
      res = Err (Wrapped "session: all relay endpoints failed"
                   (default (ErrorString "nil") (head (errs (ra_taken ra)))))
  end.
Proof.
  intros Hrun Hres. destruct (inv_run _ _ _ _ _ (start_inv d uri addrs) Hrun) as (gs & Hi & _).
  pose proof (fun c => finished_books _ _ _ _ c Hi Hres) as H. split; [intros c; apply H|].
  by destruct (H (mkConn 0)) as (_ & ? & ? & ?).
Qed.

(** The race of [DialAnyHappy] always returns: no interleaving is longer
    than seven steps per address, and as long as it has not returned some
    goroutine or the caller can move, so no attempt blocks on the channel and
    the caller does not wait for an outcome that never comes. *)
Theorem happy_race_returns `{N : Net} `{L : ResumeLib} d uri addrs ms ra :
  race_run ms (start_race d uri addrs) = Some ra ->
  (length ms <= 7 * length addrs)%nat /\
  (race_result ra = None -> exists m ra', race_step m ra = Some ra').
Proof.
  intros Hrun. destruct (inv_run _ _ _ _ _ (start_inv d uri addrs) Hrun) as (gs & Hi & Hl).
  rewrite start_left in Hl. split; [lia|]. intros Hn.
  destruct (race_progress _ _ _ Hi Hn) as (m & ra' & Hs). eauto.
Qed.

(** Two relays answer; the second attempt is the first to finish, the session
    of the other one is closed. *)
Definition demo_moves : list move :=
  [MAttempt 0; MAttempt 1; MAttempt 1; MAttempt 0; MAttempt 0; MAttempt 1; MAttempt 1; MAttempt 0;
   MAttempt 1; MCollect; MAttempt 0; MCollect].

Definition demo_race : race (L := Ring.lib) :=
  default (mkRace [] [] [] None None [])
    (race_run demo_moves
       (@start_race (demo_net (fun _ _ => mkFrame FrameTypeHelloAck [])) Ring.lib DefaultDialer
          "outrelay://a" ["r:1"; "r:2"])).

Lemma happy_race_no_leak_witness :
  (forall c, balance c (ra_trace demo_race) = if bool_decide (mkConn 1 = c) then 1 else 0) /\
  dialed (ra_trace demo_race) ≡ₚ ["r:1"; "r:2"].
Proof.
  destruct (@happy_race_no_leak (demo_net (fun _ _ => mkFrame FrameTypeHelloAck [])) Ring.lib
    DefaultDialer "outrelay://a" ["r:1"; "r:2"] demo_moves demo_race
    (Ok (new_session (mkConn 1) (mkStream 2) "outrelay://a" DefaultDialer))) as (H1 & H2 & _).
  - vm_compute. reflexivity.
  - vm_compute. reflexivity.
  - split; [exact H1|exact H2].
Defined.

Lemma happy_race_returns_witness :
  (length demo_moves <= 14)%nat /\ race_result demo_race = Some (Ok
    (new_session (mkConn 1) (mkStream 2) "outrelay://a" DefaultDialer)).
Proof.
  split; [|vm_compute; reflexivity].
  apply (@happy_race_returns (demo_net (fun _ _ => mkFrame FrameTypeHelloAck [])) Ring.lib
    DefaultDialer "outrelay://a" ["r:1"; "r:2"] demo_moves demo_race).
  vm_compute. reflexivity.
Defined.
