(* ===== verification/Fine.v ===== *)
(** * The session's goroutines, call by call

    The operations of [pkg/session] as programs whose steps are single calls
    and critical sections, so that two of them can be interleaved anywhere a
    scheduler may switch.  Each step says which mutex the code holds: a field
    read without a lock ([s.conn], [s.ctrl]) is a [Plain] step of its own, what
    a mutex protects is one [locked] or [rlocked] step, and [ctrlWriteMu],
    which is held across calls, is taken and released by steps.  What is
    allocated (a wrapper, a channel) is unknown to others until a section
    publishes it and is made in that section.  [alone] of each program is the
    operation of [Session] or [Promote]. *)

From S2P Require Import Prelude Netip Netip6 Orp Candidate Resume StreamSwap Waiters Forward.
From S2P Require Import Session SessionInv.
From S2P Require Import Dialing Reconnect Incoming P2P Promote Conc.

Local Open Scope prog_scope.

Section Fine.
Context `{N : Net} `{L : ResumeLib}.

Abbreviation prog := (prog Session).

(** ** Reading fields *)
Definition gets {A} (f : Session -> A) : Eff Session A := fun '(s, t) => (f s, (s, t)).

(** [rs.state] and [rs.inner] through the pointer [r]. *)
Definition deref (r : nat) (s : Session) : option State := rs_state <$> s_store s !! r.
Definition inner_of (r : nat) (s : Session) : option stream :=
  (fun rs => g_inner (rs_guarded rs)) <$> s_store s !! r.

(** ** Services *)
Definition p_Expose (name localAddr : string) (h : nat) : prog (option error) :=
  run! locked Mu (modify (fun s => set_handlers (<[name := h]> (s_handlers s)) s)) ;
  let! ct <- act (gets s_ctrl) ;
  let! w <- act (WriteFrame ct FrameTypeRegister (MRegister name localAddr)) ;
  match w with
  | Err e => Done (Some (Wrapped "session: send REGISTER" e))
  | Ok _ =>
      let! ct <- act (gets s_ctrl) ;
      let! f <- act (ParseFrame ct) ;
      match f with
      | Err e => Done (Some (Wrapped "session: read REGISTER_ACK" e))
      | Ok f =>
          if bool_decide (f_Type f = FrameTypeRegisterAck) then Done None
          else Done (Some (ErrorString "session: expected REGISTER_ACK"))
      end
  end.

(** ** Streams *)

(** The locked part of [forgetStream]. *)
Definition forget_section (id : Z) : Eff Session (option nat) :=
  fun '(s, t) => (s_streams s !! id, (set_streams (delete id (s_streams s)) s, t)).

Definition p_forgetStream (id : Z) : prog unit :=
  let! r <- locked Mu (forget_section id) ;
  match r with
  | Some r => locked (WrapperMu r) (rs_markAbandoned r)
  | None => Done tt
  end.

Definition p_Close (r : nat) : prog unit :=
  let! st <- act (gets (deref r)) ;
  match st with
  | None => Done tt
  | Some st =>
      run! p_forgetStream (ID st) ;
      run! locked (WrapperMu r) (rs_markAbandoned r) ;
      let! inner <- rlocked (WrapperMu r) (gets (inner_of r)) ;
      match inner with
      | None => Done tt
      | Some inner => act (Stream_Close inner)
      end
  end.

(** [SwapInner]: the old stream and channel leave the critical section. *)
Definition swap_locked (r : nat) (st : stream) : Eff Session (option (stream * option nat)) :=
  fun '(s, t) =>
    match s_store s !! r with
    | None => (None, (s, t))
    | Some rs =>
        let '(old, (g, h)) := swap_section st (rs_guarded rs) (s_chans s) in
        (Some old, (set_store (<[r := mkRS (rs_state rs) g]> (s_store s)) h s, t))
    end.

(** [close(oldReady)]; [false] when it panics. *)
Definition close_old (oldReady : option nat) : Eff Session bool :=
  fun '(s, t) =>
    match close_ready oldReady (s_chans s) with
    | None => (false, (s, t ++ [EvPanic]))
    | Some h => (true, (set_store (s_store s) h s, t))
    end.

Definition p_SwapInner (r : nat) (st : stream) : prog unit :=
  let! old <- locked (WrapperMu r) (swap_locked r st) ;
  match old with
  | None => Done tt
  | Some (old, oldReady) =>
      let! ok <- act (close_old oldReady) ;
      if ok : bool then act (emit (EvCancelRead old)) else Done tt
  end.

Fixpoint p_freshStreamID (fuel : nat) (target method : string) : prog (option Z) :=
  match fuel with
  | O => Done None
  | S fuel' =>
      let! uri <- act (gets s_agentURI) ;
      let! id <- act (NewStreamID uri target method) ;
      let! dup <- rlocked Mu (gets (fun s => s_streams s !! id)) ;
      match dup with
      | None => Done (Some id)
      | Some _ => p_freshStreamID fuel' target method
      end
  end.

Definition register_mode (id : Z) : Eff Session unit :=
  modify (fun s => set_p2p (snd (RegisterStreamModeWaiter id (s_p2p s))) s).

Definition cancel_mode (id : Z) : Eff Session unit :=
  modify (fun s => set_p2p (CancelStreamModeWaiter id (s_p2p s)) s).

Definition p_Dial (fuel : nat) (target method : string) : prog (option (result nat)) :=
  let! c <- act (gets s_conn) ;
  let! st <- act (Conn_OpenStream c) ;
  match st with
  | Err e => Done (Some (Err e))
  | Ok st =>
      let! id <- p_freshStreamID fuel target method ;
      match id with
      | None => Done None
      | Some id =>
          let! ena <- locked P2pMu (gets (fun s => p2pEnabled (s_p2p s))) ;
          run! (if ena : bool then locked P2pMu (register_mode id) else Done tt) ;
          let! w <- act (WriteFrame st FrameTypeOpenStream (MOpenStream target method id)) ;
          match w with
          | Err e =>
              run! (if ena : bool then locked P2pMu (cancel_mode id) else Done tt) ;
              run! act (Stream_Close st) ;
              Done (Some (Err (Wrapped "session: send OPEN_STREAM" e)))
          | Ok _ =>
              let! r <- locked Mu (wrapStream id st) ;
              Done (Some (Ok r))
          end
      end
  end.

(** ** Resume and reconnect *)

(** The counters are read when the gap is computed. *)
Definition p_completeResume (r : nat) (st : stream) : prog (option error) :=
  let! f <- act (ParseFrame st) ;
  match f with
  | Err e => Done (Some (Wrapped "session: read peer STREAM_RESUME" e))
  | Ok f =>
      match unmarshal_StreamResume f with
      | Err e => Done (Some e)
      | Ok peer =>
          let! state <- act (gets (deref r)) ;
          match state with
          | None => run! act (emit EvPanic) ; Done None
          | Some state =>
              if negb (sr_StreamId peer =? uint64 (ID state)) then
                Done (Some (ErrorString "session: peer STREAM_RESUME stream_id mismatch"))
              else
                match RetransmitFrom state (int64 (sr_PeerAckPosition peer)) with
                | Err e => Done (Some (Wrapped "session: retransmit gap unavailable" e))
                | Ok gap =>
                    if (0 <? length gap)%nat then
                      let! w <- act (Stream_Write st gap) ;
                      Done match snd w with
                           | Some e => Some (Wrapped "session: retransmit write" e)
                           | None => None
                           end
                    else Done None
                end
          end
      end
  end.

Definition p_Resume (r : nat) : prog (option error) :=
  let! state <- act (gets (deref r)) ;
  match state with
  | None => run! act (emit EvPanic) ; Done None
  | Some _ =>
      let! c <- act (gets s_conn) ;
      let! st <- act (Conn_OpenStream c) ;
      match st with
      | Err e => Done (Some (Wrapped "session: open resume stream" e))
      | Ok st =>
          let! state <- act (gets (deref r)) ;
          match state with
          | None => run! act (emit EvPanic) ; Done None
          | Some state =>
              let! w <- act (WriteFrame st FrameTypeStreamResume
                               (MStreamResume (resume_message state))) ;
              match w with
              | Err e =>
                  run! act (Stream_Close st) ;
                  Done (Some (Wrapped "session: send STREAM_RESUME" e))
              | Ok _ =>
                  let! e <- p_completeResume r st ;
                  match e with
                  | Some e => run! act (Stream_Close st) ; Done (Some e)
                  | None => run! p_SwapInner r st ; Done None
                  end
              end
          end
      end
  end.

Fixpoint p_redial (d : dialer) (uri : string) (addrs : list string) (dialErr : option error)
    : prog (result (conn * stream)) :=
  match addrs with
  | [] => Done (Err (default (ErrorString "session: all relay endpoints failed") dialErr))
  | addr :: addrs' =>
      let! c <- act (Dialer_Dial d addr) ;
      match c with
      | Err e => p_redial d uri addrs' (or_first dialErr e)
      | Ok c =>
          let next := run! act (Conn_Close c) ; p_redial d uri addrs' dialErr in
          let! ct <- act (Conn_OpenStream c) ;
          match ct with
          | Err _ => next
          | Ok ct =>
              let! w <- act (WriteFrame ct FrameTypeHello (MHello "orp/1" uri)) ;
              match w with
              | Err _ => next
              | Ok _ =>
                  let! f <- act (ParseFrame ct) ;
                  match f with
                  | Err _ => next
                  | Ok f =>
                      match unmarshal_HelloAck f with
                      | Err _ => next
                      | Ok _ => Done (Ok (c, ct))
                      end
                  end
              end
          end
      end
  end.

(** [s.ctrl] is read for each frame. *)
Fixpoint p_reregister (names : list string) : prog (option error) :=
  match names with
  | [] => Done None
  | name :: names' =>
      let! ct <- act (gets s_ctrl) ;
      let! w <- act (WriteFrame ct FrameTypeRegister (MRegister name "")) ;
      match w with
      | Err e => Done (Some (Wrapped "session: re-register" e))
      | Ok _ =>
          let! ct <- act (gets s_ctrl) ;
          let! f <- act (ParseFrame ct) ;
          match f with
          | Err e => Done (Some (Wrapped "session: read REGISTER_ACK" e))
          | Ok f =>
              if bool_decide (f_Type f = FrameTypeRegisterAck) then p_reregister names'
              else Done (Some (ErrorString "session: expected REGISTER_ACK"))
          end
      end
  end.

Fixpoint p_resume_all (rs : list nat) : prog unit :=
  match rs with
  | [] => Done tt
  | r :: rs' =>
      let! e <- p_Resume r ;
      run! match e with
           | Some _ => let! id <- act (gets (wrapper_id r)) ; p_forgetStream id
           | None => Done tt
           end ;
      p_resume_all rs'
  end.

(** The keys of [s.handlers], copied under the lock. *)
Definition exposed_names : Eff Session (list string) :=
  (do s <- get ;; map_order (map fst (map_to_list (s_handlers s))))%agent.

(** The two assignments are made one after the other. *)
Definition set_ctrl (ct : stream) (s : Session) : Session := set_transport (s_conn s) ct s.

Definition p_swap_transport (c : conn) (ct : stream) : prog unit :=
  run! lock CtrlWriteMu ;
  run! act (modify (SwapConn c)) ;
  run! act (modify (set_ctrl ct)) ;
  unlock CtrlWriteMu.

Definition p_Reconnect (addrs : list string) : prog (option error) :=
  match addrs with
  | [] => Done (Some (ErrorString "session: Reconnect requires at least one addr"))
  | _ =>
      let! c <- act (gets s_conn) ;
      run! act (Conn_Close c) ;
      let! d <- act (gets s_dialer) ;
      let! uri <- act (gets s_agentURI) ;
      let! r <- p_redial (default DefaultDialer d) uri addrs None ;
      match r with
      | Err e => Done (Some e)
      | Ok (c, ct) =>
          run! p_swap_transport c ct ;
          let! exposed <- rlocked Mu exposed_names ;
          let! e <- p_reregister exposed ;
          match e with
          | Some e => Done (Some e)
          | None =>
              let! streams <- rlocked Mu ActiveStreams ;
              run! p_resume_all streams ;
              Done None
          end
      end
  end.

(** ** Incoming streams *)

(** One arm of the select of [WaitForStreamMode]; [None] when it blocks. *)
Definition receive_mode (ch : nat) (ctxDone : bool) : Eff Session (option streamModeNotice) :=
  fun '(s, t) =>
    match receiveMode ch ctxDone (s_p2p s) with
    | Some (n, p) => (Some n, (set_p2p p s, t))
    | None => (None, (s, t))
    end.

(** The select: the channel is looked at [polls] times before the context of
    the call ends. *)
Fixpoint p_receive (polls : nat) (ch : nat) : prog streamModeNotice :=
  match polls with
  | O => let! n <- act (receive_mode ch true) ; Done (default None n)
  | S polls' =>
      let! n <- act (receive_mode ch false) ;
      match n with
      | Some n => Done n
      | None => p_receive polls' ch
      end
  end.

Definition p_wait_mode (polls : nat) (id : Z) : prog streamModeNotice :=
  let! ch <- locked P2pMu (gets (fun s => mlookup (pendingMode (s_p2p s)) id)) ;
  match ch with
  | None => Done None
  | Some ch =>
      let! n <- p_receive polls ch ;
      run! locked P2pMu (cancel_mode id) ;
      Done n
  end.

Definition p_bridge_wrapped (r : nat) (st : stream) (b : backend) : prog unit :=
  run! act (emit (EvBridge st b)) ;
  run! p_Close r ;
  act (Backend_Close b).

(** The bring-up of a forward session shares nothing and is one step. *)
Definition p_serve (r : nat) (st : stream) (b : backend) (granted : streamModeNotice) : prog unit :=
  match granted with
  | None => p_bridge_wrapped r st b
  | Some g =>
      let! ftls <- rlocked Mu (gets forwardTLS) ;
      match ftls with
      | None => p_bridge_wrapped r st b
      | Some _ =>
          let! fs <- act (AcceptForward (Some g)) ;
          match fs with
          | Err _ => act (Backend_Close b)
          | Ok fs =>
              run! act (emit (EvBridgeForward (fs_stream fs) b)) ;
              run! act (release ResQuicStream (fs_stream fs)) ;
              run! act (Backend_Close b) ;
              run! act (ForwardSession_Close fs) ;
              Done tt
          end
      end
  end.

Definition p_handleIncoming (polls : nat) (st : stream) : prog unit :=
  let! f <- act (ParseFrame st) ;
  match f with
  | Err _ => act (Stream_Close st)
  | Ok f =>
      if negb (bool_decide (f_Type f = FrameTypeIncomingStream)) then act (Stream_Close st)
      else
        match unmarshal_IncomingStream f with
        | Err _ => act (Stream_Close st)
        | Ok inc =>
            let! h <- rlocked Mu (gets (fun s => s_handlers s !! in_TargetService inc)) ;
            match h with
            | None =>
                run! act (WriteFrame st FrameTypeStreamReject
                            (MStreamReject 404 (inr "no handler"%string))) ;
                act (Stream_Close st)
            | Some h =>
                let! b <- act (call_handler h inc) ;
                match b with
                | Err e =>
                    run! act (WriteFrame st FrameTypeStreamReject (MStreamReject 502 (inl e))) ;
                    act (Stream_Close st)
                | Ok b =>
                    let! ena <- locked P2pMu (gets (fun s => p2pEnabled (s_p2p s))) ;
                    let id := in_StreamId inc in
                    run! (if ena : bool then locked P2pMu (register_mode id) else Done tt) ;
                    let! w <- act (WriteFrame st FrameTypeStreamAccept MStreamAccept) ;
                    match w with
                    | Err _ =>
                        run! (if ena : bool then locked P2pMu (cancel_mode id) else Done tt) ;
                        run! act (Backend_Close b) ;
                        act (Stream_Close st)
                    | Ok _ =>
                        let! r <- locked Mu (wrapStream id st) ;
                        let! granted <- (if ena : bool then p_wait_mode polls id else Done None) ;
                        run! p_serve r st b granted ;
                        p_Close r
                    end
                end
            end
        end
  end.

(** ** Checkpoints and the control reader *)
Fixpoint p_punch_loop (sock : nat) (cands : pbCandidates) : prog unit :=
  match cands with
  | [] => Done tt
  | c :: cands' =>
      run! match punch_target c with
           | None => Done tt
           | Some addr => run! act (Datagram sock [0] addr) ; Done tt
           end ;
      p_punch_loop sock cands'
  end.

Definition p_warmupPunch (streamID : Z) (cands : pbCandidates) : prog unit :=
  let! d <- act (gets s_dialer) ;
  match d with
  | Some (SharedTransport sock) => p_punch_loop sock cands
  | _ => Done tt
  end.

Definition p_writeCtrl (typ : FrameType) (m : message) : prog (option error) :=
  run! lock CtrlWriteMu ;
  let! ct <- act (gets s_ctrl) ;
  let! w <- act (WriteFrame ct typ m) ;
  run! unlock CtrlWriteMu ;
  Done match w with Ok _ => None | Err e => Some e end.

(** [deliverAnswer]: the entry is removed under the lock, the send on its
    channel is not. *)
Definition take_answer (id : Z) : Eff Session (option nat) :=
  fun '(s, t) =>
    let p := s_p2p s in
    match mlookup (pendingAnswers p) id with
    | None => (None, (s, t))
    | Some ch =>
        (Some ch, (set_p2p (mkP2P (mdelete (pendingAnswers p) id) (pendingMode p) (localCandidates p)
                              (p2pEnabled p) (p2pCtx p) (abufs p) (mbufs p) (nextbuf p)) s, t))
    end.

Definition send_answer (ch : nat) (a : CandidateAnswer) : Eff Session unit :=
  modify (fun s =>
    let p := s_p2p s in
    set_p2p (mkP2P (pendingAnswers p) (pendingMode p) (localCandidates p) (p2pEnabled p) (p2pCtx p)
               (try_send ch a (abufs p)) (mbufs p) (nextbuf p)) s).

Definition p_deliverAnswer (a : CandidateAnswer) : prog unit :=
  let! ch <- locked P2pMu (take_answer (an_StreamId a)) ;
  match ch with
  | None => Done tt
  | Some ch => act (send_answer ch a)
  end.

(** [deliverMode]: the entry stays. *)
Definition send_mode (ch : nat) (n : streamModeNotice) : Eff Session unit :=
  modify (fun s =>
    let p := s_p2p s in
    set_p2p (mkP2P (pendingAnswers p) (pendingMode p) (localCandidates p) (p2pEnabled p) (p2pCtx p)
               (abufs p) (try_send ch n (mbufs p)) (nextbuf p)) s).

Definition p_deliverMode (id : Z) (n : streamModeNotice) : prog unit :=
  let! ch <- locked P2pMu (gets (fun s => mlookup (pendingMode (s_p2p s)) id)) ;
  match ch with
  | None => Done tt
  | Some ch => act (send_mode ch n)
  end.

Definition p_control_frame (f : Frame) : prog unit :=
  match f_Type f with
  | FrameTypeCandidateAnswer =>
      match unmarshal_CandidateAnswer f with
      | Err _ => Done tt
      | Ok a => p_deliverAnswer a
      end
  | FrameTypeCandidateOffer =>
      match unmarshal_CandidateOffer f with
      | Err _ => Done tt
      | Ok o =>
          let! ans <- locked P2pMu (gets (fun s => AnswerOffer o (s_p2p s))) ;
          run! p_writeCtrl FrameTypeCandidateAnswer (MCandidateAnswer ans) ;
          p_warmupPunch (of_StreamId o) (of_Candidates o)
      end
  | FrameTypeStreamCheckpoint =>
      match unmarshal_StreamCheckpoint f with
      | Err _ => Done tt
      | Ok cp =>
          let! r <- rlocked Mu (gets (fun s => s_streams s !! cp_StreamId cp)) ;
          match r with
          | None => Done tt
          | Some r =>
              act (modify (update_state r (OnCheckpointFromPeer (int64 (cp_PeerAckPosition cp)))))
          end
      end
  | FrameTypeAllocGranted =>
      match unmarshal_AllocGranted f with
      | Err _ => Done tt
      | Ok g => p_deliverMode (ag_StreamId g) (Some g)
      end
  | FrameTypeStreamReady =>
      match unmarshal_StreamReady f with
      | Err _ => Done tt
      | Ok id => p_deliverMode id None
      end
  | _ => Done tt
  end.

Fixpoint p_controlReader (fuel : nat) : prog bool :=
  match fuel with
  | O => Done false
  | S fuel' =>
      let! ct <- act (gets s_ctrl) ;
      let! f <- act (ParseFrame ct) ;
      match f with
      | Err _ => Done true
      | Ok f =>
          run! p_control_frame f ;
          if undecodable f then p_controlReader fuel'
          else
            let! ce <- act ctx_Err ;
            match ce with
            | Some _ => Done true
            | None => p_controlReader fuel'
            end
      end
  end.

(** The states are shared with the wrappers: the counters are read when the
    message is built. *)
Fixpoint p_emit_states (rs : list nat) : prog unit :=
  match rs with
  | [] => Done tt
  | r :: rs' =>
      let! state <- act (gets (deref r)) ;
      match state with
      | None => p_emit_states rs'
      | Some state =>
          let! e <- p_writeCtrl FrameTypeStreamCheckpoint
                      (MStreamCheckpoint (checkpoint_message state)) ;
          match e with
          | Some _ => Done tt
          | None => p_emit_states rs'
          end
      end
  end.

Definition p_emitOnce : prog unit :=
  let! rs <- rlocked Mu ActiveStreams ;
  p_emit_states rs.

Fixpoint p_emitCheckpoints (fuel : nat) (period : Z) : prog bool :=
  match fuel with
  | O => Done false
  | S fuel' =>
      let! done_ <- act (sleep period) ;
      if done_ : bool then Done true
      else run! p_emitOnce ; p_emitCheckpoints fuel' period
  end.

Definition enable_section (ctx : nat) : Eff Session bool :=
  fun '(s, t) => let '(start, p) := EnableP2P ctx (s_p2p s) in (start, (set_p2p p s, t)).

Definition goroutine {A} (p : prog A) : prog unit := run! p ; Done tt.

Definition p_EnableP2P (fuel ctx : nat) : prog unit :=
  let! start <- locked P2pMu (enable_section ctx) ;
  if start : bool then Go "controlReader" (goroutine (p_controlReader fuel)) (Done tt)
  else Done tt.

Definition p_StartResume (fuel ctx : nat) (period CheckpointPeriodMs : Z) : prog unit :=
  let period := if period <=? 0 then CheckpointPeriodMs * 1000000 else period in
  run! p_EnableP2P fuel ctx ;
  Go "emitCheckpoints" (goroutine (p_emitCheckpoints fuel period)) (Done tt).

(** ** Direct migration *)
Definition held_ref (rs : option nat) (s : Session) : option (nat * State) :=
  match rs with
  | Some r => (fun st => (r, st)) <$> deref r s
  | None => None
  end.

Definition p_MigrateToDirect (rs : option nat) (peerConn : option conn) : prog (option error) :=
  let! state <- act (gets (held_ref rs)) ;
  match state, peerConn with
  | Some (r, _), Some c =>
      let! st <- act (Conn_OpenStream c) ;
      match st with
      | Err e => Done (Some (Wrapped "session: open direct stream" e))
      | Ok st =>
          let! state <- act (gets (deref r)) ;
          match state with
          | None => run! act (emit EvPanic) ; Done None
          | Some state =>
              let! w <- act (WriteFrame st FrameTypeStreamResume
                               (MStreamResume (resume_message state))) ;
              match w with
              | Err e =>
                  run! act (Stream_Close st) ;
                  Done (Some (Wrapped "session: send STREAM_RESUME on direct" e))
              | Ok _ => run! p_SwapInner r st ; Done None
              end
          end
      end
  | _, _ => Done (Some (ErrorString "session: nil rs or peerConn"))
  end.

Definition p_handleDirectStream (st : stream) : prog unit :=
  let! f <- act (ParseFrame st) ;
  match f with
  | Err _ => act (Stream_Close st)
  | Ok f =>
      if negb (bool_decide (f_Type f = FrameTypeStreamResume)) then act (Stream_Close st)
      else
        match unmarshal_StreamResume f with
        | Err _ => act (Stream_Close st)
        | Ok peer =>
            let! r <- rlocked Mu (gets (fun s => s_streams s !! sr_StreamId peer)) ;
            match r with
            | None => act (Stream_Close st)
            | Some r =>
                let! state <- act (gets (deref r)) ;
                match state with
                | None => act (Stream_Close st)
                | Some state =>
                    match RetransmitFrom state (int64 (sr_PeerAckPosition peer)) with
                    | Err _ => act (Stream_Close st)
                    | Ok gap =>
                        if (0 <? length gap)%nat then
                          let! w <- act (Stream_Write st gap) ;
                          match snd w with
                          | Some _ => act (Stream_Close st)
                          | None => p_SwapInner r st
                          end
                        else p_SwapInner r st
                    end
                end
            end
        end
  end.

Fixpoint p_acceptDirectStreams (fuel : nat) (c : conn) : prog bool :=
  match fuel with
  | O => Done false
  | S fuel' =>
      let! st <- act (Conn_AcceptStream c) ;
      match st with
      | Err _ => Done true
      | Ok st => Go "handleDirectStream" (p_handleDirectStream st) (p_acceptDirectStreams fuel' c)
      end
  end.

(** [ln.Accept]. *)
Definition Listener_Accept (ln : trace -> result conn) : Eff Session (result conn) :=
  fun '(s, t) => (ln t, (s, t)).

Fixpoint p_AcceptDirect (fuel : nat) (ln : trace -> result conn) : prog (option error) :=
  match fuel with
  | O => Done None
  | S fuel' =>
      let! c <- act (Listener_Accept ln) ;
      match c with
      | Err e =>
          let! ce <- act ctx_Err ;
          Done (Some match ce with Some e' => e' | None => Wrapped "session: accept direct" e end)
      | Ok c =>
          Go "acceptDirectStreams" (run! p_acceptDirectStreams fuel' c ; Done tt)
            (p_AcceptDirect fuel' ln)
      end
  end.

(** ** Promotion *)

(** One arm of the select of [RecvAnswer]; [None] when it blocks. *)
Definition receive_answer (ch : nat) (ctxDone : option error)
    : Eff Session (option (result (option CandidateAnswer))) :=
  fun '(s, t) =>
    match recvAnswer ch ctxDone (s_p2p s) with
    | Some (inl a, p) => (Some (Ok (Some a)), (set_p2p p s, t))
    | Some (inr e, p) => (Some (Err e), (set_p2p p s, t))
    | None => (None, (s, t))
    end.

(** The select: the channel is looked at [polls] times before the context of
    the call ends. *)
Fixpoint p_recv_answer (polls : nat) (ch : nat) : prog (result (option CandidateAnswer)) :=
  match polls with
  | O =>
      let! a <- act (receive_answer ch (Some (Sentinel DeadlineExceeded))) ;
      Done (default (Err (Sentinel DeadlineExceeded)) a)
  | S polls' =>
      let! a <- act (receive_answer ch None) ;
      match a with
      | Some a => Done a
      | None => p_recv_answer polls' ch
      end
  end.

Fixpoint p_check_loop (e : Engine) (locals sorted : list Candidate) : prog (result CheckResult) :=
  match sorted with
  | [] => Done (Err (Sentinel NoPair))
  | r :: sorted' =>
      if negb (AddrPort_IsValid (CAddr r)) then p_check_loop e locals sorted'
      else
        let! c <- act (Dialer_Dial (match e_dialer e with Some d => d | None => DialQUIC end)
                         (AddrPort_String (CAddr r))) ;
        match c with
        | Err _ =>
            let! ce <- act ctx_Err ;
            match ce with
            | Some e' => Done (Err e')
            | None => p_check_loop e locals sorted'
            end
        | Ok c => Done (Ok (mkCheck (pick_local locals) r c))
        end
  end.

(** [Promoter.Run] with the hooks [Promote] gives it. *)
Definition p_Promoter_Run (polls : nat) (streamID : Z) (eng : Engine) (locals : list Candidate)
    (answerCh : nat) : prog (result CheckResult) :=
  let! e <- p_writeCtrl FrameTypeCandidateOffer (MCandidateOffer (mkOffer streamID (toPB locals))) ;
  match e with
  | Some e => Done (Err (Wrapped "p2p: send offer" e))
  | None =>
      let! a <- p_recv_answer polls answerCh ;
      match a with
      | Err e => Done (Err (Wrapped "p2p: recv answer" e))
      | Ok None => Done (Err (ErrorString "p2p: peer answer missing"))
      | Ok (Some answer) =>
          if negb (an_StreamId answer =? streamID) then
            Done (Err (ErrorString "p2p: answer stream_id mismatch"))
          else
            match FromPB (an_Candidates answer) with
            | None => run! act (emit EvPanic) ; Done (Err (ErrorString "nil candidate"))
            | Some remotes =>
                let! res <- p_check_loop eng locals (Sort remotes) ;
                match res with
                | Err e => Done (Err e)
                | Ok res =>
                    run! p_writeCtrl FrameTypeMigrateToP2P
                           (MMigrateToP2P streamID (toPBOne (cr_Remote res))) ;
                    Done (Ok res)
                end
            end
      end
  end.

(** [registerAnswerWaiter]; [None] when the map is nil. *)
Definition register_answer (id : Z) : Eff Session (option nat) :=
  fun '(s, t) =>
    match registerAnswerWaiter id (s_p2p s) with
    | Some (ch, p) => (Some ch, (set_p2p p s, t))
    | None => (None, (s, t))
    end.

(** The candidates to offer. *)
Definition p_locals (opt_locals : list Candidate) (hostPort : Z) (ifaddrs : result (list netAddr))
    : prog (option (list Candidate)) :=
  match opt_locals with
  | [] =>
      let! sl <- locked P2pMu (gets (fun s => localCandidates (s_p2p s))) ;
      Done (choose_locals [] sl ifaddrs hostPort)
  | _ => Done (Some opt_locals)
  end.

Definition p_Promote (polls : nat) (r : nat) (eng : option Engine) (opt_locals : list Candidate)
    (hostPort : Z) (ifaddrs : result (list netAddr)) : prog (result CheckResult) :=
  let! state <- act (gets (deref r)) ;
  match state, eng with
  | Some state, Some eng =>
      let streamID := uint64 (ID state) in
      let! enabled <- locked P2pMu (gets (fun s => bool_decide (pendingAnswers (s_p2p s) <> None))) ;
      if negb enabled then Done (Err (ErrorString "session: EnableP2P not called"))
      else
        let! answerCh <- locked P2pMu (register_answer streamID) ;
        match answerCh with
        | None => run! act (emit EvPanic) ; Done (Err (ErrorString "nil map"))
        | Some answerCh =>
            let! locals <- p_locals opt_locals hostPort ifaddrs ;
            match locals with
            | None => run! act (emit EvPanic) ; Done (Err (ErrorString "nil candidate"))
            | Some locals => p_Promoter_Run polls streamID eng locals answerCh
            end
        end
  | _, _ => Done (Err (ErrorString "session: nil rs or engine"))
  end.

(** [tryPromote] of [main]. *)
Definition p_tryPromote (polls : nat) (r : nat) (eng : Engine) (ifaddrs : result (list netAddr))
    : prog bool :=
  let! done_ <- act (sleep 1000000000) ;
  if done_ : bool then Done false
  else
    let! res <- p_Promote polls r (Some eng) [] 0 ifaddrs ;
    match res with
    | Err _ => Done false
    | Ok res =>
        let! e <- p_MigrateToDirect (Some r) (Some (cr_Conn res)) ;
        match e with
        | Some _ => run! act (Conn_Close (cr_Conn res)) ; Done false
        | None => Done true
        end
    end.

(** ** The accept loop and the reconnect loop *)
Fixpoint p_Run (polls fuel : nat) : prog (option (option error)) :=
  match fuel with
  | O => Done None
  | S fuel' =>
      let! c <- act (gets s_conn) ;
      let! st <- act (Conn_AcceptStream c) ;
      match st with
      | Err e =>
          if errors_Is e Canceled then Done (Some None)
          else Done (Some (Some (Wrapped "session: accept" e)))
      | Ok st => Go "handleIncoming" (p_handleIncoming polls st) (p_Run polls fuel')
      end
  end.

Fixpoint p_reconnect_loop (fuel : nat) (addrs : list string) (backoff : Z) : prog (option bool) :=
  match fuel with
  | O => Done None
  | S fuel' =>
      let! e <- p_Reconnect addrs ;
      match e with
      | None =>
          let! restart <- locked P2pMu (gets (fun s => restartControlReaderIfEnabled (s_p2p s))) ;
          if restart : bool
          then Go "controlReader" (goroutine (p_controlReader fuel')) (Done (Some true))
          else Done (Some true)
      | Some _ =>
          let! done_ <- act (sleep backoff) ;
          if done_ : bool then Done (Some false)
          else p_reconnect_loop fuel' addrs (next_backoff backoff)
      end
  end.

Fixpoint p_RunWithReconnect (polls fuel : nat) (addrs : list string) : prog (option (option error)) :=
  match fuel with
  | O => Done None
  | S fuel' =>
      let! r <- p_Run polls fuel' ;
      match r with
      | None => Done None
      | Some None => Done (Some None)
      | Some (Some e) =>
          if errors_Is e Canceled then Done (Some None)
          else
            run! act (modify (set_reconnecting true)) ;
            let! ok <- p_reconnect_loop fuel' addrs Second ;
            match ok with
            | None => Done None
            | Some false => run! act (modify (set_reconnecting false)) ; Done (Some None)
            | Some true =>
                run! act (modify (set_reconnecting false)) ; p_RunWithReconnect polls fuel' addrs
            end
      end
  end.

(** ** Calls of a goroutine *)
Definition p_CloseWrite (has_cw : stream -> bool) (r : nat) : prog unit :=
  let! inner <- rlocked (WrapperMu r) (gets (inner_of r)) ;
  match inner with
  | None => Done tt
  | Some inner =>
      if has_cw inner then act (Stream_CloseWrite inner) else act (Stream_Close inner)
  end.

(** The entry points of a session as one goroutine calls them; [CTransfer] is
    the byte accounting of a [Read] and a [Write]. *)
Inductive session_call : Type :=
  | CExpose (name localAddr : string) (h : nat)
  | CDial (fuel : nat) (target method : string)
  | CIncoming (polls : nat) (st : stream)
  | CResume (r : nat)
  | CClose (r : nat)
  | CCloseWrite (has_cw : stream -> bool) (r : nat)
  | CSwapConn (c : conn)
  | CForwardTLS (c : option Tls.tlsConfig)
  | CForget (id : Z)
  | CReconnect (addrs : list string)
  | CRun (polls fuel : nat)
  | CRetry (polls fuel : nat) (addrs : list string)
  | CControl (fuel : nat)
  | CStartResume (fuel ctx : nat) (period ms : Z)
  | CMigrate (r : nat) (c : conn)
  | CDirect (st : stream)
  | CAcceptDirect (fuel : nat) (ln : trace -> result conn)
  | CTransfer (r : nat) (n : Z) (p : list byte)
  | CP2P (o : p2p_op).

(** Callers of [Resume] and [MigrateToDirect] hold existing wrappers. *)
Definition when_wrapper (r : nat) (p : prog unit) : prog unit :=
  let! state <- act (gets (deref r)) ;
  match state with
  | Some _ => p
  | None => Done tt
  end.

Definition apply_p2p (o : p2p_op) : Eff Session unit :=
  modify (fun s => set_p2p (apply_op o (s_p2p s)) s).

(** The operations of [Waiters], section by section; a receive that finds its
    channel empty leaves it at that. *)
Definition p_p2p_op (o : p2p_op) : prog unit :=
  match o with
  | OpDeliverAnswer a => p_deliverAnswer a
  | OpDeliverMode id n => p_deliverMode id n
  | OpRecvAnswer ch ctxDone => act (apply_p2p o)
  | OpWaitMode id ctxDone =>
      let! ch <- locked P2pMu (gets (fun s => mlookup (pendingMode (s_p2p s)) id)) ;
      match ch with
      | None => Done tt
      | Some ch =>
          let! n <- act (receive_mode ch ctxDone) ;
          match n with
          | Some _ => locked P2pMu (cancel_mode id)
          | None => Done tt
          end
      end
  | _ => locked P2pMu (apply_p2p o)
  end.

Definition p_call (c : session_call) : prog unit :=
  match c with
  | CExpose name la h => goroutine (p_Expose name la h)
  | CDial fuel target method => goroutine (p_Dial fuel target method)
  | CIncoming polls st => p_handleIncoming polls st
  | CResume r => when_wrapper r (goroutine (p_Resume r))
  | CClose r => p_Close r
  | CCloseWrite has_cw r => p_CloseWrite has_cw r
  | CSwapConn c => act (modify (SwapConn c))
  | CForwardTLS c => locked Mu (modify (SetForwardServerTLS c))
  | CForget id => p_forgetStream id
  | CReconnect addrs => goroutine (p_Reconnect addrs)
  | CRun polls fuel => goroutine (p_Run polls fuel)
  | CRetry polls fuel addrs => goroutine (p_RunWithReconnect polls fuel addrs)
  | CControl fuel => goroutine (p_controlReader fuel)
  | CStartResume fuel ctx period ms => p_StartResume fuel ctx period ms
  | CMigrate r c => when_wrapper r (goroutine (p_MigrateToDirect (Some r) (Some c)))
  | CDirect st => p_handleDirectStream st
  | CAcceptDirect fuel ln => goroutine (p_AcceptDirect fuel ln)
  | CTransfer r n p =>
      run! act (modify (update_state r (OnRead n))) ;
      act (modify (update_state r (OnWrite p)))
  | CP2P o => p_p2p_op o
  end.

Fixpoint p_calls (cs : list session_call) : prog unit :=
  match cs with
  | [] => Done tt
  | c :: cs' => run! p_call c ; p_calls cs'
  end.
End Fine.
