(* ===== verification/FineEq.v ===== *)
(** * The fine-grained programs, alone, are the operations

    Run without interference, each program of [Fine] makes the same calls,
    changes the session in the same way and returns the same result as the
    operation of [Session] or [Promote] it refines. *)

From S2P Require Import Prelude Netip Netip6 Orp Candidate Resume StreamSwap Waiters Forward.
From S2P Require Import Session SessionInv.
From S2P Require Import Dialing Reconnect Incoming P2P Promote Safety Conc Fine.

Local Open Scope prog_scope.

Section FineEq.
Context `{N : Net} `{L : ResumeLib}.

(** Walk both programs at once. *)
Ltac lockstep :=
  repeat (cbn [alone pbind call]; unfold mbind, mret, get, gets, modify in *;
    try (case_match; simplify_eq/=)); try done.

Ltac ps :=
  repeat progress (cbn [fmap option_fmap option_map alone pbind call];
    unfold mbind, mret, get, gets, modify, deref, inner_of, Conn_OpenStream, WriteFrame, ParseFrame,
      Dialer_Dial, Conn_Close, Stream_Close, emit;
    cbv beta iota zeta).

Lemma alone_call {A} l (m : Eff Session A) st : alone (call l m) st = m st.
Proof. cbn. unfold mbind, mret. by destruct (m st). Qed.

Lemma alone_Expose name la h st : alone (p_Expose name la h) st = Expose name la h st.
Proof. destruct st as [s t]. unfold p_Expose, Expose. lockstep. Qed.

Lemma alone_forgetStream id st : alone (p_forgetStream id) st = forgetStream id st.
Proof.
  destruct st as [s t]. unfold p_forgetStream, forgetStream, forget_section. lockstep.
Qed.

Lemma alone_freshStreamID fuel target method st :
  alone (p_freshStreamID fuel target method) st = freshStreamID fuel target method st.
Proof.
  revert st. induction fuel as [|fuel IH]; intros [s t]; cbn [p_freshStreamID freshStreamID]; [done|].
  cbn. unfold mbind, get. cbn. case_match; [apply IH|done].
Qed.

Lemma alone_Dial fuel target method st :
  alone (p_Dial fuel target method) st = Session_Dial fuel target method st.
Proof.
  destruct st as [s t]. unfold p_Dial, Session_Dial. cbn. unfold mbind, get.
  destruct (net_open t (s_conn s)) as [c|e]; [|done]. rewrite alone_pbind, <- alone_freshStreamID.
  unfold mbind. destruct (alone (p_freshStreamID _ _ _) _) as [[id|] [s1 t1]]; [|done].
  cbn. unfold mbind. destruct (p2pEnabled (s_p2p s1)); cbn; unfold mbind; lockstep.
Qed.

(** Abandoning a wrapper leaves every inner stream in place. *)
Definition same_inner (s s' : Session) : Prop :=
  forall r rs, s_store s !! r = Some rs ->
    exists rs', s_store s' !! r = Some rs' /\ g_inner (rs_guarded rs') = g_inner (rs_guarded rs).

Lemma markAbandoned_same_inner r s t :
  exists s' t', rs_markAbandoned r (s, t) = (tt, (s', t')) /\ same_inner s s'.
Proof.
  assert (forall s : Session, same_inner s s) as Hrefl by (intros s0 r0 rs0 Hr0; eauto).
  unfold rs_markAbandoned. destruct (s_store s !! r) as [rs|] eqn:Hr; [|eauto].
  destruct (markAbandoned (rs_guarded rs) (s_chans s)) as [[g h]|] eqn:Em; [|eauto].
  do 2 eexists. split; [done|]. intros r' rs' Hr'. cbn. destruct (decide (r = r')) as [<-|].
  - rewrite lookup_insert_eq. eexists. split; [done|]. simplify_eq. cbn.
    unfold markAbandoned in Em. repeat (case_match; simplify_eq/=); try done.
    by destruct (close_chan _ _); simplify_eq/=.
  - rewrite lookup_insert_ne by done. eauto.
Qed.

Lemma alone_SwapInner r st x : alone (p_SwapInner r st) x = rs_SwapInner r st x.
Proof.
  destruct x as [s t]. unfold p_SwapInner, rs_SwapInner, swap_locked, close_old, SwapInner. ps.
  destruct (s_store s !! r) as [rs|]; [|done].
  destruct (swap_section st (rs_guarded rs) (s_chans s)) as [[old ready] [g h]]. ps. cbn.
  destruct (close_ready ready h) as [h'|]; done.
Qed.

Lemma alone_Close r st : alone (p_Close r) st = rs_Close r st.
Proof.
  destruct st as [s t]. unfold p_Close, rs_Close. ps. unfold deref.
  destruct (s_store s !! r) as [rs|] eqn:Hr; [|done]. cbn [fmap option_fmap option_map].
  rewrite alone_pbind. unfold mbind. rewrite alone_forgetStream.
  assert (exists s1 t1, forgetStream (ID (rs_state rs)) (s, t) = (tt, (s1, t1)) /\ same_inner s s1)
    as (s1 & t1 & -> & H1).
  { unfold forgetStream, mbind, get, modify, mret. cbn.
    destruct (s_streams s !! ID (rs_state rs)) as [r'|].
    - destruct (markAbandoned_same_inner r' (set_streams (delete (ID (rs_state rs)) (s_streams s)) s) t)
        as (s1 & t1 & -> & H1). by exists s1, t1.
    - do 2 eexists. split; [done|]. intros ? ?. eauto. }
  ps. destruct (markAbandoned_same_inner r s1 t1) as (s2 & t2 & -> & H2). cbv beta iota. unfold inner_of.
  destruct (H1 r rs Hr) as (rs1 & Hr1 & E1). destruct (H2 r rs1 Hr1) as (rs2 & -> & E2).
  cbn. by rewrite <- E1, <- E2.
Qed.

Lemma alone_completeResume r rs st s t :
  s_store s !! r = Some rs ->
  alone (p_completeResume r st) (s, t) = completeResume (rs_state rs) st (s, t).
Proof.
  intros Hr. unfold p_completeResume, completeResume. ps.
  destruct (net_parse_frame t st) as [f|e]; [|done]. destruct (unmarshal_StreamResume f); [|done].
  ps. unfold deref. rewrite Hr. lockstep.
Qed.

Lemma alone_Resume r st : alone (p_Resume r) st = Resume r st.
Proof.
  destruct st as [s t]. unfold p_Resume, Resume, deref. ps.
  destruct (s_store s !! r) as [rs|] eqn:Hr; [|done]. ps.
  destruct (net_open t (s_conn s)) as [st|e]; [|done]. ps. rewrite Hr. ps.
  destruct (net_write_frame _ _ _ _) as [[]|e]; [|done].
  rewrite alone_pbind. ps. rewrite (alone_completeResume r rs) by done.
  destruct (completeResume (rs_state rs) st _) as [[e|] [s1 t1]]; [done|].
  rewrite alone_pbind. ps. rewrite alone_SwapInner. by destruct (rs_SwapInner r st (s1, t1)) as [[] [s2 t2]].
Qed.

Lemma alone_redial d uri addrs first st : alone (p_redial d uri addrs first) st = redial d uri addrs first st.
Proof.
  revert first st. induction addrs as [|a addrs IH]; intros first [s t]; cbn [p_redial redial]; [done|].
  ps. destruct (net_dial t d a) as [c|e]; [|apply IH]. ps.
  destruct (net_open _ c) as [ct|e]; ps; [|apply IH].
  destruct (net_write_frame _ _ _ _) as [[]|e]; ps; [|apply IH].
  destruct (net_parse_frame _ _) as [f|e]; ps; [|apply IH].
  destruct (unmarshal_HelloAck f) as [[]|e]; [done|]. ps. apply IH.
Qed.

Lemma alone_reregister names s t : alone (p_reregister names) (s, t) = reregister (s_ctrl s) names (s, t).
Proof.
  revert t. induction names as [|n names IH]; intros t; cbn [p_reregister reregister]; [done|].
  ps. destruct (net_write_frame _ _ _ _) as [[]|e]; [|done]. ps.
  destruct (net_parse_frame _ _) as [f|e]; [|done]. case_bool_decide; [apply IH|done].
Qed.

Lemma alone_resume_all rs st : alone (p_resume_all rs) st = resume_all rs st.
Proof.
  revert st. induction rs as [|r rs IH]; intros st; cbn [p_resume_all resume_all]; [done|].
  rewrite alone_pbind. ps. rewrite alone_Resume. destruct (Resume r st) as [[e|] [s1 t1]].
  - rewrite alone_pbind. ps. rewrite alone_forgetStream.
    destruct (forgetStream _ _) as [[] st2]. apply IH.
  - ps. apply IH.
Qed.

Lemma alone_swap_transport c ct s t :
  alone (p_swap_transport c ct) (s, t) = (tt, (set_transport c ct s, t)).
Proof. done. Qed.

Lemma alone_Reconnect addrs st : alone (p_Reconnect addrs) st = Reconnect addrs st.
Proof.
  destruct st as [s t]. unfold p_Reconnect, Reconnect. destruct addrs as [|a addrs]; [done|].
  ps. rewrite alone_pbind. ps. rewrite alone_redial.
  destruct (redial _ _ _ _ _) as [[[c ct]|e] [s1 t1]]; [|done]. rewrite alone_pbind. ps.
  rewrite alone_swap_transport.
  unfold exposed_names. ps. destruct (map_order _ _) as [names [s2 t2]] eqn:Em. rewrite alone_pbind. ps.
  rewrite alone_reregister.
  unfold map_order in Em. injection Em as _ <- _.
  destruct (reregister _ _ _) as [[e|] st3]; [done|]. ps.
  destruct (ActiveStreams st3) as [l st4]. rewrite alone_pbind. ps.
  rewrite alone_resume_all. by destruct (resume_all l st4).
Qed.

(** ** Incoming streams *)
Lemma set_p2p_id s : set_p2p (s_p2p s) s = s.
Proof. by destruct s. Qed.

Lemma alone_receive polls ch s t :
  alone (p_receive polls ch) (s, t) =
    match receiveMode ch (bool_decide (polls = 0%nat)) (s_p2p s) with
    | Some (n, p) => (n, (set_p2p p s, t))
    | None => (None, (s, t))
    end.
Proof.
  induction polls as [|polls IH]; cbn [p_receive]; ps; unfold receive_mode; [done|].
  rewrite (bool_decide_eq_false_2 (S polls = 0%nat)) by done.
  destruct (receiveMode ch false (s_p2p s)) as [[n p]|] eqn:E; [done|]. rewrite IH.
  case_bool_decide; [|by rewrite E]. cbn. by rewrite set_p2p_id.
Qed.

Lemma alone_wait_mode polls id st :
  alone (p_wait_mode polls id) st = wait_mode id [] (bool_decide (polls = 0%nat)) st.
Proof.
  destruct st as [s t]. unfold p_wait_mode, wait_mode, WaitForStreamMode. ps.
  change (apply_ops [] (s_p2p s)) with (s_p2p s).
  destruct (mlookup (pendingMode (s_p2p s)) id) as [ch|]; [|by destruct s].
  rewrite alone_pbind. ps. rewrite alone_receive.
  by destruct (receiveMode ch (bool_decide (polls = 0%nat)) (s_p2p s)) as [[n p]|].
Qed.

Lemma alone_bridge_wrapped r st b x : alone (p_bridge_wrapped r st b) x = bridge_wrapped r st b x.
Proof.
  destruct x as [s t]. unfold p_bridge_wrapped, bridge_wrapped. ps. rewrite alone_pbind. ps.
  rewrite alone_Close. by destruct (rs_Close _ _) as [[] [s1 t1]].
Qed.

Lemma alone_serve r st b g x : alone (p_serve r st b g) x = serve r st b g x.
Proof.
  destruct x as [s t]. unfold p_serve, serve. ps. destruct g as [g|]; [|apply alone_bridge_wrapped]. ps.
  destruct (forwardTLS s); [|apply alone_bridge_wrapped]. ps.
  destruct (AcceptForward (Some g) (s, t)) as [[fs|e] [s1 t1]]; [|ps; by destruct (Backend_Close b _)].
  ps. by destruct (release _ _ _) as [[] st1].
Qed.

Lemma alone_handleIncoming polls st x :
  alone (p_handleIncoming polls st) x = handleIncoming st [] (bool_decide (polls = 0%nat)) x.
Proof.
  destruct x as [s t]. unfold p_handleIncoming, handleIncoming. ps.
  destruct (net_parse_frame t st) as [f|e]; [|done]. destruct (negb _); [done|].
  destruct (unmarshal_IncomingStream f) as [inc|e]; [|done]. ps.
  destruct (s_handlers s !! in_TargetService inc) as [h|]; [|done]. ps.
  destruct (call_handler h inc _) as [[b|e] [s1 t1]]; [|done]. ps.
  rewrite alone_pbind. ps.
  destruct (p2pEnabled (s_p2p s1)) eqn:Hena; cbn [alone call]; ps; unfold register_mode, cancel_mode; ps.
  all: destruct (net_write_frame _ _ _ _) as [[]|e]; ps.
  - destruct (wrapStream _ _ _) as [r y1]. rewrite alone_pbind. ps. rewrite alone_wait_mode.
    destruct (wait_mode _ _ _ _) as [g y2]. rewrite alone_pbind. ps. rewrite alone_serve.
    destruct (serve _ _ _ _ _) as [[] y3]. apply alone_Close.
  - by destruct (Backend_Close b _) as [[] [s2 t2]].
  - destruct (wrapStream _ _ _) as [r y1]. rewrite alone_pbind. ps. rewrite alone_serve.
    destruct (serve _ _ _ _ _) as [[] y3]. apply alone_Close.
  - by destruct (Backend_Close b _) as [[] [s2 t2]].
Qed.

(** ** The control reader *)
Lemma alone_punch_loop sock cands st : alone (p_punch_loop sock cands) st = punch_loop sock cands st.
Proof.
  revert st. induction cands as [|c cands IH]; intros st; cbn [p_punch_loop punch_loop]; [done|].
  rewrite alone_pbind. ps. destruct (punch_target c) as [a|]; ps; [|apply IH].
  destruct (Datagram sock [0] a st) as [[] st1]; apply IH.
Qed.

Lemma alone_warmupPunch id cands st : alone (p_warmupPunch id cands) st = warmupPunch id cands st.
Proof.
  destruct st as [s t]. unfold p_warmupPunch, warmupPunch. ps.
  destruct (s_dialer s) as [[]|]; try done. apply alone_punch_loop.
Qed.

Lemma alone_writeCtrl typ m st : alone (p_writeCtrl typ m) st = writeCtrl typ m st.
Proof. destruct st as [s t]. unfold p_writeCtrl, writeCtrl. ps. done. Qed.

Lemma alone_deliverAnswer a s t :
  alone (p_deliverAnswer a) (s, t) = (tt, (set_p2p (deliverAnswer a (s_p2p s)) s, t)).
Proof.
  unfold p_deliverAnswer, take_answer, deliverAnswer. ps.
  destruct (mlookup (pendingAnswers (s_p2p s)) (an_StreamId a)); [done|]. cbn. by rewrite set_p2p_id.
Qed.

Lemma alone_deliverMode id n s t :
  alone (p_deliverMode id n) (s, t) = (tt, (set_p2p (deliverMode id n (s_p2p s)) s, t)).
Proof.
  unfold p_deliverMode, deliverMode. ps.
  destruct (mlookup (pendingMode (s_p2p s)) id); [done|]. cbn. by rewrite set_p2p_id.
Qed.

Lemma alone_control_frame f st : alone (p_control_frame f) st = control_frame f st.
Proof.
  destruct st as [s t]. unfold p_control_frame, control_frame.
  destruct (f_Type f) eqn:Ht; try done.
  - destruct (unmarshal_StreamReady f); [apply alone_deliverMode|done].
  - destruct (unmarshal_AllocGranted f); [apply alone_deliverMode|done].
  - destruct (unmarshal_StreamCheckpoint f) as [cp|e]; [|done]. ps. unfold applyCheckpoint.
    destruct (s_streams s !! cp_StreamId cp) as [r|]; [|done]. ps. unfold update_state.
    by destruct (s_store s !! r).
  - destruct (unmarshal_CandidateOffer f) as [o|e]; [|done]. ps. rewrite alone_pbind. ps.
    rewrite alone_writeCtrl. destruct (writeCtrl _ _ _) as [[] st1]; apply alone_warmupPunch.
  - destruct (unmarshal_CandidateAnswer f); [apply alone_deliverAnswer|done].
Qed.

Lemma alone_controlReader fuel st : alone (p_controlReader fuel) st = controlReader fuel st.
Proof.
  revert st. induction fuel as [|fuel IH]; intros [s t]; cbn [p_controlReader controlReader]; [done|].
  ps. destruct (net_parse_frame t (s_ctrl s)) as [f|e]; [|done]. rewrite alone_pbind. ps.
  rewrite alone_control_frame. destruct (control_frame f _) as [[] st1].
  destruct (undecodable f); [apply IH|]. ps. destruct (ctx_Err st1) as [[e|] st2]; [done|apply IH].
Qed.

Lemma alone_StartResume fuel ctx period ms st :
  alone (p_StartResume fuel ctx period ms) st = StartResume ctx period ms st.
Proof.
  destruct st as [s t]. unfold p_StartResume, p_EnableP2P, StartResume, enable_section. ps.
  destruct (EnableP2P ctx (s_p2p s)) as [[] p]; done.
Qed.

(** ** Direct migration *)
Lemma alone_MigrateToDirect rs c st : alone (p_MigrateToDirect rs c) st = MigrateToDirect rs c st.
Proof.
  destruct st as [s t]. unfold p_MigrateToDirect, MigrateToDirect, held_ref. ps.
  destruct rs as [r|]; [|done]. cbn [base.mbind option_bind]. ps.
  destruct (s_store s !! r) as [rs|] eqn:Hr; [|done]. ps.
  destruct c as [c|]; [|done]. ps. destruct (net_open t c) as [st|e]; [|done]. ps. rewrite Hr. ps.
  destruct (net_write_frame _ _ _ _) as [[]|e]; [|done].
  rewrite alone_pbind. ps. rewrite alone_SwapInner. by destruct (rs_SwapInner r st _) as [[] [s2 t2]].
Qed.

Lemma alone_handleDirectStream st x : alone (p_handleDirectStream st) x = handleDirectStream st x.
Proof.
  destruct x as [s t]. unfold p_handleDirectStream, handleDirectStream. ps.
  destruct (net_parse_frame t st) as [f|e]; [|done]. destruct (negb _); [done|].
  destruct (unmarshal_StreamResume f) as [m|e]; [|done]. ps.
  destruct (s_streams s !! sr_StreamId m) as [r|]; [|done]. cbn [base.mbind option_bind]. ps.
  destruct (s_store s !! r) as [rs|]; [|done]. ps.
  destruct (RetransmitFrom _ _) as [gap|e]; [|done]. destruct (length gap) as [|n]; [apply alone_SwapInner|].
  cbn [Nat.ltb Nat.leb]. unfold Stream_Write. ps.
  match goal with |- context [net_write ?x st gap] => destruct (net_write x st gap) as [n' [e|]] end;
    ps; [done|].
  apply alone_SwapInner.
Qed.

Lemma alone_acceptDirectStreams fuel c st :
  alone (p_acceptDirectStreams fuel c) st = acceptDirectStreams fuel c st.
Proof.
  revert st. induction fuel as [|fuel IH]; intros st;
    cbn [p_acceptDirectStreams acceptDirectStreams]; [done|].
  ps. destruct (Conn_AcceptStream c st) as [[x|e] [s1 t1]]; [|done]. ps. apply IH.
Qed.

Lemma alone_AcceptDirect fuel ln st : alone (p_AcceptDirect fuel ln) st = AcceptDirect fuel ln st.
Proof.
  revert st. induction fuel as [|fuel IH]; intros [s t]; cbn [p_AcceptDirect AcceptDirect]; [done|].
  ps. unfold Listener_Accept, history. destruct (ln t) as [c|e]; ps; [apply IH|].
  unfold ctx_Err. by destruct (net_ctx_done t).
Qed.

(** ** Promotion *)
Lemma alone_recv_answer polls ch s t :
  alone (p_recv_answer polls ch) (s, t) =
  recv_answer ch [] (if decide (polls = 0%nat) then Some (Sentinel DeadlineExceeded) else None) (s, t).
Proof.
  unfold recv_answer. change (apply_ops [] (s_p2p s)) with (s_p2p s).
  induction polls as [|polls IH]; cbn [p_recv_answer]; ps; unfold receive_answer; [done|].
  rewrite decide_False by done.
  destruct (recvAnswer ch None (s_p2p s)) as [[[a|e] p]|] eqn:E; [done..|]. rewrite IH.
  case_decide; [|by rewrite E]. cbn. by rewrite set_p2p_id.
Qed.

Lemma alone_check_loop e locals sorted st :
  alone (p_check_loop e locals sorted) st = check_loop e locals sorted st.
Proof.
  revert st. induction sorted as [|r sorted IH]; intros [s t]; cbn [p_check_loop check_loop]; [done|].
  destruct (negb _); [apply IH|]. ps. destruct (net_dial _ _ _) as [c|e']; [done|]. ps.
  destruct (ctx_Err _) as [[e''|] st1]; [done|apply IH].
Qed.

Lemma alone_locals opt hp ifs s t :
  alone (p_locals opt hp ifs) (s, t) = (choose_locals opt (localCandidates (s_p2p s)) ifs hp, (s, t)).
Proof. by destruct opt. Qed.

Lemma alone_Promote polls r eng opt hp ifs st :
  alone (p_Promote polls r eng opt hp ifs) st =
  Promote r eng opt hp ifs [] (if decide (polls = 0%nat) then Some (Sentinel DeadlineExceeded) else None) st.
Proof.
  destruct st as [s t]. unfold p_Promote, Promote. ps.
  destruct (s_store s !! r) as [rs|]; [|done]. destruct eng as [eng|]; [|done]. ps.
  unfold register_answer, registerAnswerWaiter.
  destruct (pendingAnswers (s_p2p s)) as [m|] eqn:Ea; [|done].
  cbn [base.mbind option_bind]. rewrite bool_decide_eq_true_2 by done. cbn [negb]. ps. rewrite Ea.
  cbn [base.mbind option_bind].
  rewrite alone_pbind. ps. rewrite alone_locals.
  cbn [localCandidates s_p2p set_p2p]. destruct (choose_locals _ _ _ _) as [locals|]; [|done].
  unfold p_Promoter_Run, Promoter_Run. cbn [pr_Engine pr_SendOffer pr_RecvAnswer pr_SendMigrate pr_StreamID pr_Locals].
  rewrite alone_pbind. ps. rewrite alone_writeCtrl.
  destruct (writeCtrl _ _ _) as [[e|] [s2 t2]]; [done|]. rewrite alone_pbind. ps. rewrite alone_recv_answer.
  destruct (recv_answer _ _ _ _) as [[[answer|]|e] [s3 t3]]; [|done..].
  destruct (negb _); [done|]. destruct (FromPB _) as [remotes|]; [|done].
  rewrite alone_pbind. ps. rewrite alone_check_loop. unfold Check.
  destruct (check_loop _ _ _ _) as [[res|e] st4]; [|done]. rewrite alone_pbind. ps. rewrite alone_writeCtrl.
  by destruct (writeCtrl _ _ _) as [e st5].
Qed.

(** ** The loops *)
Lemma alone_Run polls fuel st : alone (p_Run polls fuel) st = Run fuel st.
Proof.
  revert st. induction fuel as [|fuel IH]; intros [s t]; cbn [p_Run Run]; [done|].
  ps. destruct (Conn_AcceptStream (s_conn s) _) as [[x|e] [s1 t1]]; ps; [apply IH|].
  by destruct (errors_Is e Canceled).
Qed.

Lemma alone_reconnect_loop fuel addrs b st :
  alone (p_reconnect_loop fuel addrs b) st = reconnect_loop fuel addrs b st.
Proof.
  revert b st. induction fuel as [|fuel IH]; intros b st;
    cbn [p_reconnect_loop reconnect_loop]; [done|].
  rewrite alone_pbind. ps. rewrite alone_Reconnect. destruct (Reconnect addrs st) as [[e|] [s1 t1]]; ps.
  - destruct (sleep b _) as [[] st2]; [done|apply IH].
  - by destruct (restartControlReaderIfEnabled (s_p2p s1)).
Qed.

Lemma alone_RunWithReconnect polls fuel addrs st :
  alone (p_RunWithReconnect polls fuel addrs) st = RunWithReconnect fuel addrs st.
Proof.
  revert st. induction fuel as [|fuel IH]; intros st;
    cbn [p_RunWithReconnect RunWithReconnect]; [done|].
  rewrite alone_pbind. ps. rewrite alone_Run.
  destruct (Run fuel st) as [[[e|]|] [s1 t1]]; [|done..]. destruct (errors_Is e Canceled); [done|]. ps.
  rewrite alone_pbind. ps. rewrite alone_reconnect_loop.
  destruct (reconnect_loop _ _ _ _) as [[[]|] [s2 t2]]; [|done..]. ps. apply IH.
Qed.

(** ** Calls *)
Lemma alone_goroutine {A} (p : prog Session A) (m : Eff Session A) st :
  (forall x, alone p x = m x) -> alone (goroutine p) st = mbind m (fun _ => mret tt) st.
Proof. intros Hp. unfold goroutine. rewrite alone_pbind. ps. rewrite Hp. by destruct (m st). Qed.

Lemma alone_CloseWrite has_cw r st : alone (p_CloseWrite has_cw r) st = rs_CloseWrite has_cw r st.
Proof.
  destruct st as [s t]. unfold p_CloseWrite, rs_CloseWrite. ps.
  destruct (s_store s !! r) as [rs|]; [|done]. cbn. by destruct (has_cw _).
Qed.

(** The operation a call performs; a wait for the mode signal that is never
    polled is one whose context ends first. *)
Definition op_of (c : session_call) : session_op :=
  match c with
  | CExpose name la h => SOExpose name la h
  | CDial fuel target method => SODial fuel target method
  | CIncoming polls st => SOIncoming st [] (bool_decide (polls = 0%nat))
  | CResume r => SOResume r
  | CClose r => SOClose r
  | CCloseWrite has_cw r => SOCloseWrite has_cw r
  | CSwapConn c => SOSwapConn c
  | CForwardTLS c => SOForwardTLS c
  | CForget id => SOForget id
  | CReconnect addrs => SOReconnect addrs
  | CRun _ fuel => SORun fuel
  | CRetry _ fuel addrs => SORetry fuel addrs
  | CControl fuel => SOControl fuel
  | CStartResume _ ctx period ms => SOStartResume ctx period ms
  | CMigrate r c => SOMigrate r c
  | CDirect st => SODirect st
  | CAcceptDirect fuel ln => SOAcceptDirect fuel ln
  | CTransfer r n p => SOTransfer r n p
  | CP2P o => SOP2P o
  end.

Lemma update_state_twice r f g s :
  update_state r g (update_state r f s) = update_state r (fun st => g (f st)) s.
Proof.
  unfold update_state. destruct (s_store s !! r) as [rs|] eqn:Hr; [|by rewrite Hr]. cbn.
  rewrite lookup_insert_eq. cbn. unfold set_store. cbn. by rewrite insert_insert_eq.
Qed.

Lemma alone_when_wrapper r p m s t :
  (forall x, alone p x = m x) ->
  alone (when_wrapper r p) (s, t) = match s_store s !! r with Some _ => m (s, t) | None => (tt, (s, t)) end.
Proof. intros Hp. unfold when_wrapper. ps. destruct (s_store s !! r); [apply Hp|done]. Qed.

Lemma alone_p2p_op o s t :
  alone (p_p2p_op o) (s, t) = (tt, (set_p2p (apply_op o (s_p2p s)) s, t)).
Proof.
  destruct o; cbn [p_p2p_op]; try done; [apply alone_deliverAnswer|apply alone_deliverMode|].
  ps. cbn [apply_op]. unfold WaitForStreamMode, receive_mode.
  destruct (mlookup (pendingMode (s_p2p s)) id) as [ch|]; [|by rewrite set_p2p_id]. ps.
  destruct (receiveMode ch ctxDone (s_p2p s)) as [[n p]|]; [done|]. cbn. by rewrite set_p2p_id.
Qed.

Lemma alone_p_call c st : alone (p_call c) st = run_op (op_of c) st.
Proof.
  destruct c; cbn [p_call run_op op_of].
  - apply alone_goroutine, alone_Expose.
  - apply alone_goroutine, alone_Dial.
  - apply alone_handleIncoming.
  - destruct st as [s t]. rewrite (alone_when_wrapper r _ (mbind (Resume r) (fun _ => mret tt))).
    + ps. by destruct (s_store s !! r).
    + intros x. apply alone_goroutine, alone_Resume.
  - apply alone_Close.
  - apply alone_CloseWrite.
  - apply alone_call.
  - apply alone_call.
  - apply alone_forgetStream.
  - apply alone_goroutine, alone_Reconnect.
  - apply alone_goroutine. intros x. apply alone_Run.
  - apply alone_goroutine. intros x. apply alone_RunWithReconnect.
  - apply alone_goroutine, alone_controlReader.
  - apply alone_StartResume.
  - destruct st as [s t].
    rewrite (alone_when_wrapper r _ (mbind (MigrateToDirect (Some r) (Some c)) (fun _ => mret tt))).
    + ps. by destruct (s_store s !! r).
    + intros x. apply alone_goroutine. intros y. apply alone_MigrateToDirect.
  - apply alone_handleDirectStream.
  - apply alone_goroutine, alone_AcceptDirect.
  - destruct st as [s t]. ps. by rewrite update_state_twice.
  - destruct st as [s t]. apply alone_p2p_op.
Qed.

Fixpoint ops_of (cs : list session_call) : list session_op :=
  match cs with
  | [] => []
  | c :: cs' => op_of c :: ops_of cs'
  end.
End FineEq.

(** ** Properties *)

