(* ===== verification/ConcInv.v ===== *)
(** * The session under every interleaving

    The rely-guarantee logic of [Conc] for the session's goroutines: whatever
    the scheduler does between two of their calls, the session invariant
    holds, nobody panics, and a stream that was closed stays closed. *)

From S2P Require Import Prelude Netip Orp Tls Resume StreamSwap Waiters Forward Session SessionInv.
From S2P Require Import Dialing Reconnect Incoming P2P Promote Safety Conc Fine.

Local Open Scope prog_scope.

Section ConcInv.
Context `{N : Net} `{Sp : ResumeSpec}.

(** ** What a step may do to the session *)

(** Wrappers stay, keep their id and stay abandoned; only a new wrapper is
    registered. *)
Record evolves (s s' : Session) : Prop := {
  ev_store : forall r rs, s_store s !! r = Some rs ->
    exists rs', s_store s' !! r = Some rs' /\ ID (rs_state rs') = ID (rs_state rs) /\
      (g_abandoned (rs_guarded rs) = true -> g_abandoned (rs_guarded rs') = true);
  ev_next : (s_next s <= s_next s')%nat;
  ev_streams : forall id r, s_streams s' !! id = Some r ->
    s_streams s !! id = Some r \/ (s_next s <= r)%nat;
  ev_p2p : p2p_evolves (s_p2p s) (s_p2p s')
}.

#[export] Instance evolves_preorder : PreOrder evolves.
Proof.
  split.
  - intros s. constructor; eauto. reflexivity.
  - intros s1 s2 s3 [A1 A2 A3 A4] [B1 B2 B3 B4]. constructor; [|lia| |by etrans].
    + intros r rs Hr. destruct (A1 r rs Hr) as (rs2 & H2 & E2 & Hb2).
      destruct (B1 r rs2 H2) as (rs3 & H3 & E3 & Hb3). exists rs3. split_and!; [done|congruence|auto].
    + intros id r [Hr|?]%B3; [|right; lia]. destruct (A3 id r Hr); [auto|right; lia].
Qed.

(** A channel that no wrapper knows and nobody has closed: a [SwapInner] is
    about to close it. *)
Definition orphan (ch : nat) (s : Session) : Prop :=
  (ch < ch_next (s_chans s))%nat /\ (ch ∉ ch_closed (s_chans s)) /\
  forall r rs, s_store s !! r = Some rs -> g_resumeReady (rs_guarded rs) <> Some ch.

(** A wrapper's channel. *)
Definition current (ch : nat) (s : Session) : Prop :=
  exists r rs, s_store s !! r = Some rs /\ g_resumeReady (rs_guarded rs) = Some ch.

(** The state of a session some of whose channels are owned. *)
Definition inv (o : gset nat) (s : Session) : Prop := session_wf s /\ forall ch, ch ∈ o -> orphan ch s.

(** What a step does that touches no orphan. *)
Definition tidy (s s' : Session) : Prop := evolves s s' /\ forall ch, orphan ch s -> orphan ch s'.

Lemma tidy_refl s : tidy s s.
Proof. by split. Qed.

Lemma orphan_kept s s' ch :
  (ch_next (s_chans s) <= ch_next (s_chans s'))%nat ->
  (forall c, c ∈ ch_closed (s_chans s') -> c ∈ ch_closed (s_chans s) \/ current c s) ->
  (forall c, current c s' -> (ch_next (s_chans s) <= c)%nat \/ current c s) ->
  orphan ch s -> orphan ch s'.
Proof.
  intros Hn Hc Hr (Hlt & Hcl & Hno).
  assert (~ current ch s) as Hcur by (intros (r & rs & ? & ?); by eapply Hno).
  split_and!; [lia|intros [|]%Hc; done|].
  intros r rs Hrs Hch. destruct (Hr ch) as [|]; [by exists r, rs|lia|done].
Qed.

Lemma evolves_fields s s' :
  s_store s' = s_store s -> s_next s' = s_next s -> s_streams s' ⊆ s_streams s ->
  p2p_evolves (s_p2p s) (s_p2p s') -> evolves s s'.
Proof.
  intros E1 E2 E3 E4. constructor; rewrite ?E1, ?E2; [eauto|done| |done].
  intros id r Hr. left. by eapply lookup_weaken.
Qed.

Lemma tidy_fields s s' :
  s_store s' = s_store s -> s_next s' = s_next s -> s_chans s' = s_chans s ->
  s_streams s' ⊆ s_streams s -> p2p_evolves (s_p2p s) (s_p2p s') -> tidy s s'.
Proof.
  intros E1 E2 E3 E4 E5. split; [by apply evolves_fields|]. intros ch. unfold orphan. by rewrite E1, E3.
Qed.

Lemma evolves_insert r rs rs' h s :
  s_store s !! r = Some rs -> ID (rs_state rs') = ID (rs_state rs) ->
  (g_abandoned (rs_guarded rs) = true -> g_abandoned (rs_guarded rs') = true) ->
  evolves s (set_store (<[r := rs']> (s_store s)) h s).
Proof.
  intros Hr Hid Ha. constructor; cbn; [|done|auto|reflexivity]. intros r0 rs0 Hr0.
  destruct (decide (r = r0)) as [<-|].
  - rewrite lookup_insert_eq. simplify_eq. eauto.
  - rewrite lookup_insert_ne by done. eauto.
Qed.

Lemma evolves_update_state r f s : (forall st, ID (f st) = ID st) -> evolves s (update_state r f s).
Proof.
  intros Hf. unfold update_state. destruct (s_store s !! r) as [rs|] eqn:Hr; [|reflexivity].
  by eapply evolves_insert; [done|cbn; rewrite Hf|].
Qed.

Lemma current_insert r rs rs' h s ch :
  s_store s !! r = Some rs -> current ch (set_store (<[r := rs']> (s_store s)) h s) ->
  g_resumeReady (rs_guarded rs') = Some ch \/ current ch s.
Proof.
  intros Hr (r0 & rs0 & H0 & Hch). cbn in H0. destruct (decide (r = r0)) as [<-|].
  - rewrite lookup_insert_eq in H0. injection H0 as <-. auto.
  - rewrite lookup_insert_ne in H0 by done. right. by exists r0, rs0.
Qed.

Lemma tidy_update_state r f s : (forall st, ID (f st) = ID st) -> tidy s (update_state r f s).
Proof.
  intros Hf. split; [by apply evolves_update_state|]. intros ch. unfold update_state.
  destruct (s_store s !! r) as [rs|] eqn:Hr; [|done]. apply orphan_kept; cbn; auto.
  intros c [Hc|?]%(current_insert r rs); [|by right|done]. right. by exists r, rs.
Qed.

(** Wrapper references a goroutine holds. *)
Definition held (rs : list nat) (s : Session) : Prop := Forall (fun r => is_Some (s_store s !! r)) rs.

Lemma held_evolves rs s s' : evolves s s' -> held rs s -> held rs s'.
Proof.
  intros He Hh. eapply Forall_impl; [exact Hh|]. intros r [w Hr].
  destruct (ev_store _ _ He r w Hr) as (w' & -> & _). eauto.
Qed.

Lemma held_registered s : session_wf s -> held (map snd (map_to_list (s_streams s))) s.
Proof.
  intros Hwf. apply Forall_forall. intros r Hr. apply list_elem_of_fmap in Hr as ([id r'] & -> & Hr).
  apply elem_of_map_to_list in Hr. by destruct (swf_streams s Hwf id r' Hr) as (rs & H & _); exists rs.
Qed.

(** ** Safe programs *)
Definition no_panic (e : event) : Prop := e <> EvPanic.

Abbreviation swp := (wp inv evolves no_panic).

Lemma sees_wf o s : sees inv o s -> session_wf s.
Proof. by intros (F & _ & Hwf & _). Qed.

Lemma elem_of_union_empty (ch : nat) : ch ∈ (∅ ∪ ∅ : gset nat) -> False.
Proof. by intros [?%elem_of_empty|?%elem_of_empty]%elem_of_union. Qed.

Lemma sees_nothing s : session_wf s -> sees inv ∅ s.
Proof. intros Hwf. exists ∅. split; [set_solver|]. split; [done|]. by intros ch ?%elem_of_union_empty. Qed.

(** Safe in any environment, with the references [rs]. *)
Definition safe {A} (rs : list nat) (p : prog Session A) : Prop :=
  forall s, session_wf s -> held rs s -> swp p ∅ s (fun _ o _ => o = ∅).

(** An action that leaves what anybody owns as it is. *)
Definition saction {A} (m : Eff Session A) (s : Session) (Q : A -> Session -> Prop) : Prop :=
  forall t, let '(a, (s', t')) := m (s, t) in
    (exists ext, t' = t ++ ext /\ Forall no_panic ext) /\ session_wf s' /\ tidy s s' /\ Q a s'.

Lemma saction_action {A} (m : Eff Session A) o s Q :
  saction m s Q -> action inv evolves no_panic m o s (fun a o' s' => o' = o /\ Q a s').
Proof.
  intros Hm F t HF [Hwf Ho]. specialize (Hm t). destruct (m (s, t)) as [a [s' t']].
  destruct Hm as (? & ? & [? Htidy] & ?). split_and!; [done..|]. exists o. split_and!; try done.
  split; [done|]. intros ch Hch. by apply Htidy, Ho.
Qed.

(** A call is an action when what it does to the state is allowed. *)
Lemma action_run {A} (m : Eff Session A) s (Q0 : A -> Session -> trace -> Prop) Q :
  run_ok m s Q0 -> (forall a s' ext, Q0 a s' ext -> tidy s s' /\ Q a s') -> saction m s Q.
Proof.
  intros Hm HQ t. specialize (Hm t). destruct (m (s, t)) as [a [s' t']].
  destruct Hm as (ext & -> & Hwf & _ & Hp & H0). destruct (HQ a s' ext H0). split_and!; try done.
  exists ext. split; [done|]. apply Forall_forall. by intros e He ->.
Qed.

(** Calls that are safe in every state. *)
Definition fine_call {A} (rs : list nat) (m : Eff Session A) : Prop :=
  forall s, session_wf s -> held rs s -> saction m s (fun _ _ => True).

Lemma safe_done {A} rs (a : A) : safe rs (Done a).
Proof. done. Qed.

Lemma wp_act {A B} l (m : Eff Session A) (f : A -> prog Session B) s Q1 Q :
  (forall s', session_wf s' -> evolves s s' -> saction m s' Q1) ->
  (forall a s', session_wf s' -> evolves s s' -> Q1 a s' -> swp (f a) ∅ s' Q) ->
  swp (let! a <- call l m ; f a) ∅ s Q.
Proof.
  intros Hm Hf s' Hsee He. specialize (Hm s' (sees_wf _ _ Hsee) He).
  intros F t HF HI. pose proof (saction_action m ∅ s' Q1 Hm F t HF HI) as H.
  destruct (m (s', t)) as [a [s'' t'']]. destruct H as (? & ? & o' & ? & HI' & -> & ?).
  split_and!; [done..|]. exists ∅. split_and!; [done..|]. apply Hf; [apply HI'|by etrans|done].
Qed.

Lemma safe_call {A B} rs rs' l (m : Eff Session A) (f : A -> prog Session B) :
  (forall s, session_wf s -> held rs s ->
     saction m s (fun a s' => held (rs' a) s' /\ safe (rs' a) (f a))) ->
  safe rs (let! a <- call l m ; f a).
Proof.
  intros Hm s Hwf Hh. eapply wp_act; [|].
  - intros s' Hwf' He. apply Hm; [done|]. by eapply held_evolves.
  - cbn. intros a s' Hwf' He [Hh' Hs]. by apply Hs.
Qed.

Lemma safe_act {A} rs l (m : Eff Session A) : fine_call rs m -> safe rs (call l m).
Proof.
  intros Hm. change (call l m) with (let! a <- call l m ; Done a).
  apply (safe_call _ (fun _ => rs)). intros s Hwf Hh t. pose proof (Hm s Hwf Hh t) as H.
  destruct (m (s, t)) as [a [s' t']]. destruct H as (? & ? & Ht & _). split_and!; try done.
  eapply held_evolves; [apply Ht|done].
Qed.

Lemma safe_bind {A B} rs (p : prog Session A) (f : A -> prog Session B) :
  safe rs p -> (forall a, safe rs (f a)) -> safe rs (pbind p f).
Proof.
  intros Hp Hf s Hwf Hh. apply wp_pbind; [exact _|by apply sees_nothing|].
  eapply wp_mono; [exact _| |by apply Hp]. cbn. intros a o s' Hsee He ->.
  apply Hf; [by eapply sees_wf|by eapply held_evolves].
Qed.

(** Reading the session tells which wrappers there are. *)
Lemma safe_gets {A B} rs l (g : Session -> A) (f : A -> prog Session B) :
  (forall s, session_wf s -> held rs s -> exists rs', held rs' s /\ safe rs' (f (g s))) ->
  safe rs (let! a <- call l (gets g) ; f a).
Proof.
  intros Hf s Hwf Hh.
  apply (wp_act _ _ _ _ (fun a s' => exists rs', held rs' s' /\ safe rs' (f a))).
  - intros s' Hwf' He t. cbn. split_and!; [|done|apply tidy_refl|by apply Hf; [|by eapply held_evolves]].
    exists []. by rewrite app_nil_r.
  - intros a s' Hwf' He (rs' & Hh' & Hs). by apply Hs.
Qed.

Lemma safe_go {A} rs w (p : prog Session unit) (k : prog Session A) :
  safe rs p -> safe rs k -> safe rs (Go w p k).
Proof.
  intros Hp Hk s Hwf Hh. split_and!; [done| |by apply Hk].
  intros s' Hsee He. eapply wp_mono; [exact _| |apply Hp]; [done|by eapply sees_wf|by eapply held_evolves].
Qed.

Lemma safe_weaken {A} rs rs' (p : prog Session A) : rs' ⊆ rs -> safe rs' p -> safe rs p.
Proof.
  intros Hs Hp s Hwf Hh. apply Hp; [done|]. unfold held in *. rewrite Forall_forall in *. auto.
Qed.

(** ** The calls *)
Lemma fine_run {A} rs (m : Eff Session A) (Q : Session -> A -> Session -> trace -> Prop) :
  (forall s, session_wf s -> run_ok m s (Q s)) ->
  (forall s a s' ext, session_wf s -> Q s a s' ext -> tidy s s') -> fine_call rs m.
Proof. intros Hm HQ s Hwf _. eapply action_run; [by apply Hm|]. eauto. Qed.

(** Calls that leave the session as it is. *)
Lemma fine_event {A} rs (m : Eff Session A) (ev : A -> event) :
  (forall s, session_wf s -> run_ok m s (one_event s ev)) -> fine_call rs m.
Proof. intros Hm. eapply fine_run; [exact Hm|]. cbn. intros s a s' ext _ [-> _]. apply tidy_refl. Qed.

Lemma fine_emit rs e : e <> EvPanic -> fine_call rs (emit e).
Proof. intros He. eapply fine_event. intros s Hwf. by apply run_emit. Qed.
Lemma fine_silent {A} rs (m : Eff Session A) :
  (forall s t, exists a, m (s, t) = (a, (s, t))) -> fine_call rs m.
Proof.
  intros Hm s Hwf _ t. destruct (Hm s t) as [a ->]. split_and!; [|done|apply tidy_refl|done].
  exists []. by rewrite app_nil_r.
Qed.
Lemma fine_gets {A} rs (f : Session -> A) : fine_call rs (gets f).
Proof. apply fine_silent. by eexists. Qed.
Lemma fine_ret {A} rs (a : A) : fine_call rs (mret a).
Proof. apply fine_silent. by eexists. Qed.
Lemma fine_open rs c : fine_call rs (Conn_OpenStream c).
Proof. eapply fine_event, run_open. Qed.
Lemma fine_write_frame rs st typ m : fine_call rs (WriteFrame st typ m).
Proof. eapply fine_event, run_write_frame. Qed.
Lemma fine_parse rs st : fine_call rs (ParseFrame st).
Proof. eapply fine_event, run_parse. Qed.
Lemma fine_write rs st p : fine_call rs (Stream_Write st p).
Proof. eapply fine_event, run_write. Qed.
Lemma fine_new_id rs uri target method : fine_call rs (NewStreamID uri target method).
Proof. eapply fine_event, run_new_id. Qed.
Lemma fine_accept rs c : fine_call rs (Conn_AcceptStream c).
Proof. eapply fine_event, run_accept. Qed.
Lemma fine_sleep rs d : fine_call rs (sleep d).
Proof. eapply fine_event, run_sleep. Qed.
Lemma fine_dial rs d addr : fine_call rs (Dialer_Dial d addr).
Proof. eapply fine_event, run_dial. Qed.
Lemma fine_handler rs h inc : fine_call rs (call_handler h inc).
Proof. eapply fine_event. intros s Hwf. by apply run_handler. Qed.
Lemma fine_release rs k id : fine_call rs (release k id).
Proof. eapply fine_event. intros s Hwf. by apply run_release. Qed.
Lemma fine_datagram rs sock p addr : fine_call rs (Datagram sock p addr).
Proof. eapply fine_event. intros s Hwf. by apply run_datagram. Qed.

Lemma fine_ctx_Err rs : fine_call rs ctx_Err.
Proof. eapply fine_run; [apply run_ctx_Err|]. cbn. intros s a s' ext _ [-> _]. apply tidy_refl. Qed.
Lemma fine_writeCtrl rs typ m : fine_call rs (writeCtrl typ m).
Proof. eapply fine_run; [apply run_writeCtrl|]. cbn. intros s a s' ext _ [-> _]. apply tidy_refl. Qed.
Lemma fine_AcceptForward rs g : fine_call rs (AcceptForward g).
Proof. eapply fine_run; [apply run_AcceptForward|]. cbn. intros s a s' ext _ [-> _]. apply tidy_refl. Qed.
Lemma fine_forward_close rs f : fine_call rs (ForwardSession_Close f).
Proof. eapply fine_run; [apply run_ForwardClose|]. cbn. intros s a s' ext _ [-> _]. apply tidy_refl. Qed.

(** Calls that change the session. *)
Lemma fine_modify rs f :
  (forall s, session_wf s -> session_wf (f s)) -> (forall s, session_wf s -> tidy s (f s)) ->
  fine_call rs (modify f).
Proof.
  intros Hf He s Hwf _ t. cbn. split_and!; [|by apply Hf|by apply He|done].
  exists []. by rewrite app_nil_r.
Qed.

(** Fields that neither the invariant nor the relation look at. *)
Lemma fine_field rs f :
  (forall s, s_streams (f s) = s_streams s /\ s_store (f s) = s_store s /\ s_chans (f s) = s_chans s /\
     s_next (f s) = s_next s /\ s_p2p (f s) = s_p2p s) -> fine_call rs (modify f).
Proof.
  intros Hf. apply fine_modify; intros s Hwf; destruct (Hf s) as (E1 & E2 & E3 & E4 & E5).
  - apply (wf_same_store s); try done; [by rewrite E1|]. rewrite E5. apply Hwf.
  - apply tidy_fields; [done..|by rewrite E1|by rewrite E5].
Qed.

Lemma fine_p2p {A} rs (m : Eff Session A) (f : P2P -> P2P) :
  (forall s t, exists a, m (s, t) = (a, (set_p2p (f (s_p2p s)) s, t))) ->
  (forall p, p2p_wf p -> p2p_wf (f p)) -> (forall p, p2p_evolves p (f p)) -> fine_call rs m.
Proof.
  intros Hm Hf He s Hwf _ t. destruct (Hm s t) as [a ->]. split_and!; [|..|by apply tidy_fields|done].
  - exists []. by rewrite app_nil_r.
  - apply (wf_same_store s); try done. apply Hf, Hwf.
Qed.

Lemma fine_p2p_op rs (o : p2p_op) : fine_call rs (apply_p2p o).
Proof.
  apply (fine_p2p _ _ (apply_op o)); [by eexists|intros p; apply apply_op_wf|apply apply_op_evolves].
Qed.

Lemma fine_register rs id : fine_call rs (register_mode id).
Proof. apply (fine_p2p_op _ (OpRegisterMode id)). Qed.
Lemma fine_cancel rs id : fine_call rs (cancel_mode id).
Proof. apply (fine_p2p_op _ (OpCancelMode id)). Qed.
Lemma fine_enable rs ctx : fine_call rs (enable_section ctx).
Proof.
  apply (fine_p2p _ _ (apply_op (OpEnable ctx))); [|intros p; apply apply_op_wf|apply apply_op_evolves].
  intros s t. unfold enable_section. cbn. by eexists.
Qed.

Lemma fine_receive rs ch b : fine_call rs (receive_mode ch b).
Proof.
  intros s Hwf _ t. unfold receive_mode.
  destruct (receiveMode ch b (s_p2p s)) as [[n p]|] eqn:E.
  - split_and!; [| |apply tidy_fields; try done|done].
    + exists []. by rewrite app_nil_r.
    + apply (wf_same_store s); try done. eapply wf_receiveMode, E. apply Hwf.
    + apply p2p_evolves_answers; unfold receiveMode in E; repeat case_match; simplify_eq/=; done.
  - split_and!; [|done|apply tidy_refl|done]. exists []. by rewrite app_nil_r.
Qed.

Lemma fine_forget rs id : fine_call rs (forget_section id).
Proof.
  intros s Hwf _ t. unfold forget_section. split_and!; [| | |done].
  - exists []. by rewrite app_nil_r.
  - apply (wf_same_store s); try done; [apply delete_subseteq|apply Hwf].
  - apply tidy_fields; [done..|apply delete_subseteq|reflexivity].
Qed.

Lemma abandons_evolves r s s' : s_streams s' = s_streams s -> abandons r s s' -> evolves s s'.
Proof.
  intros Es (_ & _ & _ & Ep & _ & _ & En & Ho & Ha). constructor; rewrite ?Es, ?En, ?Ep; [|done|auto|done].
  intros r' rs Hr. destruct (decide (r' = r)) as [->|Hne].
  - destruct (Ha rs Hr) as (rs' & ? & Est & ? & _). exists rs'. by rewrite Est.
  - exists rs. by rewrite Ho.
Qed.

(** [markAbandoned] closes the wrapper's own channel. *)
Lemma markAbandoned_orphans r s t ch :
  orphan ch s -> orphan ch (fst (snd (rs_markAbandoned r (s, t)))).
Proof.
  unfold rs_markAbandoned. destruct (s_store s !! r) as [rs|] eqn:Hr; [|done].
  destruct (markAbandoned (rs_guarded rs) (s_chans s)) as [[g h]|] eqn:Em; [|done]. cbn.
  assert (g_resumeReady g = None \/ g_resumeReady g = g_resumeReady (rs_guarded rs)) as Hg.
  { unfold markAbandoned, close_chan in Em. repeat (case_match; simplify_eq/=); auto. }
  assert (ch_next h = ch_next (s_chans s) /\ forall c, c ∈ ch_closed h ->
    c ∈ ch_closed (s_chans s) \/ g_resumeReady (rs_guarded rs) = Some c) as [Hn Hc].
  { unfold markAbandoned, close_chan in Em. repeat (case_match; simplify_eq/=); split; auto.
    intros c [->%elem_of_singleton|?]%elem_of_union; auto. }
  apply orphan_kept; cbn; [lia| |].
  - intros c [?|?]%Hc; [by left|]. right. by exists r, rs.
  - intros c [E|?]%(current_insert r rs); [|by right|done]. cbn in E.
    destruct Hg as [Hg|Hg]; rewrite Hg in E; [done|]. right. by exists r, rs.
Qed.

Lemma saction_markAbandoned r s :
  session_wf s -> saction (rs_markAbandoned r) s (fun _ s' => s_streams s' = s_streams s /\ abandons r s s').
Proof.
  intros Hwf t. pose proof (run_markAbandoned r s Hwf t) as H.
  pose proof (fun ch => markAbandoned_orphans r s t ch) as Ho.
  destruct (rs_markAbandoned r (s, t)) as [[] [s' t']]. destruct H as (ext & -> & ? & _ & ? & -> & Es & Ha).
  split_and!; try done; [by exists []|]. split; [by eapply abandons_evolves|done].
Qed.

Lemma fine_markAbandoned rs r : fine_call rs (rs_markAbandoned r).
Proof.
  intros s Hwf _ t. pose proof (saction_markAbandoned r s Hwf t) as H.
  destruct (rs_markAbandoned r (s, t)) as [a [s' t']]. by destruct H as (? & ? & ? & _).
Qed.

Lemma fine_wrapStream rs id st : fine_call rs (wrapStream id st).
Proof.
  intros s Hwf _ t. pose proof (run_wrapStream id st s Hwf t) as H. cbn in *.
  destruct H as (ext & _ & Hwf' & _ & _). split_and!; [|done| |done].
  - exists []. split; [by rewrite app_nil_r|done].
  - split.
    + constructor; cbn; [|lia| |reflexivity].
      * intros r rs0 Hr. exists rs0. rewrite lookup_insert_ne; [done|].
        intros <-. assert (s_next s < s_next s)%nat by (apply (swf_next s Hwf); eauto). lia.
      * intros id' r. destruct (decide (id = id')) as [<-|].
        -- rewrite lookup_insert_eq. intros [= <-]. by right.
        -- rewrite lookup_insert_ne by done. auto.
    + intros ch. apply orphan_kept; cbn; [lia|auto|]. intros c (r & w & Hr & Hc). cbn in Hr.
      destruct (decide (s_next s = r)) as [<-|].
      * rewrite lookup_insert_eq in Hr. injection Hr as <-. cbn in Hc. injection Hc as <-. auto.
      * rewrite lookup_insert_ne in Hr by done. right. by exists r, w.
Qed.

Lemma fine_transfer rs r f : (forall st, ID (f st) = ID st) -> fine_call rs (modify (update_state r f)).
Proof.
  intros Hf. apply fine_modify; intros s Hwf; [by apply wf_update_state|by apply tidy_update_state].
Qed.

(** [deliverAnswer] in two steps. *)
Lemma fine_take_answer rs id : fine_call rs (take_answer id).
Proof.
  intros s Hwf _ t. unfold take_answer.
  destruct (mlookup (pendingAnswers (s_p2p s)) id) as [ch|].
  - split_and!; [| |apply tidy_fields; try done; apply take_answer_evolves|done].
    + exists []. by rewrite app_nil_r.
    + apply (wf_same_store s); try done. apply wf_take_answer, Hwf.
  - split_and!; [|done|apply tidy_refl|done]. exists []. by rewrite app_nil_r.
Qed.

Lemma fine_send_mode rs ch n : fine_call rs (send_mode ch n).
Proof.
  eapply (fine_p2p _ _ (fun p => mkP2P (pendingAnswers p) (pendingMode p) (localCandidates p)
    (p2pEnabled p) (p2pCtx p) (abufs p) (try_send ch n (mbufs p)) (nextbuf p))); [by eexists|..].
  - intros p Hp. apply wf_mbufs; [done|]. intros ch'. apply try_send_is_Some.
  - intros p. by apply p2p_evolves_answers.
Qed.

Lemma fine_exposed rs : fine_call rs exposed_names.
Proof. apply fine_silent. by eexists. Qed.
End ConcInv.

Create HintDb conc discriminated.
#[export] Hint Resolve fine_emit fine_gets fine_ret fine_open fine_write_frame fine_parse fine_write
  fine_new_id fine_accept fine_sleep fine_dial fine_handler fine_release fine_datagram fine_ctx_Err
  fine_AcceptForward fine_forward_close fine_register fine_cancel fine_enable fine_receive fine_forget
  fine_markAbandoned fine_wrapStream fine_exposed fine_p2p_op fine_take_answer fine_send_mode : conc.
#[export] Hint Extern 1 (fine_call _ (Stream_Close _)) => by apply fine_emit : conc.
#[export] Hint Extern 1 (fine_call _ (Conn_Close _)) => by apply fine_emit : conc.
#[export] Hint Extern 1 (fine_call _ (Backend_Close _)) => by apply fine_emit : conc.
#[export] Hint Extern 2 (_ <> EvPanic) => discriminate : conc.

(** Walk a program whose every call is safe; [calls] stops where the session
    is read, both stop where the wrappers are listed. *)
Ltac calls :=
  repeat match goal with
    | |- safe _ (pbind (call _ (gets _)) _) => fail 1
    | |- safe _ (pbind (call _ ActiveStreams) _) => fail 1
    | |- safe _ (Done _) => apply safe_done
    | |- safe _ (Go _ _ _) => apply safe_go
    | |- safe _ (pbind _ _) => apply safe_bind; [|intros ?]
    | |- safe _ (call _ _) => apply safe_act; solve [auto with conc]
    | |- safe _ (match ?x with _ => _ end) => destruct x
    | |- safe _ _ => solve [auto with conc]
    end.
Ltac safely :=
  repeat first [progress calls
    | match goal with |- safe _ (pbind (call _ (gets _)) _) =>
        apply safe_bind; [apply safe_act, fine_gets|intros ?] end].

Section Programs.
Context `{N : Net} `{Sp : ResumeSpec}.
Implicit Types rs : list nat.

Abbreviation swp := (wp inv evolves no_panic).

Lemma safe_Expose rs name la h : safe rs (p_Expose name la h).
Proof. unfold p_Expose. safely. apply safe_act, fine_field. done. Qed.

Lemma safe_forgetStream rs id : safe rs (p_forgetStream id).
Proof. unfold p_forgetStream. safely. Qed.

Lemma safe_Close rs r : safe rs (p_Close r).
Proof. unfold p_Close. safely; apply safe_forgetStream. Qed.

Lemma safe_freshStreamID rs fuel target method : safe rs (p_freshStreamID fuel target method).
Proof. induction fuel; cbn [p_freshStreamID]; safely. Qed.

Lemma safe_Dial rs fuel target method : safe rs (p_Dial fuel target method).
Proof. unfold p_Dial. safely. apply safe_freshStreamID. Qed.

(** A reference that is held is in the store. *)
Lemma held_lookup rs r s : r ∈ rs -> held rs s -> is_Some (s_store s !! r).
Proof. intros Hin Hh. by apply (proj1 (Forall_forall _ _) Hh). Qed.

Lemma held_deref rs r s : r ∈ rs -> held rs s -> exists st, deref r s = Some st.
Proof.
  intros Hin Hh. destruct (held_lookup rs r s Hin Hh) as [w Hw]. exists (rs_state w). unfold deref.
  by rewrite Hw.
Qed.

Lemma deref_held r s st : deref r s = Some st -> held [r] s.
Proof. unfold deref. destruct (s_store s !! r) eqn:Hr; [|done]. intros _. by repeat constructor. Qed.

(** *** [SwapInner]: the old channel is owned between the unlock and the close *)
Definition owned (ready : option nat) : gset nat := match ready with Some ch => {[ch]} | None => ∅ end.

Lemma swap_action r st s :
  is_Some (s_store s !! r) ->
  action inv evolves no_panic (swap_locked r st) ∅ s
    (fun a o _ => exists old ready, a = Some (old, ready) /\ o = owned ready).
Proof.
  intros [w Hr] F t _ [Hwf HF]. rewrite (left_id_L ∅ (∪)) in HF.
  unfold swap_locked, swap_section, make_chan. rewrite Hr. cbn.
  assert (forall ch, g_resumeReady (rs_guarded w) = Some ch -> ch ∉ F) as Hfresh.
  { intros ch Hch Hin. destruct (HF ch Hin) as (_ & _ & Hno). by apply (Hno r w Hr). }
  split_and!; [exists []; by rewrite app_nil_r|by apply (evolves_insert r w)|].
  exists (owned (g_resumeReady (rs_guarded w))). split_and!; [|split|by do 2 eexists].
  - unfold owned. destruct (g_resumeReady (rs_guarded w)) as [ch|]; [|set_solver].
    apply disjoint_singleton_l. auto.
  - apply wf_guarded; cbn; try done; [lia|auto|]. intros ch [= <-]. left. lia.
  - assert (forall ch, orphan ch s -> orphan ch (set_store (<[r := mkRS (rs_state w)
      (mkGuarded st (Some (ch_next (s_chans s))) (g_abandoned (rs_guarded w)))]> (s_store s))
      (mkChans (S (ch_next (s_chans s))) (ch_closed (s_chans s))) s)) as Hkeep.
    { intros ch. apply orphan_kept; cbn; [lia|auto|]. intros c [E|?]%(current_insert r w); [|by right|done].
      cbn in E. injection E as <-. by left. }
    intros ch [Hch|Hch]%elem_of_union; [|by apply Hkeep, HF].
    unfold owned in Hch. destruct (g_resumeReady (rs_guarded w)) as [ch0|] eqn:Ec; [|set_solver].
    apply elem_of_singleton in Hch as ->. destruct (swf_ready s Hwf r w ch0 Hr Ec) as [Hlt Hncl].
    split_and!; cbn; [lia|done|]. intros r' w' Hr' Hch. destruct (decide (r = r')) as [<-|Hne].
    + rewrite lookup_insert_eq in Hr'. injection Hr' as <-. cbn in Hch. injection Hch as Hch. lia.
    + rewrite lookup_insert_ne in Hr' by done. apply Hne. by eapply (swf_distinct s Hwf).
Qed.

Lemma close_action ready s :
  action inv evolves no_panic (close_old ready) (owned ready) s (fun a o _ => a = true /\ o = ∅).
Proof.
  intros F t HF [Hwf Ho]. unfold close_old, close_ready, close_chan.
  assert (forall h, evolves s (set_store (s_store s) h s)) as Hev.
  { intros h. by apply evolves_fields. }
  destruct ready as [ch|]; cbn in *.
  - destruct (Ho ch) as (Hlt & Hncl & Hno); [set_solver|]. rewrite decide_False by done.
    split_and!; [exists []; by rewrite app_nil_r|done|]. exists ∅. rewrite (left_id_L ∅ (∪)).
    split_and!; [set_solver|split|done..].
    + destruct Hwf as [H1 H2 H3 H4 H5 H6 H7]. constructor; cbn; try done.
      * intros c [->%elem_of_singleton|?%H3]%elem_of_union; done.
      * intros r w c Hr Hc. destruct (H4 r w c Hr Hc) as [Hl Hn]. split; [done|].
        rewrite elem_of_union, elem_of_singleton. intros [->|?]; [by eapply Hno|done].
    + intros c Hc. destruct (Ho c) as (Hl & Hn & Hno'); [set_solver|]. split_and!; cbn; try done.
      rewrite elem_of_union, elem_of_singleton. intros [->|?]; [set_solver|done].
  - split_and!; [exists []; by rewrite app_nil_r|done|]. exists ∅. split_and!; [done| |done..].
    split; [by apply (wf_same_store s); try done; apply Hwf|]. intros c Hc. by apply Ho.
Qed.

Lemma safe_SwapInner rs r st : r ∈ rs -> safe rs (p_SwapInner r st).
Proof.
  intros Hin s Hwf Hh s' Hsee He F t HF HI. unfold p_SwapInner.
  pose proof (swap_action r st s' (held_lookup rs r s' Hin (held_evolves _ _ _ He Hh)) F t HF HI) as H.
  destruct (swap_locked r st (s', t)) as [a [s1 t1]].
  destruct H as (? & ? & o & ? & ? & old & ready & -> & ->). split_and!; [done..|].
  exists (owned ready). split_and!; [done..|]. clear. intros s2 Hsee He F t HF HI.
  pose proof (close_action ready s2 F t HF HI) as H. destruct (close_old ready (s2, t)) as [a [s3 t3]].
  destruct H as (? & ? & o & ? & HI' & -> & ->). split_and!; [done..|]. exists ∅. split_and!; [done..|].
  apply (safe_act [] Plain); [by apply fine_emit|apply HI'|constructor].
Qed.

(** *** [deliverAnswer]: a channel whose entry was taken is not registered again *)
Definition spent (ch : nat) (s : Session) : Prop :=
  (ch < nextbuf (s_p2p s))%nat /\ forall id, mlookup (pendingAnswers (s_p2p s)) id <> Some ch.

Lemma spent_evolves ch s s' : evolves s s' -> spent ch s -> spent ch s'.
Proof.
  intros He [Hlt Hno]. destruct (ev_p2p _ _ He) as [Hn Ha]. split; [lia|].
  intros id [?|?]%Ha; [by eapply Hno|lia].
Qed.

Lemma safe_deliverAnswer rs a : safe rs (p_deliverAnswer a).
Proof.
  intros s Hwf Hh. unfold p_deliverAnswer.
  apply (wp_act _ _ _ _ (fun ch s' => forall c, ch = Some c -> spent c s')).
  - intros s' Hwf' He t. pose proof (fine_take_answer [] (an_StreamId a) s' Hwf' (List.Forall_nil _) t) as H.
    destruct (take_answer (an_StreamId a) (s', t)) as [ch [s1 t1]] eqn:E. destruct H as (? & ? & ? & _).
    split_and!; [done..|]. intros c ->. unfold take_answer in E. pose proof (swf_p2p _ Hwf') as Hp.
    destruct (mlookup (pendingAnswers (s_p2p s')) (an_StreamId a)) as [c'|] eqn:Ec; [|done].
    injection E as -> <- <-. split; cbn; [by apply (wf_answers _ Hp (an_StreamId a))|].
    intros id. rewrite mlookup_delete. case_decide as Hne; [done|]. intros Hid. apply Hne.
    by apply (wf_answers_inj _ Hp _ _ c).
  - intros [ch|] s' Hwf' He Hsp; [|done]. specialize (Hsp ch eq_refl).
    change (act (send_answer ch a)) with (let! u <- act (send_answer ch a) ; Done u).
    apply (wp_act _ _ _ _ (fun _ _ => True)); [|done].
    intros s1 Hwf1 He1 t. cbn. destruct (spent_evolves _ _ _ He1 Hsp) as [_ Hno].
    split_and!; [exists []; by rewrite app_nil_r| |apply tidy_fields; try done|done].
    + apply (wf_same_store s1); try done. apply wf_send_answer; [apply Hwf1|done].
    + by apply p2p_evolves_answers.
Qed.

Lemma safe_deliverMode rs id n : safe rs (p_deliverMode id n).
Proof. unfold p_deliverMode. safely. Qed.

Lemma safe_p2p_op rs o : safe rs (p_p2p_op o).
Proof. destruct o; cbn [p_p2p_op]; safely; auto using safe_deliverAnswer, safe_deliverMode. Qed.

Lemma safe_writeCtrl rs typ m : safe rs (p_writeCtrl typ m).
Proof. unfold p_writeCtrl. safely. Qed.

Lemma safe_completeResume rs r st : r ∈ rs -> safe rs (p_completeResume r st).
Proof.
  intros Hin. unfold p_completeResume. calls. apply safe_gets. intros s Hwf Hh.
  destruct (held_deref rs r s Hin Hh) as [w ->]. exists rs. split; [done|]. safely.
Qed.

Lemma safe_Resume rs r : r ∈ rs -> safe rs (p_Resume r).
Proof.
  intros Hin. unfold p_Resume. apply safe_gets. intros s Hwf Hh.
  destruct (held_deref rs r s Hin Hh) as [w ->]. exists rs. split; [done|].
  apply safe_bind; [apply safe_act, fine_gets|intros c]. calls.
  apply safe_gets. clear s Hwf Hh. intros s Hwf Hh.
  destruct (held_deref rs r s Hin Hh) as [w' ->]. exists rs. split; [done|]. safely.
  - by apply safe_completeResume.
  - by apply safe_SwapInner.
Qed.

Lemma safe_redial rs d uri addrs e : safe rs (p_redial d uri addrs e).
Proof. revert e. induction addrs; intros e; cbn [p_redial]; safely. Qed.

Lemma safe_reregister rs names : safe rs (p_reregister names).
Proof. induction names; cbn [p_reregister]; safely. Qed.

Lemma safe_resume_all rs l : l ⊆ rs -> safe rs (p_resume_all l).
Proof.
  induction l as [|r l IH]; intros Hl; cbn [p_resume_all]; safely; [..|apply IH; set_solver].
  - apply safe_Resume. set_solver.
  - apply safe_forgetStream.
Qed.

(** The wrappers a snapshot returns are held. *)
Lemma safe_ActiveStreams {A} (HN : MapOrder N) rs m (f : list nat -> prog Session A) :
  (forall l, safe l (f l)) -> safe rs (let! l <- call m ActiveStreams ; f l).
Proof.
  intros Hf. apply (safe_call _ id). intros s Hwf _.
  eapply action_run; [by apply run_ActiveStreams|]. cbn. intros l s' ext (-> & _ & Hl).
  split; [apply tidy_refl|]. split; [|apply Hf]. unfold held. rewrite Hl. by apply held_registered.
Qed.

Lemma safe_Reconnect (HN : MapOrder N) rs addrs : safe rs (p_Reconnect addrs).
Proof.
  unfold p_Reconnect. destruct addrs as [|a addrs]; [safely|].
  safely; [apply safe_redial| |apply safe_reregister|].
  { unfold p_swap_transport. safely; by apply safe_act, fine_field. }
  apply safe_ActiveStreams; [done|]. intros l. safely. by apply safe_resume_all.
Qed.

Lemma safe_receive rs polls ch : safe rs (p_receive polls ch).
Proof. induction polls; cbn [p_receive]; safely. Qed.

Lemma safe_serve rs r st b g : safe rs (p_serve r st b g).
Proof. unfold p_serve, p_bridge_wrapped. safely; apply safe_Close. Qed.

Lemma safe_handleIncoming rs polls st : safe rs (p_handleIncoming polls st).
Proof.
  unfold p_handleIncoming, p_wait_mode. safely;
    first [apply safe_receive | apply safe_serve | apply safe_Close].
Qed.

Lemma safe_control_frame rs f : safe rs (p_control_frame f).
Proof.
  unfold p_control_frame, p_warmupPunch.
  assert (forall sock cands, safe rs (p_punch_loop sock cands)) as Hpunch
    by (intros sock cands; induction cands; cbn [p_punch_loop]; safely).
  safely; auto using safe_deliverAnswer, safe_deliverMode, safe_writeCtrl.
  apply safe_act, fine_transfer. intros st. apply checkpoint_id.
Qed.

Lemma safe_controlReader rs fuel : safe rs (p_controlReader fuel).
Proof. induction fuel; cbn [p_controlReader]; safely; apply safe_control_frame. Qed.

Lemma safe_emitCheckpoints (HN : MapOrder N) rs fuel period : safe rs (p_emitCheckpoints fuel period).
Proof.
  induction fuel; cbn [p_emitCheckpoints]; safely. apply safe_ActiveStreams; [done|].
  intros l. eapply safe_weaken; [apply list_subseteq_nil|]. generalize l. clear.
  intros l. induction l; cbn [p_emit_states]; safely. apply safe_writeCtrl.
Qed.

Lemma safe_EnableP2P rs fuel ctx : safe rs (p_EnableP2P fuel ctx).
Proof. unfold p_EnableP2P, goroutine. safely. apply safe_controlReader. Qed.

Lemma safe_StartResume (HN : MapOrder N) rs fuel ctx period ms :
  safe rs (p_StartResume fuel ctx period ms).
Proof.
  unfold p_StartResume, goroutine. apply safe_bind; [apply safe_EnableP2P|intros _].
  safely; by apply safe_emitCheckpoints.
Qed.

Lemma safe_MigrateToDirect rs r c : safe rs (p_MigrateToDirect r c).
Proof.
  unfold p_MigrateToDirect. apply safe_gets. intros s Hwf Hh. unfold held_ref.
  destruct r as [r|]; [|eexists; split; [done|safely]].
  destruct (deref r s) eqn:Hr; [|eexists; split; [done|cbn; safely]].
  exists [r]. split; [by eapply deref_held|]. cbn [fmap option_fmap option_map]. calls.
  apply safe_gets. intros s' Hwf' Hh'. destruct (held_deref [r] r s') as [w ->]; [set_solver|done|].
  exists [r]. split; [done|]. safely; apply safe_SwapInner; set_solver.
Qed.

Lemma safe_handleDirectStream rs st : safe rs (p_handleDirectStream st).
Proof.
  unfold p_handleDirectStream. calls. apply safe_bind; [apply safe_act, fine_gets|intros s0]. calls.
  apply safe_gets. intros s Hwf Hh.
  destruct (deref _ s) eqn:Hr; [|eexists; split; [done|safely]].
  exists [n]. split; [by eapply deref_held|].
  safely; apply safe_SwapInner; set_solver.
Qed.

Lemma safe_acceptDirectStreams rs fuel c : safe rs (p_acceptDirectStreams fuel c).
Proof. induction fuel; cbn [p_acceptDirectStreams]; safely. apply safe_handleDirectStream. Qed.

Lemma safe_AcceptDirect rs fuel ln : safe rs (p_AcceptDirect fuel ln).
Proof.
  induction fuel; cbn [p_AcceptDirect]; safely.
  - apply safe_act, fine_silent. intros s t. by eexists.
  - apply safe_acceptDirectStreams.
Qed.

Lemma safe_Run rs polls fuel : safe rs (p_Run polls fuel).
Proof. induction fuel; cbn [p_Run]; safely. apply safe_handleIncoming. Qed.

Lemma safe_reconnect_loop (HN : MapOrder N) rs fuel addrs b : safe rs (p_reconnect_loop fuel addrs b).
Proof.
  revert b. induction fuel; intros b; cbn [p_reconnect_loop]; unfold goroutine; safely.
  - by apply safe_Reconnect.
  - apply safe_controlReader.
Qed.

Lemma safe_RunWithReconnect (HN : MapOrder N) rs polls fuel addrs :
  safe rs (p_RunWithReconnect polls fuel addrs).
Proof.
  induction fuel; cbn [p_RunWithReconnect]; safely.
  - apply safe_Run.
  - by apply safe_act, fine_field.
  - by apply safe_reconnect_loop.
  - by apply safe_act, fine_field.
  - by apply safe_act, fine_field.
Qed.

Lemma safe_CloseWrite rs has_cw r : safe rs (p_CloseWrite has_cw r).
Proof. unfold p_CloseWrite, Stream_CloseWrite. safely. Qed.

Lemma safe_when_wrapper rs r p : safe [r] p -> safe rs (when_wrapper r p).
Proof.
  intros Hp. apply safe_gets. intros s Hwf Hh. destruct (deref r s) eqn:Hr.
  - exists [r]. split; [by eapply deref_held|done].
  - exists rs. split; [done|apply safe_done].
Qed.

Lemma safe_call_of (HN : MapOrder N) rs c : safe rs (p_call c).
Proof.
  destruct c; cbn [p_call]; unfold goroutine; try (apply safe_bind; [|intros; apply safe_done]);
    auto using safe_Expose, safe_Dial, safe_handleIncoming, safe_Close, safe_CloseWrite,
      safe_forgetStream, safe_Reconnect, safe_Run, safe_RunWithReconnect, safe_controlReader,
      safe_StartResume, safe_handleDirectStream, safe_AcceptDirect, safe_p2p_op.
  - apply safe_when_wrapper. safely. apply safe_Resume. set_solver.
  - by apply safe_act, fine_field.
  - by apply safe_act, fine_field.
  - apply safe_when_wrapper. safely. apply safe_MigrateToDirect.
  - safely; apply safe_act, fine_transfer; intros st; [apply onread_id|apply onwrite_id].
Qed.

Lemma safe_calls (HN : MapOrder N) rs cs : safe rs (p_calls cs).
Proof. induction cs; cbn [p_calls]; [apply safe_done|]. apply safe_bind; [by apply safe_call_of|done]. Qed.

(** The goroutines [gs], each with its calls to make. *)
Definition start (gs : list (list session_call)) (s : Session) : config Session :=
  mkConfig (map p_calls gs) s [].

(** They are safe, and goroutine [i] keeps its promise. *)
Lemma start_ok (HN : MapOrder N) gs s i (Q0 : Session -> Prop) :
  session_wf s ->
  (forall cs, gs !! i = Some cs -> swp (p_calls cs) ∅ s (fun _ _ => Q0)) ->
  (i < length gs)%nat \/ (forall s, Q0 s) ->
  pool_ok inv evolves no_panic i Q0 (start gs s).
Proof.
  intros Hwf Hi Hlt. split_and!; [|exists (replicate (length gs) ∅)|constructor].
  - unfold started. cbn. by rewrite length_fmap.
  - split_and!; cbn; [by rewrite length_replicate, length_fmap| | |].
    + intros j k o o' [-> _]%lookup_replicate [-> _]%lookup_replicate _. set_solver.
    + split; [done|]. intros ch (o & Ho & Hch)%elem_of_union_list.
      apply elem_of_replicate_inv in Ho as ->. by apply elem_of_empty in Hch.
    + intros j p o Hj [-> _]%lookup_replicate. rewrite list_lookup_fmap in Hj.
      destruct (gs !! j) as [cs|] eqn:Hg; [|done]. injection Hj as <-.
      destruct (decide (j = i)) as [->|Hne].
      * eapply wp_mono; [exact _| |by apply Hi]. by intros u o s' _ _ HQ _.
      * eapply wp_mono; [exact _| |by apply (safe_calls HN []); [|constructor]]. by intros u o s' _ _ _ ->.
Qed.

(** ** A closed stream *)

(** Abandoned, and no id leads to it. *)
Definition closed (r : nat) (s : Session) : Prop :=
  (exists w, s_store s !! r = Some w /\ g_abandoned (rs_guarded w) = true) /\
  (r < s_next s)%nat /\ forall id, s_streams s !! id <> Some r.

Definition unregistered (r : nat) (s : Session) : Prop :=
  is_Some (s_store s !! r) /\ (r < s_next s)%nat /\ forall id, s_streams s !! id <> Some r.

Lemma unregistered_evolves r s s' : evolves s s' -> unregistered r s -> unregistered r s'.
Proof.
  intros [H1 H2 H3 _] ([w Hr] & Hn & Hs). split_and!; [|lia|].
  - destruct (H1 r w Hr) as (w' & -> & _). eauto.
  - intros id [?%Hs|?]%H3; [done|lia].
Qed.

Lemma closed_evolves r s s' : evolves s s' -> closed r s -> closed r s'.
Proof.
  intros He ((w & Hr & Ha) & Hn & Hs). destruct (unregistered_evolves r s s' He) as (_ & ? & ?).
  { by split_and!. }
  split_and!; [|done..]. destruct (ev_store _ _ He r w Hr) as (w' & ? & _ & ?). eauto.
Qed.

Lemma wp_gets {A B} l (g : Session -> A) (f : A -> prog Session B) s Q :
  (forall s', session_wf s' -> evolves s s' -> swp (f (g s')) ∅ s' Q) ->
  swp (let! a <- call l (gets g) ; f a) ∅ s Q.
Proof.
  intros Hf. apply (wp_act _ _ _ _ (fun a s' => a = g s')).
  - intros s' Hwf He t. cbn. split_and!; [|done|apply tidy_refl|done]. exists []. by rewrite app_nil_r.
  - intros a s' Hwf He ->. by apply Hf.
Qed.

(** A call that neither needs nor breaks [H]. *)
Lemma wp_keep {A B} (H : Session -> Prop) l (m : Eff Session A) (f : A -> prog Session B) s Q :
  (forall s1 s2, evolves s1 s2 -> H s1 -> H s2) -> H s -> fine_call [] m ->
  (forall a s', session_wf s' -> evolves s s' -> H s' -> swp (f a) ∅ s' Q) ->
  swp (let! a <- call l m ; f a) ∅ s Q.
Proof.
  intros Hst Hs Hm Hf. apply (wp_act _ _ _ _ (fun _ _ => True)).
  - intros s' Hwf _. apply Hm; [done|constructor].
  - intros a s' Hwf He _. apply Hf; [done..|]. by eapply Hst.
Qed.

Lemma call_then {A} l (m : Eff Session A) : call l m = pbind (call l m) Done.
Proof. done. Qed.

Lemma forget_unregisters r w s :
  session_wf s -> s_store s !! r = Some w ->
  saction (forget_section (ID (rs_state w))) s (fun _ s' => unregistered r s').
Proof.
  intros Hwf Hr t. pose proof (fine_forget [] (ID (rs_state w)) s Hwf (List.Forall_nil _) t) as H. cbn in *.
  destruct H as (? & ? & ? & _). split_and!; try done. split_and!; cbn.
  - by exists w.
  - apply (swf_next s Hwf). by exists w.
  - intros id. destruct (decide (ID (rs_state w) = id)) as [<-|Hne]; [by rewrite lookup_delete_eq|].
    rewrite lookup_delete_ne by done. intros (w' & Hw' & <-)%(swf_streams s Hwf). congruence.
Qed.

Lemma markAbandoned_closes r s :
  session_wf s -> unregistered r s -> saction (rs_markAbandoned r) s (fun _ s' => closed r s').
Proof.
  intros Hwf ([w Hr] & Hn & Hs) t. pose proof (saction_markAbandoned r s Hwf t) as H.
  destruct (rs_markAbandoned r (s, t)) as [[] [s' t']]. destruct H as (? & ? & ? & Es & Ha).
  split_and!; [done..|]. destruct Ha as (_ & _ & _ & _ & _ & _ & En & _ & Ha).
  destruct (Ha w Hr) as (w' & Hw' & _ & Hab & _).
  split_and!; [eauto|lia|]. by rewrite Es.
Qed.

Lemma wp_forgetStream r w s :
  session_wf s -> s_store s !! r = Some w ->
  swp (p_forgetStream (ID (rs_state w))) ∅ s (fun _ o s' => o = ∅ /\ unregistered r s').
Proof.
  intros Hwf Hr. unfold p_forgetStream. apply (wp_act _ _ _ _ (fun _ s' => unregistered r s')).
  - intros s2 Hwf2 He2. destruct (ev_store _ _ He2 r w Hr) as (w2 & Hr2 & Eid & _). rewrite <- Eid.
    by apply forget_unregisters.
  - intros [r'|] s2 Hwf2 He2 Hu.
    + rewrite call_then. apply (wp_keep (unregistered r)); [apply unregistered_evolves|done|..].
      * apply fine_markAbandoned.
      * intros [] s3 _ _ Hu3 s4 _ He4. split; [done|]. by eapply unregistered_evolves.
    + intros s3 _ He3. split; [done|]. by eapply unregistered_evolves.
Qed.

Lemma wp_Close r s :
  session_wf s -> held [r] s -> swp (p_Close r) ∅ s (fun _ o s' => o = ∅ /\ closed r s').
Proof.
  intros Hwf Hh. unfold p_Close. apply wp_gets. intros s1 Hwf1 He1. unfold deref.
  destruct (held_lookup [r] r s1) as [w Hr]; [set_solver|by eapply held_evolves|]. rewrite Hr.
  cbn [fmap option_fmap option_map]. apply wp_pbind; [exact _|by apply sees_nothing|].
  eapply wp_mono; [exact _| |by apply wp_forgetStream]. intros [] o s2 Hsee2 _ [-> Hu].
  apply (wp_act _ _ _ _ (fun _ s' => closed r s')).
  { intros s3 Hwf3 He3. apply markAbandoned_closes; [done|]. by eapply unregistered_evolves. }
  intros [] s3 Hwf3 _ Hc3. apply (wp_keep (closed r)); [apply closed_evolves|done|apply fine_gets|].
  intros [inner|] s4 Hwf4 _ Hc4.
  - rewrite call_then. apply (wp_keep (closed r)); [apply closed_evolves|done|by apply fine_emit|].
    intros [] s5 _ _ Hc5 s6 _ He6. split; [done|]. by eapply closed_evolves.
  - intros s5 _ He5. split; [done|]. by eapply closed_evolves.
Qed.

Lemma wp_calls_Close (HN : MapOrder N) cs r s :
  session_wf s -> held [r] s ->
  swp (p_calls (cs ++ [CClose r])) ∅ s (fun _ _ s' => closed r s').
Proof.
  intros Hwf Hh. revert s Hwf Hh. induction cs as [|c cs IH]; intros s Hwf Hh; cbn [p_calls app].
  - apply wp_pbind; [exact _|by apply sees_nothing|]. eapply wp_mono; [exact _| |by apply wp_Close].
    intros [] o s' _ _ [-> Hc] s'' _ He. by eapply closed_evolves.
  - apply wp_pbind; [exact _|by apply sees_nothing|].
    eapply wp_mono; [exact _| |by apply (safe_call_of HN [r])].
    intros [] o s' Hsee He ->. apply IH; [by eapply sees_wf|]. by eapply held_evolves.
Qed.
End Programs.

(** What holds of the session in every reachable configuration. *)
Lemma start_invariant `{N : Net} `{Sp : ResumeSpec} gs s c :
  MapOrder N -> session_wf s -> rtc cstep (start gs s) c ->
  session_wf (c_state c) /\ evolves s (c_state c) /\ (EvPanic ∉ c_trace c).
Proof.
  intros HN Hwf Hs.
  destruct (pool_reachable inv evolves no_panic 0 (fun _ => True) (start gs s) c) as [Hc He]; [|done|].
  { apply start_ok; try done; [|by right]. intros cs _.
    eapply wp_mono; [exact _| |by apply (safe_calls HN []); [|constructor]]. done. }
  destruct (pool_state _ _ _ _ _ _ Hc) as [o [Hwf' _]]. destruct Hc as (_ & _ & Hp).
  split_and!; [done..|]. intros Hin. by apply (proj1 (Forall_forall _ _) Hp EvPanic Hin).
Qed.

(** ** Properties *)


(** C9. Close is final: when one goroutine ends by closing a stream and any
    others do what they like meanwhile (a reconnect that resumes every active
    stream included), then from the return of Close on the wrapper is
    abandoned and no stream id leads to it, in every interleaving. *)
Theorem close_is_final `{N : Net} `{Sp : ResumeSpec} gs i cs r s c :
  MapOrder N -> session_wf s -> is_Some (s_store s !! r) ->
  gs !! i = Some (cs ++ [CClose r]) -> rtc cstep (start gs s) c ->
  c_threads c !! i = Some (Done tt) -> closed r (c_state c).
Proof.
  intros HN Hwf Hr Hi Hs Hd.
  eapply (pool_post inv evolves no_panic i (closed r)); [|exact Hd].
  eapply pool_reachable; [exact _| |exact Hs]. apply start_ok; [done..| |].
  - intros cs' Hcs. rewrite Hi in Hcs. injection Hcs as <-. apply wp_calls_Close; [done..|].
    by repeat constructor.
  - left. by eapply lookup_lt_Some.
Qed.

(** A reconnect, a dial and a close, interleaved. *)
Definition demo_goroutines : list (list session_call) :=
  [[CReconnect ["r:1"]; CStartResume 2 1 5 200]; [CTransfer 0 1 [4]; CClose 0]; [CDial 3 "svc" ""]].

Definition demo_interleaving : list nat :=
  concat (replicate 40 [0; 1; 2; 3; 4])%nat.


Lemma close_is_final_witness :
  closed 0 (c_state (schedule demo_interleaving
    (@start (demo_net demo_frames) Ring.lib demo_goroutines demo_session))).
Proof.
  apply (@close_is_final (demo_net demo_frames) Ring.lib Ring.spec demo_goroutines 1
           [CTransfer 0 1 [4]] 0 demo_session _ (demo_order _) demo_session_wf).
  - by eexists.
  - reflexivity.
  - apply schedule_reachable.
  - reflexivity.
Defined.
