(* ===== verification/Vip.v ===== *)
(** * [pkg/intercept/vip.go]: virtual IP allocation *)

From S2P Require Import Prelude Netip.

Definition DefaultVIPCIDR : string := "100.64.0.0/10".

Record VIPAllocator : Type := mkVIP {
  vip_prefix : Prefix;
  nameToIP : gmap string Addr;
  ipToName : gmap Addr string;
  vip_next : Addr
}.

Definition NewVIPAllocator (cidr : string) : result VIPAllocator :=
  match ParsePrefix cidr with
  | None => Err (ErrorString "intercept: parse")
  | Some pfx =>
      if negb (Is4 (pfx_addr pfx)) then
        Err (ErrorString "intercept: only IPv4 VIP ranges supported")
      else Ok (mkVIP (Masked pfx) ∅ ∅ (Addr_Next (pfx_addr (Masked pfx))))
  end.

(** [ip.As4()] of an address that is not IPv4 panics; the allocator only asks
    about addresses its IPv4 prefix contains. *)
Definition isUsable (ip : Addr) : bool :=
  match ip with
  | Addr4 v => negb ((v4oct v 3 =? 0) || (v4oct v 3 =? 255))
  | _ => false
  end.

Definition exhausted : error := ErrorString "intercept: VIP pool exhausted".

(** The search loop; [None] when the fuel is used up. *)
Fixpoint alloc_loop (fuel : nat) (name : string) (a : VIPAllocator)
    : option (result Addr * VIPAllocator) :=
  match fuel with
  | O => None
  | S fuel' =>
      if negb (Contains (vip_prefix a) (vip_next a)) then Some (Err exhausted, a)
      else
        let ip := vip_next a in
        let a := mkVIP (vip_prefix a) (nameToIP a) (ipToName a) (Addr_Next (vip_next a)) in
        if negb (isUsable ip) then alloc_loop fuel' name a
        else
          match ipToName a !! ip with
          | Some _ => alloc_loop fuel' name a
          | None =>
              Some (Ok ip, mkVIP (vip_prefix a) (<[name := ip]> (nameToIP a))
                             (<[ip := name]> (ipToName a)) (vip_next a))
          end
  end.

Definition Allocate (fuel : nat) (name : string) (a : VIPAllocator)
    : option (result Addr * VIPAllocator) :=
  match nameToIP a !! name with
  | Some ip => Some (Ok ip, a)
  | None => alloc_loop fuel name a
  end.

Definition LookupName (name : string) (a : VIPAllocator) : option Addr := nameToIP a !! name.

(** A Go map read: the empty string when [vip] is not known. *)
Definition Lookup (vip : Addr) (a : VIPAllocator) : string := default "" (ipToName a !! vip).

Definition Len (a : VIPAllocator) : Z := Z.of_nat (size (nameToIP a)).

(** ** The pool *)

(** [next] as a number: one past the last address when it has wrapped. *)
Definition next_val (a : VIPAllocator) : Z :=
  match vip_next a with Addr4 w => w | _ => 2 ^ 32 end.

Definition base_val (a : VIPAllocator) : Z :=
  match pfx_addr (vip_prefix a) with Addr4 v => v | _ => 0 end.

Definition pool_size (a : VIPAllocator) : Z := 2 ^ (32 - pfx_bits (vip_prefix a)).

(** Usable addresses of the pool: every address but the first, except the
    [.0] and [.255] of each block. *)
Definition in_pool (a : VIPAllocator) (v : Z) : Prop :=
  base_val a < v < base_val a + pool_size a /\ isUsable (Addr4 v) = true.

Record vip_wf (a : VIPAllocator) : Prop := {
  vw_base : pfx_addr (vip_prefix a) = Addr4 (base_val a);
  vw_bits : 0 <= pfx_bits (vip_prefix a) <= 32;
  vw_range : 0 <= base_val a /\ base_val a + pool_size a <= 2 ^ 32;
  vw_aligned : base_val a mod pool_size a = 0;
  vw_next : base_val a < next_val a <= 2 ^ 32 /\
    (vip_next a = Addr4 (next_val a) \/ (vip_next a = AddrZero /\ next_val a = 2 ^ 32));
  vw_inverse : forall name ip, nameToIP a !! name = Some ip <-> ipToName a !! ip = Some name;
  vw_alloc : forall ip, is_Some (ipToName a !! ip) ->
    exists v, ip = Addr4 v /\ in_pool a v /\ v < next_val a;
  (* no usable address is skipped *)
  vw_dense : forall v, in_pool a v -> v < next_val a -> is_Some (ipToName a !! Addr4 v)
}.

(** ** Prefixes as intervals *)
Lemma Contains4 v w bits :
  0 <= bits <= 32 -> 0 <= w -> 0 <= v -> v mod 2 ^ (32 - bits) = 0 ->
  Contains (mkPrefix (Addr4 v) bits) (Addr4 w) = true <-> v <= w < v + 2 ^ (32 - bits).
Proof.
  intros Hb Hw Hv Hal. cbn. rewrite Z.eqb_eq, Z.shiftr_lxor, Z.lxor_eq_0_iff.
  rewrite !Z.shiftr_div_pow2 by lia. set (k := 2 ^ (32 - bits)) in *.
  assert (0 < k) by (apply Z.pow_pos_nonneg; lia).
  pose proof (Z.div_mod v k ltac:(lia)). pose proof (Z.div_mod w k ltac:(lia)).
  pose proof (Z.mod_pos_bound w k ltac:(lia)). split; intros; nia.
Qed.

Lemma Contains_next a :
  vip_wf a -> Contains (vip_prefix a) (vip_next a) = true <-> next_val a < base_val a + pool_size a.
Proof.
  intros [Hb Hbits Hr Hal [Hn Hcase] _ _ _].
  destruct (vip_prefix a) as [pa bits] eqn:Ep. cbn in Hb, Hbits. unfold pool_size in *.
  rewrite Ep in *. cbn in *. destruct Hcase as [->|[-> E]].
  - rewrite Hb, Contains4 by (done || lia). lia.
  - rewrite Hb, E. split; [done|lia].
Qed.

Lemma next_val_Next a :
  vip_next a = Addr4 (next_val a) -> next_val a < 2 ^ 32 ->
  forall n m, let a' := mkVIP (vip_prefix a) n m (Addr_Next (vip_next a)) in
  next_val a' = next_val a + 1 /\
  (vip_next a' = Addr4 (next_val a') \/ (vip_next a' = AddrZero /\ next_val a' = 2 ^ 32)).
Proof.
  intros E Hlt n m a'.
  assert (vip_next a' = if next_val a + 1 =? 2 ^ 32 then AddrZero else Addr4 (next_val a + 1)) as En.
  { unfold a'. cbn [vip_next]. by rewrite E. }
  assert (next_val a' = match vip_next a' with Addr4 w => w | _ => 2 ^ 32 end) as Ev by done.
  rewrite En in *. rewrite Ev. destruct (Z.eqb_spec (next_val a + 1) (2 ^ 32)) as [E'|]; auto.
Qed.

(** ** One round of the loop *)
Lemma wf_skip a :
  vip_wf a -> Contains (vip_prefix a) (vip_next a) = true -> isUsable (vip_next a) = false ->
  vip_wf (mkVIP (vip_prefix a) (nameToIP a) (ipToName a) (Addr_Next (vip_next a))).
Proof.
  intros Hwf Hc Hu. pose proof (proj1 (Contains_next a Hwf) Hc) as Hlt.
  destruct Hwf as [Hb Hbits Hr Hal [Hn Hcase] Hinv Ha Hd].
  destruct Hcase as [Hcase|[_ ?]]; [|lia].
  destruct (next_val_Next a Hcase ltac:(lia) (nameToIP a) (ipToName a)) as [En Hn'].
  constructor; try done; cbn [vip_prefix nameToIP ipToName].
  - split; [|done]. rewrite En. unfold base_val in *. cbn. lia.
  - intros ip Hip. destruct (Ha ip Hip) as (v & -> & Hp & Hv). exists v.
    split_and!; [done|done|]. rewrite En. lia.
  - intros v Hp Hv. rewrite En in Hv. apply Hd; [done|].
    destruct (decide (v = next_val a)) as [->|]; [|lia]. destruct Hp as [_ Hp]. congruence.
Qed.

Lemma wf_take a name :
  vip_wf a -> Contains (vip_prefix a) (vip_next a) = true -> isUsable (vip_next a) = true ->
  nameToIP a !! name = None ->
  ipToName a !! vip_next a = None /\
  vip_wf (mkVIP (vip_prefix a) (<[name := vip_next a]> (nameToIP a))
    (<[vip_next a := name]> (ipToName a)) (Addr_Next (vip_next a))).
Proof.
  intros Hwf Hc Hu Hname. pose proof (proj1 (Contains_next a Hwf) Hc) as Hlt.
  destruct Hwf as [Hb Hbits Hr Hal [Hn Hcase] Hinv Ha Hd].
  destruct Hcase as [Hcase|[_ ?]]; [|lia].
  assert (ipToName a !! vip_next a = None) as Hfree.
  { apply eq_None_not_Some. intros (v & E & _ & Hv)%Ha. rewrite Hcase in E. simplify_eq. lia. }
  split; [done|].
  destruct (next_val_Next a Hcase ltac:(lia) (<[name := vip_next a]> (nameToIP a))
    (<[vip_next a := name]> (ipToName a))) as [En Hn'].
  constructor; try done; cbn [vip_prefix nameToIP ipToName].
  - split; [|done]. rewrite En. unfold base_val in *. cbn. lia.
  - intros name' ip. destruct (decide (name = name')) as [<-|Hne].
    + rewrite lookup_insert_eq. split.
      * intros [= <-]. by rewrite lookup_insert_eq.
      * destruct (decide (vip_next a = ip)) as [<-|Hip]; [done|].
        rewrite lookup_insert_ne by done. intros E%Hinv. congruence.
    + rewrite lookup_insert_ne by done. destruct (decide (vip_next a = ip)) as [<-|Hip].
      * rewrite lookup_insert_eq. rewrite Hinv. split; [congruence|]. intros [= E]. congruence.
      * rewrite lookup_insert_ne by done. apply Hinv.
  - intros ip. destruct (decide (vip_next a = ip)) as [<-|Hip].
    + intros _. exists (next_val a). rewrite En. split_and!; [done| |lia].
      split; [unfold base_val, pool_size in *; cbn; lia|]. by rewrite <- Hcase.
    + rewrite lookup_insert_ne by done. intros Hs. destruct (Ha ip Hs) as (v & -> & Hp & Hv).
      exists v. rewrite En. split_and!; [done|done|lia].
  - intros v Hp Hv. rewrite En in Hv. destruct (decide (vip_next a = Addr4 v)) as [->|Hip].
    + rewrite lookup_insert_eq. by eexists.
    + rewrite lookup_insert_ne by done. apply Hd; [done|].
      destruct (decide (v = next_val a)) as [->|]; [by rewrite Hcase in Hip|lia].
Qed.

(** Of three consecutive addresses one is usable. *)
Lemma usable_within a :
  vip_next a = Addr4 (next_val a) -> isUsable (vip_next a) = false ->
  0 <= next_val a ->
  isUsable (Addr4 (next_val a + 1)) = true \/ isUsable (Addr4 (next_val a + 2)) = true.
Proof.
  intros -> Hu H0. unfold isUsable in *.
  rewrite negb_false_iff, orb_true_iff, !Z.eqb_eq in Hu.
  rewrite !negb_true_iff, !orb_false_iff, !Z.eqb_neq.
  rewrite !v4oct_div in * by lia. cbn [Z.sub Z.opp Z.add Z.mul] in *.
  change (2 ^ 0) with 1 in *. rewrite !Z.div_1_r in *.
  assert (next_val a mod 256 = 0 \/ next_val a mod 256 = 255) as [E|E] by done;
    [left|right]; Z.div_mod_to_equations; lia.
Qed.

(** What [Allocate] of a new name returns. *)
Definition allocated (name : string) (a : VIPAllocator) (r : result Addr) (a' : VIPAllocator) : Prop :=
  vip_wf a' /\ vip_prefix a' = vip_prefix a /\
  match r with
  | Ok ip => exists v, ip = Addr4 v /\ in_pool a v /\ ipToName a !! ip = None /\
      nameToIP a' = <[name := ip]> (nameToIP a) /\ ipToName a' = <[ip := name]> (ipToName a)
  | Err e => e = exhausted /\ nameToIP a' = nameToIP a /\ ipToName a' = ipToName a /\
      forall v, in_pool a v -> is_Some (ipToName a !! Addr4 v)
  end.

Lemma alloc_loop_run fuel name a r a' :
  vip_wf a -> nameToIP a !! name = None -> alloc_loop fuel name a = Some (r, a') ->
  allocated name a r a'.
Proof.
  revert a. induction fuel as [|fuel IH]; intros a Hwf Hname; cbn [alloc_loop]; [done|].
  destruct (Contains (vip_prefix a) (vip_next a)) eqn:Hc; cbn [negb].
  2: { intros [= <- <-]. unfold allocated. split_and!; try done. intros v Hp.
       apply (vw_dense a Hwf v Hp). destruct Hp as [Hp _].
       destruct (decide (v < next_val a)); [done|]. exfalso.
       enough (Contains (vip_prefix a) (vip_next a) = true) by congruence.
       apply (Contains_next a Hwf). lia. }
  destruct (isUsable (vip_next a)) eqn:Hu; cbn [negb].
  - destruct (wf_take a name Hwf Hc Hu Hname) as [Hfree Hwf']. cbn. rewrite Hfree.
    intros [= <- <-]. split; [done|]. split; [done|].
    destruct (vw_next a Hwf) as [Hn [Hcase|[Hcase _]]]; [|by rewrite Hcase in Hc;
      unfold Contains in Hc; rewrite (vw_base a Hwf) in Hc].
    exists (next_val a). split_and!; try done. split; [|by rewrite <- Hcase].
    pose proof (proj1 (Contains_next a Hwf) Hc). lia.
  - intros Hrun. by apply (IH _ (wf_skip a Hwf Hc Hu) Hname Hrun).
Qed.

Definition skip (a : VIPAllocator) : VIPAllocator :=
  mkVIP (vip_prefix a) (nameToIP a) (ipToName a) (Addr_Next (vip_next a)).

(** A round that does not return skips an unusable address. *)
Lemma alloc_round fuel name a :
  vip_wf a -> nameToIP a !! name = None ->
  is_Some (alloc_loop (S fuel) name a) \/
  (alloc_loop (S fuel) name a = alloc_loop fuel name (skip a) /\ vip_wf (skip a) /\
   isUsable (vip_next a) = false /\ vip_next a = Addr4 (next_val a) /\
   next_val (skip a) = next_val a + 1 /\ 0 <= next_val a < 2 ^ 32).
Proof.
  intros Hwf Hname.
  destruct (Contains (vip_prefix a) (vip_next a)) eqn:Hc.
  2: { left. cbn [alloc_loop]. rewrite Hc. by eexists. }
  destruct (isUsable (vip_next a)) eqn:Hu.
  { left. destruct (wf_take a name Hwf Hc Hu Hname) as [Hfree _]. cbn [alloc_loop].
    rewrite Hc, Hu. cbn. rewrite Hfree. by eexists. }
  right. pose proof (proj1 (Contains_next a Hwf) Hc) as Hlt. pose proof (vw_range a Hwf).
  destruct (vw_next a Hwf) as [Hn [Hcase|[_ ?]]]; [|lia].
  destruct (next_val_Next a Hcase ltac:(lia) (nameToIP a) (ipToName a)) as [En _].
  split_and!; try done; try lia; [|by apply wf_skip].
  cbn [alloc_loop]. by rewrite Hc, Hu.
Qed.

Lemma alloc_loop_total name a fuel :
  vip_wf a -> nameToIP a !! name = None -> (3 <= fuel)%nat -> is_Some (alloc_loop fuel name a).
Proof.
  intros Hwf Hname Hf. destruct fuel as [|[|[|fuel]]]; try lia.
  destruct (alloc_round (S (S fuel)) name a Hwf Hname) as [?|(-> & Hwf1 & Hu & Hc & En & Hr)]; [done|].
  destruct (alloc_round (S fuel) name (skip a) Hwf1 Hname) as [?|(-> & Hwf2 & Hu1 & Hc1 & En1 & Hr1)];
    [done|].
  destruct (alloc_round fuel name (skip (skip a)) Hwf2 Hname) as [?|(_ & _ & Hu2 & Hc2 & _)]; [done|].
  rewrite Hc1, En in Hu1. rewrite Hc2, En1, En, <- Z.add_assoc in Hu2.
  change (1 + 1) with 2 in Hu2.
  destruct (usable_within a Hc Hu ltac:(lia)) as [Hw|Hw]; congruence.
Qed.

(** ** Sequences of allocations *)

(** [Allocate] with enough fuel: always a result. *)
Definition Allocate1 (name : string) (a : VIPAllocator) : result Addr * VIPAllocator :=
  default (Err exhausted, a) (Allocate 3 name a).

Lemma Allocate_run name a r a' :
  vip_wf a -> Allocate 3 name a = Some (r, a') ->
  match nameToIP a !! name with
  | Some ip => r = Ok ip /\ a' = a
  | None => allocated name a r a'
  end.
Proof.
  intros Hwf. unfold Allocate. destruct (nameToIP a !! name) eqn:E; [by intros [= <- <-]|].
  by apply alloc_loop_run.
Qed.

Lemma Allocate_total name a fuel :
  vip_wf a -> (3 <= fuel)%nat -> is_Some (Allocate fuel name a).
Proof.
  intros Hwf Hf. unfold Allocate. destruct (nameToIP a !! name) eqn:E; [by eexists|].
  by apply alloc_loop_total.
Qed.

Lemma Allocate1_wf name a : vip_wf a -> vip_wf (snd (Allocate1 name a)).
Proof.
  intros Hwf. unfold Allocate1. destruct (Allocate_total name a 3 Hwf ltac:(lia)) as [[r a'] E].
  rewrite E. cbn. pose proof (Allocate_run name a r a' Hwf E) as H.
  destruct (nameToIP a !! name); [by destruct H as [_ ->]|by destruct H].
Qed.

Lemma pool_pos bits : 0 <= bits <= 32 -> 0 < 2 ^ (32 - bits) <= 2 ^ 32.
Proof. intros Hb. split; [apply Z.pow_pos_nonneg|apply Z.pow_le_mono_r]; lia. Qed.

Lemma NewVIPAllocator_wf cidr a pfx :
  ParsePrefix cidr = Some pfx -> prefix_valid pfx -> NewVIPAllocator cidr = Ok a -> vip_wf a.
Proof.
  intros Hp (Hw & Hz & Hb). unfold NewVIPAllocator. rewrite Hp.
  destruct (pfx_addr pfx) as [|v|v z] eqn:Ea; cbn [Is4 negb]; try done. cbn in Hw, Hb.
  intros [= <-]. unfold Masked. rewrite Ea. cbn [pfx_addr pfx_bits].
  pose proof (pool_pos (pfx_bits pfx) Hb) as Hk. set (k := 2 ^ (32 - pfx_bits pfx)) in *.
  rewrite Z.shiftl_mul_pow2, Z.shiftr_div_pow2 by lia. fold k.
  set (m := v / k * k). assert (0 <= m /\ m + k <= 2 ^ 32) as Hm.
  { unfold m. pose proof (Z.div_mod v k ltac:(lia)). pose proof (Z.mod_pos_bound v k ltac:(lia)).
    pose proof (Z.div_pos v k ltac:(lia) ltac:(lia)). split; [nia|]. assert (2 ^ 32 = 2 ^ pfx_bits pfx * k) as Epow.
    { unfold k. rewrite <- Z.pow_add_r by lia. f_equal. lia. }
    assert (v / k < 2 ^ pfx_bits pfx) by (apply Z.div_lt_upper_bound; lia). nia. }
  assert (forall ip : Addr, ~ is_Some ((∅ : gmap Addr string) !! ip)) as Hempty.
  { intros ip [x Hx]. by rewrite lookup_empty in Hx. }
  constructor; cbn [vip_prefix nameToIP ipToName]; unfold base_val, pool_size, next_val;
    cbn [vip_prefix vip_next pfx_addr pfx_bits Addr_Next]; fold k; try done.
  - unfold m. apply Z.mod_mul. lia.
  - destruct (Z.eqb_spec (m + 1) (2 ^ 32)) as [E|]; split; auto; lia.
  - by intros ip Hip%Hempty.
  - intros v' [Hv' _] Hlt. unfold base_val, pool_size, next_val in *.
    cbn [vip_prefix vip_next pfx_addr pfx_bits Addr_Next] in *.
    destruct (Z.eqb_spec (m + 1) (2 ^ 32)) as [E|]; [fold k in Hv'|]; lia.
Qed.

Lemma NewVIPAllocator_ok_wf cidr a : NewVIPAllocator cidr = Ok a -> vip_wf a.
Proof.
  intros Hnew. destruct (ParsePrefix cidr) as [pfx|] eqn:Hp; [|by unfold NewVIPAllocator in Hnew; rewrite Hp in Hnew].
  apply (NewVIPAllocator_wf cidr a pfx Hp); [|done]. apply (ParsePrefix_4 cidr); [done|].
  unfold NewVIPAllocator in Hnew. rewrite Hp in Hnew. by destruct (Is4 (pfx_addr pfx)).
Qed.

Lemma foldl_Allocate1_wf names a :
  vip_wf a -> vip_wf (foldl (fun a n => snd (Allocate1 n a)) a names).
Proof. revert a. induction names as [|n names IH]; intros a Hwf; [done|]. cbn. by apply IH, Allocate1_wf. Qed.

(** A range with three usable addresses. *)
Definition tiny_pool : VIPAllocator :=
  mkVIP (mkPrefix (Addr4 0x0a000000) 30) ∅ ∅ (Addr4 0x0a000001).

Lemma tiny_pool_new : NewVIPAllocator "10.0.0.2/30" = Ok tiny_pool.
Proof. vm_compute. reflexivity. Qed.

(** ** Properties *)

(** C40. The allocator is a bijection between names and virtual addresses.  A
    new allocator, and an allocator after any sequence of [Allocate] calls,
    maps each allocated name to a usable address of its range, distinct names
    to distinct addresses, and [Lookup] returns the name an address was
    allocated to. *)
Theorem vip_bijection cidr a0 names :
  NewVIPAllocator cidr = Ok a0 ->
  let a := foldl (fun a n => snd (Allocate1 n a)) a0 names in
  vip_wf a /\
  (forall n ip, LookupName n a = Some ip ->
     (exists v, ip = Addr4 v /\ in_pool a v) /\ ipToName a !! ip = Some n /\ Lookup ip a = n) /\
  (forall n m ip, LookupName n a = Some ip -> LookupName m a = Some ip -> n = m).
Proof.
  intros Hnew. cbv zeta. set (a := foldl _ _ _).
  assert (vip_wf a) as Hwf by (apply foldl_Allocate1_wf; by eapply NewVIPAllocator_ok_wf).
  split_and!; [done| |].
  - intros n ip Hn. apply (vw_inverse a Hwf) in Hn. unfold Lookup. rewrite Hn. split_and!; try done.
    destruct (vw_alloc a Hwf ip ltac:(by eexists)) as (v & -> & Hp & _). eauto.
  - intros n m ip Hn Hm. apply (vw_inverse a Hwf) in Hn, Hm. congruence.
Qed.

Lemma vip_bijection_witness :
  Lookup (Addr4 0x0a000002) (foldl (fun a n => snd (Allocate1 n a)) tiny_pool ["a"; "b"]%string) =
    "b"%string.
Proof.
  refine (proj2 (proj2 (proj1 (proj2 (vip_bijection "10.0.0.2/30" tiny_pool ["a"; "b"]%string
    tiny_pool_new)) "b"%string (Addr4 0x0a000002) _))).
  vm_compute. reflexivity.
Defined.

(** [Allocate] terminates, within three rounds of its loop, and is exact:
    a known name keeps its address and changes nothing; a new name gets an
    address of the range nobody has; and the pool is reported exhausted only
    when every usable address of the range is taken. *)
Theorem Allocate_exact name a fuel :
  vip_wf a -> (3 <= fuel)%nat ->
  is_Some (Allocate fuel name a) /\
  exists r a', Allocate 3 name a = Some (r, a') /\
    match LookupName name a with
    | Some ip => r = Ok ip /\ a' = a
    | None =>
        match r with
        | Ok ip => exists v, ip = Addr4 v /\ in_pool a v /\ ipToName a !! ip = None /\
            LookupName name a' = Some ip /\ Lookup ip a' = name /\
            forall m, m <> name -> LookupName m a' = LookupName m a
        | Err e => e = exhausted /\ (forall v, in_pool a v -> is_Some (ipToName a !! Addr4 v)) /\
            forall m, LookupName m a' = LookupName m a
        end
    end.
Proof.
  intros Hwf Hf. split; [by apply Allocate_total|].
  destruct (Allocate_total name a 3 Hwf ltac:(lia)) as [[r a'] E]. exists r, a'. split; [done|].
  pose proof (Allocate_run name a r a' Hwf E) as H. unfold LookupName.
  destruct (nameToIP a !! name); [done|]. destruct H as (_ & _ & H). destruct r as [ip|e].
  - destruct H as (v & -> & Hp & Hfree & En & Ei). exists v. unfold Lookup. rewrite En, Ei.
    rewrite !lookup_insert_eq. split_and!; try done. intros m Hm. by rewrite lookup_insert_ne.
  - destruct H as (-> & En & Ei & Hall). by rewrite En.
Qed.

Lemma Allocate_exact_witness :
  exists r a', Allocate 3 "c" (foldl (fun a n => snd (Allocate1 n a)) tiny_pool
    ["a"; "b"; "x"]%string) = Some (r, a') /\ r = Err exhausted.
Proof.
  destruct (Allocate_exact "c" (foldl (fun a n => snd (Allocate1 n a)) tiny_pool
    ["a"; "b"; "x"]%string) 3
    (foldl_Allocate1_wf _ _ (NewVIPAllocator_ok_wf _ _ tiny_pool_new)) ltac:(lia))
    as (_ & r & a' & E & _).
  exists r, a'. split; [exact E|]. vm_compute in E. injection E as <- <-. reflexivity.
Defined.
