(* ===== verification/Dns.v ===== *)
(** * [pkg/intercept/dns.go]: the DNS server that hands out virtual IPs

    [dnsmessage] is a library the server only calls: parsing a query and
    packing an answer are parameters.  Lower-casing and trimming of strings
    with non-ASCII bytes go through Unicode tables, which are parameters as
    well; for ASCII strings they are defined here. *)

From Stdlib Require Import Strings.Ascii.
From S2P Require Import Prelude Netip Orp Vip.

(** ** Go strings *)
Definition chars (s : string) : list ascii := String.list_ascii_of_string s.
Definition of_chars (l : list ascii) : string := String.string_of_list_ascii l.

Definition is_ascii (s : string) : bool := forallb (fun c => (N_of_ascii c <? 128)%N) (chars s).

Definition lower_char (c : ascii) : ascii :=
  let n := N_of_ascii c in
  if ((65 <=? n) && (n <=? 90))%N then ascii_of_N (n + 32) else c.

Definition ascii_lower (s : string) : string := of_chars (map lower_char (chars s)).

(** Tab, newline, vertical tab, form feed, carriage return, space. *)
Definition is_space (c : ascii) : bool :=
  let n := N_of_ascii c in ((9 <=? n) && (n <=? 13) || (n =? 32))%N.

Fixpoint trim_left (l : list ascii) : list ascii :=
  match l with
  | [] => []
  | c :: l' => if is_space c then trim_left l' else l
  end.

Definition ascii_trim (s : string) : string :=
  of_chars (rev (trim_left (rev (trim_left (chars s))))).

Definition HasPrefix (s p : string) : bool := bool_decide (chars p `prefix_of` chars s).
Definition HasSuffix (s p : string) : bool := bool_decide (chars p `suffix_of` chars s).

Definition TrimSuffix (s p : string) : string :=
  if HasSuffix s p then of_chars (take (length (chars s) - length (chars p)) (chars s)) else s.

(** ** Messages *)
Record Question : Type := mkQuestion { q_Name : string; q_Type : Z; q_Class : Z }.
Record Header : Type := mkHeader { hdr_ID : Z; hdr_RecursionDesired : bool }.

Definition TypeA : Z := 1.
Definition TypeAAAA : Z := 28.
Definition ClassINET : Z := 1.

Inductive RCode : Type := RCodeSuccess | RCodeNameError | RCodeNotImplemented.

#[export] Instance RCode_eq_dec : EqDecision RCode.
Proof. solve_decision. Defined.

Record Resource : Type := mkResource {
  rr_Name : string; rr_Type : Z; rr_Class : Z; rr_TTL : Z; rr_A : list Z
}.

Record Message : Type := mkMessage {
  m_ID : Z;
  m_Response : bool;
  m_RecursionDesired : bool;
  m_RCode : RCode;
  m_Questions : list Question;
  m_Answers : list Resource
}.

(** ** The server *)
Record DNSServer : Type := mkDNS {
  dns_listenAddr : string;
  dns_suffix : string;
  dns_alloc : VIPAllocator
}.

Inductive dns_read : Type :=
  | Packet (p : list byte) (from : AddrPort)
  | ReadClosed            (* net.ErrClosed *)
  | ReadTimeout
  | ReadFailed (e : error).

Section Server.
Context (unicode_lower unicode_trim : string -> string).
Context (dns_start : list byte -> option Header) (dns_question : list byte -> option Question)
  (dns_pack : Message -> option (list byte)).

Definition ToLower (s : string) : string := if is_ascii s then ascii_lower s else unicode_lower s.
Definition TrimSpace (s : string) : string := if is_ascii s then ascii_trim s else unicode_trim s.

Definition NewDNSServer (listenAddr suffix : string) (alloc : option VIPAllocator)
    : result DNSServer :=
  match alloc with
  | None => Err (ErrorString "intercept: nil VIPAllocator")
  | Some alloc =>
      let suffix := ToLower (TrimSpace suffix) in
      let suffix :=
        if negb (bool_decide (suffix = "")) && negb (HasPrefix suffix ".")
        then "." +:+ suffix else suffix in
      Ok (mkDNS listenAddr suffix alloc)
  end.

Definition lookup (s : DNSServer) (qname : string) : option Addr :=
  let name := ToLower (TrimSuffix qname ".") in
  if negb (bool_decide (dns_suffix s = "")) && negb (HasSuffix name (dns_suffix s)) then None
  else
    let name := if bool_decide (dns_suffix s = "") then name else TrimSuffix name (dns_suffix s) in
    if bool_decide (name = "") then None
    else LookupName name (dns_alloc s).

(** [vip.As4()] of an IPv4 address. *)
Definition vip_bytes (a : Addr) : list Z := match a with Addr4 v => As4 v | _ => [] end.

Definition answer (s : DNSServer) (hdr : Header) (q : Question) : Message :=
  let reply rc ans := mkMessage (hdr_ID hdr) true (hdr_RecursionDesired hdr) rc [q] ans in
  if q_Type q =? TypeA then
    match lookup s (q_Name q) with
    | Some vip =>
        reply RCodeSuccess [mkResource (q_Name q) TypeA ClassINET 60 (vip_bytes vip)]
    | None => reply RCodeNameError []
    end
  else if q_Type q =? TypeAAAA then reply RCodeNameError []
  else reply RCodeNotImplemented [].

Definition respond (s : DNSServer) (query : list byte) : option (list byte) :=
  match dns_start query with
  | None => None
  | Some hdr =>
      match dns_question query with
      | None => None
      | Some q => dns_pack (answer s hdr q)
      end
  end.

(** The serving loop of [Run] over the reads it makes: the datagrams sent and,
    once it returned, Go's error ([Some None] for nil). *)
Fixpoint serve_loop (s : DNSServer) (reads : list dns_read)
    : list (list byte * AddrPort) * option (option error) :=
  match reads with
  | [] => ([], None)
  | ReadClosed :: _ => ([], Some None)
  | ReadTimeout :: reads' => serve_loop s reads'
  | ReadFailed e :: _ => ([], Some (Some e))
  | Packet p from :: reads' =>
      let '(out, r) := serve_loop s reads' in
      match respond s p with
      | None => (out, r)
      | Some resp => ((resp, from) :: out, r)
      end
  end.

(** [Run]: [listen] is the error of [net.ListenPacket]. *)
Definition DNSServer_Run (s : DNSServer) (listen : option error) (reads : list dns_read)
    : list (list byte * AddrPort) * option (option error) :=
  match listen with
  | Some e => ([], Some (Some (Wrapped "intercept: dns listen" e)))
  | None => serve_loop s reads
  end.

End Server.

(** ** [SO_ORIGINAL_DST] ([tproxy_linux.go])

    [raw] is the 16-byte [sockaddr_in] of a call that succeeded. *)
Definition origDst4 (scErr cErr inErr : option error) (raw : list Z) : result AddrPort :=
  match scErr, cErr, inErr with
  | Some e, _, _ | None, Some e, _ | None, None, Some e => Err e
  | None, None, None =>
      let b i := default 0 (raw !! i) in
      Ok (mkAddrPort (AddrFrom4 (b 4%nat) (b 5%nat) (b 6%nat) (b 7%nat))
            (b 2%nat * 256 + b 3%nat))
  end.

(** ** Facts about strings *)
Lemma chars_app a b : chars (a +:+ b) = chars a ++ chars b.
Proof. unfold chars. induction a as [|c a IH]; [done|]. simpl. by rewrite <- IH. Qed.

Lemma of_chars_chars s : of_chars (chars s) = s.
Proof. apply String.string_of_list_ascii_of_string. Qed.

Lemma chars_of_chars l : chars (of_chars l) = l.
Proof. apply String.list_ascii_of_string_of_list_ascii. Qed.

Lemma of_chars_inj a b : chars a = chars b -> a = b.
Proof. intros E. by rewrite <- (of_chars_chars a), <- (of_chars_chars b), E. Qed.

Lemma HasSuffix_app a b : HasSuffix (a +:+ b) b = true.
Proof. unfold HasSuffix. rewrite chars_app. apply bool_decide_eq_true. by exists (chars a). Qed.

Lemma TrimSuffix_app a b : TrimSuffix (a +:+ b) b = a.
Proof.
  unfold TrimSuffix. rewrite HasSuffix_app, chars_app, length_app, Nat.add_sub, take_app_length.
  apply of_chars_chars.
Qed.

(** The characters of a trimmed string are characters of the string. *)
Lemma TrimSuffix_sub s p c : c ∈ chars (TrimSuffix s p) -> c ∈ chars s.
Proof.
  unfold TrimSuffix. destruct (HasSuffix s p); [|done].
  rewrite chars_of_chars. intros (i & Hi & _)%elem_of_take. by eapply list_elem_of_lookup_2.
Qed.

Lemma lower_char_idem c : lower_char (lower_char c) = lower_char c.
Proof.
  destruct c as [b0 b1 b2 b3 b4 b5 b6 b7].
  destruct b0, b1, b2, b3, b4, b5, b6, b7; vm_compute; reflexivity.
Qed.

Lemma ascii_lower_char s c : c ∈ chars (ascii_lower s) -> lower_char c = c.
Proof.
  unfold ascii_lower. rewrite chars_of_chars, list_elem_of_fmap.
  intros (d & -> & _). apply lower_char_idem.
Qed.

Lemma lower_fixed s : (forall c, c ∈ chars s -> lower_char c = c) -> ascii_lower s = s.
Proof.
  intros H. apply of_chars_inj. unfold ascii_lower. rewrite chars_of_chars.
  induction (chars s) as [|c l IH]; [done|]. cbn. f_equal; [apply H; by left|].
  apply IH. intros d Hd. apply H. by right.
Qed.

Lemma is_ascii_TrimSuffix s p : is_ascii s = true -> is_ascii (TrimSuffix s p) = true.
Proof.
  unfold is_ascii. rewrite !forallb_forall.
  intros H c Hc. apply H, list_elem_of_In, (TrimSuffix_sub s p). by apply list_elem_of_In.
Qed.

(** ** Properties *)
Section Properties.
Context (unicode_lower unicode_trim : string -> string).
Abbreviation lookup' := (lookup unicode_lower).

Lemma lookup_name s qname name :
  ToLower unicode_lower (TrimSuffix qname ".") = name +:+ dns_suffix s -> name <> "" ->
  lookup' s qname = LookupName name (dns_alloc s).
Proof.
  intros Hq Hne. unfold lookup. rewrite Hq, HasSuffix_app, andb_false_r. cbv zeta.
  destruct (bool_decide (dns_suffix s = "")) eqn:Hs.
  - apply bool_decide_eq_true in Hs. rewrite Hs. assert (name +:+ "" = name) as ->.
    { apply of_chars_inj. by rewrite chars_app, app_nil_r. }
    by rewrite bool_decide_eq_false_2.
  - rewrite TrimSuffix_app. by rewrite bool_decide_eq_false_2.
Qed.

(** An ASCII query only reaches lower-case names. *)
Lemma lookup_lower s qname ip :
  is_ascii qname = true -> lookup' s qname = Some ip ->
  exists name, LookupName name (dns_alloc s) = Some ip /\ ascii_lower name = name.
Proof.
  intros Ha. unfold lookup, ToLower. rewrite is_ascii_TrimSuffix by done. intros Hl.
  assert (exists name, LookupName name (dns_alloc s) = Some ip /\
    forall c, c ∈ chars name -> c ∈ chars (ascii_lower (TrimSuffix qname "."))) as (name & Hn & Hc).
  { repeat case_match; try done; eexists; (split; [done|]); intros c; [|apply TrimSuffix_sub]; done. }
  exists name. split; [done|]. apply lower_fixed. intros c H%Hc. by eapply ascii_lower_char.
Qed.
End Properties.

(** The four address bytes of a [sockaddr_in]. *)
Definition sockaddr_addr (raw : list Z) : list Z := take 4 (drop 4 raw).

Lemma origDst4_addr raw v :
  0 <= v < 2 ^ 32 -> sockaddr_addr raw = As4 v ->
  exists port, origDst4 None None None raw = Ok (mkAddrPort (Addr4 v) port).
Proof.
  intros Hv Hraw. unfold origDst4, sockaddr_addr, As4 in *. eexists. repeat f_equal.
  assert (forall i, (i < 4)%nat -> raw !! (4 + i)%nat =
    [v4oct v 0; v4oct v 1; v4oct v 2; v4oct v 3] !! i) as Hb.
  { intros i Hi. by rewrite <- Hraw, lookup_take_lt, lookup_drop. }
  rewrite (Hb 0%nat ltac:(lia) : raw !! 4%nat = _), (Hb 1%nat ltac:(lia) : raw !! 5%nat = _),
    (Hb 2%nat ltac:(lia) : raw !! 6%nat = _), (Hb 3%nat ltac:(lia) : raw !! 7%nat = _).
  cbn [lookup list_lookup default]. by apply AddrFrom4_As4.
Qed.

(** Interception closes the circle.  For a service name allocated at
    start-up, an A query for the name with the configured suffix (in any
    spelling that lower-cases to it, with or without the final dot) is
    answered with exactly one address record of TTL 60; and a connection the
    kernel redirected for that address is recovered by [origDst4] and mapped
    back to the same service. *)
Theorem dns_tproxy_roundtrip (unicode_lower : string -> string) s hdr q name ip raw :
  vip_wf (dns_alloc s) -> LookupName name (dns_alloc s) = Some ip -> name <> "" ->
  ToLower unicode_lower (TrimSuffix (q_Name q) ".") = name +:+ dns_suffix s ->
  q_Type q = TypeA -> sockaddr_addr raw = vip_bytes ip ->
  let m := answer unicode_lower s hdr q in
  m_RCode m = RCodeSuccess /\ m_ID m = hdr_ID hdr /\ m_Questions m = [q] /\
  m_Answers m = [mkResource (q_Name q) TypeA ClassINET 60 (vip_bytes ip)] /\
  exists dst, origDst4 None None None raw = Ok dst /\ Lookup (ap_addr dst) (dns_alloc s) = name.
Proof.
  intros Hwf Hn Hne Hq Ht Hraw. cbv zeta. unfold answer. rewrite Ht. cbn [TypeA Z.eqb Pos.eqb].
  rewrite (lookup_name unicode_lower s (q_Name q) name Hq Hne), Hn. cbn.
  split_and!; try done.
  apply (vw_inverse _ Hwf) in Hn.
  destruct (vw_alloc _ Hwf ip ltac:(by eexists)) as (v & -> & [Hp _] & _).
  pose proof (vw_range _ Hwf). destruct (origDst4_addr raw v ltac:(lia) Hraw) as [port Ho].
  exists (mkAddrPort (Addr4 v) port). split; [done|]. unfold Lookup. cbn. by rewrite Hn.
Qed.

Definition demo_alloc : VIPAllocator := snd (Allocate1 "svc" tiny_pool).
Definition demo_dns : DNSServer := mkDNS ":53" ".outrelay" demo_alloc.

Lemma dns_tproxy_roundtrip_witness :
  m_Answers (answer id demo_dns (mkHeader 5 true) (mkQuestion "SVC.OutRelay." TypeA ClassINET)) =
    [mkResource "SVC.OutRelay." TypeA ClassINET 60 [10; 0; 0; 1]].
Proof.
  refine (proj1 (proj2 (proj2 (proj2 (dns_tproxy_roundtrip id demo_dns (mkHeader 5 true)
    (mkQuestion "SVC.OutRelay." TypeA ClassINET) "svc" (Addr4 0x0a000001)
    [2; 0; 31; 144; 10; 0; 0; 1; 0; 0; 0; 0; 0; 0; 0; 0] _ _ _ _ _ _)))));
    [|vm_compute; reflexivity|discriminate|vm_compute; reflexivity|reflexivity|vm_compute; reflexivity].
  exact (Allocate1_wf "svc" tiny_pool (NewVIPAllocator_ok_wf _ _ tiny_pool_new)).
Defined.

(** Everything else is refused: a query that resolves to nothing and every
    AAAA query get NXDOMAIN, other types NOTIMP, always without answers and
    echoing the question and the id; a malformed query gets no reply. *)
Theorem dns_refuses (unicode_lower : string -> string) dns_start dns_question dns_pack s hdr q query :
  let m := answer unicode_lower s hdr q in
  m_ID m = hdr_ID hdr /\ m_Response m = true /\ m_Questions m = [q] /\
  m_RecursionDesired m = hdr_RecursionDesired hdr /\
  (m_Answers m <> [] <-> q_Type q = TypeA /\ lookup unicode_lower s (q_Name q) <> None) /\
  (m_RCode m = RCodeSuccess <-> m_Answers m <> []) /\
  (m_RCode m = RCodeNotImplemented <-> q_Type q <> TypeA /\ q_Type q <> TypeAAAA) /\
  (dns_start query = None \/ dns_question query = None ->
     respond unicode_lower dns_start dns_question dns_pack s query = None).
Proof.
  cbv zeta. unfold answer, respond.
  destruct (Z.eqb_spec (q_Type q) TypeA) as [Ht|Ht];
    [destruct (lookup unicode_lower s (q_Name q)) as [ip|]
    |destruct (Z.eqb_spec (q_Type q) TypeAAAA) as [Ht'|Ht']]; cbn;
    split_and!; try done;
    try (intros [->| ->]; [done|by destruct (dns_start query)]); intuition congruence.
Qed.

(** The reply to one read. *)
Definition reply_to ul st qu pk s (r : dns_read) : option (list byte * AddrPort) :=
  match r with
  | Packet p from => resp ← respond ul st qu pk s p; Some (resp, from)
  | _ => None
  end.

(** The server survives its clients: over any sequence of packets and read
    timeouts it answers every packet it can parse, in order and to its
    sender, skips the others, and returns nil once the socket is closed. *)
Theorem dns_serves_until_closed ul st qu pk s reads rest :
  Forall (fun r => r <> ReadClosed /\ forall e, r <> ReadFailed e) reads ->
  DNSServer_Run ul st qu pk s None (reads ++ ReadClosed :: rest) =
    (omap (reply_to ul st qu pk s) reads, Some None).
Proof.
  intros Hr. unfold DNSServer_Run. induction Hr as [|r reads [Hc Hf] _ IH]; [done|]. cbn -[respond].
  destruct r as [p from| | |e]; [|done|done|by destruct (Hf e)].
  rewrite IH. unfold reply_to. by destruct (respond ul st qu pk s p).
Qed.

Lemma dns_serves_until_closed_witness :
  DNSServer_Run id (fun _ => None) (fun _ => None) (fun _ => None) demo_dns None
    [ReadTimeout; Packet [1] (mkAddrPort (Addr4 1) 9); ReadClosed] = ([], Some None).
Proof.
  exact (dns_serves_until_closed id (fun _ => None) (fun _ => None) (fun _ => None) demo_dns
    [ReadTimeout; Packet [1] (mkAddrPort (Addr4 1) 9)] []
    ltac:(repeat constructor; discriminate)).
Defined.

(** Two spellings the server's description promises are refused.  With a
    suffix configured the bare service name (one that does not itself end in
    the suffix) is NXDOMAIN, and a service allocated under a name with an
    upper-case letter cannot be resolved by any ASCII query, because the
    query is lower-cased and the allocation is not. *)
Theorem dns_unreachable_names (unicode_lower : string -> string) s bare name ip qname :
  vip_wf (dns_alloc s) ->
  (dns_suffix s <> "" ->
     HasSuffix (ToLower unicode_lower (TrimSuffix bare ".")) (dns_suffix s) = false ->
     lookup unicode_lower s bare = None) /\
  (ascii_lower name <> name -> LookupName name (dns_alloc s) = Some ip -> is_ascii qname = true ->
     lookup unicode_lower s qname <> Some ip).
Proof.
  intros Hwf. split.
  - intros Hs Hsuf. unfold lookup. by rewrite bool_decide_eq_false_2, Hsuf by done.
  - intros Hup Hn Ha (name' & Hn' & Hl)%(lookup_lower unicode_lower s qname ip Ha).
    apply (vw_inverse _ Hwf) in Hn, Hn'. congruence.
Qed.

Lemma dns_unreachable_names_witness : lookup id demo_dns "svc" = None.
Proof.
  apply (proj1 (dns_unreachable_names id demo_dns "svc" "SVC" (Addr4 0) "svc"
    (Allocate1_wf "svc" tiny_pool (NewVIPAllocator_ok_wf _ _ tiny_pool_new)))).
  - discriminate.
  - vm_compute. reflexivity.
Defined.
