(* ===== verification/Intercept.v ===== *)
(** * [pkg/intercept]: the explicit and tproxy interceptors

    Both run one accept loop per listener that hands connections over an
    unbuffered channel to [Accept], next to a [closed] channel.  The critical
    points of the loops, [Accept] and [Close] are the steps of a machine; the
    two interceptors differ in how a connection gets its service and in what
    happens when accepting fails. *)

From stdpp Require Import relations.
From S2P Require Import Prelude Netip Orp Forward Vip Dns.

Local Open Scope agent_scope.

(** ** Construction *)
Record ExplicitMapping : Type := mkMapping { BindAddr : string; TargetSvc : string }.

Section Construct.
Context `{N : Net} {S : Type}.

Fixpoint close_listeners (lns : list nat) : Eff S unit :=
  match lns with
  | [] => mret tt
  | ln :: lns' => do_ release ResListener ln ;; close_listeners lns'
  end.

Fixpoint explicit_loop (mappings : list ExplicitMapping) (lns : list nat) : Eff S (result (list nat)) :=
  match mappings with
  | [] => mret (Ok lns)
  | m :: mappings' =>
      do ln <- acquire ResListener ;;
      match ln with
      | Err e => do_ close_listeners lns ;; mret (Err (Wrapped "intercept: listen" e))
      | Ok ln =>
          do_ emit (EvSpawn "acceptLoop") ;;
          explicit_loop mappings' (lns ++ [ln])
      end
  end.

(** [NewExplicit]; the listeners of the interceptor. *)
Definition NewExplicit (mappings : list ExplicitMapping) : Eff S (result (list nat)) :=
  match mappings with
  | [] => mret (Err (ErrorString "intercept: no explicit mappings"))
  | _ => explicit_loop mappings []
  end.

(** [NewTProxy] on Linux; elsewhere it only fails. *)
Definition NewTProxy (linux : bool) (alloc : option VIPAllocator) : Eff S (result nat) :=
  if linux then
    match alloc with
    | None => mret (Err (ErrorString "intercept: nil VIPAllocator"))
    | Some _ =>
        do ln <- acquire ResListener ;;
        match ln with
        | Err e => mret (Err (Wrapped "intercept: tproxy listen" e))
        | Ok ln => do_ emit (EvSpawn "acceptLoop") ;; mret (Ok ln)
        end
    end
  else mret (Err (ErrorString "intercept: tproxy is linux-only")).
End Construct.

(** ** Naming the target *)

(** A connection as the tproxy loop sees it: whether it is a TCP connection
    and what [origDst4] recovers. *)
Record redirected : Type := mkRedirected { rd_tcp : bool; rd_dst : result AddrPort }.

(** The service of a redirected connection; [None] closes it. *)
Definition tproxy_target (alloc : VIPAllocator) (c : redirected) : option string :=
  if negb (rd_tcp c) then None
  else
    match rd_dst c with
    | Err _ => None
    | Ok dst =>
        let svc := Lookup (ap_addr dst) alloc in
        if bool_decide (svc = "") then None else Some svc
    end.

(** ** The machine *)
Inductive loop : Type :=
  | Idle                               (* in ln.Accept *)
  | Sending (c : nat) (svc : string)   (* in the select on accepts / closed *)
  | Stopped.

Record istate : Type := mkI {
  i_loops : list loop;
  i_errs : list error;              (* the buffered error channel *)
  i_closed : bool;
  i_accepted : list nat;            (* connections taken from listeners *)
  i_delivered : list (nat * string);
  i_dropped : list nat              (* connections closed by a loop *)
}.

Section Machine.
(** [target i c] names the service of connection [c] of listener [i];
    [surface] whether accept errors reach [Accept]. *)
Context (target : nat -> nat -> option string) (surface : bool).

Definition init (n : nat) : istate := mkI (replicate n Idle) [] false [] [] [].

Definition set_loop (i : nat) (l : loop) (s : istate) : istate :=
  mkI (<[i := l]> (i_loops s)) (i_errs s) (i_closed s) (i_accepted s) (i_delivered s) (i_dropped s).

(** [ln.Accept] returned connection [c]. *)
Definition loop_accept (i c : nat) (s : istate) : istate :=
  match target i c with
  | Some svc =>
      mkI (<[i := Sending c svc]> (i_loops s)) (i_errs s) (i_closed s) (i_accepted s ++ [c])
        (i_delivered s) (i_dropped s)
  | None =>
      mkI (i_loops s) (i_errs s) (i_closed s) (i_accepted s ++ [c]) (i_delivered s)
        (i_dropped s ++ [c])
  end.

(** [ln.Accept] failed. *)
Definition loop_fail (i : nat) (e : error) (s : istate) : istate :=
  if i_closed s || negb surface then set_loop i Stopped s
  else
    mkI (<[i := Stopped]> (i_loops s)) (match i_errs s with [] => [e] | l => l end) (i_closed s)
      (i_accepted s) (i_delivered s) (i_dropped s).

(** A send on [accepts] meets a receive of [Accept]. *)
Definition loop_deliver (i c : nat) (svc : string) (s : istate) : istate :=
  mkI (<[i := Idle]> (i_loops s)) (i_errs s) (i_closed s) (i_accepted s)
    (i_delivered s ++ [(c, svc)]) (i_dropped s).

(** The select took [closed]. *)
Definition loop_drop (i c : nat) (s : istate) : istate :=
  mkI (<[i := Stopped]> (i_loops s)) (i_errs s) (i_closed s) (i_accepted s) (i_delivered s)
    (i_dropped s ++ [c]).

Definition Close (s : istate) : istate :=
  mkI (i_loops s) (i_errs s) true (i_accepted s) (i_delivered s) (i_dropped s).

(** [Accept] returned the buffered error. *)
Definition take_err (s : istate) : istate :=
  mkI (i_loops s) [] (i_closed s) (i_accepted s) (i_delivered s) (i_dropped s).

(** What an [Accept] call returns. *)
Inductive outcome : Type :=
  | Got (c : nat) (svc : string)
  | Failed (e : error).

Inductive accept_result : istate -> outcome -> istate -> Prop :=
  | ar_conn s i c svc :
      i_loops s !! i = Some (Sending c svc) -> accept_result s (Got c svc) (loop_deliver i c svc s)
  | ar_err s e l : i_errs s = e :: l -> accept_result s (Failed e) (take_err s)
  | ar_closed s : i_closed s = true -> accept_result s (Failed (Sentinel InterceptClosed)) s
  | ar_ctx s e : accept_result s (Failed e) s.

Inductive istep : istate -> istate -> Prop :=
  | is_accept s i c : i_loops s !! i = Some Idle -> istep s (loop_accept i c s)
  | is_fail s i e : i_loops s !! i = Some Idle -> istep s (loop_fail i e s)
  | is_drop s i c svc :
      i_loops s !! i = Some (Sending c svc) -> i_closed s = true -> istep s (loop_drop i c s)
  | is_close s : istep s (Close s)
  | is_call s r s' : accept_result s r s' -> istep s s'.

(** ** Conservation of connections *)
Definition held (l : loop) : option nat := match l with Sending c _ => Some c | _ => None end.

Definition pending (s : istate) : list nat := omap held (i_loops s).

Record conserved (s : istate) : Prop := {
  cv_all : i_accepted s ≡ₚ map fst (i_delivered s) ++ i_dropped s ++ pending s;
  cv_sending : forall i c svc, i_loops s !! i = Some (Sending c svc) -> target i c = Some svc;
  cv_delivered : forall c svc, (c, svc) ∈ i_delivered s -> exists i, target i c = Some svc
}.

Lemma omap_insert_perm (ls : list loop) i x y :
  ls !! i = Some x -> option_list (held x) ++ omap held (<[i := y]> ls) ≡ₚ
                      option_list (held y) ++ omap held ls.
Proof.
  intros Hi. rewrite insert_take_drop by (by eapply lookup_lt_Some).
  rewrite <- (take_drop_middle ls i x Hi) at 3. rewrite !omap_app. cbn.
  destruct (held x), (held y); cbn; rewrite ?Permutation_middle; try done.
  rewrite !(Permutation_app_comm _ (_ :: _)). cbn. by rewrite perm_swap.
Qed.

Lemma conserved_init n : conserved (init n).
Proof.
  constructor; cbn; try done.
  - unfold pending. cbn. induction n; done.
  - intros i c svc Hi. apply lookup_replicate in Hi as [? _]. done.
  - by intros c svc ?%elem_of_nil.
Qed.

Lemma conserved_set s i x y acc del dr errs cl :
  conserved s -> i_loops s !! i = Some x ->
  (forall c svc, y = Sending c svc -> target i c = Some svc) ->
  (forall c svc, (c, svc) ∈ del -> exists j, target j c = Some svc) ->
  option_list (held x) ++ acc ≡ₚ
    map fst del ++ dr ++ option_list (held y) ++ omap held (i_loops s) ->
  conserved (mkI (<[i := y]> (i_loops s)) errs cl acc del dr).
Proof.
  intros [Ha Hs Hd] Hi Hy Hdel Hp. constructor; cbn; [| |done].
  - unfold pending. cbn. apply (Permutation_app_inv_l (option_list (held x))).
    rewrite Hp. rewrite <- (omap_insert_perm (i_loops s) i x y Hi).
    rewrite (app_assoc _ dr), (app_assoc _ (option_list (held x))).
    rewrite (Permutation_app_comm (_ ++ dr) (option_list (held x))). by rewrite <- !app_assoc.
  - intros j c svc. destruct (decide (i = j)) as [<-|Hne].
    + rewrite list_lookup_insert_eq by (by eapply lookup_lt_Some). intros [= ->]. by apply Hy.
    + rewrite list_lookup_insert_ne by done. apply Hs.
Qed.

Lemma step_conserved s s' : conserved s -> istep s s' -> conserved s'.
Proof.
  intros Hc Hs. pose proof Hc as [Ha Hsend Hdel]. destruct Hs as [s i c Hi|s i e Hi|s i c svc Hi Hcl|s|s r s' Hr].
  - unfold loop_accept. destruct (target i c) as [svc|] eqn:Et.
    + apply (conserved_set s i Idle); try done.
      * by intros c' svc' [= -> ->].
      * cbn. rewrite Ha. unfold pending. rewrite <- !app_assoc. cbn.
        by rewrite (Permutation_app_comm _ [c]).
    + constructor; cbn; try done. unfold pending. cbn. rewrite Ha. unfold pending.
      rewrite <- !app_assoc. by rewrite (Permutation_app_comm (omap held _) [c]).
  - unfold loop_fail, set_loop. destruct (i_closed s || negb surface);
      apply (conserved_set s i Idle); done.
  - apply (conserved_set s i (Sending c svc)); try done. cbn. rewrite Ha. unfold pending.
    rewrite <- !app_assoc. cbn. by rewrite !Permutation_middle.
  - by constructor.
  - destruct Hr as [s i c svc Hi|s e l He|s Hcl|s e]; [|by constructor|done|done].
    apply (conserved_set s i (Sending c svc)); try done.
    + intros c' svc' [Hin|[= -> ->]%list_elem_of_singleton]%elem_of_app; eauto.
    + cbn. rewrite Ha, map_app. unfold pending. rewrite <- !app_assoc. cbn.
      by rewrite !Permutation_middle.
Qed.

Lemma reachable_conserved n s : rtc istep (init n) s -> conserved s.
Proof.
  intros Hr. assert (forall s0, conserved s0 -> rtc istep s0 s -> conserved s) as H.
  { intros s0 H0 Hrtc. induction Hrtc; eauto using step_conserved. }
  eapply H, Hr. apply conserved_init.
Qed.

(** ** Shutting down *)
Lemma stop_loops s k :
  i_closed s = true -> (k <= length (i_loops s))%nat ->
  (forall i l, i_loops s !! i = Some l -> (i < k)%nat -> l = Stopped) ->
  exists s', rtc istep s s' /\ i_delivered s' = i_delivered s /\ Forall (eq Stopped) (i_loops s').
Proof.
  intros Hcl Hk. remember (length (i_loops s) - k)%nat as m eqn:Em.
  revert s k Hcl Hk Em. induction m as [|m IH]; intros s k Hcl Hk Em Hst.
  { exists s. split_and!; [apply rtc_refl|done|]. apply Forall_lookup. intros i l Hi. symmetry.
    apply (Hst i l Hi). apply lookup_lt_Some in Hi. lia. }
  destruct (lookup_lt_is_Some_2 (i_loops s) k) as [l Hl]; [lia|].
  assert (exists s1, rtc istep s s1 /\ i_delivered s1 = i_delivered s /\ i_closed s1 = true /\
    i_loops s1 = <[k := Stopped]> (i_loops s)) as (s1 & Hr1 & Hd1 & Hc1 & Hl1).
  { destruct l as [|c svc|].
    - eexists. split; [by apply rtc_once, (is_fail s k (Sentinel NetClosed))|].
      unfold loop_fail. rewrite Hcl. done.
    - eexists. split; [by apply rtc_once, (is_drop s k c svc)|]. done.
    - exists s. split_and!; [apply rtc_refl|done|done|]. by rewrite list_insert_id. }
  destruct (IH s1 (S k)) as (s' & Hr' & Hd' & Hf); [done| | | |].
  - rewrite Hl1, length_insert. lia.
  - rewrite Hl1, length_insert. lia.
  - intros i l'. rewrite Hl1. destruct (decide (k = i)) as [<-|Hne].
    + rewrite list_lookup_insert_eq by lia. by intros [= <-].
    + rewrite list_lookup_insert_ne by done. intros Hi Hlt. apply (Hst i l' Hi). lia.
  - exists s'. split_and!; [by etrans|congruence|done].
Qed.

End Machine.

(** ** Construction leaks no listener *)
Section ConstructFacts.
Context `{N : Net} {S : Type}.

Lemma close_listeners_run lns (s : S) t :
  exists ext, close_listeners lns (s, t) = (tt, (s, t ++ ext)) /\
    forall l, foldl live_step l ext = filter (fun x => fst x <> ResListener \/ snd x ∉ lns) l.
Proof.
  revert t. induction lns as [|ln lns IH]; intros t; cbn [close_listeners].
  { exists []. rewrite app_nil_r. split; [done|]. intros l. cbn. symmetry. apply filter_all.
    apply Forall_forall. intros x _. right. apply not_elem_of_nil. }
  unfold release, mbind. destruct (IH (t ++ [EvRelease ResListener ln (net_release t ResListener ln)]))
    as (ext & -> & He).
  eexists. rewrite <- app_assoc. split; [done|]. intros l. cbn. rewrite He, list_filter_filter.
  apply list_filter_iff. intros [k x]. cbn. rewrite not_elem_of_cons.
  destruct (decide (k = ResListener)) as [->|]; [|split; [intros [? ?]; auto|intros; split; [auto|congruence]]].
  split; [intros [[?|?] ?]; [done|right; split; [congruence|done]]|intros [?|[? ?]]; [done|]].
  split; [auto|congruence].
Qed.

Lemma explicit_loop_live mappings lns (s : S) t l :
  live t = l ++ map (pair ResListener) lns ->
  Forall (fun x => (snd x < length t)%nat /\ ~ (fst x = ResListener /\ snd x ∈ lns)) l ->
  let '(r, (_, t')) := explicit_loop mappings lns (s, t) in
  match r with
  | Ok lns' => live t' = l ++ map (pair ResListener) lns' /\
      length lns' = (length lns + length mappings)%nat
  | Err _ => live t' = l
  end.
Proof.
  revert lns t. induction mappings as [|m mappings IH]; intros lns t Hl Hf; cbn [explicit_loop].
  { split; [done|]. cbn. lia. }
  unfold acquire, emit, mbind. destruct (net_acquire t ResListener) as [e|].
  - destruct (close_listeners_run lns s (t ++ [EvRefused ResListener e])) as (ext & -> & He).
    cbn. rewrite live_app, He, live_app. cbn [foldl live_step]. rewrite Hl, filter_app.
    rewrite filter_all, filter_none; [by rewrite app_nil_r| |].
    + apply Forall_fmap, Forall_forall. intros x Hx. cbn. intuition.
    + eapply Forall_impl; [exact Hf|]. intros [k x] [_ Hx]. cbn in *.
      destruct (decide (k = ResListener)) as [->|]; [right; intuition|by left].
  - set (t1 := (t ++ [EvAcquire ResListener (length t)]) ++ [EvSpawn "acceptLoop"]).
    assert (live t1 = l ++ map (pair ResListener) (lns ++ [length t])) as H1.
    { unfold t1. rewrite !live_app. cbn. by rewrite Hl, map_app, app_assoc. }
    assert (Forall (fun x => (snd x < length t1)%nat /\
      ~ (fst x = ResListener /\ snd x ∈ lns ++ [length t])) l) as H2.
    { eapply Forall_impl; [exact Hf|]. intros [k x] [Hlt Hx]. unfold t1. cbn in *.
      rewrite !length_app. cbn. split; [lia|].
      rewrite elem_of_app, list_elem_of_singleton. intros [-> [?|?]]; [auto|lia]. }
    specialize (IH (lns ++ [length t]) t1 H1 H2).
    destruct (explicit_loop mappings (lns ++ [length t]) (s, t1)) as [[lns'|e] [s' t']]; [|done].
    destruct IH as [IH1 IH2]. split; [done|]. rewrite IH2, length_app. cbn. lia.
Qed.
Lemma NewExplicit_live mappings (s : S) t :
  live_old t ->
  let '(r, (_, t')) := NewExplicit mappings (s, t) in
  match r with
  | Ok lns => live t' = live t ++ map (pair ResListener) lns /\ length lns = length mappings
  | Err _ => live t' = live t
  end.
Proof.
  intros Ho. destruct mappings as [|m mappings]; [done|]. unfold NewExplicit.
  pose proof (explicit_loop_live (m :: mappings) [] s t (live t)) as H.
  destruct (explicit_loop (m :: mappings) [] (s, t)) as [r [s' t']]. apply H.
  - by rewrite app_nil_r.
  - eapply Forall_impl; [exact Ho|]. intros x Hx. split; [done|]. intros [_ ?%elem_of_nil]. done.
Qed.
End ConstructFacts.

(** ** Properties *)

(** [NewExplicit] is all or nothing: when one mapping cannot be bound,
    every listener opened before it has been closed; on success there is one
    listener per mapping. *)
Theorem NewExplicit_no_leak `{N : Net} {S} mappings (s : S) t :
  live_old t ->
  let '(r, (_, t')) := NewExplicit mappings (s, t) in
  match r with
  | Ok lns => live t' = live t ++ map (pair ResListener) lns /\ length lns = length mappings
  | Err _ => live t' = live t
  end.
Proof. apply NewExplicit_live. Qed.

Lemma NewExplicit_no_leak_witness :
  let '(r, (_, t')) := @NewExplicit (demo_net (fun _ _ => mkFrame FrameTypeHello [])) unit
    [mkMapping "127.0.0.1:1" "a"; mkMapping "127.0.0.1:2" "b"] (tt, []) in
  match r with
  | Ok lns => live t' = live [] ++ map (pair ResListener) lns /\ length lns = 2%nat
  | Err _ => live t' = live []
  end.
Proof.
  exact (@NewExplicit_no_leak (demo_net (fun _ _ => mkFrame FrameTypeHello [])) unit
    [mkMapping "127.0.0.1:1" "a"; mkMapping "127.0.0.1:2" "b"] tt [] ltac:(constructor)).
Defined.

(** No intercepted connection is lost or handed out twice: in every
    interleaving of the accept loops with [Accept] and [Close], each accepted
    connection is either delivered to exactly one [Accept], closed by its
    loop, or still held by a loop that is offering it, and a delivered one
    carries the service its listener or its original destination names. *)
Theorem intercept_conserves target surface n s :
  rtc (istep target surface) (init n) s ->
  i_accepted s ≡ₚ map fst (i_delivered s) ++ i_dropped s ++ pending s /\
  (forall c svc, (c, svc) ∈ i_delivered s -> exists i, target i c = Some svc).
Proof. intros Hr. destruct (reachable_conserved target surface n s Hr). done. Qed.

(** Shutdown completes: after [Close] the accept loops can always run to
    their end without any further [Accept], and then every connection that
    was not delivered has been closed. *)
Theorem intercept_shuts_down target surface n s :
  rtc (istep target surface) (init n) s -> i_closed s = true ->
  exists s', rtc (istep target surface) s s' /\ i_delivered s' = i_delivered s /\
    Forall (eq Stopped) (i_loops s') /\ i_accepted s' ≡ₚ map fst (i_delivered s') ++ i_dropped s'.
Proof.
  intros Hr Hcl. destruct (stop_loops target surface s 0 Hcl ltac:(lia)) as (s' & Hr' & Hd & Hf);
    [intros i l _ Hi; lia|].
  exists s'. split_and!; try done.
  assert (rtc (istep target surface) (init n) s') as Hr2 by by etrans.
  pose proof (cv_all _ _ (reachable_conserved target surface n s' Hr2)) as Ha.
  rewrite Ha. assert (pending s' = []) as ->; [|by rewrite app_nil_r].
  unfold pending. induction Hf as [|l ls <- _ IH]; [done|]. exact IH.
Qed.

(** Two listeners; one connection taken from the first is being offered when
    the interceptor is closed. *)
Definition offered : istate := Close (loop_accept (fun _ _ => Some "svc"%string) 0 5 (init 2)).

Lemma offered_reachable : rtc (istep (fun _ _ => Some "svc"%string) true) (init 2) offered.
Proof.
  eapply rtc_l; [by apply (is_accept _ _ (init 2) 0 5)|]. apply rtc_once, is_close.
Qed.

Lemma intercept_conserves_witness :
  i_accepted offered ≡ₚ map fst (i_delivered offered) ++ i_dropped offered ++ pending offered.
Proof.
  exact (proj1 (intercept_conserves (fun _ _ => Some "svc"%string) true 2 offered offered_reachable)).
Defined.

Lemma intercept_shuts_down_witness :
  exists s', i_accepted s' ≡ₚ map fst (i_delivered s') ++ i_dropped s'.
Proof.
  destruct (intercept_shuts_down (fun _ _ => Some "svc"%string) true 2 offered offered_reachable
    eq_refl) as (s' & _ & _ & _ & H).
  exists s'. exact H.
Defined.

(** [Accept] may still return a connection after [Close] (the interface
    promises [ErrClosed]): while a loop offers a connection, a call after
    [Close] can receive it, and it can also receive [ErrClosed]. *)
Theorem accept_after_close s i c svc :
  i_loops s !! i = Some (Sending c svc) ->
  i_closed (Close s) = true /\
  accept_result (Close s) (Got c svc) (loop_deliver i c svc (Close s)) /\
  accept_result (Close s) (Failed (Sentinel InterceptClosed)) (Close s).
Proof. intros Hi. split_and!; [done|by apply ar_conn|by apply ar_closed]. Qed.

Lemma accept_after_close_witness :
  exists s', accept_result (Close offered) (Got 5 "svc") s'.
Proof.
  eexists. exact (proj1 (proj2 (accept_after_close offered 0 5 "svc" eq_refl))).
Defined.
