(* ===== verification/Bridge.v ===== *)
(** * Bridging two byte streams

    [bridge] and [copyAndDone] of [pkg/session/session.go], and [bridge] and
    [halfCloseWrite] of the agent's [main.go].  A direction is a loop over the
    reads of its source; the writes of its destination are answered by a
    function of how many writes came before. *)

From S2P Require Import Prelude Orp.

(** One [src.Read]: data together with an error or nil. *)
Definition read_result : Type := list byte * option error.

(** What a destination sees, in order. *)
Inductive dst_event : Type :=
  | DWrite (p : list byte) (e : option error)
  | DCloseWrite
  | DClose.

Section Copy.
(** Whether the destination has [CloseWrite], and the outcome of its [k]th
    write. *)
Context (has_cw : bool) (write_err : nat -> option error).

(** [copyAndDone]: [false] while the source still blocks. *)
Fixpoint copyAndDone (k : nat) (reads : list read_result) : list dst_event * bool :=
  match reads with
  | [] => ([], false)
  | (p, err) :: reads' =>
      let continue_ k :=
        match err with
        | Some _ => (if has_cw then [DCloseWrite] else [], true)
        | None => copyAndDone k reads'
        end in
      if (0 <? length p)%nat then
        match write_err k with
        | Some e => ([DWrite p (Some e)], true)
        | None =>
            let '(evs, fin) := continue_ (S k) in (DWrite p None :: evs, fin)
        end
      else continue_ k
  end.

(** [io.Copy] stops at the first error of either side; EOF is a normal end. *)
Fixpoint io_Copy (k : nat) (reads : list read_result) : list dst_event * bool :=
  match reads with
  | [] => ([], false)
  | (p, err) :: reads' =>
      let continue_ k :=
        match err with
        | Some _ => ([], true)
        | None => io_Copy k reads'
        end in
      if (0 <? length p)%nat then
        match write_err k with
        | Some e => ([DWrite p (Some e)], true)
        | None =>
            let '(evs, fin) := continue_ (S k) in (DWrite p None :: evs, fin)
        end
      else continue_ k
  end.

Definition halfCloseWrite : list dst_event := if has_cw then [DCloseWrite] else [DClose].

(** One direction of [main]'s [bridge]. *)
Definition copy_half (reads : list read_result) : list dst_event * bool :=
  let '(evs, fin) := io_Copy 0 reads in
  if fin then (evs ++ halfCloseWrite, true) else (evs, false).
End Copy.

(** [bridge]: both directions, then both sides are closed.  [a] is the
    destination of the bytes read from [b] and the other way round. *)
Record side : Type := mkSide { has_CloseWrite : bool; werr : nat -> option error }.

Definition join (d : (list dst_event * bool) * (list dst_event * bool))
    : list dst_event * list dst_event * bool :=
  let '((ea, fa), (eb, fb)) := d in
  if fa && fb then (ea ++ [DClose], eb ++ [DClose], true) else (ea, eb, false).

Definition session_bridge (a b : side) (from_a from_b : list read_result)
    : list dst_event * list dst_event * bool :=
  join (copyAndDone (has_CloseWrite a) (werr a) 0 from_b,
        copyAndDone (has_CloseWrite b) (werr b) 0 from_a).

Definition main_bridge (a b : side) (from_a from_b : list read_result)
    : list dst_event * list dst_event * bool :=
  join (copy_half (has_CloseWrite a) (werr a) from_b, copy_half (has_CloseWrite b) (werr b) from_a).

(** ** What was carried over *)
Definition delivered_bytes (evs : list dst_event) : list byte :=
  evs ≫= (fun e => match e with DWrite p None => p | _ => [] end).

Arguments delivered_bytes : simpl never.

(** What the source produced up to and including its first error. *)
Fixpoint produced (reads : list read_result) : list byte :=
  match reads with
  | [] => []
  | (p, Some _) :: _ => p
  | (p, None) :: reads' => p ++ produced reads'
  end.

Definition ended (reads : list read_result) : bool := existsb (fun r => bool_decide (snd r <> None)) reads.

Lemma delivered_cons_write p evs : delivered_bytes (DWrite p None :: evs) = p ++ delivered_bytes evs.
Proof. done. Qed.

Lemma delivered_bytes_app e1 e2 : delivered_bytes (e1 ++ e2) = delivered_bytes e1 ++ delivered_bytes e2.
Proof. apply bind_app. Qed.

(** Whatever fails, the destination has a prefix of what the source produced. *)
Lemma copyAndDone_prefix cw we k reads :
  delivered_bytes (fst (copyAndDone cw we k reads)) `prefix_of` produced reads.
Proof.
  revert k. induction reads as [|[p err] reads IH]; intros k; cbn [copyAndDone produced]; [done|].
  destruct (0 <? length p)%nat eqn:El.
  - destruct (we k); [apply prefix_nil|]. destruct err as [e|].
    + cbn. rewrite delivered_cons_write. destruct cw; cbn; by rewrite app_nil_r.
    + specialize (IH (S k)). destruct (copyAndDone cw we (S k) reads) as [evs fin]. cbn in *.
      rewrite delivered_cons_write. by apply prefix_app.
  - destruct p; [|done]. destruct err as [e|]; [|apply IH]. destruct cw; done.
Qed.

(** Without write errors everything is delivered, the copy ends with the
    source, and the write half is closed then. *)
Lemma copyAndDone_clean cw k reads :
  let '(evs, fin) := copyAndDone cw (fun _ => None) k reads in
  delivered_bytes evs = produced reads /\ fin = ended reads /\
  (fin = true -> cw = true -> exists l, evs = l ++ [DCloseWrite]).
Proof.
  revert k. induction reads as [|[p err] reads IH]; intros k; cbn [copyAndDone produced]; [done|].
  assert (forall k', let '(evs, fin) :=
    match err with
    | Some _ => (if cw then [DCloseWrite] else [], true)
    | None => copyAndDone cw (fun _ => None) k' reads
    end in
    p ++ delivered_bytes evs = match err with Some _ => p | None => p ++ produced reads end /\
    fin = ended ((p, err) :: reads) /\
    (fin = true -> cw = true -> exists l, evs = l ++ [DCloseWrite])) as Hc.
  { intros k'. destruct err as [e|].
    - destruct cw; cbn; rewrite app_nil_r; split_and!; try done. by exists [].
    - specialize (IH k'). destruct (copyAndDone cw _ k' reads) as [evs fin].
      destruct IH as (-> & -> & H). by split_and!. }
  destruct (0 <? length p)%nat eqn:El.
  - specialize (Hc (S k)). destruct (match err with Some _ => _ | None => _ end) as [evs fin].
    destruct Hc as (Hd & Hf & Hw). rewrite delivered_cons_write. split_and!.
    + rewrite Hd. by destruct err.
    + done.
    + intros H1 H2. destruct (Hw H1 H2) as [l ->]. by exists (DWrite p None :: l).
  - specialize (Hc k). destruct p; [|done].
    destruct (match err with Some _ => _ | None => _ end) as [evs fin].
    destruct Hc as (Hd & Hf & Hw). split_and!; try done.
Qed.

Lemma copyAndDone_no_close cw we k reads : DClose ∉ fst (copyAndDone cw we k reads).
Proof.
  revert k. induction reads as [|[p err] reads IH]; intros k; cbn [copyAndDone];
    [apply not_elem_of_nil|].
  assert (forall k', DClose ∉ fst match err with
    | Some _ => (if cw then [DCloseWrite] else [], true)
    | None => copyAndDone cw we k' reads
    end) as Hc.
  { intros k'. destruct err; [|apply IH]. destruct cw; cbn; [|apply not_elem_of_nil].
    by rewrite list_elem_of_singleton. }
  destruct (0 <? length p)%nat; [|apply Hc].
  destruct (we k); [cbn; by rewrite list_elem_of_singleton|]. specialize (Hc (S k)).
  destruct (match err with Some _ => _ | None => _ end) as [evs fin]. cbn in *.
  by rewrite not_elem_of_cons.
Qed.

Lemma io_Copy_prefix we k reads :
  delivered_bytes (fst (io_Copy we k reads)) `prefix_of` produced reads.
Proof.
  revert k. induction reads as [|[p err] reads IH]; intros k; cbn [io_Copy produced]; [done|].
  destruct (0 <? length p)%nat eqn:El.
  - destruct (we k); [apply prefix_nil|]. destruct err as [e|].
    + cbn. rewrite delivered_cons_write. cbn. by rewrite app_nil_r.
    + specialize (IH (S k)). destruct (io_Copy we (S k) reads) as [evs fin]. cbn in *.
      rewrite delivered_cons_write. by apply prefix_app.
  - destruct p; [|done]. destruct err as [e|]; [done|apply IH].
Qed.

Lemma copy_half_prefix cw we reads :
  delivered_bytes (fst (copy_half cw we reads)) `prefix_of` produced reads.
Proof.
  unfold copy_half. pose proof (io_Copy_prefix we 0 reads) as H.
  destruct (io_Copy we 0 reads) as [evs []]; [|done]. cbn in *.
  rewrite delivered_bytes_app. unfold halfCloseWrite. destruct cw; cbn; by rewrite app_nil_r.
Qed.

(** With [CloseWrite] and no write error, [io.Copy] followed by [halfCloseWrite]
    is [copyAndDone]. *)
Lemma copy_half_copyAndDone reads :
  copy_half true (fun _ => None) reads = copyAndDone true (fun _ => None) 0 reads.
Proof.
  unfold copy_half, halfCloseWrite. generalize 0%nat as k.
  induction reads as [|[p err] reads IH]; intros k; cbn [io_Copy copyAndDone]; [done|].
  assert (forall k', (let '(evs, fin) :=
      match err with Some _ => ([], true) | None => io_Copy (fun _ => None) k' reads end in
      if fin then (evs ++ [DCloseWrite], true) else (evs, false)) =
    match err with Some _ => ([DCloseWrite], true) | None => copyAndDone true (fun _ => None) k' reads end)
    as Hc by (intros k'; destruct err; [done|apply IH]).
  destruct (0 <? length p)%nat; [|apply Hc]. rewrite <- Hc.
  destruct (match err with Some _ => _ | None => _ end) as [evs []]; done.
Qed.

Lemma session_bridge_clean cwa cwb from_a from_b :
  let '(ea, eb, fin) := session_bridge (mkSide cwa (fun _ => None)) (mkSide cwb (fun _ => None))
                          from_a from_b in
  delivered_bytes ea = produced from_b /\ delivered_bytes eb = produced from_a /\
  fin = ended from_a && ended from_b /\
  (ended from_b = true -> ended from_a = false -> cwa = true ->
     exists l, ea = l ++ [DCloseWrite] /\ (DClose ∉ ea)).
Proof.
  unfold session_bridge, join. cbn [has_CloseWrite werr].
  pose proof (copyAndDone_clean cwa 0 from_b) as Ha. pose proof (copyAndDone_clean cwb 0 from_a) as Hb.
  pose proof (copyAndDone_no_close cwa (fun _ => None) 0 from_b) as Hn.
  destruct (copyAndDone cwa _ 0 from_b) as [ea fa], (copyAndDone cwb _ 0 from_a) as [eb fb].
  destruct Ha as (Ha1 & -> & Ha3), Hb as (Hb1 & -> & _). rewrite andb_comm.
  destruct (ended from_a && ended from_b) eqn:E.
  - rewrite !delivered_bytes_app, Ha1, Hb1, !app_nil_r. split_and!; try done.
    intros _ Hf _. by rewrite Hf in E.
  - split_and!; try done. intros H1 H2 H3. destruct (Ha3 H1 H3) as [l ->]. by exists l.
Qed.

Lemma bridges_agree from_a from_b :
  let clean := mkSide true (fun _ => None) in
  main_bridge clean clean from_a from_b = session_bridge clean clean from_a from_b.
Proof.
  unfold main_bridge, session_bridge. cbn [has_CloseWrite werr]. by rewrite !copy_half_copyAndDone.
Qed.

(** ** Properties *)

(** A bridge carries bytes faithfully: in both the provider's and the
    consumer's bridge, what each side was given is a prefix of what the other
    side produced, whatever read or write fails. *)
Theorem bridge_prefix a b from_a from_b :
  (let '(ea, eb, _) := session_bridge a b from_a from_b in
   delivered_bytes ea `prefix_of` produced from_b /\ delivered_bytes eb `prefix_of` produced from_a) /\
  (let '(ea, eb, _) := main_bridge a b from_a from_b in
   delivered_bytes ea `prefix_of` produced from_b /\ delivered_bytes eb `prefix_of` produced from_a).
Proof.
  assert (forall x y pa pb, delivered_bytes (fst x) `prefix_of` pb ->
    delivered_bytes (fst y) `prefix_of` pa ->
    let '(ea, eb, _) := join (x, y) in
    delivered_bytes ea `prefix_of` pb /\ delivered_bytes eb `prefix_of` pa) as Hj.
  { intros [ea fa] [eb fb] pa pb. cbn. destruct (fa && fb); cbn; [|done].
    by rewrite !delivered_bytes_app, !app_nil_r. }
  split; apply Hj; first [apply copyAndDone_prefix | apply copy_half_prefix].
Qed.

(** Half-close, not teardown: when no write fails, each direction of the
    provider's bridge delivers everything its source produced and, when the
    source ends, closes only the write half of its destination; the streams
    are closed only once both directions have ended.  Between sides that can
    half-close, the consumer's bridge behaves in exactly the same way. *)
Theorem bridge_half_close cwa cwb from_a from_b :
  let '(ea, eb, fin) := session_bridge (mkSide cwa (fun _ => None)) (mkSide cwb (fun _ => None))
                          from_a from_b in
  delivered_bytes ea = produced from_b /\ delivered_bytes eb = produced from_a /\
  fin = ended from_a && ended from_b /\
  (ended from_b = true -> ended from_a = false -> cwa = true ->
     exists l, ea = l ++ [DCloseWrite] /\ (DClose ∉ ea)) /\
  (cwa = true -> cwb = true ->
     main_bridge (mkSide cwa (fun _ => None)) (mkSide cwb (fun _ => None)) from_a from_b = (ea, eb, fin)).
Proof.
  pose proof (session_bridge_clean cwa cwb from_a from_b) as H.
  destruct (session_bridge _ _ from_a from_b) as [[ea eb] fin] eqn:E.
  destruct H as (? & ? & ? & ?). split_and!; try done.
  intros -> ->. by rewrite bridges_agree, E.
Qed.
