(* ===== verification/Main.v ===== *)
(** * [cmd/outrelay-agent/main.go]: start-up and the consumer loop

    Connecting with the TCP fallback, the interceptor the flags ask for, what
    happens to one intercepted connection, and the background promotion of
    its stream.  The order of the calls in [main] is in [Start], the TLS
    material in [Tls]. *)

From Stdlib Require Import Strings.Ascii.
From S2P Require Import Prelude Netip Orp Candidate Resume StreamSwap Waiters Forward.
From S2P Require Import Session SessionInv Dialing Reconnect Incoming P2P Promote Vip Dns.
From S2P Require Import Intercept.

Local Open Scope agent_scope.

(** ** Flags *)
Definition consumeFlag_Set (c : list string) (s : string) : list string := c ++ [s].

(** [strings.Cut(s, "@")]. *)
Fixpoint cut_at (l : list Ascii.ascii) : option (list Ascii.ascii * list Ascii.ascii) :=
  match l with
  | [] => None
  | c :: l' =>
      if bool_decide (c = "@"%char) then Some ([], l')
      else '(a, b) ← cut_at l'; Some (c :: a, b)
  end.

Definition Cut (s : string) : option (string * string) :=
  '(a, b) ← cut_at (chars s); Some (of_chars a, of_chars b).

Inductive Level : Type := LevelDebug | LevelInfo | LevelWarn | LevelError.

Definition parseLogLevel (s : string) : Level :=
  if String.eqb s "debug" then LevelDebug
  else if String.eqb s "warn" then LevelWarn
  else if String.eqb s "error" then LevelError
  else LevelInfo.

Inductive handler : Type := JSONHandler (min : Level) | TextHandler (min : Level).

Definition newLogger (format level : string) : handler :=
  if String.eqb format "json" then JSONHandler (parseLogLevel level)
  else TextHandler (parseLogLevel level).

(** [toPBCandidates]: the same conversion as [toPB]. *)
Definition toPBCandidates (cs : list Candidate) : pbCandidates :=
  map (fun c => Some (mkPb (Kind c) (Addr_String (ap_addr (CAddr c)))
                        (uint32 (ap_port (CAddr c))) (Priority c))) cs.

(** The candidates advertised at start-up: the manual override first, then
    the server-reflexive one, then the host candidates. *)
Definition advertised (hosts : list Candidate) (srflx : result Candidate)
    (advertise : option AddrPort) : list Candidate :=
  let locals := match srflx with Ok c => c :: hosts | Err _ => hosts end in
  match advertise with
  | Some adv => mkCandidate "host" adv 100 :: locals
  | None => locals
  end.

(** ** The interceptor *)
Section Interceptor.
Context `{N : Net} {S : Type} (unicode_lower unicode_trim : string -> string).

Inductive interceptor : Type :=
  | Explicit (listeners : list nat) (mappings : list ExplicitMapping)
  | TProxy (listener : nat) (alloc : VIPAllocator) (dns : DNSServer).

Fixpoint parse_mappings (consumes : list string) : result (list ExplicitMapping) :=
  match consumes with
  | [] => Ok []
  | c :: consumes' =>
      match Cut c with
      | None => Err (ErrorString "explicit --consume must be <svc>@<bind-addr>")
      | Some (svc, bind) =>
          match parse_mappings consumes' with
          | Err e => Err e
          | Ok ms => Ok (mkMapping bind svc :: ms)
          end
      end
  end.

Fixpoint allocate_all (svcs : list string) (a : VIPAllocator) : result VIPAllocator :=
  match svcs with
  | [] => Ok a
  | svc :: svcs' =>
      match Allocate1 svc a with
      | (Err e, _) => Err (Wrapped "allocate vip" e)
      | (Ok _, a') => allocate_all svcs' a'
      end
  end.

Definition startInterceptor (linux : bool) (mode dnsAddr dnsSuffix : string)
    (consumes : list string) : Eff S (result interceptor) :=
  if String.eqb mode "explicit" then
    match parse_mappings consumes with
    | Err e => mret (Err e)
    | Ok ms =>
        do r <- NewExplicit ms ;;
        mret match r with Ok lns => Ok (Explicit lns ms) | Err e => Err e end
    end
  else if String.eqb mode "tproxy" then
    match NewVIPAllocator DefaultVIPCIDR with
    | Err e => mret (Err e)
    | Ok alloc =>
        match allocate_all consumes alloc with
        | Err e => mret (Err e)
        | Ok alloc =>
            match NewDNSServer unicode_lower unicode_trim dnsAddr dnsSuffix (Some alloc) with
            | Err e => mret (Err e)
            | Ok dns =>
                do_ emit (EvSpawn "dns.Run") ;;
                do r <- NewTProxy linux (Some alloc) ;;
                mret match r with Ok ln => Ok (TProxy ln alloc dns) | Err e => Err e end
            end
        end
    end
  else mret (Err (ErrorString "unknown intercept mode")).
End Interceptor.

(** ** Connecting *)
Section Agent.
Context `{N : Net} `{L : ResumeLib}.

(** Dial the relays over QUIC (on the shared socket [sock] when P2P listening
    was asked for), then over TCP; the session, the addresses to reconnect to
    and the shared socket still in use.  [order] is the order in which the
    concurrent attempts finish. *)
Definition connect {S} (sock : option nat) (addrs tcpAddrs : list string)
    (order : list string -> list string) (uri : string)
    : Eff S (result (Session * list string * option nat)) :=
  let d := match sock with Some k => SharedTransport k | None => DefaultDialer end in
  do r <- DialAnyHappy d addrs (order addrs) uri ;;
  match r with
  | Ok s => mret (Ok (s, addrs, sock))
  | Err e =>
      match tcpAddrs with
      | [] => mret (Err e)
      | _ =>
          do_ match sock with
              | Some k => do_ release ResUDP k ;; mret tt
              | None => mret tt
              end ;;
          do r <- DialAnyHappy TCPDialer tcpAddrs (order tcpAddrs) uri ;;
          match r with
          | Ok s => mret (Ok (s, tcpAddrs, None))
          | Err e => mret (Err e)
          end
      end
  end.

(** ** One intercepted connection *)

(** The deferred closes, in their order. *)
Definition teardown (r : nat) (local : backend) : Eff Session unit :=
  do_ rs_Close r ;; Backend_Close local.

(** The goroutine of [runConsumer]; [local] is the application's connection.
    [false] when the id generator ran out of fuel. *)
Definition consume_conn (fuel : nat) (local : backend) (svc : string) (peerTLS : bool)
    (ops : list p2p_op) (timeout : bool) : Eff Session bool :=
  do d <- Session_Dial fuel svc "" ;;
  match d with
  | None => mret false
  | Some (Err _) => do_ Backend_Close local ;; mret true
  | Some (Ok r) =>
      do s <- get ;;
      let id := uint64 (wrapper_id r s) in
      do granted <- wait_mode id ops timeout ;;
      do_ match granted with
          | Some g =>
              if peerTLS then
                do fs <- DialForward (Some g) ;;
                match fs with
                | Err _ => mret tt
                | Ok fs =>
                    do_ emit (EvBridgeForward (fs_stream fs) local) ;;
                    do_ Backend_Close local ;;
                    do_ release ResQuicStream (fs_stream fs) ;;
                    do_ ForwardSession_Close fs ;;
                    mret tt
                end
              else mret tt
          | None =>
              do_ emit (EvSpawn "tryPromote") ;;
              do s <- get ;;
              do_ match s_store s !! r with
                  | Some rs => emit (EvBridge (g_inner (rs_guarded rs)) local)
                  | None => mret tt
                  end ;;
              do_ Backend_Close local ;;
              rs_Close r
          end ;;
      do_ teardown r local ;;
      mret true
  end.

(** [tryPromote]'s goroutine: [migrated] when the stream moved to a direct
    connection. *)
Definition tryPromote (r : nat) (eng : Engine) (ifaddrs : result (list netAddr))
    (ops : list p2p_op) (ctxDone : option error) : Eff Session bool :=
  do done_ <- sleep 1000000000 ;;
  if done_ : bool then mret false
  else
    do res <- Promote r (Some eng) [] 0 ifaddrs ops ctxDone ;;
    match res with
    | Err _ => mret false
    | Ok res =>
        do e <- MigrateToDirect (Some r) (Some (cr_Conn res)) ;;
        match e with
        | Some _ => do_ Conn_Close (cr_Conn res) ;; mret false
        | None => mret true
        end
    end.
End Agent.

(** ** Facts: the consumer *)
Section Facts.
Context `{N : Net} `{Sp : ResumeSpec}.

Lemma DialForward_run {S} g (s : S) t :
  exists r ext, DialForward g (s, t) = (r, (s, t ++ ext)) /\ (EvPanic ∉ ext) /\ Forall no_frame ext.
Proof.
  unfold DialForward, Dial, register, new_transport, acquire, release, Datagram, mbind, mret.
  repeat (case_match; simplify_eq/=); rewrite <- ?app_assoc; do 2 eexists;
    (split; [first [done|by rewrite app_nil_r]|]);
    (split; [cbn; rewrite ?not_elem_of_cons; repeat split; try done; apply not_elem_of_nil
            |by repeat constructor]).
Qed.

Lemma run_DialForward g s :
  session_wf s -> run_ok (DialForward g) s (fun _ s' ext => s' = s /\ Forall no_frame ext).
Proof.
  intros Hwf t. destruct (DialForward_run g s t) as (r & ext & -> & Hp & Hf).
  exists ext. by split_and!.
Qed.

Lemma run_teardown r id st local s :
  session_wf s -> wraps r id st s ->
  run_ok (teardown r local) s (fun _ s' ext =>
    ext = [EvStreamClose st; EvBackendClose local] /\ s_streams s' = delete id (s_streams s) /\
    s_p2p s' = s_p2p s).
Proof.
  intros Hwf Hw. unfold teardown.
  eapply run_bind; [by apply (run_Close_wraps r id st)|]. intros [] s1 e1 Hwf1 _ (-> & _ & Hs & Hp).
  eapply run_mono; [by apply run_backend_close|]. cbn. intros [] s2 e2 (-> & ->). done.
Qed.

(** What one intercepted connection leaves behind. *)
Definition consumed (local : backend) (s s' : Session) (ext : trace) : Prop :=
  EvBackendClose local ∈ ext /\ s_streams s' ⊆ s_streams s /\
  (forall st, EvOpenStream (s_conn s) (Ok st) ∈ ext -> EvStreamClose st ∈ ext).

(** The middle part: nothing but the wrapper may be closed. *)
Definition neutral (r : nat) (id : Z) (st : stream) (s s' : Session) (ext : trace) : Prop :=
  wraps r id st s' /\ s_streams s' ⊆ s_streams s /\
  Forall (fun e => match e with EvOpenStream _ _ => False | _ => True end) ext.

Lemma no_open_forward g (s : Session) t r s' t' :
  DialForward g (s, t) = (r, (s', t')) ->
  exists ext, t' = t ++ ext /\
    Forall (fun e => match e with EvOpenStream _ _ => False | _ => True end) ext.
Proof.
  unfold DialForward, Dial, register, new_transport, acquire, release, Datagram, mbind, mret.
  intros Hrun. repeat (case_match; simplify_eq/=); rewrite <- ?app_assoc;
    eexists; (split; [first [done|by rewrite app_nil_r]|by repeat constructor]).
Qed.

Lemma run_DialForward_neutral r id st g s :
  session_wf s -> wraps r id st s ->
  run_ok (DialForward g) s (fun _ s' ext => s' = s /\ neutral r id st s s' ext).
Proof.
  intros Hwf Hw t. pose proof (run_DialForward g s Hwf t) as H.
  destruct (DialForward g (s, t)) as [res [s' t']] eqn:E.
  destruct H as (ext & -> & ? & ? & ? & -> & _).
  destruct (no_open_forward g s t res s _ E) as (ext' & ->%app_inv_head & Hf).
  exists ext'. by split_and!.
Qed.

Lemma neutral_step r id st s s1 s2 e1 e2 :
  neutral r id st s s1 e1 -> neutral r id st s1 s2 e2 -> neutral r id st s s2 (e1 ++ e2).
Proof.
  intros (_ & H1 & F1) (W & H2 & F2). split_and!; [done|by etrans|by apply Forall_app].
Qed.

Lemma neutral_event r id st s (e : event) :
  wraps r id st s -> match e with EvOpenStream _ _ => False | _ => True end ->
  neutral r id st s s [e].
Proof. intros Hw He. split_and!; try done. by repeat constructor. Qed.

Lemma run_granted r id st fs_g local s :
  session_wf s -> wraps r id st s ->
  run_ok (do fs <- DialForward (Some fs_g) ;;
          match fs with
          | Err _ => mret tt
          | Ok fs =>
              do_ emit (EvBridgeForward (fs_stream fs) local) ;;
              do_ Backend_Close local ;;
              do_ release ResQuicStream (fs_stream fs) ;;
              do_ ForwardSession_Close fs ;;
              mret tt
          end) s (fun _ s' ext => neutral r id st s s' ext).
Proof.
  intros Hwf Hw. eapply run_bind; [by apply (run_DialForward_neutral r id st)|].
  intros fs s1 e1 _ _ [-> Hn]. destruct fs as [fs|e].
  2: { apply run_ret; [done|]. by rewrite app_nil_r. }
  rcall run_emit. rcall run_backend_close. rcall run_release.
  intros t. unfold mbind, mret. destruct (Close_run fs s t) as (e2 & e3 & e4 & e5 & ->).
  eexists. split; [done|]. split_and!; try done.
  - rewrite !not_elem_of_cons. split_and!; try done. apply not_elem_of_nil.
  - eapply neutral_step; [done|]. split_and!; [done|done|]. by repeat constructor.
Qed.

Lemma run_spliced r id st local s :
  session_wf s -> wraps r id st s ->
  run_ok (do_ emit (EvSpawn "tryPromote") ;;
          do s <- get ;;
          do_ match s_store s !! r with
              | Some rs => emit (EvBridge (g_inner (rs_guarded rs)) local)
              | None => mret tt
              end ;;
          do_ Backend_Close local ;;
          rs_Close r) s (fun _ s' ext => neutral r id st s s' ext).
Proof.
  intros Hwf Hw. rcall run_emit. rget.
  pose proof Hw as (rs & Hr & _). rewrite Hr. rcall run_emit. rcall run_backend_close.
  eapply run_mono; [by apply (run_Close_wraps r id st)|].
  intros [] s1 e1 (-> & Hw1 & Hs1 & _). split_and!; [done| |by repeat constructor].
  rewrite Hs1. apply delete_subseteq.
Qed.

Lemma run_consume_conn fuel local svc tls ops timeout s :
  session_wf s ->
  run_ok (consume_conn fuel local svc tls ops timeout) s (fun fin s' ext =>
    fin = true -> consumed local s s' ext).
Proof.
  intros Hwf. unfold consume_conn.
  eapply run_bind; [by apply run_Session_Dial|]. intros d s1 e1 Hwf1 _ Hd.
  destruct d as [[r|e]|]; cbn [dial_outcome] in Hd.
  3: { apply run_ret; [done|]. done. }
  2: { rcall run_backend_close. apply run_ret; [done|]. intros _.
       destruct Hd as (Hs & _ & Hcl & _). split_and!.
       - rewrite elem_of_app. right. by left.
       - by rewrite Hs.
       - intros st. rewrite !elem_of_app, list_elem_of_singleton, elem_of_nil.
         intros [Hin|[?|[]]]; [auto|done]. }
  destruct Hd as (id & st & ch & Hfresh & Hs & Hnone & Hsto & Hopen & Huniq & _).
  assert (wraps r id st s1) as Hw1.
  { eexists. split; [exact Hsto|]. cbn. by rw_resume. }
  rget.
  eapply run_bind with (Q1 := fun _ s' ext => ext = [] /\ wraps r id st s' /\ s_streams s' = s_streams s1).
  { eapply run_mono; [by apply run_wait_mode|]. by intros n s' ext (-> & p & -> & _). }
  intros g s2 e2 Hwf2 _ (-> & Hw2 & Hs2).
  eapply run_bind with (Q1 := fun _ s' ext => neutral r id st s2 s' ext).
  { destruct g as [g|]; [destruct tls|]; [by apply run_granted| |by apply run_spliced].
    apply run_ret; [done|]. by split_and!. }
  intros [] s3 e3 Hwf3 _ (Hw3 & Hs3 & Hf3).
  eapply run_bind; [by apply (run_teardown r id st)|]. intros [] s4 e4 Hwf4 _ (-> & Hs4 & _).
  apply run_ret; [done|]. intros _. split_and!.
  - cbn. rewrite !elem_of_app, !elem_of_cons. auto 10.
  - rewrite Hs4. rewrite Hs2, Hs in Hs3. apply (delete_mono _ _ id) in Hs3.
    rewrite delete_insert_id in Hs3 by done. done.
  - intros st'. cbn. rewrite !elem_of_app, !elem_of_cons, elem_of_nil.
    intros [Hin|[Hin|[?|[?|[]]]]]; [|by rewrite Forall_forall in Hf3; destruct (Hf3 _ Hin)|done|done].
    rewrite (Huniq st' Hin). auto 10.
Qed.
End Facts.

(** ** Facts: promotion in the background *)
Section TryPromote.
Context `{N : Net} `{Sp : ResumeSpec}.

Lemma writeCtrl_neutral typ m : conn_neutral (writeCtrl typ m).
Proof.
  intros s t. unfold writeCtrl, get, WriteFrame, mbind, mret. eexists _, _, [_]. by split.
Qed.

Lemma recv_answer_neutral ch ops cd : conn_neutral (recv_answer ch ops cd).
Proof.
  intros s t. unfold recv_answer.
  destruct (recvAnswer ch cd (apply_ops ops (s_p2p s))) as [[[a|e] p']|]; eexists _, _, [];
    by rewrite app_nil_r.
Qed.

Lemma Promote_conns r eng locals port ifs ops cd s t :
  exists res s' ext, Promote r eng locals port ifs ops cd (s, t) = (res, (s', t ++ ext)) /\
    forall l, open_conns l ext = kept cr_Conn res l.
Proof.
  unfold Promote, get, modify, emit, mbind, mret.
  destruct (s_store s !! r) as [rs|]; [|by eexists _, _, []; rewrite app_nil_r].
  destruct eng as [eng|]; [|by eexists _, _, []; rewrite app_nil_r].
  destruct (registerAnswerWaiter _ (s_p2p s)) as [[ch p]|]; [|by eexists _, _, []; rewrite app_nil_r].
  destruct (choose_locals locals (localCandidates p) ifs port) as [ls|]; [|by eexists _, _, [_]].
  apply Promoter_Run_conns. constructor; cbn.
  - intros f o [= <-]. apply writeCtrl_neutral.
  - intros m [= <-]. apply recv_answer_neutral.
  - intros f i c [= <-]. apply writeCtrl_neutral.
Qed.

Lemma MigrateToDirect_conns r c s t :
  exists e s' ext, MigrateToDirect (Some r) (Some c) (s, t) = (e, (s', t ++ ext)) /\
    forall l, open_conns l ext = l.
Proof.
  unfold MigrateToDirect, get, Conn_OpenStream, WriteFrame, Stream_Close, rs_SwapInner, emit, mbind, mret.
  cbn -[SwapInner]. destruct (s_store s !! r) as [rs|] eqn:Hr; cbn -[SwapInner];
    [|by eexists _, _, []; rewrite app_nil_r].
  destruct (net_open t c) as [st|e]; cbn -[SwapInner]; [|by eexists _, _, [_]].
  destruct (net_write_frame _ st _ _) as [u|e]; cbn -[SwapInner].
  - rewrite Hr. destruct (SwapInner st (rs_guarded rs) (s_chans s)) as [[[old g] h]|];
      rewrite <- !app_assoc; eexists _, _, _; by split.
  - rewrite <- !app_assoc. eexists _, _, _. by split.
Qed.

(** ** Facts: flags *)
Lemma cut_at_spec l a b :
  cut_at l = Some (a, b) <-> l = a ++ "@"%char :: b /\ ("@"%char ∉ a).
Proof.
  revert a. induction l as [|c l IH]; intros a; cbn.
  { split; [done|]. intros [E _]. by destruct a. }
  case_bool_decide as Hc.
  - split.
    + intros [= <- <-]. subst c. split; [done|apply not_elem_of_nil].
    + subst c. intros [E Hn]. destruct a as [|x a]; cbn in E; [by injection E as ->|].
      injection E as <- _. by destruct Hn; left.
  - split.
    + intros ([a' b'] & Hl & [= <- <-])%bind_Some. apply IH in Hl as [-> Hn]. split; [done|].
      by apply not_elem_of_cons.
    + intros [E Hn]. destruct a as [|x a]; cbn in E; [by injection E as ->|].
      injection E as -> ->. apply not_elem_of_cons in Hn as [_ Hn].
      rewrite (proj2 (IH a)) by done. done.
Qed.

Lemma Cut_spec s a b :
  Cut s = Some (a, b) <-> s = a +:+ "@" +:+ b /\ ("@"%char ∉ chars a).
Proof.
  unfold Cut. split.
  - intros ([x y] & [Hl Hn]%cut_at_spec & [= <- <-])%bind_Some. split.
    + apply of_chars_inj. rewrite !chars_app, !chars_of_chars. exact Hl.
    + by rewrite chars_of_chars.
  - intros [-> Hn]. rewrite !chars_app.
    rewrite (proj2 (cut_at_spec _ (chars a) (chars b))) by done. cbn. by rewrite !of_chars_chars.
Qed.

Lemma parse_mappings_spec consumes ms :
  parse_mappings consumes = Ok ms ->
  Forall2 (fun c m => c = TargetSvc m +:+ "@" +:+ BindAddr m /\ ("@"%char ∉ chars (TargetSvc m)))
    consumes ms.
Proof.
  revert ms. induction consumes as [|c consumes IH]; intros ms; cbn; [intros [= <-]; constructor|].
  destruct (Cut c) as [[svc bind]|] eqn:Ec; [|done].
  destruct (parse_mappings consumes) as [ms'|e]; [|done]. intros [= <-].
  constructor; [by apply Cut_spec|by apply IH].
Qed.

Lemma allocate_all_spec svcs a a' :
  vip_wf a -> allocate_all svcs a = Ok a' ->
  vip_wf a' /\ (forall n ip, LookupName n a = Some ip -> LookupName n a' = Some ip) /\
  forall n, n ∈ svcs -> is_Some (LookupName n a').
Proof.
  revert a. induction svcs as [|svc svcs IH]; intros a Hwf; cbn [allocate_all].
  { intros [= <-]. split_and!; try done. by intros n ?%elem_of_nil. }
  destruct (Allocate1 svc a) as [[ip|e] a1] eqn:E; [|done]. intros Hall.
  assert (vip_wf a1) as Hwf1 by (pose proof (Allocate1_wf svc a Hwf) as H; by rewrite E in H).
  destruct (IH a1 Hwf1 Hall) as (Hwf' & Hkeep & Hin).
  assert (LookupName svc a1 = Some ip /\ forall n x, LookupName n a = Some x -> LookupName n a1 = Some x)
    as [Hsvc Hk].
  { unfold Allocate1 in E. destruct (Allocate_total svc a 3 Hwf ltac:(lia)) as [[r x] Ea].
    rewrite Ea in E. cbn in E. injection E as -> ->.
    pose proof (Allocate_run svc a _ _ Hwf Ea) as H. unfold LookupName.
    destruct (nameToIP a !! svc) as [y|] eqn:Ey; [destruct H as [[= ->] ->]; done|].
    destruct H as (_ & _ & v & _ & _ & _ & En & _). rewrite En. rewrite lookup_insert_eq.
    split; [done|]. intros n z Hz. rewrite lookup_insert_ne; [done|congruence]. }
  split_and!; [done|auto|]. intros n [->|Hn]%elem_of_cons; [|auto].
  eexists. by apply Hkeep.
Qed.
End TryPromote.

(** ** Properties *)



(** Background promotion owns at most one connection: when it returns
    without having migrated the stream (the check failed, the context ended,
    or the migration itself failed) every direct connection it dialed has
    been closed, and when it has migrated exactly one is open. *)
Theorem tryPromote_no_leak `{N : Net} `{Sp : ResumeSpec} r eng ifs ops cd s t l :
  let '(migrated, (_, t')) := tryPromote r eng ifs ops cd (s, t) in
  exists ext, t' = t ++ ext /\
    if migrated then exists c, open_conns l ext = c :: l else open_conns l ext = l.
Proof.
  unfold tryPromote, sleep, Conn_Close, emit, mbind, mret.
  destruct (bool_decide (net_ctx_done t <> None)); [by eexists [_]|].
  set (t1 := t ++ [_]). destruct (Promote_conns r (Some eng) [] 0 ifs ops cd s t1)
    as (res & s1 & e1 & -> & H1).
  destruct res as [res|e].
  2: { eexists (_ :: e1). unfold t1. rewrite <- app_assoc. split; [done|]. cbn. apply H1. }
  destruct (MigrateToDirect_conns r (cr_Conn res) s1 (t1 ++ e1)) as (e & s2 & e2 & -> & H2).
  destruct e as [e|].
  - eexists (_ :: e1 ++ e2 ++ [EvConnClose (cr_Conn res)]). unfold t1. rewrite <- !app_assoc.
    split; [done|]. change (?a :: ?b) with ([a] ++ b). rewrite !open_conns_app, H1, H2.
    cbn [kept open_conns foldl conn_step]. apply remove1_cons.
  - eexists (_ :: e1 ++ e2). unfold t1. rewrite <- !app_assoc. split; [done|].
    exists (cr_Conn res). change (?a :: ?b) with ([a] ++ b). by rewrite !open_conns_app, H1, H2.
Qed.

(** Connecting prefers QUIC: a session over the QUIC relays keeps the
    shared socket and reconnects to the same addresses; TCP is tried only
    after every QUIC attempt failed, with the shared socket released first,
    and then reconnects to the TCP addresses.  Nothing but the session's
    connection stays open. *)
Theorem connect_fallback `{N : Net} `{L : ResumeLib} {S} sock addrs tcpAddrs order uri (s : S) t l :
  let '(r, (_, t')) := connect sock addrs tcpAddrs order uri (s, t) in
  exists ext, t' = t ++ ext /\
    open_conns l ext = kept (fun x => s_conn (fst (fst x))) r l /\
    match r with
    | Ok (_, raddrs, sock') =>
        (raddrs = addrs /\ sock' = sock /\ (forall k e, EvRelease ResUDP k e ∉ ext)) \/
        (raddrs = tcpAddrs /\ sock' = None /\ tcpAddrs <> [] /\
         is_ok (fst (DialAnyHappy (match sock with Some k => SharedTransport k | None => DefaultDialer end)
                       addrs (order addrs) uri (s, t))) = false /\
         forall k, sock = Some k -> exists e, EvRelease ResUDP k e ∈ ext)
    | Err _ => True
    end.
Proof.
  unfold connect, mbind at 1. set (d := match sock with Some _ => _ | None => _ end).
  destruct (DialAnyHappy_run d addrs (order addrs) uri s t) as (r & e1 & E1 & H1 & Q1).
  rewrite E1. destruct r as [se|e]; [exists e1; split_and!; [done|apply H1|left; split_and!; try done]|].
  { intros k e Hin. rewrite Forall_forall in Q1. by destruct (Q1 _ Hin). }
  destruct tcpAddrs as [|a tcp]; [by exists e1|]. unfold mbind, mret, release.
  destruct sock as [k|].
  - destruct (DialAnyHappy_run TCPDialer (a :: tcp) (order (a :: tcp)) uri s
      ((t ++ e1) ++ [EvRelease ResUDP k (net_release (t ++ e1) ResUDP k)])) as (r2 & e2 & -> & H2 & _).
    assert (forall l, open_conns l (e1 ++ EvRelease ResUDP k (net_release (t ++ e1) ResUDP k) :: e2) =
      kept s_conn r2 l) as Ho by (intros l'; rewrite open_conns_app, H1; apply H2).
    destruct r2 as [se|e']; exists (e1 ++ EvRelease ResUDP k (net_release (t ++ e1) ResUDP k) :: e2);
      (split; [by rewrite <- !app_assoc|]); (split; [apply Ho|]); [|done].
    right. split_and!; try done. intros k' [= <-]. eexists. rewrite elem_of_app, elem_of_cons. auto.
  - destruct (DialAnyHappy_run TCPDialer (a :: tcp) (order (a :: tcp)) uri s (t ++ e1))
      as (r2 & e2 & -> & H2 & _).
    assert (forall l, open_conns l (e1 ++ e2) = kept s_conn r2 l) as Ho
      by (intros l'; rewrite open_conns_app, H1; apply H2).
    destruct r2 as [se|e']; exists (e1 ++ e2); (split; [by rewrite <- !app_assoc|]);
      (split; [apply Ho|]); [|done].
    right. by split_and!.
Qed.

(** The interceptor covers what the flags ask for: in explicit mode every
    [--consume] entry is split at its first [@] into service and bind address
    and nothing is left listening when one of them fails; in tproxy mode every
    consumed service has a virtual address and the allocator is well formed. *)
Theorem startInterceptor_covers `{N : Net} {S} ul ut linux mode dnsAddr suffix consumes (s : S) t :
  live_old t ->
  let '(r, (_, t')) := startInterceptor ul ut linux mode dnsAddr suffix consumes (s, t) in
  match r with
  | Err _ => live t' = live t
  | Ok (Explicit lns ms) =>
      live t' = live t ++ map (pair ResListener) lns /\ length lns = length ms /\
      Forall2 (fun c m => c = TargetSvc m +:+ "@" +:+ BindAddr m /\ ("@"%char ∉ chars (TargetSvc m)))
        consumes ms
  | Ok (TProxy ln alloc dns) =>
      live t' = live t ++ [(ResListener, ln)] /\ dns_alloc dns = alloc /\ vip_wf alloc /\
      forall svc, svc ∈ consumes -> is_Some (LookupName svc alloc)
  end.
Proof.
  intros Ho. unfold startInterceptor. destruct (String.eqb mode "explicit").
  { destruct (parse_mappings consumes) as [ms|e] eqn:Em; [|done]. unfold mbind, mret.
    pose proof (NewExplicit_live ms s t Ho) as H.
    destruct (NewExplicit ms (s, t)) as [[lns|e] [s' t']]; [|done]. destruct H as [H1 H2].
    split_and!; try done. by apply parse_mappings_spec. }
  destruct (String.eqb mode "tproxy"); [|done].
  destruct (NewVIPAllocator DefaultVIPCIDR) as [a0|e] eqn:Ea; [|done].
  destruct (allocate_all consumes a0) as [a|e] eqn:Eall; [|done].
  destruct (allocate_all_spec consumes a0 a (NewVIPAllocator_ok_wf _ _ Ea) Eall) as (Hwf & _ & Hin).
  unfold NewDNSServer, NewTProxy, emit, acquire, mbind, mret. destruct linux.
  - destruct (net_acquire _ ResListener) as [e|]; cbn.
    + rewrite !live_app. done.
    + rewrite !live_app. cbn. done.
  - cbn. by rewrite live_app.
Qed.

Lemma startInterceptor_covers_witness :
  let '(r, (_, t')) := @startInterceptor (demo_net (fun _ _ => mkFrame FrameTypeHello [])) unit id id
    true "explicit" ":53" "outrelay" ["a@127.0.0.1:1"] (tt, []) in
  match r with Ok (Explicit lns ms) => length lns = length ms | _ => False end.
Proof.
  pose proof (@startInterceptor_covers (demo_net (fun _ _ => mkFrame FrameTypeHello [])) unit id id
    true "explicit" ":53" "outrelay" ["a@127.0.0.1:1"] tt [] ltac:(constructor)) as H.
  vm_compute in H |- *. exact (proj1 (proj2 H)).
Defined.
