(* ===== verification/Tproxy.v ===== *)
(** * From a resolved name to the service that is dialed

    The two interceptors as instances of the machine of [Intercept]: the
    explicit one names the service by listener, the transparent one by the
    original destination of the connection.  The transparent interceptor, the
    DNS server and the VIP allocator are then put together the way
    [startInterceptor] wires them. *)

From stdpp Require Import relations.
From S2P Require Import Prelude Netip Orp Forward Vip Dns Intercept Main.

Local Open Scope agent_scope.

(** ** The two accept loops *)

(** [acceptLoop] of the explicit interceptor: listener [i] serves mapping [i]. *)
Definition explicit_step (ms : list ExplicitMapping) : istate -> istate -> Prop :=
  istep (fun i _ => TargetSvc <$> ms !! i) true.

(** What the kernel knows of an accepted connection: whether it is TCP, and
    the outcome of the [getsockopt] call. *)
Record kconn : Type := mkKconn {
  k_tcp : bool;
  k_scErr : option error;
  k_cErr : option error;
  k_inErr : option error;
  k_raw : list Z
}.

Definition kconn_target (alloc : VIPAllocator) (k : kconn) : option string :=
  tproxy_target alloc (mkRedirected (k_tcp k) (origDst4 (k_scErr k) (k_cErr k) (k_inErr k) (k_raw k))).

(** [acceptLoop], [Accept] and [Close] of the transparent interceptor: one
    listener, accept errors only stop the loop. *)
Definition tproxy_step (alloc : VIPAllocator) (conns : nat -> kconn) : istate -> istate -> Prop :=
  istep (fun _ c => kconn_target alloc (conns c)) false.

(** A TCP connection the kernel redirected; [raw] is its original destination. *)
Definition redirected_to (raw : list Z) : kconn := mkKconn true None None None raw.

(** ** Only unnamed connections are dropped while the interceptor is open *)
Section Dropped.
Context (target : nat -> nat -> option string) (surface : bool).

Definition drops_justified (n : nat) (s : istate) : Prop :=
  length (i_loops s) = n /\
  forall c, c ∈ i_dropped s -> i_closed s = true \/ exists i, (i < n)%nat /\ target i c = None.

Lemma step_drops n s s' : drops_justified n s -> istep target surface s s' -> drops_justified n s'.
Proof.
  intros [Hn Hd] Hs. destruct Hs as [s i c' Hi|s i e Hi|s i c' svc Hi Hcl|s|s r s' Hr].
  - unfold loop_accept. destruct (target i c') eqn:Et; (split; [cbn; by rewrite ?length_insert|]);
      intros c; cbn; [apply Hd|]. rewrite elem_of_app, list_elem_of_singleton.
    intros [Hin| ->]; [by apply Hd|]. right. exists i. split; [|done]. rewrite <- Hn.
    by eapply lookup_lt_Some.
  - unfold loop_fail, set_loop. destruct (i_closed s || negb surface);
      (split; [cbn; by rewrite length_insert|]); apply Hd.
  - split; [cbn; by rewrite length_insert|]. cbn. by left.
  - split; [done|]. cbn. by left.
  - destruct Hr; (split; [cbn; by rewrite ?length_insert|]); apply Hd.
Qed.

Lemma reachable_drops n s : rtc (istep target surface) (init n) s -> drops_justified n s.
Proof.
  intros Hr. assert (forall s0, drops_justified n s0 -> rtc (istep target surface) s0 s ->
    drops_justified n s) as H.
  { intros s0 H0 Hrtc. induction Hrtc; eauto using step_drops. }
  eapply H, Hr. split; [apply length_replicate|]. by intros c ?%elem_of_nil.
Qed.
End Dropped.

(** The explicit interceptor names every connection after a mapping, and
    closes none while it is open. *)
Lemma explicit_delivers ms s :
  rtc (explicit_step ms) (init (length ms)) s ->
  (forall c svc, (c, svc) ∈ i_delivered s -> svc ∈ map TargetSvc ms) /\
  (i_closed s = false -> i_dropped s = []).
Proof.
  intros Hr. split.
  - intros c svc Hin. destruct (reachable_conserved _ _ _ _ Hr) as [_ _ Hd].
    destruct (Hd c svc Hin) as [i Hi]. apply fmap_Some in Hi as (m & Hm & ->). apply list_elem_of_fmap.
    exists m. split; [done|]. by eapply list_elem_of_lookup_2.
  - intros Hcl. destruct (i_dropped s) as [|c l] eqn:E; [done|].
    destruct (proj2 (reachable_drops _ _ _ _ Hr) c ltac:(rewrite E; by left)) as [?|(i & Hi & Ht)];
      [congruence|]. apply fmap_None, lookup_ge_None in Ht. lia.
Qed.

(** ** Names *)
Lemma TrimSuffix_HasSuffix s p : HasSuffix s p = true -> TrimSuffix s p +:+ p = s.
Proof.
  intros Hs. pose proof Hs as [k Hk]%bool_decide_eq_true. apply of_chars_inj.
  unfold TrimSuffix. rewrite Hs, chars_app, chars_of_chars, Hk, length_app, Nat.add_sub.
  by rewrite take_app_length.
Qed.

(** What the server resolves is a name with the suffix. *)
Lemma lookup_inv ul s qname ip :
  Dns.lookup ul s qname = Some ip ->
  exists name, name <> "" /\ LookupName name (dns_alloc s) = Some ip /\
    ToLower ul (TrimSuffix qname ".") = name +:+ dns_suffix s.
Proof.
  unfold Dns.lookup. set (name := ToLower ul (TrimSuffix qname ".")).
  destruct (decide (dns_suffix s = "")) as [Es|Es].
  - rewrite (bool_decide_eq_true_2 _ Es). cbn [negb andb]. case_bool_decide; [done|].
    intros Hl. exists name. split_and!; try done. rewrite Es. apply of_chars_inj.
    by rewrite chars_app, app_nil_r.
  - rewrite (bool_decide_eq_false_2 _ Es). cbn [negb andb].
    destruct (HasSuffix name (dns_suffix s)) eqn:Eh; [cbn|done]. case_bool_decide; [done|].
    intros Hl. exists (TrimSuffix name (dns_suffix s)). split_and!; try done.
    by rewrite TrimSuffix_HasSuffix.
Qed.

Lemma Allocate1_names name a ip n :
  vip_wf a -> LookupName n (snd (Allocate1 name a)) = Some ip -> n = name \/ LookupName n a = Some ip.
Proof.
  intros Hwf. unfold Allocate1. destruct (Allocate_total name a 3 Hwf ltac:(lia)) as [[r a'] E].
  rewrite E. cbn. pose proof (Allocate_run name a r a' Hwf E) as H. unfold LookupName.
  destruct (nameToIP a !! name); [destruct H as [_ ->]; by right|]. destruct H as (_ & _ & H).
  destruct r as [v|e].
  - destruct H as (w & -> & _ & _ & -> & _). destruct (decide (n = name)); [by left|].
    rewrite lookup_insert_ne by done. by right.
  - destruct H as (_ & -> & _). by right.
Qed.

(** Only consumed services have an address. *)
Lemma allocate_all_names svcs a a' n ip :
  vip_wf a -> allocate_all svcs a = Ok a' -> LookupName n a' = Some ip ->
  n ∈ svcs \/ LookupName n a = Some ip.
Proof.
  revert a. induction svcs as [|svc svcs IH]; intros a Hwf; cbn [allocate_all].
  { intros [= ->] Hn. by right. }
  pose proof (Allocate1_wf svc a Hwf) as Hwf1. pose proof (Allocate1_names svc a ip n Hwf) as Hn1.
  destruct (Allocate1 svc a) as [[v|e] a1]; [|done]. intros Hall Hn.
  destruct (IH a1 Hwf1 Hall Hn) as [Hin|Hin]; [left; by right|].
  destruct (Hn1 Hin) as [->|?]; [left; by left|by right].
Qed.

(** What [startInterceptor] hands to the transparent interceptor. *)
Lemma tproxy_started `{N : Net} {S} ul ut linux dnsAddr suffix consumes (st st' : S * trace) ln alloc dns :
  startInterceptor ul ut linux "tproxy" dnsAddr suffix consumes st = (Ok (TProxy ln alloc dns), st') ->
  vip_wf alloc /\ dns_alloc dns = alloc /\
  forall n ip, LookupName n alloc = Some ip -> n ∈ consumes.
Proof.
  destruct st as [s t]. unfold startInterceptor. cbn [String.eqb Ascii.eqb Bool.eqb].
  destruct (NewVIPAllocator DefaultVIPCIDR) as [a0|e] eqn:Ea; [|done].
  pose proof (NewVIPAllocator_ok_wf _ _ Ea) as Hwf0.
  destruct (allocate_all consumes a0) as [a|e] eqn:Eall; [|done].
  destruct (allocate_all_spec consumes a0 a Hwf0 Eall) as (Hwf & _).
  destruct (NewDNSServer ul ut dnsAddr suffix (Some a)) as [d|e] eqn:Ed; [|done].
  unfold mbind, mret, emit. destruct (NewTProxy _ _ _) as [[l|e] st2]; [|done].
  intros [= -> -> -> _]. split_and!; [done| |].
  - unfold NewDNSServer in Ed. by injection Ed as <-.
  - intros n ip Hn. destruct (allocate_all_names _ _ _ n ip Hwf0 Eall Hn) as [?|H0]; [done|].
    unfold NewVIPAllocator in Ea. repeat case_match; try done. injection Ea as <-. done.
Qed.

(** ** Properties *)

(** C31. A name resolved through the agent leads to its service.  In an agent
    started in tproxy mode, if a DNS answer of the agent carries an address
    and a connection that the kernel redirected had this address as its
    destination, then the name that was asked for is a consumed service with
    the configured suffix, the accept loop names the connection after this
    service, in every interleaving it is delivered only under this service,
    and it is not closed by the agent before the interceptor is. *)
Theorem resolved_name_reaches_service `{N : Net} {S} ul ut linux dnsAddr suffix consumes
    (st st' : S * trace) ln alloc dns hdr q n ttl a raw conns c :
  startInterceptor ul ut linux "tproxy" dnsAddr suffix consumes st = (Ok (TProxy ln alloc dns), st') ->
  m_Answers (answer ul dns hdr q) = [mkResource n TypeA ClassINET ttl a] ->
  sockaddr_addr raw = a -> conns c = redirected_to raw ->
  exists svc, svc ∈ consumes /\ svc <> "" /\
    ToLower ul (TrimSuffix (q_Name q) ".") = svc +:+ dns_suffix dns /\
    kconn_target alloc (conns c) = Some svc /\
    forall s, rtc (tproxy_step alloc conns) (init 1) s ->
      (forall svc', (c, svc') ∈ i_delivered s -> svc' = svc) /\
      (i_closed s = false -> c ∉ i_dropped s).
Proof.
  intros (Hwf & Ealloc & Hnames)%tproxy_started Hans Hraw Hc.
  unfold answer in Hans. destruct (q_Type q =? TypeA); [|by destruct (q_Type q =? TypeAAAA)].
  destruct (Dns.lookup ul dns (q_Name q)) as [ip|] eqn:El; [|done]. cbn in Hans.
  injection Hans as <- <- <-.
  destruct (lookup_inv ul dns _ ip El) as (svc & Hne & Hl & Hq). rewrite Ealloc in Hl.
  assert (kconn_target alloc (conns c) = Some svc) as Ht.
  { pose proof Hl as Hi. apply (vw_inverse _ Hwf) in Hi.
    destruct (vw_alloc _ Hwf ip ltac:(by eexists)) as (v & -> & [Hp _] & _).
    pose proof (vw_range _ Hwf). destruct (origDst4_addr raw v ltac:(lia) Hraw) as [port Ho].
    rewrite Hc. unfold kconn_target, tproxy_target, redirected_to.
    cbn [k_tcp k_scErr k_cErr k_inErr k_raw rd_tcp rd_dst negb]. rewrite Ho. cbn [ap_addr].
    unfold Lookup. rewrite Hi. cbn. by rewrite bool_decide_eq_false_2. }
  exists svc. split_and!; try done; [by eapply Hnames|]. intros s Hr. split.
  - intros svc' Hin. destruct (reachable_conserved _ _ _ _ Hr) as [_ _ Hd].
    destruct (Hd c svc' Hin) as [_ Ht']. congruence.
  - intros Hcl Hin. destruct (proj2 (reachable_drops _ _ _ _ Hr) c Hin) as [?|(_ & _ & Ht')]; congruence.
Qed.

(** An agent that consumes [db], and a connection to the address of it. *)
Definition demo_icpt : result interceptor * (unit * trace) :=
  @startInterceptor (demo_net (fun _ _ => mkFrame FrameTypeHello [])) unit id id true "tproxy" ":53"
    "outrelay" ["db"] (tt, []).

Definition demo_tproxy : VIPAllocator * DNSServer :=
  match fst demo_icpt with
  | Ok (TProxy _ alloc dns) => (alloc, dns)
  | _ => (tiny_pool, demo_dns)
  end.

Definition demo_raw : list Z := [2; 0; 21; 56; 100; 64; 0; 1; 0; 0; 0; 0; 0; 0; 0; 0].

Lemma resolved_name_reaches_service_witness :
  exists svc, svc ∈ ["db"%string] /\
    kconn_target (fst demo_tproxy) (redirected_to demo_raw) = Some svc.
Proof.
  destruct (@resolved_name_reaches_service (demo_net (fun _ _ => mkFrame FrameTypeHello [])) unit id id
    true ":53" "outrelay" ["db"%string] (tt, []) (snd demo_icpt) 1%nat (fst demo_tproxy)
    (snd demo_tproxy) (mkHeader 7 true) (mkQuestion "DB.outrelay." TypeA ClassINET) "DB.outrelay." 60
    [100; 64; 0; 1] demo_raw (fun _ => redirected_to demo_raw) 0%nat
    ltac:(vm_compute; reflexivity) ltac:(vm_compute; reflexivity) eq_refl eq_refl)
    as (svc & Hin & _ & _ & Ht & _).
  exact (ex_intro _ svc (conj Hin Ht)).
Defined.
