(* ===== verification/Start.v ===== *)
(** * [main] in [cmd/outrelay-agent/main.go]: the start-up sequence

    The calls of [main] in their order, from the check of the flags to the
    deferred closes after [RunWithReconnect], and the accept loop of
    [runConsumer].  A start that calls [os.Exit] is the exit code.  The
    control reader and the foreground read the same control stream, so the
    order matters: everything the foreground reads there has to be read before
    the reader is started. *)

From Stdlib Require Import Strings.Ascii.
From S2P Require Import Prelude Netip Orp Tls Candidate Resume StreamSwap Waiters Forward Session.
From S2P Require Import SessionInv Dialing Reconnect Incoming P2P Promote Safety Vip Dns.
From S2P Require Import Intercept Main.

Local Open Scope agent_scope.

(** The flags [main] acts on. *)
Record flags : Type := mkFlags {
  fl_relay : string;
  fl_relayTCP : string;
  fl_cert : string;
  fl_key : string;
  fl_ca : string;
  fl_serverName : string;
  fl_uri : string;
  fl_p2pListen : string;
  fl_p2pAdvertise : string;
  fl_exposeSvc : string;
  fl_exposeTo : string;
  fl_mode : string;
  fl_dnsAddr : string;
  fl_dnsSuffix : string;
  fl_consumes : list string
}.

(** What the machine answers: the files at the time they are read, the
    interface addresses, the port of the listener, the random number and the
    outcome of the select of the srflx query, the platform. *)
Record machine : Type := mkMachine {
  mc_files : trace -> files;
  mc_ifaddrs : result (list netAddr);
  mc_port : Z;
  mc_rand : Z;
  mc_select : srflx_select;
  mc_linux : bool
}.

(** [strings.Split(s, ",")]. *)
Fixpoint split_comma (l : list Ascii.ascii) : list (list Ascii.ascii) :=
  match l with
  | [] => [[]]
  | c :: l' =>
      if bool_decide (c = ","%char) then [] :: split_comma l'
      else
        match split_comma l' with
        | [] => [[c]]
        | w :: ws => (c :: w) :: ws
        end
  end.

Section Start.
Context `{N : Net} `{L : ResumeLib} (unicode_lower unicode_trim : string -> string).

(** [identity.Parse] of [lib/identity]: its error. *)
Context (identity_Parse : string -> option error).
Context (fl : flags) (mc : machine).

(** A comma-separated list of endpoints, trimmed. *)
Definition endpoints (s : string) : list string :=
  map (fun w => TrimSpace unicode_trim (of_chars w)) (split_comma (chars s)).

(** No TCP endpoints when the flag is not set. *)
Definition tcp_endpoints (s : string) : list string :=
  if bool_decide (s = "") then [] else endpoints s.

(** The handler of the exposed service and the context, as handles. *)
Context (backend_handler ctx : nat).

(** An [os.Exit] code or a value. *)
Definition started (A : Type) : Type := Z + A.

Definition missing_flags : bool :=
  bool_decide (fl_cert fl = "") || bool_decide (fl_key fl = "") ||
  bool_decide (fl_ca fl = "") || bool_decide (fl_uri fl = "").

(** The required flags, the agent's URI and the client configuration. *)
Definition configure {S} : Eff S (started tlsConfig) :=
  if missing_flags then mret (inl 2)
  else
    match identity_Parse (fl_uri fl) with
    | Some _ => mret (inl 2)
    | None =>
        do t <- history ;;
        mret match loadClientTLS (mc_files mc t) (fl_cert fl) (fl_key fl) (fl_ca fl)
                     (fl_serverName fl) with
             | Err _ => inl 1
             | Ok c => inr c
             end
    end.

Definition load_server {S} : Eff S (result tlsConfig) :=
  do t <- history ;;
  mret (loadServerTLS (mc_files mc t) (fl_cert fl) (fl_key fl) (fl_ca fl)).

(** [NewSharedTransport] when [--p2p-listen] is set. *)
Definition bind_shared {S} : Eff S (result (option nat)) :=
  if bool_decide (fl_p2pListen fl = "") then mret (Ok None)
  else
    do r <- acquire ResUDP ;;
    mret match r with Ok k => Ok (Some k) | Err e => Err e end.

Definition set_forward_tls : Eff Session (started unit) :=
  if negb (bool_decide (fl_cert fl = "")) && negb (bool_decide (fl_key fl = "")) &&
     negb (bool_decide (fl_ca fl = "")) then
    do r <- load_server ;;
    match r with
    | Err _ => mret (inl 1)
    | Ok c => do_ modify (SetForwardServerTLS (Some c)) ;; mret (inr tt)
    end
  else mret (inr tt).

Definition expose_service : Eff Session (started unit) :=
  if bool_decide (fl_exposeSvc fl = "") then mret (inr tt)
  else if bool_decide (fl_exposeTo fl = "") then mret (inl 2)
  else
    do e <- Expose (fl_exposeSvc fl) (fl_exposeTo fl) backend_handler ;;
    mret match e with Some _ => inl 1 | None => inr tt end.

(** [p2pEngine] as configured when [Check] can first use it. *)
Definition p2p_engine (sock : option nat) : Engine :=
  let e := NewEngine 0 in
  let e := match sock with Some k => SetDialer (SharedTransport k) e | None => e end in
  SetPerPairTimeout (2 * Second) e.

(** The srflx query on the process-wide request counter, not used before. *)
Definition query_srflx : Eff Session (result Candidate) :=
  fun '(s, t) =>
    let '(r, ((s', _), t')) :=
      Session_QueryServerReflexive (mc_rand mc) (mc_select mc) ((s, 0), t) in
    (r, (s', t')).

Definition parse_advertise : result (option AddrPort) :=
  if bool_decide (fl_p2pAdvertise fl = "") then Ok None
  else
    match ParseAddrPort (fl_p2pAdvertise fl) with
    | Some adv => Ok (Some adv)
    | None => Err (ErrorString "p2p: invalid --p2p-advertise")
    end.

(** The direct-dial listener and the candidates it advertises; the listener
    when there is one. *)
Definition listen_direct (sock : option nat) : Eff Session (started (option nat)) :=
  match sock with
  | Some _ =>
      if bool_decide (fl_p2pListen fl = "") then mret (inr None)
      else
        do c <- load_server ;;
        match c with
        | Err _ => mret (inl 1)
        | Ok _ =>
            do ln <- acquire ResListener ;;
            match ln with
            | Err _ => mret (inl 1)
            | Ok ln =>
                let hosts := HostCandidates (mc_ifaddrs mc) (uint16 (mc_port mc)) in
                do srflx <- query_srflx ;;
                match parse_advertise with
                | Err _ => mret (inl 2)
                | Ok adv =>
                    do_ modify (fun s => set_p2p (SetLocalCandidates
                          (toPBCandidates (advertised hosts srflx adv)) (s_p2p s)) s) ;;
                    mret (inr (Some ln))
                end
            end
        end
  | None => mret (inr None)
  end.

Definition enable_p2p : Eff Session unit :=
  do s <- get ;;
  let '(start, p) := EnableP2P ctx (s_p2p s) in
  do_ modify (set_p2p p) ;;
  if start : bool then emit (EvSpawn "controlReader") else mret tt.

Definition start_consumer : Eff Session (started (option interceptor)) :=
  match fl_consumes fl with
  | [] => mret (inr None)
  | _ =>
      do ic <- startInterceptor unicode_lower unicode_trim (mc_linux mc) (fl_mode fl)
                 (fl_dnsAddr fl) (fl_dnsSuffix fl) (fl_consumes fl) ;;
      match ic with
      | Err _ => mret (inl 1)
      | Ok ic => do_ emit (EvSpawn "runConsumer") ;; mret (inr (Some ic))
      end
  end.

(** Everything the session is set up with before the control reader runs. *)
Definition provision (sock : option nat) : Eff Session (started (option nat)) :=
  do r <- set_forward_tls ;;
  match r with
  | inl code => mret (inl code)
  | inr _ =>
      do r <- expose_service ;;
      match r with
      | inl code => mret (inl code)
      | inr _ => listen_direct sock
      end
  end.

(** The rest of [main] up to [RunWithReconnect]. *)
Definition wire (sock : option nat) : Eff Session (started (option nat * option interceptor)) :=
  do r <- provision sock ;;
  match r with
  | inl code => mret (inl code)
  | inr ln =>
      do_ enable_p2p ;;
      do_ match ln with Some _ => emit (EvSpawn "AcceptDirect") | None => mret tt end ;;
      do r <- start_consumer ;;
      mret match r with inl code => inl code | inr ic => inr (ln, ic) end
  end.

(** The session [RunWithReconnect] is called on, the addresses it is given,
    the direct listener and the interceptor. *)
Record running : Type := mkRunning {
  rn_session : Session;
  rn_addrs : list string;
  rn_listener : option nat;
  rn_interceptor : option interceptor
}.

Definition startup {S} (order : list string -> list string) : Eff S (started running) :=
  do c <- configure ;;
  match c with
  | inl code => mret (inl code)
  | inr _ =>
      do sock <- bind_shared ;;
      match sock with
      | Err _ => mret (inl 1)
      | Ok sock =>
          do r <- connect sock (endpoints (fl_relay fl)) (tcp_endpoints (fl_relayTCP fl)) order
                    (fl_uri fl) ;;
          match r with
          | Err _ => mret (inl 1)
          | Ok (se, raddrs, sock) =>
              fun '(s, t) =>
                let '(r, (se', t')) := wire sock (se, t) in
                (match r with
                 | inl code => inl code
                 | inr (ln, ic) => inr (mkRunning se' raddrs ln ic)
                 end, (s, t'))
          end
      end
  end.

(** ** The end *)
Definition interceptor_listeners (ic : interceptor) : list nat :=
  match ic with Explicit lns _ => lns | TProxy ln _ _ => [ln] end.

(** The deferred closes: the interceptor, the direct listener, the session. *)
Definition deferred (ln : option nat) (ic : option interceptor) : Eff Session unit :=
  do_ close_listeners (default [] (interceptor_listeners <$> ic)) ;;
  do_ close_listeners (option_list ln) ;;
  do s <- get ;;
  Session_Close s.

(** [main]: the exit code; [None] when the fuel of [RunWithReconnect] is used
    up.  [os.Exit] runs no deferred call. *)
Definition agent_main {S} (fuel : nat) (order : list string -> list string) : Eff S (option Z) :=
  do r <- startup order ;;
  match r with
  | inl code => mret (Some code)
  | inr rn =>
      fun '(s, t) =>
        let '(r, (se, t1)) := RunWithReconnect fuel (rn_addrs rn) (rn_session rn, t) in
        match r with
        | None => (None, (s, t1))
        | Some e =>
            if match e with Some e => negb (errors_Is e Canceled) | None => false end
            then (Some 1, (s, t1))
            else
              let '(_, (_, t2)) := deferred (rn_listener rn) (rn_interceptor rn) (se, t1) in
              (Some 0, (s, t2))
        end
  end.

(** [runConsumer]: one goroutine per intercepted connection; [ic] answers
    [Accept].  [None] when the fuel is used up, else the error that ended it. *)
Fixpoint runConsumer (fuel : nat) (ic : trace -> result (backend * string))
    : Eff Session (option error) :=
  match fuel with
  | O => mret None
  | S fuel' =>
      do t <- history ;;
      match ic t with
      | Err e => mret (Some e)
      | Ok _ => do_ emit (EvSpawn "consume_conn") ;; runConsumer fuel' ic
      end
  end.
End Start.

(** ** What may happen on which side of the control reader's start *)
Definition before_reader (e : event) : Prop :=
  match e with EvSpawn w => w <> "controlReader"%string | EvPanic => False | _ => True end.

Definition after_reader (e : event) : Prop :=
  match e with
  | EvParseFrame _ _ | EvWriteFrame _ _ _ _ => False
  | EvSpawn w => w <> "controlReader"%string
  | EvPanic => False
  | _ => True
  end.

(** ** Programs that leave their state alone *)
Definition steady {S A} (P : event -> Prop) (m : Eff S A) : Prop :=
  forall s t, exists a ext, m (s, t) = (a, (s, t ++ ext)) /\ Forall P ext.

Section Steady.
Context {S : Type} (P : event -> Prop).

Lemma steady_ret {A} (a : A) : steady (S := S) P (mret a).
Proof. intros s t. exists a, []. by rewrite app_nil_r. Qed.

Lemma steady_bind {A B} (m : Eff S A) (k : A -> Eff S B) :
  steady P m -> (forall a, steady P (k a)) -> steady P (mbind m k).
Proof.
  intros Hm Hk s t. destruct (Hm s t) as (a & e1 & E1 & H1).
  destruct (Hk a s (t ++ e1)) as (b & e2 & E2 & H2).
  exists b, (e1 ++ e2). unfold mbind. rewrite E1, E2, app_assoc. split; [done|]. by apply Forall_app.
Qed.

Lemma steady_emit e : P e -> steady (S := S) P (emit e).
Proof. intros He s t. exists tt, [e]. split; [done|]. by constructor. Qed.
End Steady.

Section Facts.
Context `{N : Net} `{Sp : ResumeSpec}.

Lemma steady_acquire {S} (P : event -> Prop) k :
  (forall i, P (EvAcquire k i)) -> (forall e, P (EvRefused k e)) -> steady (S := S) P (acquire k).
Proof.
  intros Ha Hr s t. unfold acquire. destruct (net_acquire t k); eexists _, [_]; (split; [done|]);
    by constructor.
Qed.

Lemma steady_release {S} (P : event -> Prop) k i :
  (forall e, P (EvRelease k i e)) -> steady (S := S) P (release k i).
Proof. intros H s t. eexists _, [_]. split; [done|]. by constructor. Qed.

Lemma steady_NewExplicit {S} ms : steady (S := S) after_reader (NewExplicit ms).
Proof.
  assert (forall lns, steady (S := S) after_reader (close_listeners lns)) as Hc.
  { induction lns as [|ln lns IH]; cbn [close_listeners]; [apply steady_ret|].
    apply steady_bind; [by apply steady_release|done]. }
  assert (forall lns, steady (S := S) after_reader (explicit_loop ms lns)) as Hl.
  { induction ms as [|m ms IH]; intros lns; cbn [explicit_loop]; [apply steady_ret|].
    apply steady_bind; [by apply steady_acquire|]. intros [ln|e]; apply steady_bind; intros; try apply IH;
      [by apply steady_emit|apply Hc|apply steady_ret]. }
  unfold NewExplicit. destruct ms; [apply steady_ret|apply Hl].
Qed.

Lemma steady_startInterceptor {S} ul ut linux mode addr suffix consumes :
  steady (S := S) after_reader (startInterceptor ul ut linux mode addr suffix consumes).
Proof.
  unfold startInterceptor, NewTProxy.
  repeat first [apply steady_ret | apply steady_NewExplicit | by apply steady_emit
    | by apply steady_acquire | apply steady_bind; [|intros ?] | case_match].
Qed.

(** ** The session that was dialed *)
Definition fresh (se : Session) : Prop := exists c ct uri d, se = new_session c ct uri d.

Lemma DialWithDialer_fresh {S} d a uri (st : S * trace) se :
  fst (DialWithDialer d a uri st) = Ok se -> fresh se.
Proof.
  destruct st as [s t]. unfold DialWithDialer, Dialer_Dial, Conn_OpenStream, WriteFrame, ParseFrame,
    Conn_Close, emit, mbind, mret.
  repeat (case_match; simplify_eq/=; try done). intros [= <-]. by eexists _, _, _, _.
Qed.

Lemma happy_loop_fresh {S} d uri arrivals w first (st : S * trace) :
  (forall se, w = Some se -> fresh se) ->
  forall se, fst (fst (happy_loop d uri arrivals w first st)) = Some se -> fresh se.
Proof.
  revert w first st. induction arrivals as [|a rest IH]; intros w first st Hw se; cbn [happy_loop].
  { apply Hw. }
  unfold mbind at 1. destruct (DialWithDialer d a uri st) as [r st1] eqn:E.
  destruct r as [x|e]; [|by apply IH]. destruct w as [y|].
  - unfold mbind. destruct (Session_Close x st1) as [u st2]. by apply IH.
  - apply IH. intros ? [= <-]. apply (DialWithDialer_fresh d a uri st). by rewrite E.
Qed.

Lemma DialAnyHappy_fresh {S} d addrs arrivals uri (st : S * trace) se :
  fst (DialAnyHappy d addrs arrivals uri st) = Ok se -> fresh se.
Proof.
  unfold DialAnyHappy. destruct addrs as [|a [|b addrs]]; [done|apply DialWithDialer_fresh|].
  unfold mbind. pose proof (happy_loop_fresh d uri arrivals None None st) as H.
  destruct (happy_loop d uri arrivals None None st) as [[[x|] e] st1]; [|done].
  intros [= <-]. by apply H.
Qed.

Lemma dial_event_before e : dial_event e -> before_reader e.
Proof. by destruct e. Qed.

Lemma connect_run {S} sock addrs tcp order uri (s : S) t :
  exists r ext, connect sock addrs tcp order uri (s, t) = (r, (s, t ++ ext)) /\
    Forall before_reader ext /\
    match r with
    | Ok (se, raddrs, _) => fresh se /\ (raddrs = addrs \/ (tcp <> [] /\ raddrs = tcp))
    | Err _ => True
    end.
Proof.
  unfold connect, mbind at 1. set (d := match sock with Some _ => _ | None => _ end).
  destruct (DialAnyHappy_run d addrs (order addrs) uri s t) as (r & e1 & E1 & _ & Q1).
  pose proof (DialAnyHappy_fresh d addrs (order addrs) uri (s, t)) as Hf. rewrite E1 in Hf |- *.
  pose proof (Forall_impl _ _ _ Q1 dial_event_before) as H1.
  destruct r as [se|e]; [exists (Ok (se, addrs, sock)), e1; split_and!; eauto|].
  destruct tcp as [|a tcp]; [by exists (Err e), e1|].
  assert (exists e2, (match sock with Some k => do_ release ResUDP k ;; mret tt | None => mret tt end)
    (s, t ++ e1) = (tt, (s, (t ++ e1) ++ e2)) /\ Forall before_reader e2) as (e2 & E2 & H2).
  { destruct sock; eexists; [split; [reflexivity|by repeat constructor]|].
    split; [by rewrite app_nil_r|done]. }
  unfold mbind at 1. rewrite E2. unfold mbind.
  destruct (DialAnyHappy_run TCPDialer (a :: tcp) (order (a :: tcp)) uri s ((t ++ e1) ++ e2))
    as (r2 & e3 & E3 & _ & Q3).
  pose proof (DialAnyHappy_fresh TCPDialer (a :: tcp) (order (a :: tcp)) uri (s, (t ++ e1) ++ e2)) as Hf2.
  rewrite E3 in Hf2 |- *. pose proof (Forall_impl _ _ _ Q3 dial_event_before) as H3.
  assert (Forall before_reader (e1 ++ e2 ++ e3)) by by rewrite !Forall_app.
  destruct r2 as [se|e']; eexists _, (e1 ++ e2 ++ e3); (split; [by rewrite <- !app_assoc|]);
    split_and!; eauto.
Qed.

(** ** Setting the session up *)
Context (fl : flags) (mc : machine) (h ctx : nat).

Definition exit_ok {A} (r : started A) : Prop :=
  match r with inl code => code = 1 \/ code = 2 | inr _ => True end.

(** What set-up leaves alone: the reader is not running, and the control
    stream, the flag that it runs and the forward-mode configuration are the
    same. *)
Definition quiet (s s' : Session) (ext : trace) : Prop :=
  Forall before_reader ext /\ p2pEnabled (s_p2p s') = p2pEnabled (s_p2p s) /\ s_ctrl s' = s_ctrl s /\
  s_forwardServerTLS s' = s_forwardServerTLS s.

(** A configuration [loadServerTLS] made of the files of the flags. *)
Definition server_config (o : option tlsConfig) : Prop :=
  exists t c, o = Some c /\ loadServerTLS (mc_files mc t) (fl_cert fl) (fl_key fl) (fl_ca fl) = Ok c.

Definition exposed (hs : gmap string nat) : gmap string nat :=
  if bool_decide (fl_exposeSvc fl = "") then hs else <[fl_exposeSvc fl := h]> hs.

Lemma quiet_refl s : quiet s s [].
Proof. done. Qed.

Lemma quiet_trans s1 s2 s3 e1 e2 : quiet s1 s2 e1 -> quiet s2 s3 e2 -> quiet s1 s3 (e1 ++ e2).
Proof.
  intros (? & ? & ? & ?) (? & ? & ? & ?). split_and!; [by apply Forall_app|congruence..].
Qed.

Lemma steady_load_server {S} P : steady (S := S) P (load_server fl mc).
Proof. intros s t. eexists _, []. by rewrite app_nil_r. Qed.

Lemma run_load_server s :
  session_wf s -> run_ok (load_server fl mc) s (fun r s' ext => s' = s /\ ext = [] /\
    match r with Ok c => server_config (Some c) | Err _ => True end).
Proof.
  intros Hwf t. unfold load_server, history, mbind, mret. exists []. rewrite app_nil_r.
  split_and!; try done; [apply not_elem_of_nil|]. case_match; [|done]. by eexists _, _.
Qed.

Lemma run_set_forward_tls s :
  session_wf s -> missing_flags fl = false -> run_ok (set_forward_tls fl mc) s (fun r s' ext =>
    exit_ok r /\ s_handlers s' = s_handlers s /\ exists o, quiet (SetForwardServerTLS o s) s' ext /\
      (r = inr tt -> server_config o)).
Proof.
  intros Hwf Hm. unfold set_forward_tls. unfold missing_flags in Hm.
  apply orb_false_iff in Hm as [[[-> ->]%orb_false_iff ->]%orb_false_iff _]. cbn [negb andb].
  eapply run_bind; [by apply run_load_server|]. intros r s1 e1 _ _ (-> & -> & Hc).
  destruct r as [c|e].
  2: { apply run_ret; [done|]. split_and!; [by left|done|]. by exists (s_forwardServerTLS s). }
  eapply run_bind.
  { apply run_modify with (Q := fun _ s' ext => s' = SetForwardServerTLS (Some c) s /\ ext = []);
      [|by apply grows_same_store|done]. apply (wf_same_store s); try done. apply Hwf. }
  intros [] s2 e2 Hwf1 _ [-> ->]. apply run_ret; [done|]. split_and!; try done. by exists (Some c).
Qed.

Lemma run_Expose_quiet name la s :
  session_wf s -> run_ok (Expose name la h) s (fun _ s' ext =>
    quiet s s' ext /\ s_handlers s' = <[name := h]> (s_handlers s)).
Proof.
  intros Hwf. unfold Expose. eapply run_bind.
  { apply run_modify with (Q := fun _ s' e => s' = set_handlers (<[name := h]> (s_handlers s)) s /\ e = []);
      [|by apply grows_same_store|done]. apply (wf_same_store s); try done. apply Hwf. }
  intros [] s1 e1 Hwf1 _ [-> ->]. rget.
  assert (forall e1 e2, quiet s (set_handlers (<[name := h]> (s_handlers s)) s)
    [EvWriteFrame (s_ctrl s) FrameTypeRegister (MRegister name la) e1;
     EvParseFrame (s_ctrl s) e2]) as Hq by (intros; split_and!; by repeat constructor).
  rcall run_write_frame. destruct a as [[]|e]; [|apply run_ret; [done|]; split_and!; by repeat constructor].
  rcall run_parse. destruct a as [f|e]; [case_bool_decide|]; apply run_ret; try done;
    (split; [apply Hq|done]).
Qed.

Lemma run_expose_service s :
  session_wf s -> run_ok (expose_service fl h) s (fun r s' ext =>
    quiet s s' ext /\ exit_ok r /\ (r = inr tt -> s_handlers s' = exposed (s_handlers s))).
Proof.
  intros Hwf. unfold expose_service, exposed. case_bool_decide as H1; [by apply run_ret|].
  case_bool_decide as H2; [apply run_ret; [done|]; split_and!; try done; by right|].
  eapply run_bind; [by apply run_Expose_quiet|]. intros e s1 e1 Hwf1 _ [Hq Hh].
  apply run_ret; [done|]. rewrite app_nil_r. split_and!; [done| |done]. destruct e; [by left|done].
Qed.

(** The srflx query is made, not refused, while the reader is not running. *)
Definition queried (ctrl : stream) (ext : trace) : Prop :=
  exists id w, EvWriteFrame ctrl FrameTypeObservedAddrQuery (MObservedAddrQuery id) w ∈ ext.

Lemma run_query_srflx s :
  session_wf s -> p2pEnabled (s_p2p s) = false ->
  run_ok (query_srflx mc) s (fun _ s' ext => s' = s /\ Forall before_reader ext /\ queried (s_ctrl s) ext).
Proof.
  intros Hwf Hp t. unfold query_srflx, Session_QueryServerReflexive. rewrite Hp.
  unfold QueryServerReflexive, get, put, WriteFrame, emit, mbind, mret.
  set (id := if _ =? 0 then _ else _).
  assert (forall w e, Forall before_reader e -> let ext :=
    EvWriteFrame (s_ctrl s) FrameTypeObservedAddrQuery (MObservedAddrQuery id) w :: e in
    (EvPanic ∉ ext) /\ s = s /\ Forall before_reader ext /\ queried (s_ctrl s) ext) as Hx.
  { intros w e He. assert (Forall before_reader (EvWriteFrame (s_ctrl s) FrameTypeObservedAddrQuery
      (MObservedAddrQuery id) w :: e)) as Hb by by constructor.
    split_and!; try done.
    - intros Hin. rewrite Forall_forall in Hb. by destruct (Hb _ Hin).
    - exists id, w. by left. }
  destruct (net_write_frame _ _ _ _) as [[]|e].
  2: { eexists [_]. split_and!; try done; by apply (Hx _ []). }
  set (e1 := EvWriteFrame _ _ _ _). set (e2 := EvSpawn _).
  destruct (mc_select mc) as [| |e].
  - unfold readObserved, ParseFrame, mbind, mret.
    assert (forall e3, before_reader e3 -> let ext := [e1; e2; e3] in
      (EvPanic ∉ ext) /\ s = s /\ Forall before_reader ext /\ queried (s_ctrl s) ext) as Hy
      by (intros e3 H3; apply Hx; by repeat constructor).
    repeat (case_match; simplify_eq/=); eexists [e1; e2; _]; rewrite <- !app_assoc;
      (split; [done|]); split_and!; try done; by apply Hy.
  - exists [e1; e2]. rewrite <- app_assoc. split; [done|]. split_and!; try done;
      apply Hx; by repeat constructor.
  - exists [e1; e2]. rewrite <- app_assoc. split; [done|]. split_and!; try done;
      apply Hx; by repeat constructor.
Qed.

Lemma run_steady {A} (P : event -> Prop) (m : Eff Session A) s :
  session_wf s -> ~ P EvPanic -> steady P m ->
  run_ok m s (fun _ s' ext => s' = s /\ Forall P ext).
Proof.
  intros Hwf HP Hm t. destruct (Hm s t) as (a & ext & -> & He). exists ext. split_and!; try done.
  intros Hin. rewrite Forall_forall in He. by apply HP, He.
Qed.

Lemma run_listen_direct sock s :
  session_wf s -> p2pEnabled (s_p2p s) = false ->
  run_ok (listen_direct fl mc sock) s (fun r s' ext =>
    quiet s s' ext /\ exit_ok r /\ s_handlers s' = s_handlers s /\
    (forall ln, r = inr (Some ln) -> queried (s_ctrl s) ext)).
Proof.
  intros Hwf Hp. unfold listen_direct. destruct sock as [k|]; [|by apply run_ret].
  case_bool_decide; [by apply run_ret|].
  eapply run_bind; [by apply run_load_server|]. intros c s0 e0 _ _ (-> & -> & _).
  destruct c as [c|e]; [|apply run_ret; [done|]; split_and!; try done; by left].
  eapply run_bind; [apply (run_steady before_reader); [done|by intros ?|by apply steady_acquire]|].
  intros r s1 e1 _ _ [-> H1]. destruct r as [ln|e].
  2: { apply run_ret; [done|]. rewrite app_nil_r. split_and!; try done. by left. }
  eapply run_bind; [by apply run_query_srflx|]. intros srflx s2 e2 _ _ (-> & H2 & id & w & Hin).
  assert (Forall before_reader (e1 ++ e2)) as H12 by by apply Forall_app.
  destruct (parse_advertise fl) as [adv|e].
  2: { apply run_ret; [done|]. rewrite app_nil_r. split_and!; try done. by right. }
  eapply run_bind.
  { apply (run_set_p2p (SetLocalCandidates _)); [done|].
    apply (apply_op_wf (OpSetLocal _) _ (swf_p2p s Hwf)). }
  intros [] s3 e3 Hwf3 _ [-> ->]. apply run_ret; [done|]. rewrite !app_nil_r. split_and!; try done.
  intros _ _. exists id, w. cbn [app]. apply elem_of_app. by right.
Qed.

Lemma run_provision sock s :
  session_wf s -> p2pEnabled (s_p2p s) = false -> missing_flags fl = false ->
  run_ok (provision fl mc h sock) s (fun r s' ext =>
    exit_ok r /\ exists o, quiet (SetForwardServerTLS o s) s' ext /\
    forall ln, r = inr ln -> s_handlers s' = exposed (s_handlers s) /\ server_config o /\
      (ln <> None -> queried (s_ctrl s) ext)).
Proof.
  intros Hwf Hp Hm. unfold provision.
  eapply run_bind; [by apply run_set_forward_tls|]. intros r s1 e1 Hwf1 _ (Hx1 & Hh1 & o & Hq1 & Ho).
  destruct r as [code|[]]; [apply run_ret; [done|]; rewrite app_nil_r; split; [done|by exists o]|].
  eapply run_bind; [by apply run_expose_service|]. intros r s2 e2 Hwf2 _ (Hq2 & Hx2 & Hh2).
  pose proof (quiet_trans _ _ _ _ _ Hq1 Hq2) as Hq12.
  destruct r as [code|[]]; [apply run_ret; [done|]; rewrite app_nil_r; split; [done|by exists o]|].
  eapply run_mono; [apply run_listen_direct; [done|]|].
  { destruct Hq12 as (_ & -> & _). done. }
  intros r s3 e3 (Hq3 & Hx3 & Hh3 & Hq). rewrite app_assoc. split; [done|]. exists o.
  split; [by eapply quiet_trans|]. intros ln ->. split_and!; [by rewrite Hh3, Hh2, Hh1|by apply Ho|].
  intros Hln. destruct ln as [ln|]; [|done]. destruct (Hq ln eq_refl) as (id & w & Hin).
  destruct Hq12 as (_ & _ & Ec & _). rewrite Ec in Hin. exists id, w. apply elem_of_app. by right.
Qed.

Lemma run_enable_p2p s :
  session_wf s -> p2pEnabled (s_p2p s) = false ->
  run_ok (enable_p2p ctx) s (fun _ s' ext => ext = [EvSpawn "controlReader"] /\
    p2pEnabled (s_p2p s') = true /\ s_handlers s' = s_handlers s /\ s_ctrl s' = s_ctrl s /\
    s_forwardServerTLS s' = s_forwardServerTLS s).
Proof.
  intros Hwf Hp. unfold enable_p2p. rget. unfold EnableP2P. rewrite Hp. cbn [negb].
  pose proof (apply_op_wf (OpEnable ctx) _ (swf_p2p s Hwf)) as Hwp. cbn [apply_op EnableP2P snd] in Hwp.
  eapply run_bind.
  { apply run_modify with (Q := fun _ s' e =>
      s' = set_p2p (snd (EnableP2P ctx (s_p2p s))) s /\ e = []);
      [by apply (wf_same_store s)|by apply grows_same_store|done]. }
  intros [] s1 e1 Hwf1 _ [-> ->]. eapply run_mono; [by apply run_emit|]. by intros [] s2 e2 [-> ->].
Qed.

Lemma run_start_consumer ul ut s :
  session_wf s -> run_ok (start_consumer ul ut fl mc) s (fun r s' ext =>
    s' = s /\ Forall after_reader ext /\ exit_ok r).
Proof.
  intros Hwf. unfold start_consumer. destruct (fl_consumes fl); [by apply run_ret|].
  eapply run_bind.
  { apply (run_steady after_reader); [done|by intros ?|apply steady_startInterceptor]. }
  intros ic s1 e1 _ _ [-> H1]. destruct ic as [ic|e].
  - rcall run_emit. apply run_ret; [done|]. split_and!; try done. apply Forall_app. split; [done|].
    by repeat constructor.
  - apply run_ret; [done|]. rewrite app_nil_r. split_and!; try done. by left.
Qed.

(** The set-up of a freshly dialed session. *)
Definition wired (s : Session) (r : started (option nat * option interceptor)) (s' : Session)
    (ext : trace) : Prop :=
  match r with
  | inl code => code = 1 \/ code = 2
  | inr (ln, _) => exists pre post,
      ext = pre ++ EvSpawn "controlReader" :: post /\
      Forall before_reader pre /\ Forall after_reader post /\
      p2pEnabled (s_p2p s') = true /\ s_handlers s' = exposed (s_handlers s) /\
      server_config (s_forwardServerTLS s') /\
      (ln <> None -> queried (s_ctrl s') pre)
  end.

Lemma run_wire ul ut sock s :
  session_wf s -> p2pEnabled (s_p2p s) = false -> missing_flags fl = false ->
  run_ok (wire ul ut fl mc h ctx sock) s (wired s).
Proof.
  intros Hwf Hp Hm. unfold wire.
  eapply run_bind; [by apply run_provision|]. intros r s1 e1 Hwf1 _ (Hx & o & (Hb & Hp1 & Hc1 & Ho1) & Hr).
  destruct r as [code|ln]; [by apply run_ret|]. destruct (Hr ln eq_refl) as (Hh & Ho & Hq).
  eapply run_bind; [apply run_enable_p2p; [done|by rewrite Hp1]|].
  intros [] s2 e2 Hwf2 _ (-> & Hp2 & Hh2 & Hc2 & Ho2).
  assert (run_ok (match ln with Some _ => emit (EvSpawn "AcceptDirect") | None => mret tt end) s2
    (fun _ s' e => s' = s2 /\ Forall after_reader e)) as Hl.
  { destruct ln; [|by apply run_ret].
    eapply run_mono; [by apply run_emit|]. intros [] s' e [-> ->]. split; [done|].
    by repeat constructor. }
  eapply run_bind; [apply Hl|]. intros [] s3 e3 _ _ (-> & H3).
  eapply run_bind; [by apply run_start_consumer|]. intros r s4 e4 _ _ (-> & H4 & Hx4).
  apply run_ret; [done|]. destruct r as [code|ic]; [done|]. cbn [wired].
  exists e1, (e3 ++ e4). rewrite app_nil_r. split_and!; try done.
  - by apply Forall_app.
  - by rewrite Hh2.
  - rewrite Ho2, Ho1. done.
  - intros Hln. rewrite Hc2, Hc1. by apply Hq.
Qed.

(** ** Exits *)
Lemma steady_bind_shared {S} : steady (S := S) before_reader (bind_shared fl).
Proof.
  unfold bind_shared. case_bool_decide; [apply steady_ret|].
  apply steady_bind; [by apply steady_acquire|intros; apply steady_ret].
Qed.

Lemma connected_endpoints ut tcp raddrs addrs :
  raddrs = addrs \/ (tcp_endpoints ut tcp <> [] /\ raddrs = tcp_endpoints ut tcp) ->
  raddrs = addrs \/ (tcp <> "" /\ raddrs = endpoints ut tcp).
Proof. unfold tcp_endpoints. intros [->|[Hne ->]]; [by left|]. case_bool_decide; auto. done. Qed.

Lemma configure_run {S} ip (s : S) t :
  exists r, configure ip fl mc (s, t) = (r, (s, t)) /\ exit_ok r /\
    (missing_flags fl = true -> r = inl 2) /\
    (forall c, r = inr c -> missing_flags fl = false /\ ip (fl_uri fl) = None).
Proof.
  unfold configure, history, mbind, mret.
  destruct (missing_flags fl); [eexists; split_and!; try done; by right|].
  destruct (ip (fl_uri fl)); [eexists; split_and!; try done; by right|].
  eexists. split; [done|]. destruct (loadClientTLS _ _ _ _ _); split_and!; try done. by left.
Qed.

Lemma close_listeners_events {S} lns (s : S) t :
  exists ext, close_listeners lns (s, t) = (tt, (s, t ++ ext)) /\
    Forall2 (fun ln ev => exists e, ev = EvRelease ResListener ln e) lns ext.
Proof.
  revert t. induction lns as [|ln lns IH]; intros t; cbn [close_listeners].
  { exists []. by rewrite app_nil_r. }
  unfold release, mbind. destruct (IH (t ++ [EvRelease ResListener ln (net_release t ResListener ln)]))
    as (ext & -> & He).
  eexists (_ :: ext). rewrite <- app_assoc. split; [done|]. constructor; [by eexists|done].
Qed.
End Facts.

(** The listeners of a running agent, in the order of the deferred closes. *)
Definition rn_listeners `{L : ResumeLib} (rn : running) : list nat :=
  default [] (interceptor_listeners <$> rn_interceptor rn) ++ option_list (rn_listener rn).

Lemma deferred_run `{N : Net} `{L : ResumeLib} ln ic se t :
  exists ext, deferred ln ic (se, t) = (tt, (se, t ++ ext ++ [EvConnClose (s_conn se)])) /\
    Forall2 (fun ln ev => exists e, ev = EvRelease ResListener ln e)
      (default [] (interceptor_listeners <$> ic) ++ option_list ln) ext.
Proof.
  unfold deferred, mbind.
  destruct (close_listeners_events (default [] (interceptor_listeners <$> ic)) se t) as (e1 & -> & H1).
  destruct (close_listeners_events (option_list ln) se (t ++ e1)) as (e2 & -> & H2).
  exists (e1 ++ e2). split; [cbn; by rewrite <- !app_assoc|]. by apply Forall2_app.
Qed.

(** What a start that succeeded has done. *)
Definition launched `{L : ResumeLib} ut fl mc h (run : running) (ext : trace) : Prop :=
  exists pre post,
    ext = pre ++ EvSpawn "controlReader" :: post /\
    Forall before_reader pre /\ Forall after_reader post /\
    session_wf (rn_session run) /\ p2pEnabled (s_p2p (rn_session run)) = true /\
    s_handlers (rn_session run) = exposed fl h ∅ /\
    server_config fl mc (s_forwardServerTLS (rn_session run)) /\
    (rn_listener run <> None -> queried (s_ctrl (rn_session run)) pre) /\
    (rn_addrs run = endpoints ut (fl_relay fl) \/
     (fl_relayTCP fl <> "" /\ rn_addrs run = endpoints ut (fl_relayTCP fl))).

Lemma startup_run `{N : Net} `{Sp : ResumeSpec} {S} ul ut ip fl mc h ctx order (s : S) t :
  let '(r, (s', t')) := startup ul ut ip fl mc h ctx order (s, t) in
  s' = s /\ exists ext, t' = t ++ ext /\
    match r with inl code => code = 1 \/ code = 2 | inr run => launched ut fl mc h run ext end.
Proof.
  destruct (configure_run fl mc ip s t) as (rc & Ec & Hxc & _ & Hmc).
  unfold startup, mbind at 1. rewrite Ec.
  destruct rc as [code|tls]; [split; [done|]; exists []; by rewrite app_nil_r|].
  destruct (Hmc tls eq_refl) as [Hm _].
  destruct (steady_bind_shared fl s t) as (r0 & e0 & E0 & H0).
  unfold mbind at 1. rewrite E0.
  destruct r0 as [sock|e]; [|split; [done|]; exists e0; split; [done|by left]].
  unfold mbind. destruct (connect_run sock (endpoints ut (fl_relay fl)) (tcp_endpoints ut (fl_relayTCP fl))
    order (fl_uri fl) s (t ++ e0)) as (r1 & e1 & -> & H1 & Hr1).
  destruct r1 as [[[se raddrs] sock']|e].
  2: { split; [done|]. exists (e0 ++ e1). rewrite app_assoc. split; [done|by left]. }
  destruct Hr1 as [(c & ct & uri & d & ->) Hra].
  pose proof (run_wire fl mc h ctx ul ut sock' _ (new_session_wf c ct uri d) eq_refl Hm
    ((t ++ e0) ++ e1)) as Hw.
  destruct (wire ul ut fl mc h ctx sock' _) as [r [se' t']]. destruct Hw as (e2 & -> & Hwf & _ & _ & Hw).
  split; [done|]. exists (e0 ++ e1 ++ e2). rewrite !app_assoc. split; [done|].
  destruct r as [code|[ln ic]]; [done|].
  destruct Hw as (pre & post & -> & Hpre & Hpost & Hp & Hh & Ho & Hq).
  exists (e0 ++ e1 ++ pre), post. split_and!; try done.
  - by rewrite <- !app_assoc.
  - by rewrite !Forall_app.
  - intros Hl. destruct (Hq Hl) as (id & w & Hin). exists id, w. rewrite !elem_of_app. auto.
  - by apply connected_endpoints.
Qed.

(** ** Properties *)



(** A provider of [db] starts: the relay acknowledges HELLO and REGISTER, the
    first of two endpoints answers first. *)
Definition demo_flags : flags :=
  mkFlags "r:1, r:2" "" "c.pem" "k.pem" "ca.pem" "localhost" "outrelay://a" "" "" "db" "127.0.0.1:5432"
    "explicit" ":53" "outrelay" [].

Definition demo_machine : machine :=
  mkMachine (fun _ => demo_files) (Ok []) 0 1 SelTimer true.

Definition acking : Net :=
  demo_net (fun t _ => mkFrame
    (if existsb (fun e => match e with EvWriteFrame _ FrameTypeRegister _ _ => true | _ => false end) t
     then FrameTypeRegisterAck else FrameTypeHelloAck) []).

Example demo_starts :
  match fst (@startup acking Ring.lib id id (fun _ => None) demo_flags demo_machine 7 0 unit id
    (tt, [])) with
  | inr rn => rn_addrs rn = ["r:1"; "r:2"] /\ s_handlers (rn_session rn) !! "db" = Some 7%nat /\
      s_forwardServerTLS (rn_session rn) =
        Some (mkTLS [mkCert 4] None "" (Some (mkPool 4)) RequireAndVerifyClientCert [] VersionTLS13)
  | inl _ => False
  end.
Proof. vm_compute. done. Qed.
