(* ===== verification/Frames.v ===== *)
(** * Every frame the agent writes is well typed

    [orp.WriteFrame] takes the frame type and the message as two arguments
    that the compiler does not relate.  A frame is well typed when its type is
    the one of its message and its fields are in the range of their protobuf
    type or, for HELLO, STREAM_REJECT and OBSERVED_ADDR_QUERY, the values the
    protocol knows. *)

From S2P Require Import Prelude Netip Orp Candidate Resume StreamSwap Waiters Forward Session.
From S2P Require Import SessionInv Dialing Reconnect Incoming P2P Promote Safety Vip Dns.
From S2P Require Import Intercept Main Start.

Local Open Scope agent_scope.

Definition is_uint64 (z : Z) : Prop := 0 <= z < 2 ^ 64.
Definition is_uint32 (z : Z) : Prop := 0 <= z < 2 ^ 32.

Definition pb_ok (c : option pbCandidate) : Prop :=
  match c with Some c => is_uint32 (pb_Port c) | None => False end.

Definition frame_typed (typ : FrameType) (m : message) : Prop :=
  match m with
  | MHello v _ => typ = FrameTypeHello /\ v = "orp/1"%string
  | MRegister _ _ => typ = FrameTypeRegister
  | MOpenStream _ _ _ => typ = FrameTypeOpenStream
  | MStreamAccept => typ = FrameTypeStreamAccept
  | MStreamReject code reason =>
      typ = FrameTypeStreamReject /\
      ((code = 404 /\ reason = inr "no handler"%string) \/ (code = 502 /\ exists e, reason = inl e))
  | MStreamResume m =>
      typ = FrameTypeStreamResume /\
      is_uint64 (sr_StreamId m) /\ is_uint64 (sr_MyPosition m) /\ is_uint64 (sr_PeerAckPosition m)
  | MStreamCheckpoint m =>
      typ = FrameTypeStreamCheckpoint /\
      is_uint64 (cp_StreamId m) /\ is_uint64 (cp_MyPosition m) /\ is_uint64 (cp_PeerAckPosition m)
  | MCandidateOffer m =>
      typ = FrameTypeCandidateOffer /\ is_uint64 (of_StreamId m) /\ Forall pb_ok (of_Candidates m)
  | MCandidateAnswer _ => typ = FrameTypeCandidateAnswer
  | MMigrateToP2P id sel => typ = FrameTypeMigrateToP2P /\ is_uint64 id /\ is_uint32 (pb_Port sel)
  | MObservedAddrQuery id => typ = FrameTypeObservedAddrQuery /\ id <> 0
  end.

Definition well_typed (e : event) : Prop :=
  match e with EvWriteFrame _ typ m _ => frame_typed typ m | _ => True end.

Lemma uint64_is z : is_uint64 (uint64 z).
Proof. apply uint_range. lia. Qed.

Lemma uint32_is z : is_uint32 (uint32 z).
Proof. apply uint_range. lia. Qed.

Create HintDb frames.
#[export] Hint Resolve uint64_is uint32_is : frames.

Lemma resume_message_typed `{L : ResumeLib} st :
  frame_typed FrameTypeStreamResume (MStreamResume (resume_message st)).
Proof.
  unfold resume_message. destruct (ResumePayload st) as [a b]. cbn.
  split_and!; try done; apply uint64_is.
Qed.

Lemma toPB_ok cs : Forall pb_ok (toPB cs).
Proof. apply Forall_fmap, Forall_forall. intros c _. apply uint32_is. Qed.

(** Steps of a walk over a program that checks each frame. *)
Lemma emits_frame {S} `{N : Net} st typ m :
  frame_typed typ m -> emits (S := S) well_typed (WriteFrame st typ m).
Proof. intros H. apply emits_call. intros s t. by eexists _, _, _. Qed.

Lemma emits_swap `{L : ResumeLib} r st : emits well_typed (rs_SwapInner r st).
Proof. by apply emits_rs_SwapInner. Qed.

Lemma emits_abandon `{L : ResumeLib} r : emits well_typed (rs_markAbandoned r).
Proof. by apply emits_rs_markAbandoned. Qed.

Lemma emits_gap `{N : Net} `{L : ResumeLib} st p : emits well_typed (Stream_Write (S := Session) st p).
Proof. by apply emits_write. Qed.

#[export] Hint Resolve emits_swap emits_abandon emits_gap resume_message_typed toPB_ok : frames.
#[export] Hint Extern 4 (frame_typed _ _) =>
  (cbn; repeat match goal with |- _ /\ _ => split end; solve [done | auto with frames]) : frames.
#[export] Hint Resolve emits_frame : frames.

Ltac frames := repeat first [solve [auto with frames] | emits_step].

Section Programs.
Context `{N : Net} `{Sp : ResumeSpec}.

Lemma typed_DialWithDialer {S} d addr uri : emits (S := S) well_typed (DialWithDialer d addr uri).
Proof. unfold DialWithDialer. frames. Qed.

Lemma typed_forgetStream id : emits well_typed (forgetStream id).
Proof. unfold forgetStream. frames. Qed.

Lemma typed_Close r : emits well_typed (rs_Close r).
Proof. unfold rs_Close, forgetStream. frames. Qed.

Lemma typed_Expose name la h : emits well_typed (Expose name la h).
Proof. unfold Expose. frames. Qed.

Lemma typed_freshStreamID fuel target method : emits well_typed (freshStreamID fuel target method).
Proof. induction fuel as [|fuel IH]; cbn [freshStreamID]; frames. Qed.

Lemma typed_wrapStream id st : emits well_typed (wrapStream id st).
Proof.
  apply emits_silent. intros s t. unfold wrapStream. destruct (new_guarded st (s_chans s)).
  by eexists _, _.
Qed.

Lemma typed_Session_Dial fuel target method : emits well_typed (Session_Dial fuel target method).
Proof.
  unfold Session_Dial. repeat first [apply typed_freshStreamID | apply typed_wrapStream | progress frames].
Qed.

Lemma typed_Resume r : emits well_typed (Resume r).
Proof. unfold Resume, completeResume. frames. Qed.

Lemma typed_redial d uri addrs first : emits well_typed (redial d uri addrs first).
Proof.
  revert first. induction addrs as [|a addrs IH]; intros first; cbn [redial]; [apply emits_ret|].
  frames; apply IH.
Qed.

Lemma typed_reregister ctrl names : emits well_typed (reregister ctrl names).
Proof. induction names as [|a names IH]; cbn [reregister]; frames. Qed.

Lemma typed_resume_all l : emits well_typed (resume_all l).
Proof.
  induction l as [|r l IH]; cbn [resume_all]; [apply emits_ret|].
  apply emits_bind; [apply typed_Resume|intros e]. apply emits_bind; [|done].
  frames.
Qed.

Lemma typed_Reconnect addrs : emits well_typed (Reconnect addrs).
Proof.
  unfold Reconnect, ActiveStreams. destruct addrs as [|a addrs]; [apply emits_ret|].
  repeat first [apply typed_redial | apply typed_reregister | apply typed_resume_all | emits_step].
Qed.

Lemma typed_Run fuel : emits well_typed (Run fuel).
Proof. induction fuel as [|fuel IH]; cbn [Run]; frames. Qed.

Lemma typed_reconnect_loop fuel addrs b : emits well_typed (reconnect_loop fuel addrs b).
Proof.
  revert b. induction fuel as [|fuel IH]; intros b; cbn [reconnect_loop];
    repeat first [apply typed_Reconnect | apply IH | emits_step].
Qed.

Lemma typed_RunWithReconnect fuel addrs : emits well_typed (RunWithReconnect fuel addrs).
Proof.
  induction fuel as [|fuel IH]; cbn [RunWithReconnect];
    repeat first [apply typed_Run | apply typed_reconnect_loop | apply IH | emits_step].
Qed.

(** The forward plane writes datagrams, not frames. *)
Lemma typed_acquire {S} k : emits (S := S) well_typed (acquire k).
Proof.
  apply emits_call. intros s t. unfold acquire. destruct (net_acquire t k); by eexists _, _, _.
Qed.

Lemma typed_new_transport {S} : emits (S := S) well_typed new_transport.
Proof. apply emits_call. intros s t. by eexists _, _, _. Qed.

Lemma typed_forward_Dial {S} r my peer : emits (S := S) well_typed (Dial r my peer).
Proof. unfold Dial, register, Datagram. repeat first [apply typed_acquire | emits_step]. Qed.

Lemma typed_DialForward {S} g : emits (S := S) well_typed (DialForward g).
Proof.
  unfold DialForward.
  repeat first [apply typed_acquire | apply typed_new_transport | apply typed_forward_Dial | emits_step].
Qed.

Lemma typed_AcceptForward {S} g : emits (S := S) well_typed (AcceptForward g).
Proof.
  unfold AcceptForward.
  repeat first [apply typed_acquire | apply typed_new_transport | apply typed_forward_Dial | emits_step].
Qed.

Lemma typed_ForwardClose {S} f : emits (S := S) well_typed (ForwardSession_Close f).
Proof. unfold ForwardSession_Close. frames. Qed.

Lemma typed_wait_mode id ops timeout : emits well_typed (wait_mode id ops timeout).
Proof.
  apply emits_silent. intros s t. unfold wait_mode. repeat case_match; by eexists _, _.
Qed.

Lemma typed_serve r st b granted : emits well_typed (serve r st b granted).
Proof.
  unfold serve, bridge_wrapped.
  repeat first [apply typed_AcceptForward | apply typed_ForwardClose | apply typed_Close | emits_step].
Qed.

Lemma typed_handleIncoming st ops timeout : emits well_typed (handleIncoming st ops timeout).
Proof.
  unfold handleIncoming.
  repeat first [apply typed_wait_mode | apply typed_serve | apply typed_Close | apply typed_wrapStream
    | solve [auto with frames] | emits_step | apply emits_frame; cbn; eauto 10].
Qed.

(** ** Control frames, checkpoints, migration *)
Lemma typed_writeCtrl typ m : frame_typed typ m -> emits well_typed (writeCtrl typ m).
Proof. intros H. unfold writeCtrl. frames. Qed.

Lemma typed_warmupPunch id cands : emits well_typed (warmupPunch id cands).
Proof.
  unfold warmupPunch. assert (forall sock, emits well_typed (punch_loop sock cands)) as Hl.
  { intros sock. induction cands as [|c cands IH]; cbn [punch_loop]; frames. }
  repeat first [apply Hl | emits_step].
Qed.

Lemma typed_control_frame f : emits well_typed (control_frame f).
Proof.
  unfold control_frame.
  repeat first [apply typed_warmupPunch | apply typed_writeCtrl; by cbn | emits_step].
Qed.

Lemma typed_controlReader fuel : emits well_typed (controlReader fuel).
Proof.
  induction fuel as [|fuel IH]; cbn [controlReader];
    repeat first [apply typed_control_frame | apply IH | emits_step].
Qed.

Lemma typed_emitOnce : emits well_typed emitOnce.
Proof.
  unfold emitOnce. assert (forall l, emits well_typed (emit_states l)) as Hl.
  { induction l as [|st l IH]; cbn [emit_states]; [apply emits_ret|].
    apply emits_bind; [|intros []; [apply emits_ret|apply IH]].
    apply typed_writeCtrl. cbn. split_and!; auto with frames. }
  repeat first [apply Hl | emits_step].
Qed.

Lemma typed_StartResume c period ms : emits well_typed (StartResume c period ms).
Proof. unfold StartResume. frames. Qed.

Lemma typed_MigrateToDirect rs c : emits well_typed (MigrateToDirect rs c).
Proof. unfold MigrateToDirect. frames. Qed.

Lemma typed_handleDirectStream st : emits well_typed (handleDirectStream st).
Proof. unfold handleDirectStream. frames. Qed.

Lemma typed_Check {S} e locals remotes : emits (S := S) well_typed (Check e locals remotes).
Proof.
  unfold Check. generalize (Sort remotes) as l. induction l as [|c l IH]; cbn [check_loop]; frames.
Qed.

Lemma typed_Promote r eng locals port ifs ops cd : emits well_typed (Promote r eng locals port ifs ops cd).
Proof.
  unfold Promote, Promoter_Run. cbn [pr_Engine pr_SendOffer pr_RecvAnswer pr_SendMigrate pr_StreamID pr_Locals].
  assert (forall ch, emits well_typed (recv_answer ch ops cd)) as Hr.
  { intros ch. apply emits_silent. intros s t. unfold recv_answer. repeat case_match; by eexists _, _. }
  repeat first [apply typed_Check | apply Hr
    | apply typed_writeCtrl; cbn; split_and!; solve [done | auto with frames] | emits_step].
Qed.

Lemma typed_tryPromote r eng ifs ops cd : emits well_typed (tryPromote r eng ifs ops cd).
Proof.
  unfold tryPromote.
  repeat first [apply typed_Promote | apply typed_MigrateToDirect | emits_step].
Qed.

Lemma typed_consume_conn fuel local svc tls ops timeout :
  emits well_typed (consume_conn fuel local svc tls ops timeout).
Proof.
  unfold consume_conn, teardown.
  repeat first [apply typed_Session_Dial | apply typed_wait_mode | apply typed_DialForward
    | apply typed_ForwardClose | apply typed_Close | emits_step].
Qed.

Lemma typed_AcceptDirect fuel ln : emits well_typed (AcceptDirect fuel ln).
Proof. induction fuel; cbn [AcceptDirect]; repeat first [assumption | emits_step]. Qed.

Lemma typed_run_op o : emits well_typed (run_op o).
Proof.
  destruct o; cbn [run_op];
    repeat first [apply typed_Expose | apply typed_load_server | apply typed_Session_Dial | apply typed_handleIncoming
      | apply typed_Resume | apply typed_Close | apply typed_forgetStream | apply typed_Reconnect
      | apply typed_Run | apply typed_RunWithReconnect | apply typed_controlReader | apply typed_emitOnce
      | apply typed_StartResume | apply typed_MigrateToDirect | apply typed_handleDirectStream
      | apply typed_AcceptDirect | progress unfold rs_CloseWrite | emits_step].
Qed.

Lemma typed_run_ops os : emits well_typed (run_ops os).
Proof.
  induction os as [|o os IH]; cbn [run_ops]; [apply emits_ret|].
  apply emits_bind; [apply typed_run_op|done].
Qed.

(** ** Start-up *)
Lemma typed_QueryServerReflexive ctrl rand sel : emits well_typed (QueryServerReflexive ctrl rand sel).
Proof.
  unfold QueryServerReflexive, readObserved.
  apply emits_bind; [frames|intros ctr]. apply emits_bind; [frames|intros []].
  apply emits_bind; [|intros w; frames]. apply emits_frame. cbn. split; [done|].
  destruct (Z.eqb_spec (nextRequestID_Add ctr) 0) as [E|E]; [|done].
  intros [_ H]%Z.lor_eq_0_iff. done.
Qed.

Lemma typed_query_srflx mc : emits well_typed (query_srflx mc).
Proof.
  intros s t. unfold query_srflx, Session_QueryServerReflexive.
  destruct (p2pEnabled (s_p2p s)); [by apply (emits_ret well_typed)|].
  destruct (typed_QueryServerReflexive (s_ctrl s) (mc_rand mc) (mc_select mc) 0 t)
    as (r & c & ext & -> & H). by eexists _, _, ext.
Qed.

Lemma typed_steady {S A} (P : event -> Prop) (m : Eff S A) :
  steady P m -> (forall e, P e -> well_typed e) -> emits well_typed m.
Proof.
  intros Hm HP s t. destruct (Hm s t) as (a & ext & E & H). exists a, s, ext.
  split; [done|]. by eapply Forall_impl.
Qed.

Lemma typed_load_server {S} fl mc : emits (S := S) well_typed (load_server fl mc).
Proof. by eapply (typed_steady (fun _ => False)); [apply steady_load_server|]. Qed.

Lemma typed_wire ul ut fl mc h c sock : emits well_typed (wire ul ut fl mc h c sock).
Proof.
  unfold wire, provision, set_forward_tls, expose_service, listen_direct, enable_p2p, start_consumer.
  repeat first [apply typed_Expose | apply typed_acquire | apply typed_query_srflx | emits_step
    | eapply (typed_steady after_reader); [apply steady_startInterceptor|by intros []]].
Qed.

Lemma typed_happy_loop {S} d uri arrivals w first :
  emits (S := S) well_typed (happy_loop d uri arrivals w first).
Proof.
  revert w first. induction arrivals as [|a rest IH]; intros w first; cbn [happy_loop]; [apply emits_ret|].
  apply emits_bind; [apply typed_DialWithDialer|]. intros [se|e]; [destruct w|]; try apply IH.
  apply emits_bind; [|intros; apply IH]. unfold Session_Close. frames.
Qed.

Lemma typed_connect {S} sock addrs tcp order uri :
  emits (S := S) well_typed (connect sock addrs tcp order uri).
Proof.
  assert (forall d addrs arr, emits (S := S) well_typed (DialAnyHappy d addrs arr uri)) as Hd.
  { intros d [|a [|b l]] arr; unfold DialAnyHappy; [apply emits_ret|apply typed_DialWithDialer|].
    apply emits_bind; [apply typed_happy_loop|intros [[] ?]; apply emits_ret]. }
  unfold connect. apply emits_bind; [apply Hd|]. intros [se|e]; [apply emits_ret|].
  destruct tcp as [|a tcp]; [apply emits_ret|].
  apply emits_bind; [frames|intros []]. apply emits_bind; [apply Hd|]. intros [se|e']; apply emits_ret.
Qed.

Lemma typed_startup {S} ul ut ip fl mc h c order :
  emits (S := S) well_typed (startup ul ut ip fl mc h c order).
Proof.
  unfold startup. apply emits_bind.
  { intros s t. destruct (configure_run fl mc ip s t) as (r & -> & _). exists r, s, [].
    by rewrite app_nil_r. }
  intros [code|tls]; [apply emits_ret|]. apply emits_bind.
  { unfold bind_shared. repeat first [apply typed_acquire | emits_step]. }
  intros [sock|e]; [|apply emits_ret]. apply emits_bind; [apply typed_connect|].
  intros [[[se ra] sock']|e]; [|apply emits_ret]. intros s t.
  destruct (typed_wire ul ut fl mc h c sock' se t) as (r & se' & ext & -> & H). by eexists _, s, ext.
Qed.

Lemma typed_agent_main {S} ul ut ip fl mc h c fuel order :
  emits (S := S) well_typed (agent_main ul ut ip fl mc h c fuel order).
Proof.
  unfold agent_main. apply emits_bind; [apply typed_startup|]. intros [code|rn]; [apply emits_ret|].
  intros s t. destruct (typed_RunWithReconnect fuel (rn_addrs rn) (rn_session rn) t)
    as (r & se & e1 & -> & H1).
  destruct r as [e|]; [|by eexists _, s, e1].
  case_match; [by eexists _, s, e1|].
  destruct (deferred_run (rn_listener rn) (rn_interceptor rn) se (t ++ e1)) as (e2 & -> & H2).
  eexists _, s, (e1 ++ e2 ++ [EvConnClose (s_conn se)]). split; [by rewrite !app_assoc|].
  rewrite !Forall_app. split_and!; [done| |by repeat constructor].
  clear -H2. induction H2 as [|ln ev lns evs [e ->] _ IH]; by constructor.
Qed.
End Programs.

(** ** Properties *)

