(* ===== verification/Flags.v ===== *)
(** * The command line of [cmd/outrelay-agent/main.go]

    The flags [main] registers, the way [flag.Parse] of Go's [flag] package
    reads them ([flag.CommandLine] exits on an error), what [main] does with
    [--version], and [signalContext].  [process] is the whole program: from
    its arguments to its exit code. *)

From Stdlib Require Import Strings.Ascii.
From S2P Require Import Prelude Netip Orp Tls Candidate Resume StreamSwap Waiters Forward Session.
From S2P Require Import SessionInv Dialing Reconnect Incoming P2P Promote Safety Vip Dns.
From S2P Require Import Intercept Main Start.

Local Open Scope agent_scope.

(** ** The variables of [main] *)
Record options : Type := mkOptions {
  op_flags : flags;
  op_tproxyAddr : string;
  op_logFormat : string;
  op_logLevel : string;
  op_showVersion : bool
}.

(** The default values. *)
Definition defaults : options := {|
  op_flags := {|
    fl_relay := "127.0.0.1:7443"; fl_relayTCP := ""; fl_cert := ""; fl_key := ""; fl_ca := "";
    fl_serverName := "localhost"; fl_uri := ""; fl_p2pListen := ""; fl_p2pAdvertise := "";
    fl_exposeSvc := ""; fl_exposeTo := ""; fl_mode := "explicit"; fl_dnsAddr := "127.0.0.1:5353";
    fl_dnsSuffix := "outrelay"; fl_consumes := []
  |};
  op_tproxyAddr := "127.0.0.1:15001"; op_logFormat := "text"; op_logLevel := "info";
  op_showVersion := false
|}.

(** A registered flag is the variable it sets. *)
Inductive variable : Type :=
  | VRelay | VCert | VKey | VCa | VUri | VExposeSvc | VExposeTo | VMode | VTproxy | VDns | VSuffix
  | VServerName | VP2PListen | VP2PAdvertise | VRelayTCP | VLogFormat | VLogLevel | VShowVersion
  | VConsumes.

Definition formal : list (string * variable) :=
  [("relay", VRelay); ("cert", VCert); ("key", VKey); ("ca", VCa); ("uri", VUri);
   ("expose-service", VExposeSvc); ("expose-target", VExposeTo); ("intercept", VMode);
   ("tproxy-listen", VTproxy); ("dns-listen", VDns); ("dns-suffix", VSuffix);
   ("server-name", VServerName); ("p2p-listen", VP2PListen); ("p2p-advertise", VP2PAdvertise);
   ("relay-tcp", VRelayTCP); ("log-format", VLogFormat); ("log-level", VLogLevel);
   ("version", VShowVersion); ("consume", VConsumes)].

Fixpoint lookup_flag (name : string) (fs : list (string * variable)) : option variable :=
  match fs with
  | [] => None
  | (n, v) :: fs' => if String.eqb n name then Some v else lookup_flag name fs'
  end.

(** [strconv.ParseBool]. *)
Definition ParseBool (s : string) : option bool :=
  if existsb (String.eqb s) ["1"; "t"; "T"; "TRUE"; "true"; "True"] then Some true
  else if existsb (String.eqb s) ["0"; "f"; "F"; "FALSE"; "false"; "False"] then Some false
  else None.

Definition with_flags (f : flags -> flags) (o : options) : options :=
  mkOptions (f (op_flags o)) (op_tproxyAddr o) (op_logFormat o) (op_logLevel o) (op_showVersion o).

(** [Value.Set]; [None] when it returns an error. *)
Definition Value_Set (x : variable) (v : string) (o : options) : option options :=
  let '(mkFlags relay tcp cert key ca nm uri p2p adv svc tgt mode dns suf cs) := op_flags o in
  let fl f := Some (with_flags (fun _ => f) o) in
  match x with
  | VRelay => fl (mkFlags v tcp cert key ca nm uri p2p adv svc tgt mode dns suf cs)
  | VRelayTCP => fl (mkFlags relay v cert key ca nm uri p2p adv svc tgt mode dns suf cs)
  | VCert => fl (mkFlags relay tcp v key ca nm uri p2p adv svc tgt mode dns suf cs)
  | VKey => fl (mkFlags relay tcp cert v ca nm uri p2p adv svc tgt mode dns suf cs)
  | VCa => fl (mkFlags relay tcp cert key v nm uri p2p adv svc tgt mode dns suf cs)
  | VServerName => fl (mkFlags relay tcp cert key ca v uri p2p adv svc tgt mode dns suf cs)
  | VUri => fl (mkFlags relay tcp cert key ca nm v p2p adv svc tgt mode dns suf cs)
  | VP2PListen => fl (mkFlags relay tcp cert key ca nm uri v adv svc tgt mode dns suf cs)
  | VP2PAdvertise => fl (mkFlags relay tcp cert key ca nm uri p2p v svc tgt mode dns suf cs)
  | VExposeSvc => fl (mkFlags relay tcp cert key ca nm uri p2p adv v tgt mode dns suf cs)
  | VExposeTo => fl (mkFlags relay tcp cert key ca nm uri p2p adv svc v mode dns suf cs)
  | VMode => fl (mkFlags relay tcp cert key ca nm uri p2p adv svc tgt v dns suf cs)
  | VDns => fl (mkFlags relay tcp cert key ca nm uri p2p adv svc tgt mode v suf cs)
  | VSuffix => fl (mkFlags relay tcp cert key ca nm uri p2p adv svc tgt mode dns v cs)
  | VConsumes =>
      fl (mkFlags relay tcp cert key ca nm uri p2p adv svc tgt mode dns suf (consumeFlag_Set cs v))
  | VTproxy => Some (mkOptions (op_flags o) v (op_logFormat o) (op_logLevel o) (op_showVersion o))
  | VLogFormat => Some (mkOptions (op_flags o) (op_tproxyAddr o) v (op_logLevel o) (op_showVersion o))
  | VLogLevel => Some (mkOptions (op_flags o) (op_tproxyAddr o) (op_logFormat o) v (op_showVersion o))
  | VShowVersion =>
      match ParseBool v with
      | Some b => Some (mkOptions (op_flags o) (op_tproxyAddr o) (op_logFormat o) (op_logLevel o) b)
      | None => None
      end
  end.

(** Only a boolean flag stands without a value. *)
Definition IsBoolFlag (x : variable) : bool :=
  match x with VShowVersion => true | _ => false end.

(** ** [flag.Parse] *)

(** What [parseOne] sees in an argument. *)
Inductive argument : Type :=
  | NotAFlag
  | Terminator                                        (* "--" *)
  | BadSyntax
  | FlagArg (name : string) (value : option string).

(** Cut at the first [=] that is not the first character. *)
Fixpoint cut_eq (l : list ascii) : list ascii * option (list ascii) :=
  match l with
  | [] => ([], None)
  | c :: l' =>
      if bool_decide (c = "="%char) then ([], Some l')
      else let '(a, b) := cut_eq l' in (c :: a, b)
  end.

Definition flag_name (name : list ascii) : argument :=
  match name with
  | [] => BadSyntax
  | c :: l =>
      if bool_decide (c = "-"%char) || bool_decide (c = "="%char) then BadSyntax
      else let '(a, b) := cut_eq l in FlagArg (of_chars (c :: a)) (of_chars <$> b)
  end.

Definition classify (s : string) : argument :=
  match chars s with
  | a :: b :: l =>
      if bool_decide (a = "-"%char) then
        if bool_decide (b = "-"%char) then
          match l with [] => Terminator | _ => flag_name l end
        else flag_name (b :: l)
      else NotAFlag
  | _ => NotAFlag
  end.

(** The variables and the remaining arguments, or the exit code. *)
Inductive parsed : Type :=
  | Parsed (o : options) (args : list string)
  | Exited (code : Z).

Definition undefined_flag (name : string) : parsed :=
  if String.eqb name "help" || String.eqb name "h" then Exited 0 else Exited 2.

Fixpoint Parse (args : list string) (o : options) : parsed :=
  match args with
  | [] => Parsed o []
  | s :: rest =>
      match classify s with
      | NotAFlag => Parsed o args
      | Terminator => Parsed o rest
      | BadSyntax => Exited 2
      | FlagArg name value =>
          match lookup_flag name formal with
          | None => undefined_flag name
          | Some x =>
              if IsBoolFlag x then
                match Value_Set x (default "true" value) o with
                | Some o' => Parse rest o'
                | None => Exited 2
                end
              else
                match value with
                | Some v =>
                    match Value_Set x v o with Some o' => Parse rest o' | None => Exited 2 end
                | None =>
                    match rest with
                    | [] => Exited 2                  (* flag needs an argument *)
                    | v :: rest' =>
                        match Value_Set x v o with Some o' => Parse rest' o' | None => Exited 2 end
                    end
                end
          end
      end
  end.

(** ** The process *)
Section Process.
Context `{N : Net} `{L : ResumeLib} (unicode_lower unicode_trim : string -> string).
Context (identity_Parse : string -> option error) (mc : machine) (backend_handler ctx : nat).

(** Stamped at link time. *)
Context (Version : string).

(** What is printed and the exit code. *)
Definition process {S} (args : list string) (fuel : nat) (order : list string -> list string)
    : Eff S (option string * option Z) :=
  match Parse args defaults with
  | Exited code => mret (None, Some code)
  | Parsed o _ =>
      if op_showVersion o then mret (Some Version, Some 0)
      else
        do code <- agent_main unicode_lower unicode_trim identity_Parse (op_flags o) mc backend_handler
                     ctx fuel order ;;
        mret (None, code)
  end.
End Process.

(** ** [signalContext] *)
Inductive signal : Type := SIGINT | SIGTERM | SIGHUP.

(** The channel of capacity one, the goroutine that waits on it, the
    context. *)
Record sigctx : Type := mkSigctx {
  sg_chan : list signal;
  sg_waiting : bool;
  sg_done : bool
}.

Definition signalContext : sigctx := mkSigctx [] true false.

(** The signals asked for with [signal.Notify]. *)
Definition notified (s : signal) : bool :=
  match s with SIGINT | SIGTERM => true | SIGHUP => false end.

(** The runtime does not block on the channel. *)
Definition deliver (s : signal) (c : sigctx) : sigctx :=
  if notified s then
    match sg_chan c with
    | [] => mkSigctx [s] (sg_waiting c) (sg_done c)
    | _ => c
    end
  else c.

(** The goroutine receives and cancels, once. *)
Definition wait_signal (c : sigctx) : option sigctx :=
  if sg_waiting c then
    match sg_chan c with
    | _ :: rest => Some (mkSigctx rest false true)
    | [] => None
    end
  else None.

Definition cancel (c : sigctx) : sigctx := mkSigctx (sg_chan c) (sg_waiting c) true.

(** What may happen, in any order; the goroutine may be scheduled while it is
    blocked. *)
Inductive sig_event : Type := Deliver (s : signal) | Wait | Cancel.

Definition sig_apply (e : sig_event) (c : sigctx) : sigctx :=
  match e with
  | Deliver s => deliver s c
  | Wait => default c (wait_signal c)
  | Cancel => cancel c
  end.

Fixpoint sig_run (es : list sig_event) (c : sigctx) : sigctx :=
  match es with
  | [] => c
  | e :: es' => sig_run es' (sig_apply e c)
  end.

(** ** The grammar of a command line *)

(** [reads args as rest]: the arguments assign [as] and leave [rest]. *)
Inductive reads : list string -> list (variable * string) -> list string -> Prop :=
  | reads_end : reads [] [] []
  | reads_operand s rest : classify s = NotAFlag -> reads (s :: rest) [] (s :: rest)
  | reads_terminator s rest : classify s = Terminator -> reads (s :: rest) [] rest
  | reads_value s name x v args l rest :
      classify s = FlagArg name (Some v) -> lookup_flag name formal = Some x ->
      reads args l rest -> reads (s :: args) ((x, v) :: l) rest
  | reads_next s name x v args l rest :
      classify s = FlagArg name None -> lookup_flag name formal = Some x -> IsBoolFlag x = false ->
      reads args l rest -> reads (s :: v :: args) ((x, v) :: l) rest
  | reads_bool s name x args l rest :
      classify s = FlagArg name None -> lookup_flag name formal = Some x -> IsBoolFlag x = true ->
      reads args l rest -> reads (s :: args) ((x, "true"%string) :: l) rest.

(** The assignments in order; the last one of a variable wins and [consume]
    collects. *)
Fixpoint assigns (l : list (variable * string)) (o : options) : option options :=
  match l with
  | [] => Some o
  | (x, v) :: l' => o' ← Value_Set x v o; assigns l' o'
  end.

Lemma Parse_sound n args o o' rest :
  (length args <= n)%nat -> Parse args o = Parsed o' rest ->
  exists l, reads args l rest /\ assigns l o = Some o'.
Proof.
  revert args o. induction n as [|n IH]; intros args o Hn.
  { destruct args; [|cbn in Hn; lia]. intros [= <- <-]. by exists []; split; [constructor|]. }
  destruct args as [|s args]; cbn [Parse length] in *.
  { intros [= <- <-]. by exists []; split; [constructor|]. }
  destruct (classify s) as [| | |name value] eqn:Hc; [|..|].
  - intros [= <- <-]. exists []. split; [by constructor|done].
  - intros [= <- <-]. exists []. split; [by constructor|done].
  - done.
  - destruct (lookup_flag name formal) as [x|] eqn:Hx; [|unfold undefined_flag; by destruct (_ || _)].
    assert (forall v args' o1, (length args' <= n)%nat -> Value_Set x v o = Some o1 ->
      Parse args' o1 = Parsed o' rest ->
      exists l, reads args' l rest /\ assigns ((x, v) :: l) o = Some o') as Hgo.
    { intros v args' o1 Hl Hv Hp. destruct (IH args' o1 Hl Hp) as (l & Hr & Ha). exists l.
      split; [done|]. cbn. by rewrite Hv. }
    destruct (IsBoolFlag x) eqn:Hb.
    + destruct (Value_Set x (default "true" value) o) as [o1|] eqn:Hv; [|done]. intros Hp.
      destruct (Hgo (default "true"%string value) args o1) as (l & Hr & Ha);
        [lia|done..|]. eexists. split; [|exact Ha].
      destruct value; by econstructor.
    + destruct value as [v|]; [|destruct args as [|v args]; [done|]];
        (destruct (Value_Set x v o) as [o1|] eqn:Hv; [|done]); intros Hp; cbn in Hn;
        (destruct (Hgo v args o1) as (l & Hr & Ha); [lia|done..|]); eexists; (split; [|exact Ha]);
        by econstructor.
Qed.

Lemma Parse_complete args l o o' rest :
  reads args l rest -> assigns l o = Some o' -> Parse args o = Parsed o' rest.
Proof.
  intros Hr. revert o. induction Hr as [|s r Hc|s r Hc|s n x v a l r Hc Hx Hr IH
    |s n x v a l r Hc Hx Hb Hr IH|s n x a l r Hc Hx Hb Hr IH]; intros o Ha; cbn [Parse].
  - by simplify_eq/=.
  - rewrite Hc. by simplify_eq/=.
  - rewrite Hc. by simplify_eq/=.
  - rewrite Hc, Hx. cbn in *. destruct (Value_Set x v o) as [o1|]; [|done]. cbn in Ha.
    destruct (IsBoolFlag x); by apply IH.
  - rewrite Hc, Hx, Hb. cbn in Ha. destruct (Value_Set x v o) as [o1|]; [|done]. by apply IH.
  - rewrite Hc, Hx, Hb. cbn in *. destruct (Value_Set x "true" o) as [o1|]; [|done]. by apply IH.
Qed.

Lemma Parse_exit_code args o code : Parse args o = Exited code -> code = 0 \/ code = 2.
Proof.
  assert (forall n args o, (length args <= n)%nat -> Parse args o = Exited code -> code = 0 \/ code = 2)
    as H; [|by eauto].
  clear. induction n as [|n IH]; intros args o Hn; (destruct args as [|s args]; [done|]);
    cbn [length] in Hn; [lia|]. cbn [Parse].
  destruct (classify s) as [| | |name value]; try done; [intros [= <-]; auto|].
  destruct (lookup_flag name formal) as [x|].
  2: { unfold undefined_flag. destruct (_ || _); intros [= <-]; auto. }
  assert (forall v args', (length args' <= n)%nat ->
    match Value_Set x v o with Some o' => Parse args' o' | None => Exited 2 end = Exited code ->
    code = 0 \/ code = 2) as Hgo.
  { intros v args' Hl. destruct (Value_Set x v o); [by apply IH|]. intros [= <-]. auto. }
  destruct (IsBoolFlag x); [apply Hgo; lia|]. destruct value as [v|]; [apply Hgo; lia|].
  destruct args as [|v args]; [intros [= <-]; auto|]. apply Hgo. cbn in Hn. lia.
Qed.

(** ** Rendering *)
Definition render_flag (name value : string) : string := "--" +:+ name +:+ "=" +:+ value.

Definition render_bool (b : bool) : string := if b then "true" else "false".

(** A command line that sets every flag. *)
Definition render (o : options) : list string :=
  let f := op_flags o in
  [render_flag "relay" (fl_relay f); render_flag "cert" (fl_cert f); render_flag "key" (fl_key f);
   render_flag "ca" (fl_ca f); render_flag "uri" (fl_uri f);
   render_flag "expose-service" (fl_exposeSvc f); render_flag "expose-target" (fl_exposeTo f);
   render_flag "intercept" (fl_mode f); render_flag "tproxy-listen" (op_tproxyAddr o);
   render_flag "dns-listen" (fl_dnsAddr f); render_flag "dns-suffix" (fl_dnsSuffix f);
   render_flag "server-name" (fl_serverName f); render_flag "p2p-listen" (fl_p2pListen f);
   render_flag "p2p-advertise" (fl_p2pAdvertise f); render_flag "relay-tcp" (fl_relayTCP f);
   render_flag "log-format" (op_logFormat o); render_flag "log-level" (op_logLevel o);
   render_flag "version" (render_bool (op_showVersion o))] ++
  map (render_flag "consume") (fl_consumes f).

Lemma cut_eq_app a v : "="%char ∉ a -> cut_eq (a ++ "="%char :: v) = (a, Some v).
Proof.
  induction a as [|c a IH]; intros Ha; cbn; [done|]. rewrite not_elem_of_cons in Ha.
  destruct Ha as [Hc Ha]. rewrite bool_decide_eq_false_2 by congruence. by rewrite IH.
Qed.

(** The names [flag.Parse] can read back. *)
Definition plain_name (name : string) : bool :=
  match chars name with
  | [] => false
  | c :: l => negb (bool_decide (c = "-"%char)) && negb (bool_decide ("="%char ∈ c :: l))
  end.

Lemma classify_render name v :
  plain_name name = true -> classify (render_flag name v) = FlagArg name (Some v).
Proof.
  intros Hp. unfold plain_name in Hp. unfold classify, render_flag.
  change (chars ("--" +:+ name +:+ "=" +:+ v)) with ("-"%char :: "-"%char :: chars (name +:+ "=" +:+ v)).
  cbn. rewrite chars_app. change (chars ("=" +:+ v)) with ("="%char :: chars v).
  destruct (chars name) as [|c l] eqn:Hn; [done|]. apply andb_prop in Hp as [H1 H2].
  apply negb_true_iff, bool_decide_eq_false in H1, H2. rewrite not_elem_of_cons in H2.
  destruct H2 as [H2 H3]. cbn -[of_chars].
  rewrite (bool_decide_eq_true_2 ("-"%char = "-"%char)) by done.
  rewrite (bool_decide_eq_false_2 (c = "-"%char)), (bool_decide_eq_false_2 (c = "="%char)) by congruence.
  cbn [orb]. rewrite cut_eq_app by done. cbn -[of_chars]. by rewrite <- Hn, !of_chars_chars.
Qed.

Lemma formal_plain name x : lookup_flag name formal = Some x -> plain_name name = true.
Proof.
  assert (forall fs, forallb (fun p => plain_name (fst p)) fs = true ->
    lookup_flag name fs = Some x -> plain_name name = true) as H; [|by apply (H formal); vm_compute].
  induction fs as [|[n y] fs IH]; cbn; [done|]. intros [Hn Hfs]%andb_prop.
  destruct (String.eqb_spec n name) as [->|]; [done|by apply IH].
Qed.

(** One rendered flag assigns its variable. *)
Lemma Parse_render_flag name x v o o' args :
  lookup_flag name formal = Some x -> Value_Set x v o = Some o' ->
  Parse (render_flag name v :: args) o = Parse args o'.
Proof.
  intros Hx Hv. cbn [Parse]. rewrite classify_render by by eapply formal_plain. rewrite Hx. cbn.
  rewrite Hv. by destruct (IsBoolFlag x).
Qed.

Definition add_consumes (cs : list string) : options -> options :=
  with_flags (fun f => mkFlags (fl_relay f) (fl_relayTCP f) (fl_cert f) (fl_key f) (fl_ca f)
    (fl_serverName f) (fl_uri f) (fl_p2pListen f) (fl_p2pAdvertise f) (fl_exposeSvc f) (fl_exposeTo f)
    (fl_mode f) (fl_dnsAddr f) (fl_dnsSuffix f) (fl_consumes f ++ cs)).

Lemma Parse_consumes cs o args :
  Parse (map (render_flag "consume") cs ++ args) o = Parse args (add_consumes cs o).
Proof.
  revert o. induction cs as [|c cs IH]; intros o; cbn [map app].
  - destruct o as [[] ? ? ? ?]. unfold add_consumes, with_flags. cbn. by rewrite app_nil_r.
  - rewrite (Parse_render_flag "consume" VConsumes c o (add_consumes [c] o));
      [|done|by destruct o as [[] ? ? ? ?]]. rewrite IH.
    destruct o as [[] ? ? ? ?]. unfold add_consumes, with_flags. cbn. by rewrite <- app_assoc.
Qed.

(** ** Signals *)
Lemma sig_run_app es1 es2 c : sig_run (es1 ++ es2) c = sig_run es2 (sig_run es1 c).
Proof. revert c. induction es1 as [|e es1 IH]; intros c; cbn; [done|apply IH]. Qed.

(** The goroutine has cancelled, or it still waits; a signal is pending until
    it is received. *)
Definition pending (c : sigctx) : Prop := sg_done c = true \/ (sg_waiting c = true /\ sg_chan c <> []).

Lemma pending_run es c : pending c -> pending (sig_run es c).
Proof.
  revert c. induction es as [|e es IH]; intros c Hc; cbn; [done|]. apply IH.
  destruct c as [ch w d], e as [s| |]; cbn; unfold deliver, pending in *; cbn in *;
    [destruct (notified s)|..]; destruct ch, w; cbn; intuition congruence.
Qed.

Lemma waiting_or_done es c :
  sg_done c = true \/ sg_waiting c = true -> sg_done (sig_run es c) = true \/ sg_waiting (sig_run es c) = true.
Proof.
  revert c. induction es as [|e es IH]; intros c Hc; cbn; [done|]. apply IH.
  destruct c as [ch w d], e as [s| |]; cbn in *; unfold deliver; cbn;
    [destruct (notified s)|..]; destruct ch, w; cbn; intuition congruence.
Qed.

Lemma quiet_run es c :
  Forall (fun e => match e with Deliver s => notified s = false | Wait => True | Cancel => False end) es ->
  sg_chan c = [] -> sg_done (sig_run es c) = sg_done c.
Proof.
  intros Hes. revert c. induction Hes as [|e es He _ IH]; intros c Hc; cbn; [done|].
  assert (sig_apply e c = c) as ->; [|by apply IH]. destruct e as [s| |]; cbn; [| |done].
  - unfold deliver. by rewrite He.
  - unfold wait_signal. rewrite Hc. by destruct (sg_waiting c).
Qed.

(** What [main] does once the flags are parsed. *)
Lemma agent_main_codes `{N : Net} `{Sp : ResumeSpec} {S} ul ut ip fl mc h ctx order fuel (s : S) t :
  let '(r, (_, t')) := agent_main ul ut ip fl mc h ctx fuel order (s, t) in
  (forall code, r = Some code -> code = 0 \/ code = 1 \/ code = 2) /\
  (t' <> t -> missing_flags fl = false /\ ip (fl_uri fl) = None).
Proof.
  destruct (configure_run fl mc ip s t) as (rc & Ec & _ & _ & Hc).
  pose proof (startup_run ul ut ip fl mc h ctx order s t) as Hx.
  assert (forall code, rc = inl code -> startup ul ut ip fl mc h ctx order (s, t) = (inl code, (s, t))) as Hs.
  { intros code ->. unfold startup, mbind at 1. by rewrite Ec. }
  unfold agent_main, mbind.
  destruct (startup ul ut ip fl mc h ctx order (s, t)) as [r0 [s1 t1]]. destruct Hx as (-> & ext & _ & Hx).
  assert (t1 <> t \/ (exists rn, r0 = inr rn) -> missing_flags fl = false /\ ip (fl_uri fl) = None) as Hq.
  { intros Ht. destruct rc as [code|c]; [|by apply (Hc c)].
    specialize (Hs code eq_refl). simplify_eq. by destruct Ht as [?|[? ?]]. }
  destruct r0 as [code|rn].
  { cbn. split; [intros ? [= <-]; auto|]. auto. }
  assert (missing_flags fl = false /\ ip (fl_uri fl) = None) as Hok by eauto.
  destruct (RunWithReconnect _ _ _) as [[e|] [se t2]]; [|done].
  destruct (match e with Some e => _ | None => _ end).
  - split; [intros ? [= <-]; auto|done].
  - destruct (deferred _ _ _) as [u [se' t3]]. split; [intros ? [= <-]; auto|done].
Qed.

(** ** Properties *)

(** C36. Round trip of the command line: the arguments that name every flag
    with its value, whatever bytes the values hold, are parsed back to
    exactly the variables they were made from, the repeated [--consume]
    entries in order, and nothing is left over. *)
Theorem flags_roundtrip o : Parse (render o) defaults = Parsed o [].
Proof.
  destruct o as [[r tc ce k ca nm ur pl pa es et mo da ds cs] tp lf ll b]. unfold render. cbn [app op_flags op_tproxyAddr op_logFormat op_logLevel
    op_showVersion fl_relay fl_relayTCP fl_cert fl_key fl_ca fl_serverName fl_uri fl_p2pListen
    fl_p2pAdvertise fl_exposeSvc fl_exposeTo fl_mode fl_dnsAddr fl_dnsSuffix fl_consumes].
  destruct b; do 18 (erewrite Parse_render_flag; [|reflexivity|reflexivity]);
    by rewrite <- (app_nil_r (map _ _)), Parse_consumes.
Qed.

(** [flag.Parse] is the grammar of Go's flags: the arguments are accepted
    with these variables and this rest exactly when they read as a list of
    assignments (a value after [=] or in the next argument, a boolean flag
    alone, up to [--] or the first operand) that can all be performed; any
    other command line exits, with code 0 for help and 2 for an error. *)
Theorem Parse_is_grammar args o :
  (forall o' rest, Parse args o = Parsed o' rest <->
     exists l, reads args l rest /\ assigns l o = Some o') /\
  (forall code, Parse args o = Exited code -> code = 0 \/ code = 2).
Proof.
  split; [|intros code; apply Parse_exit_code]. intros o' rest. split.
  - by apply (Parse_sound (length args)).
  - intros (l & Hr & Ha). by eapply Parse_complete.
Qed.

(** The program touches nothing before its command line is in order: its
    exit code is 0, 1 or 2, help and a broken command line and [--version]
    end it without a single call, and if any call is made at all then the
    arguments parse, all four required flags are set and the agent's URI is
    valid. *)
Theorem process_calls_nothing_unconfigured `{N : Net} `{Sp : ResumeSpec} {S} ul ut ip mc h ctx V
    args fuel order (s : S) t :
  let '((out, r), (_, t')) := process ul ut ip mc h ctx V args fuel order (s, t) in
  (forall code, r = Some code -> code = 0 \/ code = 1 \/ code = 2) /\
  (out <> None -> out = Some V /\ r = Some 0 /\ t' = t) /\
  (t' <> t -> exists o rest, Parse args defaults = Parsed o rest /\ op_showVersion o = false /\
     missing_flags (op_flags o) = false /\ ip (fl_uri (op_flags o)) = None).
Proof.
  unfold process. destruct (Parse args defaults) as [o rest|code] eqn:Hp.
  2: { cbn. split_and!; try done. intros ? [= <-]. destruct (Parse_exit_code _ _ _ Hp); auto. }
  destruct (op_showVersion o) eqn:Hv.
  { cbn. split_and!; try done. intros ? [= <-]. auto. }
  unfold mbind. pose proof (agent_main_codes ul ut ip (op_flags o) mc h ctx order fuel s t) as H.
  destruct (agent_main _ _ _ _ _ _ _ _ _ _) as [r [s1 t1]]. destruct H as [Hc Hq]. cbn in *. split_and!; try done.
  intros Ht. exists o, rest. split; [done|]. split; [done|]. by apply Hq.
Qed.


(** Interrupts: SIGINT or SIGTERM cancels the context as soon as the
    waiting goroutine runs, whatever came before or comes after, even when the
    channel was full; and without one of the two signals or a call of cancel
    the context is never done. *)
Theorem signal_cancels es es' s :
  (notified s = true -> sg_done (sig_run (es ++ Deliver s :: es' ++ [Wait]) signalContext) = true) /\
  (Forall (fun e => match e with Deliver s => notified s = false | Wait => True | Cancel => False end) es ->
   sg_done (sig_run es signalContext) = false).
Proof.
  split; [|intros Hes; by rewrite quiet_run]. intros Hs. rewrite sig_run_app. cbn. rewrite sig_run_app.
  set (c := sig_run es signalContext).
  assert (sg_done c = true \/ sg_waiting c = true) as Hw by (apply waiting_or_done; by right).
  assert (pending (deliver s c)) as Hp.
  { unfold deliver, pending. rewrite Hs. destruct c as [[|x ch] w d]; cbn in *; intuition congruence. }
  apply (pending_run es') in Hp. destruct (sig_run es' (deliver s c)) as [ch w d].
  unfold pending in Hp. cbn in *. destruct ch, w; cbn; intuition congruence.
Qed.
