(* ===== verification/Consumer.v ===== *)
(** * [runConsumer] over any interceptor

    The interface of [pkg/intercept/intercept.go] as a type class, with what
    its implementations promise, the two interceptors as its instances, and
    the consumer of [main] against the interface: the loop on [Accept], the
    goroutine of each connection, and what becomes of every connection an
    application makes. *)

From stdpp Require Import relations.
From S2P Require Import Prelude Netip Orp Vip Intercept Tproxy.

(** ** The interface *)

(** [Accept] and [Close] of an interceptor of type [I], what its own
    goroutines do, and the connections it took, gave away, closed and holds. *)
Class Interceptor (I : Type) : Type := {
  ic_Accept : I -> outcome -> I -> Prop;
  ic_Close : I -> I;
  ic_loops : I -> I -> Prop;
  ic_accepted : I -> list nat;
  ic_delivered : I -> list (nat * string);
  ic_dropped : I -> list nat;
  ic_held : I -> list nat;
  ic_closed : I -> bool
}.

Class InterceptorSpec (I : Type) `{IC : Interceptor I} : Type := {
  ics_wf : I -> Prop;
  ics_named : nat -> string -> Prop;   (* a service the connection may be for *)
  ics_Accept_wf i o i' : ics_wf i -> ic_Accept i o i' -> ics_wf i';
  ics_Accept i o i' : ics_wf i -> ic_Accept i o i' ->
    ic_delivered i' = ic_delivered i ++ match o with Got c svc => [(c, svc)] | Failed _ => [] end;
  ics_Close i : ics_wf i ->
    ics_wf (ic_Close i) /\ ic_closed (ic_Close i) = true /\ ic_delivered (ic_Close i) = ic_delivered i;
  ics_loops i i' : ics_wf i -> ic_loops i i' -> ics_wf i' /\ ic_delivered i' = ic_delivered i;
  ics_conserve i : ics_wf i ->
    ic_accepted i ≡ₚ map fst (ic_delivered i) ++ ic_dropped i ++ ic_held i /\
    forall c svc, (c, svc) ∈ ic_delivered i -> ics_named c svc;
  ics_drain i : ics_wf i -> ic_closed i = true ->
    exists i', rtc ic_loops i i' /\ ic_held i' = []
}.

(** ** The instances *)
Section Machine.
Context (target : nat -> nat -> option string) (surface : bool).

(** A step of an accept loop. *)
Inductive loop_step : istate -> istate -> Prop :=
  | ls_accept s i c : i_loops s !! i = Some Idle -> loop_step s (loop_accept target i c s)
  | ls_fail s i e : i_loops s !! i = Some Idle -> loop_step s (loop_fail surface i e s)
  | ls_drop s i c svc :
      i_loops s !! i = Some (Sending c svc) -> i_closed s = true -> loop_step s (loop_drop i c s).

Definition machine_ic : Interceptor istate := {|
  ic_Accept := accept_result;
  ic_Close := Close;
  ic_loops := loop_step;
  ic_accepted := i_accepted;
  ic_delivered := i_delivered;
  ic_dropped := i_dropped;
  ic_held := pending;
  ic_closed := i_closed
|}.

Lemma loop_step_istep s s' : loop_step s s' -> istep target surface s s'.
Proof. intros []; by econstructor. Qed.

Lemma loop_step_delivered s s' : loop_step s s' -> i_delivered s' = i_delivered s.
Proof.
  intros [s0 i c Hi|s0 i e Hi|s0 i c svc Hi Hc]; [| |done].
  - unfold loop_accept. by destruct (target i c).
  - unfold loop_fail. by destruct (i_closed s0 || negb surface).
Qed.

(** The loops stop one after the other. *)
Lemma loops_drain k s :
  i_closed s = true -> (length (i_loops s) <= k)%nat ->
  exists s', rtc loop_step s s' /\ pending s' = [].
Proof.
  intros Hc Hk. remember (length (pending s)) as n eqn:En. revert s Hc Hk En.
  induction n as [|n IH]; intros s Hc Hk En.
  { exists s. split; [done|]. by apply nil_length_inv. }
  assert (exists i c svc, i_loops s !! i = Some (Sending c svc)) as (i & c & svc & Hi).
  { unfold pending in En. clear -En. induction (i_loops s) as [|l ls IHl]; [done|]. cbn in En.
    destruct l as [|c svc|]; cbn in En.
    - destruct (IHl En) as (i & c & svc & Hi). by exists (S i), c, svc.
    - by exists 0%nat, c, svc.
    - destruct (IHl En) as (i & c & svc & Hi). by exists (S i), c, svc. }
  pose proof (omap_insert_perm (i_loops s) i (Sending c svc) Stopped Hi) as Hp.
  apply Permutation_length in Hp. cbn in Hp. unfold pending in En.
  destruct (IH (loop_drop i c s)) as (s' & Hr & Hs'); [done|cbn; by rewrite length_insert| |].
  { unfold pending. cbn. lia. }
  exists s'. split; [|done]. eapply rtc_l; [|exact Hr]. by eapply ls_drop.
Qed.

Definition machine_spec : @InterceptorSpec istate machine_ic.
Proof.
  refine (@Build_InterceptorSpec istate machine_ic (conserved target)
            (fun c svc => exists i, target i c = Some svc) _ _ _ _ _ _); cbn.
  - intros i o i' Hw Ha. eapply (step_conserved target surface), is_call; eassumption.
  - intros i o i' _ []; cbn; by rewrite ?app_nil_r.
  - intros i Hw. split_and!; [|done..]. apply (step_conserved target surface i); [done|apply is_close].
  - intros i i' Hw Hl. split; [|by apply loop_step_delivered].
    eapply (step_conserved target surface); [done|]. by apply loop_step_istep.
  - intros i Hw. split; [apply Hw|]. intros c svc. apply (cv_delivered target i Hw).
  - intros i _ Hc. by apply (loops_drain (length (i_loops i))).
Defined.
End Machine.

(** Listener [i] of the explicit interceptor serves mapping [i]. *)
Definition explicit_ic (ms : list ExplicitMapping) : Interceptor istate :=
  machine_ic (fun i _ => TargetSvc <$> ms !! i) true.

Definition tproxy_ic (alloc : VIPAllocator) (conns : nat -> kconn) : Interceptor istate :=
  machine_ic (fun _ c => kconn_target alloc (conns c)) false.

#[export] Instance explicit_spec ms : @InterceptorSpec istate (explicit_ic ms) :=
  machine_spec (fun i _ => TargetSvc <$> ms !! i) true.

#[export] Instance tproxy_spec alloc conns : @InterceptorSpec istate (tproxy_ic alloc conns) :=
  machine_spec (fun _ c => kconn_target alloc (conns c)) false.

(** ** The consumer *)
Section Consumer.
Context {I : Type} `{IC : Interceptor I}.

(** The interceptor, the goroutines of [runConsumer] that still serve their
    connection, the connections whose goroutine has closed them, and how the
    loop ended. *)
Record consumer : Type := mkConsumer {
  co_ic : I;
  co_running : list (nat * string);
  co_done : list nat;
  co_returned : option error
}.

Definition consume (i : I) : consumer := mkConsumer i [] [] None.

Inductive consumer_step : consumer -> consumer -> Prop :=
  | co_loops i i' run dn ret :
      ic_loops i i' -> consumer_step (mkConsumer i run dn ret) (mkConsumer i' run dn ret)
  | co_close i run dn ret :
      consumer_step (mkConsumer i run dn ret) (mkConsumer (ic_Close i) run dn ret)
  | co_accept i c svc i' run dn :
      ic_Accept i (Got c svc) i' ->
      consumer_step (mkConsumer i run dn None) (mkConsumer i' (run ++ [(c, svc)]) dn None)
  | co_return i e i' run dn :
      ic_Accept i (Failed e) i' ->
      consumer_step (mkConsumer i run dn None) (mkConsumer i' run dn (Some e))
  | co_finish i k c svc run dn ret :
      run !! k = Some (c, svc) ->
      consumer_step (mkConsumer i run dn ret) (mkConsumer i (delete k run) (dn ++ [c]) ret).

Context `{!InterceptorSpec I}.

(** What the interceptor gave away is being served or was closed. *)
Definition co_inv (s : consumer) : Prop :=
  ics_wf (co_ic s) /\ map fst (ic_delivered (co_ic s)) ≡ₚ map fst (co_running s) ++ co_done s /\
  (forall x, x ∈ co_running s -> x ∈ ic_delivered (co_ic s)).

Lemma map_delete_perm (run : list (nat * string)) k c svc :
  run !! k = Some (c, svc) -> map fst run ≡ₚ c :: map fst (delete k run).
Proof.
  revert k. induction run as [|[c' svc'] run IH]; intros [|k] Hk; cbn in *; simplify_eq; [done|].
  rewrite (IH k Hk). by constructor.
Qed.

Lemma co_step_inv s s' : co_inv s -> consumer_step s s' -> co_inv s'.
Proof.
  intros (Hw & Hp & Hr) Hs. destruct Hs as [i i' run dn ret Hl|i run dn ret|i c svc i' run dn Ha
    |i e i' run dn Ha|i k c svc run dn ret Hk]; cbn in *.
  - destruct (ics_loops i i' Hw Hl) as [Hw' E]. rewrite <- E in Hp, Hr. done.
  - destruct (ics_Close i Hw) as (Hw' & _ & E). rewrite <- E in Hp, Hr. done.
  - pose proof (ics_Accept i _ i' Hw Ha) as E. split_and!; cbn; [by eapply ics_Accept_wf| |].
    + rewrite E, !map_app, Hp. cbn. rewrite <- !app_assoc. by rewrite (Permutation_app_comm dn).
    + intros x [Hx|Hx]%elem_of_app; rewrite E, elem_of_app; auto.
  - pose proof (ics_Accept i _ i' Hw Ha) as E. rewrite app_nil_r in E. rewrite <- E in Hp, Hr.
    split_and!; cbn; [by eapply ics_Accept_wf|done..].
  - split_and!; cbn; [done| |].
    + rewrite Hp, (map_delete_perm _ _ _ _ Hk). cbn. rewrite app_assoc. by rewrite Permutation_cons_append.
    + intros x Hx. apply Hr. by eapply list_subseteq_delete.
Qed.

Lemma co_reachable i s : ics_wf i -> ic_delivered i = [] -> rtc consumer_step (consume i) s -> co_inv s.
Proof.
  intros Hw Hd. assert (co_inv (consume i)) as H0.
  { split_and!; cbn; [done|by rewrite Hd|]. by intros x ?%elem_of_nil. }
  intros Hr. generalize dependent (consume i). intros s0 H0 Hr. induction Hr; eauto using co_step_inv.
Qed.

(** The goroutines end, one after the other. *)
Lemma finish_all i run dn ret :
  rtc consumer_step (mkConsumer i run dn ret) (mkConsumer i [] (dn ++ map fst run) ret).
Proof.
  revert dn. induction run as [|[c svc] run IH]; intros dn; cbn; [by rewrite app_nil_r|].
  eapply rtc_l; [by apply (co_finish i 0 c svc)|]. cbn.
  replace (dn ++ c :: map fst run) with ((dn ++ [c]) ++ map fst run) by by rewrite <- app_assoc.
  apply IH.
Qed.

Lemma loops_lift i i' run dn ret :
  rtc ic_loops i i' -> rtc consumer_step (mkConsumer i run dn ret) (mkConsumer i' run dn ret).
Proof. intros H. induction H; [done|]. eapply rtc_l; [by apply co_loops|done]. Qed.

Lemma co_conserved s :
  co_inv s ->
  ic_accepted (co_ic s) ≡ₚ
    map fst (co_running s) ++ co_done s ++ ic_dropped (co_ic s) ++ ic_held (co_ic s) /\
  (forall c svc, (c, svc) ∈ co_running s -> ics_named c svc).
Proof.
  intros (Hw & Hp & Hr). destruct (ics_conserve (co_ic s) Hw) as [Hc Hn]. split; [|eauto].
  by rewrite Hc, Hp, <- app_assoc.
Qed.

(** After [Close] everything can be brought to its end. *)
Lemma co_drains s :
  co_inv s -> ic_closed (co_ic s) = true ->
  exists s', rtc consumer_step s s' /\ co_running s' = [] /\
    ic_accepted (co_ic s') ≡ₚ co_done s' ++ ic_dropped (co_ic s').
Proof.
  intros Hi Hc. destruct s as [i run dn ret]. destruct (ics_drain i (proj1 Hi) Hc) as (i' & Hl & Hh).
  assert (rtc consumer_step (mkConsumer i run dn ret) (mkConsumer i' [] (dn ++ map fst run) ret)) as Hr.
  { etrans; [by apply loops_lift|apply finish_all]. }
  eexists. split; [exact Hr|]. split; [done|].
  assert (co_inv (mkConsumer i' [] (dn ++ map fst run) ret)) as Hi'.
  { clear Hl. revert Hi Hr. generalize (mkConsumer i run dn ret). intros s0 H0 Hr.
    induction Hr; eauto using co_step_inv. }
  destruct (co_conserved _ Hi') as [Hp _]. cbn in *. by rewrite Hp, Hh, app_nil_r.
Qed.
End Consumer.

(** ** After [runConsumer] has returned *)
Section Returned.
Context (target : nat -> nat -> option string) (surface : bool) (j c : nat) (svc : string).

(** Loop [j] offers connection [c] and nobody receives any more. *)
Definition stuck (s : @consumer istate) : Prop :=
  co_returned s <> None /\
  (i_closed (co_ic s) = true \/ i_loops (co_ic s) !! j = Some (Sending c svc)).

Lemma set_other (ls : list loop) i x y :
  ls !! i = Some x -> x <> Sending c svc -> ls !! j = Some (Sending c svc) ->
  <[i := y]> ls !! j = Some (Sending c svc).
Proof.
  intros Hi Hx Hj. rewrite list_lookup_insert_ne; [done|]. intros ->. congruence.
Qed.

Lemma stuck_step s s' :
  stuck s -> @consumer_step istate (machine_ic target surface) s s' -> stuck s'.
Proof.
  intros [Hr Hs] Hst. destruct Hst as [i i' run dn ret Hl|i run dn ret|i c' svc' i' run dn Ha
    |i e i' run dn Ha|i k c' svc' run dn ret Hk]; cbn in *; try done; (split; [done|]); cbn; [|by left].
  destruct Hl as [s i c' Hi|s i e Hi|s i c' svc' Hi Hc]; [| |by left].
  - unfold loop_accept. destruct (target i c'); [|done]. destruct Hs as [Hs|Hs]; [by left|right].
    cbn. by eapply set_other.
  - unfold loop_fail, set_loop. destruct (i_closed s || negb surface); cbn;
      (destruct Hs as [Hs|Hs]; [by left|right]); by eapply set_other.
Qed.
End Returned.

(** ** Properties *)


(** One failed listener stops every service: when an accept error of the
    explicit interceptor has ended [runConsumer], a connection that another
    listener offers is never taken, as long as the interceptor is not
    closed. *)
Theorem listener_error_stops_all ms j c svc s s' :
  @rtc _ (@consumer_step istate (explicit_ic ms)) s s' -> co_returned s <> None ->
  i_loops (co_ic s) !! j = Some (Sending c svc) -> i_closed (co_ic s') = false ->
  i_loops (co_ic s') !! j = Some (Sending c svc) /\ co_returned s' <> None.
Proof.
  intros Hr Hret Hj Hc. assert (stuck j c svc s') as [Hret' [?|?]]; [|congruence|done].
  assert (stuck j c svc s) as H0 by (split; [done|by right]). clear Hret Hj.
  induction Hr; [done|]. eauto using stuck_step.
Qed.

Definition demo_mappings : list ExplicitMapping :=
  [mkMapping "127.0.0.1:1" "a"; mkMapping "127.0.0.1:2" "b"].

(** Connection 5 is being served, connection 6 is offered, the interceptor is
    closed. *)
Definition demo_consumer : @consumer istate :=
  let t i (_ : nat) := TargetSvc <$> demo_mappings !! i in
  let s1 := loop_accept t 0 5 (init 2) in
  mkConsumer (Close (loop_accept t 1 6 (loop_deliver 0 5 "a" s1))) [(5%nat, "a"%string)] [] None.

Lemma demo_consumer_reachable :
  @rtc _ (@consumer_step istate (explicit_ic demo_mappings)) (consume (init 2)) demo_consumer.
Proof.
  eapply rtc_l.
  { apply (@co_loops istate (explicit_ic demo_mappings)). by apply (ls_accept _ _ _ 0 5). }
  eapply rtc_l.
  { apply (@co_accept istate (explicit_ic demo_mappings)). by apply (ar_conn _ 0 5 "a"). }
  eapply rtc_l.
  { apply (@co_loops istate (explicit_ic demo_mappings)). by apply (ls_accept _ _ _ 1 6). }
  apply rtc_once. apply (@co_close istate (explicit_ic demo_mappings)).
Qed.


(** The first listener failed and the consumer returned; the second one offers
    connection 6. *)
Definition demo_failed : @consumer istate :=
  let t i (_ : nat) := TargetSvc <$> demo_mappings !! i in
  mkConsumer (loop_accept t 1 6 (take_err (loop_fail true 0 (External 9) (init 2)))) [] []
    (Some (External 9)).

Lemma demo_failed_reachable :
  @rtc _ (@consumer_step istate (explicit_ic demo_mappings)) (consume (init 2)) demo_failed.
Proof.
  eapply rtc_l.
  { apply (@co_loops istate (explicit_ic demo_mappings)). by apply (ls_fail _ _ _ 0 (External 9)). }
  eapply rtc_l.
  { apply (@co_return istate (explicit_ic demo_mappings)). by eapply (ar_err _ (External 9) []). }
  apply rtc_once. apply (@co_loops istate (explicit_ic demo_mappings)). by apply (ls_accept _ _ _ 1 6).
Qed.

Lemma listener_error_stops_all_witness :
  i_loops (co_ic demo_failed) !! 1%nat = Some (Sending 6 "b").
Proof.
  apply (listener_error_stops_all demo_mappings 1 6 "b" demo_failed demo_failed);
    [apply rtc_refl|discriminate|reflexivity|reflexivity].
Defined.
