(* ===== verification/Backends.v ===== *)
(** * Every backend is closed, in every interleaving

    A goroutine that serves an incoming stream gets a connection from the
    handler, a goroutine of the consumer is given the application's; whatever
    the other goroutines do between their calls, both have closed it when they
    end.  The statements are about the calls a goroutine makes itself
    ([log_of]). *)

From stdpp Require Import relations.
From S2P Require Import Prelude Netip Orp Tls Candidate Resume StreamSwap Waiters Forward Session SessionInv.
From S2P Require Import Dialing Reconnect Incoming P2P Promote Safety Vip Dns Intercept Main.
From S2P Require Import Conc Fine FineEq ConcInv.

Local Open Scope prog_scope.

(** Every backend a handler has returned is closed. *)
Definition settled (es : trace) : Prop :=
  forall h b, EvHandler h (Ok b) ∈ es -> EvBackendClose b ∈ es.

(** Every one but [b]. *)
Definition owing (b : backend) (es : trace) : Prop :=
  forall h b', EvHandler h (Ok b') ∈ es -> b' = b \/ EvBackendClose b' ∈ es.

Definition no_handler (e : event) : Prop :=
  match e with EvHandler _ (Ok _) => False | _ => True end.

(** What other calls do not change. *)
Class Stable (K : trace -> Prop) : Prop :=
  stable es ext : K es -> Forall no_handler ext -> K (es ++ ext).

#[export] Instance settled_stable : Stable settled.
Proof.
  intros es ext Hs Hf h b. rewrite !elem_of_app. intros [Hin|Hin]; [eauto|].
  by destruct (proj1 (Forall_forall _ _) Hf _ Hin).
Qed.

#[export] Instance owing_stable b : Stable (owing b).
Proof.
  intros es ext Hs Hf h b'. rewrite !elem_of_app. intros [Hin|Hin]; [destruct (Hs h b' Hin); auto|].
  by destruct (proj1 (Forall_forall _ _) Hf _ Hin).
Qed.

Lemma settled_owing b es h : settled es -> owing b (es ++ [EvHandler h (Ok b)]).
Proof.
  intros Hs h' b'. rewrite !elem_of_app, list_elem_of_singleton. intros [Hin|[= -> ->]]; eauto.
Qed.

Lemma owing_settled b es : owing b es -> settled (es ++ [EvBackendClose b]).
Proof.
  intros Hs h b'. rewrite !elem_of_app, !list_elem_of_singleton. intros [Hin|?]; [|done].
  destruct (Hs h b' Hin) as [->|?]; auto.
Qed.

Section Backends.
Context `{N : Net} `{L : ResumeLib}.

(** ** Programs that call no handler *)
Definition keeps {A} (K : trace -> Prop) (p : prog Session A) : Prop :=
  forall es, K es -> ends settled p es (fun _ => K).

Section Keeps.
Context (K : trace -> Prop) `{!Stable K}.

Lemma keeps_done {A} (a : A) : keeps K (Done a).
Proof. by intros es Hk. Qed.

Lemma keeps_act {A} l (m : Eff Session A) : emits no_handler m -> keeps K (call l m).
Proof.
  intros Hm es Hk s t. destruct (Hm s t) as (a & s' & ext & -> & Hf). exists ext. split; [done|].
  by apply stable.
Qed.

Lemma keeps_bind {A B} (p : prog Session A) (f : A -> prog Session B) :
  keeps K p -> (forall a, keeps K (f a)) -> keeps K (pbind p f).
Proof.
  intros Hp Hf es Hk. apply ends_pbind. eapply ends_mono; [|by apply Hp]. intros a es'. apply Hf.
Qed.

Lemma keeps_go {A} w (q : prog Session unit) (k : prog Session A) :
  keeps settled q -> keeps K k -> keeps K (Go w q k).
Proof.
  intros Hq Hk es He. split.
  - apply Hq. by intros h b ?%elem_of_nil.
  - apply Hk, stable; [done|]. by repeat constructor.
Qed.
End Keeps.

Lemma emits_quiet_abandon r : emits no_handler (rs_markAbandoned r).
Proof. by apply emits_rs_markAbandoned. Qed.
Lemma emits_quiet_gets {A} (f : Session -> A) : emits no_handler (gets f).
Proof. apply emits_silent. intros s t. by eexists _, _. Qed.
Lemma emits_quiet_swap_locked r st : emits no_handler (swap_locked r st).
Proof.
  apply emits_silent. intros s t. unfold swap_locked, swap_section, make_chan.
  destruct (s_store s !! r); by eexists _, _.
Qed.
Lemma emits_quiet_close_old ready : emits no_handler (close_old ready).
Proof.
  intros s t. unfold close_old. destruct (close_ready ready (s_chans s)); eexists _, _.
  - exists []. by rewrite app_nil_r.
  - eexists. split; [done|]. by repeat constructor.
Qed.
Lemma emits_quiet_take_answer id : emits no_handler (take_answer id).
Proof.
  apply emits_silent. intros s t. unfold take_answer. destruct (mlookup _ _); by eexists _, _.
Qed.
Lemma emits_quiet_forget id : emits no_handler (forget_section id).
Proof. apply emits_silent. intros s t. by eexists _, _. Qed.
Lemma emits_quiet_register_answer id : emits no_handler (register_answer id).
Proof.
  apply emits_silent. intros s t. unfold register_answer.
  destruct (registerAnswerWaiter _ _) as [[ch p]|]; by eexists _, _.
Qed.
Lemma emits_quiet_receive_answer ch cd : emits no_handler (receive_answer ch cd).
Proof.
  apply emits_silent. intros s t. unfold receive_answer.
  destruct (recvAnswer _ _ _) as [[[a|e] p]|]; by eexists _, _.
Qed.
Lemma emits_quiet_write st p : emits no_handler (Stream_Write (S := Session) st p).
Proof. by apply emits_write. Qed.
Lemma emits_quiet_receive ch b : emits no_handler (receive_mode ch b).
Proof.
  apply emits_silent. intros s t. unfold receive_mode.
  destruct (receiveMode ch b (s_p2p s)) as [[n p]|]; by eexists _, _.
Qed.
Lemma emits_quiet_acquire k : emits no_handler (acquire (S := Session) k).
Proof. apply emits_call. intros s t. unfold acquire. destruct (net_acquire t k); by eexists _, _, _. Qed.

#[local] Hint Resolve emits_quiet_acquire : emits.

Lemma emits_quiet_Dial ep alloc peer : emits no_handler (Dial (S := Session) ep alloc peer).
Proof. unfold Dial, register. repeat emits_step. Qed.

#[local] Hint Resolve emits_quiet_Dial : emits.

Lemma emits_quiet_AcceptForward g : emits no_handler (AcceptForward (S := Session) g).
Proof. unfold AcceptForward, new_transport. repeat emits_step. Qed.
Lemma emits_quiet_DialForward g : emits no_handler (DialForward (S := Session) g).
Proof. unfold DialForward, new_transport. repeat emits_step. Qed.
Lemma emits_quiet_ForwardClose f : emits no_handler (ForwardSession_Close (S := Session) f).
Proof. unfold ForwardSession_Close, fwdQuicStream_Close, fwdQuicConn_Close. repeat emits_step. Qed.
Lemma emits_quiet_ActiveStreams : emits no_handler ActiveStreams.
Proof. unfold ActiveStreams. repeat emits_step. Qed.
Lemma emits_quiet_exposed : emits no_handler exposed_names.
Proof. unfold exposed_names. repeat emits_step. Qed.

(** ** The goroutine of the consumer *)

(** [consume_conn], call by call, with the goroutine of the background
    promotion. *)
Definition p_consume_conn (fuel polls : nat) (local : backend) (svc : string) (peerTLS : bool)
    (eng : Engine) (ifaddrs : result (list netAddr)) (wait : nat) : prog Session bool :=
  let! d <- p_Dial fuel svc "" ;
  match d with
  | None => Done false
  | Some (Err _) => run! act (Backend_Close local) ; Done true
  | Some (Ok r) =>
      let! id <- act (gets (wrapper_id r)) ;
      let! granted <- p_wait_mode polls (uint64 id) ;
      run! match granted with
           | Some g =>
               if peerTLS then
                 let! fs <- act (DialForward (Some g)) ;
                 match fs with
                 | Err _ => Done tt
                 | Ok fs =>
                     run! act (emit (EvBridgeForward (fs_stream fs) local)) ;
                     run! act (Backend_Close local) ;
                     run! act (release ResQuicStream (fs_stream fs)) ;
                     run! act (ForwardSession_Close fs) ;
                     Done tt
                 end
               else Done tt
           | None =>
               Go "tryPromote" (goroutine (p_tryPromote wait r eng ifaddrs))
                 (let! inner <- rlocked (WrapperMu r) (gets (inner_of r)) ;
                  run! match inner with
                       | Some inner => act (emit (EvBridge inner local))
                       | None => Done tt
                       end ;
                  run! act (Backend_Close local) ;
                  p_Close r)
           end ;
      run! p_Close r ;
      run! act (Backend_Close local) ;
      Done true
  end.

Lemma alone_consume_conn fuel polls local svc tls eng ifs w st :
  alone (p_consume_conn fuel polls local svc tls eng ifs w) st =
  consume_conn fuel local svc tls [] (bool_decide (polls = 0%nat)) st.
Proof.
  unfold p_consume_conn, consume_conn, teardown. rewrite alone_pbind. unfold mbind, get, gets, mret.
  rewrite alone_Dial. destruct (Session_Dial fuel svc "" st) as [[[r|e]|] [s1 t1]]; [|done..].
  cbn [alone call pbind]. unfold mbind, mret. rewrite alone_pbind. unfold mbind. rewrite alone_wait_mode.
  destruct (wait_mode _ _ _ _) as [g y]. rewrite alone_pbind. unfold mbind.
  assert (forall y, alone (run! p_Close r ; run! act (Backend_Close local) ; Done true) y =
    (let '(_, s') := let '(_, s') := rs_Close r y in Backend_Close local s' in (true, s'))) as Htail.
  { intros z. rewrite alone_pbind. unfold mbind. rewrite alone_Close. destruct (rs_Close r z) as [[] z'].
    cbn [alone call pbind]. unfold mbind, mret. done. }
  cbn [alone call pbind] in Htail |- *. unfold mbind, mret in Htail |- *. destruct g as [g|].
  - destruct tls; [|apply Htail]. cbn [alone call pbind]. unfold mbind, mret.
    destruct (DialForward (Some g) y) as [[fs|e] [s2 t2]]; [|apply Htail].
    cbn [alone call pbind]. unfold mbind, mret, emit. cbv beta iota.
    match goal with |- (let '(_, s') := ?x in _) = _ => destruct x as [u y1] end. apply Htail.
  - destruct y as [s2 t2]. cbn [alone call pbind]. unfold mbind, mret, emit, gets, inner_of. cbv beta iota.
    destruct (s_store s2 !! r); cbn [alone call pbind fmap option_fmap option_map];
      unfold mbind, mret; cbv beta iota;
      destruct (Backend_Close local _) as [[] y2]; rewrite alone_Close;
      destruct (rs_Close r y2) as [[] y3]; apply Htail.
Qed.
End Backends.

#[export] Hint Resolve emits_quiet_gets emits_quiet_swap_locked emits_quiet_close_old emits_quiet_take_answer
  emits_quiet_forget emits_quiet_register_answer emits_quiet_receive_answer : emits.
#[export] Hint Resolve emits_quiet_abandon emits_quiet_write emits_quiet_receive
  emits_quiet_AcceptForward emits_quiet_DialForward emits_quiet_ForwardClose
  emits_quiet_ActiveStreams emits_quiet_exposed : emits.

(** Walk a program up to a call of a handler. *)
Ltac tidily :=
  repeat match goal with
    | |- keeps _ (pbind (call _ (call_handler _ _)) _) => fail 1
    | |- keeps _ (Done _) => apply keeps_done
    | |- keeps _ (Go _ _ _) => apply keeps_go; [exact _|..]
    | |- keeps _ (pbind _ _) => apply keeps_bind; [|intros ?]
    | |- keeps _ (call _ _) => apply keeps_act; [exact _|solve [repeat emits_step]]
    | |- keeps _ (match ?x with _ => _ end) => destruct x
    end.

Section Programs.
Context `{N : Net} `{L : ResumeLib}.

Section Keep.
Context (K : trace -> Prop) `{!Stable K}.

Lemma keeps_forgetStream id : keeps K (p_forgetStream id).
Proof. unfold p_forgetStream. tidily. Qed.

Lemma keeps_Close r : keeps K (p_Close r).
Proof. unfold p_Close. tidily. apply keeps_forgetStream. Qed.

Lemma keeps_freshStreamID fuel target method : keeps K (p_freshStreamID fuel target method).
Proof. induction fuel; cbn [p_freshStreamID]; tidily. done. Qed.

Lemma keeps_Dial fuel target method : keeps K (p_Dial fuel target method).
Proof. unfold p_Dial. tidily. apply keeps_freshStreamID. Qed.

Lemma keeps_Expose name la h : keeps K (p_Expose name la h).
Proof. unfold p_Expose. tidily. Qed.

Lemma keeps_SwapInner r st : keeps K (p_SwapInner r st).
Proof. unfold p_SwapInner. tidily. Qed.

Lemma keeps_writeCtrl typ m : keeps K (p_writeCtrl typ m).
Proof. unfold p_writeCtrl. tidily. Qed.

Lemma keeps_deliverAnswer a : keeps K (p_deliverAnswer a).
Proof. unfold p_deliverAnswer. tidily. Qed.

Lemma keeps_deliverMode id n : keeps K (p_deliverMode id n).
Proof. unfold p_deliverMode. tidily. Qed.

Lemma keeps_completeResume r st : keeps K (p_completeResume r st).
Proof. unfold p_completeResume. tidily. Qed.

Lemma keeps_Resume r : keeps K (p_Resume r).
Proof. unfold p_Resume. tidily; [apply keeps_completeResume|apply keeps_SwapInner]. Qed.

Lemma keeps_resume_all l : keeps K (p_resume_all l).
Proof.
  induction l; cbn [p_resume_all]; tidily; [apply keeps_Resume|apply keeps_forgetStream|done].
Qed.

Lemma keeps_redial d uri addrs e : keeps K (p_redial d uri addrs e).
Proof. revert e. induction addrs; intros e; cbn [p_redial]; tidily; auto. Qed.

Lemma keeps_reregister names : keeps K (p_reregister names).
Proof. induction names; cbn [p_reregister]; tidily. done. Qed.

Lemma keeps_swap_transport c ct : keeps K (p_swap_transport c ct).
Proof. unfold p_swap_transport. tidily. Qed.

Lemma keeps_Reconnect addrs : keeps K (p_Reconnect addrs).
Proof.
  unfold p_Reconnect. destruct addrs as [|a addrs]; tidily;
    auto using keeps_redial, keeps_swap_transport, keeps_reregister, keeps_resume_all.
Qed.

Lemma keeps_receive polls ch : keeps K (p_receive polls ch).
Proof. induction polls; cbn [p_receive]; tidily. done. Qed.

Lemma keeps_wait_mode polls id : keeps K (p_wait_mode polls id).
Proof. unfold p_wait_mode. tidily. apply keeps_receive. Qed.

Lemma keeps_punch_loop sock cands : keeps K (p_punch_loop sock cands).
Proof. induction cands; cbn [p_punch_loop]; tidily. done. Qed.

Lemma keeps_control_frame f : keeps K (p_control_frame f).
Proof.
  unfold p_control_frame, p_warmupPunch. destruct (f_Type f); tidily;
    auto using keeps_deliverMode, keeps_deliverAnswer, keeps_writeCtrl, keeps_punch_loop.
Qed.

Lemma keeps_controlReader fuel : keeps K (p_controlReader fuel).
Proof. induction fuel; cbn [p_controlReader]; tidily; auto using keeps_control_frame. Qed.

Lemma keeps_emitCheckpoints fuel period : keeps K (p_emitCheckpoints fuel period).
Proof.
  assert (forall l, keeps K (p_emit_states l)) as Hl by (induction l; cbn [p_emit_states]; tidily;
    auto using keeps_writeCtrl).
  induction fuel; cbn [p_emitCheckpoints]; unfold p_emitOnce; tidily; auto.
Qed.

Lemma keeps_MigrateToDirect r c : keeps K (p_MigrateToDirect r c).
Proof. unfold p_MigrateToDirect. tidily; apply keeps_SwapInner. Qed.

Lemma keeps_handleDirectStream st : keeps K (p_handleDirectStream st).
Proof. unfold p_handleDirectStream. tidily; apply keeps_SwapInner. Qed.

Lemma keeps_tryPromote polls r eng ifs : keeps K (p_tryPromote polls r eng ifs).
Proof.
  assert (forall ch, keeps K (p_recv_answer polls ch)) as Hrecv
    by (intros ch; induction polls; cbn [p_recv_answer]; tidily; done).
  assert (forall locals l, keeps K (p_check_loop eng locals l)) as Hcheck
    by (intros locals l; induction l; cbn [p_check_loop]; tidily; done).
  unfold p_tryPromote, p_Promote, p_locals, p_Promoter_Run. tidily;
    auto using keeps_writeCtrl, keeps_MigrateToDirect.
Qed.

Lemma keeps_p2p_op o : keeps K (p_p2p_op o).
Proof. destruct o; cbn [p_p2p_op]; tidily; auto using keeps_deliverAnswer, keeps_deliverMode. Qed.
End Keep.

(** ** Serving an incoming stream *)

(** From owing the backend to having closed it. *)
Definition repays {A} (b : backend) (p : prog Session A) : Prop :=
  forall es, owing b es -> ends settled p es (fun _ => settled).

Lemma repays_bind {A B} b (p : prog Session A) (f : A -> prog Session B) :
  keeps (owing b) p -> (forall a, repays b (f a)) -> repays b (pbind p f).
Proof.
  intros Hp Hf es Ho. apply ends_pbind. eapply ends_mono; [|by apply Hp]. intros a es'. apply Hf.
Qed.

Lemma repays_then {A B} b (p : prog Session A) (f : A -> prog Session B) :
  repays b p -> (forall a, keeps settled (f a)) -> repays b (pbind p f).
Proof.
  intros Hp Hf es Ho. apply ends_pbind. eapply ends_mono; [|by apply Hp]. intros a es'. apply Hf.
Qed.

Lemma repays_close b : repays b (act (Backend_Close b)).
Proof. intros es Ho s t. exists [EvBackendClose b]. split; [done|]. by apply owing_settled. Qed.

(** One call or one program that leaves the debt as it is. *)
#[local] Ltac owe :=
  apply repays_bind; [solve [tidily; auto using keeps_Close, keeps_wait_mode with typeclass_instances]|
    intros ?].

Lemma repays_bridge r st b : repays b (p_bridge_wrapped r st b).
Proof. unfold p_bridge_wrapped. owe. owe. apply repays_close. Qed.

Lemma repays_serve r st b g : repays b (p_serve r st b g).
Proof.
  unfold p_serve. destruct g as [g|]; [|apply repays_bridge]. owe.
  destruct a; [|apply repays_bridge]. owe. destruct a as [fs|e]; [|apply repays_close].
  owe. owe. apply repays_then; [apply repays_close|]. intros _. tidily.
Qed.

(** A handler that returns a backend makes a debt. *)
Lemma keeps_handler {A} h inc (f : result backend -> prog Session A) :
  (forall b, repays b (f (Ok b))) -> (forall e, keeps settled (f (Err e))) ->
  keeps settled (let! b <- act (call_handler h inc) ; f b).
Proof.
  intros Hb He es Hs s t. cbn. eexists. split; [done|]. destruct (net_handler t h inc) as [b|e].
  - apply Hb. by apply settled_owing.
  - apply He. apply settled_stable; [done|]. by repeat constructor.
Qed.

Lemma keeps_handleIncoming polls st : keeps settled (p_handleIncoming polls st).
Proof.
  unfold p_handleIncoming. tidily. apply keeps_handler; [|intros e; tidily].
  intros b. owe. owe. owe. match goal with x : result unit |- _ => destruct x as [[]|e] end.
  - owe. owe. apply repays_then; [apply repays_serve|]. intros _. apply keeps_Close; exact _.
  - owe. apply repays_then; [apply repays_close|]. intros _. tidily.
Qed.

(** ** All calls *)
Lemma keeps_Run polls fuel : keeps settled (p_Run polls fuel).
Proof. induction fuel; cbn [p_Run]; tidily; auto using keeps_handleIncoming. Qed.

Lemma keeps_goroutine {A} (p : prog Session A) : keeps settled p -> keeps settled (goroutine p).
Proof. intros Hp. unfold goroutine. tidily. done. Qed.

Lemma keeps_acceptDirectStreams fuel c : keeps settled (p_acceptDirectStreams fuel c).
Proof.
  induction fuel; cbn [p_acceptDirectStreams]; tidily; auto.
  apply keeps_handleDirectStream; exact _.
Qed.

Lemma keeps_AcceptDirect fuel ln : keeps settled (p_AcceptDirect fuel ln).
Proof. induction fuel; cbn [p_AcceptDirect]; tidily; auto using keeps_acceptDirectStreams. Qed.

Lemma keeps_reconnect_loop fuel addrs b : keeps settled (p_reconnect_loop fuel addrs b).
Proof.
  revert b. induction fuel; intros b; cbn [p_reconnect_loop]; tidily; auto.
  - apply keeps_Reconnect; exact _.
  - apply keeps_goroutine, keeps_controlReader; exact _.
Qed.

Lemma keeps_RunWithReconnect polls fuel addrs : keeps settled (p_RunWithReconnect polls fuel addrs).
Proof.
  induction fuel; cbn [p_RunWithReconnect]; tidily; auto using keeps_Run, keeps_reconnect_loop.
Qed.

Lemma keeps_StartResume fuel ctx period ms : keeps settled (p_StartResume fuel ctx period ms).
Proof.
  unfold p_StartResume, p_EnableP2P. tidily; apply keeps_goroutine;
    [apply keeps_controlReader|apply keeps_emitCheckpoints]; exact _.
Qed.

Lemma keeps_call c : keeps settled (p_call c).
Proof.
  destruct c; cbn [p_call]; unfold when_wrapper, p_CloseWrite; try apply keeps_goroutine;
    auto using keeps_handleIncoming, keeps_Run, keeps_RunWithReconnect, keeps_StartResume.
  all: try (tidily; try apply keeps_goroutine).
  all: first [apply keeps_Expose | apply keeps_Dial | apply keeps_Resume | apply keeps_Close
    | apply keeps_forgetStream | apply keeps_Reconnect | apply keeps_controlReader
    | apply keeps_MigrateToDirect | apply keeps_p2p_op | apply keeps_handleDirectStream |
      by apply keeps_AcceptDirect]; exact _.
Qed.

Lemma keeps_calls cs : keeps settled (p_calls cs).
Proof. induction cs; cbn [p_calls]; tidily; auto using keeps_call. Qed.

(** ** The consumer *)

(** Stream ids drawn from the generator. *)
Definition drawn (es : trace) : nat :=
  length (omap (fun e => match e with EvNewStreamID id => Some id | _ => None end) es).

Lemma drawn_app es es' : drawn (es ++ es') = (drawn es + drawn es')%nat.
Proof. unfold drawn. by rewrite omap_app, length_app. Qed.

(** Out of fuel means that as many ids were drawn. *)
Lemma ends_freshStreamID fuel target method es :
  ends settled (p_freshStreamID fuel target method) es
    (fun id es' => id = None -> (drawn es + fuel <= drawn es')%nat).
Proof.
  revert es. induction fuel as [|fuel IH]; intros es; cbn [p_freshStreamID]; [intros _; lia|].
  intros s t. exists []. rewrite !app_nil_r. split; [done|]. intros s1 t1. cbn.
  eexists. split; [done|]. intros s2 t2. exists []. rewrite !app_nil_r. split; [done|].
  case_match; [|done]. eapply ends_mono; [|apply IH]. cbn. intros id es' H' Hid.
  specialize (H' Hid). rewrite drawn_app in H'. cbn in H'. lia.
Qed.

Lemma ends_any {A} (p : prog Session A) (Q : A -> trace -> Prop) es :
  keeps (fun _ => True) p -> (forall a es', Q a es') -> ends settled p es Q.
Proof. intros Hp HQ. eapply ends_mono; [|by apply Hp]. auto. Qed.

#[local] Instance true_stable : Stable (fun _ => True).
Proof. by intros es ext. Qed.

(** The next call, whatever it does. *)
#[local] Ltac next := apply ends_pbind, ends_any; [solve [tidily]|].

Lemma ends_Dial fuel target method :
  ends settled (p_Dial fuel target method) [] (fun r es => r = None -> (fuel <= drawn es)%nat).
Proof.
  unfold p_Dial. next. intros s0 es0. next. intros [st|e] es1; [|done].
  apply ends_pbind. eapply ends_mono; [|apply ends_freshStreamID]. cbn beta. intros [id|] es2 H.
  - next. intros s1 es3. next. intros _ es4. next. intros [[]|e] es5; [next; done|]. next. intros _ es6.
    next. done.
  - intros _. specialize (H eq_refl). lia.
Qed.

(** A goroutine of the consumer closes the application's connection, unless
    its id generator only gave ids in use. *)
Lemma ends_consume_conn fuel polls local svc tls eng ifs w :
  ends settled (p_consume_conn fuel polls local svc tls eng ifs w) []
    (fun _ es => EvBackendClose local ∈ es \/ (fuel <= drawn es)%nat).
Proof.
  assert (forall es, ends settled (act (Backend_Close (S := Session) local)) es
    (fun _ es' => EvBackendClose local ∈ es')) as Hclose.
  { intros es s t. eexists. split; [done|]. cbn. rewrite elem_of_app. right. by left. }
  unfold p_consume_conn. apply ends_pbind. eapply ends_mono; [|apply ends_Dial]. cbn beta.
  intros [[r|e]|] es Hd; [| |by right; apply Hd].
  - next. intros s es1. apply ends_pbind, ends_any; [by apply keeps_wait_mode; exact _|]. intros g es2.
    apply ends_pbind, ends_any.
    { tidily; try (apply keeps_Close; exact _). apply keeps_goroutine, keeps_tryPromote. exact _. }
    intros _ es3. apply ends_pbind, ends_any; [by apply keeps_Close; exact _|]. intros _ es4.
    apply ends_pbind. eapply ends_mono; [|apply Hclose]. intros [] es5 H. by left.
  - apply ends_pbind. eapply ends_mono; [|apply Hclose]. intros [] es5 H. by left.
Qed.
End Programs.

(** ** Properties *)

(** C10. Every backend is closed, under concurrency: any number of goroutines
    with any calls (accept loops that start a goroutine per incoming stream
    included), interleaved anywhere; each goroutine that has ended has itself
    closed every backend connection that a handler gave it, whether it was
    rejected, bridged over the relay or over the forward plane. *)
Theorem backends_closed `{N : Net} `{L : ResumeLib} gs s c i u :
  rtc cstep (start gs s) c -> c_threads c !! i = Some (Done u) -> settled (log_of i c).
Proof.
  intros Hs. apply ended. eapply pool_ends_reachable; [|exact Hs]. split; [|constructor].
  intros j p Hj. cbn in Hj. rewrite list_lookup_fmap in Hj.
  destruct (gs !! j) as [cs|]; [|done]. injection Hj as <-. apply keeps_calls.
  by intros h b ?%elem_of_nil.
Qed.

(** The consumer closes the application's connection, under concurrency:
    whatever the other goroutines of the process are and do, a goroutine of
    [runConsumer] that has ended has closed its connection itself (or its id
    generator returned [fuel] ids that were all in use). *)
Theorem consumer_closes_local `{N : Net} `{L : ResumeLib} fuel polls local svc tls eng ifs w
    c c' i :
  c_threads c !! i = Some (goroutine (p_consume_conn fuel polls local svc tls eng ifs w)) ->
  log_of i c = [] -> rtc cstep c c' -> c_threads c' !! i = Some (Done tt) ->
  EvBackendClose local ∈ log_of i c' \/ (fuel <= drawn (log_of i c'))%nat.
Proof.
  intros Hp Hl Hs Hd.
  apply (ends_post settled i _ (fun _ es => EvBackendClose local ∈ es \/ (fuel <= drawn es)%nat)
           c c' tt Hp); [|done..].
  rewrite Hl. unfold goroutine. apply ends_pbind. eapply ends_mono; [|apply ends_consume_conn]. auto.
Qed.

(** An incoming stream for [svc] while the session reconnects. *)
Definition demo_incoming : Net :=
  demo_net (fun _ _ => mkFrame FrameTypeIncomingStream [8; 115; 118; 99]).

Definition demo_served : config (@Session Ring.lib) :=
  schedule demo_interleaving
    (@start demo_incoming Ring.lib [[CIncoming 0 (mkStream 9)]; [CReconnect ["r:1"]]] demo_session).

Lemma backends_closed_witness :
  settled (log_of 0 demo_served) /\ existsb (fun e => match e with EvBackendClose _ => true | _ => false end)
    (log_of 0 demo_served) = true.
Proof.
  split; [|vm_compute; reflexivity].
  apply (@backends_closed demo_incoming Ring.lib [[CIncoming 0 (mkStream 9)]; [CReconnect ["r:1"]]]
           demo_session demo_served 0 tt).
  - apply schedule_reachable.
  - vm_compute. reflexivity.
Defined.

(** A consumer goroutine and a reconnect. *)
Definition demo_consuming : config (@Session Ring.lib) :=
  mkConfig [goroutine (@p_consume_conn demo_incoming Ring.lib 3 1 (mkBackend 4) "db" false
              (mkEngine 0 0 None) (Ok []) 1);
            @p_calls demo_incoming Ring.lib [CReconnect ["r:1"]]] demo_session [].

Lemma consumer_closes_local_witness :
  let c := schedule demo_interleaving demo_consuming in
  EvBackendClose (mkBackend 4) ∈ log_of 0 c \/ (3 <= drawn (log_of 0 c))%nat.
Proof.
  apply (@consumer_closes_local demo_incoming Ring.lib 3 1 (mkBackend 4) "db" false
           (mkEngine 0 0 None) (Ok []) 1 demo_consuming).
  - reflexivity.
  - reflexivity.
  - apply schedule_reachable.
  - vm_compute. reflexivity.
Defined.
