(* ===== verification/Mutexes.v ===== *)
(** * What the session's mutexes protect

    [Session.mu] guards the handler and stream maps and the forward TLS
    configuration, [Session.p2pMu] the waiter maps and the P2P settings, a
    wrapper's [mu] its inner stream, channel and abandoned flag; [ctrlWriteMu]
    guards no memory.  Connection, control stream, channels and stream
    counters are guarded by none.  Every program of [Fine] keeps to this and
    holds one mutex at a time. *)

From stdpp Require Import relations.
From S2P Require Import Prelude Netip Orp Resume StreamSwap Waiters Forward Session SessionInv.
From S2P Require Import Dialing Reconnect Incoming P2P Promote Conc Fine FineEq ConcInv Backends.
From S2P Require Import Locks Deadlock.

Local Open Scope prog_scope.

Section Mutexes.
Context `{N : Net} `{L : ResumeLib}.
Implicit Types s : Session.

(** ** Regions *)
Definition s_present (mu : mutex) s : bool :=
  match mu with
  | WrapperMu r => bool_decide (is_Some (s_store s !! r))
  | _ => true
  end.

Definition guarded_of (r : nat) s : option guarded := rs_guarded <$> s_store s !! r.

Definition s_agree (mu : mutex) s s' : Prop :=
  match mu with
  | Mu =>
      s_handlers s = s_handlers s' /\ s_streams s = s_streams s' /\
      s_forwardServerTLS s = s_forwardServerTLS s'
  | P2pMu =>
      let p := s_p2p s in let p' := s_p2p s' in
      pendingAnswers p = pendingAnswers p' /\ pendingMode p = pendingMode p' /\
      localCandidates p = localCandidates p' /\ p2pEnabled p = p2pEnabled p' /\ p2pCtx p = p2pCtx p'
  | CtrlWriteMu => True
  | WrapperMu r => guarded_of r s = guarded_of r s'
  end.

Record s_agree_rest s s' : Prop := {
  ar_conn : s_conn s = s_conn s';
  ar_ctrl : s_ctrl s = s_ctrl s';
  ar_uri : s_agentURI s = s_agentURI s';
  ar_dialer : s_dialer s = s_dialer s';
  ar_reconnecting : s_reconnecting s = s_reconnecting s';
  ar_abufs : abufs (s_p2p s) = abufs (s_p2p s');
  ar_mbufs : mbufs (s_p2p s) = mbufs (s_p2p s');
  ar_nextbuf : nextbuf (s_p2p s) = nextbuf (s_p2p s');
  ar_states : forall r, deref r s = deref r s';
  ar_chans : s_chans s = s_chans s';
  ar_next : s_next s = s_next s'
}.

(** References are given out in order. *)
Definition s_ok s : Prop := forall r, is_Some (s_store s !! r) -> (r < s_next s)%nat.

Lemma deref_present s s' r : deref r s = deref r s' -> s_present (WrapperMu r) s = s_present (WrapperMu r) s'.
Proof.
  unfold deref. cbn. intros E. apply bool_decide_ext.
  destruct (s_store s !! r), (s_store s' !! r); try done; split; intros []; eauto.
Qed.

(** The part of [mu] from [s], everything else from [s']. *)
Definition splice (mu : mutex) s s' : Session :=
  match mu with
  | Mu =>
      SetForwardServerTLS (s_forwardServerTLS s)
        (set_streams (s_streams s) (set_handlers (s_handlers s) s'))
  | P2pMu =>
      let p := s_p2p s in let p' := s_p2p s' in
      set_p2p (mkP2P (pendingAnswers p) (pendingMode p) (localCandidates p) (p2pEnabled p) (p2pCtx p)
                 (abufs p') (mbufs p') (nextbuf p')) s'
  | CtrlWriteMu => s'
  | WrapperMu r =>
      match guarded_of r s, deref r s' with
      | Some g, Some st => set_store (<[r := mkRS st g]> (s_store s')) (s_chans s') s'
      | _, _ => s'
      end
  end.

#[export] Program Instance Session_regions : Regions Session := {|
  present := s_present;
  agree := s_agree;
  agree_rest := s_agree_rest;
  ok := s_ok
|}.
Next Obligation.
  intros mu. split.
  - intros s. by destruct mu.
  - intros s s'. destruct mu; cbn; intros; destruct_and?; by split_and?.
  - intros s1 s2 s3. destruct mu; cbn; intros; destruct_and?; split_and?; first [done|congruence].
Qed.
Next Obligation.
  split.
  - by intros s.
  - intros s s' []. by constructor.
  - intros s1 s2 s3 [] []. constructor; congruence.
Qed.
Next Obligation.
  intros [| | |r] s s'; try done. cbn. unfold guarded_of. intros E. apply bool_decide_ext.
  destruct (s_store s !! r), (s_store s' !! r); try done; split; intros []; eauto.
Qed.
Next Obligation. intros [| | |r] s s' Hr; try done. apply deref_present, Hr. Qed.
Next Obligation.
  intros [| | |r] s s'; try done. cbn. unfold guarded_of.
  rewrite !bool_decide_eq_false, <- !eq_None_not_Some. by intros -> ->.
Qed.
Next Obligation.
  intros s s' Hr Hok r Hs. rewrite <- (ar_next _ _ Hr). apply Hok.
  pose proof (deref_present s s' r (ar_states _ _ Hr r)) as E. cbn in E.
  by rewrite (bool_decide_eq_true_2 _ Hs), bool_decide_eq_true in E.
Qed.
Next Obligation.
  intros s s' Hr Ha. destruct (Ha Mu) as (? & ? & ?), (Ha P2pMu) as (? & ? & ? & ? & ?).
  assert (s_p2p s = s_p2p s') as Hp.
  { destruct Hr, (s_p2p s), (s_p2p s'). cbn in *. congruence. }
  assert (s_store s = s_store s') as Hst.
  { apply map_eq. intros r. pose proof (Ha (WrapperMu r)) as Hg. pose proof (ar_states _ _ Hr r) as Hd.
    cbn in Hg. unfold guarded_of, deref in *.
    destruct (s_store s !! r) as [[]|], (s_store s' !! r) as [[]|]; cbn in *; congruence. }
  destruct Hr, s, s'. cbn in *. congruence.
Qed.
Next Obligation.
  intros mu s s' Hp. exists (splice mu s s'). destruct mu as [| | |r]; cbn [splice].
  1-3: split_and!; [done|done|]; intros [| | |r] ?; done.
  unfold guarded_of, deref. destruct (s_store s !! r) as [[st g]|] eqn:E,
    (s_store s' !! r) as [[st' g']|] eqn:E';
    cbn in Hp; rewrite E, E' in Hp; try done; cbn.
  - unfold guarded_of. cbn. rewrite E, lookup_insert_eq. split_and!; [done| |].
    + constructor; try done. intros r'. unfold deref. cbn. destruct (decide (r = r')) as [<-|].
      * by rewrite lookup_insert_eq, E'.
      * by rewrite lookup_insert_ne.
    + intros [| | |r'] Hne; try done. cbn. unfold guarded_of. cbn.
      rewrite lookup_insert_ne by congruence. done.
  - unfold guarded_of. rewrite E, E'. split_and!; [done|done|]. by intros [| | |r'] ?.
Qed.

#[local] Instance s_agree_equiv mu : Equivalence (s_agree mu).
Proof. exact (agree_equiv mu). Qed.
#[local] Instance s_agree_rest_equiv : Equivalence s_agree_rest.
Proof. exact agree_rest_equiv. Qed.

Lemma s_absent s s' mu : s_agree_rest s s' -> s_present mu s = false -> s_agree mu s s'.
Proof.
  intros Hr Hp. refine (agree_absent mu s s' Hp _). rewrite <- Hp. symmetry.
  exact (agree_rest_present mu s s' Hr).
Qed.

(** ** Actions *)
Lemma store_present s s' r :
  (forall r, deref r s' = deref r s) -> s_present (WrapperMu r) s' = s_present (WrapperMu r) s.
Proof. intros H. by apply deref_present. Qed.

(** Both maps of waiters and the settings, as the holder of [p2pMu] sees
    them. *)
Lemma p2p_seen s s' : s_agree_rest s s' -> s_agree P2pMu s s' -> s_p2p s = s_p2p s'.
Proof.
  intros [] (? & ? & ? & ? & ?). destruct (s_p2p s), (s_p2p s'). cbn in *. congruence.
Qed.

Lemma store_seen s s' r : s_agree_rest s s' -> s_agree (WrapperMu r) s s' -> s_store s !! r = s_store s' !! r.
Proof.
  intros Hr Hg. pose proof (ar_states _ _ Hr r) as Hd. cbn in Hg. unfold guarded_of, deref in *.
  destruct (s_store s !! r) as [[]|], (s_store s' !! r) as [[]|]; cbn in *; congruence.
Qed.

(** A section of [p2pMu]. *)
Lemma within_p2p {B : Type} (f : P2P -> B * P2P) :
  within (Some P2pMu) true (fun '(s, t) =>
    let '(b, s') := (let '(b, p) := f (s_p2p s) in (b, set_p2p p s)) in (b, (s', t))).
Proof.
  apply (within_step _ _ (fun s => let '(b, p) := f (s_p2p s) in (b, set_p2p p s))).
  - intros s1 s2 Hr Ho. rewrite (p2p_seen s1 s2 Hr (Ho P2pMu eq_refl)).
    destruct (f (s_p2p s2)) as [b p]. cbn. split_and!; [done| |].
    + destruct Hr. by constructor.
    + by intros mu [= <-].
  - intros s Hok. by destruct (f (s_p2p s)).
  - intros s mu. by destruct (f (s_p2p s)), mu.
  - intros s mu [Hmu|?]; [|done]. by destruct (f (s_p2p s)), mu.
Qed.

(** A section of [mu]. *)
Lemma within_mu {B : Type}
    (f : gmap string nat -> gmap Z nat -> option Tls.tlsConfig ->
         B * (gmap string nat * gmap Z nat * option Tls.tlsConfig)) :
  within (Some Mu) true (fun '(s, t) =>
    let '(b, s') :=
      (let '(b, (hs, sts, tls)) := f (s_handlers s) (s_streams s) (s_forwardServerTLS s) in
       (b, SetForwardServerTLS tls (set_streams sts (set_handlers hs s)))) in (b, (s', t))).
Proof.
  apply (within_step _ _ (fun s =>
    let '(b, (hs, sts, tls)) := f (s_handlers s) (s_streams s) (s_forwardServerTLS s) in
    (b, SetForwardServerTLS tls (set_streams sts (set_handlers hs s))))).
  - intros s1 s2 Hr Ho. destruct (Ho Mu eq_refl) as (-> & -> & ->).
    destruct (f _ _ _) as [b [[hs sts] tls]]. cbn. split_and!; [done| |].
    + destruct Hr. by constructor.
    + by intros mu [= <-].
  - intros s Hok. by destruct (f _ _ _) as [b [[hs sts] tls]].
  - intros s mu. by destruct (f _ _ _) as [b [[hs sts] tls]], mu.
  - intros s mu [Hmu|?]; [|done]. by destruct (f _ _ _) as [b [[hs sts] tls]], mu.
Qed.

(** A step on the channels of waiters, which no mutex guards. *)
Definition set_bufs (a : gmap nat (list CandidateAnswer))
    (m : gmap nat (list streamModeNotice)) s : Session :=
  let p := s_p2p s in
  set_p2p (mkP2P (pendingAnswers p) (pendingMode p) (localCandidates p) (p2pEnabled p) (p2pCtx p) a m
    (nextbuf p)) s.

Lemma within_bufs {B : Type} o w
    (f : gmap nat (list CandidateAnswer) -> gmap nat (list streamModeNotice) ->
         B * (gmap nat (list CandidateAnswer) * gmap nat (list streamModeNotice))) :
  within o w (fun '(s, t) =>
    let '(b, s') := (let '(b, (x, y)) := f (abufs (s_p2p s)) (mbufs (s_p2p s)) in (b, set_bufs x y s)) in
    (b, (s', t))).
Proof.
  apply (within_step _ _ (fun s =>
    let '(b, (x, y)) := f (abufs (s_p2p s)) (mbufs (s_p2p s)) in (b, set_bufs x y s))).
  - intros s1 s2 Hr Ho. rewrite (ar_abufs _ _ Hr), (ar_mbufs _ _ Hr).
    destruct (f _ _) as [b [x y]]. cbn. split_and!; [done| |].
    + destruct Hr. by constructor.
    + intros mu Hmu. specialize (Ho mu Hmu). by destruct mu.
  - intros s Hok. by destruct (f _ _) as [b [x y]].
  - intros s mu. by destruct (f _ _) as [b [x y]], mu.
  - intros s mu _. by destruct (f _ _) as [b [x y]], mu.
Qed.

(** A step on the fields that are guarded by nothing. *)
Lemma within_transport o w (c : Session -> conn) (ct : Session -> stream) (b : Session -> bool) :
  (forall s s', s_agree_rest s s' -> c s = c s' /\ ct s = ct s' /\ b s = b s') ->
  within o w (modify (fun s => set_reconnecting (b s) (set_transport (c s) (ct s) s))).
Proof.
  intros Hf. apply (within_step o w (fun s => (tt, set_reconnecting (b s) (set_transport (c s) (ct s) s)))).
  - intros s1 s2 Hr Ho. destruct (Hf s1 s2 Hr) as (E1 & E2 & E3). split_and!; [done| |].
    + destruct Hr. by constructor.
    + intros mu Hmu. specialize (Ho mu Hmu). by destruct mu.
  - by intros s Hok.
  - by intros s [].
  - by intros s [] _.
Qed.

(** *** Counters, channels and wrappers *)
Lemma deref_update r f s r' :
  deref r' (update_state r f s) = if decide (r = r') then f <$> deref r s else deref r' s.
Proof.
  unfold update_state, deref. destruct (s_store s !! r) as [rs|] eqn:E; cbn.
  - destruct (decide (r = r')) as [<-|]; [by rewrite lookup_insert_eq|by rewrite lookup_insert_ne].
  - destruct (decide (r = r')) as [<-|]; by rewrite ?E.
Qed.

Lemma guarded_update r f s r' : guarded_of r' (update_state r f s) = guarded_of r' s.
Proof.
  unfold update_state, guarded_of. destruct (s_store s !! r) as [rs|] eqn:E; cbn; [|done].
  destruct (decide (r = r')) as [<-|]; [by rewrite lookup_insert_eq, E|by rewrite lookup_insert_ne].
Qed.

Lemma update_agree r f s mu : s_agree mu s (update_state r f s).
Proof.
  destruct mu as [| | |r']; [unfold update_state; by destruct (s_store s !! r)..|]. cbn.
  by rewrite guarded_update.
Qed.

Lemma within_update o w r f : within o w (modify (update_state r f)).
Proof.
  apply (within_step o w (fun s => (tt, update_state r f s))); cbn.
  - intros s1 s2 Hr Ho. split_and!; [done| |].
    + constructor; [unfold update_state; destruct Hr, (s_store s1 !! r), (s_store s2 !! r); cbn; done..| | |].
      * intros r'. rewrite !deref_update, (ar_states _ _ Hr r). case_decide; [done|]. apply Hr.
      * unfold update_state. destruct Hr, (s_store s1 !! r), (s_store s2 !! r); done.
      * unfold update_state. destruct Hr, (s_store s1 !! r), (s_store s2 !! r); done.
    + intros mu Hmu. etrans; [symmetry; apply (update_agree r f s1 mu)|]. etrans; [by apply Ho|].
      apply update_agree.
  - intros s Hok r' Hr'. replace (s_next (update_state r f s)) with (s_next s)
      by (unfold update_state; by destruct (s_store s !! r)).
    apply Hok. unfold update_state in Hr'. destruct (s_store s !! r) eqn:E; [|done]. cbn in Hr'.
    destruct (decide (r = r')) as [<-|]; [done|by rewrite lookup_insert_ne in Hr'].
  - intros s mu. symmetry. exact (agree_present mu _ _ (update_agree r f s mu)).
  - intros s mu _. apply update_agree.
Qed.

Lemma within_close_old o w ready : within o w (close_old ready).
Proof.
  intros s1 s2 t Hok Hr Ho. unfold close_old. rewrite (ar_chans _ _ Hr).
  assert (forall h, s_agree_rest (set_store (s_store s1) h s1) (set_store (s_store s2) h s2)) as Hr'.
  { intros h. destruct Hr. by constructor. }
  assert (forall mu, s_present mu s1 = false -> s_agree mu s1 s2) as Habs.
  { intros mu. by apply s_absent. }
  destruct (close_ready ready (s_chans s2)) as [h|].
  - split_and!; try done; [by exists []; rewrite app_nil_r|by apply Hr'|..].
    + by intros [] _ _.
    + intros mu _ Hp. specialize (Habs mu Hp). by destruct mu.
  - split_and!; try done; [by eexists|]. intros mu _ Hp. by apply Habs.
Qed.

(** A new value for the guarded part of the wrapper [r]. *)
Definition set_guarded (r : nat) (rs : ResumableStream) (g : guarded) (h : chans) s : Session :=
  set_store (<[r := mkRS (rs_state rs) g]> (s_store s)) h s.

Lemma deref_guarded r rs g h s r' :
  s_store s !! r = Some rs -> deref r' (set_guarded r rs g h s) = deref r' s.
Proof.
  unfold deref, set_guarded. cbn. intros E.
  destruct (decide (r = r')) as [<-|]; [by rewrite lookup_insert_eq, E|].
  by rewrite lookup_insert_ne.
Qed.

Lemma guarded_agree r rs g h s mu : mu <> WrapperMu r -> s_agree mu s (set_guarded r rs g h s).
Proof.
  destruct mu as [| | |r']; try done. cbn. unfold guarded_of, set_guarded. cbn. intros Hne.
  by rewrite lookup_insert_ne by congruence.
Qed.

(** A section of a wrapper's mutex. *)
Definition wrapper_section {B : Type} (r : nat) (b0 : B)
    (f : ResumableStream -> chans -> B * option (guarded * chans) * trace) : Eff Session B :=
  fun '(s, t) =>
    match s_store s !! r with
    | None => (b0, (s, t))
    | Some rs =>
        match f rs (s_chans s) with
        | (b, Some (g, h), ext) => (b, (set_guarded r rs g h s, t ++ ext))
        | (b, None, ext) => (b, (s, t ++ ext))
        end
    end.

Lemma within_wrapper {B : Type} r (b0 : B) f : within (Some (WrapperMu r)) true (wrapper_section r b0 f).
Proof.
  intros s1 s2 t Hok Hr Ho. specialize (Ho (WrapperMu r) eq_refl).
  assert (forall mu, s_present mu s1 = false -> s_agree mu s1 s2) as Habs.
  { intros mu. by apply s_absent. }
  unfold wrapper_section. rewrite (store_seen s1 s2 r Hr Ho), (ar_chans _ _ Hr).
  pose proof (store_seen s1 s2 r Hr Ho) as E1.
  destruct (s_store s2 !! r) as [rs|] eqn:E2; [destruct (f rs (s_chans s2)) as [[b [[g h]|]] ext]|].
  - split_and!; try done; [by eexists|..].
    + intros r' Hr'. cbn. apply Hok. unfold set_guarded in Hr'. cbn in Hr'.
      destruct (decide (r = r')) as [<-|]; [by rewrite E1|by rewrite lookup_insert_ne in Hr'].
    + constructor; cbn; try apply Hr; [|done]. intros r'. rewrite !deref_guarded by done. apply Hr.
    + intros mu Hp. rewrite <- Hp. destruct mu as [| | |r']; try done. apply deref_present.
      by apply deref_guarded.
    + intros mu [= <-]. cbn. unfold guarded_of, set_guarded. cbn. by rewrite !lookup_insert_eq.
    + intros mu [Hne|?] _; [|done]. split; apply guarded_agree; congruence.
    + intros mu Hne Hp. etrans; [symmetry; apply guarded_agree; congruence|]. etrans; [by apply Habs|].
      apply guarded_agree. congruence.
  - split_and!; try done; [by eexists|by intros mu [= <-]|]. intros mu _. apply Habs.
  - split_and!; try done; [by exists []; rewrite app_nil_r|by intros mu [= <-]|]. intros mu _. apply Habs.
Qed.

Lemma within_abandon r : within (Some (WrapperMu r)) true (rs_markAbandoned r).
Proof.
  apply (within_ext _ _ (wrapper_section r tt (fun rs h =>
    match markAbandoned (rs_guarded rs) h with
    | None => (tt, None, [EvPanic])
    | Some gh => (tt, Some gh, [])
    end))); [|apply within_wrapper].
  intros s t. unfold wrapper_section, rs_markAbandoned. destruct (s_store s !! r) as [rs|]; [|done].
  destruct (markAbandoned (rs_guarded rs) (s_chans s)) as [[g h]|]; [|done]. by rewrite app_nil_r.
Qed.

Lemma within_swap r st : within (Some (WrapperMu r)) true (swap_locked r st).
Proof.
  apply (within_ext _ _ (wrapper_section r None (fun rs h =>
    let '(old, gh) := swap_section st (rs_guarded rs) h in (Some old, Some gh, []))));
      [|apply within_wrapper].
  intros s t. unfold wrapper_section, swap_locked. destruct (s_store s !! r) as [rs|]; [|done].
  destruct (swap_section st (rs_guarded rs) (s_chans s)) as [old [g h]]. by rewrite app_nil_r.
Qed.

Lemma within_inner r : within (Some (WrapperMu r)) false (gets (inner_of r)).
Proof.
  apply (within_read _ _ (inner_of r)). intros s1 s2 Hr Ho. unfold inner_of.
  by rewrite (store_seen s1 s2 r Hr (Ho _ eq_refl)).
Qed.

(** The new wrapper is nobody's yet. *)
Lemma within_wrap id st : within (Some Mu) true (wrapStream id st).
Proof.
  intros s1 s2 t Hok Hr Ho. destruct (Ho Mu eq_refl) as (Hh & Hst & Htls).
  unfold wrapStream. rewrite <- (ar_chans _ _ Hr), <- (ar_next _ _ Hr).
  destruct (new_guarded st (s_chans s1)) as [g h] eqn:Eg.
  assert (s_store s1 !! s_next s1 = None) as Hnew1.
  { apply eq_None_not_Some. intros H%Hok. lia. }
  assert (forall r, is_Some (s_store s1 !! r) -> r <> s_next s1) as Hold by (intros r H%Hok; lia).
  split_and!; try done; cbn.
  - exists []. by rewrite app_nil_r.
  - intros r. cbn. destruct (decide (r = s_next s1)) as [->|Hne]; [lia|].
    rewrite lookup_insert_ne by done. intros H%Hok. lia.
  - constructor; cbn; try apply Hr; try done.
    intros r. unfold deref. cbn. destruct (decide (s_next s1 = r)) as [<-|Hne].
    + by rewrite !lookup_insert_eq.
    + rewrite !lookup_insert_ne by done. apply Hr.
  - intros [| | |r]; try done. cbn. rewrite !bool_decide_eq_true. intros Hr'.
    rewrite lookup_insert_ne by (by apply not_eq_sym, Hold). done.
  - intros mu [= <-]. cbn. split_and!; congruence.
  - intros [| | |r] [Hmu|?] Hp; try done. cbn in *. apply bool_decide_eq_true in Hp. unfold guarded_of. cbn.
    rewrite !lookup_insert_ne by (by apply not_eq_sym, Hold). done.
  - intros [| | |r] Hmu Hp; try done. cbn in *. apply bool_decide_eq_false, eq_None_not_Some in Hp.
    unfold guarded_of. cbn. destruct (decide (s_next s1 = r)) as [<-|Hne].
    + by rewrite !lookup_insert_eq.
    + rewrite !lookup_insert_ne by done. rewrite Hp.
      pose proof (ar_states _ _ Hr r) as Hd. unfold deref in Hd. rewrite Hp in Hd.
      by destruct (s_store s2 !! r).
Qed.

(** *** Sections statement by statement *)

(** [rs, ok := s.streams[id]; delete(s.streams, id)]. *)
Definition forget_steps (id : Z) : body (S := Session) (option nat) :=
  Loc (fun s => (s_streams s !! id, s)) (fun r =>
  Loc (fun s => (tt, set_streams (delete id (s_streams s)) s)) (fun _ => Ret r)).

Lemma forget_decomposes id : decomposes Mu true (forget_section id) (forget_steps id).
Proof.
  split; [|done]. cbn. split; [|intros r; split; [|done]]; intros s1 s2 _ (Eh & Es & Et); cbn in *.
  - rewrite Es. split_and!; done.
  - split_and!; try done; [congruence|]. intros [| | |r'] [?|?]; done.
Qed.

(** A statement on the guarded fields of the wrapper [r]. *)
Definition on_guarded {B : Type} (r : nat) (d : B) (f : guarded -> B * guarded) s : B * Session :=
  match s_store s !! r with
  | None => (d, s)
  | Some rs => let '(b, g) := f (rs_guarded rs) in (b, set_guarded r rs g (s_chans s) s)
  end.

Lemma local_guarded {B : Type} r (d : B) f : local (WrapperMu r) true (on_guarded r d f).
Proof.
  intros s1 s2 Hp Ha. cbn in Hp, Ha. apply bool_decide_eq_true in Hp as [rs1 E1].
  unfold on_guarded, guarded_of in *.
  rewrite E1 in Ha |- *. destruct (s_store s2 !! r) as [rs2|]; [|done]. cbn in Ha. injection Ha as ->.
  destruct (f (rs_guarded rs2)) as [b g]. split_and!; [done|..].
  - cbn. unfold guarded_of, set_guarded. cbn. by rewrite !lookup_insert_eq.
  - constructor; try done. intros r'. by rewrite deref_guarded.
  - intros mu [Hne|?]; [|done]. by apply guarded_agree.
Qed.

(** [make(chan struct{})]. *)
Definition new_chan : Eff Session nat :=
  fun '(s, t) => let '(c, h) := make_chan (s_chans s) in (c, (set_store (s_store s) h s, t)).

Lemma within_new_chan o w : within o w new_chan.
Proof.
  apply (within_step o w (fun s => let '(c, h) :=
    make_chan (s_chans s) in (c, set_store (s_store s) h s))); cbn.
  - intros s1 s2 Hr Ho. rewrite (ar_chans _ _ Hr). split_and!; [done| |].
    + destruct Hr. by constructor.
    + intros mu Hmu. specialize (Ho mu Hmu). by destruct mu.
  - by intros s Hok.
  - by intros s [].
  - by intros s [] _.
Qed.

Definition swap_steps (r : nat) (st : stream) : body (S := Session) (option (stream * option nat)) :=
  Loc (on_guarded r st (fun g => (g_inner g, g))) (fun old =>
  Loc (on_guarded r tt (fun g => (tt, mkGuarded st (g_resumeReady g) (g_abandoned g)))) (fun _ =>
  Loc (on_guarded r None (fun g => (g_resumeReady g, g))) (fun oldReady =>
  Glob new_chan (fun c =>
  Loc (on_guarded r tt (fun g => (tt, mkGuarded (g_inner g) (Some c) (g_abandoned g)))) (fun _ =>
  Ret (Some (old, oldReady))))))).

Lemma on_guarded_eq {B : Type} r rs (d : B) f s :
  s_store s !! r = Some rs ->
  on_guarded r d f s = (fst (f (rs_guarded rs)), set_guarded r rs (snd (f (rs_guarded rs))) (s_chans s) s).
Proof. intros E. unfold on_guarded. rewrite E. by destruct (f (rs_guarded rs)). Qed.

Lemma swap_decomposes r st : decomposes (WrapperMu r) true (swap_locked r st) (swap_steps r st).
Proof.
  split.
  - cbn. do 3 (split; [apply local_guarded|intros ?]). split; [done|]. split; [apply within_new_chan|].
    intros ch. by split; [apply local_guarded|].
  - intros s t Hp. cbn in Hp. apply bool_decide_eq_true in Hp as [rs E]. unfold swap_steps, swap_locked.
    rewrite E. cbn [run]. rewrite (on_guarded_eq r rs) by done. cbn [fst snd].
    rewrite (on_guarded_eq r rs) by (cbn; rewrite lookup_insert_eq; by destruct rs). cbn [fst snd].
    erewrite on_guarded_eq by (cbn; by rewrite lookup_insert_eq). cbn [fst snd].
    unfold mbind, new_chan. cbn [make_chan set_guarded set_store s_chans s_store].
    erewrite on_guarded_eq by (cbn; by rewrite lookup_insert_eq). cbn.
    unfold mret, set_guarded, set_store. cbn. by rewrite !insert_insert_eq.
Qed.

(** *** Reading fields *)
Lemma within_gets {B : Type} (f : Session -> B) :
  (forall s1 s2, s_agree_rest s1 s2 -> f s1 = f s2) -> within None false (gets f).
Proof. intros Hf. apply (within_read _ _ f). intros s1 s2 Hr _. by apply Hf. Qed.

Lemma within_deref r : within None false (gets (deref r)).
Proof. apply within_gets. intros s1 s2 Hr. apply Hr. Qed.

Lemma within_held rs : within None false (gets (held_ref rs)).
Proof.
  apply within_gets. intros s1 s2 Hr. unfold held_ref. destruct rs as [r|]; [|done].
  by rewrite (ar_states _ _ Hr r).
Qed.

Lemma within_id r : within None false (gets (wrapper_id r)).
Proof.
  apply within_gets. intros s1 s2 Hr. pose proof (ar_states _ _ Hr r) as Hd. unfold deref, wrapper_id in *.
  destruct (s_store s1 !! r), (s_store s2 !! r); cbn in Hd; congruence.
Qed.

Lemma within_gets_mu {B : Type} (f : Session -> B) :
  (forall s1 s2, s_agree Mu s1 s2 -> f s1 = f s2) -> within (Some Mu) false (gets f).
Proof. intros Hf. apply (within_read _ _ f). intros s1 s2 _ Ho. apply Hf, (Ho Mu eq_refl). Qed.

Lemma within_gets_p2p {B : Type} (f : Session -> B) :
  (forall s1 s2, s_p2p s1 = s_p2p s2 -> f s1 = f s2) -> within (Some P2pMu) true (gets f).
Proof.
  intros Hf. apply (within_read _ _ f). intros s1 s2 Hr Ho.
  apply Hf, p2p_seen; [done|]. by apply (Ho P2pMu).
Qed.

(** The keys of a map that [mu] guards, in some order. *)
Lemma within_keys {A : Type} (f : Session -> list A) :
  (forall s1 s2, s_agree Mu s1 s2 -> f s1 = f s2) ->
  within (Some Mu) false (do s <- get ;; map_order (f s))%agent.
Proof.
  intros Hf. apply (within_ext _ _ (mbind (gets f) map_order)); [done|].
  apply within_bind; [by apply within_gets_mu|]. intros l. apply within_stateless. intros t.
  exists (net_order A t l), []. intros s. by rewrite app_nil_r.
Qed.

(** *** The sections of the session *)
Lemma within_handlers name h :
  within (Some Mu) true (modify (fun s => set_handlers (<[name := h]> (s_handlers s)) s)).
Proof.
  eapply within_ext; [|apply (within_mu (fun hs sts tls => (tt, (<[name := h]> hs, sts, tls))))].
  by intros [] t.
Qed.

Lemma within_tls c : within (Some Mu) true (modify (SetForwardServerTLS c)).
Proof. eapply within_ext; [|apply (within_mu (fun hs sts tls => (tt, (hs, sts, c))))]. by intros [] t. Qed.

Lemma within_forget id : within (Some Mu) true (forget_section id).
Proof.
  eapply within_ext; [|apply (within_mu (fun hs sts tls => (sts !! id, (hs, delete id sts, tls))))].
  by intros [] t.
Qed.

Lemma within_modify_p2p (f : P2P -> P2P) :
  within (Some P2pMu) true (modify (fun s => set_p2p (f (s_p2p s)) s)).
Proof. eapply within_ext; [|apply (within_p2p (fun p => (tt, f p)))]. by intros [] t. Qed.

Lemma within_register_mode id : within (Some P2pMu) true (register_mode id).
Proof. apply (within_modify_p2p (fun p => snd (RegisterStreamModeWaiter id p))). Qed.

Lemma within_cancel_mode id : within (Some P2pMu) true (cancel_mode id).
Proof. apply (within_modify_p2p (CancelStreamModeWaiter id)). Qed.

Lemma within_apply o : within (Some P2pMu) true (apply_p2p o).
Proof. apply (within_modify_p2p (apply_op o)). Qed.

Lemma within_take id : within (Some P2pMu) true (take_answer id).
Proof.
  eapply within_ext; [|apply (within_p2p (fun p =>
    match mlookup (pendingAnswers p) id with
    | None => (None, p)
    | Some ch => (Some ch, mkP2P (mdelete (pendingAnswers p) id) (pendingMode p) (localCandidates p)
                              (p2pEnabled p) (p2pCtx p) (abufs p) (mbufs p) (nextbuf p))
    end))].
  intros s t. unfold take_answer. destruct (mlookup _ _); [done|]. by rewrite set_p2p_id.
Qed.

Lemma within_enable ctx : within (Some P2pMu) true (enable_section ctx).
Proof. eapply within_ext; [|apply (within_p2p (EnableP2P ctx))]. by intros [] t. Qed.

Lemma within_register id : within (Some P2pMu) true (register_answer id).
Proof.
  eapply within_ext; [|apply (within_p2p (fun p =>
    match registerAnswerWaiter id p with Some (ch, p) => (Some ch, p) | None => (None, p) end))].
  intros s t. unfold register_answer. destruct (registerAnswerWaiter _ _) as [[ch p]|]; [done|].
  by rewrite set_p2p_id.
Qed.

(** *** Channels of waiters *)
Lemma set_bufs_id s : set_bufs (abufs (s_p2p s)) (mbufs (s_p2p s)) s = s.
Proof. by destruct s as [? ? ? ? ? ? ? ? [] ? ? ?]. Qed.

Lemma within_send_answer ch a : within None false (send_answer ch a).
Proof.
  eapply within_ext; [|apply (within_bufs None false (fun x y => (tt, (try_send ch a x, y))))].
  by intros [] t.
Qed.

Lemma within_send_mode ch n : within None false (send_mode ch n).
Proof.
  eapply within_ext; [|apply (within_bufs None false (fun x y => (tt, (x, try_send ch n y))))].
  by intros [] t.
Qed.

Lemma within_receive_mode ch b : within None false (receive_mode ch b).
Proof.
  eapply within_ext; [|apply (within_bufs None false (fun x y =>
    if b then (Some None, (x, y))
    else match y !! ch with
         | Some (n :: rest) => (Some n, (x, <[ch := rest]> y))
         | _ => (None, (x, y))
         end))].
  intros s t. unfold receive_mode, receiveMode. destruct b; [by rewrite set_bufs_id, set_p2p_id|].
  destruct (mbufs (s_p2p s) !! ch) as [[|n rest]|]; by rewrite ?set_bufs_id.
Qed.

Lemma within_receive_answer ch cd : within None false (receive_answer ch cd).
Proof.
  eapply within_ext; [|apply (within_bufs None false (fun x y =>
    match cd with
    | Some e => (Some (Err e), (x, y))
    | None => match x !! ch with
         | Some (a :: rest) => (Some (Ok (Some a)), (<[ch := rest]> x, y))
         | _ => (None, (x, y))
         end
    end))].
  intros s t. unfold receive_answer, recvAnswer. destruct cd; [by rewrite set_bufs_id, set_p2p_id|].
  destruct (abufs (s_p2p s) !! ch) as [[|n rest]|]; by rewrite ?set_bufs_id.
Qed.

Lemma within_recv_op ch cd : within None false (apply_p2p (OpRecvAnswer ch cd)).
Proof.
  eapply within_ext; [|apply (within_bind _ _ _ (fun _ => mret tt) (within_receive_answer ch cd))].
  - intros s t. unfold mbind, receive_answer, apply_p2p, modify. cbn.
    destruct (recvAnswer _ _ _) as [[[a|e] p]|]; [done..|]. by rewrite set_p2p_id.
  - intros _. apply within_stateless, stateless_ret.
Qed.

(** *** The transport's fields *)
Lemma within_SwapConn c : within None false (modify (SwapConn c)).
Proof.
  eapply within_ext; [|apply (within_transport None false (fun _ => c) s_ctrl s_reconnecting)].
  - intros [] t. done.
  - intros s s' []. done.
Qed.

Lemma within_set_ctrl ct : within None false (modify (set_ctrl ct)).
Proof.
  eapply within_ext; [|apply (within_transport None false s_conn (fun _ => ct) s_reconnecting)].
  - intros [] t. done.
  - intros s s' []. done.
Qed.

Lemma within_reconnecting b : within None false (modify (set_reconnecting b)).
Proof.
  eapply within_ext; [|apply (within_transport None false s_conn s_ctrl (fun _ => b))].
  - intros [] t. done.
  - intros s s' []. done.
Qed.
End Mutexes.

Create HintDb within.
#[export] Hint Resolve within_update within_close_old within_abandon within_swap within_inner within_wrap
  within_deref within_held within_id within_handlers within_tls within_forget within_register_mode
  within_cancel_mode within_apply within_take within_enable within_register within_send_answer within_send_mode
  within_receive_mode within_receive_answer within_recv_op within_SwapConn within_set_ctrl
  within_reconnecting : within.
Create HintDb neat.

(** Calls on the outside world. *)
Ltac outside_call :=
  repeat first
    [ apply stateless_ret
    | apply stateless_bind; [|intros ?]
    | match goal with |- stateless (match ?x with _ => _ end) => destruct x end
    | solve [intros ?; eexists _, _; intros ?; reflexivity]
    | solve [intros ?; eexists _, []; intros ?; rewrite app_nil_r; reflexivity] ].

Ltac reads := intros ? ? []; try done; congruence.

Ltac well_guarded :=
  first
    [ solve [auto with within]
    | solve [apply within_gets; reads]
    | solve [apply within_gets_mu; intros ? ? (? & ? & ?); unfold forwardTLS; congruence]
    | solve [apply within_gets_p2p; intros ? ? E; by rewrite E]
    | solve [apply within_keys; intros ? ? (? & ? & ?); congruence]
    | solve [apply within_stateless; auto with within; outside_call] ].

(** Walk a program. *)
Ltac neatly :=
  repeat match goal with
    | |- neat (Done _) => apply neat_done
    | |- neat (Go _ _ _) => apply neat_go
    | |- neat (pbind _ _) => apply neat_bind; [|intros ?]
    | |- neat (call Plain _) => apply neat_act; well_guarded
    | |- neat (call (Locked _) _) => apply neat_locked; well_guarded
    | |- neat (call (RLocked _) _) => apply neat_rlocked; well_guarded
    | |- neat _ => solve [auto with neat]
    | |- neat (match ?x with _ => _ end) => destruct x
    end.

Section Programs.
Context `{N : Net} `{L : ResumeLib}.

Lemma stateless_write st p : stateless (Stream_Write (S := Session) st p).
Proof. intros t. unfold Stream_Write. destruct (net_write t st p) as [n e]. by eexists _, _. Qed.

Lemma stateless_acquire k : stateless (acquire (S := Session) k).
Proof. intros t. unfold acquire. destruct (net_acquire t k); by eexists _, _. Qed.
#[local] Hint Resolve stateless_write stateless_acquire : within.

Lemma stateless_FwdDial relay a b : stateless (Dial (S := Session) relay a b).
Proof. unfold Dial, register. outside_call; auto with within. Qed.
#[local] Hint Resolve stateless_FwdDial : within.

Lemma stateless_AcceptForward g : stateless (AcceptForward (S := Session) g).
Proof. unfold AcceptForward, new_transport. outside_call; auto with within. Qed.

Lemma stateless_DialForward g : stateless (DialForward (S := Session) g).
Proof. unfold DialForward, new_transport. outside_call; auto with within. Qed.

Lemma stateless_ForwardClose f : stateless (ForwardSession_Close (S := Session) f).
Proof.
  unfold ForwardSession_Close, fwdQuicStream_Close, fwdQuicConn_Close.
  outside_call; auto with within.
Qed.
#[local] Hint Resolve stateless_AcceptForward stateless_DialForward stateless_ForwardClose : within.

Lemma neat_Expose name la h : neat (p_Expose name la h).
Proof. unfold p_Expose. neatly. Qed.

Lemma neat_forgetStream id : neat (p_forgetStream id).
Proof. unfold p_forgetStream. neatly. Qed.
#[local] Hint Resolve neat_Expose neat_forgetStream : neat.

Lemma neat_Close r : neat (p_Close r).
Proof. unfold p_Close. neatly. Qed.

Lemma neat_SwapInner r st : neat (p_SwapInner r st).
Proof. unfold p_SwapInner. neatly. Qed.

Lemma neat_freshStreamID fuel target method : neat (p_freshStreamID fuel target method).
Proof. induction fuel; cbn [p_freshStreamID]; neatly. Qed.
#[local] Hint Resolve neat_Close neat_SwapInner neat_freshStreamID : neat.

Lemma neat_Dial fuel target method : neat (p_Dial fuel target method).
Proof. unfold p_Dial. neatly. Qed.

(** [ctrlWriteMu] is held across the write. *)
Lemma neat_writeCtrl typ m : neat (p_writeCtrl typ m).
Proof.
  apply (neat_stretch CtrlWriteMu (let! ct <- act (gets s_ctrl) ; act (WriteFrame ct typ m))
    (fun w => Done match w with Ok _ => None | Err e => Some e end)); [|done|done].
  apply disciplined_bind; [|intros ct]; (split; [|done]); unfold obeys; cbn; well_guarded.
Qed.

Lemma neat_swap_transport c ct : neat (p_swap_transport c ct).
Proof.
  apply (neat_stretch CtrlWriteMu (run! act (modify (SwapConn c)) ; act (modify (set_ctrl ct))) Done);
    [|done|done].
  apply disciplined_bind; [|intros _]; (split; [|done]); unfold obeys; cbn; well_guarded.
Qed.
#[local] Hint Resolve neat_Dial neat_writeCtrl neat_swap_transport : neat.

Lemma neat_deliverAnswer a : neat (p_deliverAnswer a).
Proof. unfold p_deliverAnswer. neatly. Qed.

Lemma neat_deliverMode id n : neat (p_deliverMode id n).
Proof. unfold p_deliverMode. neatly. Qed.

Lemma neat_completeResume r st : neat (p_completeResume r st).
Proof. unfold p_completeResume. neatly. Qed.
#[local] Hint Resolve neat_deliverAnswer neat_deliverMode neat_completeResume : neat.

Lemma neat_Resume r : neat (p_Resume r).
Proof. unfold p_Resume. neatly. Qed.
#[local] Hint Resolve neat_Resume : neat.

Lemma neat_resume_all l : neat (p_resume_all l).
Proof. induction l; cbn [p_resume_all]; neatly. Qed.

Lemma neat_redial d uri addrs e : neat (p_redial d uri addrs e).
Proof. revert e. induction addrs; intros e; cbn [p_redial]; neatly. Qed.

Lemma neat_reregister names : neat (p_reregister names).
Proof. induction names; cbn [p_reregister]; neatly. Qed.
#[local] Hint Resolve neat_resume_all neat_redial neat_reregister : neat.

Lemma neat_Reconnect addrs : neat (p_Reconnect addrs).
Proof. unfold p_Reconnect. destruct addrs; neatly. Qed.

Lemma neat_receive polls ch : neat (p_receive polls ch).
Proof. induction polls; cbn [p_receive]; neatly. Qed.

Lemma neat_punch_loop sock cands : neat (p_punch_loop sock cands).
Proof. induction cands; cbn [p_punch_loop]; neatly. Qed.
#[local] Hint Resolve neat_Reconnect neat_receive neat_punch_loop : neat.

Lemma neat_wait_mode polls id : neat (p_wait_mode polls id).
Proof. unfold p_wait_mode. neatly. Qed.

Lemma neat_control_frame f : neat (p_control_frame f).
Proof. unfold p_control_frame, p_warmupPunch. neatly. Qed.
#[local] Hint Resolve neat_wait_mode neat_control_frame : neat.

Lemma neat_controlReader fuel : neat (p_controlReader fuel).
Proof. induction fuel; cbn [p_controlReader]; neatly. Qed.

Lemma neat_emit_states l : neat (p_emit_states l).
Proof. induction l; cbn [p_emit_states]; neatly. Qed.
#[local] Hint Resolve neat_controlReader neat_emit_states : neat.

Lemma neat_emitCheckpoints fuel period : neat (p_emitCheckpoints fuel period).
Proof. induction fuel; cbn [p_emitCheckpoints]; unfold p_emitOnce; neatly. Qed.

Lemma neat_MigrateToDirect r c : neat (p_MigrateToDirect r c).
Proof. unfold p_MigrateToDirect. neatly. Qed.

Lemma neat_handleDirectStream st : neat (p_handleDirectStream st).
Proof. unfold p_handleDirectStream. neatly. Qed.

#[local] Hint Resolve neat_handleDirectStream : neat.

Lemma neat_acceptDirectStreams fuel c : neat (p_acceptDirectStreams fuel c).
Proof. induction fuel; cbn [p_acceptDirectStreams]; neatly. Qed.
#[local] Hint Resolve neat_acceptDirectStreams : neat.

Lemma neat_AcceptDirect fuel ln : neat (p_AcceptDirect fuel ln).
Proof. induction fuel; cbn [p_AcceptDirect]; neatly. Qed.

Lemma neat_recv_answer polls ch : neat (p_recv_answer polls ch).
Proof. induction polls; cbn [p_recv_answer]; neatly. Qed.

Lemma neat_check_loop eng locals l : neat (p_check_loop eng locals l).
Proof. induction l; cbn [p_check_loop]; neatly. Qed.
#[local] Hint Resolve neat_emitCheckpoints neat_MigrateToDirect neat_AcceptDirect neat_recv_answer
  neat_check_loop : neat.

Lemma neat_tryPromote polls r eng ifs : neat (p_tryPromote polls r eng ifs).
Proof. unfold p_tryPromote, p_Promote, p_locals, p_Promoter_Run. neatly. Qed.

Lemma neat_p2p_op o : neat (p_p2p_op o).
Proof. destruct o; cbn [p_p2p_op]; neatly. Qed.

Lemma neat_serve r st b g : neat (p_serve r st b g).
Proof. unfold p_serve, p_bridge_wrapped. neatly. Qed.
#[local] Hint Resolve neat_tryPromote neat_p2p_op neat_serve : neat.

Lemma neat_handleIncoming polls st : neat (p_handleIncoming polls st).
Proof. unfold p_handleIncoming. neatly. Qed.
#[local] Hint Resolve neat_handleIncoming : neat.

Lemma neat_Run polls fuel : neat (p_Run polls fuel).
Proof. induction fuel; cbn [p_Run]; neatly. Qed.

Lemma neat_goroutine {A : Type} (p : prog Session A) : neat p -> neat (goroutine p).
Proof. intros Hp. unfold goroutine. neatly. Qed.
#[local] Hint Resolve neat_Run neat_goroutine : neat.

Lemma neat_reconnect_loop fuel addrs b : neat (p_reconnect_loop fuel addrs b).
Proof. revert b. induction fuel; intros b; cbn [p_reconnect_loop]; neatly. Qed.
#[local] Hint Resolve neat_reconnect_loop : neat.

Lemma neat_RunWithReconnect polls fuel addrs : neat (p_RunWithReconnect polls fuel addrs).
Proof. induction fuel; cbn [p_RunWithReconnect]; neatly. Qed.
#[local] Hint Resolve neat_RunWithReconnect : neat.

Lemma neat_call c : neat (p_call c).
Proof.
  destruct c; cbn [p_call]; unfold when_wrapper, p_CloseWrite, p_StartResume, p_EnableP2P; neatly.
Qed.
#[local] Hint Resolve neat_call : neat.

Lemma neat_calls cs : neat (p_calls cs).
Proof. induction cs; cbn [p_calls]; neatly. Qed.

Lemma neat_consume_conn fuel polls local svc tls eng ifs w :
  neat (p_consume_conn fuel polls local svc tls eng ifs w).
Proof. unfold p_consume_conn. neatly. Qed.
(** ** The agent's goroutines

    Goroutines that make session calls, and one per intercepted
    connection. *)
Inductive agent_program : prog Session unit -> Prop :=
  | serves cs : agent_program (p_calls cs)
  | consumes fuel polls local svc tls eng ifs wait :
      agent_program (goroutine (p_consume_conn fuel polls local svc tls eng ifs wait)).

Lemma agent_neat ps : Forall agent_program ps -> Forall neat ps.
Proof.
  intros Hp. eapply Forall_impl; [exact Hp|]. intros p [cs|fuel polls local svc tls eng ifs wait].
  - apply neat_calls.
  - apply neat_goroutine, neat_consume_conn.
Qed.

Definition agents (ps : list (prog Session unit)) (s : Session) : config Session := mkConfig ps s [].

Lemma agents_start gs s : Forall agent_program (c_threads (start gs s)).
Proof. apply Forall_fmap, Forall_true. intros cs. apply serves. Qed.

Lemma agents_in_order ps s :
  Forall agent_program ps -> in_order (outside (agents ps s)) (replicate (length ps) None).
Proof. intros Hp. by apply in_order_start, agent_neat. Qed.

Lemma agents_sim ps s :
  Forall agent_program ps -> session_wf s -> sim (outside (agents ps s)) (agents ps s).
Proof.
  intros Hp%agent_neat Hwf. apply sim_start; [exact (swf_next s Hwf)|].
  eapply Forall_impl; [exact Hp|]. by intros p [? _].
Qed.
End Programs.

(** ** Properties *)

(** C5. Critical sections are atomic: for any goroutines of the agent, every
    execution in which sections are entered by acquiring their mutex, are run
    in any number of steps with the others stepping in between, and are left
    by releasing it, makes the calls of an execution in which each section is
    one step; when nobody is in a section threads and state are the same too;
    and never are two goroutines in sections of one mutex unless both only
    read. *)
Theorem sections_are_atomic `{N : Net} `{L : ResumeLib} ps s l :
  Forall agent_program ps -> session_wf s -> rtc lstep (outside (agents ps s)) l ->
  (exists c, rtc cstep (agents ps s) c /\ l_log l = c_log c /\
     (Forall (fun th => exists p, th = Out p) (l_threads l) ->
        l_threads l = map Out (c_threads c) /\ l_state l = c_state c)) /\
  forall i j th th' mu, l_threads l !! i = Some th -> l_threads l !! j = Some th' -> i <> j ->
    writer mu th -> ~ holds mu th'.
Proof.
  intros Hp Hwf Hs. destruct (sim_steps _ _ _ (agents_sim ps s Hp Hwf) Hs) as (c & Hc & Hsim).
  split; [|apply Hsim]. exists c. split_and!; [done|apply Hsim|].
  intros Hq. by destruct (sim_quiet l c Hsim Hq) as (? & ? & _).
Qed.


(** With mutexes too nobody panics, and whenever nobody is in a section the
    session is well formed and has lost no stream. *)
Theorem mutex_session_invariant `{N : Net} `{Sp : ResumeSpec} gs s l :
  MapOrder N -> session_wf s -> rtc lstep (outside (start gs s)) l ->
  (EvPanic ∉ l_trace l) /\
  (Forall (fun th => exists p, th = Out p) (l_threads l) ->
     session_wf (l_state l) /\ evolves s (l_state l)).
Proof.
  intros HN Hwf Hs. destruct (sim_steps _ _ _ (agents_sim _ s (agents_start gs s) Hwf) Hs) as (c & Hc & Hsim).
  destruct (start_invariant gs s c HN Hwf Hc) as (Hwf' & He & Hp). split.
  - by rewrite (sim_trace l c Hsim).
  - intros Hq. by destruct (sim_quiet l c Hsim Hq) as (_ & -> & _).
Qed.

(** Goroutine 0 forgets stream 7, statement by statement; goroutine 1 closes
    the connection while 0 has looked the stream up and not deleted it. *)
Definition demo_agents `{N : Net} : list (prog (@Session Ring.lib) unit) :=
  map (p_calls (L := Ring.lib)) [[CForget 7]; [CReconnect ["r:1"]]].

Lemma demo_agents_ok `{N : Net} : Forall (agent_program (L := Ring.lib)) demo_agents.
Proof. apply Forall_fmap, Forall_true. intros cs. apply serves. Qed.

Lemma sections_are_atomic_witness :
  let N := demo_net demo_frames in
  exists l, rtc lstep (outside (agents demo_agents demo_session)) l /\
    (exists th, l_threads l !! 0%nat = Some th /\ writer Mu th) /\
    l_log l = [(1%nat, EvConnClose (s_conn demo_session))] /\
    exists c, rtc cstep (agents demo_agents demo_session) c /\ l_log l = c_log c.
Proof.
  intros N.
  assert (exists l, rtc lstep (outside (agents demo_agents demo_session)) l /\
    (exists th, l_threads l !! 0%nat = Some th /\ writer Mu th) /\
    l_log l = [(1%nat, EvConnClose (s_conn demo_session))]) as (l & Hs & Hth & Hl).
  { eexists. split; [|split].
    - eapply rtc_l.
      { exists 0%nat. eapply l_enter; [reflexivity..|apply forget_decomposes]. }
      eapply rtc_l; [exists 0%nat; eapply l_loc; reflexivity|].
      eapply rtc_l; [exists 1%nat; eapply l_plain; reflexivity|].
      eapply rtc_l; [exists 1%nat; eapply l_plain; reflexivity|]. apply rtc_refl.
    - eexists. split; [reflexivity|done].
    - reflexivity. }
  exists l. split; [exact Hs|]. split; [exact Hth|]. split; [exact Hl|].
  destruct (@sections_are_atomic N Ring.lib demo_agents demo_session l demo_agents_ok demo_session_wf Hs)
    as [(c & Hc & Hlog & _) _].
  exists c. by split.
Defined.

