(* ===== verification/Races.v ===== *)
(** * Interleavings that go wrong

    Executions with mutexes that the scheduler may choose and that do not do
    what the comments promise.  Each is a run of the very programs of [Fine]
    on the machine of [Locks], evaluated on a transport that behaves: streams
    of a closed connection fail, everything else answers. *)

From stdpp Require Import relations.
From S2P Require Import Prelude Netip Orp Resume StreamSwap Waiters Forward Session SessionInv.
From S2P Require Import Dialing Reconnect Incoming P2P Promote Safety Conc Fine ConcInv.
From S2P Require Import Locks Deadlock Mutexes.

Local Open Scope prog_scope.

(** ** A transport that remembers what was closed *)

(** The connection a stream was opened on. *)
Definition opened_on (st : stream) (t : trace) : option conn :=
  foldl (fun acc e =>
    match e with
    | EvOpenStream c (Ok st') => if bool_decide (st' = st) then Some c else acc
    | _ => acc
    end) (Some (mkConn 0)) t.

Definition conn_closed (c : conn) (t : trace) : bool :=
  existsb (fun e => match e with EvConnClose c' => bool_decide (c' = c) | _ => false end) t.

(** How many frames were read from the stream. *)
Definition frames_read (st : stream) (t : trace) : nat :=
  length (List.filter
    (fun e => match e with EvParseFrame st' _ => bool_decide (st' = st) | _ => false end) t).

(** The stream id of the STREAM_RESUME sent on a stream. *)
Definition resume_sent (st : stream) (t : trace) : option Z :=
  foldl (fun acc e =>
    match e with
    | EvWriteFrame st' FrameTypeStreamResume (MStreamResume m) (Ok _) =>
        if bool_decide (st' = st) then Some (sr_StreamId m) else acc
    | _ => acc
    end) None t.

(** Stream 7's peer resumes too; nobody resumes another stream.  On a control
    stream come HELLO_ACK, REGISTER_ACK and then STREAM_CHECKPOINT. *)
Definition race_frame (t : trace) (st : stream) : result Frame :=
  if conn_closed (default (mkConn 0) (opened_on st t)) t then Err (External 1)
  else
    match resume_sent st t with
    | Some id => if id =? 7 then Ok (mkFrame FrameTypeStreamResume [7; 0; 1]) else Err (External 2)
    | None =>
        match frames_read st t with
        | O => Ok (mkFrame FrameTypeHelloAck [])
        | 1%nat => Ok (mkFrame FrameTypeRegisterAck [])
        | _ => Ok (mkFrame FrameTypeStreamCheckpoint [7; 0; 1])
        end
    end.

Definition race_net : Net := {|
  net_dial t _ _ := Ok (mkConn (100 + length t));
  net_open t c := if conn_closed c t then Err (External 1) else Ok (mkStream (100 + length t));
  net_write_frame t st _ _ :=
    if conn_closed (default (mkConn 0) (opened_on st t)) t then Err (External 1) else Ok tt;
  net_parse_frame := race_frame;
  net_write _ _ p := (Z.of_nat (length p), None);
  net_accept t _ := Err (External 3);
  net_new_stream_id t _ _ _ := 9;
  net_handler t _ _ := Ok (mkBackend (length t));
  net_datagram _ _ _ _ := None;
  net_acquire _ _ := None;
  net_release _ _ _ := None;
  net_ctx_done _ := None;
  net_order _ _ l := l;
  unmarshal_HelloAck _ := Ok tt;
  unmarshal_IncomingStream := @unmarshal_IncomingStream (demo_net demo_frames);
  unmarshal_AllocGranted := @unmarshal_AllocGranted (demo_net demo_frames);
  unmarshal_StreamReady := @unmarshal_StreamReady (demo_net demo_frames);
  unmarshal_StreamResume := @unmarshal_StreamResume (demo_net demo_frames);
  unmarshal_StreamCheckpoint := @unmarshal_StreamCheckpoint (demo_net demo_frames);
  unmarshal_CandidateOffer := @unmarshal_CandidateOffer (demo_net demo_frames);
  unmarshal_CandidateAnswer := @unmarshal_CandidateAnswer (demo_net demo_frames);
  unmarshal_ObservedAddrResp := @unmarshal_ObservedAddrResp (demo_net demo_frames)
|}.

#[local] Existing Instance race_net.
#[local] Existing Instance Ring.lib.

Definition steps (i n : nat) : list nat := replicate n i.

(** ** A dial during a reconnect *)
Definition dial_and_reconnect : config Session :=
  start [[CReconnect ["r:1"]]; [CDial 3 "svc" ""]] demo_session.

(** OPEN_STREAM leaves on the old connection, the wrapper is made when the
    reconnect is over. *)
Definition late_wrap : list nat := steps 1 11 ++ steps 0 100 ++ steps 1 20.

(** The dial falls between the swap of the connection and the snapshot of the
    active streams. *)
Definition early_wrap : list nat := steps 0 12 ++ steps 1 30 ++ steps 0 100.

(** A live, registered stream whose transport is a closed connection while
    the session has an open one. *)
Definition stranded (r : nat) (s : Session) (t : trace) : Prop :=
  exists w c, s_store s !! r = Some w /\ s_streams s !! ID (rs_state w) = Some r /\
    g_abandoned (rs_guarded w) = false /\ opened_on (g_inner (rs_guarded w)) t = Some c /\
    conn_closed c t = true /\ conn_closed (s_conn s) t = false.

(** An abandoned stream whose transport stream is open on the session's
    connection. *)
Definition killed (r : nat) (s : Session) (t : trace) : Prop :=
  exists w, s_store s !! r = Some w /\ g_abandoned (rs_guarded w) = true /\
    opened_on (g_inner (rs_guarded w)) t = Some (s_conn s) /\ conn_closed (s_conn s) t = false /\
    (EvStreamClose (g_inner (rs_guarded w)) ∉ t).

#[local] Ltac run_it ord :=
  eexists; split; [apply (lschedule_reachable ord _ _ (agents_in_order _ _ (agents_start _ _)))|].

(** Everybody has returned. *)
Definition all_returnedb (l : lconfig (S := Session)) : bool :=
  forallb (fun th => match th with Out (Done _) => true | _ => false end) (l_threads l).

Lemma all_returned l : all_returnedb l = true -> Forall has_returned (l_threads l).
Proof.
  unfold all_returnedb. rewrite forallb_forall. intros H. apply Forall_forall. intros th Hth.
  specialize (H th (proj1 (list_elem_of_In _ _) Hth)). destruct th as [[u| |]|]; try done. by exists u.
Qed.

#[local] Ltac all_done := apply all_returned; vm_compute; reflexivity.
#[local] Ltac not_there := rewrite list_elem_of_In; vm_compute; intros H; repeat destruct H as [H|H]; done.

Lemma late_dial_stranded :
  exists c, rtc lstep (outside dial_and_reconnect) c /\ Forall has_returned (l_threads c) /\
    stranded 1 (l_state c) (l_trace c).
Proof.
  run_it late_wrap. split; [all_done|]. do 2 eexists. split; [vm_compute; reflexivity|].
  split_and!; vm_compute; reflexivity.
Qed.

Lemma early_dial_killed :
  exists c, rtc lstep (outside dial_and_reconnect) c /\ Forall has_returned (l_threads c) /\
    killed 1 (l_state c) (l_trace c).
Proof.
  run_it early_wrap. split; [all_done|]. eexists. split; [vm_compute; reflexivity|].
  split_and!; [vm_compute; reflexivity..|not_there].
Qed.

(** ** Two readers of one control stream *)
Definition serving : config Session :=
  start [[CStartResume 5 1 5 200; CRetry 0 3 ["r:1"]]] demo_session.

(** The reader holds a frame of the old control stream while the session
    reconnects. *)
Definition two_readers : list nat := steps 0 5 ++ steps 1 2 ++ steps 0 42 ++ steps 1 4 ++ steps 3 2.

(** It reads the new control stream before the REGISTER is acknowledged. *)
Definition stolen_ack : list nat := steps 0 5 ++ steps 1 2 ++ steps 0 20 ++ steps 1 4 ++ steps 0 3.

Definition read_by (i : nat) (st : stream) (typ : FrameType) (c : lconfig (S := Session)) : Prop :=
  exists p, (i, EvParseFrame st (Ok (mkFrame typ p))) ∈ l_log c.

(** Goroutine [i] has not returned. *)
Definition running (i : nat) (c : lconfig (S := Session)) : Prop :=
  unfinished i c.

Definition runningb (i : nat) (c : lconfig (S := Session)) : bool :=
  match l_threads c !! i with
  | None | Some (Out (Done _)) => false
  | Some _ => true
  end.

Lemma running_spec i c : runningb i c = true -> running i c.
Proof.
  unfold runningb, running, unfinished. destruct (l_threads c !! i) as [th|]; [|done]. intros Hp. exists th.
  split; [done|]. intros u ->. done.
Qed.

Lemma readers_overlap :
  exists c, rtc lstep (outside serving) c /\
    l_log c !! 0%nat = Some (0%nat, EvSpawn "controlReader") /\
    running 1 c /\ running 3 c /\
    read_by 1 (s_ctrl (l_state c)) FrameTypeStreamCheckpoint c /\
    read_by 3 (s_ctrl (l_state c)) FrameTypeStreamCheckpoint c.
Proof.
  run_it two_readers. split; [vm_compute; reflexivity|].
  split; [apply running_spec; vm_compute; reflexivity|].
  split; [apply running_spec; vm_compute; reflexivity|].
  split; eexists; apply list_elem_of_In; vm_compute; intuition eauto 30.
Qed.

Lemma reader_steals_ack :
  exists c, rtc lstep (outside serving) c /\
    read_by 1 (s_ctrl (l_state c)) FrameTypeRegisterAck c /\
    read_by 0 (s_ctrl (l_state c)) FrameTypeStreamCheckpoint c /\
    (0%nat, EvSleep Second false) ∈ l_log c.
Proof.
  run_it stolen_ack.
  split_and!; [eexists; apply list_elem_of_In; vm_compute; intuition eauto 30..|].
  apply list_elem_of_In. vm_compute. intuition eauto.
Qed.

(** ** A close during a resume *)
Definition close_and_reconnect : config Session :=
  start [[CReconnect ["r:1"]]; [CClose 0]] demo_session.

(** The stream is closed when the resume has only the swap left to do. *)
Definition close_before_swap : list nat := steps 0 30 ++ steps 1 30 ++ steps 0 30.

Lemma resume_leaks :
  exists c, rtc lstep (outside close_and_reconnect) c /\ Forall has_returned (l_threads c) /\
    closed 0 (l_state c) /\ killed 0 (l_state c) (l_trace c).
Proof.
  run_it close_before_swap. split; [all_done|]. split.
  - split; [eexists; split; vm_compute; reflexivity|]. split; [vm_compute; lia|].
    intros id. vm_compute. done.
  - eexists. split; [vm_compute; reflexivity|]. split_and!; [vm_compute; reflexivity..|not_there].
Qed.

(** ** The transport's fields *)

(** Goroutine [i] reads the field [s.ctrl] and then a frame from the stream
    [st]. *)
Definition reads_from (i : nat) (st : stream) (l : lconfig (S := Session)) : Prop :=
  exists l1 l2 r, lstep_at i l l1 /\ lstep_at i l1 l2 /\ l_log l2 = l_log l ++ [(i, EvParseFrame st r)].

(** Reconnect has acquired [ctrlWriteMu] and assigned [s.conn]; the control
    reader is at its loop. *)
Definition half_swapped : list nat := steps 0 18.

Lemma serving_in_order ord : exists hs, in_order (lschedule ord (outside serving)) hs.
Proof.
  pose proof (agents_in_order _ demo_session
    (agents_start [[CStartResume 5 1 5 200; CRetry 0 3 ["r:1"]]] demo_session)) as Ho.
  eapply in_order_steps; [exact Ho|]. by eapply lschedule_reachable.
Qed.

(** A step of goroutine [i] after the schedule [ord]. *)
Lemma serving_step ord i :
  bool_decide (is_Some (lthread_step i (lschedule ord (outside serving)))) = true ->
  lstep_at i (lschedule ord (outside serving)) (lschedule (ord ++ [i]) (outside serving)).
Proof.
  intros E. rewrite lschedule_app. destruct (serving_in_order ord) as [hs Ho]. by eapply lschedule_step.
Qed.

Lemma serving_reads ord st r :
  bool_decide (is_Some (lthread_step 1 (lschedule ord (outside serving)))) = true ->
  bool_decide (is_Some (lthread_step 1 (lschedule (ord ++ [1%nat]) (outside serving)))) = true ->
  l_log (lschedule ((ord ++ [1%nat]) ++ [1%nat]) (outside serving)) =
    l_log (lschedule ord (outside serving)) ++ [(1%nat, EvParseFrame st r)] ->
  reads_from 1 st (lschedule ord (outside serving)).
Proof. intros E1 E2 El. do 3 eexists. split_and!; [by apply serving_step|by apply serving_step|exact El]. Qed.

(** ** Properties *)


(** C25. The control reader can outlive its control stream: a reader that is
    handling a frame while the session reconnects goes on with the new
    control stream, so that two readers are alive on it; and it can take the
    REGISTER_ACK, upon which the reconnect fails and is retried. *)
Theorem control_readers_overlap :
  exists c c', rtc lstep (outside serving) c /\ rtc lstep (outside serving) c' /\
    (running 1 c /\ running 3 c /\
     read_by 1 (s_ctrl (l_state c)) FrameTypeStreamCheckpoint c /\
     read_by 3 (s_ctrl (l_state c)) FrameTypeStreamCheckpoint c) /\
    (read_by 1 (s_ctrl (l_state c')) FrameTypeRegisterAck c' /\
     read_by 0 (s_ctrl (l_state c')) FrameTypeStreamCheckpoint c' /\
     (0%nat, EvSleep Second false) ∈ l_log c').
Proof.
  destruct readers_overlap as (c & ? & _ & ? & ? & ? & ?).
  destruct reader_steals_ack as (c' & ? & ? & ? & ?). exists c, c'. by split_and!.
Qed.

(** C26. A stream closed while it is being resumed leaves its new transport
    stream open: Close has returned, the wrapper is abandoned and
    unregistered, and the stream that the resume opened and swapped in
    afterwards is never closed. *)
Theorem resume_leaks_closed_stream :
  exists c, rtc lstep (outside close_and_reconnect) c /\ Forall has_returned (l_threads c) /\
    closed 0 (l_state c) /\ killed 0 (l_state c) (l_trace c).
Proof. exact resume_leaks. Qed.

(** C27. The fields [s.conn] and [s.ctrl] are written under a mutex that their
    readers do not take: there is an execution in which Reconnect, holding
    ctrlWriteMu, is about to assign [s.ctrl] and the control reader is about
    to read it, both can step, and which of them goes first decides whether
    the reader reads from the old stream or from the new one. *)
Theorem transport_race :
  exists l lw, rtc lstep (outside serving) l /\ (CtrlWriteMu ∈ l_held l) /\ lstep_at 0 l lw /\
    s_ctrl (l_state lw) <> s_ctrl (l_state l) /\
    reads_from 1 (s_ctrl (l_state l)) l /\ reads_from 1 (s_ctrl (l_state lw)) lw.
Proof.
  exists (lschedule half_swapped (outside serving)), (lschedule (half_swapped ++ [0%nat]) (outside serving)).
  split_and!.
  - apply (lschedule_reachable _ _ _ (agents_in_order _ _ (agents_start _ _))).
  - apply list_elem_of_In. vm_compute. by left.
  - apply serving_step. vm_compute. reflexivity.
  - vm_compute. discriminate.
  - eapply serving_reads; vm_compute; reflexivity.
  - eapply serving_reads; vm_compute; reflexivity.
Qed.
